(* ===== verification/_CoqProject ===== *)
-Q . S2P
Prelude.v
GoChan.v
Pipe.v
RoundRobin.v
PtrMap.v
Queue.v
QueueHub.v
Link.v
Starts.v
Sends.v
Striping.v
Lossy.v
StripingRun.v
Delivery.v
Base64.v
Json.v
Messages.v
Hub.v
Server.v
Handshake.v
HeartBeat.v
Client.v
Finish.v
Wire.v
Direction.v
DirectionRun.v
Arrival.v
Session.v
Upstream.v
Downstream.v
ClientProc.v
ClientTable.v
ClientSafe.v
ClientRun.v
Typing.v
ClientTyped.v
ServerTyped.v
System.v
LinkOwner.v
Passage.v
Follow.v
ServerOwner.v
QueueOwner.v
ClientOwner.v
CallFollow.v
ClientProxies.v
ClientFollow.v
ServerFollow.v
ServerQueues.v
ServerAnswers.v
ClientLinks.v
ClientCollects.v
EndToEnd.v
EndToEndBack.v
Opening.v
SessionRun.v
Net.v
Private.v
Socks5.v
ConnRecords.v
BufferedWR.v
Version.v
Status.v
Cli.v
Flags.v
Plugins.v
Listener.v
Accept.v
TermView.v
TermWindows.v
HttpUtils.v
Handles.v
Commands.v
Entry.v
Witnesses.v
WitnessesSystem.v
WitnessesEnd.v
WitnessesBack.v
