(* ===== verification/Prelude.v ===== *)
(** * wssocks: a verification development

    wssocks is a SOCKS5 proxy through websockets.  The client listens for SOCKS
    connections; the bytes of each accepted connection are dealt over several
    websockets to the server, which collects them, dials the target and sends the
    target's bytes back the same way.  This library models the Go code under src/
    and proves what makes it correct.  Definitions have the names of the source;
    where a name is taken, it has the name of its type in front.

    ** How the program is put together

    - Package pipe (src/pipe/): one direction of a proxied connection.
      [CopyBuffer] reads a TCP connection into a [queue]; [queue.Send] deals its
      chunks round robin over the websockets of the connection; at the other end
      the dispatcher of each websocket puts its chunks into that websocket's
      [link], and [link.Send] of the master link collects them in the same order
      and writes to the other TCP connection.  [QueueHub] and [LinkHub] find
      queues and links by ID.
    - Package wss (src/wss/), server: [ServerWS.ServeHTTP] serves one websocket
      and dispatches its messages; [establish] runs in a goroutine for each
      proxied connection; [Hub] and [HubCollection] register them.
    - Package wss, client: [ListenIncomeMsg] dispatches the messages of a
      websocket to the closures of [transData], which carries one SOCKS
      connection; [ListenAndServe] accepts the connections, [Reply] reads the
      SOCKS request, [ConnRecord] counts the connections, term_view shows them.
    - src/client/ and src/cmd/: the life cycle of the client process and the
      options of the two commands.

    ** The files

    - Prelude: bytes, errors, identifiers, machine integers, automation.
    - GoChan: Go's channels.  Base64, Json, Net: what the program uses of Go's
      encoding/base64, encoding/json, net and strconv.
    - Pipe: pipe/func.go, dead.go and tcp.go; the interface [PipeWriter] is a
      class, and [PipeWriterLaws] is what [CopyBuffer] needs of a writer.
    - RoundRobin: the arithmetic that both [Send]s share.
    - PtrMap: hubs as maps to shared pointers; the class [HubObject] is what a hub
      needs of its objects.
    - Queue, QueueHub: pipe/queue.go.  Link: pipe/link.go.
    - Striping: one whole direction as a transition system, with any failure but a
      dropped chunk, and its invariant.  Lossy: the same with dispatchers whose
      [link.Write] times out ([lossy_step]), and its safety.  StripingRun: both,
      executable.  Delivery: its liveness.
    - Messages: the messages (ws_datatypes.go, concurrent_websocket.go,
      proxy_client.go).
    - Hub: hub.go, hub_collection.go.  Server: proxy_server.go, wssocks_server.go.
      Handshake: a proxied connection from hello to [Send], on the server.
    - Client: websocket_client.go, and [transData] of wssocks_client.go.  Finish:
      how either side ends a connection.
    - Starts: when the two [Send]s are started, among whatever else happens.  Wire:
      the websockets with the JSON messages on them, an instance of the class
      [Transport] of Striping.  Direction: a direction between two processes, with
      the hubs and writers of the program; its steps are those of Striping.
      DirectionRun: the same, executable.  Arrival: its liveness.  Session,
      Upstream, Downstream: a connection from [transData]'s first message to the
      bytes at the other end, client to server and back, and its invariant.
      Opening: its liveness.  SessionRun: the same, executable, with two connections run to
      their end.
    - Sends: the goroutines that run [Send], from an interface ([Sender]) that
      queues and links implement.  ClientProc: the client process with all of its
      goroutines, a call of [transData] being one that interleaves with the others
      ([call_step], [cp_exec]).  ClientTable: what the calls own in the two hubs.
      ClientSafe: the invariant of the process.  ClientRun: what holds in all its
      runs.
    - Typing: the messages of the protocol, what the two dispatchers do with each
      ([serve], [consume]), and which may be on a websocket ([up_type],
      [down_type]).  ClientTyped, ServerTyped: what each process sends.  System:
      both processes with the websockets between them ([sy_exec]).
    - One call of [transData] among all others.  LinkOwner, QueueOwner: the links
      and the queue of a connection in a hub that other connections use too.
      Passage: what is under way for the connection, from its hello messages to
      its removal at the server.  ClientOwner, ServerOwner: the steps of each
      process that are not for the connection.  Follow, CallFollow,
      ClientFollow, ServerFollow: the steps that are.  EndToEnd: the two
      processes, and the [Send]s of the server's links ([tk_exec]).
    - The way back of that call.  ServerQueues, ServerAnswers: its queue in the
      server's hub, from the first hello message on.  ClientProxies, ClientLinks,
      ClientCollects: its proxies and links at the client, until it has been
      removed.  EndToEndBack: both together, with what each queue of the server has
      accepted ([aw_exec]).
    - Listener, Accept: a SOCKS connection, and the accept loop with [Close].
    - Socks5, Private, ConnRecords, BufferedWR, Version: the files of
      src/wss/ that their headers name.
    - TermView, TermWindows: wss/term_view.  HttpUtils: http_utils.go.  HeartBeat: wss/heart_beat.go.  Status:
      wss/status/status.go.
    - Plugins, Flags, Cli, Commands, Handles: src/client/ and src/cmd/.  Entry:
      main.go, version/ and the registration of the commands.
    - Witnesses, WitnessesSystem, WitnessesEnd, WitnessesBack: each theorem with hypotheses at a concrete input.

    ** State, steps and effects

    Goroutines that share an object are modelled by the object in a heap and steps
    on the whole state: [Send_step] of Queue and Link, [establish_step],
    [ServeHTTP_step], [task_step] of Handles are machines whose program counter
    names the next piece of the code that runs without another goroutine coming
    between in a way that matters; [qh_step], [lh_step], [sys_step], [lossy_step],
    [dir_step], [up_step], [sv_step], [cp_exec], [sy_exec], [tk_exec], [aw_exec],
    [li_exec] and [h_step] interleave them.  A method that holds a mutex is one step.  A panic is
    [None], [Panicked] or a program point of its own; a blocked call is a result of
    its own, or has no step.  What the environment decides (the case of a select, the
    error of a read, a dial or a write, the time, the order in which a map is
    ranged over) is an argument or an event.  IDs are the class [Ksuid]; their text
    is [KsuidText], with the law that parsing undoes printing.  Integers that can
    overflow have their wrap-around ([int64], [uint64]).

    ** What is shown

    - End to end: while the two processes run any number of calls, and other
      clients use the server, what the server writes to the target of a call is a
      prefix of what the call's [CopyBuffer] has given to its queue; it closes the
      connection for writing only after all of it, and the call has at most one
      running [Send] at the server ([upstream_end_to_end]).  In the same runs what
      the client writes to the SOCKS connection of the call is a prefix of what the
      call's one started queue at the server has accepted from the target, with
      the same about its end and about the [Send]s
      ([downstream_end_to_end]).
    - Both processes together, with any number of connections: every message on a
      websocket has a type of its direction, each dispatcher decodes it, finds no
      error in it and does not panic on it ([messages_well_typed]); no goroutine of
      the client panics ([client_never_panics]); a call that has returned has left
      nothing under its master's ID, on its websockets or in its writers
      ([calls_clean_up]), but [early_removal_leaks].
    - A connection from [transData] and the server's dispatchers on, in whatever
      order the messages of the different websockets are handled: while nothing
      fails, everything arrives, bytes and end of file, after a bounded number of
      steps ([upstream_arrives], [downstream_arrives], the latter for one [Send] of
      the server's queue, and then a second one that starts late returns at once);
      the server handles every message of the handshake, and starts the master
      link's [Send] exactly when establish has dialled ([upstream_opens]).
    - Transport: what the receiver writes is at any time a prefix of what the sender
      took, whatever fails, as long as no dispatcher has given up on a full link;
      and when one has, it is still made of what each websocket was given, in its
      order ([stream_prefix], also among other connections on
      the same websockets and hubs; [dropped_chunk_corrupts] shows that no more
      holds then); without failures all of it arrives and
      the end of file with it ([stream_delivered]); [Send] deals round robin
      ([Send_round_robin]); a message is read back as the chunk written
      ([data_message_roundtrip]), and the dispatcher writes it to the link, waits
      for room, or loses it to the timer ([chunk_delivered], with the cases of
      [receives]); [CopyBuffer] neither loses nor
      invents bytes ([CopyBuffer_complete], [CopyBuffer_prefix]) and memory stays
      bounded ([CopyBuffer_queue_bounded]).
    - Setting up: [server_handshake], [transData_setup], [trySend_covered],
      [versions_agree], [NegotiateVersion_accepts], [connection_key_checked],
      [Reply_request], [checkAddrPrivite_ranges], [client_command_line].
    - The processes: [server_starts], [client_starts], [heart_beat_loop],
      [status_page], [accept_loop_ends], [close_waits], [listener_keeps_record].
    - Releasing: [finish_releases], [server_closes_safely], [establish_cleans_up], [hub_Close_releases],
      [trans_return_releases], [LinkHub_removal_safe], [QueueHub_removal_safe],
      [Send_close_terminates], [client_exits].
    - Errors: [dispatch_error_harmless], [Reply_errors].
    - Small parts: [request_header_roundtrip], [windows_clear_lines], [main_fatal].
    - Defects of the code, each as a theorem on the faithful model:
      [Send_twice_panics], [Send_after_close_never_stops], [Send_empty_order_spins],
      [Send_returns_after_wait] (nobody waits for the client's queues),
      [finish_while_establishing_panics], [dropped_chunk_corrupts],
      [early_failure_never_exits], [checkAddrPrivite_misses_ipv6],
      [Reply_unknown_type], [BufferedWR_false_EOF], [log_write_fails].

    ** What a release is

    [pm_removes] (PtrMap) says of a hub that exactly the objects of the given IDs
    were taken out and closed and that all others are as before; [released] (Hub) is
    that of the queue of a connection together with its links on all websockets,
    [link_ids] being the order of the master link, over which [RemoveAll] loops.
    A terminal (TermView) has a width and a height: what is shown there is proved
    for rows that fit; a wider row is left behind ([wide_table_left_behind]), and
    when the size of the terminal cannot be had, writing a line of the log
    deadlocks ([log_write_fails]).  Between the two ends of a header
    ([connection_key_checked]) net/http trims its values and refuses some
    ([send_headers]).

    ** Fuel and bounds

    Loops are structural on their input (the list of reads, of events, of headers,
    the bytes of a text) or are machines run by a list of events.  Only the parser of
    IPv6 addresses has fuel: 9 rounds ([parse_groups] of Net), each of which but the
    last adds two of at most sixteen bytes, so that it never runs out.  Termination is stated by
    measures on steps: [send_measure], [work], [load], [h_work].

    ** Composition

    Direction, Upstream and Downstream serve the liveness theorems, so they have
    the runs in which nothing is given up: one [Send] of the queue, no [link.Write]
    that times out, and no finish message while the connection is being opened.
    Those are in Lossy, Queue ([Send_twice_panics]), Server
    ([finish_while_establishing_panics]), Finish, and in the two whole processes of
    EndToEnd and EndToEndBack.  Whether establish dials or returns early is an
    argument of [up_step].  Other connections are steps that leave this one's
    links, queue and messages as they are.  Each theorem follows one
    direction; the two share the messages of the handshake and the state in which
    [transData] leaves the client ([client_ready]).  The chain from the code to a
    theorem about the whole is: the machines of Queue and Link; Striping, which
    composes them; Direction, whose steps are simulated by those of Striping
    ([dir_step_sim], [dir_exec_sys]); Upstream and Downstream, whose invariants
    lead into that of Striping when the [Send]s start ([up_started],
    [down_started]).  The liveness theorems take the same way ([works],
    [dir_works], [up_good]); where a websocket carries messages of other
    connections too, the dispatcher is assumed to be done with each of them at
    some time ([dir_skip], [up_skip]).

    ClientProc has the steps of [transData] that Client has in one function;
    the lemma [call_alone] ties the two together.  The client's own safety needs that the server
    sends a finish message only for a connection that it was told to establish
    ([polite]); System has the server that does so, and [messages_well_typed] says
    that the client in it is a client of ClientRun.  The server of System is that
    of Server, where the [Send]s of its links are any steps of [Link.Send_step]; in
    EndToEnd they have program points, and [tk_reachable_inv] carries, through
    every step of both processes, where a call stands: its own variables
    ([stands]), what it has said and not yet sent, what is on the websockets for
    its IDs, and what the server's hub has of it ([follows]), until the server
    removes it.  The steps of other calls and clients leave that as it is because
    their IDs are others ([strange], [moves]).  [tk_fair] says what is assumed:
    the IDs are not given to anybody else, the hello messages of the call are not
    lost, it copies nothing after the end of its input, and the server's wait for
    room in a link does not time out ([dropped_chunk_corrupts] shows why).
    EndToEndBack adds, for the way back, what the sender and the receiver are in
    the system of Striping: [answers] says what the queue is, which is a sender
    with nothing to send while it waits for its connections, and [collects] what
    the links are; a step of one side leaves the other where it is ([advances]),
    so that either side is followed alone.  [aw_fair] adds to [tk_fair] that
    the SOCKS connection is new and writing to it does not panic, that the client's
    wait for room in a link does not time out, that a listener that was stopped
    reads nothing more, that a message is lost only with an error, that nothing is
    copied from the target after its end, and that of two [Send]s of the call's
    queue the second tests the status after the first has set it
    ([Send_twice_panics] shows why).  The SOCKS side of
    the client before [transData] is Listener and Accept.

    ** What is not modelled

    The text of JSON, TLS, HTTP and the websocket protocol (the libraries' own), DNS
    and dialling (parameters and events), logging and debug output;
    the layout of text/tabwriter (a parameter with its law); package cmds, which
    finds the command to run (a parameter of Entry); the console of Windows beyond
    the calls made to it; play/ (experiments).  The data races on [status] fields are modelled as
    interleavings of whole reads and writes, not under Go's weak memory model. *)
From Stdlib Require Export ZArith Lia.
From stdpp Require Export base numbers strings list gmap.

#[global] Set Default Proof Using "Type".

(** * Bytes and strings

    A Go [byte] is an [ascii]; a [[]byte] is a list of them; a Go [string] is
    Rocq's [string], which has the same content ([bytes_of], [string_of]). *)
Abbreviation byte := Ascii.ascii.
Abbreviation bytes := (list Ascii.ascii).

Definition string_of (b : bytes) : string := String.string_of_list_ascii b.
Definition bytes_of (s : string) : bytes := String.list_ascii_of_string s.

(** The value of a byte, and the byte of a value (Go's conversion [byte(n)],
    which keeps the low eight bits). *)
Definition byte_val (b : byte) : Z := Z.of_N (Ascii.N_of_ascii b).
Definition byte_of_Z (z : Z) : byte := Ascii.ascii_of_N (Z.to_N (z `mod` 256)).

Lemma byte_val_bound b : (0 <= byte_val b < 256)%Z.
Proof. unfold byte_val. pose proof (Ascii.N_ascii_bounded b). lia. Qed.

Lemma byte_of_Z_val b : byte_of_Z (byte_val b) = b.
Proof.
  unfold byte_of_Z. rewrite Z.mod_small by apply byte_val_bound.
  unfold byte_val. rewrite N2Z.id. apply Ascii.ascii_N_embedding.
Qed.

Lemma byte_val_of_Z z : (0 <= z < 256)%Z -> byte_val (byte_of_Z z) = z.
Proof.
  intros Hz. unfold byte_of_Z, byte_val. rewrite Z.mod_small by done.
  rewrite Ascii.N_ascii_embedding by lia. lia.
Qed.

Lemma bytes_of_string_of b : bytes_of (string_of b) = b.
Proof. apply String.list_ascii_of_string_of_list_ascii. Qed.

Lemma string_of_bytes_of s : string_of (bytes_of s) = s.
Proof. apply String.string_of_list_ascii_of_string. Qed.

(** * Errors

    The [error] values the program builds or tests for.  [errors_New] is
    [errors.New], and also [fmt.Errorf] once its format has been applied. *)
Inductive error :=
  | EOF                       (* io.EOF *)
  | ErrClosedPipe             (* io.ErrClosedPipe *)
  | ErrShortWrite             (* io.ErrShortWrite *)
  | errors_New (msg : string).

#[export] Instance error_eq_dec : EqDecision error.
Proof. solve_decision. Defined.

(** The method [Error()] of these values. *)
Definition Error (e : error) : string :=
  match e with
  | EOF => "EOF"
  | ErrClosedPipe => "io: read/write on closed pipe"
  | ErrShortWrite => "short write"
  | errors_New msg => msg
  end.

(** * Identifiers

    [ksuid.KSUID] comes from github.com/segmentio/ksuid.  The hubs only use it
    as a map key and compare it, so all they need of it is a type with
    decidable equality that can be a key. *)
Class Ksuid := {
  KSUID : Type;
  #[global] ksuid_eq_dec :: EqDecision KSUID;
  #[global] ksuid_countable :: Countable KSUID;
}.

(** A concrete instance, for the evaluations of the witnesses. *)
Definition ksuid_N : Ksuid := {| KSUID := N |}.

(** * Machine integers

    Two's complement wrap-around of Go's [int64] (and of [int] on 64-bit
    platforms), and of its [uint] and [uint64]. *)
Definition int64 (z : Z) : Z := (z + 2 ^ 63) `mod` 2 ^ 64 - 2 ^ 63.
Definition uint64 (z : Z) : Z := z `mod` 2 ^ 64.

Lemma int64_small z : (- 2 ^ 63 <= z < 2 ^ 63)%Z -> int64 z = z.
Proof. intros Hz. unfold int64. rewrite Z.mod_small; lia. Qed.

Lemma int64_add_l a b : int64 (int64 a + b) = int64 (a + b).
Proof.
  unfold int64.
  replace ((a + 2 ^ 63) `mod` 2 ^ 64 - 2 ^ 63 + b + 2 ^ 63)%Z
    with ((a + 2 ^ 63) `mod` 2 ^ 64 + b)%Z by lia.
  rewrite Zplus_mod_idemp_l. do 2 f_equal. lia.
Qed.

Lemma uint64_small z : (0 <= z < 2 ^ 64)%Z -> uint64 z = z.
Proof. apply Z.mod_small. Qed.

(** * Automation *)

(** Split every conjunction, existential and equation of the context. *)
Ltac destruct_all :=
  repeat match goal with
  | H : _ /\ _ |- _ => destruct H
  | H : exists _, _ |- _ => destruct H
  | H : (_, _) = (_, _) |- _ => injection H as; subst
  | H : Some _ = Some _ |- _ => injection H as; subst
  end.

(** Case analysis of every match of the hypotheses and the goal, closing the
    impossible cases. *)
Ltac crush_match := repeat (case_match; simplify_eq/=); try done.

Create HintDb wss discriminated.

(** * Lists *)

Lemma drop_cons_inv {A} (l : list A) n x r :
  drop n l = x :: r -> l !! n = Some x /\ drop (S n) l = r.
Proof.
  intros H. split.
  - rewrite <- (Nat.add_0_r n), <- lookup_drop, H. done.
  - rewrite <- Nat.add_1_r, <- drop_drop, H. done.
Qed.

Lemma omap_cons {A B} (f : A -> option B) x (l : list A) :
  omap f (x :: l) = match f x with Some y => y :: omap f l | None => omap f l end.
Proof. done. Qed.

Lemma length_omap {A B} (f : A -> option B) l : length (omap f l) <= length l.
Proof. induction l as [|x l IH]; simpl; [done|]. destruct (f x); [apply le_n_S|apply le_S]; exact IH. Qed.

Lemma prefix_of_app {A} (l k m : list A) : l ++ k = m -> l `prefix_of` m.
Proof. intros <-. by apply prefix_app_r. Qed.

Lemma prefix_trans' {A} (l k m : list A) :
  l `prefix_of` k -> k `prefix_of` m -> l `prefix_of` m.
Proof. intros. by etrans. Qed.

#[export] Hint Resolve prefix_of_app prefix_trans' : wss.

Lemma int64_idemp a : int64 (int64 a) = int64 a.
Proof. pose proof (int64_add_l a 0) as H. by rewrite !Z.add_0_r in H. Qed.

(** * The number of distinct elements of a list *)

Lemma size_list_to_set_le `{Countable A} (l : list A) :
  size (list_to_set l : gset A) <= length l.
Proof.
  induction l as [|x l IH]; simpl; [done|].
  rewrite size_union_alt, size_singleton.
  assert (size (list_to_set l ∖ {[x]} : gset A) <= size (list_to_set l : gset A));
    [apply subseteq_size; set_solver|]. lia.
Qed.

Lemma NoDup_size_list_to_set `{Countable A} (l : list A) :
  length l <= size (list_to_set l : gset A) -> NoDup l.
Proof.
  induction l as [|x l IH]; simpl; intros Hle; [constructor|].
  pose proof (size_list_to_set_le l).
  assert (x ∉ l) as Hx.
  { intros Hin. assert ({[x]} ∪ list_to_set l = (list_to_set l : gset A)) as E by set_solver.
    rewrite E in Hle. lia. }
  constructor; [done|]. apply IH.
  rewrite size_union, size_singleton in Hle by set_solver. lia.
Qed.

(** * Sums *)

Lemma sum_list_with_le {A} (f g : A -> nat) (l : list A) :
  (forall x, x ∈ l -> f x <= g x) -> sum_list_with f l <= sum_list_with g l.
Proof.
  induction l as [|x l IH]; intros Hfg; simpl; [done|].
  apply Nat.add_le_mono; [apply Hfg|apply IH; intros y Hy; apply Hfg]; set_solver.
Qed.

(** Two functions that differ by at most one, at one element. *)
Lemma sum_list_with_one `{!EqDecision A} (f g : A -> nat) (x : A) (l : list A) :
  NoDup l -> f x <= S (g x) -> (forall y, y <> x -> f y <= g y) ->
  sum_list_with f l <= S (sum_list_with g l).
Proof.
  intros Hl Hx Hne. induction Hl as [|y l Hy _ IH]; simpl; [lia|].
  destruct (decide (y = x)) as [->|Hyx].
  - assert (sum_list_with f l <= sum_list_with g l); [|lia].
    apply sum_list_with_le. intros z Hz. apply Hne. congruence.
  - specialize (Hne y Hyx). lia.
Qed.

Lemma sum_list_with_lt {A} (f g : A -> nat) (x : A) (l : list A) :
  x ∈ l -> f x < g x -> (forall y, f y <= g y) -> sum_list_with f l < sum_list_with g l.
Proof.
  intros Hin Hx Hle. induction l as [|y l IH]; [by apply not_elem_of_nil in Hin|]. simpl.
  assert (sum_list_with f l <= sum_list_with g l) by (by apply sum_list_with_le).
  specialize (Hle y). apply elem_of_cons in Hin as [->|Hin]; [|specialize (IH Hin)]; lia.
Qed.

Lemma sum_list_with_insert {A} (f : A -> nat) (l : list A) j x y :
  l !! j = Some y -> sum_list_with f (<[j := x]> l) + f y = sum_list_with f l + f x.
Proof.
  revert j. induction l as [|z l IH]; intros [|j] H; simpl in *; try done.
  - injection H as ->. lia.
  - specialize (IH j H). lia.
Qed.
