(* ===== verification/GoChan.v ===== *)
(** Go channels.

    A buffered channel is its capacity, the values waiting in it (oldest
    first) and whether it has been closed.  The operations follow the language
    specification: a send on a closed channel panics, a send on a full channel
    blocks, a receive takes the oldest value, gives the zero value once the
    channel is closed and drained, and blocks otherwise; closing twice
    panics.  Blocking is a result of its own, so that callers can model a
    [select]. *)
From S2P Require Import Prelude.

Record chan (A : Type) := mkChan {
  chan_cap : nat;
  chan_items : list A;
  chan_closed : bool;
}.
Arguments mkChan {A} _ _ _.
Arguments chan_cap {A} _.
Arguments chan_items {A} _.
Arguments chan_closed {A} _.

Inductive send_res (A : Type) :=
  | SendOk (c : chan A)
  | SendBlocks
  | SendPanics.
Arguments SendOk {A} _.
Arguments SendBlocks {A}.
Arguments SendPanics {A}.

Inductive recv_res (A : Type) :=
  | RecvOk (x : A) (c : chan A)
  | RecvZero
  | RecvBlocks.
Arguments RecvOk {A} _ _.
Arguments RecvZero {A}.
Arguments RecvBlocks {A}.

Section ops.
Context {A : Type}.
Implicit Types (c : chan A) (x : A).

(** [make(chan A, n)] *)
Definition make_chan (n : nat) : chan A := mkChan n [] false.

(** [c <- x] *)
Definition chan_send c x : send_res A :=
  if chan_closed c then SendPanics
  else if Nat.ltb (length (chan_items c)) (chan_cap c)
       then SendOk (mkChan (chan_cap c) (chan_items c ++ [x]) false)
       else SendBlocks.

(** [<-c] *)
Definition chan_recv c : recv_res A :=
  match chan_items c with
  | x :: rest => RecvOk x (mkChan (chan_cap c) rest (chan_closed c))
  | [] => if chan_closed c then RecvZero else RecvBlocks
  end.

(** [close(c)]; [None] is the panic on a channel already closed. *)
Definition chan_close c : option (chan A) :=
  if chan_closed c then None
  else Some (mkChan (chan_cap c) (chan_items c) true).

(** The bound every channel keeps. *)
Definition chan_wf c : Prop := length (chan_items c) <= chan_cap c.

Lemma make_chan_wf n : chan_wf (make_chan n).
Proof. unfold chan_wf; simpl; lia. Qed.

Lemma chan_send_inv c x c' :
  chan_send c x = SendOk c' ->
  chan_closed c = false /\ chan_closed c' = false /\
  chan_items c' = chan_items c ++ [x] /\ chan_cap c' = chan_cap c.
Proof. unfold chan_send. crush_match. intros; simplify_eq/=. done. Qed.

Lemma chan_send_wf c x c' : chan_wf c -> chan_send c x = SendOk c' -> chan_wf c'.
Proof.
  unfold chan_send, chan_wf. repeat case_match; intros; simplify_eq/=.
  rewrite length_app. simpl.
  match goal with H : Nat.ltb _ _ = true |- _ => apply Nat.ltb_lt in H end. lia.
Qed.

Lemma chan_recv_ok_inv c x c' :
  chan_recv c = RecvOk x c' ->
  chan_items c = x :: chan_items c' /\ chan_closed c' = chan_closed c /\
  chan_cap c' = chan_cap c.
Proof. unfold chan_recv. crush_match. intros; simplify_eq/=. done. Qed.

Lemma chan_recv_zero_inv c :
  chan_recv c = RecvZero -> chan_items c = [] /\ chan_closed c = true.
Proof. unfold chan_recv. crush_match. Qed.

Lemma chan_close_inv c c' :
  chan_close c = Some c' ->
  chan_closed c = false /\ chan_closed c' = true /\
  chan_items c' = chan_items c /\ chan_cap c' = chan_cap c.
Proof. unfold chan_close. crush_match. intros; simplify_eq/=. done. Qed.

Lemma chan_close_open c : chan_closed c = false -> is_Some (chan_close c).
Proof. unfold chan_close. intros ->. eauto. Qed.
End ops.

#[export] Hint Resolve chan_send_wf make_chan_wf chan_close_open : wss.
