(* ===== verification/Pipe.v ===== *)
(** Package [pipe]: its shared definitions (pipe/func.go, pipe/dead.go and
    pipe/tcp.go).

    [CopyBuffer] is written against the interface [PipeWriter], as in the
    code.  What a writer promises is the class [PipeWriterLaws]; the theorems
    on [CopyBuffer] are proved from it, and each implementation of the
    interface ([tcp] here, [queue] in Queue.v) discharges it. *)
From S2P Require Import Prelude GoChan.

(** * Constants and states *)

(** Durations are in nanoseconds. *)
Definition Second : Z := 1000000000.
Definition Minute : Z := 60 * Second.
Definition Hour : Z := 60 * Minute.

Definition pipeDebug : bool := false.
Definition expHour : Z := 1 * Hour.
Definition expFiveMinute : Z := 5 * Minute.

(** The Go program keeps these as the strings "wait", "send", "done" and
    "close". *)
Inductive status := StaWait | StaSend | StaDone | StaClose.

#[export] Instance status_eq_dec : EqDecision status.
Proof. solve_decision. Defined.

Record dead := mkDead { Line : Z }.

Definition NewDead : dead := mkDead (5 * Minute).

(** What travels in the channels of the package. *)
Record buffer := mkBuffer { b_eof : bool; b_data : bytes }.

#[export] Instance buffer_eq_dec : EqDecision buffer.
Proof. solve_decision. Defined.

(** The zero value, which a receive from a closed channel gives. *)
Definition buffer_zero : buffer := mkBuffer false [].

Definition data_of (l : list buffer) : bytes := concat (map b_data l).

Definition makeBuffer : chan buffer :=
  if pipeDebug then make_chan 1 else make_chan 10.

Lemma data_of_app l k : data_of (l ++ k) = data_of l ++ data_of k.
Proof. unfold data_of. by rewrite map_app, concat_app. Qed.

Lemma data_of_cons b l : data_of (b :: l) = b_data b ++ data_of l.
Proof. done. Qed.

Lemma data_of_snoc l b : data_of (l ++ [b]) = data_of l ++ b_data b.
Proof. rewrite data_of_app. unfold data_of. simpl. by rewrite app_nil_r. Qed.

(** * Reading with a timeout

    The [select] of [readWithTimeout] waits for the timer or for the channel.
    Which of the two it takes is decided by the environment: [timer] says that
    it was the timer.  [None] means that the goroutine is still waiting.  Both
    cases of the [select] return, so the [for] around it never iterates. *)
Definition readWithTimeout (b : chan buffer) (timer : bool) :
    option (chan buffer * (buffer * option error)) :=
  if timer then Some (b, (buffer_zero, Some (errors_New "time out")))
  else match chan_recv b with
       | RecvOk data b' => Some (b', (data, None))
       | RecvZero => Some (b, (buffer_zero, None))
       | RecvBlocks => None
       end.

(** * The local TCP connection

    The write half of a [net.TCPConn]: the bytes it has taken and whether the
    half has been shut down.  [conn_res] is the outcome of a call, decided by
    the network: by the contract of [io.Writer] a call that returns no error
    has taken every byte, and one that fails may have taken some. *)
Record TCPConn := mkConn { tc_sent : bytes; tc_eof : bool }.

Inductive conn_res := ConnOk | ConnErr (k : nat) (e : error) | ConnPanic.

Definition conn_Write (r : conn_res) (c : TCPConn) (data : bytes) :
    option (TCPConn * (Z * option error)) :=
  match r with
  | ConnOk => Some (mkConn (tc_sent c ++ data) (tc_eof c), (Z.of_nat (length data), None))
  | ConnErr k e =>
      let sent := take k data in
      Some (mkConn (tc_sent c ++ sent) (tc_eof c), (Z.of_nat (length sent), Some e))
  | ConnPanic => None
  end.

Definition conn_CloseWrite (r : conn_res) (c : TCPConn) :
    option (TCPConn * option error) :=
  match r with
  | ConnOk => Some (mkConn (tc_sent c) true, None)
  | ConnErr _ e => Some (c, Some e)
  | ConnPanic => None
  end.

(** [safeWrite]: a nil connection is an error, and a panic of the call is
    recovered, which leaves the named results at their zero values. *)
Definition safeWrite (r : conn_res) (conn : option TCPConn) (data : bytes)
    (closeWrite : bool) : option TCPConn * (Z * option error) :=
  match conn with
  | None => (None, (0%Z, Some (errors_New "conn is closed")))
  | Some c =>
      if closeWrite then
        match conn_CloseWrite r c with
        | Some (c', err) => (Some c', (0%Z, err))
        | None => (Some c, (0%Z, None))
        end
      else
        match conn_Write r c data with
        | Some (c', res) => (Some c', res)
        | None => (Some c, (0%Z, None))
        end
  end.

(** * The interface [PipeWriter]

    A call is a function of the writer's state and of [pw_env], what the rest
    of the world does during the call; [None] means that the call does not
    return. *)
Class PipeWriter (W : Type) := {
  pw_env : Type;
  pw_Write : pw_env -> W -> bytes -> option (W * (Z * option error));
  pw_WriteEOF : pw_env -> W -> option W;
}.

(** What a client relies on: a writer has accepted a sequence of bytes
    ([pw_accepted]); a call that reports no error and the full length has
    appended its argument to it, no call does more than append a prefix of its
    argument, and the end-of-file mark adds no byte. *)
Class PipeWriterLaws (W : Type) `{PipeWriter W} := {
  pw_accepted : W -> bytes;
  pw_Write_full e w p w' :
    pw_Write e w p = Some (w', (Z.of_nat (length p), None)) ->
    pw_accepted w' = pw_accepted w ++ p;
  pw_Write_prefix e w p w' n err :
    pw_Write e w p = Some (w', (n, err)) ->
    exists k, pw_accepted w' = pw_accepted w ++ take k p;
  pw_WriteEOF_accepted e w w' :
    pw_WriteEOF e w = Some w' -> pw_accepted w' = pw_accepted w;
}.

(** * [tcp]: writing to the local connection *)

Record tcp := mkTcp { tcp_conn : TCPConn }.

Definition NewTcp (conn : TCPConn) : tcp := mkTcp conn.

Definition tcp_Write (r : conn_res) (q : tcp) (data : bytes) :
    option (tcp * (Z * option error)) :=
  match conn_Write r (tcp_conn q) data with
  | Some (c, res) => Some (mkTcp c, res)
  | None => None
  end.

Definition tcp_WriteEOF (r : conn_res) (q : tcp) : option tcp :=
  match conn_CloseWrite r (tcp_conn q) with
  | Some (c, _) => Some (mkTcp c)
  | None => None
  end.

#[export] Instance tcp_writer : PipeWriter tcp :=
  {| pw_env := conn_res; pw_Write := tcp_Write; pw_WriteEOF := tcp_WriteEOF |}.

#[export, refine] Instance tcp_writer_laws : PipeWriterLaws tcp :=
  {| pw_accepted q := tc_sent (tcp_conn q) |}.
Proof.
  - intros [|k err|] [c] p w'; simpl; unfold tcp_Write; simpl; intros; by simplify_eq/=.
  - intros [|k e|] [c] p w' n err; simpl; unfold tcp_Write; simpl; intros; simplify_eq/=.
    + exists (length p). by rewrite firstn_all.
    + by exists k.
  - intros [|k e|] [c] w'; simpl; unfold tcp_WriteEOF; simpl; intros; by simplify_eq/=.
Qed.

(** * [CopyBuffer] *)

(** The size of its read buffer. *)
Definition copy_size : nat := if pipeDebug then 10 else 4 * 1024.

(** How a call ends: it has returned [(written, err)], or it is still inside
    [conn.Read], or inside a call of the writer. *)
Inductive copy_result (W : Type) :=
  | CopyReturned (w : W) (written : Z) (err : option error)
  | CopyReading (w : W) (written : Z)
  | CopyWriting (w : W) (written : Z).
Arguments CopyReturned {W} _ _ _.
Arguments CopyReading {W} _ _.
Arguments CopyWriting {W} _ _.

Definition copy_writer {W} (r : copy_result W) : W :=
  match r with CopyReturned w _ _ | CopyReading w _ | CopyWriting w _ => w end.

Definition copy_written {W} (r : copy_result W) : Z :=
  match r with CopyReturned _ n _ | CopyReading _ n | CopyWriting _ n => n end.

Section CopyBuffer.
Context {W : Type} `{!PipeWriter W}.

(** One iteration of the environment: what [conn.Read] returns, and what
    happens during the writer's calls of that iteration. *)
Record copy_input := mkInput {
  ci_data : bytes;                (* buf[0:nr] *)
  ci_err : option error;          (* er *)
  ci_write : pw_env;
  ci_eof : pw_env;
}.

(** The writing half of an iteration: continue with the new state, or leave
    the loop. *)
Definition copy_write (w : W) (written : Z) (i : copy_input) :
    copy_result W + (W * Z) :=
  let nr := Z.of_nat (length (ci_data i)) in
  if (0 <? nr)%Z then
    match pw_Write (ci_write i) w (ci_data i) with
    | None => inl (CopyWriting w written)
    | Some (w', (nw, ew)) =>
        let written' := if (0 <? nw)%Z then int64 (written + nw) else written in
        match ew with
        | Some e => inl (CopyReturned w' written' (Some (errors_New ("#1 " +:+ Error e))))
        | None =>
            if (nr =? nw)%Z then inr (w', written')
            else inl (CopyReturned w' written'
                        (Some (errors_New ("#2 " +:+ Error ErrShortWrite))))
        end
    end
  else inr (w, written).

(** The part after the write: end of file, another error, or the next
    iteration ([inr]). *)
Definition copy_after (w : W) (written : Z) (i : copy_input) :
    copy_result W + (W * Z) :=
  match ci_err i with
  | None => inr (w, written)
  | Some er =>
      match pw_WriteEOF (ci_eof i) w with
      | None => inl (CopyWriting w written)
      | Some w' =>
          inl (CopyReturned w' written
                 (if decide (er = EOF) then None
                  else Some (errors_New ("#3 " +:+ Error er))))
      end
  end.

Fixpoint copy_loop (w : W) (written : Z) (reads : list copy_input) : copy_result W :=
  match reads with
  | [] => CopyReading w written
  | i :: reads' =>
      match copy_write w written i with
      | inl res => res
      | inr (w1, written1) =>
          match copy_after w1 written1 i with
          | inl res => res
          | inr (w2, written2) => copy_loop w2 written2 reads'
          end
      end
  end.

Definition CopyBuffer (pw : W) (reads : list copy_input) : copy_result W :=
  copy_loop pw 0 reads.

Definition input_bytes (reads : list copy_input) : bytes := concat (map ci_data reads).

(** What the reader guarantees: [0 <= nr <= len(buf)]. *)
Definition read_fits (i : copy_input) : Prop := length (ci_data i) <= copy_size.
End CopyBuffer.
Arguments copy_input W {_}.

Section CopyBuffer_facts.
Context {W : Type} `{!PipeWriter W}.
Implicit Types (w : W) (i : copy_input W) (reads : list (copy_input W)).

Lemma input_bytes_cons i reads : input_bytes (i :: reads) = ci_data i ++ input_bytes reads.
Proof. done. Qed.

Lemma input_bytes_app r1 r2 : input_bytes (r1 ++ r2) = input_bytes r1 ++ input_bytes r2.
Proof. unfold input_bytes. by rewrite map_app, concat_app. Qed.

(** A property of the writer that its calls preserve, on arguments that fit
    in the read buffer, holds when [CopyBuffer] ends. *)
Lemma copy_loop_invariant (P : W -> Prop) w n reads :
  (forall e w p w' res, P w -> length p <= copy_size ->
     pw_Write e w p = Some (w', res) -> P w') ->
  (forall e w w', P w -> pw_WriteEOF e w = Some w' -> P w') ->
  Forall read_fits reads -> P w -> P (copy_writer (copy_loop w n reads)).
Proof.
  intros Hw He Hfit. revert w n.
  induction Hfit as [|i reads Hi _ IH]; intros w n HP; simpl; [done|].
  destruct (copy_write w n i) as [res|[w1 n1]] eqn:E1.
  - unfold copy_write in E1. repeat case_match; simplify_eq/=; eauto.
  - assert (P w1) as HP1.
    { unfold copy_write in E1. repeat case_match; simplify_eq/=; eauto. }
    unfold copy_after. repeat case_match; simplify_eq/=; eauto.
Qed.

(** A read error ends the loop, if the writer's calls return. *)
Lemma copy_loop_returns w n reads :
  Forall (fun i => forall w p, is_Some (pw_Write (ci_write i) w p)) reads ->
  Forall (fun i => forall w, is_Some (pw_WriteEOF (ci_eof i) w)) reads ->
  Exists (fun i => is_Some (ci_err i)) reads ->
  exists w' n' err, copy_loop w n reads = CopyReturned w' n' err.
Proof.
  intros HW HE HX. revert w n HW HE.
  induction HX as [i reads [er Her]|i reads HX IH]; intros w n HW HE;
    inv HW; inv HE; simpl; unfold copy_write, copy_after;
    destruct (0 <? Z.of_nat (length (ci_data i)))%Z;
    repeat match goal with
    | H : forall w p, is_Some (pw_Write (ci_write ?i) w p) |- context [pw_Write (ci_write ?i) ?w ?p] =>
        destruct (H w p) as [[? [? [?|]]] ->]; clear H; simpl
    | H : forall w, is_Some (pw_WriteEOF (ci_eof ?i) w) |- context [pw_WriteEOF (ci_eof ?i) ?w] =>
        destruct (H w) as [? ->]; clear H; simpl
    | H : ci_err ?i = Some _ |- context [ci_err ?i] => rewrite H
    | |- context [ci_err ?i] => destruct (ci_err i); simpl
    | |- context [(?a =? ?b)%Z] => destruct (a =? b)%Z; simpl
    end; eauto.
Qed.

Context `{!PipeWriterLaws W}.

Lemma copy_write_continues w m i w' n' :
  copy_write w (int64 m) i = inr (w', n') ->
  pw_accepted w' = pw_accepted w ++ ci_data i /\
  n' = int64 (m + Z.of_nat (length (ci_data i))).
Proof.
  unfold copy_write. destruct (Z.ltb_spec 0 (Z.of_nat (length (ci_data i)))) as [Hpos|Hz].
  - destruct (pw_Write _ _ _) as [[w1 [nw [ew|]]]|] eqn:E; [done| |done].
    destruct (Z.eqb_spec (Z.of_nat (length (ci_data i))) nw) as [<-|]; [|done].
    intros; simplify_eq/=. split; [by eapply pw_Write_full|].
    destruct (Z.ltb_spec 0 (Z.of_nat (length (ci_data i)))); [|lia].
    by rewrite int64_add_l.
  - assert (ci_data i = []) as Hnil by (destruct (ci_data i); simpl in *; [done|lia]).
    rewrite Hnil. intros; simplify_eq/=. rewrite app_nil_r, Z.add_0_r. done.
Qed.

Lemma copy_write_leaves w n i r :
  copy_write w n i = inl r ->
  (exists k, pw_accepted (copy_writer r) = pw_accepted w ++ take k (ci_data i)) /\
  (forall w' n', r <> CopyReturned w' n' None).
Proof.
  unfold copy_write. intros H. repeat case_match; simplify_eq/=;
    (split; [|done]); eauto using pw_Write_prefix.
  exists 0. by rewrite app_nil_r.
Qed.

Lemma copy_after_continues w n i w' n' :
  copy_after w n i = inr (w', n') -> w' = w /\ n' = n /\ ci_err i = None.
Proof. unfold copy_after. intros H. repeat case_match; by simplify_eq/=. Qed.

Lemma copy_after_leaves w n i r :
  copy_after w n i = inl r ->
  pw_accepted (copy_writer r) = pw_accepted w /\ copy_written r = n /\
  (forall w' n', r = CopyReturned w' n' None -> ci_err i = Some EOF).
Proof.
  unfold copy_after. intros H. repeat case_match; simplify_eq/=;
    split_and!; eauto using pw_WriteEOF_accepted; intros; by simplify_eq/=.
Qed.

Lemma copy_loop_ok w m reads w' n :
  copy_loop w (int64 m) reads = CopyReturned w' n None ->
  exists pre i post, reads = pre ++ i :: post /\ ci_err i = Some EOF /\
    Forall (fun j => ci_err j = None) pre /\
    pw_accepted w' = pw_accepted w ++ input_bytes (pre ++ [i]) /\
    n = int64 (m + Z.of_nat (length (input_bytes (pre ++ [i])))).
Proof.
  revert w m. induction reads as [|i reads IH]; intros w m; simpl; [done|].
  destruct (copy_write w (int64 m) i) as [res|[w1 n1]] eqn:E1.
  { intros ->. apply copy_write_leaves in E1 as [_ []%(fun H => H w' n)]. done. }
  apply copy_write_continues in E1 as [Ha ->].
  destruct (copy_after _ _ i) as [res|[w2 n2]] eqn:E2.
  - intros ->. apply copy_after_leaves in E2 as (Hb & Hn & He). simpl in *.
    exists [], i, reads. split_and!; eauto.
    + unfold input_bytes; simpl. by rewrite app_nil_r, Hb, Ha.
    + unfold input_bytes; simpl. by rewrite app_nil_r.
  - apply copy_after_continues in E2 as (-> & -> & Hnone). intros H.
    apply IH in H as (pre & j & post & -> & Hj & Hpre & Hacc & ->).
    exists (i :: pre), j, post. split_and!; eauto; simpl.
    + by rewrite input_bytes_cons, Hacc, Ha, <- app_assoc.
    + rewrite input_bytes_cons, length_app. f_equal. lia.
Qed.

Lemma copy_loop_prefix w m reads :
  exists l, pw_accepted (copy_writer (copy_loop w (int64 m) reads)) = pw_accepted w ++ l /\
            l `prefix_of` input_bytes reads.
Proof.
  revert w m. induction reads as [|i reads IH]; intros w m; simpl.
  { exists []. by rewrite app_nil_r. }
  destruct (copy_write w (int64 m) i) as [res|[w1 n1]] eqn:E1.
  - apply copy_write_leaves in E1 as [[k Hk] _]. exists (take k (ci_data i)).
    split; [done|]. rewrite input_bytes_cons. apply prefix_app_r, prefix_take.
  - apply copy_write_continues in E1 as [Ha ->].
    destruct (copy_after _ _ i) as [res|[w2 n2]] eqn:E2.
    + apply copy_after_leaves in E2 as (Hb & _). exists (ci_data i).
      rewrite input_bytes_cons. split; [congruence|]. by apply prefix_app_r.
    + apply copy_after_continues in E2 as (-> & -> & _).
      destruct (IH w1 (m + Z.of_nat (length (ci_data i)))%Z) as (l & Hl & Hp).
      exists (ci_data i ++ l). rewrite Hl, Ha, <- app_assoc. split; [done|].
      rewrite input_bytes_cons. by apply prefix_app.
Qed.
End CopyBuffer_facts.

Section CopyBuffer_theorems.
Context {W : Type} `{!PipeWriter W, !PipeWriterLaws W}.

(** C14: when [CopyBuffer] returns without an error, it stopped at the first
    read that reported an error, that error is [io.EOF], the writer has
    accepted exactly the bytes read up to then, in order, and [written] is
    their number (as an int64). *)
Theorem CopyBuffer_complete (w : W) reads w' n :
  CopyBuffer w reads = CopyReturned w' n None ->
  exists pre i post, reads = pre ++ i :: post /\ ci_err i = Some EOF /\
    Forall (fun j => ci_err j = None) pre /\
    pw_accepted w' = pw_accepted w ++ input_bytes (pre ++ [i]) /\
    n = int64 (Z.of_nat (length (input_bytes (pre ++ [i])))).
Proof. apply (copy_loop_ok w 0). Qed.

(** C15: however [CopyBuffer] ends (an error of either side, or still
    running), what the writer has accepted is a prefix of what was read:
    nothing is reordered, duplicated or made up. *)
Theorem CopyBuffer_prefix (w : W) reads :
  exists l, pw_accepted (copy_writer (CopyBuffer w reads)) = pw_accepted w ++ l /\
            l `prefix_of` input_bytes reads.
Proof. apply (copy_loop_prefix w 0). Qed.
End CopyBuffer_theorems.
