(* ===== verification/RoundRobin.v ===== *)
(** Round-robin dealing.

    [queue.Send] and [link.Send] both walk again and again through a list of
    connections, the order, and handle one chunk per connection.  This file
    has the arithmetic they share: the connection of the k-th chunk
    ([lane_at]), where a walk stands ([range_pos]), and the chunks of a
    sequence that one connection carries ([stripe]). *)
From S2P Require Import Prelude.

Section round_robin.
Context {I : Type} `{!EqDecision I}.
Implicit Types (order rest : list I) (id : I).

(** The connection of chunk [k]. *)
Definition lane_at order (k : nat) : option I := order !! (k mod length order).

(** [k] chunks have been handled and [rest] is what remains of the current
    walk through [order]. *)
Definition range_pos order rest (k : nat) : Prop :=
  rest `suffix_of` order /\ exists r, k + length rest = r * length order.

(** [k] chunks have been handled and every walk begun is complete. *)
Definition top_pos order (k : nat) : Prop := exists r, k = r * length order.

Lemma top_pos_0 order : top_pos order 0.
Proof. by exists 0. Qed.

Lemma range_pos_start order k : top_pos order k -> range_pos order order k.
Proof. intros [r ->]. split; [done|]. exists (S r). lia. Qed.

Lemma range_pos_end order k : range_pos order [] k -> top_pos order k.
Proof. intros [_ [r Hr]]. exists r. simpl in Hr. lia. Qed.

Lemma range_pos_lane order id rest k :
  range_pos order (id :: rest) k -> lane_at order k = Some id.
Proof.
  intros [[pre ->] [r Hr]]. unfold lane_at. rewrite length_app in *. simpl in *.
  destruct r as [|r]; [lia|].
  replace k with (length pre + r * (length pre + S (length rest))) by lia.
  rewrite Nat.Div0.mod_add, Nat.mod_small by lia. by rewrite list_lookup_middle.
Qed.

Lemma range_pos_next order id rest k :
  range_pos order (id :: rest) k -> range_pos order rest (S k).
Proof.
  intros [[pre ->] [r Hr]]. split; [by exists (pre ++ [id]); rewrite <- app_assoc|].
  exists r. simpl in *. lia.
Qed.

Lemma range_pos_elem order id rest k : range_pos order (id :: rest) k -> id ∈ order.
Proof. intros [[pre ->] _]. set_solver. Qed.

Lemma lane_at_some order k : order <> [] -> is_Some (lane_at order k).
Proof.
  intros Hne. apply lookup_lt_is_Some. apply Nat.mod_upper_bound.
  by destruct order.
Qed.

(** Of the chunks [P], the first of which is chunk [k], those of [id]. *)
Fixpoint stripe {A} order (k : nat) id (P : list A) : list A :=
  match P with
  | [] => []
  | x :: P' =>
      if decide (lane_at order k = Some id) then x :: stripe order (S k) id P'
      else stripe order (S k) id P'
  end.

Lemma stripe_snoc {A} order k id (P : list A) x :
  stripe order k id (P ++ [x]) =
    stripe order k id P ++ (if decide (lane_at order (k + length P) = Some id) then [x] else []).
Proof.
  revert k. induction P as [|y P IH]; intros k; simpl.
  - by rewrite Nat.add_0_r.
  - rewrite IH, <- Nat.add_succ_comm. by destruct (decide (lane_at order k = Some id)).
Qed.

Lemma stripe_app {A} order k id (P Q : list A) :
  stripe order k id (P ++ Q) = stripe order k id P ++ stripe order (k + length P) id Q.
Proof.
  revert k. induction P as [|y P IH]; intros k; simpl; [by rewrite Nat.add_0_r|].
  rewrite IH, Nat.add_succ_comm. by case_decide.
Qed.

Lemma stripe_here {A} order k id (P : list A) x l :
  lane_at order k = Some id -> stripe order k id P = x :: l ->
  exists P', P = x :: P' /\ stripe order (S k) id P' = l.
Proof.
  intros Hk. destruct P as [|y P]; simpl; [done|]. rewrite decide_True by done.
  intros [= -> <-]. by exists P.
Qed.

Lemma stripe_elsewhere {A} order k id (P : list A) x :
  lane_at order k <> Some id -> stripe order k id (x :: P) = stripe order (S k) id P.
Proof. intros Hk. simpl. by rewrite decide_False. Qed.

Lemma stripe_foreign {A} order k id (P : list A) : id ∉ order -> stripe order k id P = [].
Proof.
  intros Hid. revert k. induction P as [|x P IH]; intros k; simpl; [done|].
  rewrite decide_False; [done|]. intros H%list_elem_of_lookup_2. done.
Qed.

Lemma stripe_head {A} order k (P : list A) id :
  lane_at order k = Some id -> P <> [] -> stripe order k id P <> [].
Proof. intros Hk. destruct P; [done|]. simpl. by rewrite decide_True. Qed.
End round_robin.

#[export] Hint Resolve top_pos_0 range_pos_start range_pos_end range_pos_lane
  range_pos_next range_pos_elem : wss.
