(* ===== verification/PtrMap.v ===== *)
(** Hubs: maps from IDs to pointers.

    [QueueHub] and [LinkHub] have the same shape: a map from IDs to pointers
    to objects ([*queue], [*link]) that goroutines share, each object with a
    channel that is closed when it leaves the map, and a [TimeoutClose] that
    removes the objects older than an hour.  The objects live in a heap; a
    pointer is an index of it, so an object that has left the map can still be
    reached by the goroutines that hold its pointer.

    What the hub needs of its objects is the class [HubObject]; the theorems of
    this file are proved from it, and Queue.v and Link.v discharge it. *)
From S2P Require Import Prelude Pipe.

(** The interface: closing an object ([None] is a panic), its creation time,
    and whether its channel is open.  Closing an open object cannot panic. *)
Class HubObject (V : Type) := {
  obj_close : V -> option V;
  obj_ctime : V -> Z;
  obj_open : V -> Prop;
  obj_close_open v : obj_open v -> is_Some (obj_close v);
}.

(** [pm_map] is the Go map, [pm_heap] the objects, [pm_go] the pointers whose
    [Send] has been started with [go], latest last. *)
Record ptrmap {K : Ksuid} (V : Type) := mkPtrMap {
  pm_map : gmap KSUID nat;
  pm_heap : list V;
  pm_go : list nat;
}.
Arguments mkPtrMap {K V} _ _ _.
Arguments pm_map {K V} _.
Arguments pm_heap {K V} _.
Arguments pm_go {K V} _.

Section ptrmap.
Context {K : Ksuid} {V : Type}.
Implicit Types (h : ptrmap V) (v : V) (order tmp : list KSUID).

Definition pm_empty : ptrmap V := mkPtrMap ∅ [] [].

(** [m[id] = &v] for a new object *)
Definition pm_new (id : KSUID) (v : V) h : ptrmap V :=
  mkPtrMap (<[id := length (pm_heap h)]> (pm_map h)) (pm_heap h ++ [v]) (pm_go h).

(** A mutation of the object at a pointer. *)
Definition pm_update (p : nat) (f : V -> V) h : ptrmap V :=
  mkPtrMap (pm_map h) (alter f p (pm_heap h)) (pm_go h).

(** [go x.Send()] *)
Definition pm_start (p : nat) h : ptrmap V :=
  mkPtrMap (pm_map h) (pm_heap h) (pm_go h ++ [p]).

(** The object that the map gives for an ID. *)
Definition pm_deref h (id : KSUID) : option V :=
  match pm_map h !! id with
  | Some p => pm_heap h !! p
  | None => None
  end.

(** [len(m)] *)
Definition pm_len h : nat := size (pm_map h).

Context `{!HubObject V}.

(** [x.close()] through a pointer; [None] is a panic. *)
Definition pm_close (p : nat) h : option (ptrmap V) :=
  match pm_heap h !! p with
  | Some v =>
      match obj_close v with
      | Some v' => Some (mkPtrMap (pm_map h) (<[p := v']> (pm_heap h)) (pm_go h))
      | None => None
      end
  | None => Some h
  end.

(** [if x, ok := m[id]; ok { x.close(); delete(m, id) }] *)
Definition pm_close_delete (id : KSUID) h : option (ptrmap V) :=
  match pm_map h !! id with
  | Some p =>
      match pm_close p h with
      | Some h' => Some (mkPtrMap (delete id (pm_map h')) (pm_heap h') (pm_go h'))
      | None => None
      end
  | None => Some h
  end.

(** The first loop of [TimeoutClose]: collect the expired IDs in the order in
    which the map is ranged over, and stop once there are more than 100. *)
Fixpoint expired_keys (now : Z) h order tmp : list KSUID :=
  match order with
  | [] => tmp
  | id :: order' =>
      match pm_deref h id with
      | Some v =>
          if (expHour <? now - obj_ctime v)%Z then
            let tmp' := tmp ++ [id] in
            if Nat.ltb 100 (length tmp') then tmp' else expired_keys now h order' tmp'
          else expired_keys now h order' tmp
      | None => expired_keys now h order' tmp
      end
  end.

(** The second loop: close and delete them. *)
Fixpoint close_keys tmp h : option (ptrmap V) :=
  match tmp with
  | [] => Some h
  | id :: tmp' =>
      match pm_close_delete id h with
      | Some h' => close_keys tmp' h'
      | None => None
      end
  end.

(** [TimeoutClose].  Go ranges over a map in an unspecified order, here
    [order], a list of the map's keys; [now] is the time of the call. *)
Definition pm_TimeoutClose (now : Z) order h : option (ptrmap V) :=
  close_keys (expired_keys now h order []) h.

(** ** The invariant *)

(** The map's pointers are valid, no two IDs share an object, and every object
    of the map is open. *)
Definition pm_wf h : Prop :=
  (forall id p, pm_map h !! id = Some p -> exists v, pm_heap h !! p = Some v /\ obj_open v) /\
  (forall id1 id2 p, pm_map h !! id1 = Some p -> pm_map h !! id2 = Some p -> id1 = id2).

Lemma pm_wf_empty : pm_wf pm_empty.
Proof. split; intros *; simpl; by rewrite lookup_empty. Qed.

Lemma pm_wf_new id v h : obj_open v -> pm_wf h -> pm_wf (pm_new id v h).
Proof.
  intros Hv [Hwf Hinj].
  assert (forall id' p, pm_map h !! id' = Some p -> p < length (pm_heap h)) as Hlt.
  { intros id' p (v' & Hv' & _)%Hwf. by eapply lookup_lt_Some. }
  split; simpl.
  - intros id' p. rewrite lookup_insert. case_decide as Hid; intros Hp; simplify_eq.
    + exists v. by rewrite list_lookup_middle.
    + destruct (Hwf _ _ Hp) as (v' & Hv' & ?). exists v'. split; [|done].
      by apply lookup_app_l_Some.
  - intros id1 id2 p. rewrite !lookup_insert. repeat case_decide; intros; simplify_eq; try done.
    + match goal with H : pm_map h !! _ = Some _ |- _ => apply Hlt in H end. lia.
    + match goal with H : pm_map h !! _ = Some _ |- _ => apply Hlt in H end. lia.
    + by eapply Hinj.
Qed.

Lemma pm_wf_update p f h :
  (forall v, pm_heap h !! p = Some v -> obj_open v -> obj_open (f v)) ->
  pm_wf h -> pm_wf (pm_update p f h).
Proof.
  intros Hf [Hwf Hinj]. split; simpl; [|done].
  intros id p' Hp. destruct (Hwf _ _ Hp) as (v & Hv & Ho).
  destruct (decide (p = p')) as [<-|Hne].
  - exists (f v). rewrite list_lookup_alter_eq, Hv. auto.
  - exists v. by rewrite list_lookup_alter_ne.
Qed.

Lemma pm_wf_start p h : pm_wf h -> pm_wf (pm_start p h).
Proof. done. Qed.

(** The map of a hub after a removal, and the objects it still holds. *)
Definition pm_without h (ids : list KSUID) h' : Prop :=
  (forall id, pm_map h' !! id = if decide (id ∈ ids) then None else pm_map h !! id) /\
  (forall id, id ∉ ids -> pm_deref h' id = pm_deref h id).

Lemma pm_close_delete_ok id h :
  pm_wf h -> exists h', pm_close_delete id h = Some h' /\ pm_wf h' /\ pm_without h [id] h'.
Proof.
  intros [Hwf Hinj]. unfold pm_close_delete. destruct (pm_map h !! id) as [p|] eqn:Hp.
  2: { exists h. split_and!; try done. split; [|done]. intros id'.
       case_decide as Hin; [|done]. by apply list_elem_of_singleton in Hin as ->. }
  destruct (Hwf _ _ Hp) as (v & Hv & Ho). unfold pm_close. rewrite Hv.
  destruct (obj_close_open v Ho) as [v' ->]. eexists. split; [done|].
  assert (forall id' p', id' <> id -> pm_map h !! id' = Some p' -> p <> p') as Hptr.
  { intros id' p' Hne Hp' ->. by eapply Hne, Hinj. }
  split; split; simpl.
  - intros id' p'. rewrite lookup_delete. case_decide as Hid; [done|]. intros Hp'.
    destruct (Hwf _ _ Hp') as (v2 & Hv2 & ?). exists v2. split; [|done].
    rewrite list_lookup_insert_ne; [done|]. by eapply Hptr.
  - intros id1 id2 p'. rewrite !lookup_delete. repeat case_decide; [done..|]. apply Hinj.
  - intros id'. rewrite lookup_delete. repeat case_decide; set_solver.
  - intros id' Hne. unfold pm_deref. simpl. rewrite lookup_delete_ne by set_solver.
    destruct (pm_map h !! id') as [p'|] eqn:Hp'; [|done].
    rewrite list_lookup_insert_ne; [done|]. eapply Hptr; [|done]. set_solver.
Qed.

Lemma pm_without_trans h ids h1 ids' h2 :
  pm_without h ids h1 -> pm_without h1 ids' h2 -> pm_without h (ids ++ ids') h2.
Proof.
  intros [H1 H2] [H3 H4]. split; intros id.
  - rewrite H3, H1. repeat case_decide; set_solver.
  - intros Hid. rewrite H4, H2; set_solver.
Qed.

(** The objects of [ids] are removed and closed, and nothing else is touched:
    [pr_closed] says what becomes of each object, which the goroutines that hold
    its pointer still see. *)
Record pm_removes h (ids : list KSUID) h' : Prop := {
  pr_without : pm_without h ids h';
  pr_closed id p v :
    id ∈ ids -> pm_map h !! id = Some p -> pm_heap h !! p = Some v -> pm_heap h' !! p = obj_close v;
  pr_other p : (forall id, id ∈ ids -> pm_map h !! id <> Some p) -> pm_heap h' !! p = pm_heap h !! p;
}.

Lemma pm_removes_nil h : pm_removes h [] h.
Proof. split; [split; [done|done]| |done]. by intros id p v ?%not_elem_of_nil. Qed.

(** Taking away an ID that the map does not have. *)
Lemma pm_removes_none h id : pm_map h !! id = None -> pm_removes h [id] h.
Proof.
  intros Hn. split; [split; [|done]| |done].
  - intros id'. case_decide as Hin; [|done]. by apply list_elem_of_singleton in Hin as ->.
  - intros id' p v ->%list_elem_of_singleton. congruence.
Qed.

Lemma pm_removes_same h ids ids' h' :
  (forall id, id ∈ ids <-> id ∈ ids') -> pm_removes h ids h' -> pm_removes h ids' h'.
Proof.
  intros E [[H1 H2] H3 H4]. split; [split|..].
  - intros id. rewrite H1. by repeat case_decide; set_solver.
  - intros id Hid. apply H2. by rewrite E.
  - intros id p v Hid. apply (H3 id). by rewrite E.
  - intros p Hp. apply H4. intros id Hid. apply Hp. by rewrite <- E.
Qed.

Lemma pm_removes_trans h ids h1 ids' h2 :
  pm_wf h -> pm_removes h ids h1 -> pm_removes h1 ids' h2 -> pm_removes h (ids ++ ids') h2.
Proof.
  intros [_ Hinj] [Hw1 Hc1 Ho1] [Hw2 Hc2 Ho2].
  assert (forall id p, pm_map h !! id = Some p -> id ∉ ids -> pm_heap h1 !! p = pm_heap h !! p) as Hsame.
  { intros id p Hp Hid. apply Ho1. intros id' Hid' Hp'. by assert (id' = id) as -> by by eapply Hinj. }
  assert (forall id p, pm_map h1 !! id = Some p -> id ∉ ids /\ pm_map h !! id = Some p) as Hback.
  { intros id p. rewrite (proj1 Hw1). by case_decide. }
  split.
  - by eapply pm_without_trans.
  - intros id p v Hin Hp Hv. destruct (decide (id ∈ ids)) as [Hid|Hid].
    + rewrite Ho2; [by eapply Hc1|]. intros id' _ [Hn Hp']%Hback. by assert (id' = id) as -> by by eapply Hinj.
    + apply elem_of_app in Hin as [|Hin]; [done|]. apply (Hc2 id); [done| |by erewrite Hsame].
      by rewrite (proj1 Hw1), decide_False.
  - intros p Hp. rewrite Ho2, Ho1; [done|..].
    + intros id Hid. apply Hp. set_solver.
    + intros id Hid [_ Hp']%Hback. apply (Hp id); [set_solver|done].
Qed.

Lemma pm_close_delete_removes id h h' :
  pm_wf h -> pm_close_delete id h = Some h' -> pm_removes h [id] h'.
Proof.
  intros Hwf E. destruct (pm_close_delete_ok id h Hwf) as (h1 & E1 & _ & Hw). assert (h1 = h') as -> by congruence.
  destruct Hwf as [Hwf _]. clear E1. unfold pm_close_delete, pm_close in E. destruct (pm_map h !! id) as [p|] eqn:Hp.
  2: { simplify_eq. by apply pm_removes_none. }
  destruct (Hwf _ _ Hp) as (v & Hv & _). rewrite Hv in E. destruct (obj_close v) as [v'|] eqn:Hc; [|done].
  simplify_eq. split; [done|..]; simpl.
  - intros id' p' v1 ->%list_elem_of_singleton Hp' Hv1. simplify_eq. rewrite Hc.
    apply list_lookup_insert_eq. by eapply lookup_lt_Some.
  - intros p' Hne. rewrite list_lookup_insert_ne; [done|]. intros ->. by apply (Hne id); [set_solver|].
Qed.

Lemma close_keys_ok tmp h :
  pm_wf h -> exists h', close_keys tmp h = Some h' /\ pm_wf h' /\ pm_without h tmp h'.
Proof.
  revert h. induction tmp as [|k tmp IH]; intros h Hwf; simpl; [by exists h|].
  destruct (pm_close_delete_ok k h Hwf) as (h1 & -> & Hwf1 & Hw1).
  destruct (IH h1 Hwf1) as (h2 & -> & Hwf2 & Hw2). exists h2. split_and!; [done..|].
  by apply (pm_without_trans _ [k] h1).
Qed.

(** The object of [id] is older than an hour. *)
Definition pm_expired (now : Z) h (id : KSUID) : Prop :=
  match pm_deref h id with
  | Some v => (expHour < now - obj_ctime v)%Z
  | None => False
  end.

#[export] Instance pm_expired_dec now h id : Decision (pm_expired now h id).
Proof. unfold pm_expired. destruct (pm_deref h id); apply _. Defined.

Lemma expired_keys_spec now h order tmp :
  length tmp <= 100 ->
  expired_keys now h order tmp = take 101 (tmp ++ filter (pm_expired now h) order).
Proof.
  revert tmp. induction order as [|id order IH]; intros tmp Hlen; simpl.
  { by rewrite app_nil_r, take_ge by lia. }
  rewrite filter_cons.
  destruct (decide (pm_expired now h id)) as [He|He]; unfold pm_expired in He;
    destruct (pm_deref h id) as [q|]; try done; try by apply IH.
  2: { destruct (Z.ltb_spec expHour (now - obj_ctime q)); [lia|by apply IH]. }
  destruct (Z.ltb_spec expHour (now - obj_ctime q)); [|lia].
  rewrite (cons_middle id tmp (filter _ _)), (app_assoc tmp [id] (filter _ _)).
  destruct (Nat.ltb_spec 100 (length (tmp ++ [id]))) as [Hl|Hl]; [|apply IH; lia].
  rewrite length_app in Hl. simpl in Hl.
  rewrite take_app_ge by (rewrite length_app; simpl; lia).
  rewrite length_app. simpl. replace (101 - _) with 0 by lia. by rewrite app_nil_r.
Qed.

(** In a well-formed hub [TimeoutClose] removes the first 101 expired objects
    of the order, and only those. *)
Lemma pm_TimeoutClose_ok now order h :
  pm_wf h -> exists h', pm_TimeoutClose now order h = Some h' /\ pm_wf h' /\
    pm_without h (take 101 (filter (pm_expired now h) order)) h'.
Proof.
  intros Hwf. unfold pm_TimeoutClose. rewrite expired_keys_spec by (simpl; lia).
  by apply close_keys_ok.
Qed.

(** ** The same objects, changed

    [R] relates each object of a hub to what it has become. *)
Definition heap_rel (R : V -> V -> Prop) h h' : Prop :=
  pm_go h' = pm_go h /\ Forall2 R (pm_heap h) (pm_heap h').

Lemma heap_rel_refl R h : (forall v, R v v) -> heap_rel R h h.
Proof. intros HR. split; [done|]. apply Forall2_same_length_lookup. split; [done|]. intros; by simplify_eq. Qed.

Lemma heap_rel_trans (R : V -> V -> Prop) h h1 h' :
  (forall v1 v2 v3, R v1 v2 -> R v2 v3 -> R v1 v3) -> heap_rel R h h1 -> heap_rel R h1 h' -> heap_rel R h h'.
Proof.
  intros HR [G1 F1] [G2 F2]. split; [congruence|]. revert F2. generalize (pm_heap h') as l3.
  induction F1 as [|v v1 l l1 Hv _ IH]; intros l3 F2; inversion F2; subst; [done|]. constructor; eauto.
Qed.

Lemma heap_rel_impl (R R' : V -> V -> Prop) h h' :
  (forall v v', R v v' -> R' v v') -> heap_rel R h h' -> heap_rel R' h h'.
Proof. intros HR [? HF]. split; [done|]. by eapply Forall2_impl. Qed.

Lemma heap_rel_update (R : V -> V -> Prop) p f h :
  (forall v, R v v) -> (forall v, pm_heap h !! p = Some v -> R v (f v)) -> heap_rel R h (pm_update p f h).
Proof.
  intros HR Hf. split; [done|]. simpl. apply Forall2_same_length_lookup. split; [by rewrite length_alter|].
  intros p' v v' Hv. destruct (decide (p = p')) as [<-|Hne].
  - rewrite list_lookup_alter_eq, Hv. intros [= <-]. by apply Hf.
  - rewrite list_lookup_alter_ne by done. intros; by simplify_eq.
Qed.

Lemma pm_close_delete_inv (R : V -> V -> Prop) id h h' :
  (forall v, R v v) -> (forall v v', obj_close v = Some v' -> R v v') -> pm_close_delete id h = Some h' ->
  pm_map h' = delete id (pm_map h) /\ heap_rel R h h'.
Proof.
  intros Hrefl Hclose. unfold pm_close_delete, pm_close. destruct (pm_map h !! id) as [p|] eqn:Hp.
  2: { intros [= <-]. split; [by rewrite delete_id|by apply heap_rel_refl]. }
  destruct (pm_heap h !! p) as [v|] eqn:Hv.
  2: { intros [= <-]. split; [done|]. by apply (heap_rel_refl R h). }
  destruct (obj_close v) as [v'|] eqn:Hc; [|done]. intros [= <-]. split; [done|]. split; [done|]. simpl.
  apply Forall2_same_length_lookup. split; [by rewrite length_insert|]. intros p' w w' Hw.
  destruct (decide (p = p')) as [<-|Hne].
  - rewrite list_lookup_insert_eq by (by eapply lookup_lt_Some). intros; simplify_eq. by apply Hclose.
  - rewrite list_lookup_insert_ne by done. intros; by simplify_eq.
Qed.

Lemma heap_rel_l (R : V -> V -> Prop) h h' p v :
  heap_rel R h h' -> pm_heap h !! p = Some v -> exists v', pm_heap h' !! p = Some v' /\ R v v'.
Proof. intros [_ HF] Hv. destruct (Forall2_lookup_l _ _ _ _ _ HF Hv) as (v' & ? & ?). by exists v'. Qed.

Lemma heap_rel_r (R : V -> V -> Prop) h h' p v' :
  heap_rel R h h' -> pm_heap h' !! p = Some v' -> exists v, pm_heap h !! p = Some v /\ R v v'.
Proof. intros [_ HF] Hv. destruct (Forall2_lookup_r _ _ _ _ _ HF Hv) as (v & ? & ?). by exists v. Qed.
End ptrmap.

#[export] Hint Resolve pm_wf_empty pm_wf_start : wss.
