(* ===== verification/Queue.v ===== *)
(** The sending side of a proxied connection (pipe/queue.go, [queue]): it
    collects the chunks read from one TCP connection in a buffered channel, and
    [Send] deals them out, round robin, to the connections of [sorted].

    [writeBuf] and [Send] run concurrently.  [Send] is a machine: [send_pc] is
    its program counter and [Send_step] executes one atomic piece of it, the
    environment deciding ([send_ev]) which case a [select] takes, how a write
    to a connection ends and when the receiver of [done] is there. *)
From S2P Require Import Prelude GoChan Pipe RoundRobin.

Section queue.
Context {K : Ksuid} {W : Type}.

Record queue := mkQueue {
  q_masterID : KSUID;
  q_buffer : chan buffer;
  q_writers : gmap KSUID W;
  q_sorted : list KSUID;
  q_status : status;
  q_done : chan unit;
  q_ctime : Z;
}.

Definition NewQueue (now : Z) (masterID : KSUID) : queue :=
  {| q_masterID := masterID; q_buffer := makeBuffer; q_writers := ∅;
     q_sorted := []; q_status := StaWait; q_done := make_chan 0; q_ctime := now |}.

Definition set_q_buffer (c : chan buffer) (q : queue) : queue :=
  mkQueue (q_masterID q) c (q_writers q) (q_sorted q) (q_status q) (q_done q) (q_ctime q).
Definition set_q_writers (ws : gmap KSUID W) (q : queue) : queue :=
  mkQueue (q_masterID q) (q_buffer q) ws (q_sorted q) (q_status q) (q_done q) (q_ctime q).
Definition set_q_status (s : status) (q : queue) : queue :=
  mkQueue (q_masterID q) (q_buffer q) (q_writers q) (q_sorted q) s (q_done q) (q_ctime q).
Definition set_q_done (d : chan unit) (q : queue) : queue :=
  mkQueue (q_masterID q) (q_buffer q) (q_writers q) (q_sorted q) (q_status q) d (q_ctime q).

(** [queue.SetSort] *)
Definition SetSort (sort : list KSUID) (q : queue) : queue :=
  mkQueue (q_masterID q) (q_buffer q) (q_writers q) sort (q_status q) (q_done q) (q_ctime q).

(** [queue.close]; [None] is the panic of closing a closed channel.  The
    channel is never nil: [NewQueue] makes it and nothing else sets it. *)
Definition close (q : queue) : option queue :=
  if decide (q_status q = StaClose) then Some q
  else let q1 := set_q_status StaClose q in
       match chan_close (q_buffer q1) with
       | Some c => Some (set_q_buffer c q1)
       | None => None
       end.

(** ** Writing *)

(** What other goroutines do to the queue while a writer is between its test
    of [status] and the completion of its [select]. *)
Inductive interference := IRecv | IStatus (s : status) | IClose.

Definition interfere (q : queue) (a : interference) : queue :=
  match a with
  | IRecv => match chan_recv (q_buffer q) with
             | RecvOk _ c => set_q_buffer c q
             | _ => q
             end
  | IStatus s => set_q_status s q
  | IClose => match close q with Some q' => q' | None => q end
  end.

(** The environment of one call: the interference, then the case taken by
    the [select] ([we_timer]: the five minutes have elapsed). *)
Record write_env := mkWriteEnv { we_ops : list interference; we_timer : bool }.

(** [queue.writeBuf].  [None]: the call is still blocked.  A send on a
    closed channel panics; the panic is recovered and the function returns
    the zero values of its results. *)
Definition writeBuf (e : write_env) (q : queue) (b : buffer) :
    option (queue * (Z * option error)) :=
  if decide (q_status q = StaDone) then Some (q, (0%Z, Some (errors_New "send is over")))
  else
    let q1 := foldl interfere q (we_ops e) in
    if we_timer e then Some (q1, (0%Z, Some (errors_New "write timeout")))
    else match chan_send (q_buffer q1) b with
         | SendOk c => Some (set_q_buffer c q1, (Z.of_nat (length (b_data b)), None))
         | SendPanics => Some (q1, (0%Z, None))
         | SendBlocks => None
         end.

(** [queue.Write] copies its argument; values of the model are immutable. *)
Definition Write (e : write_env) (q : queue) (data : bytes) :
    option (queue * (Z * option error)) :=
  writeBuf e q (mkBuffer false data).

(** [queue.WriteEOF] *)
Definition WriteEOF (e : write_env) (q : queue) : option queue :=
  match writeBuf e q (mkBuffer true []) with
  | Some (q', _) => Some q'
  | None => None
  end.

(** ** Sending *)

(** How [Send] ends: it returns its error result, or panics. *)
Inductive send_result := SRet (err : option error) | SPanic.

(** Program points of [Send]. *)
Inductive send_pc :=
  | PEnter                                       (* the test of status *)
  | PStart                                       (* q.status = StaSend *)
  | PTop                                         (* head of the outer loop *)
  | PRange (rest : list KSUID)                   (* head of the range loop *)
  | PRead (w : option W) (rest : list KSUID)     (* readWithTimeout *)
  | PWrite (w : option W) (rest : list KSUID) (b : buffer)
  | PDefer (r : send_result)                     (* deferred: q.status = StaDone *)
  | PSignal (r : send_result)                    (* deferred: q.done <- struct{}{} *)
  | PCloseDone (r : send_result)                 (* deferred: close(q.done) *)
  | PReturned (r : send_result).

Inductive send_ev :=
  | EvTau                                        (* a step on its own *)
  | EvData                                       (* the select takes the channel *)
  | EvTimer                                      (* the select takes the timer *)
  | EvWrote (err : option error)                 (* the connection's write returns *)
  | EvWaiter.                                    (* a goroutine receives from done *)

(** A step yields the new queue, the new program point, and what it hands to
    a connection; [None]: the step is not possible. *)
Definition Send_step (q : queue) (pc : send_pc) (ev : send_ev) :
    option (queue * send_pc * option (W * buffer)) :=
  match pc, ev with
  | PEnter, EvTau =>
      if decide (q_status q = StaSend \/ q_status q = StaDone)
      then Some (q, PReturned (SRet None), None)
      else Some (q, PStart, None)
  | PStart, EvTau => Some (set_q_status StaSend q, PTop, None)
  | PTop, EvTau =>
      if decide (q_status q = StaClose)
      then Some (q, PDefer (SRet (Some ErrClosedPipe)), None)
      else Some (q, PRange (q_sorted q), None)
  | PRange [], EvTau => Some (q, PTop, None)
  | PRange (id :: rest), EvTau => Some (q, PRead (q_writers q !! id) rest, None)
  | PRead w rest, EvData | PRead w rest, EvTimer =>
      match readWithTimeout (q_buffer q) (match ev with EvTimer => true | _ => false end) with
      | Some (_, (_, Some err)) => Some (q, PDefer (SRet (Some err)), None)
      | Some (c, (b, None)) => Some (set_q_buffer c q, PWrite w rest b, None)
      | None => None
      end
  | PWrite None rest b, EvTau => Some (q, PDefer SPanic, None)
  | PWrite (Some w) rest b, EvWrote e =>
      if b_eof b then Some (q, PDefer (SRet None), Some (w, b))
      else match e with
           | Some err => Some (q, PDefer (SRet (Some err)), Some (w, b))
           | None => Some (q, PRange rest, Some (w, b))
           end
  | PDefer r, EvTau => Some (set_q_status StaDone q, PSignal r, None)
  | PSignal r, EvTau =>
      if chan_closed (q_done q) then Some (q, PReturned SPanic, None) else None
  | PSignal r, EvWaiter =>
      if chan_closed (q_done q) then None else Some (q, PCloseDone r, None)
  | PCloseDone r, EvTau =>
      match chan_close (q_done q) with
      | Some d => Some (set_q_done d q, PReturned r, None)
      | None => Some (q, PReturned SPanic, None)
      end
  | _, _ => None
  end.

(** A run of [Send], with everything it hands to connections. *)
Fixpoint Send_run (q : queue) (pc : send_pc) (evs : list send_ev) :
    option (queue * send_pc * list (W * buffer)) :=
  match evs with
  | [] => Some (q, pc, [])
  | ev :: evs' =>
      match Send_step q pc ev with
      | None => None
      | Some (q', pc', out) =>
          match Send_run q' pc' evs' with
          | None => None
          | Some (q'', pc'', outs) => Some (q'', pc'', option_list out ++ outs)
          end
      end
  end.
End queue.
Arguments queue {K} W.
Arguments send_pc {K} W.
Arguments interference : clear implicits.
Arguments send_result : clear implicits.
Arguments send_ev : clear implicits.

(** * Writing: the queue as a [PipeWriter] *)

Section write_facts.
Context {K : Ksuid} {W : Type}.
Implicit Types (q : queue W).

(** The buffers that [Send] takes during an interference. *)
Fixpoint received q (ops : list interference) : list buffer :=
  match ops with
  | [] => []
  | a :: ops' =>
      match a, chan_items (q_buffer q) with
      | IRecv, b :: _ => b :: received (interfere q a) ops'
      | _, _ => received (interfere q a) ops'
      end
  end.

Lemma close_inv q q' :
  close q = Some q' ->
  q_sorted q' = q_sorted q /\ q_writers q' = q_writers q /\
  q_masterID q' = q_masterID q /\ q_done q' = q_done q /\ q_ctime q' = q_ctime q /\
  q_status q' = StaClose /\ chan_items (q_buffer q') = chan_items (q_buffer q) /\
  chan_cap (q_buffer q') = chan_cap (q_buffer q) /\
  (q_status q <> StaClose -> chan_closed (q_buffer q') = true).
Proof.
  unfold close. case_decide; [by intros; simplify_eq|]. simpl.
  destruct (chan_close (q_buffer q)) as [c|] eqn:E; [|done]. intros [= <-].
  apply chan_close_inv in E as (? & ? & ? & ?). simpl. by split_and!.
Qed.

Lemma interfere_items q a :
  chan_items (q_buffer q) =
    received q [a] ++ chan_items (q_buffer (interfere q a)).
Proof.
  destruct a; simpl; [|by destruct (chan_items _)|].
  - unfold chan_recv. destruct (chan_items (q_buffer q)) as [|b l] eqn:E; simpl; [|done].
    destruct (chan_closed _); simpl; by rewrite E.
  - destruct (close q) as [q'|] eqn:E; [|by destruct (chan_items _)].
    apply close_inv in E as (_ & _ & _ & _ & _ & _ & -> & _). by destruct (chan_items _).
Qed.

Lemma received_cons q a ops :
  received q (a :: ops) = received q [a] ++ received (interfere q a) ops.
Proof. simpl. by destruct a, (chan_items (q_buffer q)). Qed.

Lemma interference_items q ops :
  chan_items (q_buffer q) =
    received q ops ++ chan_items (q_buffer (foldl interfere q ops)).
Proof.
  revert q. induction ops as [|a ops IH]; intros q; [done|].
  rewrite received_cons. simpl. rewrite <- app_assoc, <- IH. apply interfere_items.
Qed.

Lemma interference_cap q ops :
  chan_cap (q_buffer (foldl interfere q ops)) = chan_cap (q_buffer q).
Proof.
  revert q. induction ops as [|a ops IH]; intros q; simpl; [done|].
  rewrite IH. destruct a; simpl; [| done |].
  - unfold chan_recv. destruct (chan_items _); by destruct (chan_closed _).
  - destruct (close q) as [q'|] eqn:E; [|done]. by apply close_inv in E as (_ & _ & _ & _ & _ & _ & _ & -> & _).
Qed.

(** Every outcome of [writeBuf]. *)
Lemma writeBuf_inv e q b q' n err :
  writeBuf e q b = Some (q', (n, err)) ->
  (q_status q = StaDone /\ q' = q /\ n = 0%Z /\ err = Some (errors_New "send is over")) \/
  (q_status q <> StaDone /\
   let q1 := foldl interfere q (we_ops e) in
   (q' = q1 /\ n = 0%Z /\ err = Some (errors_New "write timeout")) \/
   (q' = q1 /\ chan_closed (q_buffer q1) = true /\ n = 0%Z /\ err = None) \/
   (exists c, chan_send (q_buffer q1) b = SendOk c /\ q' = set_q_buffer c q1 /\
              n = Z.of_nat (length (b_data b)) /\ err = None)).
Proof.
  unfold writeBuf. case_decide; [intros; simplify_eq; left; done|].
  intros H1. right. split; [done|]. simpl.
  destruct (we_timer e); [simplify_eq; by left|]. right.
  destruct (chan_send _ b) eqn:E; simplify_eq; [right; by eauto|left].
  split_and!; try done. unfold chan_send in E. by repeat case_match.
Qed.

(** A queue, with what its [Send] has already taken from it. *)
Record tracked := mkTracked { tr_taken : list buffer; tr_q : queue W }.

Definition tracked_taken (e : write_env) (t : tracked) : list buffer :=
  if decide (q_status (tr_q t) = StaDone) then tr_taken t
  else tr_taken t ++ received (tr_q t) (we_ops e).

Definition tracked_writeBuf (e : write_env) (t : tracked) (b : buffer) :
    option (tracked * (Z * option error)) :=
  match writeBuf e (tr_q t) b with
  | Some (q', res) => Some (mkTracked (tracked_taken e t) q', res)
  | None => None
  end.

Definition tracked_accepted (t : tracked) : bytes :=
  data_of (tr_taken t ++ chan_items (q_buffer (tr_q t))).

Lemma tracked_writeBuf_accepted e t b t' n err :
  tracked_writeBuf e t b = Some (t', (n, err)) ->
  tracked_accepted t' = tracked_accepted t /\
    (n = Z.of_nat (length (b_data b)) -> err = None -> b_data b = []) \/
  tracked_accepted t' = tracked_accepted t ++ b_data b.
Proof.
  unfold tracked_writeBuf. destruct (writeBuf e (tr_q t) b) as [[q' [m er]]|] eqn:E; [|done].
  intros; simplify_eq/=. unfold tracked_accepted, tracked_taken. simpl.
  pose proof (interference_items (tr_q t) (we_ops e)) as Hi.
  apply writeBuf_inv in E as
    [(Hs & -> & -> & ->)|(Hs & [(-> & -> & ->)|[(-> & _ & -> & ->)|(c & Hc & -> & -> & ->)]])].
  - left. by rewrite decide_True.
  - left. rewrite decide_False, <- app_assoc, <- Hi by done. done.
  - left. rewrite decide_False, <- app_assoc, <- Hi by done. split; [done|].
    intros Hn _. destruct (b_data b); simpl in *; [done|lia].
  - right. rewrite decide_False by done. simpl.
    apply chan_send_inv in Hc as (_ & _ & -> & _).
    rewrite app_assoc, data_of_snoc, <- (app_assoc (tr_taken t)), <- Hi. done.
Qed.

#[export] Instance queue_writer : PipeWriter tracked :=
  {| pw_env := write_env;
     pw_Write e t p := tracked_writeBuf e t (mkBuffer false p);
     pw_WriteEOF e t := match tracked_writeBuf e t (mkBuffer true []) with
                        | Some (t', _) => Some t'
                        | None => None
                        end |}.

#[export, refine] Instance queue_writer_laws : PipeWriterLaws tracked :=
  {| pw_accepted := tracked_accepted |}.
Proof.
  - intros e t p t' [[-> Hnil]| ->]%tracked_writeBuf_accepted; [|done].
    simpl in Hnil. rewrite Hnil, app_nil_r; done.
  - intros e t p t' n err [[-> _]| ->]%tracked_writeBuf_accepted.
    + exists 0. by rewrite app_nil_r.
    + exists (length p). by rewrite firstn_all.
  - intros e t t'. simpl. destruct (tracked_writeBuf _ _ _) as [[t1 [n err]]|] eqn:E; [|done].
    intros [= <-]. apply tracked_writeBuf_accepted in E as [[-> _]| ->]; [done|].
    simpl. by rewrite app_nil_r.
Qed.

(** The bound on what waits in a queue. *)
Definition queue_bounded (t : tracked) : Prop :=
  chan_cap (q_buffer (tr_q t)) = chan_cap makeBuffer /\
  chan_wf (q_buffer (tr_q t)) /\
  Forall (fun b => length (b_data b) <= copy_size) (chan_items (q_buffer (tr_q t))).

Lemma tracked_writeBuf_bounded e t b t' res :
  queue_bounded t -> length (b_data b) <= copy_size ->
  tracked_writeBuf e t b = Some (t', res) -> queue_bounded t'.
Proof.
  intros (Hcap & Hwf & Hall) Hb. unfold tracked_writeBuf.
  destruct (writeBuf e (tr_q t) b) as [[q' [m er]]|] eqn:E; [|done].
  intros; simplify_eq. unfold queue_bounded. simpl.
  pose proof (interference_items (tr_q t) (we_ops e)) as Hi.
  pose proof (interference_cap (tr_q t) (we_ops e)) as Hc.
  assert (queue_bounded (mkTracked [] (foldl interfere (tr_q t) (we_ops e)))) as (H1 & H2 & H3).
  { unfold queue_bounded, chan_wf in *. simpl. rewrite Hi, length_app in Hwf.
    rewrite Hi, Forall_app in Hall. rewrite Hc. split_and!; [done|lia|by destruct Hall]. }
  apply writeBuf_inv in E as
    [(Hs & -> & _)|(Hs & [(-> & _)|[(-> & _)|(c & Hsend & -> & _)]])]; [done..|].
  pose proof (chan_send_wf _ _ _ H2 Hsend) as Hwf'.
  apply chan_send_inv in Hsend as (_ & _ & Hitems & Hcap'). simpl in *.
  rewrite Hitems, Hcap', Forall_app. auto.
Qed.

(** C16: a queue fed by [CopyBuffer] stays bounded, whatever the reads, the
    speed of [Send] and the interleaving: at most ten buffers wait in it,
    each of at most 4096 bytes. *)
Theorem CopyBuffer_queue_bounded (q : queue W) (reads : list (copy_input tracked)) :
  q_buffer q = makeBuffer -> Forall read_fits reads ->
  let t := copy_writer (CopyBuffer (mkTracked [] q) reads) in
  length (chan_items (q_buffer (tr_q t))) <= 10 /\
  Forall (fun b => length (b_data b) <= 4096) (chan_items (q_buffer (tr_q t))).
Proof.
  intros Hq Hfit t. assert (queue_bounded t) as (Hcap & Hwf & Hall).
  { unfold t, CopyBuffer. apply copy_loop_invariant.
    - intros e w p w' res HP Hp H. by eapply (tracked_writeBuf_bounded e w (mkBuffer false p)).
    - intros e w w' HP. simpl. destruct (tracked_writeBuf _ _ _) as [[t1 r]|] eqn:E; [|done].
      intros [= <-]. eapply tracked_writeBuf_bounded; [done| |done]. simpl. lia.
    - done.
    - unfold queue_bounded, chan_wf. cbn [tr_q]. rewrite Hq. simpl. split_and!; auto with lia. }
  unfold chan_wf in Hwf. rewrite Hcap in Hwf. done.
Qed.
End write_facts.

(** * [Send], interleaved with the writers and with [close] *)

Section send_facts.
Context {K : Ksuid} {W : Type}.
Implicit Types (q : queue W) (pc : send_pc W) (ins held : list buffer) (outs : list (W * buffer)).

(** One atomic step of a queue with one [Send]: a piece of [Send], the
    completion of a write (its test of [status] may be long past), or a
    [close].  The labels are the buffer written and what [Send] hands out. *)
Inductive q_step : queue W * send_pc W -> list buffer -> list (W * buffer) ->
    queue W * send_pc W -> Prop :=
  | qs_send q pc ev q' pc' out :
      Send_step q pc ev = Some (q', pc', out) ->
      q_step (q, pc) [] (option_list out) (q', pc')
  | qs_write q pc b c :
      chan_send (q_buffer q) b = SendOk c ->
      q_step (q, pc) [b] [] (set_q_buffer c q, pc)
  | qs_close q pc q' :
      close q = Some q' -> q_step (q, pc) [] [] (q', pc).

Inductive q_steps (s : queue W * send_pc W) : list buffer -> list (W * buffer) ->
    queue W * send_pc W -> Prop :=
  | q_steps_refl : q_steps s [] [] s
  | q_steps_snoc ins outs s1 i o s2 :
      q_steps s ins outs s1 -> q_step s1 i o s2 -> q_steps s (ins ++ i) (outs ++ o) s2.

(** Every connection of the order has been registered. *)
Definition q_covered q : Prop := forall id, id ∈ q_sorted q -> is_Some (q_writers q !! id).

(** Where [Send] stands after handing out [k] buffers. *)
Definition q_pos q pc (k : nat) : Prop :=
  match pc with
  | PEnter | PStart | PTop => top_pos (q_sorted q) k
  | PRange rest => range_pos (q_sorted q) rest k
  | PRead w rest | PWrite w rest _ =>
      exists id, w = q_writers q !! id /\ is_Some w /\ range_pos (q_sorted q) (id :: rest) k
  | _ => True
  end.

(** The buffer taken from the channel and not yet handed out. *)
Definition q_held pc : list buffer :=
  match pc with PWrite _ _ b => [b] | _ => [] end.

(** [Send] has left its loops. *)
Definition q_over pc : Prop :=
  match pc with PDefer _ | PSignal _ | PCloseDone _ | PReturned _ => True | _ => False end.

#[export] Instance q_over_dec pc : Decision (q_over pc).
Proof. destruct pc; apply _. Defined.

(** What [Send] has received so far, and what it has handed out. *)
Definition q_flow q pc ins outs : Prop :=
  exists taken m,
    map snd outs ++ q_held pc = taken ++ replicate m buffer_zero /\
    ins = taken ++ chan_items (q_buffer q) /\
    (0 < m -> chan_closed (q_buffer q) = true /\ chan_items (q_buffer q) = []).

Record q_inv q0 (s : queue W * send_pc W) ins outs : Prop := {
  qi_sorted : q_sorted s.1 = q_sorted q0;
  qi_writers : q_writers s.1 = q_writers q0;
  qi_pos : q_pos s.1 s.2 (length outs);
  qi_flow : q_flow s.1 s.2 ins outs;
  qi_lanes : forall i w b, outs !! i = Some (w, b) ->
    exists id, lane_at (q_sorted q0) i = Some id /\ q_writers q0 !! id = Some w;
}.

Lemma Send_step_fields q pc ev q' pc' out :
  Send_step q pc ev = Some (q', pc', out) ->
  q_sorted q' = q_sorted q /\ q_writers q' = q_writers q /\ q_masterID q' = q_masterID q /\
  q_ctime q' = q_ctime q /\ chan_closed (q_buffer q') = chan_closed (q_buffer q).
Proof.
  unfold Send_step, readWithTimeout, chan_recv. intros H.
  repeat case_match; simplify_eq/=; done.
Qed.

(** The effect of one step of [Send] on the channel, by its kind. *)
Lemma Send_step_flow q pc ev q' pc' out :
  Send_step q pc ev = Some (q', pc', out) ->
  (q_held pc' = [] /\ chan_items (q_buffer q') = chan_items (q_buffer q) /\
     (q_held pc = [] /\ out = None \/
      (exists w rest b, pc = PWrite (Some w) rest b /\ out = Some (w, b)) \/
      (exists rest b, pc = PWrite None rest b /\ out = None))) \/
  (exists w rest b, pc = PRead w rest /\ pc' = PWrite w rest b /\ out = None /\
     (chan_items (q_buffer q) = b :: chan_items (q_buffer q') \/
      b = buffer_zero /\ chan_closed (q_buffer q) = true /\
      chan_items (q_buffer q) = [] /\ chan_items (q_buffer q') = [])).
Proof.
  unfold Send_step, readWithTimeout, chan_recv. intros H.
  repeat case_match; simplify_eq/=;
    first [ left; split_and!; [done|done|]; left; done
          | left; split_and!; [done|done|]; right; left; by eauto
          | left; split_and!; [done|done|]; right; right; by eauto
          | right; do 3 eexists; split_and!; [done..|]; by eauto ].
Qed.

Lemma Send_step_over q pc ev q' pc' out :
  Send_step q pc ev = Some (q', pc', out) -> q_over pc -> q_over pc' /\ out = None.
Proof.
  intros H Ho. destruct pc, ev; simpl in *; try done; repeat case_match; by simplify_eq/=.
Qed.

(** [Send] stops at an error of a connection. *)
Lemma Send_step_failed q pc e q' pc' out :
  Send_step q pc (EvWrote (Some e)) = Some (q', pc', Some out) -> q_over pc'.
Proof. intros H. destruct pc; simpl in *; try done; repeat case_match; by simplify_eq/=. Qed.

Lemma Send_step_pos q pc ev q' pc' out k :
  Send_step q pc ev = Some (q', pc', out) -> q_covered q -> q_pos q pc k ->
  q_pos q' pc' (k + length (option_list out)) /\
  (forall w b, out = Some (w, b) ->
     exists id, lane_at (q_sorted q) k = Some id /\ q_writers q !! id = Some w).
Proof.
  intros H Hcov Hpos. pose proof (Send_step_fields _ _ _ _ _ _ H) as (Hs & Hw & _).
  unfold Send_step in H.
  destruct pc as [| | |[|id rest]|w rest|[w|] rest b|r|r|r|r], ev; simpl in *; try done;
    repeat case_match; simplify_eq/=; rewrite ?Nat.add_0_r, ?Nat.add_1_r;
    split; rewrite ?Hs, ?Hw; try (by intros; simplify_eq); eauto with wss.
  all: try (destruct Hpos as (id' & Hid & _ & Hr)).
  { exists id. split_and!; [done| |done]. by eapply Hcov, range_pos_elem. }
  all: intros; simplify_eq; eauto with wss.
Qed.

Lemma q_step_inv q0 s ins outs i o s' :
  q_covered q0 -> q_inv q0 s ins outs -> q_step s i o s' ->
  q_inv q0 s' (ins ++ i) (outs ++ o).
Proof.
  intros Hcov [Hs Hw Hpos (taken & m & Hrec & Hins & Hz) Hl] Hstep. destruct Hstep as
    [q pc ev q' pc' out H|q pc b c H|q pc q' H]; simpl in *; rewrite ?app_nil_r.
  - pose proof (Send_step_fields _ _ _ _ _ _ H) as (Hs' & Hw' & _ & _ & Hc).
    assert (q_covered q) as Hcov' by (unfold q_covered; by rewrite Hs, Hw).
    destruct (Send_step_pos _ _ _ _ _ _ _ H Hcov' Hpos) as [Hpos' Hlane].
    split; simpl; [congruence..| | |].
    + by rewrite length_app.
    + apply Send_step_flow in H as
        [(Hh & Hi & [[Hh0 ->]|[(w & rest & b & -> & ->)|(rest & b & -> & ->)]])
        |(w & rest & b & -> & -> & -> & Hi)]; simpl in *.
      * exists taken, m. rewrite app_nil_r, Hh, Hi, Hc. by rewrite Hh0 in Hrec.
      * exists taken, m. rewrite map_app, Hh, Hi, Hc, app_nil_r. done.
      * destruct Hpos as (? & ? & [? ?] & _). congruence.
      * rewrite app_nil_r in *. destruct Hi as [Hi|(-> & Hcl & Hi & Hi')].
        -- exists (taken ++ [b]), 0. destruct m as [|m]; [|by destruct Hz; [lia|]; rewrite Hi in *].
           simpl in *. rewrite app_nil_r in *. split_and!; [by rewrite Hrec|by rewrite Hins, Hi, <- app_assoc|lia].
        -- exists taken, (S m). rewrite Hrec, Hi', Hc, replicate_S_end, app_assoc. rewrite Hi in Hins.
           done.
    + intros i w b Hi. apply lookup_app_Some in Hi as [Hi|[Hge Hi]]; [by eapply Hl|].
      destruct out as [[w' b']|]; simpl in Hi; [|done].
      destruct (i - length outs) as [|] eqn:E; simplify_eq/=.
      destruct (Hlane _ _ eq_refl) as (id & Hid & Hwr). exists id.
      rewrite <- Hs, <- Hw. by replace i with (length outs) by lia.
  - apply chan_send_inv in H as (Hc & Hc' & Hi & _).
    split; simpl; try done. exists taken, m. simpl. rewrite Hi, Hins, <- app_assoc.
    split_and!; [done|done|]. intros Hm. destruct (Hz Hm). congruence.
  - pose proof (close_inv _ _ H) as (Hs' & Hw' & _ & _ & _ & Hst & Hi & _ & Hc).
    split; simpl; [congruence..| | |done].
    + destruct pc; simpl in *; rewrite ?Hs', ?Hw'; done.
    + exists taken, m. rewrite Hi. split_and!; [done|done|]. intros Hm. destruct (Hz Hm).
      split; [|done]. unfold close in H. case_decide; simplify_eq; [done|]. by apply Hc.
Qed.

Lemma q_steps_inv q0 s ins outs :
  q_covered q0 -> chan_items (q_buffer q0) = [] ->
  q_steps (q0, PEnter) ins outs s -> q_inv q0 s ins outs.
Proof.
  intros Hcov Hemp. induction 1 as [|ins outs s1 i o s2 _ IH Hstep].
  - split; simpl; auto with wss; [|done].
    exists [], 0. rewrite Hemp. split_and!; [done|done|lia].
  - by eapply q_step_inv.
Qed.

Lemma data_of_zeros m : data_of (replicate m buffer_zero) = [].
Proof. by induction m. Qed.

(** C12: [Send] deals the buffers written to the queue round robin over the
    order, whatever the interleaving of the writers, of [close] and of [Send]:
    its i-th output goes to the connection registered for the (i mod n)-th ID
    of the order, and as long as the queue is open the outputs are the buffers
    written, first come first served, without loss or duplication. *)
Theorem Send_round_robin q0 q pc ins outs :
  q_covered q0 -> chan_items (q_buffer q0) = [] ->
  q_steps (q0, PEnter) ins outs (q, pc) ->
  (forall i w b, outs !! i = Some (w, b) ->
     exists id, lane_at (q_sorted q0) i = Some id /\ q_writers q0 !! id = Some w) /\
  (chan_closed (q_buffer q) = false -> map snd outs = take (length outs) ins) /\
  (data_of (map snd outs) `prefix_of` data_of ins).
Proof.
  intros Hcov Hemp Hsteps. apply q_steps_inv in Hsteps; [|done..].
  destruct Hsteps as [_ _ _ (taken & m & Hrec & Hins & Hz) Hl]. simpl in *.
  split_and!; [done| |].
  - intros Hopen. destruct m as [|m]; [|destruct Hz; [lia|congruence]].
    simpl in Hrec. rewrite app_nil_r in Hrec. subst taken. rewrite Hins, <- app_assoc.
    rewrite <- (length_map snd outs). by rewrite take_app_length.
  - assert (data_of (map snd outs) `prefix_of` data_of taken) as Hp.
    { exists (data_of (q_held pc)). rewrite <- data_of_app, Hrec, data_of_app.
      by rewrite data_of_zeros, app_nil_r. }
    etrans; [done|]. exists (data_of (chan_items (q_buffer q))).
    by rewrite <- data_of_app, Hins.
Qed.
End send_facts.

(** * How [Send] ends *)

Section send_end.
Context {K : Ksuid} {W : Type}.
Implicit Types (q : queue W) (pc : send_pc W) (outs : list (W * buffer)).

Definition q_loop pc : Prop :=
  match pc with PTop | PRange _ | PRead _ _ | PWrite _ _ _ => True | _ => False end.

(** A bound on the steps that [Send] still takes in a closed queue. *)
Definition send_measure pc : nat :=
  match pc with
  | PReturned _ => 0
  | PCloseDone _ => 1
  | PSignal _ => 2
  | PDefer _ => 3
  | PTop => 4
  | PRange rest => 3 * length rest + 5
  | PWrite _ rest _ => 3 * length rest + 6
  | PRead _ rest => 3 * length rest + 7
  | PEnter | PStart => 0
  end.

(** [Send] is running and the queue has been closed under it, or [Send] is
    already past its loops. *)
Definition q_closing q pc : Prop :=
  q_over pc \/
  q_loop pc /\ q_status q = StaClose /\ chan_closed (q_buffer q) = true.

Lemma Send_step_closing q pc ev q' pc' out :
  q_closing q pc -> Send_step q pc ev = Some (q', pc', out) ->
  q_closing q' pc' /\ send_measure pc' < send_measure pc.
Proof.
  intros Hc H.
  pose proof (Send_step_fields _ _ _ _ _ _ H) as (_ & _ & _ & _ & Hcl).
  unfold q_closing in *. rewrite Hcl.
  destruct pc as [| | |[|id rest]|w rest|[w|] rest b|r|r|r|r], ev; simpl in *; try done;
    repeat case_match; simplify_eq/=;
    destruct Hc as [Ho|(Hl & Hs & Hcc)]; try done;
    (split; [|simpl; lia]); simpl; auto.
Qed.

Lemma Send_closing_progress q pc :
  q_closing q pc -> (exists r, pc = PReturned r) \/ (exists ev, is_Some (Send_step q pc ev)).
Proof.
  intros [Ho|(Hl & Hs & Hc)]; destruct pc as [| | |[|id rest]|w rest|[w|] rest b|r|r|r|r];
    simpl in *; try done; try (by left; eauto); right.
  - by exists EvTau.
  - destruct (chan_closed (q_done q)) eqn:E; [exists EvTau|exists EvWaiter]; simpl; by rewrite ?E.
  - exists EvTau. simpl. by destruct (chan_close _).
  - exists EvTau. by rewrite decide_True.
  - by exists EvTau.
  - by exists EvTau.
  - exists EvData. unfold readWithTimeout, chan_recv. rewrite Hc. by destruct (chan_items _).
  - exists (EvWrote None). by destruct (b_eof b).
  - by exists EvTau.
Qed.

(** C26: when the queue is closed while [Send] is in its loops, [Send] stops: it
    takes at most [send_measure] further steps (about three for each connection
    left in the current walk), and until it has returned it is never stuck,
    except for the goroutine it must meet in [Wait]. *)
Theorem Send_close_terminates q pc evs q' pc' outs :
  q_closing q pc -> Send_run q pc evs = Some (q', pc', outs) ->
  length evs + send_measure pc' <= send_measure pc /\
  ((exists r, pc' = PReturned r) \/ (exists ev, is_Some (Send_step q' pc' ev))).
Proof.
  revert q pc outs. induction evs as [|ev evs IH]; intros q pc outs Hc; simpl.
  { intros; simplify_eq. split; [lia|]. by apply Send_closing_progress. }
  destruct (Send_step q pc ev) as [[[q1 pc1] o]|] eqn:E; [|done].
  destruct (Send_run q1 pc1 evs) as [[[q2 pc2] os]|] eqn:E2; [|done].
  intros; simplify_eq. apply Send_step_closing in E as [Hc1 Hm]; [|done].
  destruct (IH _ _ _ Hc1 E2) as [Hlen Hprog]. split; [lia|done].
Qed.

(** The events after which a healthy [Send] goes on: no timer fires and no
    connection reports an error. *)
Definition ev_healthy (ev : send_ev) : Prop :=
  match ev with EvTimer | EvWrote (Some _) => False | _ => True end.

(** Started on a queue that is closed already: before [q.status = StaSend] the
    status does not matter, afterwards it is no longer [StaClose]. *)
Definition q_late q pc : Prop :=
  chan_closed (q_buffer q) = true /\ chan_items (q_buffer q) = [] /\ q_covered q /\
  match pc with
  | PEnter => q_status q = StaClose
  | PStart => True
  | PTop | PRange _ => q_status q = StaSend /\ exists k, q_pos q pc k
  | PRead w rest => q_status q = StaSend /\ exists k, q_pos q pc k
  | PWrite w rest b => q_status q = StaSend /\ b = buffer_zero /\ exists k, q_pos q pc k
  | _ => False
  end.

Lemma Send_step_late q pc ev q' pc' out :
  q_late q pc -> ev_healthy ev -> Send_step q pc ev = Some (q', pc', out) ->
  q_late q' pc' /\ (forall w b, out = Some (w, b) -> b = buffer_zero).
Proof.
  intros (Hcl & Hit & Hcov & Hpc) Hev H.
  pose proof (Send_step_fields _ _ _ _ _ _ H) as (Hs & Hw & _ & _ & Hcl').
  assert (q_covered q') as Hcov' by (unfold q_covered; by rewrite Hs, Hw).
  assert (forall k, q_pos q pc k -> q_pos q' pc' (k + length (option_list out))) as Hpos.
  { intros k Hk. by eapply Send_step_pos. }
  assert (q_late q' pc' <-> match pc' with
    | PEnter => q_status q' = StaClose
    | PStart => True
    | PTop | PRange _ => q_status q' = StaSend /\ exists k, q_pos q' pc' k
    | PRead w rest => q_status q' = StaSend /\ exists k, q_pos q' pc' k
    | PWrite w rest b => q_status q' = StaSend /\ b = buffer_zero /\ exists k, q_pos q' pc' k
    | _ => False end) as ->.
  { apply Send_step_flow in H as [(_ & Hi & _)|(w & rest & b & _ & _ & _ & [Hi|(_ & _ & _ & Hi)])];
      unfold q_late; rewrite Hcl'; [rewrite Hi|by rewrite Hit in Hi|]; tauto. }
  clear Hcov Hcov' Hcl'. unfold Send_step, readWithTimeout, chan_recv in H.
  destruct pc as [| | |[|id rest]|w rest|[w|] rest b|r|r|r|r], ev as [| | |[e|]|]; simpl in *; try done;
    rewrite ?Hit, ?Hcl in H; repeat case_match; simplify_eq/=; destruct_all;
    split_and?; try done; try (by intros; simplify_eq); eauto using top_pos_0.
  all: try (by destruct_or?; congruence).
  eexists. eapply Hpos. by eauto.
Qed.

(** A [Send] that starts after the queue was closed never notices: it sets
    [StaClose] back to [StaSend], and goes on for ever, handing empty messages
    to the connections, until a connection fails. *)
Theorem Send_after_close_never_stops q evs q' pc outs :
  q_status q = StaClose -> chan_closed (q_buffer q) = true ->
  chan_items (q_buffer q) = [] -> q_covered q -> Forall ev_healthy evs ->
  Send_run q PEnter evs = Some (q', pc, outs) ->
  ~ q_over pc /\ Forall (fun o => snd o = buffer_zero) outs.
Proof.
  intros H1 H2 H3 H4 Hev. assert (q_late q PEnter) as Hlate by done.
  clear H1 H2 H3 H4. revert Hlate. generalize (@PEnter K W). intros pc0. revert q pc0 outs.
  induction Hev as [|ev evs Hev _ IH]; intros q pc0 outs Hlate; simpl.
  { intros; simplify_eq. split; [|done]. destruct Hlate as (_ & _ & _ & Hpc).
    destruct pc; simpl; tauto. }
  destruct (Send_step q pc0 ev) as [[[q1 pc1] o]|] eqn:E; [|done].
  destruct (Send_run q1 pc1 evs) as [[[q2 pc2] os]|] eqn:E2; [|done].
  intros; simplify_eq. apply Send_step_late in E as [Hl Hz]; [|done..].
  destruct (IH _ _ _ Hl E2) as [Hov Hall]. split; [done|].
  apply Forall_app. split; [|done]. destruct o as [[w b]|]; simpl; [|done].
  constructor; [|done]. by eapply Hz.
Qed.

(** [Send] with an empty order. *)
Definition q_idle q pc : Prop :=
  q_sorted q = [] /\ q_status q = StaSend /\ (pc = PTop \/ pc = PRange []).

Lemma Send_run_idle q pc evs q' pc' outs :
  q_idle q pc -> Send_run q pc evs = Some (q', pc', outs) ->
  q' = q /\ q_idle q' pc' /\ outs = [].
Proof.
  revert q pc outs. induction evs as [|ev evs IH]; intros q pc outs (Hs & Hst & Hpc); simpl in *.
  { intros; by simplify_eq. }
  destruct (Send_step q pc ev) as [[[q1 pc1] o]|] eqn:E; [|done].
  destruct (Send_run q1 pc1 evs) as [[[q2 pc2] os]|] eqn:E2; [|done].
  intros; simplify_eq. assert (q1 = q /\ o = None /\ q_idle q pc1) as (-> & -> & Hi).
  { unfold q_idle. destruct Hpc as [-> | ->], ev; simpl in *; rewrite ?Hst, ?Hs in E;
      simplify_eq/=; split_and!; auto. }
  destruct (IH _ _ _ Hi E2) as (-> & Hi' & ->). done.
Qed.

(** With an empty order (an establish message whose list of connections is
    empty, before any connection registered) [trySend] does start [Send], and
    [Send] is a busy loop: every step is possible at once and none ever reads
    the buffer, hands anything out or leaves the loop. *)
Theorem Send_empty_order_spins q n :
  q_sorted q = [] -> q_status q = StaWait ->
  (exists evs pc', length evs = n /\ Forall (eq EvTau) evs /\
     Send_run q PEnter (EvTau :: EvTau :: evs) = Some (set_q_status StaSend q, pc', []) /\
     ~ q_over pc') /\
  (forall evs q' pc' outs,
     Send_run (set_q_status StaSend q) PTop evs = Some (q', pc', outs) ->
     q' = set_q_status StaSend q /\ ~ q_over pc' /\ outs = []).
Proof.
  intros Hs Hw. split.
  - simpl. rewrite Hw. simpl.
    assert (forall pc, q_idle (set_q_status StaSend q) pc ->
      exists evs pc', length evs = n /\ Forall (eq EvTau) evs /\
        Send_run (set_q_status StaSend q) pc evs = Some (set_q_status StaSend q, pc', []) /\
        ~ q_over pc') as Hgo.
    { induction n as [|n IH]; intros pc Hi.
      - exists [], pc. split_and!; try done. destruct Hi as (_ & _ & [-> | ->]); simpl; tauto.
      - assert (exists pc1, Send_step (set_q_status StaSend q) pc EvTau =
            Some (set_q_status StaSend q, pc1, None) /\ q_idle (set_q_status StaSend q) pc1)
          as (pc1 & E & Hi1).
        { destruct Hi as (Ha & Hb & [-> | ->]); simpl in *; rewrite ?Ha;
            eexists; (split; [done|]); split_and!; auto. }
        destruct (IH _ Hi1) as (evs & pc' & Hlen & Hall & Hrun & Hov).
        exists (EvTau :: evs), pc'. split_and!; simpl; auto.
        by rewrite E, Hrun. }
    destruct (Hgo PTop) as (evs & pc' & Hlen & Hall & Hrun & Hov); [by split_and!; auto|].
    exists evs, pc'. by rewrite Hrun.
  - intros evs q' pc' outs H. apply Send_run_idle in H as (-> & (_ & _ & Hpc) & ->);
      [|by split_and!; auto]. destruct Hpc as [-> | ->]; simpl; tauto.
Qed.

(** Not yet past the rendezvous on [done]. *)
Definition q_unsignalled q pc : Prop :=
  chan_closed (q_done q) = false /\
  match pc with
  | PEnter => q_status q <> StaSend /\ q_status q <> StaDone
  | PSignal _ => q_status q = StaDone
  | PCloseDone _ | PReturned _ => False
  | _ => True
  end.

Lemma Send_step_unsignalled q pc ev q' pc' out :
  q_unsignalled q pc -> Send_step q pc ev = Some (q', pc', out) ->
  q_unsignalled q' pc' \/
  (ev = EvWaiter /\ exists r, pc' = PCloseDone r /\ q_status q' = StaDone /\
                              chan_closed (q_done q') = false).
Proof.
  unfold Send_step, readWithTimeout, chan_recv, q_unsignalled. intros (Hd & Hpc) H.
  destruct pc as [| | |[|id rest]|w rest|[w|] rest b|r0|r0|r0|r0], ev as [| | |[e|]|];
    simpl in *; try done; repeat case_match; simplify_eq/=; try (by left; split_and!).
  - by destruct_or?; destruct_and?.
  - right. eauto 10.
Qed.


(** Two goroutines that run [Send] on the same queue; each event says which
    one moves. *)
Fixpoint Send_run2 q (pc1 pc2 : send_pc W) (evs : list (bool * send_ev)) :
    option (queue W * send_pc W * send_pc W) :=
  match evs with
  | [] => Some (q, pc1, pc2)
  | (first, ev) :: evs' =>
      match Send_step q (if first then pc1 else pc2) ev with
      | Some (q', pc', _) =>
          if first : bool then Send_run2 q' pc' pc2 evs' else Send_run2 q' pc1 pc' evs'
      | None => None
      end
  end.

(** The entry test does not exclude a second [Send] (the hub starts one in
    [Add] and may start another in [TrySend]): if both are past the test before
    either has set the status, the second panics on the closed channel [done],
    and a panic of a goroutine ends the process. *)
Theorem Send_twice_panics q :
  q_status q = StaWait -> chan_closed (q_done q) = false -> q_sorted q <> [] ->
  exists evs q', Send_run2 q PEnter PEnter evs = Some (q', PReturned (SRet (Some (errors_New "time out"))), PReturned SPanic).
Proof.
  intros Hw Hd Hs. destruct (q_sorted q) as [|id rest] eqn:E; [done|].
  exists [(true, EvTau); (false, EvTau);
          (true, EvTau); (true, EvTau); (true, EvTau); (true, EvTimer); (true, EvTau);
          (true, EvWaiter); (true, EvTau);
          (false, EvTau); (false, EvTau); (false, EvTau); (false, EvTimer); (false, EvTau);
          (false, EvTau)].
  destruct q as [mid buf ws srt st [dcap ditems dclosed] ct]. simpl in *. subst.
  eexists. reflexivity.
Qed.
End send_end.
