(* ===== verification/QueueHub.v ===== *)
(** The hub of the sending queues (pipe/queue.go, [QueueHub]).

    A hub is a [ptrmap] of queues (PtrMap.v): the queues are shared with the
    goroutines that write to them and with their [Send].  Every method runs
    under the hub's lock and is one step; the goroutines that use the queues
    interleave with them ([qh_step]). *)
From S2P Require Import Prelude GoChan Pipe RoundRobin PtrMap Queue.

#[export, refine] Instance queue_object {K : Ksuid} {W : Type} : HubObject (queue W) :=
  {| obj_close := close; obj_ctime := q_ctime;
     obj_open q := chan_closed (q_buffer q) = false |}.
Proof.
  intros q Hq. unfold close. case_decide; [by eexists|]. simpl.
  unfold chan_close. rewrite Hq. by eexists.
Defined.

Section hub.
Context {K : Ksuid} {W : Type}.

Definition QueueHub : Type := ptrmap (queue W).

Definition NewQueueHub : QueueHub := pm_empty.

(** [trySend]: start [Send] when every connection of the order is there. *)
Definition trySend (masterID : KSUID) (h : QueueHub) : QueueHub * bool :=
  match pm_map h !! masterID with
  | Some p =>
      match pm_heap h !! p with
      | Some q =>
          if Nat.eqb (size (q_writers q)) (length (q_sorted q))
          then (pm_start p h, true)
          else (h, false)
      | None => (h, false)
      end
  | None => (h, false)
  end.

Definition TrySend : KSUID -> QueueHub -> QueueHub * bool := trySend.

(** [if _, ok := h.queue[masterID]; !ok { h.queue[masterID] = NewQueue(masterID) }] *)
Definition ensure (now : Z) (masterID : KSUID) (h : QueueHub) : QueueHub :=
  match pm_map h !! masterID with
  | Some _ => h
  | None => pm_new masterID (NewQueue now masterID) h
  end.

Definition Add (now : Z) (masterID id : KSUID) (w : W) (h : QueueHub) : QueueHub :=
  let h1 := ensure now masterID h in
  let h2 := match pm_map h1 !! masterID with
            | Some p => pm_update p (fun q => set_q_writers (<[id := w]> (q_writers q)) q) h1
            | None => h1
            end in
  fst (trySend masterID h2).

Definition Remove (masterID : KSUID) (h : QueueHub) : option QueueHub :=
  pm_close_delete masterID h.

(** [Get]: the pointer, or nil. *)
Definition Get (masterID : KSUID) (h : QueueHub) : option nat :=
  pm_map h !! masterID.

(** The method [SetSort] of the hub. *)
Definition hub_SetSort (now : Z) (masterID : KSUID) (sort : list KSUID) (h : QueueHub) :
    QueueHub :=
  match pm_map h !! masterID with
  | Some p => pm_update p (SetSort sort) h
  | None =>
      let h1 := pm_new masterID (NewQueue now masterID) h in
      match pm_map h1 !! masterID with
      | Some p => pm_update p (SetSort sort) h1
      | None => h1
      end
  end.

Definition TimeoutClose (now : Z) (order : list KSUID) (h : QueueHub) : option QueueHub :=
  pm_TimeoutClose now order h.

Definition Len (h : QueueHub) : nat := pm_len h.
End hub.
Arguments QueueHub {K} W.

(** * Facts *)

Section hub_facts.
Context {K : Ksuid} {W : Type}.
Implicit Types (q : queue W) (h : QueueHub W) (order : list KSUID).

(** A step of the process: a method of the hub, or one of the goroutines that
    hold a pointer to a queue: a writer, a [Send] at any of its points, or the
    client, which sets the order of its queue directly. *)
Inductive qh_step : QueueHub W -> QueueHub W -> Prop :=
  | qh_step_Add now m id w h : qh_step h (Add now m id w h)
  | qh_step_SetSort now m sort h : qh_step h (hub_SetSort now m sort h)
  | qh_step_TrySend m h : qh_step h (fst (TrySend m h))
  | qh_step_Remove m h h' : Remove m h = Some h' -> qh_step h h'
  | qh_step_Timeout now order h h' : TimeoutClose now order h = Some h' -> qh_step h h'
  | qh_step_write p q b c h :
      pm_heap h !! p = Some q -> chan_send (q_buffer q) b = SendOk c ->
      qh_step h (pm_update p (set_q_buffer c) h)
  | qh_step_Send p q pc ev q' pc' out h :
      pm_heap h !! p = Some q -> Send_step q pc ev = Some (q', pc', out) ->
      qh_step h (pm_update p (fun _ => q') h)
  | qh_step_sort p sort h : qh_step h (pm_update p (SetSort sort) h).

Lemma qh_wf_update p f h :
  (forall q, chan_closed (q_buffer (f q)) = chan_closed (q_buffer q)) ->
  pm_wf h -> pm_wf (pm_update p f h).
Proof. intros Hf. apply pm_wf_update. intros q _ Hq. simpl. by rewrite Hf. Qed.

Lemma pm_wf_trySend m h : pm_wf h -> pm_wf (fst (trySend m h)).
Proof.
  intros Hwf. unfold trySend. destruct (pm_map h !! m) as [p|]; [|done].
  destruct (pm_heap h !! p); [|done]. by destruct (Nat.eqb _ _).
Qed.

Lemma pm_wf_ensure now m h : pm_wf h -> pm_wf (ensure now m h).
Proof. intros Hwf. unfold ensure. case_match; [done|by apply pm_wf_new]. Qed.

Lemma pm_wf_Add now m id w h : pm_wf h -> pm_wf (Add now m id w h).
Proof.
  intros Hwf%(pm_wf_ensure now m). unfold Add. apply pm_wf_trySend.
  destruct (pm_map (ensure now m h) !! m); [by apply qh_wf_update|done].
Qed.

Lemma pm_wf_SetSort now m sort h : pm_wf h -> pm_wf (hub_SetSort now m sort h).
Proof.
  intros Hwf. unfold hub_SetSort. case_match; [by apply qh_wf_update|].
  assert (pm_wf (pm_new m (NewQueue now m) h)) by (by apply pm_wf_new).
  case_match; [by apply qh_wf_update|done].
Qed.

Lemma qh_step_wf h h' : qh_step h h' -> pm_wf h -> pm_wf h'.
Proof.
  destruct 1 as [now m id w h|now m sort h|m h|m h h' E|now order h h' E|p q b c h Hq E
                |p q pc ev q' pc' out h Hq E|p sort h]; intros Hwf.
  - by apply pm_wf_Add.
  - by apply pm_wf_SetSort.
  - by apply pm_wf_trySend.
  - destruct (pm_close_delete_ok m h Hwf) as (h1 & E1 & Hwf1 & _).
    unfold Remove in E. by simplify_eq.
  - destruct (pm_TimeoutClose_ok now order h Hwf) as (h1 & E1 & Hwf1 & _).
    unfold TimeoutClose in E. by simplify_eq.
  - apply pm_wf_update; [|done]. intros q1 Hq1 _. by apply chan_send_inv in E as (_ & E2 & _).
  - apply pm_wf_update; [|done]. intros q1 Hq1. simplify_eq. simpl.
    by apply Send_step_fields in E as (_ & _ & _ & _ & ->).
  - by apply qh_wf_update.
Qed.

Lemma qh_reachable_wf h : rtc qh_step NewQueueHub h -> pm_wf h.
Proof.
  intros Hr. assert (pm_wf (NewQueueHub (W := W))) as Hwf by apply pm_wf_empty.
  revert Hwf. induction Hr; eauto using qh_step_wf.
Qed.

(** C23: in every state the process can reach, by any interleaving of the hub's
    methods and of the goroutines that use its queues, removing a queue and
    removing the expired ones never close a channel twice (which would panic
    while the hub's lock is held); and [TimeoutClose] removes exactly the first
    101 expired queues in the order in which the map is ranged over: no queue
    younger than an hour is touched, and none expired is left when there are at
    most 101 of them. (The comment in the code gives 100 as the maximum.) *)
Theorem QueueHub_removal_safe h now m order :
  rtc qh_step NewQueueHub h ->
  is_Some (Remove m h) /\
  exists h', TimeoutClose now order h = Some h' /\
    pm_without h (take 101 (filter (pm_expired now h) order)) h'.
Proof.
  intros Hwf%qh_reachable_wf. split.
  - destruct (pm_close_delete_ok m h Hwf) as (h' & E & _). by exists h'.
  - destruct (pm_TimeoutClose_ok now order h Hwf) as (h' & E & _ & H). by exists h'.
Qed.

(** [trySend] only starts the [Send] of a complete queue: when the
    registered connections all belong to the order, its test of the two sizes
    is enough for every connection of the order to be registered (and to occur
    once), so that [Send] finds a writer at every turn. *)
Theorem trySend_covered m h h' p q :
  trySend m h = (h', true) -> pm_map h !! m = Some p -> pm_heap h !! p = Some q ->
  dom (q_writers q) ⊆ list_to_set (q_sorted q) ->
  pm_go h' = pm_go h ++ [p] /\ q_covered q /\ NoDup (q_sorted q).
Proof.
  intros Ht Hp Hq Hsub. unfold trySend in Ht. rewrite Hp, Hq in Ht.
  destruct (Nat.eqb_spec (size (q_writers q)) (length (q_sorted q))) as [Hsz|]; simplify_eq/=.
  split; [done|]. rewrite <- size_dom in Hsz.
  assert (NoDup (q_sorted q)) as Hnd.
  { apply NoDup_size_list_to_set. pose proof (subseteq_size _ _ Hsub). lia. }
  split; [|done]. intros id Hid. apply elem_of_dom.
  assert (dom (q_writers q) ≡ list_to_set (q_sorted q)) as ->; [|set_solver].
  apply set_subseteq_size_equiv; [done|]. rewrite size_list_to_set by done. lia.
Qed.

(** ** The handshake

    On the server the connections of a proxied connection register ([HAdd],
    when their hello message arrives, each on its own websocket), the
    establish message sets the order ([HSort]), and once the target is dialled
    [TrySend] runs ([HTry]). *)
Inductive handshake := HAdd (id : KSUID) (w : W) | HSort | HTry.

Definition hs_step (now : Z) (m : KSUID) (sort : list KSUID) h (op : handshake) : QueueHub W :=
  match op with
  | HAdd id w => Add now m id w h
  | HSort => hub_SetSort now m sort h
  | HTry => fst (TrySend m h)
  end.

(** The writers that the steps [ops] have registered. *)
Definition hs_writers (ops : list handshake) : gmap KSUID W :=
  foldl (fun m op => match op with HAdd id w => <[id := w]> m | _ => m end) ∅ ops.

(** The queue of [m] after the handshake steps [ops]. *)
Definition hs_inv m sort (ops : list handshake) h : Prop :=
  match pm_map h !! m with
  | None => Forall (eq HTry) ops
  | Some p => exists q, pm_heap h !! p = Some q /\ q_writers q = hs_writers ops /\
      ((HSort ∈ ops /\ q_sorted q = sort) \/ (~ (HSort ∈ ops) /\ q_sorted q = []))
  end.

Lemma hs_writers_snoc ops op :
  hs_writers (ops ++ [op]) =
    match op with HAdd id w => <[id := w]> (hs_writers ops) | _ => hs_writers ops end.
Proof. unfold hs_writers. by rewrite foldl_app. Qed.

(** The connections that have registered. *)
Definition hs_added (ops : list handshake) : list KSUID :=
  omap (fun op => match op with HAdd id _ => Some id | _ => None end) ops.

Lemma hs_added_snoc ops op :
  hs_added (ops ++ [op]) = hs_added ops ++ match op with HAdd id _ => [id] | _ => [] end.
Proof. unfold hs_added. rewrite omap_app. by destruct op. Qed.

Lemma hs_writers_dom ops : dom (hs_writers ops) = list_to_set (hs_added ops).
Proof.
  induction ops as [|op ops IH] using rev_ind; [apply dom_empty_L|].
  rewrite hs_writers_snoc, hs_added_snoc, list_to_set_app_L, <- IH.
  destruct op; simpl; rewrite ?dom_insert_L; set_solver.
Qed.

(** A connection that registers once has the writer it registered. *)
Lemma hs_writers_lookup ops id w :
  NoDup (hs_added ops) -> HAdd id w ∈ ops -> hs_writers ops !! id = Some w.
Proof.
  induction ops as [|op ops IH] using rev_ind; [by intros _ ?%not_elem_of_nil|].
  rewrite hs_added_snoc, hs_writers_snoc, NoDup_app. intros (Hnd & Hne & _) Hin.
  apply elem_of_app in Hin as [Hin|Hin].
  - destruct op as [id' w'| |]; try by apply IH. rewrite lookup_insert_ne; [by apply IH|].
    intros ->. eapply (Hne id); [|set_solver]. apply list_elem_of_omap. by exists (HAdd id w).
  - apply list_elem_of_singleton in Hin as <-. apply lookup_insert_eq.
Qed.

(** The writers are those that have registered. *)
Lemma hs_writers_from ops id w : hs_writers ops !! id = Some w -> HAdd id w ∈ ops.
Proof.
  induction ops as [|op ops IH] using rev_ind; [unfold hs_writers; simpl; by rewrite lookup_empty|].
  rewrite hs_writers_snoc. destruct op as [id' w'| |]; [|set_solver..].
  rewrite lookup_insert. case_decide; intros; simplify_eq; set_solver.
Qed.

Lemma hs_writers_try ops : Forall (eq HTry) ops -> hs_writers ops = ∅.
Proof.
  induction ops as [|op ops IH] using rev_ind; [done|].
  rewrite Forall_app, Forall_cons, hs_writers_snoc. intros (Hall & <- & _). auto.
Qed.

Lemma trySend_queue m h :
  pm_map (fst (trySend m h)) = pm_map h /\ pm_heap (fst (trySend m h)) = pm_heap h.
Proof. unfold trySend. by repeat case_match. Qed.

(** [Add] without its final [trySend]. *)
Definition hs_register now m id (w : W) h : QueueHub W :=
  let h1 := ensure now m h in
  match pm_map h1 !! m with
  | Some p => pm_update p (fun q => set_q_writers (<[id := w]> (q_writers q)) q) h1
  | None => h1
  end.

Lemma hs_sort_not_try ops : Forall (eq HTry) ops -> HSort ∉ ops.
Proof. rewrite Forall_forall. intros Hall Hin. by apply Hall in Hin. Qed.

Lemma hs_register_inv now m sort ops id w h :
  hs_inv m sort ops h -> hs_inv m sort (ops ++ [HAdd id w]) (hs_register now m id w h).
Proof.
  unfold hs_inv, hs_register, ensure. rewrite hs_writers_snoc.
  destruct (pm_map h !! m) as [p|] eqn:Hp; simpl.
  - intros (q & Hq & Hw & Hs). rewrite Hp. simpl. rewrite Hp.
    exists (set_q_writers (<[id := w]> (q_writers q)) q). split_and!.
    + by rewrite list_lookup_alter_eq, Hq.
    + simpl. by rewrite Hw.
    + destruct Hs as [[? ?]|[? ?]]; [left|right]; simpl; set_solver.
  - intros Hall. rewrite lookup_insert_eq. simpl. rewrite lookup_insert_eq, hs_writers_try by done.
    eexists. split_and!; [by rewrite list_lookup_alter_eq, list_lookup_middle|done|].
    right. apply hs_sort_not_try in Hall. split; [set_solver|done].
Qed.

Lemma hs_sort_inv now m sort ops h :
  hs_inv m sort ops h -> hs_inv m sort (ops ++ [HSort]) (hub_SetSort now m sort h).
Proof.
  unfold hs_inv, hub_SetSort. rewrite hs_writers_snoc. destruct (pm_map h !! m) as [p|] eqn:Hp; simpl.
  - intros (q & Hq & Hw & Hs). rewrite Hp. exists (SetSort sort q). split_and!.
    + by rewrite list_lookup_alter_eq, Hq.
    + done.
    + left. split; [set_solver|done].
  - intros Hall. rewrite lookup_insert_eq. simpl. rewrite lookup_insert_eq, hs_writers_try by done.
    eexists. split_and!; [by rewrite list_lookup_alter_eq, list_lookup_middle|done|].
    left. split; [set_solver|done].
Qed.

Lemma hs_try_inv m sort ops h :
  hs_inv m sort ops h -> hs_inv m sort (ops ++ [HTry]) (fst (trySend m h)).
Proof.
  unfold hs_inv. rewrite hs_writers_snoc. destruct (trySend_queue m h) as [-> ->].
  destruct (pm_map h !! m) as [p|] eqn:Hp; simpl.
  - intros (q & Hq & Hw & Hs). exists q. split_and!; [done..|].
    destruct Hs as [[? ?]|[? ?]]; [left|right]; set_solver.
  - intros Hall. apply Forall_app. auto.
Qed.

Lemma hs_inv_trySend_mono m sort ops h :
  hs_inv m sort ops h -> hs_inv m sort ops (fst (trySend m h)).
Proof. unfold hs_inv. by destruct (trySend_queue m h) as [-> ->]. Qed.

Lemma hs_run_inv now m sort ops h :
  pm_map h !! m = None -> hs_inv m sort ops (foldl (hs_step now m sort) h ops).
Proof.
  intros Hnone. induction ops as [|op ops IH] using rev_ind.
  { unfold hs_inv. simpl. by rewrite Hnone. }
  rewrite foldl_app. simpl. destruct op as [id w| |]; simpl.
  - by apply hs_inv_trySend_mono, hs_register_inv.
  - by apply hs_sort_inv.
  - by apply hs_try_inv.
Qed.

(** Until [Send] has taken its first step, the queue is as it was made but for
    its writers, its order and what has been written to it ([B]). *)
Definition queue_new (B : chan buffer -> Prop) m h : Prop :=
  forall p, pm_map h !! m = Some p -> exists q, pm_heap h !! p = Some q /\
    B (q_buffer q) /\ q_status q = StaWait.

Lemma queue_new_update B m p f h :
  (forall q, q_buffer (f q) = q_buffer q /\ q_status (f q) = q_status q) ->
  queue_new B m h -> queue_new B m (pm_update p f h).
Proof.
  intros Hf Hn p' Hp'. destruct (Hn p' Hp') as (q & Hq & Hb & Hs). simpl.
  destruct (decide (p = p')) as [->|Hne].
  - exists (f q). rewrite list_lookup_alter_eq, Hq. destruct (Hf q) as [-> ->]. by split_and!.
  - exists q. by rewrite list_lookup_alter_ne.
Qed.

Lemma queue_new_new (B : chan buffer -> Prop) now m h : B makeBuffer -> queue_new B m (pm_new m (NewQueue now m) h).
Proof.
  intros HB p. simpl. rewrite lookup_insert_eq. intros [= <-]. eexists. by rewrite list_lookup_middle.
Qed.

Lemma queue_new_trySend B m h : queue_new B m h -> queue_new B m (fst (trySend m h)).
Proof. intros Hn p. destruct (trySend_queue m h) as [-> ->]. apply Hn. Qed.

Lemma hs_step_new_queue (B : chan buffer -> Prop) now m sort h op : B makeBuffer -> queue_new B m h -> queue_new B m (hs_step now m sort h op).
Proof.
  intros HB Hn. destruct op as [id w| |]; simpl; [| |by apply queue_new_trySend].
  - unfold Add. apply queue_new_trySend.
    assert (queue_new B m (ensure now m h)) as Hn' by (unfold ensure; case_match; [done|by apply queue_new_new]).
    case_match; [|done]. by apply queue_new_update.
  - unfold hub_SetSort. case_match; [by apply queue_new_update|].
    case_match; [apply queue_new_update; [done|]|]; by apply queue_new_new.
Qed.

Lemma hs_run_new_queue (B : chan buffer -> Prop) now m sort ops h :
  B makeBuffer -> pm_map h !! m = None -> queue_new B m (foldl (hs_step now m sort) h ops).
Proof.
  intros HB Hm. assert (queue_new B m h) as Hn by (intros p Hp; congruence). clear Hm. revert h Hn.
  induction ops as [|op ops IH]; intros h Hn; [done|]. by apply IH, hs_step_new_queue.
Qed.

(** The order in which the hello messages, the establish message and the
    dialling of the target are handled does not matter: once every connection
    of the order (and no other) has registered and the order is set, the last
    of these steps, if it is not the setting of the order, leaves a complete
    queue and starts its [Send]. *)
Lemma handshake_starts now m sort h ops op :
  pm_map h !! m = None -> NoDup sort -> op <> HSort -> HSort ∈ ops ->
  hs_added (ops ++ [op]) ≡ₚ sort ->
  let h' := foldl (hs_step now m sort) h (ops ++ [op]) in
  exists p q, pm_map h' !! m = Some p /\ pm_heap h' !! p = Some q /\
    q_sorted q = sort /\ q_writers q = hs_writers (ops ++ [op]) /\ last (pm_go h') = Some p.
Proof.
  intros Hnone Hnd Hop Hsort Hadd h'.
  pose (h0 := foldl (hs_step now m sort) h ops).
  assert (exists h1, hs_inv m sort (ops ++ [op]) h1 /\ h' = fst (trySend m h1)) as (h1 & Hinv & ->).
  { pose proof (hs_run_inv now m sort ops h Hnone) as Hinv.
    unfold h'. rewrite foldl_app. simpl. destruct op as [id w| |]; [| |]; simpl; try done.
    - exists (hs_register now m id w h0). split; [by apply hs_register_inv|done].
    - exists h0. split; [|done]. apply hs_try_inv in Hinv. unfold hs_inv in *.
      destruct (trySend_queue m h0) as [E1 E2]. fold h0 in Hinv. by rewrite E1, E2 in Hinv. }
  unfold hs_inv in Hinv. destruct (pm_map h1 !! m) as [p|] eqn:Hp.
  2: { rewrite Forall_app in Hinv. destruct Hinv as [Hall _]. by apply hs_sort_not_try in Hall. }
  destruct Hinv as (q & Hq & Hw & [[_ Hs]|[Hno _]]); [|set_solver].
  exists p, q. destruct (trySend_queue m h1) as [-> ->]. split_and!; [done..|].
  unfold trySend. rewrite Hp, Hq, Hs, <- size_dom, Hw, hs_writers_dom.
  rewrite (list_to_set_perm_L _ _ Hadd), size_list_to_set by done.
  rewrite Nat.eqb_refl. simpl. apply last_snoc.
Qed.
End hub_facts.
