(* ===== verification/Link.v ===== *)
(** The receiving side of a proxied connection (pipe/link.go): each connection
    has a [link], whose buffer takes what that connection delivers; the master
    link's [Send] collects from the links of the order, round robin, and writes
    to the TCP connection.  [LinkHub] finds links by ID.

    As in Queue.v, [Send] is a machine whose atomic pieces interleave with the
    rest of the process; it looks its links up in the hub at every turn, so its
    state is the whole hub and the pointer [me] of the master link. *)
From S2P Require Import Prelude GoChan Pipe RoundRobin PtrMap.

Section link.
Context {K : Ksuid}.

Record link := mkLink {
  l_master : KSUID;
  l_buffer : chan buffer;
  l_status : status;
  l_done : chan unit;
  l_sorted : list KSUID;
  l_conn : option TCPConn;
  l_counter : Z;
  l_ctime : Z;
}.

Definition NewLink (now : Z) (masterID : KSUID) : link :=
  {| l_master := masterID; l_buffer := makeBuffer; l_status := StaWait;
     l_done := make_chan 0; l_sorted := []; l_conn := None; l_counter := 0; l_ctime := now |}.

Definition set_l_buffer (c : chan buffer) (q : link) : link :=
  mkLink (l_master q) c (l_status q) (l_done q) (l_sorted q) (l_conn q) (l_counter q) (l_ctime q).
Definition set_l_status (s : status) (q : link) : link :=
  mkLink (l_master q) (l_buffer q) s (l_done q) (l_sorted q) (l_conn q) (l_counter q) (l_ctime q).
Definition set_l_done (d : chan unit) (q : link) : link :=
  mkLink (l_master q) (l_buffer q) (l_status q) d (l_sorted q) (l_conn q) (l_counter q) (l_ctime q).
Definition set_l_conn (c : option TCPConn) (q : link) : link :=
  mkLink (l_master q) (l_buffer q) (l_status q) (l_done q) (l_sorted q) c (l_counter q) (l_ctime q).
Definition set_l_counter (n : Z) (q : link) : link :=
  mkLink (l_master q) (l_buffer q) (l_status q) (l_done q) (l_sorted q) (l_conn q) n (l_ctime q).

(** [link.SetConn]; the connection's write half has no other user than this
    link from then on. *)
Definition SetConn (conn : TCPConn) (q : link) : link := set_l_conn (Some conn) q.

(** [link.SetSort] *)
Definition SetSort (sort : list KSUID) (q : link) : link :=
  mkLink (l_master q) (l_buffer q) (l_status q) (l_done q) sort (l_conn q) (l_counter q) (l_ctime q).

(** [link.close]; its argument is not used. *)
Definition close (q : link) : option link :=
  if decide (l_status q = StaClose) then Some q
  else let q1 := set_l_status StaClose q in
       match chan_close (l_buffer q1) with
       | Some c => Some (set_l_buffer c q1)
       | None => None
       end.

(** ** Writing *)

(** What other goroutines do to the link while a writer waits in its [select]. *)
Inductive interference := IRecv | IStatus (s : status) | IClose.

Definition interfere (q : link) (a : interference) : link :=
  match a with
  | IRecv => match chan_recv (l_buffer q) with
             | RecvOk _ c => set_l_buffer c q
             | _ => q
             end
  | IStatus s => set_l_status s q
  | IClose => match close q with Some q' => q' | None => q end
  end.

Record write_env := mkWriteEnv { we_ops : list interference; we_timer : bool }.

(** [link.writeBuf]; as for a queue, [None] is a call that is still blocked,
    and the panic of a send on a closed channel is recovered. *)
Definition writeBuf (e : write_env) (q : link) (b : buffer) :
    option (link * (Z * option error)) :=
  if decide (l_status q = StaDone) then Some (q, (0%Z, Some (errors_New "send is over")))
  else
    let q1 := foldl interfere q (we_ops e) in
    if we_timer e then Some (q1, (0%Z, Some (errors_New "write timeout")))
    else match chan_send (l_buffer q1) b with
         | SendOk c => Some (set_l_buffer c q1, (Z.of_nat (length (b_data b)), None))
         | SendPanics => Some (q1, (0%Z, None))
         | SendBlocks => None
         end.

(** [link.Write] *)
Definition Write (e : write_env) (q : link) (data : bytes) :
    option (link * (Z * option error)) :=
  writeBuf e q (mkBuffer false data).

(** [link.WriteEOF] *)
Definition WriteEOF (e : write_env) (q : link) : option link :=
  match writeBuf e q (mkBuffer true []) with
  | Some (q', _) => Some q'
  | None => None
  end.
End link.

#[export, refine] Instance link_object {K : Ksuid} : HubObject link :=
  {| obj_close := close; obj_ctime := l_ctime;
     obj_open q := chan_closed (l_buffer q) = false |}.
Proof.
  intros q Hq. unfold close. case_decide; [by eexists|]. simpl.
  unfold chan_close. rewrite Hq. by eexists.
Defined.

(** * The hub *)

Section hub.
Context {K : Ksuid}.

Definition LinkHub : Type := ptrmap link.

Definition NewLinkHub : LinkHub := pm_empty.

(** [Get]: the pointer, or nil. *)
Definition Get (id : KSUID) (h : LinkHub) : option nat := pm_map h !! id.

(** [if _, ok := h.links[id]; !ok { h.links[id] = NewLink(masterID) }] *)
Definition ensure (now : Z) (id masterID : KSUID) (h : LinkHub) : LinkHub :=
  match pm_map h !! id with
  | Some _ => h
  | None => pm_new id (NewLink now masterID) h
  end.

(** [trySend]; [conn] is nil when it is called by [Add]. *)
Definition trySend (masterID : KSUID) (conn : option TCPConn) (h : LinkHub) : LinkHub * bool :=
  match pm_map h !! masterID with
  | Some p =>
      let h1 := match conn with
                | Some c => pm_update p (SetConn c) h
                | None => h
                end in
      match pm_heap h1 !! p with
      | Some q =>
          if bool_decide (l_conn q <> None) && (l_counter q =? Z.of_nat (length (l_sorted q)))%Z
          then (pm_start p h1, true)
          else (h1, false)
      | None => (h1, false)
      end
  | None => (h, false)
  end.

Definition TrySend (masterID : KSUID) (conn : option TCPConn) (h : LinkHub) : LinkHub * bool :=
  trySend masterID conn h.

Definition Add (now : Z) (id masterID : KSUID) (h : LinkHub) : LinkHub :=
  let h1 := ensure now masterID masterID h in
  match pm_map h1 !! masterID with
  | Some m =>
      let h2 := ensure now id masterID h1 in
      let h3 := pm_update m (fun q => set_l_counter (l_counter q + 1) q) h2 in
      fst (trySend masterID None h3)
  | None => h1
  end.

(** The loop of [RemoveAll] over the order of the master link. *)
Fixpoint remove_others (masterID : KSUID) (sort : list KSUID) (h : LinkHub) : option LinkHub :=
  match sort with
  | [] => Some h
  | id :: sort' =>
      if decide (id = masterID) then remove_others masterID sort' h
      else match pm_close_delete id h with
           | Some h' => remove_others masterID sort' h'
           | None => None
           end
  end.

Definition RemoveAll (masterID : KSUID) (h : LinkHub) : option LinkHub :=
  match pm_deref h masterID with
  | Some q =>
      match remove_others masterID (l_sorted q) h with
      | Some h' => pm_close_delete masterID h'
      | None => None
      end
  | None => Some h
  end.

(** The method [SetSort] of the hub. *)
Definition hub_SetSort (now : Z) (masterID : KSUID) (sort : list KSUID) (h : LinkHub) :
    LinkHub :=
  match pm_map h !! masterID with
  | Some p => pm_update p (SetSort sort) h
  | None =>
      let h1 := pm_new masterID (NewLink now masterID) h in
      match pm_map h1 !! masterID with
      | Some p => pm_update p (SetSort sort) h1
      | None => h1
      end
  end.

Definition TimeoutClose (now : Z) (order : list KSUID) (h : LinkHub) : option LinkHub :=
  pm_TimeoutClose now order h.

Definition Len (h : LinkHub) : nat := pm_len h.

(** * Sending *)

Inductive send_result := SRet (err : option error) | SPanic.

(** Program points of [Send]. *)
Inductive send_pc :=
  | PEnter                                       (* the test of status *)
  | PStart                                       (* q.status = StaSend *)
  | PTop                                         (* head of the outer loop *)
  | PRange (rest : list KSUID)                   (* head of the range loop *)
  | PRead (s : nat) (rest : list KSUID)          (* readWithTimeout(s.buffer) *)
  | PWrite (rest : list KSUID) (b : buffer)      (* safeWrite *)
  | PDefer (r : send_result)                     (* deferred: q.status = StaDone *)
  | PSignal (r : send_result)                    (* deferred: q.done <- struct{}{} *)
  | PCloseDone (r : send_result)                 (* deferred: close(q.done) *)
  | PReturned (r : send_result).

Inductive send_ev :=
  | EvTau                                        (* a step on its own *)
  | EvData                                       (* the select takes the channel *)
  | EvTimer                                      (* the select takes the timer *)
  | EvConn (r : conn_res)                        (* the connection's call returns *)
  | EvWaiter.                                    (* a goroutine receives from done *)

Definition Send_step (me : nat) (h : LinkHub) (pc : send_pc) (ev : send_ev) :
    option (LinkHub * send_pc) :=
  match pm_heap h !! me with
  | None => None
  | Some q =>
      match pc, ev with
      | PEnter, EvTau =>
          if decide (l_status q = StaSend \/ l_status q = StaDone)
          then Some (h, PReturned (SRet None))
          else Some (h, PStart)
      | PStart, EvTau => Some (pm_update me (set_l_status StaSend) h, PTop)
      | PTop, EvTau =>
          if decide (l_status q = StaClose)
          then Some (h, PDefer (SRet (Some ErrClosedPipe)))
          else Some (h, PRange (l_sorted q))
      | PRange [], EvTau => Some (h, PTop)
      | PRange (id :: rest), EvTau =>
          match Get id h with
          | Some s => Some (h, PRead s rest)
          | None => Some (h, PDefer (SRet (Some (errors_New "queue not found"))))
          end
      | PRead s rest, EvData | PRead s rest, EvTimer =>
          match pm_heap h !! s with
          | None => None
          | Some l =>
              match readWithTimeout (l_buffer l) (match ev with EvTimer => true | _ => false end) with
              | Some (_, (_, Some err)) => Some (h, PDefer (SRet (Some err)))
              | Some (c, (b, None)) => Some (pm_update s (set_l_buffer c) h, PWrite rest b)
              | None => None
              end
          end
      | PWrite rest b, EvConn r =>
          match safeWrite r (l_conn q) (b_data b) (b_eof b) with
          | (conn, (_, err)) =>
              Some (pm_update me (set_l_conn conn) h,
                    match err with
                    | Some e => PDefer (SRet (Some e))
                    | None => if b_eof b then PDefer (SRet None) else PRange rest
                    end)
          end
      | PDefer r, EvTau => Some (pm_update me (set_l_status StaDone) h, PSignal r)
      | PSignal r, EvTau =>
          if chan_closed (l_done q) then Some (h, PReturned SPanic) else None
      | PSignal r, EvWaiter =>
          if chan_closed (l_done q) then None else Some (h, PCloseDone r)
      | PCloseDone r, EvTau =>
          match chan_close (l_done q) with
          | Some d => Some (pm_update me (set_l_done d) h, PReturned r)
          | None => Some (h, PReturned SPanic)
          end
      | _, _ => None
      end
  end.

(** A run of [Send]. *)
Fixpoint Send_run (me : nat) (h : LinkHub) (pc : send_pc) (evs : list send_ev) :
    option (LinkHub * send_pc) :=
  match evs with
  | [] => Some (h, pc)
  | ev :: evs' =>
      match Send_step me h pc ev with
      | None => None
      | Some (h', pc') => Send_run me h' pc' evs'
      end
  end.
End hub.

(** * Facts on the hub *)

Section hub_facts.
Context {K : Ksuid}.
Implicit Types (q : link) (h : LinkHub) (order sort : list KSUID).

Lemma lh_close_inv q q' :
  close q = Some q' ->
  l_sorted q' = l_sorted q /\ l_conn q' = l_conn q /\ l_done q' = l_done q /\
  l_status q' = StaClose /\ chan_items (l_buffer q') = chan_items (l_buffer q).
Proof.
  unfold close. case_decide; [by intros; simplify_eq|]. simpl.
  destruct (chan_close (l_buffer q)) as [c|] eqn:E; [|done]. intros [= <-].
  apply chan_close_inv in E as (? & ? & ? & ?). done.
Qed.

(** A step of the process: a method of the hub, or one of the goroutines that
    hold a pointer to a link: a writer, a [Send] at any of its points, or the
    client, which sets the connection and the order of its link directly. *)
Inductive lh_step : LinkHub -> LinkHub -> Prop :=
  | lh_step_Add now id m h : lh_step h (Add now id m h)
  | lh_step_SetSort now m sort h : lh_step h (hub_SetSort now m sort h)
  | lh_step_TrySend m conn h : lh_step h (fst (TrySend m conn h))
  | lh_step_RemoveAll m h h' : RemoveAll m h = Some h' -> lh_step h h'
  | lh_step_Timeout now order h h' : TimeoutClose now order h = Some h' -> lh_step h h'
  | lh_step_write p q b c h :
      pm_heap h !! p = Some q -> chan_send (l_buffer q) b = SendOk c ->
      lh_step h (pm_update p (set_l_buffer c) h)
  | lh_step_Send me pc ev h h' pc' :
      Send_step me h pc ev = Some (h', pc') -> lh_step h h'
  | lh_step_conn p c h : lh_step h (pm_update p (SetConn c) h)
  | lh_step_sort p sort h : lh_step h (pm_update p (SetSort sort) h).

Lemma lh_wf_update p f h :
  (forall q, chan_closed (l_buffer (f q)) = chan_closed (l_buffer q)) ->
  pm_wf h -> pm_wf (pm_update p f h).
Proof. intros Hf. apply pm_wf_update. intros q _ Hq. simpl. by rewrite Hf. Qed.

Lemma lh_wf_ensure now id m h : pm_wf h -> pm_wf (ensure now id m h).
Proof. intros Hwf. unfold ensure. case_match; [done|by apply pm_wf_new]. Qed.

Lemma lh_wf_trySend m conn h : pm_wf h -> pm_wf (fst (trySend m conn h)).
Proof.
  intros Hwf. unfold trySend. destruct (pm_map h !! m) as [p|]; [|done].
  assert (pm_wf (match conn with Some c => pm_update p (SetConn c) h | None => h end)) as Hwf1.
  { destruct conn; [by apply lh_wf_update|done]. }
  destruct (pm_heap _ !! p); [|done]. destruct (bool_decide _ && _); [|done].
  by apply pm_wf_start.
Qed.

Lemma lh_wf_Add now id m h : pm_wf h -> pm_wf (Add now id m h).
Proof.
  intros Hwf%(lh_wf_ensure now m m). unfold Add.
  destruct (pm_map (ensure now m m h) !! m); [|done].
  by apply lh_wf_trySend, lh_wf_update, lh_wf_ensure.
Qed.

Lemma lh_wf_SetSort now m sort h : pm_wf h -> pm_wf (hub_SetSort now m sort h).
Proof.
  intros Hwf. unfold hub_SetSort. case_match; [by apply lh_wf_update|].
  assert (pm_wf (pm_new m (NewLink now m) h)) by (by apply pm_wf_new).
  case_match; [by apply lh_wf_update|done].
Qed.

Lemma remove_others_ok m sort h :
  pm_wf h -> exists h', remove_others m sort h = Some h' /\ pm_wf h' /\
                        pm_without h (filter (fun id => id <> m) sort) h'.
Proof.
  revert h. induction sort as [|id sort IH]; intros h Hwf; simpl; [by exists h|].
  rewrite filter_cons. destruct (decide (id = m)) as [->|Hne].
  - rewrite decide_False by (intros []; done). by apply IH.
  - rewrite decide_True by done.
    destruct (pm_close_delete_ok id h Hwf) as (h1 & -> & Hwf1 & Hw1).
    destruct (IH h1 Hwf1) as (h2 & -> & Hwf2 & Hw2). exists h2. split_and!; [done..|].
    by apply (pm_without_trans _ [id] h1).
Qed.

Lemma RemoveAll_ok m h :
  pm_wf h -> exists h', RemoveAll m h = Some h' /\ pm_wf h' /\
    pm_without h (match pm_deref h m with
                  | Some q => filter (fun id => id <> m) (l_sorted q) ++ [m]
                  | None => []
                  end) h'.
Proof.
  intros Hwf. unfold RemoveAll. destruct (pm_deref h m) as [q|]; [|by exists h].
  destruct (remove_others_ok m (l_sorted q) h Hwf) as (h1 & -> & Hwf1 & Hw1).
  destruct (pm_close_delete_ok m h1 Hwf1) as (h2 & E & Hwf2 & Hw2). exists h2.
  split_and!; [done..|]. by eapply pm_without_trans.
Qed.

(** The IDs of a proxied connection's links: its own, and those of the order that
    its master link carries. *)
Definition link_ids (id : KSUID) (h : LinkHub) : list KSUID :=
  match pm_deref h id with Some q => l_sorted q ++ [id] | None => [id] end.

Lemma link_ids_self id h : id ∈ link_ids id h.
Proof. unfold link_ids. case_match; set_solver. Qed.

Lemma remove_others_removes m sort h h' :
  pm_wf h -> remove_others m sort h = Some h' -> pm_removes h (filter (fun id => id <> m) sort) h'.
Proof.
  revert h. induction sort as [|id sort IH]; intros h Hwf; simpl.
  { intros [= <-]. apply pm_removes_nil. }
  rewrite filter_cons. destruct (decide (id = m)) as [->|Hne].
  - rewrite decide_False by (intros []; done). by apply IH.
  - rewrite decide_True by done.
    destruct (pm_close_delete_ok id h Hwf) as (h1 & E & Hwf1 & _). rewrite E. intros H.
    apply (pm_removes_trans _ [id] h1); [done|by apply pm_close_delete_removes|by apply IH].
Qed.

(** [RemoveAll] removes and closes exactly the links of the connection. *)
Lemma RemoveAll_removes m h h' :
  pm_wf h -> RemoveAll m h = Some h' -> pm_removes h (link_ids m h) h'.
Proof.
  intros Hwf. unfold RemoveAll, link_ids. destruct (pm_deref h m) as [q|] eqn:Hq.
  - destruct (remove_others_ok m (l_sorted q) h Hwf) as (h1 & E1 & Hwf1 & _). rewrite E1. intros E2.
    apply (pm_removes_same _ (filter (fun id => id <> m) (l_sorted q) ++ [m])).
    { intros id. rewrite !elem_of_app, list_elem_of_filter. destruct (decide (id = m)); set_solver. }
    eapply pm_removes_trans; [done|by apply remove_others_removes|by apply pm_close_delete_removes].
  - intros [= <-]. apply pm_removes_none. unfold pm_deref in Hq.
    destruct (pm_map h !! m) as [p|] eqn:Hp; [|done]. destruct (proj1 Hwf _ _ Hp) as (v & Hv & _). congruence.
Qed.

Lemma Send_step_wf me h pc ev h' pc' :
  Send_step me h pc ev = Some (h', pc') -> pm_wf h -> pm_wf h'.
Proof.
  intros H Hwf. unfold Send_step in H.
  destruct (pm_heap h !! me) as [q|] eqn:Hq; [|done].
  destruct pc as [| | |[|id rest]|s rest|rest b|r|r|r|r], ev; simpl in *; try done;
    repeat case_match; simplify_eq/=; try done; try (by apply lh_wf_update).
  all: apply pm_wf_update; [|done]; intros l' Hl' Ho; simplify_eq; simpl in *; try done.
  match goal with E : chan_recv _ = RecvOk _ _ |- _ => by apply chan_recv_ok_inv in E as (_ & -> & _) end.
Qed.

Lemma lh_step_wf h h' : lh_step h h' -> pm_wf h -> pm_wf h'.
Proof.
  destruct 1 as [now id m h|now m sort h|m conn h|m h h' E|now order h h' E|p q b c h Hq E
                |me pc ev h h' pc' E|p c h|p sort h]; intros Hwf.
  - by apply lh_wf_Add.
  - by apply lh_wf_SetSort.
  - by apply lh_wf_trySend.
  - destruct (RemoveAll_ok m h Hwf) as (h1 & E1 & Hwf1 & _). by simplify_eq.
  - destruct (pm_TimeoutClose_ok now order h Hwf) as (h1 & E1 & Hwf1 & _).
    unfold TimeoutClose in E. by simplify_eq.
  - apply pm_wf_update; [|done]. intros q1 Hq1 _. by apply chan_send_inv in E as (_ & E2 & _).
  - by eapply Send_step_wf.
  - by apply lh_wf_update.
  - by apply lh_wf_update.
Qed.

Lemma lh_reachable_wf h : rtc lh_step NewLinkHub h -> pm_wf h.
Proof.
  intros Hr. assert (pm_wf NewLinkHub) as Hwf by apply pm_wf_empty.
  revert Hwf. induction Hr; eauto using lh_step_wf.
Qed.

(** C22: in every state the process can reach, [RemoveAll] never panics; it
    removes the master link and the links of its order, and leaves every other
    link as it is. [TimeoutClose] does not panic either and removes exactly the
    first 101 expired links. *)
Theorem LinkHub_removal_safe h m now order :
  rtc lh_step NewLinkHub h ->
  (exists h', RemoveAll m h = Some h' /\
     forall q, pm_deref h m = Some q ->
       (forall id, id = m \/ id ∈ l_sorted q -> pm_map h' !! id = None) /\
       (forall id, id <> m -> id ∉ l_sorted q ->
          pm_map h' !! id = pm_map h !! id /\ pm_deref h' id = pm_deref h id)) /\
  (exists h', TimeoutClose now order h = Some h' /\
     pm_without h (take 101 (filter (pm_expired now h) order)) h').
Proof.
  intros Hwf%lh_reachable_wf. split.
  - destruct (RemoveAll_ok m h Hwf) as (h' & E & _ & [H1 H2]). exists h'. split; [done|].
    intros q Hq. rewrite Hq in H1, H2. split.
    + intros id Hid. rewrite H1, decide_True; [done|].
      rewrite elem_of_app, list_elem_of_filter. destruct (decide (id = m)); set_solver.
    + intros id Hne Hid. assert (id ∉ filter (fun id => id <> m) (l_sorted q) ++ [m]).
      { rewrite elem_of_app, list_elem_of_filter. set_solver. }
      rewrite H1, H2 by done. by rewrite decide_False.
  - destruct (pm_TimeoutClose_ok now order h Hwf) as (h' & E & _ & H). by exists h'.
Qed.
End hub_facts.

(** * The handshake

    On the server: a hello message on each connection ([HAdd]), the establish
    message ([HSort]), and [TrySend] once the target is dialled ([HTry]). *)

Section handshake.
Context {K : Ksuid}.
Implicit Types (q : link) (h : LinkHub) (sort : list KSUID).

Inductive handshake := HAdd (id : KSUID) | HSort | HTry (conn : TCPConn).

Definition hs_step (now : Z) (m : KSUID) sort h (op : handshake) : LinkHub :=
  match op with
  | HAdd id => Add now id m h
  | HSort => hub_SetSort now m sort h
  | HTry conn => fst (TrySend m (Some conn) h)
  end.

(** The connections registered by [ops]. *)
Definition hs_adds (ops : list handshake) : list KSUID :=
  omap (fun op => match op with HAdd id => Some id | _ => None end) ops.

(** The master link after the steps [ops], [conn] being the connection it has
    been given. *)
Definition hs_inv m sort (ops : list handshake) (conn : option TCPConn) h : Prop :=
  match pm_map h !! m with
  | None => ops = [] /\ conn = None
  | Some p => exists q, pm_heap h !! p = Some q /\
      l_counter q = Z.of_nat (length (hs_adds ops)) /\ l_conn q = conn /\
      (HSort ∈ ops -> l_sorted q = sort) /\
      (forall id, id ∈ hs_adds ops -> is_Some (pm_map h !! id))
  end.

Lemma hs_adds_app ops1 ops2 : hs_adds (ops1 ++ ops2) = hs_adds ops1 ++ hs_adds ops2.
Proof. apply omap_app. Qed.

Lemma trySend_nil m h :
  pm_map (fst (trySend m None h)) = pm_map h /\ pm_heap (fst (trySend m None h)) = pm_heap h.
Proof. unfold trySend. by repeat case_match. Qed.

(** [Add] without its final [trySend]. *)
Definition hs_register now m id h : LinkHub :=
  let h1 := ensure now m m h in
  match pm_map h1 !! m with
  | Some p => pm_update p (fun q => set_l_counter (l_counter q + 1) q) (ensure now id m h1)
  | None => h1
  end.

Lemma Add_register now m id h :
  Add now id m h = fst (trySend m None (hs_register now m id h)).
Proof.
  unfold Add, hs_register, ensure. destruct (pm_map h !! m) as [p|] eqn:E.
  - by rewrite E.
  - simpl. by rewrite lookup_insert_eq.
Qed.

(** [ensure] keeps what the map gives for the IDs it knows. *)
Lemma ensure_keeps now id m h p q i :
  pm_map h !! i = Some p -> pm_heap h !! p = Some q ->
  pm_map (ensure now id m h) !! i = Some p /\ pm_heap (ensure now id m h) !! p = Some q /\
  is_Some (pm_map (ensure now id m h) !! id) /\
  (forall j, is_Some (pm_map h !! j) -> is_Some (pm_map (ensure now id m h) !! j)).
Proof.
  intros Hp Hq. unfold ensure. destruct (pm_map h !! id) eqn:E.
  - split_and!; eauto.
  - simpl. split_and!.
    + rewrite lookup_insert_ne; [done|]. congruence.
    + by apply lookup_app_l_Some.
    + rewrite lookup_insert_eq. eauto.
    + intros j Hj. rewrite lookup_insert. case_decide; eauto.
Qed.

Lemma lhs_register_inv now m sort ops conn id h :
  hs_inv m sort ops conn h ->
  hs_inv m sort (ops ++ [HAdd id]) conn (hs_register now m id h).
Proof.
  intros Hinv. assert (exists p q, pm_map (ensure now m m h) !! m = Some p /\
      pm_heap (ensure now m m h) !! p = Some q /\
      l_counter q = Z.of_nat (length (hs_adds ops)) /\ l_conn q = conn /\
      (HSort ∈ ops -> l_sorted q = sort) /\
      (forall id, id ∈ hs_adds ops -> is_Some (pm_map (ensure now m m h) !! id)))
    as (p & q & Hp & Hq & Hc & Hconn & Hs & Hl).
  { unfold hs_inv, ensure in *. destruct (pm_map h !! m) as [p|] eqn:Hp.
    - destruct Hinv as (q & ?). by exists p, q.
    - destruct Hinv as [-> ->]. simpl. eexists _, _.
      split_and!; [by rewrite lookup_insert_eq|by rewrite list_lookup_middle|done|done| |].
      + by intros ?%not_elem_of_nil.
      + by intros ? ?%not_elem_of_nil. }
  destruct (ensure_keeps now id m _ p q m Hp Hq) as (Hp' & Hq' & Hid & Hkeep).
  unfold hs_inv, hs_register. rewrite Hp. simpl. rewrite Hp'.
  exists (set_l_counter (l_counter q + 1) q). rewrite hs_adds_app. simpl. split_and!.
  - by rewrite list_lookup_alter_eq, Hq'.
  - rewrite length_app, Hc. simpl. lia.
  - done.
  - intros [|H]%elem_of_app; [by apply Hs|]. by apply list_elem_of_singleton in H.
  - intros j [Hj|Hj]%elem_of_app; [by apply Hkeep, Hl|].
    by apply list_elem_of_singleton in Hj as ->.
Qed.

Lemma lhs_sort_inv now m sort ops conn h :
  hs_inv m sort ops conn h -> hs_inv m sort (ops ++ [HSort]) conn (hub_SetSort now m sort h).
Proof.
  unfold hs_inv, hub_SetSort. rewrite hs_adds_app, app_nil_r.
  destruct (pm_map h !! m) as [p|] eqn:Hp; simpl.
  - intros (q & Hq & Hc & Hconn & Hs & Hl). rewrite Hp. exists (SetSort sort q).
    rewrite list_lookup_alter_eq, Hq. by split_and!.
  - intros [-> ->]. rewrite lookup_insert_eq. simpl. rewrite lookup_insert_eq.
    eexists. rewrite list_lookup_alter_eq, list_lookup_middle by done.
    split_and!; try done. by intros ? ?%not_elem_of_nil.
Qed.

Lemma hs_step_inv now m sort ops conn op h :
  match op with HTry _ => False | _ => True end ->
  hs_inv m sort ops conn h -> hs_inv m sort (ops ++ [op]) conn (hs_step now m sort h op).
Proof.
  intros Hop Hinv. destruct op as [id| |]; simpl; [|by apply lhs_sort_inv|done].
  apply (lhs_register_inv now m sort ops conn id) in Hinv.
  rewrite Add_register. unfold hs_inv in *.
  by destruct (trySend_nil m (hs_register now m id h)) as [-> ->].
Qed.

Lemma lhs_run_inv now m sort ops0 ops conn h :
  Forall (fun op => match op with HTry _ => False | _ => True end) ops ->
  hs_inv m sort ops0 conn h ->
  hs_inv m sort (ops0 ++ ops) conn (foldl (hs_step now m sort) h ops).
Proof.
  intros Hall. revert ops0 h. induction Hall as [|op ops Hop _ IH]; intros ops0 h Hinv; simpl.
  { by rewrite app_nil_r. }
  rewrite cons_middle, app_assoc. by apply IH, hs_step_inv.
Qed.

(** [HTry] on a hub that knows the master link: the connection is set, and
    [Send] starts if the counter agrees with the order. *)
Lemma lhs_try_inv m sort ops conn c h :
  ops <> [] -> hs_inv m sort ops conn h ->
  hs_inv m sort (ops ++ [HTry c]) (Some c) (fst (TrySend m (Some c) h)).
Proof.
  intros Hne. unfold hs_inv, TrySend, trySend. destruct (pm_map h !! m) as [p|] eqn:Hp.
  2: by intros [-> _].
  intros (q & Hq & Hc & Hconn & Hs & Hl). simpl. rewrite list_lookup_alter_eq, Hq. simpl.
  rewrite hs_adds_app, app_nil_r.
  set (b := (l_counter q =? _)%Z). destruct b; simpl; rewrite Hp; simpl;
    rewrite list_lookup_alter_eq, Hq; eexists; split_and!; try done; simpl;
    (intros [|H]%elem_of_app; [by apply Hs|by apply list_elem_of_singleton in H]).
Qed.

(** A complete master link is started by the [trySend] that sees it. *)
Lemma trySend_complete m sort ops c h p q conn :
  pm_map h !! m = Some p -> pm_heap h !! p = Some q ->
  l_counter q = Z.of_nat (length (hs_adds ops)) -> l_sorted q = sort ->
  length (hs_adds ops) = length sort ->
  conn = Some c \/ conn = None /\ l_conn q = Some c ->
  last (pm_go (fst (trySend m conn h))) = Some p.
Proof.
  intros Hp Hq Hc Hs Hlen Hconn. unfold trySend. rewrite Hp.
  destruct Hconn as [-> | [-> Hcq]]; simpl.
  - rewrite list_lookup_alter_eq, Hq. simpl. rewrite Hc, Hs, Hlen, Z.eqb_refl. apply last_snoc.
  - rewrite Hq, Hcq, Hc, Hs, Hlen, Z.eqb_refl. apply last_snoc.
Qed.

(** The links of [ids] are as they were made, but for their connection, order and
    counter. *)
Definition links_new (ids : list KSUID) h : Prop :=
  forall id p, id ∈ ids -> pm_map h !! id = Some p -> exists l, pm_heap h !! p = Some l /\
    l_buffer l = makeBuffer /\ l_status l = StaWait.

Lemma links_new_update ids p f h :
  (forall l, l_buffer (f l) = l_buffer l /\ l_status (f l) = l_status l) ->
  links_new ids h -> links_new ids (pm_update p f h).
Proof.
  intros Hf Hn id p' Hid Hp'. destruct (Hn id p' Hid Hp') as (l & Hl & Hb & Hs). simpl.
  destruct (decide (p = p')) as [->|Hne].
  - exists (f l). rewrite list_lookup_alter_eq, Hl. destruct (Hf l). split_and!; [done|congruence..].
  - exists l. by rewrite list_lookup_alter_ne.
Qed.

Lemma links_new_new ids now id m h : links_new ids h -> links_new ids (pm_new id (NewLink now m) h).
Proof.
  intros Hn i p Hi. simpl. rewrite lookup_insert. case_decide.
  - intros [= <-]. eexists. by rewrite list_lookup_middle.
  - intros Hp. destruct (Hn i p Hi Hp) as (l & Hl & ?). exists l. split; [|done].
    by apply lookup_app_l_Some.
Qed.

Lemma links_new_trySend ids m conn h : links_new ids h -> links_new ids (fst (trySend m conn h)).
Proof.
  intros Hn. unfold trySend. destruct (pm_map h !! m) as [p|]; [|done].
  assert (links_new ids (match conn with Some c => pm_update p (SetConn c) h | None => h end)) as Hn1.
  { destruct conn; [by apply links_new_update|done]. }
  destruct (pm_heap _ !! p); [|done]. by destruct (bool_decide _ && _).
Qed.

Lemma links_new_ensure ids now id m h : links_new ids h -> links_new ids (ensure now id m h).
Proof. intros Hn. unfold ensure. case_match; [done|by apply links_new_new]. Qed.

Lemma hs_step_new_links ids now m sort h op : links_new ids h -> links_new ids (hs_step now m sort h op).
Proof.
  intros Hn. destruct op as [id| |c]; simpl; [| |by apply links_new_trySend].
  - unfold Add. pose proof (links_new_ensure ids now m m h Hn) as Hn1. case_match; [|done].
    by apply links_new_trySend, links_new_update, links_new_ensure.
  - unfold hub_SetSort. case_match; [by apply links_new_update|].
    pose proof (links_new_new ids now m m h Hn) as Hn1. case_match; [by apply links_new_update|done].
Qed.

Lemma hs_step_wf now m sort h op : pm_wf h -> pm_wf (hs_step now m sort h op).
Proof. destruct op; [apply lh_wf_Add|apply lh_wf_SetSort|apply lh_wf_trySend]. Qed.

Lemma hs_run_new_links ids now m sort ops h :
  pm_wf h -> (forall id, id ∈ ids -> pm_map h !! id = None) ->
  pm_wf (foldl (hs_step now m sort) h ops) /\ links_new ids (foldl (hs_step now m sort) h ops).
Proof.
  intros Hwf Hno. assert (links_new ids h) as Hn by (intros id p Hid Hp; rewrite Hno in Hp; done).
  clear Hno. revert h Hwf Hn. induction ops as [|op ops IH]; intros h Hwf Hn; [done|].
  apply IH; [by apply hs_step_wf|by apply hs_step_new_links].
Qed.

(** On the server, once every connection of the order has said hello (once),
    in whatever order their hello messages are handled with respect to each
    other, to the establish message and to the dialling of the target, the last
    of these steps starts [Send] on a master link that has its connection, its
    order, and a link for each connection of the order. *)
Lemma link_handshake_starts now m sort h l1 c l2 :
  pm_map h !! m = None -> HSort ∈ l1 -> HSort ∉ l2 ->
  Forall (fun op => match op with HTry _ => False | _ => True end) (l1 ++ l2) ->
  hs_adds (l1 ++ l2) ≡ₚ sort ->
  let h' := foldl (hs_step now m sort) h (l1 ++ HTry c :: l2) in
  exists p q, pm_map h' !! m = Some p /\ pm_heap h' !! p = Some q /\
    l_conn q = Some c /\ l_sorted q = sort /\
    (forall id, id ∈ sort -> is_Some (pm_map h' !! id)) /\ last (pm_go h') = Some p.
Proof.
  intros Hnone H1 H2 [Ha1 Ha2]%Forall_app Hperm h'.
  assert (hs_inv m sort [] None h) as Hinv by (unfold hs_inv; by rewrite Hnone).
  apply (lhs_run_inv now m sort [] l1) in Hinv; [|done]. simpl in Hinv.
  set (h1 := foldl (hs_step now m sort) h l1) in *.
  assert (l1 <> []) as Hne by (intros ->; by apply not_elem_of_nil in H1).
  pose proof (lhs_try_inv m sort l1 None c h1 Hne Hinv) as Hinv2.
  assert (h' = foldl (hs_step now m sort) (fst (TrySend m (Some c) h1)) l2) as Eh.
  { unfold h'. by rewrite foldl_app. }
  assert (hs_adds (l1 ++ [HTry c] ++ l2) = hs_adds (l1 ++ l2)) as Eadds.
  { by rewrite !hs_adds_app. }
  pose proof (lhs_run_inv now m sort _ l2 _ _ Ha2 Hinv2) as Hinv3. rewrite <- Eh, <- app_assoc in Hinv3.
  unfold hs_inv in Hinv3. destruct (pm_map h' !! m) as [p|] eqn:Hp.
  2: { destruct Hinv3 as [E _]. by destruct l1. }
  destruct Hinv3 as (q & Hq & Hc & Hconn & Hs & Hl). exists p, q.
  rewrite Eadds in Hc, Hl. split_and!; [done..| | |].
  { apply Hs. set_solver. }
  { intros id Hid. apply Hl. by rewrite Hperm. }
  destruct l2 as [|op l2 _] using rev_ind.
  - (* the dialling is the last step *)
    simpl in Eh. rewrite Eh. rewrite app_nil_r in *. unfold hs_inv in Hinv.
    destruct (pm_map h1 !! m) as [p1|] eqn:Hp1; [|by destruct Hinv as [-> _]].
    destruct Hinv as (q1 & Hq1 & Hc1 & Hconn1 & Hs1 & Hl1).
    assert (p1 = p) as ->.
    { unfold TrySend, trySend in Eh. rewrite Hp1 in Eh. simpl in Eh.
      rewrite list_lookup_alter_eq, Hq1 in Eh. simpl in Eh.
      destruct (_ =? _)%Z; simpl in Eh; rewrite Eh in Hp; simpl in Hp; congruence. }
    apply (trySend_complete m sort l1 c h1 p q1 (Some c)); auto. by rewrite Hperm.
  - (* a hello message is the last step *)
    apply Forall_app in Ha2 as [Ha2 Hop]. rewrite Forall_cons in Hop. destruct Hop as [Hop _].
    destruct op as [id| |c2]; [|set_solver|done].
    rewrite foldl_app in Eh. simpl in Eh. rewrite Add_register in Eh. rewrite Eh in *.
    destruct (trySend_nil m (hs_register now m id (foldl (hs_step now m sort)
      (fst (TrySend m (Some c) h1)) l2))) as [E1 E2].
    rewrite E1 in Hp. rewrite E2 in Hq.
    eapply (trySend_complete m sort _ c _ p q None); eauto; [apply Hs; set_solver|].
    by rewrite Hperm.
Qed.
End handshake.

(** * [Send]: what each step does *)

Section send_facts.
Context {K : Ksuid}.
Implicit Types (h : LinkHub) (pc : send_pc).

(** [Send] has left its loops. *)
Definition l_over pc : Prop :=
  match pc with PDefer _ | PSignal _ | PCloseDone _ | PReturned _ => True | _ => False end.

(** The buffer read from a link and not yet written to the connection. *)
Definition l_held pc : list buffer :=
  match pc with PWrite _ b => [b] | _ => [] end.

(** The buffer, the order and the connection of the link at a pointer. *)
Definition buf_at h (p : nat) : option (chan buffer) := l_buffer <$> pm_heap h !! p.
Definition sort_at h (p : nat) : option (list KSUID) := l_sorted <$> pm_heap h !! p.
Definition conn_at h (p : nat) : option (option TCPConn) := l_conn <$> pm_heap h !! p.

(** Steps that touch neither a buffer nor the connection. *)
Inductive l_control (order : list KSUID) h : send_pc -> send_pc -> Prop :=
  | lc_enter : l_control order h PEnter PStart
  | lc_busy : l_control order h PEnter (PReturned (SRet None))
  | lc_start : l_control order h PStart PTop
  | lc_closed : l_control order h PTop (PDefer (SRet (Some ErrClosedPipe)))
  | lc_top : l_control order h PTop (PRange order)
  | lc_end : l_control order h (PRange []) PTop
  | lc_found id rest s :
      pm_map h !! id = Some s -> l_control order h (PRange (id :: rest)) (PRead s rest)
  | lc_missing id rest :
      pm_map h !! id = None ->
      l_control order h (PRange (id :: rest)) (PDefer (SRet (Some (errors_New "queue not found"))))
  | lc_timer s rest :
      l_control order h (PRead s rest) (PDefer (SRet (Some (errors_New "time out"))))
  | lc_over pc pc' : l_over pc -> l_over pc' -> l_control order h pc pc'.

(** The three kinds of steps of [Send]: control, a read and a write. *)
Inductive l_step_kind (me : nat) h pc ev h' pc' : Prop :=
  | lk_control order :
      sort_at h me = Some order -> l_control order h pc pc' ->
      (forall p, buf_at h' p = buf_at h p) -> (forall p, conn_at h' p = conn_at h p) ->
      l_step_kind me h pc ev h' pc'
  | lk_read s rest c c' b :
      pc = PRead s rest -> pc' = PWrite rest b -> buf_at h s = Some c ->
      (chan_recv c = RecvOk b c' \/ chan_recv c = RecvZero /\ b = buffer_zero /\ c' = c) ->
      (forall p, buf_at h' p = if decide (p = s) then Some c' else buf_at h p) ->
      (forall p, conn_at h' p = conn_at h p) ->
      l_step_kind me h pc ev h' pc'
  | lk_write rest b r conn conn' n err :
      pc = PWrite rest b -> ev = EvConn r -> conn_at h me = Some conn ->
      safeWrite r conn (b_data b) (b_eof b) = (conn', (n, err)) ->
      pc' = match err with
            | Some e => PDefer (SRet (Some e))
            | None => if b_eof b then PDefer (SRet None) else PRange rest
            end ->
      (forall p, buf_at h' p = buf_at h p) ->
      (forall p, conn_at h' p = if decide (p = me) then Some conn' else conn_at h p) ->
      l_step_kind me h pc ev h' pc'.

Lemma at_update {A} (g : link -> A) p f h p' :
  g <$> pm_heap (pm_update p f h) !! p' =
    if decide (p' = p) then (fun l => g (f l)) <$> pm_heap h !! p else g <$> pm_heap h !! p'.
Proof.
  simpl. case_decide as Hp.
  - subst. rewrite list_lookup_alter_eq. by destruct (pm_heap h !! p).
  - by rewrite list_lookup_alter_ne by congruence.
Qed.

Lemma at_update_same {A} (g : link -> A) p f h p' :
  (forall l, g (f l) = g l) ->
  g <$> pm_heap (pm_update p f h) !! p' = g <$> pm_heap h !! p'.
Proof.
  intros Hf. rewrite at_update. case_decide as Hp; [|done]. subst.
  destruct (pm_heap h !! p); simpl; [by rewrite Hf|done].
Qed.

Lemma Send_step_map me h pc ev h' pc' :
  Send_step me h pc ev = Some (h', pc') ->
  pm_map h' = pm_map h /\ (forall p, sort_at h' p = sort_at h p).
Proof.
  intros H. unfold Send_step in H. destruct (pm_heap h !! me) as [q|] eqn:Hq; [|done].
  destruct pc as [| | |[|id rest]|s rest|rest b|r|r|r|r], ev; simpl in *; try done;
    repeat case_match; simplify_eq; (split; [done|]); intros p; try done;
    unfold sort_at; by rewrite at_update_same.
Qed.

Lemma Send_step_kind me h pc ev h' pc' :
  Send_step me h pc ev = Some (h', pc') -> l_step_kind me h pc ev h' pc'.
Proof.
  intros H. unfold Send_step in H. destruct (pm_heap h !! me) as [q|] eqn:Hq; [|done].
  assert (sort_at h me = Some (l_sorted q)) as Hs by (unfold sort_at; by rewrite Hq).
  assert (conn_at h me = Some (l_conn q)) as Hc by (unfold conn_at; by rewrite Hq).
  assert (forall p f, (forall l, l_buffer (f l) = l_buffer l) -> forall p',
            buf_at (pm_update p f h) p' = buf_at h p') as Hbuf.
  { intros p f Hf p'. by apply at_update_same. }
  assert (forall p f, (forall l, l_conn (f l) = l_conn l) -> forall p',
            conn_at (pm_update p f h) p' = conn_at h p') as Hconn.
  { intros p f Hf p'. by apply at_update_same. }
  destruct pc as [| | |[|id rest]|s rest|rest b|r|r|r|r], ev as [| | |cr|]; try done;
    try (repeat case_match; simplify_eq;
         (apply (lk_control me _ _ _ _ _ (l_sorted q));
            [done|first [by constructor|by apply lc_over]|by auto|by auto])).
  - (* a read *)
     destruct (pm_heap h !! s) as [l|] eqn:Hl; [|done]. unfold readWithTimeout in H.
    assert (buf_at h s = Some (l_buffer l)) as Hb by (unfold buf_at; by rewrite Hl).
    assert (forall c p, buf_at (pm_update s (set_l_buffer c) h) p =
                        if decide (p = s) then Some c else buf_at h p) as Hup.
    { intros c p. unfold buf_at. rewrite at_update, Hl. by case_decide. }
    destruct (chan_recv (l_buffer l)) as [x c| |] eqn:E; simplify_eq.
    + eapply (lk_read me _ _ _ _ _ s rest (l_buffer l) c); eauto.
    + eapply (lk_read me _ _ _ _ _ s rest (l_buffer l) (l_buffer l)); eauto.
  - (* a timeout *)
    destruct (pm_heap h !! s) as [l|] eqn:Hl; [|done]. simpl in H. simplify_eq.
    apply (lk_control me _ _ _ _ _ (l_sorted q)); [done| |done..]. constructor.
  - (* a write *)
    destruct (safeWrite cr (l_conn q) (b_data b) (b_eof b)) as [conn' [n err]] eqn:E. simplify_eq.
    eapply (lk_write me _ _ _ _ _ rest b cr (l_conn q) conn' n err); eauto.
    intros p. unfold conn_at. rewrite at_update, Hq. by case_decide.
Qed.

Definition status_at h (p : nat) : option status := l_status <$> pm_heap h !! p.

(** [Send] makes no link [StaDone] before its deferred function. *)
Lemma Send_step_status me h pc ev h' pc' p :
  Send_step me h pc ev = Some (h', pc') -> ~ l_over pc ->
  status_at h' p = Some StaDone -> status_at h p = Some StaDone.
Proof.
  intros H Ho. unfold Send_step in H. destruct (pm_heap h !! me) as [q|] eqn:Hq; [|done].
  unfold status_at.
  destruct pc as [| | |[|id rest]|s rest|rest b|r|r|r|r], ev; simpl in Ho; try tauto; try done;
    repeat case_match; simplify_eq; try done;
    rewrite at_update; case_decide; simplify_eq; try done.
  all: repeat match goal with |- context [pm_heap ?g !! ?p] => destruct (pm_heap g !! p) end;
    simpl; intros; by simplify_eq.
Qed.

(** Closing and removing links keeps the content of every link, its order and
    its connection. *)
Definition at_keeps h h' : Prop :=
  (forall p, chan_items <$> buf_at h' p = chan_items <$> buf_at h p) /\
  (forall p, conn_at h' p = conn_at h p) /\ (forall p, sort_at h' p = sort_at h p).

Lemma pm_close_delete_keeps id h h' : pm_close_delete id h = Some h' -> at_keeps h h'.
Proof.
  unfold pm_close_delete, pm_close. intros H.
  destruct (pm_map h !! id) as [p|]; [|by simplify_eq].
  destruct (pm_heap h !! p) as [l|] eqn:Hl; [|by simplify_eq].
  destruct (obj_close l) as [l'|] eqn:E; [|done]. simplify_eq. simpl in E.
  apply lh_close_inv in E as (E1 & E2 & _ & _ & E3).
  unfold at_keeps, buf_at, conn_at, sort_at. simpl.
  split_and!; intros p'; destruct (decide (p = p')) as [<-|Hne];
    rewrite ?list_lookup_insert_eq, ?list_lookup_insert_ne by (done || by eapply lookup_lt_Some);
    rewrite ?Hl; simpl; congruence.
Qed.

Lemma RemoveAll_keeps m h h' : RemoveAll m h = Some h' -> at_keeps h h'.
Proof.
  assert (forall sort h1 h2, remove_others m sort h1 = Some h2 -> at_keeps h1 h2) as Hothers.
  { intros sort. induction sort as [|id sort IH]; intros h1 h2; simpl; [by intros; simplify_eq|].
    case_decide; [by apply IH|]. destruct (pm_close_delete id h1) as [h3|] eqn:E; [|done].
    intros (A1 & A2 & A3)%IH. apply pm_close_delete_keeps in E as (B1 & B2 & B3).
    split_and!; intros p; congruence. }
  unfold RemoveAll. destruct (pm_deref h m) as [q|]; [|by intros; simplify_eq].
  destruct (remove_others m (l_sorted q) h) as [h1|] eqn:E; [|done].
  intros (A1 & A2 & A3)%pm_close_delete_keeps. apply Hothers in E as (B1 & B2 & B3).
  split_and!; intros p; congruence.
Qed.
End send_facts.
