(* ===== verification/Starts.v ===== *)
(** When the two [Send]s of a proxied connection start on the server.

    QueueHub.v and Link.v show that the last step of a handshake starts them.
    Here the handshake is followed step by step, among whatever else happens to
    the hubs: the [Send] of the master link has been started exactly when all
    connections have said hello and the target is dialled, and that of the queue
    only when all have said hello and the order is set.  Upstream.v and
    Downstream.v rely on it. *)
From S2P Require Import Prelude GoChan Pipe RoundRobin PtrMap Queue QueueHub Link.

(** * The pointers that have been started *)

Section go.
Context {K : Ksuid} {V : Type}.
Implicit Types (h : ptrmap V).

(** Only objects of the heap are started. *)
Definition pm_go_ok h : Prop := Forall (fun p => p < length (pm_heap h)) (pm_go h).

Lemma pm_go_ok_new id v h : pm_go_ok h -> pm_go_ok (pm_new id v h).
Proof.
  unfold pm_go_ok. rewrite !Forall_forall. intros Hgo p Hp%Hgo. simpl. rewrite length_app. lia.
Qed.

Lemma pm_go_ok_update p f h : pm_go_ok h -> pm_go_ok (pm_update p f h).
Proof. unfold pm_go_ok. simpl. by rewrite length_alter. Qed.

Lemma pm_go_ok_start p h : is_Some (pm_heap h !! p) -> pm_go_ok h -> pm_go_ok (pm_start p h).
Proof.
  unfold pm_go_ok. intros Hp Hgo. apply Forall_app. split; [done|]. repeat constructor.
  by apply lookup_lt_is_Some.
Qed.

(** A new object has not been started. *)
Lemma pm_new_not_started h : pm_go_ok h -> length (pm_heap h) ∉ pm_go h.
Proof. unfold pm_go_ok. rewrite Forall_forall. intros Hgo Hin%Hgo. lia. Qed.
End go.

(** * Links *)

Section links.
Context {K : Ksuid}.
Implicit Types (h : LinkHub) (m id : KSUID) (sort : list KSUID) (ops : list Link.handshake).

(** The connection that [TrySend] has been given. *)
Definition tried ops : option TCPConn :=
  last (omap (fun op => match op with Link.HTry c => Some c | _ => None end) ops).

Lemma tried_snoc ops op :
  tried (ops ++ [op]) = match op with Link.HTry c => Some c | _ => tried ops end.
Proof.
  unfold tried. rewrite omap_app. destruct op; simpl; [by rewrite app_nil_r..|apply last_snoc].
Qed.

(** Everything that the master link's [Send] waits for has happened. *)
Definition links_complete sort ops : Prop := hs_adds ops ≡ₚ sort /\ is_Some (tried ops).

(** The steps that the server may take: one hello for each connection of the
    order, and the dialling of the target after the establish message. *)
Definition link_may sort ops (op : Link.handshake) : Prop :=
  match op with
  | Link.HAdd id => id ∈ sort /\ id ∉ hs_adds ops
  | Link.HSort => True
  | Link.HTry _ => Link.HSort ∈ ops /\ tried ops = None
  end.

Record links_run m sort ops h : Prop := {
  lr_inv : Link.hs_inv m sort ops (tried ops) h;
  lr_adds : NoDup (hs_adds ops) /\ hs_adds ops ⊆ sort;
  lr_try : is_Some (tried ops) -> Link.HSort ∈ ops;
  lr_wf : pm_wf h /\ pm_go_ok h;
  lr_go p : pm_map h !! m = Some p -> p ∈ pm_go h <-> links_complete sort ops;
}.

Lemma links_run_start m sort h :
  pm_wf h -> pm_go_ok h -> pm_map h !! m = None -> links_run m sort [] h.
Proof.
  intros Hwf Hgo Hm. split; [|split; [constructor|by intros ? ?%not_elem_of_nil]|by intros [? ?]|done|congruence].
  unfold Link.hs_inv. by rewrite Hm.
Qed.

Lemma links_complete_length sort ops :
  NoDup (hs_adds ops) -> hs_adds ops ⊆ sort -> NoDup sort ->
  hs_adds ops ≡ₚ sort <-> length (hs_adds ops) = length sort.
Proof.
  intros Hnd Hsub Hns. split; [by intros ->|]. intros Hlen.
  apply submseteq_length_Permutation; [|lia]. by apply NoDup_submseteq.
Qed.

(** The final [trySend] of a step starts [Send] exactly when the handshake is
    complete. *)
Lemma trySend_go m sort ops conn h p :
  NoDup sort -> NoDup (hs_adds ops) -> hs_adds ops ⊆ sort ->
  (is_Some (tried ops) -> Link.HSort ∈ ops) ->
  let h1 := match conn with Some c => pm_update p (SetConn c) h | None => h end in
  pm_map h !! m = Some p -> Link.hs_inv m sort ops (tried ops) h1 -> p ∉ pm_go h ->
  p ∈ pm_go (fst (trySend m conn h)) <-> links_complete sort ops.
Proof.
  intros Hns Hnd Hsub Hso h1 Hp Hinv Hgo. unfold trySend. rewrite Hp. fold h1.
  assert (pm_map h1 !! m = Some p) as Hp1 by (unfold h1; by destruct conn).
  assert (pm_go h1 = pm_go h) as Hgo1 by (unfold h1; by destruct conn).
  unfold Link.hs_inv in Hinv. rewrite Hp1 in Hinv. destruct Hinv as (q & Hq & Hc & Hconn & Hs & _).
  rewrite Hq, Hc, Hconn. unfold links_complete. rewrite links_complete_length by done.
  destruct (tried ops) as [c|] eqn:Ht.
  - rewrite (Hs (Hso (ltac:(by eexists)))), bool_decide_eq_true_2 by done. simpl.
    destruct (Z.eqb_spec (Z.of_nat (length (hs_adds ops))) (Z.of_nat (length sort))); simpl; rewrite Hgo1.
    + rewrite elem_of_app, list_elem_of_singleton. split; [|by right]. intros _. split; [lia|by eexists].
    + split; [done|]. intros [? _]. lia.
  - simpl. rewrite Hgo1. split; [done|]. by intros [_ [? ?]].
Qed.

(** The steps of the handshake. *)
Lemma hs_register_keeps now m id h p :
  pm_map (hs_register now m id h) !! m = Some p -> pm_go_ok h ->
  (pm_map h !! m = Some p \/ p ∉ pm_go h) /\ pm_go (hs_register now m id h) = pm_go h /\
  pm_go_ok (hs_register now m id h).
Proof.
  unfold hs_register, ensure. intros Hp Hgo. destruct (pm_map h !! m) as [p0|] eqn:Hm.
  - rewrite Hm in *. destruct (pm_map h !! id) eqn:Hid; simpl in *.
    + split_and!; [by left; congruence|done|by apply pm_go_ok_update].
    + rewrite lookup_insert in Hp. case_decide; simplify_eq.
      split_and!; [left; congruence|done|]. by apply pm_go_ok_update, pm_go_ok_new.
  - simpl in *. rewrite lookup_insert_eq in *. rewrite lookup_insert in *.
    pose proof (pm_new_not_started h Hgo) as Hn.
    pose proof (pm_go_ok_new m (NewLink now m) h Hgo) as Hgo1. case_decide as Hd; simpl in *.
    + rewrite lookup_insert_eq in Hp. simplify_eq.
      split_and!; [by right|done|by apply pm_go_ok_update].
    + assert (pm_map (pm_new m (NewLink now m) h) !! id = pm_map h !! id) as E.
      { simpl. by rewrite lookup_insert_ne. }
      destruct (pm_map h !! id); simpl in *.
      * rewrite lookup_insert_eq in Hp. simplify_eq. split_and!; [by right|done|by apply pm_go_ok_update].
      * rewrite lookup_insert_ne, lookup_insert_eq in Hp by congruence. simplify_eq.
        split_and!; [by right|done|]. by apply pm_go_ok_update, pm_go_ok_new.
Qed.

Lemma trySend_go_ok m conn h : pm_go_ok h -> pm_go_ok (fst (trySend m conn h)).
Proof.
  intros Hgo. unfold trySend. destruct (pm_map h !! m) as [p|]; [|done].
  assert (pm_go_ok (match conn with Some c => pm_update p (SetConn c) h | None => h end)) as Hgo1.
  { destruct conn; [by apply pm_go_ok_update|done]. }
  destruct (pm_heap _ !! p) eqn:Hq; [|done]. destruct (bool_decide _ && _); [|done].
  apply pm_go_ok_start; [by eexists|done].
Qed.

Lemma trySend_map m conn h : pm_map (fst (trySend m conn h)) = pm_map h.
Proof. unfold trySend. by repeat case_match. Qed.

Lemma hs_step_go_ok now m sort h op : pm_go_ok h -> pm_go_ok (Link.hs_step now m sort h op).
Proof.
  intros Hgo. destruct op as [id| |c]; simpl.
  - rewrite Add_register. apply trySend_go_ok.
    assert (forall i h, pm_go_ok h -> pm_go_ok (ensure now i m h)) as He.
    { intros i h' Hgo'. unfold ensure. case_match; [done|by apply pm_go_ok_new]. }
    unfold hs_register. case_match; [apply pm_go_ok_update|]; auto.
  - unfold hub_SetSort. case_match; [by apply pm_go_ok_update|].
    case_match; [apply pm_go_ok_update|]; by apply pm_go_ok_new.
  - by apply trySend_go_ok.
Qed.

Lemma links_run_inv now m sort ops op h :
  links_run m sort ops h -> link_may sort ops op ->
  Link.hs_inv m sort (ops ++ [op]) (tried (ops ++ [op])) (Link.hs_step now m sort h op).
Proof.
  intros [Hinv _ _ _ _] Hmay. rewrite tried_snoc.
  destruct op as [id| |c]; [by apply hs_step_inv..|].
  destruct Hmay as [Hs Ht]. apply (lhs_try_inv m sort ops (tried ops)); [|done]. intros ->. set_solver.
Qed.

Lemma links_run_may sort ops op :
  NoDup (hs_adds ops) -> hs_adds ops ⊆ sort -> (is_Some (tried ops) -> Link.HSort ∈ ops) ->
  link_may sort ops op ->
  NoDup (hs_adds (ops ++ [op])) /\ hs_adds (ops ++ [op]) ⊆ sort /\
  (is_Some (tried (ops ++ [op])) -> Link.HSort ∈ ops ++ [op]).
Proof.
  intros Hnd Hsub Hso Hmay. rewrite hs_adds_app, tried_snoc.
  destruct op as [id| |c]; simpl in *; rewrite ?app_nil_r.
  - destruct Hmay as [Hid Hno]. split_and!.
    + apply NoDup_app. split_and!; [done| |repeat constructor; by intros ?%not_elem_of_nil].
      intros i Hi ->%list_elem_of_singleton. done.
    + intros i [Hi|Hi%list_elem_of_singleton]%elem_of_app; [by apply Hsub|by subst].
    + intros Hc%Hso. set_solver.
  - split_and!; [done..|]. intros Hc. set_solver.
  - split_and!; [done..|]. intros Hc. set_solver.
Qed.

Lemma links_run_go now m sort ops op h p :
  NoDup sort -> links_run m sort ops h -> link_may sort ops op ->
  pm_map (Link.hs_step now m sort h op) !! m = Some p ->
  p ∈ pm_go (Link.hs_step now m sort h op) <-> links_complete sort (ops ++ [op]).
Proof.
  intros Hns [Hinv [Hnd Hsub] Hso [_ Hok] Hgo] Hmay Hp.
  destruct (links_run_may _ _ _ Hnd Hsub Hso Hmay) as (Hnd' & Hsub' & Hso').
  destruct op as [id| |c]; simpl in *.
  - (* a hello *)
    rewrite Add_register in *. rewrite trySend_map in Hp.
    destruct (hs_register_keeps now m id h p Hp Hok) as (Hor & Eg & _).
    apply (trySend_go m sort (ops ++ [Link.HAdd id]) None); try done.
    + rewrite tried_snoc. by apply lhs_register_inv.
    + rewrite Eg. destruct Hor as [Hm|]; [|done]. rewrite Hgo by done. intros [Hperm _].
      destruct Hmay as [Hid Hno]. apply Hno. by rewrite Hperm.
  - (* the order *)
    assert (links_complete sort (ops ++ [Link.HSort]) <-> links_complete sort ops) as ->.
    { unfold links_complete. by rewrite hs_adds_app, tried_snoc, app_nil_r. }
    unfold hub_SetSort in *. destruct (pm_map h !! m) as [p0|] eqn:Hm; simpl in *.
    { apply Hgo. congruence. }
    rewrite lookup_insert_eq in *. simpl in *. rewrite lookup_insert_eq in Hp. simplify_eq.
    unfold Link.hs_inv in Hinv. rewrite Hm in Hinv. destruct Hinv as [-> _].
    split; [by intros ?%(pm_new_not_started h Hok)|]. by intros [_ [? ?]].
  - (* the dialling *)
    unfold TrySend in *. rewrite trySend_map in Hp. destruct Hmay as [Hs Ht].
    apply (trySend_go m sort (ops ++ [Link.HTry c]) (Some c)); try done.
    + unfold Link.hs_inv in *. simpl. rewrite Hp in *. destruct Hinv as (q & Hq & Hc & _ & Hsq & Hl).
      exists (SetConn c q). rewrite list_lookup_alter_eq, Hq, hs_adds_app, app_nil_r, tried_snoc.
      split_and!; try done. intros _. by apply Hsq.
    + rewrite Hgo by done. intros [_ [? ?]]. congruence.
Qed.

Lemma links_run_step now m sort ops op h :
  NoDup sort -> links_run m sort ops h -> link_may sort ops op ->
  links_run m sort (ops ++ [op]) (Link.hs_step now m sort h op).
Proof.
  intros Hns Hr Hmay. pose proof Hr as [_ [Hnd Hsub] Hso [Hwf Hok] _].
  destruct (links_run_may _ _ _ Hnd Hsub Hso Hmay) as (Hnd' & Hsub' & Hso').
  split; [by apply links_run_inv|done|done| |].
  - split; [by apply hs_step_wf|by apply hs_step_go_ok].
  - intros p Hp. by apply links_run_go.
Qed.

(** What else happens to the hub keeps what the handshake has done. *)
Definition master_kept m h h' : Prop :=
  forall p q, pm_map h !! m = Some p -> pm_heap h !! p = Some q ->
    (p ∈ pm_go h' <-> p ∈ pm_go h) /\
    exists q', pm_heap h' !! p = Some q' /\ l_counter q' = l_counter q /\ l_conn q' = l_conn q /\
      l_sorted q' = l_sorted q.

Lemma links_run_keep m sort ops h h' :
  links_run m sort ops h -> pm_wf h' -> pm_go_ok h' ->
  (forall id, id = m \/ id ∈ sort -> pm_map h' !! id = pm_map h !! id) -> master_kept m h h' ->
  links_run m sort ops h'.
Proof.
  intros [Hinv [Hnd Hsub] Hso _ Hgo] Hwf Hok Hmap Hk.
  assert (Em : pm_map h' !! m = pm_map h !! m) by (apply Hmap; by left).
  split; [|done|done|done|].
  - unfold Link.hs_inv in *. rewrite Em. destruct (pm_map h !! m) as [p|] eqn:Hp; [|done].
    destruct Hinv as (q & Hq & Hc & Hconn & Hs & Hl).
    destruct (Hk p q Hp Hq) as (_ & q' & Hq' & Ec & En & Es). exists q'.
    rewrite Ec, En, Es. split_and!; [done..|]. intros id Hid. rewrite Hmap by (right; by apply Hsub). by apply Hl.
  - intros p. rewrite Em. intros Hp. unfold Link.hs_inv in Hinv. rewrite Hp in Hinv.
    destruct Hinv as (q & Hq & _). destruct (Hk p q Hp Hq) as [-> _]. by apply Hgo.
Qed.
End links.

(** * Queues *)

Section queues.
Context {K : Ksuid} {W : Type}.
Implicit Types (h : QueueHub W) (m id : KSUID) (sort : list KSUID) (ops : list (QueueHub.handshake (W := W))).

(** Everything that the queue's [Send] waits for has happened. *)
Definition queue_complete sort ops : Prop := hs_added ops ≡ₚ sort /\ QueueHub.HSort ∈ ops.

Definition queue_may sort ops (op : QueueHub.handshake (W := W)) : Prop :=
  match op with
  | QueueHub.HAdd id _ => id ∈ sort /\ id ∉ hs_added ops
  | QueueHub.HSort => True
  | QueueHub.HTry => QueueHub.HSort ∈ ops
  end.

Record queues_run m sort ops h : Prop := {
  qr_inv : QueueHub.hs_inv m sort ops h;
  qr_added : NoDup (hs_added ops) /\ hs_added ops ⊆ sort;
  qr_try : QueueHub.HTry ∈ ops -> QueueHub.HSort ∈ ops;
  qr_wf : pm_wf h /\ pm_go_ok h;
  qr_go p : pm_map h !! m = Some p ->
    (p ∈ pm_go h -> queue_complete sort ops) /\
    (queue_complete sort ops /\ QueueHub.HTry ∈ ops -> p ∈ pm_go h);
}.

Lemma queues_run_start m sort h :
  pm_wf h -> pm_go_ok h -> pm_map h !! m = None -> queues_run m sort [] h.
Proof.
  intros Hwf Hgo Hm. split; [|split; [constructor|by intros ? ?%not_elem_of_nil]|set_solver|done|congruence].
  unfold QueueHub.hs_inv. by rewrite Hm.
Qed.

(** The test of [trySend] sees whether the handshake is complete. *)
Lemma queue_trySend_go m sort ops h p :
  NoDup sort -> NoDup (hs_added ops) -> hs_added ops ⊆ sort -> QueueHub.HSort ∈ ops \/ hs_added ops <> [] ->
  pm_map h !! m = Some p -> QueueHub.hs_inv m sort ops h ->
  p ∈ pm_go (fst (QueueHub.trySend m h)) <-> p ∈ pm_go h \/ queue_complete sort ops.
Proof.
  intros Hns Hnd Hsub Hor Hp Hinv. unfold QueueHub.trySend, QueueHub.hs_inv in *. rewrite Hp in *.
  destruct Hinv as (q & Hq & Hw & Hs). rewrite Hq, <- size_dom, Hw, hs_writers_dom, size_list_to_set by done.
  assert (queue_complete sort ops <-> length (hs_added ops) = length (q_sorted q)) as ->.
  { unfold queue_complete. destruct Hs as [[Hin ->]|[Hno ->]].
    - split; [by intros [-> _]|]. intros Hlen. split; [|done].
      apply submseteq_length_Permutation; [|lia]. by apply NoDup_submseteq.
    - split; [by intros [_ ?]|]. destruct Hor as [?|Hne]; [done|]. by destruct (hs_added ops). }
  destruct (Nat.eqb_spec (length (hs_added ops)) (length (q_sorted q))); simpl.
  - rewrite elem_of_app, list_elem_of_singleton. tauto.
  - tauto.
Qed.

Lemma queue_trySend_ok m h : pm_go_ok h -> pm_go_ok (fst (QueueHub.trySend m h)).
Proof.
  intros Hgo. unfold QueueHub.trySend. destruct (pm_map h !! m) as [p|]; [|done].
  destruct (pm_heap h !! p) eqn:Hq; [|done]. case_match; [|done]. apply pm_go_ok_start; [by eexists|done].
Qed.

Lemma queue_ensure_ok now m h : pm_go_ok h -> pm_go_ok (QueueHub.ensure now m h).
Proof. intros Hgo. unfold QueueHub.ensure. case_match; [done|by apply pm_go_ok_new]. Qed.

Lemma queue_step_ok now m sort h op : pm_go_ok h -> pm_go_ok (QueueHub.hs_step now m sort h op).
Proof.
  intros Hgo. destruct op as [id w| |]; simpl; [| |by apply queue_trySend_ok].
  - apply queue_trySend_ok. pose proof (queue_ensure_ok now m h Hgo).
    case_match; [by apply pm_go_ok_update|done].
  - unfold QueueHub.hub_SetSort. case_match; [by apply pm_go_ok_update|].
    pose proof (pm_go_ok_new m (NewQueue now m) h Hgo). case_match; [by apply pm_go_ok_update|done].
Qed.

Lemma queue_step_wf now m sort h op : pm_wf h -> pm_wf (QueueHub.hs_step now m sort h op).
Proof. destruct op; [apply pm_wf_Add|apply pm_wf_SetSort|apply pm_wf_trySend]. Qed.

Lemma queue_step_inv now m sort ops op h :
  QueueHub.hs_inv m sort ops h -> QueueHub.hs_inv m sort (ops ++ [op]) (QueueHub.hs_step now m sort h op).
Proof.
  intros Hinv. destruct op as [id w| |]; simpl.
  - by apply hs_inv_trySend_mono, hs_register_inv.
  - by apply QueueHub.hs_sort_inv.
  - by apply hs_try_inv.
Qed.

(** The pointer of the master's queue, before and after a step. *)
Lemma queue_register_keeps now m id (w : W) h p :
  pm_map (QueueHub.hs_register now m id w h) !! m = Some p -> pm_go_ok h ->
  (pm_map h !! m = Some p \/ p ∉ pm_go h) /\ pm_go (QueueHub.hs_register now m id w h) = pm_go h.
Proof.
  unfold QueueHub.hs_register, QueueHub.ensure. intros Hp Hgo. destruct (pm_map h !! m) as [p0|] eqn:Hm.
  - rewrite Hm in *. simpl in *. split; [left; congruence|done].
  - simpl in *. rewrite lookup_insert_eq in *. simpl in *. rewrite lookup_insert_eq in Hp. simplify_eq.
    split; [|done]. right. by apply pm_new_not_started.
Qed.

Lemma queues_run_may sort ops op :
  NoDup (hs_added ops) -> hs_added ops ⊆ sort -> (QueueHub.HTry ∈ ops -> QueueHub.HSort ∈ ops) ->
  queue_may sort ops op ->
  NoDup (hs_added (ops ++ [op])) /\ hs_added (ops ++ [op]) ⊆ sort /\
  (QueueHub.HTry ∈ ops ++ [op] -> QueueHub.HSort ∈ ops ++ [op]).
Proof.
  intros Hnd Hsub Hso Hmay. rewrite hs_added_snoc.
  destruct op as [id w| |]; simpl in *; rewrite ?app_nil_r.
  - destruct Hmay as [Hid Hno]. split_and!.
    + apply NoDup_app. split_and!; [done| |repeat constructor; by intros ?%not_elem_of_nil].
      intros i Hi ->%list_elem_of_singleton. done.
    + intros i [Hi|Hi%list_elem_of_singleton]%elem_of_app; [by apply Hsub|by subst].
    + intros [?%Hso|?]%elem_of_app; set_solver.
  - split_and!; [done..|]. set_solver.
  - split_and!; [done..|]. set_solver.
Qed.

Lemma queues_run_go now m sort ops op h p :
  NoDup sort -> queues_run m sort ops h -> queue_may sort ops op ->
  pm_map (QueueHub.hs_step now m sort h op) !! m = Some p ->
  (p ∈ pm_go (QueueHub.hs_step now m sort h op) -> queue_complete sort (ops ++ [op])) /\
  (queue_complete sort (ops ++ [op]) /\ QueueHub.HTry ∈ ops ++ [op] ->
     p ∈ pm_go (QueueHub.hs_step now m sort h op)).
Proof.
  intros Hns [Hinv [Hnd Hsub] Hso [_ Hok] Hgo] Hmay Hp.
  destruct (queues_run_may _ _ _ Hnd Hsub Hso Hmay) as (Hnd' & Hsub' & Hso').
  destruct op as [id w| |]; simpl in *.
  - (* a hello *)
    change (QueueHub.Add now m id w h) with (fst (QueueHub.trySend m (QueueHub.hs_register now m id w h))) in *.
    rewrite (proj1 (trySend_queue _ _)) in Hp.
    destruct (queue_register_keeps now m id w h p Hp Hok) as [Hor Eg].
    rewrite (queue_trySend_go m sort (ops ++ [QueueHub.HAdd id w])); try done.
    + rewrite Eg. destruct Hor as [Hm|Hno]; [|tauto]. split; [|tauto]. intros [Hin|?]; [|done].
      apply Hgo in Hin as [Hperm _]; [|done]. destruct Hmay as [Hid []]. by rewrite Hperm.
    + right. rewrite hs_added_snoc. by destruct (hs_added ops).
    + by apply QueueHub.hs_register_inv.
  - (* the order *)
    assert (queue_complete sort ops -> queue_complete sort (ops ++ [QueueHub.HSort])) as Hmono.
    { intros [? ?]. split; [|set_solver]. by rewrite hs_added_snoc, app_nil_r. }
    assert (queue_complete sort (ops ++ [QueueHub.HSort]) /\ QueueHub.HTry ∈ ops ++ [QueueHub.HSort] ->
              queue_complete sort ops /\ QueueHub.HTry ∈ ops) as Hback.
    { intros [[Hperm _] [Ht|?%list_elem_of_singleton]%elem_of_app]; [|done].
      rewrite hs_added_snoc, app_nil_r in Hperm. split; [split|]; auto. }
    unfold QueueHub.hub_SetSort in *. destruct (pm_map h !! m) as [p0|] eqn:Hm; simpl in *.
    { rewrite Hm in Hp. simplify_eq. destruct (Hgo p eq_refl) as [H1 H2]. split; auto. }
    rewrite lookup_insert_eq in *. simpl in *. rewrite lookup_insert_eq in Hp. simplify_eq.
    unfold QueueHub.hs_inv in Hinv. rewrite Hm in Hinv. split; [by intros ?%(pm_new_not_started h Hok)|].
    intros [_ Ht]%Hback. by apply Hso, hs_sort_not_try in Ht.
  - (* [TrySend] *)
    unfold QueueHub.TrySend in *. rewrite (proj1 (trySend_queue _ _)) in Hp.
    rewrite (queue_trySend_go m sort (ops ++ [QueueHub.HTry])); try done.
    + split; [|tauto]. intros [Hin|?]; [|done]. apply Hgo in Hin as [? ?]; [|done].
      split; [by rewrite hs_added_snoc, app_nil_r|set_solver].
    + left. set_solver.
    + pose proof (hs_try_inv m sort ops h Hinv) as Ht. unfold QueueHub.hs_inv in *.
      by destruct (trySend_queue m h) as [E1 E2]; rewrite E1, E2 in Ht.
Qed.

Lemma queues_run_step now m sort ops op h :
  NoDup sort -> queues_run m sort ops h -> queue_may sort ops op ->
  queues_run m sort (ops ++ [op]) (QueueHub.hs_step now m sort h op).
Proof.
  intros Hns Hr Hmay. pose proof Hr as [Hinv [Hnd Hsub] Hso [Hwf Hok] _].
  destruct (queues_run_may _ _ _ Hnd Hsub Hso Hmay) as (Hnd' & Hsub' & Hso').
  split; [by apply queue_step_inv|done|done| |].
  - split; [by apply queue_step_wf|by apply queue_step_ok].
  - intros p Hp. by apply queues_run_go.
Qed.

(** The buffer of the master's queue; before there is one, an empty one. *)
Definition queue_buffer m h : chan buffer :=
  match pm_deref h m with Some q => q_buffer q | None => makeBuffer end.

Lemma queue_step_buffer now m sort ops op h :
  QueueHub.hs_inv m sort ops h -> queue_buffer m (QueueHub.hs_step now m sort h op) = queue_buffer m h.
Proof.
  intros Hinv. unfold QueueHub.hs_inv in Hinv.
  assert (forall h', queue_buffer m (fst (QueueHub.trySend m h')) = queue_buffer m h') as Htry.
  { intros h'. unfold queue_buffer, pm_deref. by destruct (trySend_queue m h') as [-> ->]. }
  destruct op as [id w| |]; simpl; [| |apply Htry].
  - unfold QueueHub.Add. rewrite Htry. unfold QueueHub.ensure, queue_buffer, pm_deref.
    destruct (pm_map h !! m) as [p|] eqn:Hp; rewrite ?Hp; simpl.
    + rewrite Hp. destruct Hinv as (q & Hq & _). by rewrite list_lookup_alter_eq, Hq.
    + rewrite lookup_insert_eq. simpl. by rewrite lookup_insert_eq, list_lookup_alter_eq, list_lookup_middle.
  - unfold QueueHub.hub_SetSort, queue_buffer, pm_deref.
    destruct (pm_map h !! m) as [p|] eqn:Hp; simpl.
    + rewrite Hp. destruct Hinv as (q & Hq & _). by rewrite list_lookup_alter_eq, Hq.
    + rewrite lookup_insert_eq. simpl. by rewrite lookup_insert_eq, list_lookup_alter_eq, list_lookup_middle.
Qed.

(** What else happens to the hub keeps what the handshake has done. *)
Lemma queues_run_keep m sort ops h h' :
  queues_run m sort ops h -> pm_wf h' -> pm_go_ok h' -> pm_map h' !! m = pm_map h !! m ->
  (forall p q, pm_map h !! m = Some p -> pm_heap h !! p = Some q ->
     (p ∈ pm_go h' <-> p ∈ pm_go h) /\
     exists q', pm_heap h' !! p = Some q' /\ q_writers q' = q_writers q /\ q_sorted q' = q_sorted q) ->
  queues_run m sort ops h'.
Proof.
  intros [Hinv Hadd Hso _ Hgo] Hwf Hok Em Hk. split; [|done..|].
  - unfold QueueHub.hs_inv in *. rewrite Em. destruct (pm_map h !! m) as [p|] eqn:Hp; [|done].
    destruct Hinv as (q & Hq & Hw & Hs). destruct (Hk p q eq_refl Hq) as (_ & q' & Hq' & Ew & Es).
    exists q'. by rewrite Ew, Es.
  - intros p. rewrite Em. intros Hp. unfold QueueHub.hs_inv in Hinv. rewrite Hp in Hinv.
    destruct Hinv as (q & Hq & _). destruct (Hk p q Hp Hq) as [-> _]. by apply Hgo.
Qed.
End queues.
