(* ===== verification/Sends.v ===== *)
(** The goroutines that run [Send] (pipe/queue.go, pipe/link.go).

    A hub records the pointers on which [go x.Send()] was executed ([pm_go]);
    here each of these goroutines has a program point of its own, so that a
    process can be modelled with all of them.  What a [Send] relies on is an
    interface ([Sender]); the invariant of a hub with its goroutines is proved
    from it for queues and links alike: no two goroutines run the [Send] of the
    same object, and then none of them panics. *)
From S2P Require Import Prelude GoChan Pipe RoundRobin PtrMap Queue QueueHub Link Starts.

(** What a [Send] of type [PC] is to the object it runs on: its first program
    point, whether it has returned, whether the object's channel [done] is
    closed, and the condition under which the rest of it does not panic. *)
Class Sender (V PC : Type) := {
  snd_enter : PC;
  snd_returned : PC -> Prop;
  snd_done : V -> bool;
  snd_ready : V -> Prop;
  snd_safe : V -> PC -> Prop;
  snd_same : V -> V -> Prop;                      (* the same for a [Send] under way *)
  snd_safe_enter v : snd_ready v -> snd_safe v snd_enter;
  snd_same_refl v : snd_same v v;
  snd_same_trans v1 v2 v3 : snd_same v1 v2 -> snd_same v2 v3 -> snd_same v1 v3;
  snd_same_done v v' : snd_same v v' -> snd_done v' = snd_done v;
  snd_same_safe v v' pc : snd_same v v' -> snd_safe v pc -> snd_safe v' pc;
}.

Section sends.
Context {K : Ksuid} {V PC : Type} `{!Sender V PC}.
Implicit Types (h : ptrmap V) (pcs : gmap nat PC) (g p : nat) (v : V).

(** The program point of the goroutine [g], the [g]-th that was started. *)
Definition pc_at pcs g : PC := default snd_enter (pcs !! g).

Definition send_fine v pc : Prop := snd_safe v pc /\ (snd_done v = true -> snd_returned pc).

Record sends_ok h pcs : Prop := {
  so_once : NoDup (pm_go h);
  so_safe g p : pm_go h !! g = Some p -> exists v, pm_heap h !! p = Some v /\ send_fine v (pc_at pcs g);
  so_done p v : pm_heap h !! p = Some v -> snd_done v = true -> p ∈ pm_go h;
  so_pcs g : is_Some (pcs !! g) -> g < length (pm_go h);
}.

Lemma sends_ok_empty : sends_ok pm_empty ∅.
Proof.
  split; simpl; [by apply NoDup_nil_2|..]; intros *; rewrite ?lookup_nil, ?lookup_empty; [done..|by intros []].
Qed.

(** What the hub's methods and the other goroutines do: objects of [go] stay the
    same for their [Send]s, and no other object gets a closed [done]. *)
Definition sends_keep h h' : Prop :=
  pm_go h' = pm_go h /\
  (forall p v, pm_heap h !! p = Some v -> exists v', pm_heap h' !! p = Some v' /\ snd_done v' = snd_done v /\
     (p ∈ pm_go h -> snd_same v v')) /\
  (forall p v', pm_heap h' !! p = Some v' -> pm_heap h !! p = None -> snd_done v' = false).

Lemma sends_keep_refl h : sends_keep h h.
Proof.
  split_and!; [done| |congruence]. intros p v Hv. exists v. split_and!; [done..|]. intros _. apply snd_same_refl.
Qed.

Lemma sends_ok_keep h h' pcs : sends_keep h h' -> sends_ok h pcs -> sends_ok h' pcs.
Proof.
  intros (Hgo & Hk & Hn) [Ho Hs Hd Hp]. split; rewrite ?Hgo; [done| |..|done].
  - intros g p Hg. destruct (Hs g p Hg) as (v & Hv & Hsafe & Hdone). destruct (Hk p v Hv) as (v' & Hv' & E & Hsame).
    assert (snd_same v v') as Hsame' by (by apply Hsame; eapply list_elem_of_lookup_2).
    exists v'. split; [done|]. split; [by eapply snd_same_safe|by rewrite E].
  - intros p v' Hv' Hd'. destruct (pm_heap h !! p) as [v|] eqn:Hv.
    + destruct (Hk p v Hv) as (v1 & Hv1 & E & _). simplify_eq. apply (Hd p v Hv). congruence.
    + rewrite (Hn p v' Hv' Hv) in Hd'. done.
Qed.

Lemma sends_keep_update p f h :
  (forall v, pm_heap h !! p = Some v -> snd_done (f v) = snd_done v /\ (p ∈ pm_go h -> snd_same v (f v))) ->
  sends_keep h (pm_update p f h).
Proof.
  intros Hf. split_and!; [done|..]; simpl; intros p' v Hv.
  - destruct (decide (p = p')) as [<-|Hne].
    + exists (f v). rewrite list_lookup_alter_eq, Hv. destruct (Hf v Hv) as [E Hs]. by split_and!.
    + exists v. rewrite list_lookup_alter_ne by done. split_and!; [done..|]. intros _. apply snd_same_refl.
  - intros Hn. apply lookup_lt_Some in Hv. apply lookup_ge_None in Hn. rewrite length_alter in Hv. lia.
Qed.

Lemma sends_keep_rel h h' :
  heap_rel (fun v v' => snd_done v' = snd_done v /\ snd_same v v') h h' -> sends_keep h h'.
Proof.
  intros HR. split_and!; [apply HR|..].
  - intros p v Hv. destruct (heap_rel_l _ _ _ _ _ HR Hv) as (v' & Hv' & E & Hs). exists v'. by split_and!.
  - intros p v' Hv' Hn. destruct (heap_rel_r _ _ _ _ _ HR Hv') as (v & Hv & _). congruence.
Qed.

Lemma sends_keep_new id v h : snd_done v = false -> sends_keep h (pm_new id v h).
Proof.
  intros Hv. split_and!; [done|..]; simpl; intros p v' Hv'.
  - exists v'. rewrite (lookup_app_l_Some _ _ _ _ Hv'). split_and!; [done..|]. intros _. apply snd_same_refl.
  - intros Hn. apply lookup_app_Some in Hv' as [?|[_ Hv']]; [congruence|].
    apply list_lookup_singleton_Some in Hv' as [_ <-]. done.
Qed.

Lemma sends_keep_trans h h1 h' : sends_keep h h1 -> sends_keep h1 h' -> sends_keep h h'.
Proof.
  intros (Hg1 & Hk1 & Hn1) (Hg2 & Hk2 & Hn2). split_and!; [congruence|..].
  - intros p v Hv. destruct (Hk1 p v Hv) as (v1 & Hv1 & E1 & Hs1). destruct (Hk2 p v1 Hv1) as (v' & Hv' & E2 & Hs2).
    exists v'. split_and!; [done|congruence|]. intros Hp. eapply snd_same_trans; [by apply Hs1|].
    apply Hs2. by rewrite Hg1.
  - intros p v' Hv' Hn. destruct (pm_heap h1 !! p) as [v1|] eqn:Hv1; [|by eapply Hn2].
    destruct (Hk2 p v1 Hv1) as (v2 & Hv2 & E2 & _). simplify_eq. rewrite E2. by eapply Hn1.
Qed.

(** A new goroutine, on an object that no other one runs on. *)
Lemma sends_ok_start p v h pcs :
  pm_heap h !! p = Some v -> snd_ready v -> p ∉ pm_go h -> sends_ok h pcs -> sends_ok (pm_start p h) pcs.
Proof.
  intros Hv Hr Hp [Ho Hs Hd Hpc]. split; simpl.
  - apply NoDup_app. split_and!; [done|by intros x Hx ->%list_elem_of_singleton|apply NoDup_singleton].
  - intros g p' [Hg|[Hl Hg]]%lookup_app_Some; [by apply Hs|].
    apply list_lookup_singleton_Some in Hg as [Hg <-].
    exists v. split; [done|]. unfold send_fine, pc_at. destruct (pcs !! g) eqn:E.
    { apply mk_is_Some, Hpc in E. lia. }
    split; [by apply snd_safe_enter|]. intros Hdn. exfalso. by apply Hp, (Hd p v).
  - intros p' v' Hv' Hd'. apply elem_of_app. left. by eapply Hd.
  - intros g Hg%Hpc. rewrite length_app. lia.
Qed.

(** A step of one of the goroutines; [p] is its object. *)
Definition sends_others p h h' : Prop :=
  pm_go h' = pm_go h /\
  (forall p' v, p' <> p -> pm_heap h !! p' = Some v ->
     exists v', pm_heap h' !! p' = Some v' /\ snd_done v' = snd_done v /\ snd_same v v') /\
  (forall p' v', pm_heap h' !! p' = Some v' -> pm_heap h !! p' = None -> snd_done v' = false).

Lemma sends_others_update p p' f h :
  (forall v, p' <> p -> snd_done (f v) = snd_done v /\ snd_same v (f v)) -> sends_others p h (pm_update p' f h).
Proof.
  intros Hf. split_and!; [done|..]; simpl; intros p1 v.
  - intros Hne Hv. destruct (decide (p' = p1)) as [->|Hne'].
    + exists (f v). rewrite list_lookup_alter_eq, Hv. split; [done|]. by apply Hf.
    + exists v. rewrite list_lookup_alter_ne by done. split_and!; [done..|]. apply snd_same_refl.
  - intros Hv Hn. apply lookup_lt_Some in Hv. apply lookup_ge_None in Hn. rewrite length_alter in Hv. lia.
Qed.

Lemma sends_ok_step g p v' pc' h h' pcs :
  pm_go h !! g = Some p -> pm_heap h' !! p = Some v' -> send_fine v' pc' ->
  sends_others p h h' -> sends_ok h pcs -> sends_ok h' (<[g := pc']> pcs).
Proof.
  intros Hg Hv' Hf (Hgo & Hk & Hn) [Ho Hs Hd Hpc]. split; rewrite ?Hgo; [done|..].
  - intros g' p' Hg'. unfold pc_at. destruct (decide (g = g')) as [<-|Hne].
    + rewrite lookup_insert_eq. simplify_eq. by exists v'.
    + rewrite lookup_insert_ne by done.
      assert (p' <> p) as Hpp by (intros ->; eapply Hne, NoDup_lookup; eauto).
      destruct (Hs g' p' Hg') as (w & Hw & Hsafe & Hdone). destruct (Hk p' w Hpp Hw) as (w' & Hw' & E & Hsame).
      exists w'. split; [done|]. split; [by eapply snd_same_safe|by rewrite E].
  - intros p' w' Hw' Hdw. destruct (decide (p' = p)) as [->|Hne]; [by eapply list_elem_of_lookup_2|].
    destruct (pm_heap h !! p') as [w|] eqn:Hw.
    + destruct (Hk p' w Hne Hw) as (w1 & Hw1 & E & _). simplify_eq. apply (Hd p' w Hw). congruence.
    + by rewrite (Hn p' w') in Hdw.
  - intros g' [pc Hpc']. destruct (decide (g = g')) as [<-|Hne]; [by eapply lookup_lt_Some|].
    rewrite lookup_insert_ne in Hpc' by done. by eapply Hpc, mk_is_Some.
Qed.
End sends.

(** * Queues *)

Section queue.
Context {K : Ksuid} {W : Type}.
Implicit Types (q : queue W) (pc : Queue.send_pc W) (h : QueueHub W) (pcs : gmap nat (Queue.send_pc W)).

Definition has_writers q (ids : list KSUID) : Prop := forall id, id ∈ ids -> is_Some (q_writers q !! id).

Definition q_safe q pc : Prop :=
  has_writers q (q_sorted q) /\
  match pc with
  | Queue.PRange rest => has_writers q rest
  | Queue.PRead w rest | Queue.PWrite w rest _ => is_Some w /\ has_writers q rest
  | Queue.PDefer r | Queue.PSignal r | Queue.PCloseDone r | Queue.PReturned r => r <> Queue.SPanic
  | _ => True
  end.

Definition q_same q q' : Prop :=
  q_sorted q' = q_sorted q /\ chan_closed (q_done q') = chan_closed (q_done q) /\
  (forall id, is_Some (q_writers q !! id) -> is_Some (q_writers q' !! id)).

#[export, refine] Instance queue_sender : Sender (queue W) (Queue.send_pc W) :=
  {| snd_enter := Queue.PEnter; snd_returned pc := exists r, pc = Queue.PReturned r;
     snd_done q := chan_closed (q_done q); snd_ready q := has_writers q (q_sorted q);
     snd_safe := q_safe; snd_same := q_same |}.
Proof.
  - by intros q Hq.
  - by intros q.
  - intros q1 q2 q3 (? & ? & ?) (? & ? & ?). split_and!; [congruence..|eauto].
  - by intros q q' (_ & ? & _).
  - intros q q' pc (E & _ & Hw) [Hc Hpc]. assert (forall ids, has_writers q ids -> has_writers q' ids) as Hm.
    { intros ids Hids id Hid. by apply Hw, Hids. }
    split; [rewrite E; by apply Hm|]. destruct pc; naive_solver.
Defined.

(** A step of [Send] on its own queue, which closes [done] once. *)
Lemma q_send_done q pc ev q' pc' out :
  Queue.Send_step q pc ev = Some (q', pc', out) -> chan_closed (q_done q) = false ->
  chan_closed (q_done q') = true -> exists r, pc' = Queue.PReturned r.
Proof.
  unfold Queue.Send_step. intros H Ho Hd.
  destruct pc as [| | |[|id rest]|w rest|[w|] rest b|r|r|r|r], ev; simpl in *; try done;
    repeat case_match; simplify_eq/=; try done; try congruence. by exists r.
Qed.

Lemma q_send_safe q pc ev q' pc' out :
  Queue.Send_step q pc ev = Some (q', pc', out) -> chan_closed (q_done q) = false -> q_safe q pc -> q_safe q' pc'.
Proof.
  intros H Ho [Hc Hpc]. pose proof (Send_step_fields _ _ _ _ _ _ H) as (Es & Ew & _).
  unfold q_safe, has_writers in *. rewrite Es, Ew. split; [done|]. unfold Queue.Send_step in H.
  destruct pc as [| | |[|id rest]|w rest|[w|] rest b|r|r|r|r], ev; simpl in *; try done.
  all: rewrite ?Ho in H; try (repeat case_match; simplify_eq/=; done).
  - simplify_eq. split; [|intros i Hi]; apply Hpc; set_solver.
  - repeat case_match; simplify_eq/=; try done; apply Hpc.
  - by destruct Hpc as [[? ?] _].
  - unfold chan_close in H. rewrite Ho in H. by simplify_eq.
Qed.

Lemma q_send_fine q pc ev q' pc' out :
  Queue.Send_step q pc ev = Some (q', pc', out) -> send_fine q pc -> send_fine q' pc'.
Proof.
  intros H [Hs Hd]. assert (chan_closed (q_done q) = false) as Ho.
  { simpl in Hd. destruct (chan_closed (q_done q)); [|done]. destruct (Hd eq_refl) as [r ->]. by destruct ev. }
  split; [by eapply q_send_safe|]. intros. by eapply q_send_done.
Qed.
End queue.

(** * Links *)

Section link.
Context {K : Ksuid}.
Implicit Types (l : link) (pc : Link.send_pc) (h : LinkHub).

Definition l_safe l pc : Prop :=
  match pc with
  | Link.PDefer r | Link.PSignal r | Link.PCloseDone r | Link.PReturned r => r <> Link.SPanic
  | _ => True
  end.

#[export, refine] Instance link_sender : Sender link Link.send_pc :=
  {| snd_enter := Link.PEnter; snd_returned pc := exists r, pc = Link.PReturned r;
     snd_done l := chan_closed (l_done l); snd_ready l := True;
     snd_safe := l_safe; snd_same l l' := chan_closed (l_done l') = chan_closed (l_done l) |}.
Proof. all: done || (intros; congruence). Defined.

(** A step of [Send] on its own link; it also receives from other links, whose
    [done] it does not touch. *)
Lemma l_send_others me h pc ev h' pc' :
  Link.Send_step me h pc ev = Some (h', pc') -> sends_others me h h' /\ is_Some (pm_heap h' !! me).
Proof.
  unfold Link.Send_step. intros H. destruct (pm_heap h !! me) as [l|] eqn:Hl; [|done].
  assert (forall p f, (forall l, p <> me -> l_done (f l) = l_done l) ->
    sends_others me h (pm_update p f h) /\ is_Some (pm_heap (pm_update p f h) !! me)) as Hup.
  { intros p f Hf. split.
    - apply sends_others_update. intros v Hp. simpl. by rewrite Hf.
    - apply lookup_lt_is_Some. simpl. rewrite length_alter. by apply lookup_lt_is_Some. }
  assert (sends_others me h h /\ is_Some (pm_heap h !! me)) as Hid.
  { split; [|by eexists]. split_and!; [done| |congruence]. intros p' v _ Hv. by exists v. }
  destruct pc as [| | |[|id rest]|s rest|rest b|r|r|r|r], ev; simpl in *; try done;
    repeat case_match; simplify_eq/=; try done; apply Hup; done.
Qed.

Lemma l_send_safe me h pc ev h' pc' l :
  Link.Send_step me h pc ev = Some (h', pc') -> pm_heap h !! me = Some l -> chan_closed (l_done l) = false ->
  l_safe l pc -> l_safe l pc'.
Proof.
  unfold Link.Send_step. intros H Hl Ho Hs. rewrite Hl in H.
  destruct pc as [| | |[|id rest]|s rest|rest b|r|r|r|r], ev; simpl in *; try done; rewrite ?Ho in H;
    try (repeat case_match; simplify_eq/=; done).
  unfold chan_close in H. rewrite Ho in H. by simplify_eq.
Qed.

Lemma l_send_done me h pc ev h' pc' l l' :
  Link.Send_step me h pc ev = Some (h', pc') -> pm_heap h !! me = Some l -> pm_heap h' !! me = Some l' ->
  l_done l' = l_done l \/ exists r, pc' = Link.PReturned r.
Proof.
  unfold Link.Send_step. intros H Hl Hl'. rewrite Hl in H.
  assert (forall p f, (forall l, l_done (f l) = l_done l) -> pm_heap (pm_update p f h) !! me = Some l' ->
            l_done l' = l_done l) as Hup.
  { intros p f Hf. simpl. destruct (decide (p = me)) as [->|Hne].
    - rewrite list_lookup_alter_eq, Hl. simpl. intros [= <-]. done.
    - rewrite list_lookup_alter_ne by done. congruence. }
  destruct pc as [| | |[|id rest]|s rest|rest b|r|r|r|r], ev; simpl in *; try done;
    repeat case_match; simplify_eq; try (left; congruence); try (left; eapply Hup; [|exact Hl']; done);
    right; eexists; reflexivity.
Qed.

Lemma l_send_fine me h pc ev h' pc' l l' :
  Link.Send_step me h pc ev = Some (h', pc') -> pm_heap h !! me = Some l -> pm_heap h' !! me = Some l' ->
  send_fine l pc -> send_fine l' pc'.
Proof.
  intros H Hl Hl' [Hs Hd]. simpl in *. assert (chan_closed (l_done l) = false) as Ho.
  { destruct (chan_closed (l_done l)) eqn:E; [|done]. destruct (Hd eq_refl) as [r ->].
    unfold Link.Send_step in H. rewrite Hl in H. by destruct ev. }
  split; simpl; [by eapply (l_send_safe me h pc ev h' pc' l)|]. intros Hc.
  destruct (l_send_done _ _ _ _ _ _ _ _ H Hl Hl') as [E|?]; [congruence|done].
Qed.
End link.
