(* ===== verification/Striping.v ===== *)
(** One direction of a proxied connection, end to end.

    The bytes read from a TCP connection are written to a [queue]; its [Send]
    deals them over several websocket connections; at the other end each
    websocket delivers to a [link], and the [Send] of the master link collects
    them again and writes to the other TCP connection.  The system is the same
    in both directions (client to server and server to client).

    [sys] puts the two machines of Queue.v and Link.v together with the
    websockets between them, and [sys_step] interleaves them with the writer
    (CopyBuffer), the dispatchers of incoming messages and the removal of both
    ends, in any order, with timeouts of the [Send]s and failures of connections.  A websocket
    is a parameter: [Transport] is what the program relies on, that the
    messages of one connection arrive in the order in which they were sent. *)
From S2P Require Import Prelude GoChan Pipe RoundRobin PtrMap Queue Link.

(** * The websockets *)

Class Transport {K : Ksuid} (T : Type) := {
  t_pending : KSUID -> T -> list buffer;           (* sent, not yet received *)
  t_send : KSUID -> buffer -> T -> T;
  t_recv : KSUID -> T -> option (buffer * T);
  t_send_pending id b t id' :
    t_pending id' (t_send id b t) = t_pending id' t ++ (if decide (id = id') then [b] else []);
  t_recv_some id t b t' :
    t_recv id t = Some (b, t') ->
    t_pending id t = b :: t_pending id t' /\
    (forall id', id' <> id -> t_pending id' t' = t_pending id' t);
  t_recv_none id t : t_recv id t = None -> t_pending id t = [];
}.

(** A concrete transport: a map of FIFO queues. *)
Section fifo.
Context {K : Ksuid}.

Definition fifo_pending (id : KSUID) (t : gmap KSUID (list buffer)) : list buffer :=
  default [] (t !! id).
Definition fifo_send (id : KSUID) (b : buffer) (t : gmap KSUID (list buffer)) :=
  <[id := fifo_pending id t ++ [b]]> t.
Definition fifo_recv (id : KSUID) (t : gmap KSUID (list buffer)) :
    option (buffer * gmap KSUID (list buffer)) :=
  match fifo_pending id t with
  | [] => None
  | b :: l => Some (b, <[id := l]> t)
  end.

#[export, refine] Instance fifo_transport : Transport (gmap KSUID (list buffer)) :=
  {| t_pending := fifo_pending; t_send := fifo_send; t_recv := fifo_recv |}.
Proof.
  - intros id b t id'. unfold fifo_send. unfold fifo_pending at 1. rewrite lookup_insert.
    case_decide as Hid; [by subst|]. by rewrite app_nil_r.
  - intros id t b t'. unfold fifo_recv. destruct (fifo_pending id t) as [|b' l] eqn:E; [done|].
    intros [= -> <-]. unfold fifo_pending. rewrite lookup_insert_eq. split; [done|].
    intros id' Hne. by rewrite lookup_insert_ne.
  - intros id t. unfold fifo_recv. by destruct (fifo_pending id t).
Defined.
End fifo.

(** * The system *)

Section striping.
Context {K : Ksuid} {T : Type} `{!Transport T}.

(** The connections in the order of the walk, the master's ID, and the pointer
    of the master link in the receiver's hub. *)
Context (order : list KSUID) (master : KSUID) (me : nat).

(** The sender's queue and its [Send]; the websockets; the receiver's hub and
    the [Send] of its master link; the buffers accepted by the queue so far.
    The writer of a connection is represented by the connection's ID. *)
Record sys := mkSys {
  s_q : queue KSUID;
  s_qpc : Queue.send_pc KSUID;
  s_net : T;
  s_hub : LinkHub;
  s_lpc : Link.send_pc;
  s_in : list buffer;
}.

Definition no_eof (l : list buffer) : Prop := Forall (fun b => b_eof b = false) l.

(** [Write] and [WriteEOF] make buffers of this form. *)
Definition written (b : buffer) : Prop := b_eof b = true -> b_data b = [].

(** The links that only this connection reaches: the master link, those that the
    map gives for its IDs, and the one that its [Send] reads from. *)
Definition ours (h : LinkHub) (lpc : Link.send_pc) (p : nat) : Prop :=
  p = me \/ (exists id, id ∈ order /\ pm_map h !! id = Some p) \/ (exists rest, lpc = Link.PRead p rest).

(** The rest of the process: messages of other connections on the websockets, and
    whatever the methods of the hub and the other [Send]s do to their links. *)
Inductive other_step : sys -> sys -> Prop :=
  | other q qpc t h lpc inp t' h' :
      (forall id, id ∈ order -> t_pending id t' = t_pending id t) ->
      pm_wf h' -> (forall id, id ∈ order -> pm_map h' !! id = pm_map h !! id) ->
      (forall p, ours h lpc p -> pm_heap h' !! p = pm_heap h !! p) ->
      other_step (mkSys q qpc t h lpc inp) (mkSys q qpc t' h' lpc inp).

(** The sender's side: the writer, the queue and its [Send]. *)
Inductive sys_send : sys -> sys -> Prop :=
  (* the writer: one [queue.Write] or [queue.WriteEOF] completes; CopyBuffer
     writes nothing after the end of file.  The test of [status] in writeBuf
     may be long past, so the step does not depend on it. *)
  | st_write q qpc t h lpc inp b c :
      no_eof inp -> written b -> chan_send (q_buffer q) b = SendOk c ->
      sys_send (mkSys q qpc t h lpc inp) (mkSys (set_q_buffer c q) qpc t h lpc (inp ++ [b]))
  (* [queue.Send], a step that hands nothing out *)
  | st_send q qpc t h lpc inp ev q' qpc' :
      Queue.Send_step q qpc ev = Some (q', qpc', None) ->
      sys_send (mkSys q qpc t h lpc inp) (mkSys q' qpc' t h lpc inp)
  (* [queue.Send] writes to a websocket *)
  | st_sent q qpc t h lpc inp e q' qpc' id b :
      Queue.Send_step q qpc (Queue.EvWrote e) = Some (q', qpc', Some (id, b)) ->
      sys_send (mkSys q qpc t h lpc inp) (mkSys q' qpc' (t_send id b t) h lpc inp)
  (* the same, and the message is lost with an error of the websocket *)
  | st_unsent q qpc t h lpc inp err q' qpc' id b :
      Queue.Send_step q qpc (Queue.EvWrote (Some err)) = Some (q', qpc', Some (id, b)) ->
      sys_send (mkSys q qpc t h lpc inp) (mkSys q' qpc' t h lpc inp)
  (* the queue is removed from its hub *)
  | st_close q qpc t h lpc inp q' :
      Queue.close q = Some q' ->
      sys_send (mkSys q qpc t h lpc inp) (mkSys q' qpc t h lpc inp).

(** The receiver's side added.  A message is not lost between a websocket and
    its link here; Lossy.v adds that a dispatcher's [link.Write] times out. *)
Inductive sys_step : sys -> sys -> Prop :=
  | st_sender s s' : sys_send s s' -> sys_step s s'
  (* a message is dispatched to its link: written, refused by a [Send] that is
     over, or without a link any more *)
  | st_deliver q qpc t h lpc inp id b t' p l c :
      id ∈ order -> t_recv id t = Some (b, t') ->
      Link.Get id h = Some p -> pm_heap h !! p = Some l -> chan_send (l_buffer l) b = SendOk c ->
      sys_step (mkSys q qpc t h lpc inp) (mkSys q qpc t' (pm_update p (set_l_buffer c) h) lpc inp)
  | st_refuse q qpc t h lpc inp id b t' p l :
      id ∈ order -> t_recv id t = Some (b, t') ->
      Link.Get id h = Some p -> pm_heap h !! p = Some l -> l_status l = StaDone ->
      sys_step (mkSys q qpc t h lpc inp) (mkSys q qpc t' h lpc inp)
  | st_nolink q qpc t h lpc inp id b t' :
      id ∈ order -> t_recv id t = Some (b, t') -> Link.Get id h = None ->
      sys_step (mkSys q qpc t h lpc inp) (mkSys q qpc t' h lpc inp)
  (* [link.Send]; the methods of net.TCPConn do not panic *)
  | st_link q qpc t h lpc inp ev h' lpc' :
      ev <> Link.EvConn ConnPanic ->
      Link.Send_step me h lpc ev = Some (h', lpc') ->
      sys_step (mkSys q qpc t h lpc inp) (mkSys q qpc t h' lpc' inp)
  (* the receiver's hub removes the proxied connection *)
  | st_remove q qpc t h lpc inp h' :
      Link.RemoveAll master h = Some h' ->
      sys_step (mkSys q qpc t h lpc inp) (mkSys q qpc t h' lpc inp)
  (* the other connections *)
  | st_other s s' : other_step s s' -> sys_step s s'.

(** The system after the handshake: both ends know the connections and their
    order, nothing is under way, and the receiver's TCP connection, which may
    have been used before, can be written to. *)
Record sys_init (conn : TCPConn) (s : sys) : Prop := {
  in_order : NoDup order /\ master ∈ order;
  in_q : q_sorted (s_q s) = order /\ chan_items (q_buffer (s_q s)) = [] /\
         (forall id, id ∈ order -> q_writers (s_q s) !! id = Some id);
  in_qpc : s_qpc s = Queue.PEnter;
  in_net : forall id, id ∈ order -> t_pending id (s_net s) = [];
  in_hub : pm_wf (s_hub s) /\ pm_map (s_hub s) !! master = Some me /\
           sort_at (s_hub s) me = Some order /\ conn_at (s_hub s) me = Some (Some conn);
  in_links : forall id, id ∈ order -> exists p c, pm_map (s_hub s) !! id = Some p /\
           buf_at (s_hub s) p = Some c /\ chan_items c = [] /\
           status_at (s_hub s) p <> Some StaDone;
  in_lpc : s_lpc s = Link.PEnter;
  in_in : s_in s = [];
  in_eof : tc_eof conn = false;
}.

(** ** The invariant *)

(** A receive from a closed channel yields empty buffers; [nz] disregards them. *)
Definition nz (l : list buffer) : list buffer := filter (fun b => b <> buffer_zero) l.

Lemma nz_app l k : nz (l ++ k) = nz l ++ nz k.
Proof. apply filter_app. Qed.

Lemma nz_data l : data_of (nz l) = data_of l.
Proof.
  induction l as [|b l IH]; [done|]. unfold nz in *. rewrite filter_cons.
  case_decide as Hb; rewrite !data_of_cons, ?IH; [done|].
  destruct (decide (b = buffer_zero)) as [->|]; done.
Qed.

Lemma nz_prefix_data l k : nz l `prefix_of` nz k -> data_of l `prefix_of` data_of k.
Proof.
  intros [r Hr]. exists (data_of r). by rewrite <- (nz_data k), Hr, data_of_app, nz_data.
Qed.

(** The end of file is the last thing written. *)
Definition eof_last (l : list buffer) : Prop :=
  forall pre b post, l = pre ++ b :: post -> b_eof b = true -> post = [].

Lemma eof_last_snoc l b : no_eof l -> eof_last (l ++ [b]).
Proof.
  intros Hl pre b' post. induction post as [|x post _] using rev_ind; [done|]. intros E Heof.
  rewrite app_comm_cons, app_assoc in E. apply app_inj_tail in E as [-> _].
  unfold no_eof in Hl. rewrite Forall_app, Forall_cons in Hl. destruct Hl as (_ & Hf & _). congruence.
Qed.

Lemma eof_last_nz l : eof_last l -> eof_last (nz l).
Proof.
  intros Hl pre b post E Heof.
  assert (exists l1 l2, l = l1 ++ b :: l2 /\ nz l2 = post) as (l1 & l2 & -> & <-).
  { clear Hl. revert pre E. induction l as [|x l IH]; intros pre E; [by destruct pre|].
    unfold nz in *. rewrite filter_cons in E. case_decide as Hx.
    - destruct pre as [|y pre]; simpl in E; injection E as -> E; [by exists [], l|].
      destruct (IH _ E) as (l1 & l2 & -> & <-). by exists (y :: l1), l2.
    - destruct (IH _ E) as (l1 & l2 & -> & <-). by exists (x :: l1), l2. }
  by rewrite (Hl l1 b l2 eq_refl Heof).
Qed.

Lemma nz_eof b : b_eof b = true -> nz [b] = [b].
Proof. intros Hb. unfold nz. rewrite filter_cons, decide_True; [done|]. by intros ->. Qed.

(** Once the end of file is among the first items, those are all. *)
Lemma eof_all l k b :
  eof_last k -> b_eof b = true -> nz (l ++ [b]) `prefix_of` nz k -> nz (l ++ [b]) = nz k.
Proof.
  intros Hk%eof_last_nz Hb [r Hr]. rewrite nz_app, nz_eof in * by done.
  rewrite <- app_assoc in Hr. simpl in Hr.
  assert (r = []) as -> by (by eapply (Hk (nz l) b)). done.
Qed.

(** What a connection carries: the messages on the websocket and in its link. *)
Definition lane_items (h : LinkHub) (id : KSUID) : list buffer :=
  match pm_map h !! id with
  | Some p => match buf_at h p with Some c => chan_items c | None => [] end
  | None => []
  end.

Definition lane (t : T) (h : LinkHub) (id : KSUID) : list buffer :=
  lane_items h id ++ t_pending id t.

(** The buffers [X] handed out so far, against the buffers written. *)
Definition flow (q : queue KSUID) (qpc : Queue.send_pc KSUID) inp (X : list buffer) : Prop :=
  (q_over qpc /\ nz X `prefix_of` nz inp) \/
  (~ q_over qpc /\ nz (X ++ q_held qpc ++ chan_items (q_buffer q)) = nz inp).

(** Where the receiver stands after reading [k] buffers. *)
Definition l_pos (h : LinkHub) lpc (k : nat) : Prop :=
  match lpc with
  | Link.PEnter | Link.PStart | Link.PTop => top_pos order k
  | Link.PRange rest | Link.PWrite rest _ => range_pos order rest k
  | Link.PRead s rest => exists id, pm_map h !! id = Some s /\ range_pos order (id :: rest) k
  | _ => False
  end.

(** The sender's side: its queue, and its place in the walk unless it is over. *)
Record sender (q : queue KSUID) (qpc : Queue.send_pc KSUID) inp (X : list buffer) (n : nat) : Prop := {
  sn_flow : flow q qpc inp X;
  sn_pos : ~ q_over qpc -> q_pos q qpc n;
}.

(** The receiver is at work: it has consumed [C] ([k] reads), and the chunks
    [P] are on their way, each on the connection of its turn. *)
Record alive (out0 : bytes) (cn : TCPConn) (s : sys) (C P : list buffer) (k : nat) : Prop := {
  al_maps : forall id, id ∈ order -> exists p c, pm_map (s_hub s) !! id = Some p /\
              buf_at (s_hub s) p = Some c /\ status_at (s_hub s) p <> Some StaDone;
  al_out : tc_sent cn = out0 ++ data_of C /\ tc_eof cn = false;
  al_sender : sender (s_q s) (s_qpc s) (s_in s) (C ++ l_held (s_lpc s) ++ P) (k + length P);
  al_lanes : forall id, id ∈ order -> lane (s_net s) (s_hub s) id = stripe order k id P;
  al_pos : l_pos (s_hub s) (s_lpc s) k;
}.

(** What a receiver whose links are gone may still write. *)
Definition l_next (h : LinkHub) lpc : list buffer :=
  match lpc with
  | Link.PWrite _ b => [b]
  | Link.PRead s _ => match buf_at h s with
                      | Some c => take 1 (chan_items c)
                      | None => []
                      end
  | _ => []
  end.

Record doomed (out0 : bytes) (cn : TCPConn) (s : sys) (C : list buffer) : Prop := {
  dm_maps : forall id, id ∈ order -> pm_map (s_hub s) !! id = None;
  dm_out : tc_sent cn = out0 ++ data_of C /\ tc_eof cn = false;
  dm_next : nz (C ++ l_next (s_hub s) (s_lpc s)) `prefix_of` nz (s_in s);
  dm_range : match s_lpc s with
             | Link.PRange rest | Link.PRead _ rest | Link.PWrite rest _ => rest `suffix_of` order
             | _ => True
             end;
}.

(** The receiver is over. *)
Record finished (out0 : bytes) (cn : TCPConn) (s : sys) : Prop := {
  fi_over : l_over (s_lpc s);
  fi_out : exists l, tc_sent cn = out0 ++ l /\ l `prefix_of` data_of (s_in s) /\
             (tc_eof cn = true -> l = data_of (s_in s) /\ ~ no_eof (s_in s));
}.

Record sys_inv (out0 : bytes) (s : sys) (cn : TCPConn) : Prop := {
  iv_q : q_sorted (s_q s) = order /\
         (forall id, id ∈ order -> q_writers (s_q s) !! id = Some id);
  iv_hub : pm_wf (s_hub s);
  iv_me : sort_at (s_hub s) me = Some order /\ conn_at (s_hub s) me = Some (Some cn);
  iv_master : forall p, pm_map (s_hub s) !! master = Some p -> p = me;
  iv_eof : eof_last (s_in s) /\ Forall written (s_in s);
  iv_state : (exists C P k, alive out0 cn s C P k) \/ (exists C, doomed out0 cn s C) \/
             finished out0 cn s;
}.

Lemma sys_init_inv conn s : sys_init conn s -> sys_inv (tc_sent conn) s conn.
Proof.
  intros [[Hnd Hm] (Hs & Hi & Hw) Hpc Hnet (Hwf & Hmm & Hsort & Hconn) Hl Hlpc Hin Heof].
  split; try done.
  - intros p Hp. congruence.
  - rewrite Hin. split; [|done]. intros [|x pre] y post E; simpl in E; discriminate.
  - left. exists [], [], 0. split.
    + intros id Hid. destruct (Hl id Hid) as (p & c & ? & ? & _ & ?). eauto.
    + unfold data_of. simpl. by rewrite app_nil_r.
    + rewrite Hin, Hpc, Hlpc. split; [right; split; [by intros []|simpl; by rewrite Hi]|].
      intros _. simpl. rewrite Hs. apply top_pos_0.
    + intros id Hid. destruct (Hl id Hid) as (p & c & Hp & Hc & He & _).
      unfold lane, lane_items. by rewrite Hp, Hc, He, (Hnet id Hid).
    + rewrite Hlpc. apply top_pos_0.
Qed.

(** ** The sender's steps *)

Section sender_steps.
Implicit Types (q : queue KSUID) (qpc : Queue.send_pc KSUID) (X inp : list buffer).

Lemma flow_intro q qpc inp X :
  nz (X ++ q_held qpc ++ chan_items (q_buffer q)) = nz inp -> flow q qpc inp X.
Proof.
  intros H. destruct (decide (q_over qpc)); [left|by right]. split; [done|].
  rewrite <- H, nz_app. by apply prefix_app_r.
Qed.

Lemma flow_prefix q qpc inp X : flow q qpc inp X -> nz X `prefix_of` nz inp.
Proof. intros [[_ H]|[_ H]]; [done|]. rewrite <- H, nz_app. by apply prefix_app_r. Qed.

Lemma sender_write q qpc inp X n b c :
  chan_send (q_buffer q) b = SendOk c -> sender q qpc inp X n ->
  sender (set_q_buffer c q) qpc (inp ++ [b]) X n.
Proof.
  intros (_ & _ & Hi & _)%chan_send_inv [Hf Hp]. split; [|done].
  destruct Hf as [[Ho Hf]|[Ho Hf]]; [left|right]; (split; [done|]).
  - rewrite nz_app. by apply prefix_app_r.
  - simpl. rewrite Hi, !app_assoc, nz_app, (nz_app inp), <- Hf, !app_assoc. done.
Qed.

Lemma sender_close q qpc inp X n q' :
  Queue.close q = Some q' -> sender q qpc inp X n -> sender q' qpc inp X n.
Proof.
  intros (Hs & Hw & _ & _ & _ & _ & Hi & _)%Queue.close_inv [Hf Hp]. split.
  - unfold flow in *. by rewrite Hi.
  - intros Ho. specialize (Hp Ho). destruct qpc; simpl in *; by rewrite ?Hs, ?Hw.
Qed.

Lemma sender_step q qpc ev q' qpc' out inp X n :
  q_covered q -> Queue.Send_step q qpc ev = Some (q', qpc', out) -> sender q qpc inp X n ->
  sender q' qpc' inp (X ++ map snd (option_list out)) (n + length (option_list out)) /\
  (forall w b, out = Some (w, b) ->
     (exists id, lane_at (q_sorted q) n = Some id /\ q_writers q !! id = Some w) /\
     (q_over qpc' -> sender q' qpc' inp X n)).
Proof.
  intros Hcov Hstep [Hf Hp].
  destruct (decide (q_over qpc)) as [Ho|Ho].
  { destruct (Queue.Send_step_over _ _ _ _ _ _ Hstep Ho) as [Ho' ->]. simpl.
    rewrite app_nil_r, Nat.add_0_r. split; [|done]. split; [|done].
    left. split; [done|]. by apply flow_prefix in Hf. }
  destruct (Queue.Send_step_pos _ _ _ _ _ _ n Hstep Hcov (Hp Ho)) as [Hpos Hlane].
  destruct Hf as [[]|[_ Hf]]; [done|]. split.
  - split; [|done]. apply flow_intro. rewrite <- Hf.
    apply Queue.Send_step_flow in Hstep as
      [(-> & -> & [[-> ->]|[(w & rest & b & -> & ->)|(rest & b & -> & ->)]])
      |(w & rest & b & -> & -> & -> & [->|(-> & _ & -> & ->)])]; simpl.
    + by rewrite app_nil_r.
    + by rewrite <- app_assoc.
    + destruct (Hp Ho) as (? & ? & [? ?] & _). congruence.
    + by rewrite app_nil_r.
    + rewrite !app_nil_r, nz_app. simpl. by rewrite app_nil_r.
  - intros w b ->. split; [by eapply Hlane|]. intros Ho'. split; [|done].
    left. split; [done|]. rewrite <- Hf, nz_app. by apply prefix_app_r.
Qed.
End sender_steps.

(** ** The sender's side as a whole *)

(** What the sender's side does, whatever the receiver's: it leaves that alone,
    and hands out [sent], each buffer to the connection of its turn. *)
Record sender_moves (s s' : sys) (sent : list buffer) : Prop := {
  sm_q : q_sorted (s_q s') = q_sorted (s_q s) /\ q_writers (s_q s') = q_writers (s_q s);
  sm_rest : s_hub s' = s_hub s /\ s_lpc s' = s_lpc s;
  sm_in : nz (s_in s) `prefix_of` nz (s_in s') /\ data_of (s_in s) `prefix_of` data_of (s_in s') /\
          (no_eof (s_in s) \/ s_in s' = s_in s);
  sm_eof : eof_last (s_in s) -> Forall written (s_in s) ->
           eof_last (s_in s') /\ Forall written (s_in s');
  sm_sent X n : sender (s_q s) (s_qpc s) (s_in s) X n ->
    sender (s_q s') (s_qpc s') (s_in s') (X ++ sent) (n + length sent) /\
    forall id, id ∈ order -> t_pending id (s_net s') = t_pending id (s_net s) ++ stripe order n id sent;
}.

(** The sender's queue has the order, and each connection's writer. *)
Definition q_ready (q : queue KSUID) : Prop :=
  q_sorted q = order /\ (forall id, id ∈ order -> q_writers q !! id = Some id).

Lemma q_ready_covered q : q_ready q -> q_covered q.
Proof. intros [Hs Hw] id Hid. rewrite Hs in Hid. eauto. Qed.

Lemma sender_quiet q qpc t h lpc inp q' qpc' :
  q_sorted q' = q_sorted q -> q_writers q' = q_writers q ->
  (forall X n, sender q qpc inp X n -> sender q' qpc' inp X n) ->
  sender_moves (mkSys q qpc t h lpc inp) (mkSys q' qpc' t h lpc inp) [].
Proof.
  intros Hs Hw Hsn. split; simpl; auto. intros X n HX. rewrite app_nil_r, Nat.add_0_r.
  split; [by apply Hsn|]. intros id _. by rewrite app_nil_r.
Qed.

(** CopyBuffer writes a buffer. *)
Lemma write_moves q qpc t h lpc inp b c :
  no_eof inp -> written b -> chan_send (q_buffer q) b = SendOk c ->
  sender_moves (mkSys q qpc t h lpc inp) (mkSys (set_q_buffer c q) qpc t h lpc (inp ++ [b])) [].
Proof.
  intros Hno Hb Hsend. split; simpl; try done.
  - rewrite nz_app, data_of_app. split_and!; [by apply prefix_app_r..|by left].
  - intros _ Hwr. split; [by apply eof_last_snoc|]. rewrite Forall_app, Forall_cons. done.
  - intros X n Hs. rewrite app_nil_r, Nat.add_0_r. split; [by apply sender_write|].
    intros id _. by rewrite app_nil_r.
Qed.

(** [Send] takes a step, and what it hands out is sent. *)
Lemma send_moves q qpc t h lpc inp ev q' qpc' out :
  q_ready q -> Queue.Send_step q qpc ev = Some (q', qpc', out) ->
  sender_moves (mkSys q qpc t h lpc inp)
    (mkSys q' qpc' (match out with Some (id, b) => t_send id b t | None => t end) h lpc inp)
    (map snd (option_list out)).
Proof.
  intros Hq Hsend. pose proof (q_ready_covered _ Hq) as Hcov. destruct Hq as [Hqs Hqw].
  pose proof (Queue.Send_step_fields _ _ _ _ _ _ Hsend) as (Hs & Hw & _).
  split; simpl; auto. intros X n Hsn.
  destruct (sender_step _ _ _ _ _ _ _ _ _ Hcov Hsend Hsn) as [Hsn' Hlane].
  rewrite length_map. split; [done|]. intros j Hj.
  destruct out as [[id b]|]; simpl; [|by rewrite app_nil_r].
  destruct (Hlane id b eq_refl) as [(id' & Hla & Hid') _].
  rewrite Hqs in Hla. rewrite Hqw in Hid' by (by eapply list_elem_of_lookup_2). simplify_eq.
  rewrite t_send_pending, Hla. repeat case_decide; congruence.
Qed.

Lemma sys_send_moves s s' : q_ready (s_q s) -> sys_send s s' -> exists sent, sender_moves s s' sent.
Proof.
  intros Hq Hstep.
  destruct Hstep as [q qpc t h lpc inp b c Hno Hb Hsend|q qpc t h lpc inp ev q' qpc' Hsend
    |q qpc t h lpc inp e q' qpc' id b Hsend|q qpc t h lpc inp err q' qpc' id b Hsend
    |q qpc t h lpc inp q' Hcl]; simpl in *.
  - eexists. by apply write_moves.
  - eexists. by apply (send_moves _ _ _ _ _ _ _ _ _ _ Hq Hsend).
  - eexists. by apply (send_moves _ _ _ _ _ _ _ _ _ _ Hq Hsend).
  - (* a message is lost *)
    exists []. pose proof (Queue.Send_step_fields _ _ _ _ _ _ Hsend) as (Hs & Hw & _).
    apply sender_quiet; [done..|]. intros X n Hsn.
    destruct (sender_step _ _ _ _ _ _ _ _ _ (q_ready_covered _ Hq) Hsend Hsn) as [_ Hlane].
    destruct (Hlane id b eq_refl) as [_ Hover]. apply Hover. by eapply Send_step_failed.
  - (* close *)
    exists []. pose proof (Queue.close_inv _ _ Hcl) as (Hs & Hw & _).
    apply sender_quiet; [done..|]. intros X n Hsn. by eapply sender_close.
Qed.

Lemma sender_moves_refl s : sender_moves s s [].
Proof.
  split; auto. intros X n HX. rewrite app_nil_r, Nat.add_0_r. split; [done|].
  intros id _. by rewrite app_nil_r.
Qed.

Lemma sender_moves_trans s s1 s2 sent sent' :
  sender_moves s s1 sent -> sender_moves s1 s2 sent' -> sender_moves s s2 (sent ++ sent').
Proof.
  intros [[Q1 W1] [H1 L1] (N1 & D1 & E1) F1 S1] [[Q2 W2] [H2 L2] (N2 & D2 & E2) F2 S2].
  split; [split; congruence|split; congruence| | |].
  - split_and!; [by etrans..|]. destruct E1 as [?|E1]; [by left|]. destruct E2 as [E2|E2]; [|right; congruence].
    left. by rewrite E1 in E2.
  - intros Hl Hw. destruct (F1 Hl Hw) as [Hl1 Hw1]. by apply F2.
  - intros X n HX. destruct (S1 X n HX) as [HX1 P1]. destruct (S2 _ _ HX1) as [HX2 P2].
    rewrite length_app, Nat.add_assoc, app_assoc. split; [done|].
    intros id Hid. by rewrite (P2 id Hid), (P1 id Hid), stripe_app, app_assoc.
Qed.

Lemma sys_sends_moves s s' : q_ready (s_q s) -> rtc sys_send s s' -> exists sent, sender_moves s s' sent.
Proof.
  intros Hq Hr. induction Hr as [s|s s1 s' Hs _ IH]; [exists []; apply sender_moves_refl|].
  destruct (sys_send_moves s s1 Hq Hs) as (sent & Hm).
  destruct IH as (sent' & Hm').
  { unfold q_ready. by destruct (sm_q _ _ _ Hm) as [-> ->]. }
  exists (sent ++ sent'). by eapply sender_moves_trans.
Qed.

(** ** The receiver's steps *)

Section receiver_steps.
Implicit Types (h : LinkHub) (lpc : Link.send_pc) (C P inp : list buffer) (t : T).

(** A write to the connection: it succeeds and the chunk is out, or [Send] is
    over. *)
Lemma write_outcome out0 cn C inp b r conn n err :
  eof_last inp -> Forall written inp -> nz (C ++ [b]) `prefix_of` nz inp ->
  tc_sent cn = out0 ++ data_of C -> tc_eof cn = false -> r <> ConnPanic ->
  safeWrite r (Some cn) (b_data b) (b_eof b) = (conn, (n, err)) ->
  exists cn', conn = Some cn' /\
    ((err = None /\ b_eof b = false /\
        tc_sent cn' = out0 ++ data_of (C ++ [b]) /\ tc_eof cn' = false) \/
     ((is_Some err \/ b_eof b = true) /\
        exists l, tc_sent cn' = out0 ++ l /\ l `prefix_of` data_of inp /\
          (tc_eof cn' = true -> l = data_of inp /\ ~ no_eof inp))).
Proof.
  intros Hlast Hwr Hpre Hout Heof Hr H.
  assert (data_of (C ++ [b]) `prefix_of` data_of inp) as Hdata by by apply nz_prefix_data.
  assert (data_of C `prefix_of` data_of inp) as HC.
  { etrans; [|done]. rewrite data_of_app. by apply prefix_app_r. }
  unfold safeWrite in H. destruct (b_eof b) eqn:Eb.
  - destruct r as [|k e|]; simpl in H; simplify_eq/=; eexists; (split; [done|]); right;
      (split; [by eauto|]); exists (data_of C); split_and!; simpl; try done; try congruence.
    intros _. pose proof (eof_all C inp b Hlast Eb Hpre) as Hall.
    assert (b ∈ inp) as Hin.
    { assert (b ∈ nz inp) as Hin; [|by apply list_elem_of_filter in Hin as [_ Hin]].
      rewrite <- Hall, nz_app, nz_eof by done. set_solver. }
    split.
    + apply (f_equal data_of) in Hall. rewrite !nz_data, data_of_snoc in Hall.
      rewrite Forall_forall in Hwr. by rewrite (Hwr b Hin Eb), app_nil_r in Hall.
    + unfold no_eof. rewrite Forall_forall. intros Hno. specialize (Hno b Hin). congruence.
  - destruct r as [|k e|]; simpl in H; simplify_eq/=; eexists; (split; [done|]).
    + left. simpl. by rewrite data_of_snoc, Hout, <- app_assoc.
    + right. split; [by eauto|]. exists (data_of C ++ take k (b_data b)). simpl.
      split_and!; [by rewrite Hout, <- app_assoc| |congruence].
      etrans; [|exact Hdata]. rewrite data_of_snoc. apply prefix_app, prefix_take.
Qed.

Lemma lane_items_eq h h' id :
  pm_map h' = pm_map h -> (forall p, buf_at h' p = buf_at h p) ->
  lane_items h' id = lane_items h id.
Proof. intros Hm Hb. unfold lane_items. rewrite Hm. by destruct (pm_map h !! id); rewrite ?Hb. Qed.

Lemma lane_eq t h h' id :
  pm_map h' = pm_map h -> (forall p, buf_at h' p = buf_at h p) -> lane t h' id = lane t h id.
Proof. intros. unfold lane. by rewrite (lane_items_eq h h'). Qed.

(** The buffer of one link changes. *)
Lemma lane_items_update h h' id p (c' : chan buffer) id' :
  pm_wf h -> pm_map h' = pm_map h -> pm_map h !! id = Some p ->
  (forall p', buf_at h' p' = if decide (p' = p) then Some c' else buf_at h p') ->
  lane_items h' id' = if decide (id' = id) then chan_items c' else lane_items h id'.
Proof.
  intros [_ Hinj] Hm Hp Hb. unfold lane_items. rewrite Hm. case_decide as Hid.
  - subst. rewrite Hp, Hb, decide_True by done. done.
  - destruct (pm_map h !! id') as [p'|] eqn:Hp'; [|done].
    rewrite Hb, decide_False; [done|]. intros ->. by eapply Hid, Hinj.
Qed.

Lemma alive_finished out0 cn q qpc t h lpc inp C P k h' lpc' :
  alive out0 cn (mkSys q qpc t h lpc inp) C P k -> l_over lpc' ->
  finished out0 cn (mkSys q qpc t h' lpc' inp).
Proof.
  intros [_ [Hout Heof] [Hf _] _ _] Ho. split; [done|]. exists (data_of C). simpl in *.
  split_and!; [done| |congruence].
  apply flow_prefix in Hf. rewrite nz_app in Hf. eapply nz_prefix_data.
  etrans; [|done]. by apply prefix_app_r.
Qed.

(** The links of a hub that the receiver reads from. *)
Definition links_there h : Prop :=
  forall id, id ∈ order -> exists p c, pm_map h !! id = Some p /\ buf_at h p = Some c /\ status_at h p <> Some StaDone.

Lemma links_there_step h lpc ev h' lpc' :
  Link.Send_step me h lpc ev = Some (h', lpc') -> ~ l_over lpc -> links_there h -> links_there h'.
Proof.
  intros Hstep Hno Hmaps id Hid. destruct (Hmaps id Hid) as (p & c & Hp & Hc & Hs).
  pose proof (Link.Send_step_map _ _ _ _ _ _ Hstep) as [-> _]. apply Link.Send_step_kind in Hstep as Hk.
  assert (is_Some (buf_at h' p)) as [c' Hc'].
  { destruct Hk as [o _ _ Hb _|s rest c1 c2 b _ _ _ _ Hb _|rest b r cn1 cn2 n err _ _ _ _ _ Hb _];
      rewrite Hb; try case_decide; eauto. }
  exists p, c'. split_and!; [done..|]. intros Hd. by eapply Hs, Link.Send_step_status.
Qed.

(** A buffer is read from the link of the turn. *)
Lemma alive_read out0 cn q qpc t h inp C P k s rest c c' b h' :
  pm_wf h -> pm_map h' = pm_map h -> links_there h' -> buf_at h s = Some c ->
  chan_recv c = RecvOk b c' \/ chan_recv c = RecvZero /\ b = buffer_zero /\ c' = c ->
  (forall p, buf_at h' p = if decide (p = s) then Some c' else buf_at h p) ->
  alive out0 cn (mkSys q qpc t h (Link.PRead s rest) inp) C P k ->
  exists P', alive out0 cn (mkSys q qpc t h' (Link.PWrite rest b) inp) C P' (S k) /\ P = b :: P'.
Proof.
  intros Hwf Hmap Hmaps' Hbs Hrecv Hb [Hmaps Hout Hs Hl (id & Hid & Hr)]. simpl in *.
  assert (id ∈ order) as Hin by by eapply range_pos_elem.
  pose proof (range_pos_lane _ _ _ _ Hr) as Hlane.
  pose proof (Hl id Hin) as Hlid. unfold lane, lane_items in Hlid. rewrite Hid, Hbs in Hlid.
  destruct Hrecv as [(Hi & _)%chan_recv_ok_inv|([_ Hcl]%chan_recv_zero_inv & _ & _)].
  2: { destruct Hwf as [Hwf _]. destruct (Hwf _ _ Hid) as (l & Hl' & Hop).
       unfold buf_at in Hbs. rewrite Hl' in Hbs. simpl in *. congruence. }
  rewrite Hi in Hlid. simpl in Hlid. symmetry in Hlid.
  destruct (stripe_here _ _ _ _ _ _ Hlane Hlid) as (P' & -> & HP').
  exists P'. split; [|done]. split; simpl; [done|done| | |by eauto with wss].
  - simpl in Hs. by rewrite Nat.add_succ_r in Hs.
  - intros id' Hid'. unfold lane.
    rewrite (lane_items_update h h' id s c' id' Hwf Hmap Hid Hb). case_decide as Hd; [by subst|].
    rewrite <- (stripe_elsewhere order k id' P' b); [by apply Hl|]. congruence.
Qed.

(** What is written to the connection is taken from what the sender was given. *)
Lemma alive_prefix out0 cn q qpc t h rest b inp C P k :
  alive out0 cn (mkSys q qpc t h (Link.PWrite rest b) inp) C P k -> nz (C ++ [b]) `prefix_of` nz inp.
Proof.
  intros [_ _ [Hf _] _ _]. apply flow_prefix in Hf. simpl in Hf.
  rewrite (cons_middle b C P), app_assoc, nz_app in Hf. etrans; [|done]. by apply prefix_app_r.
Qed.

Lemma link_alive out0 cn q qpc t h lpc inp C P k ev h' lpc' :
  sort_at h me = Some order -> conn_at h me = Some (Some cn) -> pm_wf h ->
  eof_last inp -> Forall written inp -> ev <> Link.EvConn ConnPanic ->
  alive out0 cn (mkSys q qpc t h lpc inp) C P k ->
  Link.Send_step me h lpc ev = Some (h', lpc') ->
  exists cn', conn_at h' me = Some (Some cn') /\
    ((exists P' k', alive out0 cn' (mkSys q qpc t h' lpc' inp) (C ++ l_held lpc) P' k' /\
        no_eof (l_held lpc) /\ l_held lpc' ++ P' = P) \/
     finished out0 cn' (mkSys q qpc t h' lpc' inp)).
Proof.
  intros Hsort Hconn Hwf Hlast Hwr Hev Hal Hstep.
  pose proof (Link.Send_step_map _ _ _ _ _ _ Hstep) as [Hmap _].
  pose proof (fun Hno => links_there_step _ _ _ _ _ Hstep Hno (al_maps _ _ _ _ _ _ Hal)) as Hmaps'.
  destruct (Link.Send_step_kind _ _ _ _ _ _ Hstep) as
    [o Ho Hctl Hb Hc|s rest c c' b -> -> Hbs Hrecv Hb Hc|rest b r conn conn' n err -> -> Hcn Hw -> Hb Hc].
  - (* control *)
    exists cn. rewrite Hc. split; [done|]. rewrite Hsort in Ho. simplify_eq.
    destruct Hctl; try (right; by eapply alive_finished).
    all: left; exists P, k; simpl; rewrite app_nil_r; destruct Hal as [_ Hout Hs Hl Hpos]; simpl in *;
      (split; [|by split; [constructor|]]); (split; simpl; [by apply Hmaps'; simpl; tauto|done|done| |]).
    all: try (intros id' Hid'; rewrite (lane_eq t h h') by done; by apply Hl).
    all: try by eauto with wss.
    exists id. by rewrite Hmap.
  - (* read *)
    exists cn. rewrite Hc. split; [done|]. left.
    destruct (alive_read _ _ _ _ _ _ _ _ _ _ _ _ _ _ _ _ Hwf Hmap (Hmaps' (fun H => H)) Hbs Hrecv Hb Hal) as (P' & Hal' & ->).
    exists P', (S k). simpl. rewrite app_nil_r. split; [done|by split; [constructor|]].
  - (* write *)
    rewrite Hconn in Hcn. simplify_eq. pose proof (alive_prefix _ _ _ _ _ _ _ _ _ _ _ _ Hal) as Hpre.
    destruct Hal as [Hmaps [Hout Heof] Hs Hl Hpos]. simpl in *.
    destruct (write_outcome out0 cn C inp b r conn' n err Hlast Hwr Hpre Hout Heof) as (cn' & -> & Hcase);
      [congruence|done|].
    exists cn'. rewrite Hc, decide_True by done. split; [done|].
    destruct Hcase as [(-> & Eb & Hout' & Heof')|(Hor & l & Hl1 & Hl2 & Hl3)].
    + left. rewrite Eb in *. exists P, k. simpl.
      split; [|by split; [repeat constructor|]].
      split; simpl; [by apply Hmaps'; simpl; tauto|done| | |done].
      * by rewrite <- app_assoc.
      * intros id' Hid'. rewrite (lane_eq t h h') by done. by apply Hl.
    + right. split; simpl; [|by exists l].
      destruct err as [e|]; [done|]. destruct Hor as [[? ?]| ->]; done.
Qed.

Lemma link_doomed out0 cn q qpc t h lpc inp C ev h' lpc' :
  sort_at h me = Some order -> conn_at h me = Some (Some cn) ->
  eof_last inp -> Forall written inp -> ev <> Link.EvConn ConnPanic ->
  doomed out0 cn (mkSys q qpc t h lpc inp) C ->
  Link.Send_step me h lpc ev = Some (h', lpc') ->
  exists cn', conn_at h' me = Some (Some cn') /\
    ((exists C, doomed out0 cn' (mkSys q qpc t h' lpc' inp) C) \/
     finished out0 cn' (mkSys q qpc t h' lpc' inp)).
Proof.
  intros Hsort Hconn Hlast Hwr Hev [Hmaps [Hout Heof] Hnext Hr] Hstep. simpl in *.
  pose proof (Link.Send_step_map _ _ _ _ _ _ Hstep) as [Hmap _].
  assert (forall id, id ∈ order -> pm_map h' !! id = None) as Hmaps' by by rewrite Hmap.
  assert (nz C `prefix_of` nz inp) as HC.
  { etrans; [|done]. rewrite nz_app. by apply prefix_app_r. }
  destruct (Link.Send_step_kind _ _ _ _ _ _ Hstep) as
    [o Ho Hctl Hb Hc|s rest c c' b -> -> Hbs Hrecv Hb Hc|rest b r conn conn' n err -> -> Hcn Hw -> Hb Hc].
  - exists cn. rewrite Hc. split; [done|]. rewrite Hsort in Ho. simplify_eq.
    assert (l_over lpc' -> finished out0 cn (mkSys q qpc t h' lpc' inp)) as Hfin.
    { intros Hov. split; [done|]. exists (data_of C). split_and!; [done| |simpl; congruence].
      by apply nz_prefix_data. }
    destruct Hctl; try (by right; apply Hfin).
    all: try (left; exists C; by split; simpl; rewrite ?app_nil_r).
    exfalso. destruct Hr as [pre ->]. specialize (Hmaps id). rewrite Hmaps in *; [done|]. set_solver.
  - exists cn. rewrite Hc. split; [done|]. left. exists C. split; simpl; try done.
    simpl in Hnext. rewrite Hbs in Hnext.
    destruct Hrecv as [(Hi & _)%chan_recv_ok_inv|(_ & -> & _)]; [by rewrite Hi in Hnext|].
    by rewrite nz_app, app_nil_r.
  - rewrite Hconn in Hcn. simplify_eq.
    destruct (write_outcome out0 cn C inp b r conn' n err Hlast Hwr Hnext Hout Heof) as (cn' & -> & Hcase);
      [congruence|done|].
    exists cn'. rewrite Hc, decide_True by done. split; [done|].
    destruct Hcase as [(-> & Eb & Hout' & Heof')|(Hor & l & Hl1 & Hl2 & Hl3)].
    + left. rewrite Eb. exists (C ++ [b]). split; simpl; rewrite ?app_nil_r; try done.
    + right. split; simpl; [|by exists l].
      destruct err as [e|]; [done|]. destruct Hor as [[? ?]| ->]; done.
Qed.

Lemma link_finished out0 cn q qpc t h lpc inp ev h' lpc' :
  conn_at h me = Some (Some cn) ->
  finished out0 cn (mkSys q qpc t h lpc inp) ->
  Link.Send_step me h lpc ev = Some (h', lpc') ->
  conn_at h' me = Some (Some cn) /\ finished out0 cn (mkSys q qpc t h' lpc' inp).
Proof.
  intros Hconn [Ho Hout] Hstep. simpl in *.
  destruct (Link.Send_step_kind _ _ _ _ _ _ Hstep) as
    [o _ Hctl _ Hc|s rest c c' b -> -> _ _ _ _|rest b r conn conn' n err -> _ _ _ _ _ _]; [|done..].
  rewrite Hc. split; [done|]. split; [|done]. simpl. by destruct Hctl.
Qed.

(** Removing the links of an active receiver leaves it no chunk but the one it
    has at hand. *)
Lemma remove_alive out0 cn q qpc t h lpc inp C P k h' :
  at_keeps h h' -> (forall id, id ∈ order -> pm_map h' !! id = None) ->
  alive out0 cn (mkSys q qpc t h lpc inp) C P k ->
  doomed out0 cn (mkSys q qpc t h' lpc inp) C.
Proof.
  intros (Hb & _ & _) Hmaps [_ Hout [Hf _] Hl Hpos]. simpl in *. apply flow_prefix in Hf.
  split; simpl; try done.
  - assert (l_next h' lpc `prefix_of` l_held lpc ++ P) as Hnext.
    { destruct lpc as [| | |rest|s rest|rest b|r|r|r|r]; simpl; try apply prefix_nil.
      2: by exists P.
      destruct Hpos as (id & Hid & Hr). specialize (Hl id (range_pos_elem _ _ _ _ Hr)).
      specialize (Hb s). unfold lane, lane_items in Hl. rewrite Hid in Hl.
      destruct (buf_at h' s) as [c'|], (buf_at h s) as [c|]; simpl in *; try done; try apply prefix_nil.
      injection Hb as ->. destruct (chan_items c) as [|b l]; [apply prefix_nil|]. simpl in *.
      symmetry in Hl. destruct (stripe_here _ _ _ _ _ _ (range_pos_lane _ _ _ _ Hr) Hl) as (P' & -> & _).
      simpl. by exists P'. }
    destruct Hnext as [r Hr]. rewrite Hr, app_assoc, nz_app in Hf.
    etrans; [|exact Hf]. by apply prefix_app_r.
  - destruct lpc as [| | |rest|s rest|rest b|r|r|r|r]; try done; simpl in Hpos.
    + by destruct Hpos.
    + destruct Hpos as (id & _ & Hr). by apply range_pos_next in Hr as [? _].
    + by destruct Hpos.
Qed.
End receiver_steps.

(** ** Preservation *)

Section preservation.
Context (Hmaster : master ∈ order).
Implicit Types (q : queue KSUID) (qpc : Queue.send_pc KSUID) (h : LinkHub) (inp : list buffer) (t : T).

Definition sys_state out0 cn s : Prop :=
  (exists C P k, alive out0 cn s C P k) \/ (exists C, doomed out0 cn s C) \/ finished out0 cn s.

(** A step of the receiver's [Send]. *)
Lemma state_link out0 cn q qpc t h lpc inp ev h' lpc' :
  sort_at h me = Some order -> conn_at h me = Some (Some cn) -> pm_wf h ->
  eof_last inp -> Forall written inp -> ev <> Link.EvConn ConnPanic ->
  Link.Send_step me h lpc ev = Some (h', lpc') ->
  sys_state out0 cn (mkSys q qpc t h lpc inp) ->
  exists cn', conn_at h' me = Some (Some cn') /\ sys_state out0 cn' (mkSys q qpc t h' lpc' inp).
Proof using Type*.
  intros Hsort Hconn Hwf Hlast Hwr Hev Hsend [(C & P & k & Hal)|[(C & Hdm)|Hf]].
  - edestruct link_alive as (cn' & Hcn' & [(P' & k' & Hal' & _)|Hf']); [done..|exists cn'|exists cn'];
      (split; [done|]); [left; by exists (C ++ l_held lpc), P', k'|by right; right].
  - edestruct link_doomed as (cn' & Hcn' & [Hal'|Hf']); [done..|exists cn'|exists cn'];
      (split; [done|]); [by right; left|by right; right].
  - exists cn. edestruct link_finished; [done..|]. split; [done|]. by right; right.
Qed.

(** The receiver's part of an active state stays when the sender advances. *)
Lemma alive_sender out0 cn q qpc t h lpc inp C P k q' qpc' t' inp' sent :
  alive out0 cn (mkSys q qpc t h lpc inp) C P k ->
  sender q' qpc' inp' ((C ++ l_held lpc ++ P) ++ sent) (k + length P + length sent) ->
  (forall id, id ∈ order -> t_pending id t' = t_pending id t ++ stripe order (k + length P) id sent) ->
  alive out0 cn (mkSys q' qpc' t' h lpc inp') C (P ++ sent) k.
Proof.
  intros [Hmaps Hout _ Hl Hpos] Hsn Hnet. simpl in *. split; simpl; try done.
  - by rewrite length_app, !app_assoc, Nat.add_assoc, <- (app_assoc C).
  - intros id Hid. unfold lane in *. rewrite (Hnet id Hid), app_assoc, (Hl id Hid).
    by rewrite stripe_app.
Qed.

(** The websockets: a message taken from a connection goes to its link, if it
    is still there and not over. *)
Lemma state_net out0 cn q qpc t h lpc inp id b t' :
  id ∈ order -> t_recv id t = Some (b, t') ->
  (forall p l, Link.Get id h = Some p -> pm_heap h !! p = Some l -> l_status l = StaDone) ->
  sys_state out0 cn (mkSys q qpc t h lpc inp) -> sys_state out0 cn (mkSys q qpc t' h lpc inp).
Proof.
  intros Hid Hrecv Hdone [(C & P & k & [Hmaps Hout Hsn Hl Hpos])|[(C & [Hmaps Hout Hn Hr])|[Ho Hl]]];
    simpl in *.
  - exfalso. destruct (Hmaps id Hid) as (p & c & Hp & Hc & Hst). apply Hst. unfold status_at, buf_at in *.
    destruct (pm_heap h !! p) as [l|] eqn:Hl'; [|done]. simpl. f_equal. by eapply Hdone.
  - right. left. exists C. by split.
  - right. right. by split.
Qed.

Lemma lane_deliver t h id b t' p l c id' :
  pm_wf h -> t_recv id t = Some (b, t') ->
  Link.Get id h = Some p -> pm_heap h !! p = Some l -> chan_send (l_buffer l) b = SendOk c ->
  lane t' (pm_update p (set_l_buffer c) h) id' = lane t h id'.
Proof.
  intros Hwf [Hpend Hpend']%t_recv_some Hp Hl (_ & _ & Hi & _)%chan_send_inv.
  set (h' := pm_update p (set_l_buffer c) h). unfold Link.Get in Hp.
  assert (forall p', buf_at h' p' = if decide (p' = p) then Some c else buf_at h p') as Hb.
  { intros p'. unfold buf_at, h'. rewrite at_update, Hl. by case_decide. }
  assert (pm_map h' = pm_map h) as Hm by done. unfold lane.
  rewrite (lane_items_update h h' id p c id' Hwf Hm Hp Hb). case_decide as Hd.
  - subst. rewrite Hpend, Hi. unfold lane_items, buf_at. rewrite Hp, Hl. simpl. by rewrite <- app_assoc.
  - by rewrite Hpend'.
Qed.

Lemma alive_deliver out0 cn q qpc t h lpc inp id b t' p l c C P k :
  pm_wf h -> id ∈ order -> t_recv id t = Some (b, t') ->
  Link.Get id h = Some p -> pm_heap h !! p = Some l -> chan_send (l_buffer l) b = SendOk c ->
  alive out0 cn (mkSys q qpc t h lpc inp) C P k ->
  alive out0 cn (mkSys q qpc t' (pm_update p (set_l_buffer c) h) lpc inp) C P k.
Proof.
  intros Hwf Hid Hrecv Hp Hl Hsend [Hmaps Hout Hsn Hl' Hpos]. simpl in *.
  split; simpl; try done.
  - intros id' Hid'. destruct (Hmaps id' Hid') as (p' & c1 & Hp' & Hc' & Hst). exists p'.
    unfold buf_at, status_at in *. rewrite at_update, at_update_same, Hl by done. case_decide; eauto.
  - intros id' Hid'. rewrite <- (Hl' id' Hid'). by eapply lane_deliver.
Qed.

Lemma state_deliver out0 cn q qpc t h lpc inp id b t' p l c :
  pm_wf h -> id ∈ order -> t_recv id t = Some (b, t') ->
  Link.Get id h = Some p -> pm_heap h !! p = Some l -> chan_send (l_buffer l) b = SendOk c ->
  sys_state out0 cn (mkSys q qpc t h lpc inp) ->
  sys_state out0 cn (mkSys q qpc t' (pm_update p (set_l_buffer c) h) lpc inp).
Proof.
  intros Hwf Hid Hr Hp Hl Hs [(C & P & k & Hal)|[(C & [Hmaps Hout Hn Hrg])|[Ho Hl']]]; simpl in *.
  - left. exists C, P, k. by eapply alive_deliver.
  - specialize (Hmaps id Hid). unfold Link.Get in Hp. congruence.
  - right. right. by split.
Qed.

Lemma state_remove out0 cn q qpc t h lpc inp h' :
  pm_wf h -> sort_at h me = Some order -> (forall p, pm_map h !! master = Some p -> p = me) ->
  Link.RemoveAll master h = Some h' ->
  sys_state out0 cn (mkSys q qpc t h lpc inp) -> sys_state out0 cn (mkSys q qpc t h' lpc inp).
Proof using Type*.
  intros Hwf Hsort Hme Hrm. pose proof (RemoveAll_keeps _ _ _ Hrm) as Hk.
  destruct (RemoveAll_ok master h Hwf) as (h1 & E & _ & [Hw _]). rewrite Hrm in E. simplify_eq.
  destruct (pm_map h !! master) as [p|] eqn:Hp.
  - assert (forall id, id ∈ order -> pm_map h1 !! id = None) as Hnone.
    { intros id Hid. rewrite Hw, decide_True; [done|]. unfold pm_deref. rewrite Hp, (Hme p eq_refl).
      unfold sort_at in Hsort. destruct (pm_heap h !! me) as [l|]; [|done].
      injection Hsort as ->. rewrite elem_of_app, list_elem_of_filter.
      destruct (decide (id = master)); set_solver. }
    intros [(C & P & k & Hal)|[(C & [Hmaps Hout Hn Hr])|[Ho Hl]]].
    + right. left. exists C. by eapply remove_alive.
    + specialize (Hmaps master Hmaster). simpl in *. congruence.
    + right. right. by split.
  - unfold Link.RemoveAll, pm_deref in Hrm. rewrite Hp in Hrm. by simplify_eq.
Qed.

(** What the other connections leave alone. *)
Lemma alive_other out0 cn s s' C P k :
  other_step s s' -> alive out0 cn s C P k -> alive out0 cn s' C P k.
Proof.
  intros [q qpc t h lpc inp t' h' Ht _ Hm Hp] [Hmaps Hout Hsn Hl Hpos]. simpl in *.
  assert (forall id p, id ∈ order -> pm_map h !! id = Some p -> pm_heap h' !! p = pm_heap h !! p) as Hq.
  { intros id p Hid E. apply Hp. right. left. eauto. }
  split; simpl; try done.
  - intros id Hid. destruct (Hmaps id Hid) as (p & c & Hi & Hc & Hst). exists p, c.
    unfold buf_at, status_at in *. by rewrite (Hm id Hid), (Hq id p Hid Hi).
  - intros id Hid. rewrite <- (Hl id Hid). unfold lane, lane_items. rewrite (Ht id Hid), (Hm id Hid).
    destruct (pm_map h !! id) as [p|] eqn:E; [|done]. unfold buf_at. by rewrite (Hq id p Hid E).
  - destruct lpc as [| | |rest|s0 rest|rest b|r|r|r|r]; try done. simpl in *.
    destruct Hpos as (id & Hid & Hr). exists id. split; [|done]. rewrite Hm; [done|].
    by eapply range_pos_elem.
Qed.

Lemma state_other out0 cn s s' : other_step s s' -> sys_state out0 cn s -> sys_state out0 cn s'.
Proof.
  intros Ho [(C & P & k & Hal)|[(C & Hd)|[Hov Hl]]].
  - left. exists C, P, k. by eapply alive_other.
  - right. left. exists C. destruct Ho as [q qpc t h lpc inp t' h' Ht _ Hm Hp].
    destruct Hd as [Hmaps Hout Hn Hr]. simpl in *. split; simpl; try done.
    + intros id Hid. rewrite Hm by done. by apply Hmaps.
    + replace (l_next h' lpc) with (l_next h lpc); [done|].
      destruct lpc as [| | |rest|s0 rest|rest b|r|r|r|r]; try done. simpl. unfold buf_at.
      rewrite Hp; [done|]. right. right. by exists rest.
  - right. right. destruct Ho. by split.
Qed.

(** The receiver's part of the state stays if the sender's advances. *)
Lemma state_sender out0 cn s s' sent :
  sender_moves s s' sent -> sys_state out0 cn s -> sys_state out0 cn s'.
Proof.
  destruct s as [q qpc t h lpc inp], s' as [q' qpc' t' h' lpc' inp'].
  intros [_ [Eh El] (Hnz & Hdata & Hno) _ Hs]. simpl in Eh, El, Hnz, Hdata, Hno, Hs. subst h' lpc'.
  intros [(C & P & k & Hal)|[(C & [Hmaps Hout Hn Hr])|[Ho (l & Hl1 & Hl2 & Hl3)]]]; simpl in *.
  - left. exists C, (P ++ sent), k. destruct (Hs _ _ (al_sender _ _ _ _ _ _ Hal)) as [Hsn' Hnet].
    by eapply (alive_sender out0 cn q qpc t h lpc inp).
  - right. left. exists C. split; simpl; try done. by etrans.
  - right. right. split; simpl; [done|]. exists l. split_and!; [done|by etrans|].
    intros Heof. destruct (Hl3 Heof) as [-> Hne]. destruct Hno as [?| ->]; [done|]. done.
Qed.

Lemma sys_step_inv out0 s cn s' :
  sys_inv out0 s cn -> sys_step s s' -> exists cn', sys_inv out0 s' cn'.
Proof using Type*.
  intros [[Hqs Hqw] Hwf [Hsort Hconn] Hme [Hlast Hwr] Hst] Hstep.
  destruct Hstep as [s s' Hsend|q qpc t h lpc inp id b t' p l c Hid Hrecv Hp Hl Hsend
    |q qpc t h lpc inp id b t' p l Hid Hrecv Hp Hl Hdone|q qpc t h lpc inp id b t' Hid Hrecv Hp
    |q qpc t h lpc inp ev h' lpc' Hev Hsend|q qpc t h lpc inp h' Hrm|s1 s1' Hother]; simpl in *.
  - (* the sender *)
    exists cn. destruct (sys_send_moves s s' (conj Hqs Hqw) Hsend) as (sent & Hmv).
    pose proof (state_sender out0 cn _ _ _ Hmv Hst) as Hst'. destruct Hmv as [[Es Ew] [Eh El] _ Heof _].
    split; rewrite ?Es, ?Ew, ?Eh; auto.
  - (* deliver *)
    exists cn. split; simpl; try done.
    + apply pm_wf_update; [|done]. intros l1 Hl1 Ho. apply chan_send_inv in Hsend as (_ & E & _). done.
    + unfold sort_at, conn_at. by rewrite !at_update_same.
    + by eapply state_deliver.
  - (* refuse *)
    exists cn. split; simpl; try done. eapply state_net; [done..| |done].
    intros p1 l1 Hp1 Hl1. congruence.
  - (* no link *)
    exists cn. split; simpl; try done. eapply state_net; [done..| |done].
    intros p1 l1 Hp1 Hl1. congruence.
  - (* link.Send *)
    pose proof (Link.Send_step_map _ _ _ _ _ _ Hsend) as [Hm Hso].
    destruct (state_link _ _ _ _ _ _ _ _ _ _ _ Hsort Hconn Hwf Hlast Hwr Hev Hsend Hst) as (cn' & Hcn' & Hst').
    exists cn'. split; simpl; rewrite ?Hso, ?Hm; try done. by eapply Link.Send_step_wf.
  - (* the links are removed *)
    pose proof (RemoveAll_keeps _ _ _ Hrm) as (_ & Hkc & Hks).
    destruct (RemoveAll_ok master h Hwf) as (h1 & E & Hwf' & [Hw _]). rewrite Hrm in E. simplify_eq.
    exists cn. split; simpl; rewrite ?Hkc, ?Hks; try done.
    + intros p. rewrite Hw. case_decide; [done|]. apply Hme.
    + exact (state_remove _ _ _ _ _ _ _ _ _ Hwf Hsort Hme Hrm Hst).
  - (* another connection *)
    exists cn. pose proof (state_other _ _ _ _ Hother Hst) as Hst'.
    destruct Hother as [q qpc t h lpc inp t' h' Ht Hwf' Hm Hp]. simpl in *.
    pose proof (Hp me (or_introl eq_refl)) as Ep. unfold sort_at, conn_at in *.
    split; simpl; unfold sort_at, conn_at; rewrite ?Ep; try done.
    intros p. rewrite (Hm master Hmaster). apply Hme.
Qed.
End preservation.
Lemma sys_steps_inv out0 s s' cn :
  master ∈ order -> sys_inv out0 s cn -> rtc sys_step s s' -> exists cn', sys_inv out0 s' cn'.
Proof.
  intros Hm Hinv Hr. revert cn Hinv. induction Hr as [s|s s1 s' Hs Hr IH]; intros cn Hinv; [eauto|].
  destruct (sys_step_inv Hm _ _ _ _ Hinv Hs) as [cn1 Hinv1]. eauto.
Qed.

(** What the invariant says of the receiver's TCP connection. *)
Definition streamed (conn : TCPConn) (s : sys) : Prop :=
  exists cn l, conn_at (s_hub s) me = Some (Some cn) /\ tc_sent cn = tc_sent conn ++ l /\
    l `prefix_of` data_of (s_in s) /\
    (tc_eof cn = true -> l = data_of (s_in s) /\ ~ no_eof (s_in s)).

Lemma sys_inv_streamed conn s cn : sys_inv (tc_sent conn) s cn -> streamed conn s.
Proof.
  intros [_ _ [_ Hconn] _ [Hlast Hwr] Hst]. exists cn.
  destruct Hst as [(C & P & k & [_ [Ho He] [Hf _] _ _])|[(C & [_ [Ho He] Hn _])|[_ (l & ? & ? & ?)]]].
  - exists (data_of C). split_and!; [done..| |congruence].
    apply flow_prefix in Hf. rewrite nz_app in Hf. eapply nz_prefix_data.
    etrans; [|exact Hf]. by apply prefix_app_r.
  - exists (data_of C). split_and!; [done..| |congruence].
    rewrite nz_app in Hn. eapply nz_prefix_data. etrans; [|exact Hn]. by apply prefix_app_r.
  - by exists l.
Qed.

Lemma sys_stream conn s s' cn :
  master ∈ order -> sys_inv (tc_sent conn) s cn -> rtc sys_step s s' -> streamed conn s'.
Proof.
  intros Hm Hinv Hr. destruct (sys_steps_inv _ _ _ _ Hm Hinv Hr) as (cn' & Hinv').
  by eapply sys_inv_streamed.
Qed.
End striping.
