(* ===== verification/Lossy.v ===== *)
(** The stream of Striping.v when dispatchers give up on a full link.

    A dispatcher hands a chunk to [link.Write], which waits for room in the
    link's buffer and gives up when its timer fires; the result is ignored
    (wss/proxy_server.go, wss/wssocks_client.go), so the chunk is gone and the
    dispatcher goes on with the next message.  [lossy_step] adds this step to
    [sys_step] and records the websockets that have lost a chunk; the theorem
    says what the receiver writes to its TCP connection in any such run. *)
From S2P Require Import Prelude GoChan Pipe RoundRobin PtrMap Queue Link Striping.

Section lossy.
Context {K : Ksuid} {T : Type} `{!Transport T}.
Context (order : list KSUID) (master : KSUID) (me : nat).
Implicit Types (q : queue KSUID) (qpc : Queue.send_pc KSUID) (h : LinkHub) (lpc : Link.send_pc)
  (C D X inp : list buffer) (t : T) (lost : list KSUID).

(** The system and the connections on which a chunk has been lost. *)
Inductive lossy_step : @sys K T * list KSUID -> @sys K T * list KSUID -> Prop :=
  | ls_step s s' lost : sys_step order master me s s' -> lossy_step (s, lost) (s', lost)
  (* [link.Write] has waited until its timer fired; what happened to the link in
     the meantime are steps of their own *)
  | ls_drop q qpc t h lpc inp id b t' p l lost :
      id ∈ order -> t_recv id t = Some (b, t') ->
      Link.Get id h = Some p -> pm_heap h !! p = Some l ->
      Link.writeBuf (Link.mkWriteEnv [] true) l b = Some (l, (0%Z, Some (errors_New "write timeout"))) ->
      lossy_step (mkSys q qpc t h lpc inp, lost) (mkSys q qpc t' h lpc inp, id :: lost).

(** ** What is taken from the connections, against what was dealt to them *)

(** The chunks [D], taken in this order, against the chunks given to the queue: of
    the sequence [X] that the sender has dealt out, a connection without a loss
    has delivered the first chunks, any other some of its chunks in their
    order. *)
Definition dealt lost inp D : Prop :=
  exists X, nz X `prefix_of` nz inp /\
    forall id, id ∈ order ->
      stripe order 0 id D `sublist_of` stripe order 0 id X /\
      (id ∉ lost -> stripe order 0 id D `prefix_of` stripe order 0 id X).

(** The same, with all that the connection has on its way. *)
Definition carries lost id (l k : list buffer) : Prop :=
  l `sublist_of` k /\ (id ∉ lost -> l = k).

Lemma carries_app lost id l k r : carries lost id l k -> carries lost id (l ++ r) (k ++ r).
Proof. intros [Hs He]. split; [by apply sublist_app|]. intros Hid. by rewrite He. Qed.

Lemma carries_lost lost id id' l k : carries lost id l k -> carries (id' :: lost) id l k.
Proof. intros [Hs He]. split; [done|]. intros Hid. apply He. set_solver. Qed.

Lemma dealt_lost lost inp D id : dealt lost inp D -> dealt (id :: lost) inp D.
Proof.
  intros (X & HX & Hd). exists X. split; [done|]. intros j Hj. destruct (Hd j Hj) as [Hs Hp].
  split; [done|]. intros Hn. apply Hp. set_solver.
Qed.

Lemma dealt_grows lost inp inp' D : nz inp `prefix_of` nz inp' -> dealt lost inp D -> dealt lost inp' D.
Proof. intros Hin (X & HX & Hd). exists X. split; [by etrans|done]. Qed.

Lemma dealt_first lost inp D D' : dealt lost inp (D ++ D') -> dealt lost inp D.
Proof.
  intros (X & HX & Hd). exists X. split; [done|]. intros id Hid. destruct (Hd id Hid) as [Hs Hp].
  rewrite stripe_app in Hs, Hp. split.
  - etrans; [|exact Hs]. by apply sublist_inserts_r.
  - intros Hn. etrans; [|by apply Hp]. by apply prefix_app_r.
Qed.

Lemma stripe_elem {A} k id (P : list A) x : x ∈ stripe order k id P -> x ∈ P.
Proof.
  revert k. induction P as [|y P IH]; intros k; simpl; [done|]. case_decide; set_solver.
Qed.

Lemma elem_stripe {A} k (P : list A) x :
  order <> [] -> x ∈ P -> exists id, id ∈ order /\ x ∈ stripe order k id P.
Proof.
  intros Hne. revert k. induction P as [|y P IH]; intros k; [set_solver|].
  destruct (lane_at_some order k Hne) as [id0 Hk].
  intros [->|Hx]%elem_of_cons.
  - exists id0. split; [by eapply list_elem_of_lookup_2|]. simpl. rewrite decide_True by done. set_solver.
  - destruct (IH (S k) Hx) as (id & Hid & Hs). exists id. split; [done|]. simpl.
    case_decide; set_solver.
Qed.

(** The end of file does not come from nowhere. *)
Lemma dealt_eof lost inp D b :
  order <> [] -> dealt lost inp (D ++ [b]) -> b_eof b = true -> ~ no_eof inp.
Proof.
  intros Hne (X & HX & Hd) Hb Hno. assert (b ∈ D ++ [b]) as Hin by set_solver.
  destruct (elem_stripe 0 _ _ Hne Hin) as (id & Hid & Hs). destruct (Hd id Hid) as [Hsub _].
  assert (b ∈ X) as HbX. { eapply stripe_elem, elem_of_submseteq; [exact Hs|]. by apply sublist_submseteq. }
  assert (b ∈ nz X) as HnX. { apply list_elem_of_filter. split; [|done]. by intros ->. }
  destruct HX as [r Hr]. assert (b ∈ nz inp) as Hni by (rewrite Hr; set_solver).
  apply list_elem_of_filter in Hni as [_ Hni]. unfold no_eof in Hno. rewrite Forall_forall in Hno.
  specialize (Hno b Hni). congruence.
Qed.

(** ** The invariant *)

(** The receiver is at work: it has written the chunks [C], and the sender has
    dealt [X]. *)
Record working (out0 : bytes) (cn : TCPConn) (s : @sys K T) lost C X : Prop := {
  wk_maps : links_there order (s_hub s);
  wk_out : tc_sent cn = out0 ++ data_of C /\ tc_eof cn = false;
  wk_sender : sender (s_q s) (s_qpc s) (s_in s) X (length X);
  wk_lanes id : id ∈ order ->
    carries lost id (stripe order 0 id (C ++ l_held (s_lpc s)) ++ lane (s_net s) (s_hub s) id)
      (stripe order 0 id X);
  wk_pos : l_pos order (s_hub s) (s_lpc s) (length (C ++ l_held (s_lpc s)));
}.

(** Its links are gone; it may have one more chunk to write. *)
Record cut_off (out0 : bytes) (cn : TCPConn) (s : @sys K T) lost C : Prop := {
  co_maps : forall id, id ∈ order -> pm_map (s_hub s) !! id = None;
  co_out : tc_sent cn = out0 ++ data_of C /\ tc_eof cn = false;
  co_next : dealt lost (s_in s) (C ++ nz (l_next (s_hub s) (s_lpc s)));
  co_range : match s_lpc s with
             | Link.PRange rest | Link.PRead _ rest | Link.PWrite rest _ => rest `suffix_of` order
             | _ => True
             end;
}.

(** What is out, once no more is to come. *)
Definition settled (out0 : bytes) (cn : TCPConn) lost inp : Prop :=
  exists l D, tc_sent cn = out0 ++ l /\ l `prefix_of` data_of D /\ dealt lost inp D /\
    (tc_eof cn = true -> ~ no_eof inp).

Definition lossy_state out0 cn (s : @sys K T) lost : Prop :=
  (exists C X, working out0 cn s lost C X) \/ (exists C, cut_off out0 cn s lost C) \/
  (l_over (s_lpc s) /\ settled out0 cn lost (s_in s)).

Record lossy_inv (out0 : bytes) (s : @sys K T) lost (cn : TCPConn) : Prop := {
  lv_q : q_ready order (s_q s);
  lv_hub : pm_wf (s_hub s);
  lv_me : sort_at (s_hub s) me = Some order /\ conn_at (s_hub s) me = Some (Some cn);
  lv_master : forall p, pm_map (s_hub s) !! master = Some p -> p = me;
  lv_state : lossy_state out0 cn s lost;
}.

Lemma working_dealt out0 cn s lost C X :
  working out0 cn s lost C X -> dealt lost (s_in s) (C ++ l_held (s_lpc s)).
Proof.
  intros [_ _ [Hf _] Hl _]. exists X. split; [by eapply flow_prefix|].
  intros id Hid. destruct (Hl id Hid) as [Hs He]. split.
  - etrans; [|exact Hs]. by apply sublist_inserts_r.
  - intros Hn. rewrite <- He by done. by apply prefix_app_r.
Qed.

Lemma working_settled out0 cn s lost C X :
  working out0 cn s lost C X -> settled out0 cn lost (s_in s).
Proof.
  intros Hw. pose proof (working_dealt _ _ _ _ _ _ Hw) as Hd. destruct Hw as [_ [Ho He] _ _ _].
  exists (data_of C), C. split_and!; [done..|by eapply dealt_first|congruence].
Qed.

Lemma cut_off_settled out0 cn s lost C : cut_off out0 cn s lost C -> settled out0 cn lost (s_in s).
Proof.
  intros [_ [Ho He] Hd _]. exists (data_of C), C. split_and!; [done..|by eapply dealt_first|congruence].
Qed.

Lemma lossy_settled out0 cn s lost : lossy_state out0 cn s lost -> settled out0 cn lost (s_in s).
Proof.
  intros [(C & X & H)|[(C & H)|[_ H]]]; [by eapply working_settled|by eapply cut_off_settled|done].
Qed.

Lemma settled_grows out0 cn lost inp inp' :
  nz inp `prefix_of` nz inp' -> (no_eof inp \/ inp' = inp) ->
  settled out0 cn lost inp -> settled out0 cn lost inp'.
Proof.
  intros Hin Hno (l & D & Ho & Hl & Hd & He). exists l, D. split_and!; [done..|by eapply dealt_grows|].
  intros Heof. destruct Hno as [Hno| ->]; [by destruct (He Heof)|by apply He].
Qed.

(** ** The receiver's [Send] *)

(** A write to the connection: the chunk is out, or [Send] is over with a part of
    it, or it was the end of file. *)
Lemma write_lossy out0 cn lost C inp b r conn n err :
  order <> [] -> dealt lost inp (C ++ [b]) ->
  tc_sent cn = out0 ++ data_of C -> tc_eof cn = false -> r <> ConnPanic ->
  safeWrite r (Some cn) (b_data b) (b_eof b) = (conn, (n, err)) ->
  exists cn', conn = Some cn' /\
    ((err = None /\ b_eof b = false /\ tc_sent cn' = out0 ++ data_of (C ++ [b]) /\ tc_eof cn' = false) \/
     ((is_Some err \/ b_eof b = true) /\ settled out0 cn' lost inp)).
Proof.
  intros Hne Hd Hout Heof Hr H. unfold safeWrite in H. destruct (b_eof b) eqn:Eb.
  - pose proof (dealt_eof _ _ _ _ Hne Hd Eb) as Hsig.
    destruct r as [|k e|]; simpl in H; simplify_eq/=; eexists; (split; [done|]); right;
      (split; [by eauto|]); exists (data_of C), C; split_and!; simpl; try done;
      try (by eapply dealt_first); try congruence.
  - destruct r as [|k e|]; simpl in H; simplify_eq/=; eexists; (split; [done|]).
    + left. simpl. by rewrite data_of_snoc, Hout, <- app_assoc.
    + right. split; [by eauto|]. exists (data_of C ++ take k (b_data b)), (C ++ [b]). simpl.
      split_and!; [by rewrite Hout, <- app_assoc| |done|congruence].
      rewrite data_of_snoc. apply prefix_app, prefix_take.
Qed.

Lemma working_read out0 cn q qpc t h inp lost C X s rest c c' b h' :
  pm_wf h -> pm_map h' = pm_map h -> links_there order h' -> buf_at h s = Some c ->
  chan_recv c = RecvOk b c' \/ chan_recv c = RecvZero /\ b = buffer_zero /\ c' = c ->
  (forall p, buf_at h' p = if decide (p = s) then Some c' else buf_at h p) ->
  working out0 cn (mkSys q qpc t h (Link.PRead s rest) inp) lost C X ->
  working out0 cn (mkSys q qpc t h' (Link.PWrite rest b) inp) lost C X.
Proof.
  intros Hwf Hmap Hmaps' Hbs Hrecv Hb [Hmaps Hout Hs Hl Hpos]. simpl in *.
  rewrite app_nil_r in Hpos. destruct Hpos as (id & Hid & Hr).
  assert (id ∈ order) as Hin by by eapply range_pos_elem.
  pose proof (range_pos_lane _ _ _ _ Hr) as Hlane.
  destruct Hrecv as [(Hi & _)%chan_recv_ok_inv|([_ Hcl]%chan_recv_zero_inv & _ & _)].
  2: { destruct Hwf as [Hwf _]. destruct (Hwf _ _ Hid) as (l & Hl' & Hop).
       unfold buf_at in Hbs. rewrite Hl' in Hbs. simpl in *. congruence. }
  split; simpl; [done|done|done| |].
  - intros id' Hid'. specialize (Hl id' Hid'). rewrite app_nil_r in Hl.
    rewrite stripe_snoc. simpl. unfold lane in *.
    rewrite (lane_items_update h h' id s c' id' Hwf Hmap Hid Hb). case_decide as Hd.
    + simplify_eq. rewrite decide_True by done. unfold lane_items in Hl. rewrite Hid, Hbs, Hi in Hl.
      simpl in Hl. by rewrite <- app_assoc.
    + rewrite decide_False by congruence. by rewrite app_nil_r.
  - rewrite length_app, Nat.add_1_r. by eauto with wss.
Qed.

Lemma link_working out0 cn q qpc t h lpc inp lost C X ev h' lpc' :
  order <> [] -> sort_at h me = Some order -> conn_at h me = Some (Some cn) -> pm_wf h ->
  ev <> Link.EvConn ConnPanic ->
  working out0 cn (mkSys q qpc t h lpc inp) lost C X ->
  Link.Send_step me h lpc ev = Some (h', lpc') ->
  exists cn', conn_at h' me = Some (Some cn') /\ lossy_state out0 cn' (mkSys q qpc t h' lpc' inp) lost.
Proof.
  intros Hne Hsort Hconn Hwf Hev Hwk Hstep.
  pose proof (Link.Send_step_map _ _ _ _ _ _ Hstep) as [Hmap _].
  pose proof (fun Hno => links_there_step _ _ _ _ _ _ _ Hstep Hno (wk_maps _ _ _ _ _ _ Hwk)) as Hmaps'.
  pose proof (working_settled _ _ _ _ _ _ Hwk) as Hset. simpl in Hset.
  destruct (Link.Send_step_kind _ _ _ _ _ _ Hstep) as
    [o Ho Hctl Hb Hc|s rest c c' b -> -> Hbs Hrecv Hb Hc|rest b r conn conn' n err -> -> Hcn Hw -> Hb Hc].
  - exists cn. rewrite Hc. split; [done|]. rewrite Hsort in Ho. simplify_eq.
    destruct Hctl; try (by right; right).
    all: left; exists C, X; destruct Hwk as [_ Hout Hs Hl Hpos]; simpl in *;
      (split; simpl; [by apply Hmaps'; simpl; tauto|done|done| |]).
    all: try (intros id' Hid'; rewrite (lane_eq t h h') by done; by apply Hl).
    all: rewrite ?app_nil_r in *; try by eauto with wss.
    exists id. by rewrite Hmap.
  - exists cn. rewrite Hc. split; [done|]. left. exists C, X.
    exact (working_read _ _ _ _ _ _ _ _ _ _ _ _ _ _ _ _ Hwf Hmap (Hmaps' (fun H => H)) Hbs Hrecv Hb Hwk).
  - rewrite Hconn in Hcn. simplify_eq. pose proof (working_dealt _ _ _ _ _ _ Hwk) as Hd.
    destruct Hwk as [Hmaps [Hout Heof] Hs Hl Hpos]. simpl in *.
    destruct (write_lossy out0 cn lost C inp b r conn' n err Hne Hd Hout Heof) as (cn' & -> & Hcase);
      [congruence|done|].
    exists cn'. rewrite Hc, decide_True by done. split; [done|].
    destruct Hcase as [(-> & Eb & Hout' & Heof')|(Hor & Hs')].
    + left. rewrite Eb in *. exists (C ++ [b]), X.
      split; simpl; rewrite ?app_nil_r; [by apply Hmaps'; simpl; tauto|done|done| |done].
      intros id' Hid'. rewrite (lane_eq t h h') by done. by apply Hl.
    + right. right. split; simpl; [|done].
      destruct err as [e|]; [done|]. destruct Hor as [[? ?]| ->]; done.
Qed.

Lemma link_cut_off out0 cn q qpc t h lpc inp lost C ev h' lpc' :
  order <> [] -> sort_at h me = Some order -> conn_at h me = Some (Some cn) ->
  ev <> Link.EvConn ConnPanic ->
  cut_off out0 cn (mkSys q qpc t h lpc inp) lost C ->
  Link.Send_step me h lpc ev = Some (h', lpc') ->
  exists cn', conn_at h' me = Some (Some cn') /\ lossy_state out0 cn' (mkSys q qpc t h' lpc' inp) lost.
Proof.
  intros Hne Hsort Hconn Hev Hco Hstep.
  pose proof (cut_off_settled _ _ _ _ _ Hco) as Hset. destruct Hco as [Hmaps [Hout Heof] Hnext Hr].
  simpl in *. pose proof (Link.Send_step_map _ _ _ _ _ _ Hstep) as [Hmap _].
  assert (forall id, id ∈ order -> pm_map h' !! id = None) as Hmaps' by by rewrite Hmap.
  destruct (Link.Send_step_kind _ _ _ _ _ _ Hstep) as
    [o Ho Hctl Hb Hc|s rest c c' b -> -> Hbs Hrecv Hb Hc|rest b r conn conn' n err -> -> Hcn Hw -> Hb Hc].
  - exists cn. rewrite Hc. split; [done|]. rewrite Hsort in Ho. simplify_eq.
    destruct Hctl; try (by right; right).
    all: simpl in *; try (right; left; exists C; by split; simpl; rewrite ?app_nil_r in *).
    exfalso. destruct Hr as [pre ->]. specialize (Hmaps id). rewrite Hmaps in *; [done|]. set_solver.
  - exists cn. rewrite Hc. split; [done|]. right. left. exists C. split; simpl; try done.
    simpl in Hnext. rewrite Hbs in Hnext.
    destruct Hrecv as [(Hi & _)%chan_recv_ok_inv|(_ & -> & _)]; [by rewrite Hi in Hnext|].
    change (nz [buffer_zero]) with (@nil buffer). rewrite app_nil_r. by eapply dealt_first.
  - rewrite Hconn in Hcn. simplify_eq. simpl in Hnext.
    destruct (decide (b = buffer_zero)) as [->|Hnz].
    + (* a link that is closed and empty *)
      assert (exists cn', conn' = Some cn' /\ tc_sent cn' = tc_sent cn /\ tc_eof cn' = false)
        as (cn' & -> & Hs' & He').
      { unfold safeWrite in Hw. simpl in Hw. destruct r; simplify_eq/=; try done;
          eexists; (split; [done|]); simpl; by rewrite ?take_nil, ?app_nil_r. }
      exists cn'. rewrite Hc, decide_True by done. split; [done|]. simpl.
      destruct err as [e|].
      * right. right. split; [done|]. destruct Hset as (l & D & Ho & Hl & Hd & He). exists l, D.
        split_and!; [congruence|done|done|congruence].
      * right. left. exists C. split; simpl; rewrite ?Hs'; try done.
    + assert (nz [b] = [b]) as Ez by (unfold nz; by rewrite filter_cons, decide_True).
      rewrite Ez in Hnext.
      destruct (write_lossy out0 cn lost C inp b r conn' n err Hne Hnext Hout Heof) as (cn' & -> & Hcase);
        [congruence|done|].
      exists cn'. rewrite Hc, decide_True by done. split; [done|].
      destruct Hcase as [(-> & Eb & Hout' & Heof')|(Hor & Hs')].
      * right. left. rewrite Eb. exists (C ++ [b]). split; simpl; rewrite ?app_nil_r; done.
      * right. right. split; simpl; [|done].
        destruct err as [e|]; [done|]. destruct Hor as [[? ?]| ->]; done.
Qed.

Lemma link_lossy out0 cn q qpc t h lpc inp lost ev h' lpc' :
  order <> [] -> sort_at h me = Some order -> conn_at h me = Some (Some cn) -> pm_wf h ->
  ev <> Link.EvConn ConnPanic ->
  Link.Send_step me h lpc ev = Some (h', lpc') ->
  lossy_state out0 cn (mkSys q qpc t h lpc inp) lost ->
  exists cn', conn_at h' me = Some (Some cn') /\ lossy_state out0 cn' (mkSys q qpc t h' lpc' inp) lost.
Proof.
  intros Hne Hsort Hconn Hwf Hev Hstep [(C & X & H)|[(C & H)|[Ho Hset]]].
  - by eapply link_working.
  - by eapply link_cut_off.
  - exists cn. simpl in *.
    destruct (Link.Send_step_kind _ _ _ _ _ _ Hstep) as
      [o _ Hctl _ Hc|s rest c c' b -> -> _ _ _ _|rest b r conn conn' n err -> _ _ _ _ _ _]; [|done..].
    rewrite Hc. split; [done|]. right. right. split; [|done]. simpl. by destruct Hctl.
Qed.

(** ** The other steps *)

(** The sender's side moves on. *)
Lemma lossy_sender out0 cn s s' sent lost :
  sender_moves order s s' sent -> lossy_state out0 cn s lost -> lossy_state out0 cn s' lost.
Proof.
  destruct s as [q qpc t h lpc inp], s' as [q' qpc' t' h' lpc' inp'].
  intros [_ [Eh El] (Hnz & _ & Hno) _ Hs]. simpl in Eh, El, Hnz, Hno, Hs. subst h' lpc'.
  intros [(C & X & [Hmaps Hout Hsn Hl Hpos])|[(C & [Hmaps Hout Hn Hr])|[Ho Hset]]]; simpl in *.
  - left. exists C, (X ++ sent). destruct (Hs _ _ Hsn) as [Hsn' Hnet].
    split; simpl; [done|done|by rewrite length_app| |done].
    intros id Hid. specialize (Hl id Hid). unfold lane in *.
    rewrite (stripe_app _ _ _ X), (Hnet id Hid), !app_assoc. apply carries_app. by rewrite <- app_assoc.
  - right. left. exists C. split; simpl; try done. by eapply dealt_grows.
  - right. right. split; [done|]. by eapply settled_grows.
Qed.

(** A message is delivered to its link. *)
Lemma lossy_deliver out0 cn q qpc t h lpc inp id b t' p l c lost :
  pm_wf h -> id ∈ order -> t_recv id t = Some (b, t') ->
  Link.Get id h = Some p -> pm_heap h !! p = Some l -> chan_send (l_buffer l) b = SendOk c ->
  lossy_state out0 cn (mkSys q qpc t h lpc inp) lost ->
  lossy_state out0 cn (mkSys q qpc t' (pm_update p (set_l_buffer c) h) lpc inp) lost.
Proof.
  intros Hwf Hid Hr Hp Hl Hs [(C & X & [Hmaps Hout Hsn Hl' Hpos])|[(C & [Hmaps _ _ _])|H]]; simpl in *.
  - left. exists C, X. split; simpl; try done.
    + intros id' Hid'. destruct (Hmaps id' Hid') as (p' & c1 & Hp' & Hc' & Hst). exists p'.
      unfold buf_at, status_at in *. rewrite at_update, at_update_same, Hl by done. case_decide; eauto.
    + intros id' Hid'. erewrite lane_deliver by done. by apply Hl'.
  - specialize (Hmaps id Hid). unfold Link.Get in Hp. congruence.
  - by right; right.
Qed.

(** A message has no link to go to, or its [Send] is over. *)
Lemma lossy_nolink out0 cn q qpc t h lpc inp id b t' lost :
  id ∈ order -> t_recv id t = Some (b, t') ->
  (forall p l, Link.Get id h = Some p -> pm_heap h !! p = Some l -> l_status l = StaDone) ->
  lossy_state out0 cn (mkSys q qpc t h lpc inp) lost -> lossy_state out0 cn (mkSys q qpc t' h lpc inp) lost.
Proof.
  intros Hid Hrecv Hdone [(C & X & [Hmaps _ _ _ _])|[(C & [Hmaps Hout Hn Hr])|H]]; simpl in *.
  - exfalso. destruct (Hmaps id Hid) as (p & c & Hp & Hc & Hst). apply Hst. unfold status_at, buf_at in *.
    destruct (pm_heap h !! p) as [l|] eqn:Hl'; [|done]. simpl. f_equal. by eapply Hdone.
  - right. left. exists C. by split.
  - by right; right.
Qed.

(** A message is lost. *)
Lemma lossy_drop out0 cn q qpc t h lpc inp id b t' lost :
  t_recv id t = Some (b, t') ->
  lossy_state out0 cn (mkSys q qpc t h lpc inp) lost ->
  lossy_state out0 cn (mkSys q qpc t' h lpc inp) (id :: lost).
Proof.
  intros [Hpend Hpend']%t_recv_some [(C & X & [Hmaps Hout Hsn Hl Hpos])|[(C & [Hmaps Hout Hn Hr])|[Ho Hs]]];
    simpl in *.
  - left. exists C, X. split; simpl; try done. intros id' Hid'. specialize (Hl id' Hid').
    unfold lane in *. destruct (decide (id' = id)) as [->|Hne].
    + destruct Hl as [Hl _]. split; [|intros []; set_solver]. etrans; [|exact Hl].
      rewrite Hpend. apply sublist_app; [done|]. apply sublist_app; [done|]. by apply sublist_cons.
    + rewrite Hpend' by done. by apply carries_lost.
  - right. left. exists C. split; simpl; try done. by apply dealt_lost.
  - right. right. split; [done|]. destruct Hs as (l & D & ? & ? & ? & ?). exists l, D.
    split_and!; [done..|by apply dealt_lost|done].
Qed.

(** The chunk that a receiver at work will read next. *)
Lemma working_next out0 cn q qpc t h inp lost C X s rest c b l :
  buf_at h s = Some c -> chan_items c = b :: l ->
  working out0 cn (mkSys q qpc t h (Link.PRead s rest) inp) lost C X -> dealt lost inp (C ++ [b]).
Proof.
  intros Hc Hi [Hmaps Hout [Hf _] Hl Hpos]. simpl in *. rewrite app_nil_r in *.
  destruct Hpos as (id & Hid & Hr). pose proof (range_pos_lane _ _ _ _ Hr) as Hlane.
  exists X. split; [by eapply flow_prefix|]. intros id' Hid'.
  specialize (Hl id' Hid') as [Hs He]. rewrite stripe_snoc. simpl. case_decide as Hd'.
  - assert (id' = id) as -> by congruence.
    unfold lane, lane_items in *. rewrite Hid, Hc, Hi in *. split.
    + etrans; [|exact Hs]. apply sublist_app; [done|]. simpl. apply sublist_skip, sublist_nil_l.
    + intros Hn. rewrite <- He by done. apply prefix_app. by eexists.
  - rewrite app_nil_r. split.
    + etrans; [|exact Hs]. by apply sublist_inserts_r.
    + intros Hn. rewrite <- He by done. by apply prefix_app_r.
Qed.

Lemma dealt_nz lost inp D b : dealt lost inp (D ++ [b]) -> dealt lost inp (D ++ nz [b]).
Proof.
  unfold nz. rewrite filter_cons. case_decide; simpl; [done|]. rewrite app_nil_r. apply dealt_first.
Qed.

(** The links are removed: the receiver is left with the chunk at hand. *)
Lemma working_remove out0 cn q qpc t h lpc inp lost C X h' :
  at_keeps h h' -> (forall id, id ∈ order -> pm_map h' !! id = None) ->
  working out0 cn (mkSys q qpc t h lpc inp) lost C X ->
  cut_off out0 cn (mkSys q qpc t h' lpc inp) lost C.
Proof.
  intros (Hb & _ & _) Hnone Hwk. pose proof (working_dealt _ _ _ _ _ _ Hwk) as Hd.
  split; simpl; [done|by destruct Hwk| |].
  - destruct lpc as [| | |rest|s rest|rest b|r|r|r|r]; simpl in *; try done; [|by apply dealt_nz].
    specialize (Hb s).
    destruct (buf_at h' s) as [c'|], (buf_at h s) as [c|] eqn:Hc; simpl in *; try done.
    injection Hb as ->. destruct (chan_items c) as [|b l] eqn:Hi; [done|].
    apply dealt_nz. by eapply working_next.
  - destruct Hwk as [_ _ _ _ Hpos]. simpl in Hpos.
    destruct lpc as [| | |rest|s rest|rest b|r|r|r|r]; try done; simpl in Hpos.
    + by destruct Hpos.
    + destruct Hpos as (id & _ & Hr). by apply range_pos_next in Hr as [? _].
    + by destruct Hpos.
Qed.

Lemma lossy_remove out0 cn q qpc t h lpc inp h' lost :
  master ∈ order ->
  pm_wf h -> sort_at h me = Some order -> (forall p, pm_map h !! master = Some p -> p = me) ->
  Link.RemoveAll master h = Some h' ->
  lossy_state out0 cn (mkSys q qpc t h lpc inp) lost -> lossy_state out0 cn (mkSys q qpc t h' lpc inp) lost.
Proof.
  intros Hmaster Hwf Hsort Hme Hrm. pose proof (RemoveAll_keeps _ _ _ Hrm) as Hk.
  destruct (RemoveAll_ok master h Hwf) as (h1 & E & _ & [Hw _]). rewrite Hrm in E. simplify_eq.
  destruct (pm_map h !! master) as [p|] eqn:Hp.
  2: { unfold Link.RemoveAll, pm_deref in Hrm. rewrite Hp in Hrm. by simplify_eq. }
  assert (forall id, id ∈ order -> pm_map h1 !! id = None) as Hnone.
  { intros id Hid. rewrite Hw, decide_True; [done|]. unfold pm_deref. rewrite Hp, (Hme p eq_refl).
    unfold sort_at in Hsort. destruct (pm_heap h !! me) as [l|]; [|done].
    injection Hsort as ->. rewrite elem_of_app, list_elem_of_filter.
    destruct (decide (id = master)); set_solver. }
  intros [(C & X & Hwk)|[(C & [Hmaps _ _ _])|H]]; [|specialize (Hmaps master Hmaster); simpl in *; congruence|by right; right].
  right. left. exists C. by eapply working_remove.
Qed.

Lemma lossy_other out0 cn s s' lost :
  other_step order me s s' -> lossy_state out0 cn s lost -> lossy_state out0 cn s' lost.
Proof.
  intros [q qpc t h lpc inp t' h' Ht _ Hm Hp] Hst.
  assert (forall id p, id ∈ order -> pm_map h !! id = Some p -> pm_heap h' !! p = pm_heap h !! p) as Hq.
  { intros id p Hid E. apply Hp. right. left. eauto. }
  destruct Hst as [(C & X & [Hmaps Hout Hsn Hl Hpos])|[(C & [Hmaps Hout Hn Hr])|H]]; simpl in *.
  - left. exists C, X. split; simpl; try done.
    + intros id Hid. destruct (Hmaps id Hid) as (p & c & Hi & Hc & Hst). exists p, c.
      unfold buf_at, status_at in *. by rewrite (Hm id Hid), (Hq id p Hid Hi).
    + intros id Hid. specialize (Hl id Hid). unfold lane, lane_items in *.
      rewrite (Ht id Hid), (Hm id Hid). destruct (pm_map h !! id) as [p|] eqn:E; [|done].
      unfold buf_at in *. by rewrite (Hq id p Hid E).
    + destruct lpc as [| | |rest|s0 rest|rest b|r|r|r|r]; try done. simpl in *.
      destruct Hpos as (id & Hid & Hr). exists id. split; [|done]. rewrite Hm; [done|].
      by eapply range_pos_elem.
  - right. left. exists C. split; simpl; try done.
    + intros id Hid. rewrite Hm by done. by apply Hmaps.
    + replace (l_next h' lpc) with (l_next h lpc); [done|].
      destruct lpc as [| | |rest|s0 rest|rest b|r|r|r|r]; try done. simpl. unfold buf_at.
      rewrite Hp; [done|]. right. right. by exists rest.
  - by right; right.
Qed.

Lemma lossy_step_inv out0 s lost cn s' lost' :
  master ∈ order -> lossy_inv out0 s lost cn -> lossy_step (s, lost) (s', lost') ->
  exists cn', lossy_inv out0 s' lost' cn'.
Proof.
  intros Hmaster [Hq Hwf [Hsort Hconn] Hme Hst] Hstep.
  assert (order <> []) as Hne by (intros E; rewrite E in Hmaster; set_solver).
  inversion Hstep as [s1 s1' lost1 Hs|q qpc t h lpc inp id b t' p l lost1 Hid Hrecv Hp Hl Hw]; subst.
  2: { exists cn. split; simpl in *; try done. by eapply lossy_drop. }
  clear Hstep. destruct Hs as [s s' Hsend|q qpc t h lpc inp id b t' p l c Hid Hrecv Hp Hl Hsend
    |q qpc t h lpc inp id b t' p l Hid Hrecv Hp Hl Hdone|q qpc t h lpc inp id b t' Hid Hrecv Hp
    |q qpc t h lpc inp ev h' lpc' Hev Hsend|q qpc t h lpc inp h' Hrm|s1 s1' Hother]; simpl in *.
  - exists cn. destruct (sys_send_moves order s s' Hq Hsend) as (sent & Hmv).
    pose proof (lossy_sender _ _ _ _ _ _ Hmv Hst) as Hst'. destruct Hmv as [[Es Ew] [Eh El] _ _ _].
    unfold q_ready in *. split; unfold q_ready; rewrite ?Es, ?Ew, ?Eh; auto.
  - exists cn. split; simpl; try done.
    + apply pm_wf_update; [|done]. intros l1 Hl1 Ho. apply chan_send_inv in Hsend as (_ & E & _). done.
    + unfold sort_at, conn_at. by rewrite !at_update_same.
    + by eapply lossy_deliver.
  - exists cn. split; simpl; try done. eapply lossy_nolink; [done..| |done].
    intros p1 l1 Hp1 Hl1. congruence.
  - exists cn. split; simpl; try done. eapply lossy_nolink; [done..| |done].
    intros p1 l1 Hp1 Hl1. congruence.
  - pose proof (Link.Send_step_map _ _ _ _ _ _ Hsend) as [Hm Hso].
    destruct (link_lossy _ _ _ _ _ _ _ _ _ _ _ _ Hne Hsort Hconn Hwf Hev Hsend Hst) as (cn' & Hcn' & Hst').
    exists cn'. split; simpl; rewrite ?Hso, ?Hm; try done. by eapply Link.Send_step_wf.
  - pose proof (RemoveAll_keeps _ _ _ Hrm) as (_ & Hkc & Hks).
    destruct (RemoveAll_ok master h Hwf) as (h1 & E & Hwf' & [Hw _]). rewrite Hrm in E. simplify_eq.
    exists cn. split; simpl; rewrite ?Hkc, ?Hks; try done.
    + intros p. rewrite Hw. case_decide; [done|]. apply Hme.
    + exact (lossy_remove _ _ _ _ _ _ _ _ _ _ Hmaster Hwf Hsort Hme Hrm Hst).
  - exists cn. pose proof (lossy_other _ _ _ _ _ Hother Hst) as Hst'.
    destruct Hother as [q qpc t h lpc inp t' h' Ht Hwf' Hm Hp]. simpl in *.
    pose proof (Hp me (or_introl eq_refl)) as Ep. unfold sort_at, conn_at in *.
    split; simpl; unfold sort_at, conn_at; rewrite ?Ep; try done.
    intros p. rewrite (Hm master Hmaster). apply Hme.
Qed.

Lemma lossy_steps_inv out0 x x' cn :
  master ∈ order -> lossy_inv out0 (fst x) (snd x) cn -> rtc lossy_step x x' ->
  exists cn', lossy_inv out0 (fst x') (snd x') cn'.
Proof.
  intros Hm Hinv Hr. revert cn Hinv. induction Hr as [x|x x1 x' Hs Hr IH]; intros cn Hinv; [eauto|].
  destruct x as [s lost], x1 as [s1 lost1].
  destruct (lossy_step_inv _ _ _ _ _ _ Hm Hinv Hs) as [cn1 Hinv1]. eauto.
Qed.

Lemma sys_init_lossy conn s : sys_init order master me conn s -> lossy_inv (tc_sent conn) s [] conn.
Proof.
  intros Hi. destruct (sys_init_inv order master me conn s Hi) as [Hq Hwf Hme Hmm _ _].
  destruct Hi as [_ (_ & Hi & _) Hpc Hnet _ Hl Hlpc Hin Heof]. split; try done.
  left. exists [], []. split; rewrite ?Hlpc; simpl.
  - intros id Hid. destruct (Hl id Hid) as (p & c & ? & ? & _ & ?). eauto.
  - unfold data_of. simpl. by rewrite app_nil_r.
  - rewrite Hpc, Hin. split; [right; split; [by intros []|simpl; by rewrite Hi]|].
    intros _. simpl. destruct Hq as [-> _]. apply top_pos_0.
  - intros id Hid. destruct (Hl id Hid) as (p & c & Hp & Hc & He & _).
    unfold lane, lane_items. by rewrite Hp, Hc, He, (Hnet id Hid).
  - apply top_pos_0.
Qed.

(** A run in which no message is lost is a run of [sys_step]. *)
Lemma lossless_steps x x' :
  rtc lossy_step x x' -> snd x' = [] -> snd x = [] /\ rtc (sys_step order master me) (fst x) (fst x').
Proof.
  intros Hr Hl. induction Hr as [x|x x1 x' Hs Hr IH]; [done|]. specialize (IH Hl) as [Hl1 Hr1].
  destruct Hs as [s s' lost Hs|]; simpl in *; [|done]. split; [done|]. by eapply rtc_l.
Qed.

(** C9: end to end, whatever the interleaving of the writer, of both [Send]s and
    of the dispatchers, whichever websockets fail or are removed, whenever a
    timer expires, that of a dispatcher's [link.Write] included, and whatever
    other connections do on the same websockets and in the same hub.  While no
    [link.Write] has timed out, what the receiver has written to its TCP
    connection is a prefix of the bytes given to the queue, in their order, and
    the write half is closed only when all of them are out.  In any case what it
    has written is a prefix of the data of chunks [D] of which every connection
    has delivered chunks that were dealt to it, none twice and none before an
    earlier one (the first ones without a gap, if the connection has lost
    none), and the write half is closed only if the writer has signalled its end
    of file. *)
Theorem stream_prefix conn s s' lost :
  sys_init order master me conn s -> rtc lossy_step (s, []) (s', lost) ->
  exists cn l, conn_at (s_hub s') me = Some (Some cn) /\ tc_sent cn = tc_sent conn ++ l /\
    (lost = [] -> l `prefix_of` data_of (s_in s') /\ (tc_eof cn = true -> l = data_of (s_in s'))) /\
    (exists D, l `prefix_of` data_of D /\ dealt lost (s_in s') D) /\
    (tc_eof cn = true -> ~ no_eof (s_in s')).
Proof.
  intros Hinit Hr. pose proof (in_order _ _ _ _ _ Hinit) as [_ Hm].
  destruct (lossy_steps_inv _ (s, []) (s', lost) _ Hm (sys_init_lossy _ _ Hinit) Hr) as (cn & Hinv).
  destruct Hinv as [_ _ [_ Hconn] _ Hst]. simpl in *. apply lossy_settled in Hst as (l & D & Ho & Hl & Hd & He).
  exists cn, l. split_and!; [done..| |by exists D|done].
  intros ->. apply lossless_steps in Hr as [_ Hr]; [|done]. simpl in Hr.
  destruct (sys_stream order master me conn s s' conn Hm (sys_init_inv _ _ _ _ _ Hinit) Hr)
    as (cn' & l' & Hcn' & Hl' & Hp & Hall).
  rewrite Hconn in Hcn'. injection Hcn' as <-. rewrite Ho in Hl'. apply app_inv_head in Hl' as <-.
  split; [done|]. intros Heof. by destruct (Hall Heof).
Qed.
End lossy.
