(* ===== verification/StripingRun.v ===== *)
(** Running the system of Striping.v on concrete inputs, and what a dropped
    message does to the stream.

    [sys_exec] is the executable form of [sys_step], and [act_drop] that of the
    step which [lossy_step] adds: a [link.Write] that times out loses its chunk. *)
From Stdlib Require Import Ascii.
From S2P Require Import Prelude GoChan Pipe RoundRobin PtrMap Queue Link Striping Lossy.

Section run.
Context {K : Ksuid} {T : Type} `{!Transport T}.
Context (order : list KSUID) (master : KSUID) (me : nat).

Inductive sys_act :=
  | ActWrite (b : buffer)
  | ActSend (ev : Queue.send_ev)
  | ActDeliver (id : KSUID)
  | ActLink (ev : Link.send_ev)
  | ActClose
  | ActRemove.

#[export] Instance no_eof_dec l : Decision (no_eof l).
Proof. unfold no_eof. apply _. Defined.

#[export] Instance written_dec b : Decision (written b).
Proof. unfold written. destruct (b_eof b); [|by left]. destruct (b_data b); [by left|right; intros H; by specialize (H eq_refl)]. Defined.

Definition sys_exec (a : sys_act) (s : sys) : option (@sys K T) :=
  match a with
  | ActWrite b =>
      if decide (no_eof (s_in s) /\ written b) then
        match chan_send (q_buffer (s_q s)) b with
        | SendOk c => Some (mkSys (set_q_buffer c (s_q s)) (s_qpc s) (s_net s) (s_hub s) (s_lpc s) (s_in s ++ [b]))
        | _ => None
        end
      else None
  | ActSend ev =>
      match Queue.Send_step (s_q s) (s_qpc s) ev with
      | Some (q', pc', None) => Some (mkSys q' pc' (s_net s) (s_hub s) (s_lpc s) (s_in s))
      | Some (q', pc', Some (id, b)) =>
          match ev with
          | Queue.EvWrote (Some _) => Some (mkSys q' pc' (s_net s) (s_hub s) (s_lpc s) (s_in s))
          | Queue.EvWrote None => Some (mkSys q' pc' (t_send id b (s_net s)) (s_hub s) (s_lpc s) (s_in s))
          | _ => None
          end
      | None => None
      end
  | ActDeliver id =>
      if decide (id ∈ order) then
        '(b, t') ← t_recv id (s_net s);
        match Link.Get id (s_hub s) with
        | None => Some (mkSys (s_q s) (s_qpc s) t' (s_hub s) (s_lpc s) (s_in s))
        | Some p =>
            l ← pm_heap (s_hub s) !! p;
            if decide (l_status l = StaDone) then
              Some (mkSys (s_q s) (s_qpc s) t' (s_hub s) (s_lpc s) (s_in s))
            else match chan_send (l_buffer l) b with
                 | SendOk c => Some (mkSys (s_q s) (s_qpc s) t' (pm_update p (set_l_buffer c) (s_hub s)) (s_lpc s) (s_in s))
                 | _ => None
                 end
        end
      else None
  | ActLink ev =>
      match ev with
      | Link.EvConn ConnPanic => None
      | _ => '(h', pc') ← Link.Send_step me (s_hub s) (s_lpc s) ev;
             Some (mkSys (s_q s) (s_qpc s) (s_net s) h' pc' (s_in s))
      end
  | ActClose => q' ← Queue.close (s_q s); Some (mkSys q' (s_qpc s) (s_net s) (s_hub s) (s_lpc s) (s_in s))
  | ActRemove => h' ← Link.RemoveAll master (s_hub s);
                 Some (mkSys (s_q s) (s_qpc s) (s_net s) h' (s_lpc s) (s_in s))
  end.

Fixpoint sys_run (l : list sys_act) (s : sys) : option sys :=
  match l with
  | [] => Some s
  | a :: l' => s' ← sys_exec a s; sys_run l' s'
  end.

Lemma sys_exec_step a s s' : sys_exec a s = Some s' -> sys_step order master me s s'.
Proof.
  destruct s as [q qpc t h lpc inp]. destruct a as [b|ev|id|ev| |]; simpl; intros H.
  - case_decide as Hd; [|done]. destruct (chan_send _ _) as [c| |] eqn:E; simplify_eq.
    destruct Hd. by apply st_sender, st_write.
  - destruct (Queue.Send_step q qpc ev) as [[[q' pc'] [[id b]|]]|] eqn:E; simplify_eq.
    + destruct ev as [| | |[err|]|]; simplify_eq; apply st_sender; [by eapply st_unsent|by eapply st_sent].
    + apply st_sender. by eapply st_send.
  - case_decide as Hid; [|done]. destruct (t_recv id t) as [[b t']|] eqn:Er; [|done]. simpl in H.
    destruct (Link.Get id h) as [p|] eqn:Ep; simplify_eq; [|by eapply st_nolink].
    destruct (pm_heap h !! p) as [l|] eqn:El; [|done]. simpl in H. case_decide; simplify_eq.
    + by eapply st_refuse.
    + destruct (chan_send _ _) as [c| |] eqn:E; simplify_eq. by eapply st_deliver.
  - assert (ev <> EvConn ConnPanic) as Hev by (by intros ->).
    assert (('(h', pc') ← Link.Send_step me h lpc ev; Some (mkSys q qpc t h' pc' inp)) = Some s') as H'.
    { by destruct ev as [| | |[]|]. }
    destruct (Link.Send_step me h lpc ev) as [[h' pc']|] eqn:E; simpl in H'; simplify_eq. by eapply st_link.
  - destruct (Queue.close q) as [q'|] eqn:E; simpl in H; simplify_eq. by apply st_sender, st_close.
  - destruct (Link.RemoveAll master h) as [h'|] eqn:E; simpl in H; simplify_eq. by apply st_remove.
Qed.

Lemma sys_run_steps l s s' : sys_run l s = Some s' -> rtc (sys_step order master me) s s'.
Proof.
  revert s. induction l as [|a l IH]; intros s H; simpl in H; [by simplify_eq|].
  destruct (sys_exec a s) as [s1|] eqn:E; [|done]. simpl in H. apply sys_exec_step in E.
  eapply rtc_l; [done|]. by apply IH.
Qed.

(** A dispatcher whose [link.Write] has waited for a full link until it timed
    out: the message is gone. *)
Definition act_drop (id : KSUID) (s : sys) : option (@sys K T) :=
  if decide (id ∈ order) then
    '(b, t') ← t_recv id (s_net s);
    p ← Link.Get id (s_hub s);
    l ← pm_heap (s_hub s) !! p;
    match chan_send (l_buffer l) b, Link.writeBuf (Link.mkWriteEnv [] true) l b with
    | SendBlocks, Some (_, (0%Z, Some err)) =>
        if decide (err = errors_New "write timeout")
        then Some (mkSys (s_q s) (s_qpc s) t' (s_hub s) (s_lpc s) (s_in s)) else None
    | _, _ => None
    end
  else None.

Lemma act_drop_step id s s' lost :
  act_drop id s = Some s' -> lossy_step order master me (s, lost) (s', id :: lost).
Proof.
  destruct s as [q qpc t h lpc inp]. unfold act_drop. simpl. case_decide as Hid; [|done].
  destruct (t_recv id t) as [[b t']|] eqn:Er; [|done]. simpl.
  destruct (Link.Get id h) as [p|] eqn:Ep; [|done]. simpl.
  destruct (pm_heap h !! p) as [l|] eqn:El; [|done]. simpl.
  unfold Link.writeBuf. simpl. case_decide; [by destruct (chan_send _ _)|].
  destruct (chan_send _ _); try done. intros [= <-]. eapply ls_drop; [done..|].
  unfold Link.writeBuf. by rewrite decide_False.
Qed.

Lemma sys_steps_lossy s s' lost :
  rtc (sys_step order master me) s s' -> rtc (lossy_step order master me) (s, lost) (s', lost).
Proof. induction 1 as [|s s1 s' Hs _ IH]; [done|]. eapply rtc_l; [by apply ls_step|done]. Qed.
End run.

(** ** A concrete system: two websockets, with the IDs 1 (the master) and 2 *)

#[local] Existing Instance ksuid_N.

Definition kid (n : N) : @KSUID ksuid_N := n.

Definition demo_order : list KSUID := [kid 1; kid 2].

Definition demo_queue : queue KSUID :=
  set_q_writers (list_to_map [(kid 1, kid 1); (kid 2, kid 2)]) (Queue.SetSort demo_order (NewQueue 0 (kid 1))).

Definition demo_conn : TCPConn := mkConn [] false.

Definition demo_hub : LinkHub :=
  pm_update 0 (fun l => Link.SetSort demo_order (Link.SetConn demo_conn l))
    (Link.Add 0 (kid 2) (kid 1) (Link.Add 0 (kid 1) (kid 1) NewLinkHub)).

Definition demo_sys : sys (T := gmap KSUID (list buffer)) :=
  mkSys demo_queue Queue.PEnter ∅ demo_hub Link.PEnter [].

Lemma demo_init : sys_init demo_order (kid 1) 0 demo_conn demo_sys.
Proof.
  split.
  - split; [|apply list_elem_of_here]. apply (bool_decide_unpack _). vm_compute. done.
  - split_and!; [reflexivity..|].
    intros id [->|[->|[]%elem_of_nil]%elem_of_cons]%elem_of_cons; by vm_compute.
  - reflexivity.
  - intros id _. change (fifo_pending id ∅ = []). unfold fifo_pending. by rewrite lookup_empty.
  - split_and!; [|reflexivity..]. unfold demo_sys, demo_hub. simpl. apply lh_wf_update; [done|].
    apply lh_wf_Add, lh_wf_Add, pm_wf_empty.
  - intros id [->|[->|[]%elem_of_nil]%elem_of_cons]%elem_of_cons.
    + exists 0, makeBuffer. by vm_compute.
    + exists 1, makeBuffer. by vm_compute.
  - reflexivity.
  - reflexivity.
  - reflexivity.
Qed.

(** Two chunks and the end of file are written, and [Send] hands them out. *)
Definition demo_chunk (c : ascii) : buffer := mkBuffer false [c].

Definition demo_send : list sys_act :=
  [ActWrite (demo_chunk "a"); ActWrite (demo_chunk "b"); ActWrite (mkBuffer true []);
   ActSend Queue.EvTau; ActSend Queue.EvTau; ActSend Queue.EvTau; ActSend Queue.EvTau;
   ActSend Queue.EvData; ActSend (Queue.EvWrote None); ActSend Queue.EvTau;
   ActSend Queue.EvData; ActSend (Queue.EvWrote None); ActSend Queue.EvTau; ActSend Queue.EvTau;
   ActSend Queue.EvTau; ActSend Queue.EvData; ActSend (Queue.EvWrote None)].

(** The receiver starts, and takes two chunks and the end of file. *)
Definition demo_collect : list sys_act :=
  [ActLink Link.EvTau; ActLink Link.EvTau; ActLink Link.EvTau; ActLink Link.EvTau;
   ActLink Link.EvData; ActLink (Link.EvConn ConnOk); ActLink Link.EvTau;
   ActLink Link.EvData; ActLink (Link.EvConn ConnOk); ActLink Link.EvTau; ActLink Link.EvTau;
   ActLink Link.EvTau; ActLink Link.EvData; ActLink (Link.EvConn ConnOk)].

Definition demo_out (s : sys (T := gmap KSUID (list buffer))) : option (bytes * bool) :=
  match conn_at (s_hub s) 0 with
  | Some (Some c) => Some (tc_sent c, tc_eof c)
  | _ => None
  end.

(** The whole way: the websocket of the second chunk delivers first. *)
Definition demo_run : list sys_act :=
  demo_send ++ [ActDeliver (kid 2); ActDeliver (kid 1); ActDeliver (kid 1)] ++ demo_collect.

Example demo_delivers :
  (s ← sys_run demo_order (kid 1) 0 demo_run demo_sys; demo_out s) = Some (["a"; "b"]%char, true).
Proof. vm_compute. reflexivity. Qed.

(** Two more chunks are accepted and handed out, one on each websocket. *)
Definition demo_pair (ab : ascii * ascii) : list sys_act :=
  [ActWrite (demo_chunk (fst ab)); ActSend Queue.EvTau; ActSend Queue.EvData; ActSend (Queue.EvWrote None);
   ActWrite (demo_chunk (snd ab)); ActSend Queue.EvTau; ActSend Queue.EvData; ActSend (Queue.EvWrote None);
   ActSend Queue.EvTau; ActSend Queue.EvTau].

(** The receiver takes two chunks. *)
Definition demo_take : list sys_act :=
  [ActLink Link.EvTau; ActLink Link.EvData; ActLink (Link.EvConn ConnOk);
   ActLink Link.EvTau; ActLink Link.EvData; ActLink (Link.EvConn ConnOk);
   ActLink Link.EvTau; ActLink Link.EvTau].

(** Twelve pairs are handed out; the link of the first websocket takes ten
    chunks and is full. *)
Definition demo_fill : list sys_act :=
  replicate 3 (ActSend Queue.EvTau) ++
  concat (map demo_pair [("a", "b"); ("c", "d"); ("e", "f"); ("g", "h"); ("i", "j"); ("k", "l");
                         ("m", "n"); ("o", "p"); ("q", "r"); ("s", "t"); ("u", "v"); ("w", "x")]%char) ++
  replicate 10 (ActDeliver (kid 1)).

(** The receiver catches up, and goes on with what is delivered next. *)
Definition demo_catch_up : list sys_act :=
  replicate 10 (ActDeliver (kid 2)) ++ replicate 3 (ActLink Link.EvTau) ++
  concat (replicate 10 demo_take) ++ [ActDeliver (kid 1); ActDeliver (kid 2)] ++ demo_take.

Definition demo_before : sys := default demo_sys (sys_run demo_order (kid 1) 0 demo_fill demo_sys).
Definition demo_dropped : sys := default demo_sys (act_drop demo_order (kid 1) demo_before).
Definition demo_after : sys :=
  default demo_sys (sys_run demo_order (kid 1) 0 demo_catch_up demo_dropped).

(** The run: the link of the first websocket is full, a chunk is dropped, and the
    receiver catches up. *)
Lemma demo_lossy : rtc (lossy_step demo_order (kid 1) 0) (demo_sys, []) (demo_after, [kid 1]).
Proof.
  etransitivity; [instantiate (1 := (demo_before, []))|].
  { apply sys_steps_lossy, sys_run_steps with demo_fill. vm_compute. reflexivity. }
  apply (rtc_l _ _ (demo_dropped, [kid 1])).
  { apply act_drop_step. vm_compute. reflexivity. }
  apply sys_steps_lossy, sys_run_steps with demo_catch_up. vm_compute. reflexivity.
Qed.

