(* ===== verification/Delivery.v ===== *)
(** One direction of a proxied connection, end to end: everything arrives.

    Striping.v shows that nothing wrong is ever written, whatever fails.  Here
    nothing fails: no timer expires, no connection reports an error, nobody
    removes the proxied connection.  Then the two [Send]s and the dispatchers,
    under any scheduling, come to rest after a bounded number of steps, and
    whenever they are at rest, every byte accepted so far is out. *)
From S2P Require Import Prelude GoChan Pipe RoundRobin PtrMap Queue Link Striping StripingRun.

(** The events of a [Send] that meets no timer and no error. *)
Definition q_ev_ok (ev : Queue.send_ev) : bool :=
  match ev with Queue.EvTimer | Queue.EvWrote (Some _) => false | _ => true end.
Definition l_ev_ok (ev : Link.send_ev) : bool :=
  match ev with Link.EvTimer | Link.EvConn (ConnErr _ _) | Link.EvConn ConnPanic => false | _ => true end.

Section delivery.
Context {K : Ksuid} {T : Type} `{!Transport T}.
Context (order : list KSUID) (master : KSUID) (me : nat).

(** What the program does by itself for this connection ([act_moves]), and with a
    writer; in an [ok_step] other connections may move as well. *)
Definition act_moves (a : @sys_act K) : bool :=
  match a with
  | ActSend ev => q_ev_ok ev
  | ActDeliver _ => true
  | ActLink ev => l_ev_ok ev
  | _ => false
  end.
Definition act_ok (a : @sys_act K) : bool :=
  act_moves a || match a with ActWrite _ => true | _ => false end.

Definition move_step (s s' : @sys K T) : Prop :=
  exists a, act_moves a /\ sys_exec order master me a s = Some s'.
Definition ok_step (s s' : @sys K T) : Prop :=
  (exists a, act_ok a /\ sys_exec order master me a s = Some s') \/ other_step order me s s'.

(** ** The sender *)

Section sender_moves.
Implicit Types (q : queue KSUID) (qpc : Queue.send_pc KSUID).

(** Steps to the next [readWithTimeout], or to the end. *)
Definition q_dist qpc : nat :=
  match qpc with
  | Queue.PEnter => 4 | Queue.PStart => 3 | Queue.PTop => 2
  | Queue.PRange [] => 3 | Queue.PRange (_ :: _) => 1 | Queue.PRead _ _ => 0
  | Queue.PWrite _ _ _ => 10
  | Queue.PDefer _ => 3 | Queue.PSignal _ => 2 | Queue.PCloseDone _ => 1 | Queue.PReturned _ => 0
  end.
Definition q_weight q qpc : nat := 11 * length (chan_items (q_buffer q)) + q_dist qpc.

(** Nobody has closed the queue. *)
Definition q_ok q qpc : Prop :=
  chan_closed (q_buffer q) = false /\
  match qpc with
  | Queue.PEnter => q_status q = StaWait
  | Queue.PTop | Queue.PRange _ | Queue.PRead _ _ | Queue.PWrite _ _ _ | Queue.PDefer _ => q_status q = StaSend
  | Queue.PSignal _ | Queue.PCloseDone _ | Queue.PReturned _ => q_status q = StaDone
  | _ => True
  end.

Lemma q_move q qpc ev q' qpc' out :
  q_ok q qpc -> q_sorted q <> [] -> q_ev_ok ev -> Queue.Send_step q qpc ev = Some (q', qpc', out) ->
  q_ok q' qpc' /\ q_weight q' qpc' + match out with Some _ => 7 | None => 1 end <= q_weight q qpc.
Proof.
  unfold q_ok, q_weight. intros [Hc Hs] Ho Hev H.
  unfold Queue.Send_step, readWithTimeout, chan_recv in H.
  destruct qpc as [| | |[|id rest]|w rest|[w|] rest b|r|r|r|r], ev as [| | |[e|]|]; simpl in *; try done;
    rewrite ?Hc, ?Hs in H; repeat case_match; simplify_eq/=;
    (split; [by split|]);
    repeat match goal with |- context [match ?l with [] => _ | _ :: _ => _ end] => destruct l end;
    solve [done|lia].
Qed.

(** Among the steps that go well, only writing the end of file leaves the loops. *)
Lemma q_move_over q qpc ev q' qpc' out :
  q_ok q qpc -> q_ev_ok ev -> Queue.Send_step q qpc ev = Some (q', qpc', out) ->
  (forall rest b, qpc <> Queue.PWrite None rest b) ->
  (q_over qpc' <-> q_over qpc \/ ~ no_eof (map snd (option_list out))).
Proof.
  unfold q_ok. intros [Hc Hs] Hev H Hw.
  unfold Queue.Send_step, readWithTimeout, chan_recv in H. unfold no_eof.
  destruct qpc as [| | |[|id rest]|w rest|[w|] rest b|r|r|r|r], ev as [| | |[e|]|]; simpl in *; try done;
    rewrite ?Hc, ?Hs in H; repeat case_match; simplify_eq/=;
    rewrite ?Forall_singleton; pose proof (Forall_nil_2 (fun b : buffer => b_eof b = false));
    try solve [intuition congruence]. by destruct (Hw rest b).
Qed.
End sender_moves.

(** ** The receiver *)

Lemma safeWrite_ok c data eof conn' n err :
  safeWrite ConnOk (Some c) data eof = (conn', (n, err)) ->
  err = None /\ (eof = true -> exists c', conn' = Some c' /\ tc_eof c' = true).
Proof. unfold safeWrite. destruct eof; simpl; intros; simplify_eq/=; split; eauto; done. Qed.

Section receiver_moves.
Implicit Types (h : LinkHub) (lpc : Link.send_pc).

Definition l_dist lpc : nat :=
  match lpc with
  | Link.PEnter => 4 | Link.PStart => 3 | Link.PTop => 2
  | Link.PRange [] => 3 | Link.PRange (_ :: _) => 1 | Link.PRead _ _ => 0
  | Link.PWrite _ _ => 4
  | Link.PDefer _ => 3 | Link.PSignal _ => 2 | Link.PCloseDone _ => 1 | Link.PReturned _ => 0
  end.

Definition l_ok h lpc : Prop :=
  match lpc with
  | Link.PEnter => status_at h me = Some StaWait
  | Link.PTop | Link.PRange _ | Link.PRead _ _ | Link.PWrite _ _ => status_at h me = Some StaSend
  | _ => True
  end.

(** A step of [Send] comes closer to the next read or to the end, unless it is
    a read itself; it leaves the loops only after the end of file. *)
Lemma l_move h lpc ev h' lpc' cn :
  l_ok h lpc -> sort_at h me = Some order -> conn_at h me = Some (Some cn) -> order <> [] ->
  (forall id rest, lpc = Link.PRange (id :: rest) -> is_Some (pm_map h !! id)) ->
  l_ev_ok ev -> Link.Send_step me h lpc ev = Some (h', lpc') ->
  l_ok h' lpc' /\
  (l_dist lpc' < l_dist lpc \/ exists s rest b, lpc = Link.PRead s rest /\ lpc' = Link.PWrite rest b) /\
  (l_over lpc' -> l_over lpc \/ exists cn', conn_at h' me = Some (Some cn') /\ tc_eof cn' = true).
Proof.
  unfold l_ok, status_at, sort_at, conn_at. intros Hs Hso Hcn Ho Hr Hev H.
  unfold Link.Send_step in H. destruct (pm_heap h !! me) as [q|] eqn:Hq; [|done]. simpl in *.
  destruct lpc as [| | |[|id rest]|s rest|rest b|r|r|r|r], ev as [| | |[]|]; simpl in *; try done.
  all: try (destruct (Hr id rest eq_refl) as [s E]; unfold Link.Get in H; rewrite E in H).
  all: try (destruct (pm_heap h !! s) as [l|]; [|done]; unfold readWithTimeout in H).
  all: try (injection Hcn as Hcn; rewrite Hcn in H;
            destruct (safeWrite _ _ _ _) as [conn [n err]] eqn:Hw;
            apply safeWrite_ok in Hw as [-> Heof]).
  all: repeat case_match; simplify_eq/=; split_and!; try done.
  all: try (by left; lia).
  all: try (by right; eauto).
  all: try (by intros; auto).
  all: try (destruct_or?; congruence).
  all: try (rewrite ?list_lookup_alter_eq, Hq; simpl; congruence).
  all: try (left; match goal with |- context [match ?l with [] => _ | _ :: _ => _ end] =>
              destruct l end; solve [done|lia]).
  all: try (intros _; right; rewrite list_lookup_alter_eq, Hq; simpl;
            destruct Heof as (c' & -> & ?); [done|by eauto]).
  all: destruct (decide (s = me)) as [->|Hne];
    rewrite ?list_lookup_alter_eq, ?list_lookup_alter_ne, Hq by done; simpl; congruence.
Qed.
End receiver_moves.

(** ** The system *)

Section system_moves.
Context (Hnd : NoDup order) (Hmaster : master ∈ order).
Implicit Types (q : queue KSUID) (qpc : Queue.send_pc KSUID) (h : LinkHub) (lpc : Link.send_pc)
  (t : T) (C P inp : list buffer).

Lemma no_eof_app l k : no_eof (l ++ k) <-> no_eof l /\ no_eof k.
Proof. apply Forall_app. Qed.

(** The messages on the websockets. *)
Definition net_count t : nat := sum_list_with (fun id => length (t_pending id t)) order.

Lemma net_count_send id b t : net_count (t_send id b t) <= S (net_count t).
Proof using Hnd.
  apply (sum_list_with_one _ _ id); [done| |]; [|intros j Hj]; rewrite t_send_pending, length_app.
  - rewrite decide_True by done. simpl. lia.
  - rewrite decide_False by congruence. simpl. lia.
Qed.

Lemma net_count_recv id b t t' : id ∈ order -> t_recv id t = Some (b, t') -> net_count t' < net_count t.
Proof.
  intros Hid [Hb Hkeep]%t_recv_some. apply (sum_list_with_lt _ _ id); [done| |].
  - rewrite Hb. simpl. lia.
  - intros j. destruct (decide (j = id)) as [->|Hne]; [|by rewrite Hkeep]. rewrite Hb. simpl. lia.
Qed.

(** Nothing has failed, and the receiver has not seen the end of file. *)
Record healthy (out0 : bytes) (cn : TCPConn) (s : sys) C P (k : nat) : Prop := {
  he_alive : alive order out0 cn s C P k;
  he_q : q_ok (s_q s) (s_qpc s);
  he_l : l_ok (s_hub s) (s_lpc s);
  he_read : no_eof C;
  he_over : q_over (s_qpc s) <-> ~ no_eof (C ++ l_held (s_lpc s) ++ P);
  he_cap : forall id p c, id ∈ order -> pm_map (s_hub s) !! id = Some p ->
             buf_at (s_hub s) p = Some c -> 0 < chan_cap c;
}.

(** The receiver has closed the write half, and everything is out. *)
Record delivered (out0 : bytes) (cn : TCPConn) (s : @sys K T) : Prop := {
  de_over : l_over (s_lpc s);
  de_sent : tc_sent cn = out0 ++ data_of (s_in s) /\ tc_eof cn = true;
  de_in : ~ no_eof (s_in s);
  de_q : q_ok (s_q s) (s_qpc s);
}.

(** A bound on the steps until the system is at rest, given the number of
    chunks on their way. *)
Definition work (s : sys) (n : nat) : nat :=
  q_weight (s_q s) (s_qpc s) + l_dist (s_lpc s) + net_count (s_net s) + 5 * n.

Inductive good (out0 : bytes) (cn : TCPConn) (s : sys) : nat -> Prop :=
  | good_healthy C P k : healthy out0 cn s C P k -> good out0 cn s (work s (length P))
  | good_delivered : delivered out0 cn s -> good out0 cn s (work s 0).

Lemma order_ne : order <> [].
Proof using Hmaster. intros E. rewrite E in Hmaster. by apply not_elem_of_nil in Hmaster. Qed.

(** Nothing has been handed out after the end of file, and without it [Send] is
    not over; [X] are the buffers handed out so far. *)
Definition sends_on q qpc (X : list buffer) : Prop := q_ok q qpc /\ (q_over qpc <-> ~ no_eof X).

Lemma sends_on_step q qpc inp X n ev q' qpc' out :
  q_sorted q <> [] -> sender q qpc inp X n -> sends_on q qpc X -> q_ev_ok ev ->
  Queue.Send_step q qpc ev = Some (q', qpc', out) ->
  sends_on q' qpc' (X ++ map snd (option_list out)).
Proof.
  intros Hs [_ Hp] [Hq Hov] Hev H. destruct (q_move _ _ _ _ _ _ Hq Hs Hev H) as [Hq' _].
  assert (forall rest b, qpc <> Queue.PWrite None rest b) as Hne.
  { intros rest b ->. destruct (Hp (fun H => H)) as (id & _ & [? ?] & _). done. }
  split; [done|]. rewrite (q_move_over _ _ _ _ _ _ Hq Hev H Hne), Hov, no_eof_app.
  destruct (no_eof_dec (map snd (option_list out))); tauto.
Qed.

(** *** The sender moves *)

Lemma healthy_send out0 cn q qpc t h lpc inp C P k ev q' qpc' out :
  q_sorted q = order -> (forall id, id ∈ order -> q_writers q !! id = Some id) ->
  healthy out0 cn (mkSys q qpc t h lpc inp) C P k -> q_ev_ok ev ->
  Queue.Send_step q qpc ev = Some (q', qpc', out) ->
  let t' := match out with Some (id, b) => t_send id b t | None => t end in
  healthy out0 cn (mkSys q' qpc' t' h lpc inp) C (P ++ map snd (option_list out)) k.
Proof using Type*.
  intros Hs Hw [Hal Hq Hl HC Hov Hcap] Hev H t'. simpl in *.
  pose proof (al_sender _ _ _ _ _ _ _ Hal) as Hsn.
  destruct (sm_sent _ _ _ _ (send_moves order _ _ t h lpc _ _ _ _ _ (conj Hs Hw) H) _ _ Hsn) as [Hsn' Hpend].
  assert (q_sorted q <> []) as Hne by (rewrite Hs; exact order_ne).
  destruct (sends_on_step _ _ _ _ _ _ _ _ _ Hne Hsn (conj Hq Hov) Hev H) as [Hq' Hov']. simpl in *.
  split; simpl; try done; [|by rewrite !app_assoc in *].
  by eapply alive_sender.
Qed.

Lemma good_send out0 cn s n ev s' :
  sys_inv order master me out0 s cn -> good out0 cn s n -> q_ev_ok ev ->
  sys_exec order master me (ActSend ev) s = Some s' ->
  s_hub s' = s_hub s /\ exists n', good out0 cn s' n' /\ n' < n.
Proof using Type*.
  intros [[Hs Hw] _ _ _ _ _] Hg Hev H. destruct s as [q qpc t h lpc inp]. simpl in *.
  destruct (Queue.Send_step q qpc ev) as [[[q' qpc'] out]|] eqn:E; [|done].
  assert (s' = mkSys q' qpc' (match out with Some (id, b) => t_send id b t | None => t end) h lpc inp) as ->.
  { destruct out as [[id b]|]; [|by simplify_eq]. destruct ev as [| | |[]|]; by simplify_eq. }
  clear H. split; [done|].
  assert (q_ok q qpc) as Hq by (by destruct Hg as [? ? ? []|[]]).
  destruct (q_move _ _ _ _ _ _ Hq ltac:(rewrite Hs; exact order_ne) Hev E) as [Hq' Hwt].
  set (t' := match out with Some (id, b) => t_send id b t | None => t end).
  assert (net_count t' <= length (option_list out) + net_count t) as Hnet.
  { unfold t'. destruct out as [[id b]|]; simpl; [apply net_count_send|done]. }
  destruct Hg as [C P k Hh|[Ho Hse Hin _]].
  - eexists. split.
    + eapply good_healthy, healthy_send; [done| |done..]. done.
    + unfold work. simpl. rewrite length_app, length_map. fold t'.
      destruct out as [[id b]|]; simpl in *; lia.
  - exists (work (mkSys q' qpc' t' h lpc inp) 0). split; [by apply good_delivered|].
    unfold work. simpl. destruct out as [[id b]|]; simpl in *; lia.
Qed.

(** *** A message is delivered *)

Lemma status_set_buffer p c h p' :
  status_at (pm_update p (set_l_buffer c) h) p' = status_at h p'.
Proof. by apply at_update_same. Qed.

Lemma l_ok_status h h' lpc : status_at h' me = status_at h me -> l_ok h lpc -> l_ok h' lpc.
Proof. intros E. unfold l_ok. by rewrite E. Qed.

Lemma healthy_deliver out0 cn q qpc t h lpc inp id b t' p l c C P k :
  pm_wf h -> id ∈ order -> t_recv id t = Some (b, t') ->
  Link.Get id h = Some p -> pm_heap h !! p = Some l -> chan_send (l_buffer l) b = SendOk c ->
  healthy out0 cn (mkSys q qpc t h lpc inp) C P k ->
  healthy out0 cn (mkSys q qpc t' (pm_update p (set_l_buffer c) h) lpc inp) C P k.
Proof.
  intros Hwf Hid Hr Hp Hl Hc [Hal Hq Hlo HC Hov Hcap]. simpl in *. split; simpl; try done.
  - by eapply alive_deliver.
  - eapply l_ok_status; [|done]. apply status_set_buffer.
  - intros id' p' c' Hid' Hp' Hb. unfold buf_at in Hb. rewrite at_update, Hl in Hb. simpl in Hb.
    case_decide; [|by eapply Hcap]. simplify_eq. apply chan_send_inv in Hc as (_ & _ & _ & ->).
    eapply Hcap; [done..|]. unfold buf_at. by rewrite Hl.
Qed.

Lemma good_net out0 cn q qpc t h lpc inp n id b t' h' :
  id ∈ order -> t_recv id t = Some (b, t') ->
  (forall C P k, healthy out0 cn (mkSys q qpc t h lpc inp) C P k ->
                 healthy out0 cn (mkSys q qpc t' h' lpc inp) C P k) ->
  good out0 cn (mkSys q qpc t h lpc inp) n ->
  exists n', good out0 cn (mkSys q qpc t' h' lpc inp) n' /\ n' < n.
Proof.
  intros Hid Hr Hh. apply net_count_recv in Hr; [|done]. intros [C P k H|H].
  - eexists. split; [by eapply good_healthy, Hh|]. unfold work. simpl. lia.
  - eexists. split; [apply good_delivered|unfold work; simpl; lia]. by destruct H.
Qed.

Lemma good_deliver out0 cn s n id s' :
  sys_inv order master me out0 s cn -> good out0 cn s n ->
  sys_exec order master me (ActDeliver id) s = Some s' ->
  conn_at (s_hub s') me = conn_at (s_hub s) me /\ exists n', good out0 cn s' n' /\ n' < n.
Proof.
  intros [_ Hwf _ _ _ _] Hg H. destruct s as [q qpc t h lpc inp]. simpl in *.
  case_decide as Hid; [|done]. destruct (t_recv id t) as [[b t']|] eqn:Er; [|done]. simpl in H.
  destruct (Link.Get id h) as [p|] eqn:Ep.
  - destruct (pm_heap h !! p) as [l|] eqn:El; [|done]. simpl in H. case_decide as Hd; simplify_eq.
    + split; [done|]. eapply good_net; [done..| |done]. intros C P k [[Hm _ _ _ _] _ _ _ _ _].
      exfalso. destruct (Hm id Hid) as (p' & c & Hp' & Hb & Hst). simpl in *.
      unfold Link.Get in Ep. simplify_eq. apply Hst. unfold status_at. by rewrite El; simpl; rewrite Hd.
    + destruct (chan_send _ _) as [c| |] eqn:Ec; simplify_eq. simpl. split; [by apply at_update_same|].
      eapply good_net; [done..| |done]. intros C P k. by eapply healthy_deliver.
  - simplify_eq. split; [done|]. eapply good_net; [done..| |done].
    intros C P k [[Hm _ _ _ _] _ _ _ _ _]. exfalso. destruct (Hm id Hid) as (p' & c & Hp' & _).
    simpl in *. unfold Link.Get in Ep. congruence.
Qed.

(** *** The receiver moves *)

Lemma link_cap h lpc ev h' lpc' p c c' :
  Link.Send_step me h lpc ev = Some (h', lpc') -> buf_at h p = Some c -> buf_at h' p = Some c' ->
  chan_cap c' = chan_cap c.
Proof.
  intros H Hb Hb'. apply Link.Send_step_kind in H as
    [o _ _ E _|s rest c1 c2 b _ _ E1 Hr E _|rest b r conn conn' m err _ _ _ _ _ E _];
    rewrite E in Hb'; try case_decide; simplify_eq; try done.
  destruct Hr as [(_ & _ & ?)%chan_recv_ok_inv|(_ & _ & ->)]; done.
Qed.

Lemma delivered_link out0 cn q qpc t h lpc inp ev h' lpc' :
  conn_at h me = Some (Some cn) -> delivered out0 cn (mkSys q qpc t h lpc inp) ->
  Link.Send_step me h lpc ev = Some (h', lpc') ->
  exists n', conn_at h' me = Some (Some cn) /\ good out0 cn (mkSys q qpc t h' lpc' inp) n' /\
    n' < work (mkSys q qpc t h lpc inp) 0.
Proof.
  intros Hconn [Ho [Hse He] Hin Hq] E. simpl in *.
  assert (finished out0 cn (mkSys q qpc t h lpc inp)) as Hf.
  { split; [done|]. exists (data_of inp). by split_and!. }
  destruct (link_finished me _ _ _ _ _ _ _ _ _ _ _ Hconn Hf E) as [Hcn' [Ho' _]]. simpl in *.
  eexists. split; [done|]. split; [by apply good_delivered|]. unfold work. simpl.
  assert (l_dist lpc' < l_dist lpc); [|lia].
  unfold Link.Send_step in E. destruct (pm_heap h !! me); [|done].
  destruct lpc, ev; try done; repeat case_match; simplify_eq/=; lia.
Qed.

Lemma good_link out0 cn s n ev s' :
  sys_inv order master me out0 s cn -> good out0 cn s n -> l_ev_ok ev ->
  sys_exec order master me (ActLink ev) s = Some s' ->
  exists cn' n', conn_at (s_hub s') me = Some (Some cn') /\ good out0 cn' s' n' /\ n' < n.
Proof using Type*.
  intros [_ Hwf [Hsort Hconn] _ [Hlast Hwr] _] Hg Hev H. destruct s as [q qpc t h lpc inp]. simpl in *.
  assert (ev <> EvConn ConnPanic) as Hnp by (by intros ->).
  assert (exists h' lpc', Link.Send_step me h lpc ev = Some (h', lpc') /\ s' = mkSys q qpc t h' lpc' inp)
    as (h' & lpc' & E & ->).
  { destruct (Link.Send_step me h lpc ev) as [[h' lpc']|]; [|by destruct ev as [| | |[]|]].
    exists h', lpc'. split; [done|]. destruct ev as [| | |[]|]; by simplify_eq/=. }
  clear H. destruct Hg as [C P k Hh|Hd].
  - destruct Hh as [Hal Hq Hl HC Hov Hcap]. simpl in *.
    assert (forall id rest, lpc = PRange (id :: rest) -> is_Some (pm_map h !! id)) as Hmap.
    { intros id rest ->. destruct (al_pos _ _ _ _ _ _ _ Hal) as [[pre Hpre] _]. simpl in Hpre.
      destruct (al_maps _ _ _ _ _ _ _ Hal id) as (p & c & ? & _); [rewrite Hpre; set_solver|eauto]. }
    destruct (l_move _ _ _ _ _ _ Hl Hsort Hconn order_ne Hmap Hev E) as (Hl' & Hdist & Hover).
    destruct (link_alive order me _ _ _ _ _ _ _ _ _ _ _ _ _ _ Hsort Hconn Hwf Hlast Hwr Hnp Hal E)
      as (cn' & Hcn' & [(P' & k' & Hal' & Hne & HP)|Hf]).
    + exists cn'. eexists. split; [done|]. split; [eapply good_healthy; split; simpl; try done|].
      * by apply no_eof_app.
      * by rewrite Hov, <- app_assoc, HP.
      * intros id p c' Hid Hp Hb'. apply Link.Send_step_map in E as Hm. destruct Hm as [Hm _]. rewrite Hm in Hp.
        destruct (al_maps _ _ _ _ _ _ _ Hal id Hid) as (p' & c & Hp' & Hb & _). simpl in *. simplify_eq.
        rewrite (link_cap _ _ _ _ _ _ _ _ E Hb Hb'). by eapply Hcap.
      * apply (f_equal length) in HP. rewrite length_app in HP. unfold work. simpl.
        destruct Hdist as [|(s & rest & b & -> & ->)]; simpl in *; lia.
    + exists cn'. eexists. split; [done|]. split; [apply good_delivered|].
      * destruct Hf as [Ho (l & Hl1 & Hl2 & Hl3)]. simpl in *.
        assert (tc_eof cn' = true) as Heof.
        { destruct (Hover Ho) as [Ho'|(c & Hc & ?)]; [|congruence].
          exfalso. apply (al_pos _ _ _ _ _ _ _) in Hal. by destruct lpc. }
        destruct (Hl3 Heof) as [-> ?]. by split.
      * unfold work. simpl. destruct Hdist as [|(s & rest & b & -> & ->)]; [lia|].
        by destruct Hf.
  - exists cn. by eapply delivered_link.
Qed.

(** *** Runs *)

(** The system works, and has work for [n] more steps at most. *)
Definition works (out0 : bytes) (s : sys) (n : nat) : Prop :=
  exists cn, sys_inv order master me out0 s cn /\ good out0 cn s n.

Lemma works_conn out0 s n cn' n' :
  (exists cn, sys_inv order master me out0 s cn) -> conn_at (s_hub s) me = Some (Some cn') ->
  good out0 cn' s n' -> n' < n -> exists n', works out0 s n' /\ n' < n.
Proof.
  intros [cn Hinv] Hc Hg Hn. exists n'. split; [|done]. exists cn'. split; [|done].
  destruct (iv_me _ _ _ _ _ _ Hinv) as [_ Hc']. congruence.
Qed.

Lemma works_move out0 s n s' :
  works out0 s n -> move_step s s' -> exists n', works out0 s' n' /\ n' < n.
Proof using Type*.
  intros (cn & Hinv & Hg) (a & Ha & E). apply sys_exec_step in E as Hstep.
  pose proof (sys_step_inv order master me Hmaster _ _ _ _ Hinv Hstep) as Hinv'.
  destruct (iv_me _ _ _ _ _ _ Hinv) as [_ Hc].
  destruct a as [b|ev|id|ev| |]; simpl in Ha; try done.
  - destruct (good_send _ _ _ _ _ _ Hinv Hg Ha E) as (Hh & n' & Hg' & Hn).
    eapply works_conn; [done| |done..]. by rewrite Hh.
  - destruct (good_deliver _ _ _ _ _ _ Hinv Hg E) as (Hh & n' & Hg' & Hn).
    eapply works_conn; [done| |done..]. by rewrite Hh.
  - destruct (good_link _ _ _ _ _ _ Hinv Hg Ha E) as (cn' & n' & Hh & Hg' & Hn).
    by eapply works_conn.
Qed.

Lemma work_other s s' k : other_step order me s s' -> work s' k = work s k.
Proof.
  intros [q qpc t h lpc inp t' h' Ht _ _ _]. unfold work, net_count. simpl. do 2 f_equal.
  revert Ht. clear. induction order as [|id l IH]; intros Ht; [done|]. simpl.
  rewrite (Ht id) by set_solver. f_equal. apply IH. intros id' Hid. apply Ht. set_solver.
Qed.

Lemma works_other out0 s n s' : works out0 s n -> other_step order me s s' -> works out0 s' n.
Proof using Type*.
  intros (cn & Hinv & Hg) Ho.
  destruct (sys_step_inv order master me Hmaster _ _ _ _ Hinv (st_other _ _ _ _ _ Ho)) as [cn' Hinv'].
  assert (cn' = cn) as ->.
  { destruct (iv_me _ _ _ _ _ _ Hinv) as [_ E1], (iv_me _ _ _ _ _ _ Hinv') as [_ E2].
    destruct Ho as [q qpc t h lpc inp t' h' _ _ _ Hp]. simpl in *. unfold conn_at in *.
    rewrite (Hp me (or_introl eq_refl)) in E2. congruence. }
  destruct Hg as [C P k [Hal Hq Hl HC Hov Hcap]|[Hov Hse Hin Hq]].
  - pose proof (alive_other _ _ _ _ _ _ _ _ _ Ho Hal) as Hal'.
    exists cn. split; [done|]. rewrite <- (work_other _ _ _ Ho). apply (good_healthy _ _ _ C P k).
    destruct Ho as [q qpc t h lpc inp t' h' _ _ Hm Hp]. simpl in *. split; simpl; try done.
    + unfold l_ok, status_at in *. by rewrite (Hp me (or_introl eq_refl)).
    + intros id p c Hid. unfold buf_at. rewrite (Hm id Hid). intros Hi Hc.
      rewrite (Hp p) in Hc by (right; left; eauto). by apply (Hcap id p c).
  - exists cn. split; [done|]. rewrite <- (work_other _ _ _ Ho). apply good_delivered. by destruct Ho.
Qed.

Lemma works_ok out0 s n s' : works out0 s n -> ok_step s s' -> exists n', works out0 s' n'.
Proof using Type*.
  intros Hw [(a & [Ha|Ha]%orb_prop_elim & E)|Ho].
  3: by exists n; eapply works_other.
  { destruct (works_move _ _ _ s' Hw) as (n' & ? & _); [by exists a|eauto]. }
  destruct a as [b|ev|id|ev| |]; try done. destruct Hw as (cn & Hinv & Hg).
  pose proof (sys_step_inv order master me Hmaster _ _ _ _ Hinv (sys_exec_step _ _ _ _ _ _ E)) as [cn' Hinv'].
  destruct s as [q qpc t h lpc inp]. simpl in E. case_decide as Hb; [|done]. destruct Hb as [Hno Hb].
  destruct (chan_send (q_buffer q) b) as [c| |] eqn:Hc; simplify_eq.
  destruct Hg as [C P k [Hal [Hq Hst] Hl HC Hov Hcap]|[_ _ Hin _]]; [|done]. simpl in *.
  eexists. exists cn. split.
  { destruct (iv_me _ _ _ _ _ _ Hinv) as [_ E1], (iv_me _ _ _ _ _ _ Hinv') as [_ E2]. simpl in *. congruence. }
  eapply (good_healthy _ _ _ C P k). split; simpl; try done.
  - rewrite <- (app_nil_r P). eapply alive_sender; [done| |intros; by rewrite app_nil_r].
    rewrite app_nil_r, Nat.add_0_r. eapply sender_write; [done|].
    exact (al_sender _ _ _ _ _ _ _ Hal).
  - apply chan_send_inv in Hc as (_ & ? & _). by split.
Qed.

(** *** At rest *)

Lemma sender_progress q qpc inp X n :
  q_ok q qpc -> sender q qpc inp X n -> ~ q_over qpc ->
  (exists ev q' qpc' out, q_ev_ok ev /\ Queue.Send_step q qpc ev = Some (q', qpc', out) /\
     (out = None \/ ev = Queue.EvWrote None)) \/
  q_held qpc = [] /\ chan_items (q_buffer q) = [].
Proof.
  intros [Hc Hs] [_ Hp] Ho. specialize (Hp Ho).
  destruct qpc as [| | |[|id rest]|w rest|w rest b|r|r|r|r]; simpl in *; try tauto.
  - left. exists Queue.EvTau. simpl. case_decide; do 3 eexists; (split_and!; [done|done|by left]).
  - left. exists Queue.EvTau. do 3 eexists. split_and!; [done|done|by left].
  - left. exists Queue.EvTau. simpl. case_decide; do 3 eexists; (split_and!; [done|done|by left]).
  - left. exists Queue.EvTau. do 3 eexists. split_and!; [done|done|by left].
  - left. exists Queue.EvTau. do 3 eexists. split_and!; [done|done|by left].
  - destruct (chan_items (q_buffer q)) as [|b l] eqn:E; [by right|left].
    exists Queue.EvData. simpl. unfold readWithTimeout, chan_recv. rewrite E.
    do 3 eexists. split_and!; [done|done|by left].
  - destruct Hp as (id & -> & [w' Hw] & _). rewrite Hw. left. exists (Queue.EvWrote None). simpl.
    destruct (b_eof b); do 3 eexists; (split_and!; [done|done|by right]).
Qed.

Lemma link_progress h lpc cn k :
  l_ok h lpc -> l_pos order h lpc k -> sort_at h me = Some order -> conn_at h me = Some (Some cn) ->
  (forall id, id ∈ order -> exists p c, pm_map h !! id = Some p /\ buf_at h p = Some c) ->
  (exists ev, l_ev_ok ev /\ is_Some (Link.Send_step me h lpc ev)) \/
  exists id, lane_at order k = Some id /\ id ∈ order /\ lane_items h id = [].
Proof.
  clear Hnd Hmaster.
  unfold l_ok, status_at, sort_at, conn_at. intros Hs Hp Hso Hc Hm. unfold Link.Send_step.
  destruct (pm_heap h !! me) as [q|] eqn:Hq; [|done]. simpl in *. simplify_eq.
  destruct lpc as [| | |[|id rest]|s rest|rest b|r|r|r|r]; simpl in *; try done.
  - left. exists EvTau. split; [done|]. case_decide; eauto.
  - left. exists EvTau. split; [done|]. eauto.
  - left. exists EvTau. split; [done|]. case_decide; eauto.
  - left. exists EvTau. split; [done|]. eauto.
  - left. exists EvTau. split; [done|]. case_match; eauto.
  - destruct Hp as (id & Hid & Hr). apply range_pos_elem in Hr as Hin.
    destruct (Hm id Hin) as (p & c & Hp & Hb). simplify_eq.
    destruct (chan_items c) as [|b l] eqn:E.
    { right. exists id. unfold lane_items. rewrite Hid, Hb, E. eauto using range_pos_lane. }
    unfold buf_at in Hb.
    left. exists EvData. split; [done|]. destruct (pm_heap h !! s) as [l'|]; [|done]. simpl in *. simplify_eq.
    unfold readWithTimeout, chan_recv. rewrite E. eauto.
  - left. exists (EvConn ConnOk). split; [done|]. destruct (safeWrite _ _ _ _) as [? [? ?]]. eauto.
Qed.

Lemma exec_send s ev q' qpc' out :
  q_ev_ok ev -> Queue.Send_step (s_q s) (s_qpc s) ev = Some (q', qpc', out) ->
  out = None \/ ev = Queue.EvWrote None -> exists s', move_step s s'.
Proof.
  intros Hev E Ho. assert (is_Some (sys_exec order master me (ActSend ev) s)) as [s' Hs'].
  { simpl. rewrite E. destruct out as [[id b]|]; [|eauto]. destruct Ho as [| ->]; [done|eauto]. }
  exists s', (ActSend ev). done.
Qed.

Lemma exec_link s ev :
  l_ev_ok ev -> is_Some (Link.Send_step me (s_hub s) (s_lpc s) ev) -> exists s', move_step s s'.
Proof.
  intros Hev [[h' pc'] E]. assert (is_Some (sys_exec order master me (ActLink ev) s)) as [s' Hs'].
  { simpl. destruct ev as [| | |[]|]; try done; rewrite E; simpl; eauto. }
  exists s', (ActLink ev). done.
Qed.

(** A message for an empty link can be delivered. *)
Lemma exec_deliver out0 cn s C P k id b l :
  pm_wf (s_hub s) -> healthy out0 cn s C P k -> id ∈ order -> lane_items (s_hub s) id = [] ->
  t_pending id (s_net s) = b :: l -> exists s', move_step s s'.
Proof.
  intros [Hwf _] [[Hm _ _ _ _] _ _ _ _ Hcap] Hid Hi Hp.
  destruct (Hm id Hid) as (p & c & Hp' & Hb & _). destruct (Hwf _ _ Hp') as (l' & Hl' & Hop).
  specialize (Hcap id p c Hid Hp' Hb). unfold lane_items in Hi. rewrite Hp', Hb in Hi.
  unfold buf_at in Hb. rewrite Hl' in Hb. simpl in *. simplify_eq.
  assert (is_Some (sys_exec order master me (ActDeliver id) s)) as [s' Hs'].
  { simpl. rewrite decide_True by done.
    destruct (t_recv id (s_net s)) as [[b' t']|] eqn:Er; [|by apply t_recv_none in Er; congruence].
    simpl. unfold Link.Get. rewrite Hp'. simpl. rewrite Hl'. simpl. case_decide; [eauto|].
    unfold chan_send. rewrite Hop, Hi. simpl. destruct (chan_cap _) as [|n]; [lia|]. simpl. eauto. }
  exists s', (ActDeliver id). done.
Qed.

Lemma no_eof_nz l : no_eof (nz l) <-> no_eof l.
Proof.
  unfold no_eof, nz. rewrite !Forall_forall. setoid_rewrite list_elem_of_filter.
  split; [|intuition]. intros H b Hb. destruct (decide (b = buffer_zero)) as [->|]; [done|auto].
Qed.

(** Where nothing moves, everything accepted is out. *)
Lemma healthy_rest out0 cn s C P k :
  sys_inv order master me out0 s cn -> healthy out0 cn s C P k ->
  (exists s', move_step s s') \/ tc_sent cn = out0 ++ data_of (s_in s) /\ no_eof (s_in s).
Proof.
  intros [_ Hwf [Hsort Hconn] _ _ _] Hh. pose proof Hh as [Hal Hq Hl HC Hov Hcap].
  destruct Hal as [Hm [Hsent _] Hsn Hlanes Hpos].
  destruct (link_progress _ _ _ _ Hl Hpos Hsort Hconn) as [(ev & Hev & Hs)|(id & Hid & Hin & Hi)].
  { intros id Hid. destruct (Hm id Hid) as (p & c & ? & ? & _). eauto. }
  { left. by eapply exec_link. }
  pose proof (Hlanes id Hin) as Hlane. unfold lane in Hlane. rewrite Hi in Hlane. simpl in Hlane.
  destruct (t_pending id (s_net s)) as [|b l] eqn:Hpend; [|left; by eapply exec_deliver].
  destruct P as [|x P]; [|by destruct (stripe_head order k (x :: P) id)].
  destruct (l_held (s_lpc s)) as [|y l] eqn:Hheld.
  2: { left. destruct (s_lpc s) as [| | | | |rest b'| | | |] eqn:El; try done.
       eapply (exec_link s (EvConn ConnOk)); [done|]. rewrite El. unfold Link.Send_step.
       unfold sort_at in Hsort. destruct (pm_heap (s_hub s) !! me); [|done].
       destruct (safeWrite _ _ _ _) as [? [? ?]]. eauto. }
  simpl in *. rewrite app_nil_r in *.
  assert (~ q_over (s_qpc s)) as Ho by tauto.
  destruct (sender_progress _ _ _ _ _ Hq Hsn Ho) as [(ev & q' & qpc' & out & ? & ? & ?)|[Hh0 Hi0]].
  { left. by eapply exec_send. }
  right. destruct Hsn as [[[? _]|[_ Hf]] _]; [done|]. rewrite Hh0, Hi0, !app_nil_r in Hf. split.
  - rewrite Hsent. f_equal. by rewrite <- (nz_data C), Hf, nz_data.
  - by rewrite <- no_eof_nz, <- Hf, no_eof_nz.
Qed.

(** What it means that everything has arrived. *)
Definition arrived (out0 : bytes) (s : @sys K T) : Prop :=
  exists cn, conn_at (s_hub s) me = Some (Some cn) /\ tc_sent cn = out0 ++ data_of (s_in s) /\
    (~ no_eof (s_in s) -> tc_eof cn = true).

Lemma works_rest out0 s n : works out0 s n -> (exists s', move_step s s') \/ arrived out0 s.
Proof.
  intros (cn & Hinv & Hg). destruct (iv_me _ _ _ _ _ _ Hinv) as [_ Hc].
  destruct Hg as [C P k Hh|[_ [? ?] _ _]]; [|by right; exists cn].
  destruct (healthy_rest _ _ _ _ _ _ Hinv Hh) as [Hs|[? ?]]; [by left|right]. by exists cn.
Qed.

(** After the handshake, and neither [Send] has been started before. *)
Record sys_fresh (s : @sys K T) : Prop := {
  fr_q : chan_closed (q_buffer (s_q s)) = false /\ q_status (s_q s) = StaWait;
  fr_l : status_at (s_hub s) me = Some StaWait;
  fr_links : forall id p c, id ∈ order -> pm_map (s_hub s) !! id = Some p ->
               buf_at (s_hub s) p = Some c -> 0 < chan_cap c;
}.

Lemma fresh_works conn s :
  sys_init order master me conn s -> sys_fresh s -> exists n, works (tc_sent conn) s n.
Proof.
  intros Hinit [[Hc Hs] Hl Hcap]. apply sys_init_inv in Hinit as Hinv.
  destruct Hinit as [_ (Hso & Hi & Hw) Hpc Hnet (Hwf & _ & Hsort & Hconn) Hli Hlpc Hin Heof].
  eexists. exists conn. split; [done|]. apply (good_healthy _ _ _ [] [] 0). split; try done.
  - split; rewrite ?Hin, ?Hlpc; simpl.
    + intros id Hid. destruct (Hli id Hid) as (p & c & ? & ? & _ & ?). eauto.
    + unfold data_of. simpl. by rewrite app_nil_r.
    + rewrite Hpc. split; [right; split; [by intros []|simpl; by rewrite Hi]|].
      intros _. simpl. rewrite Hso. apply top_pos_0.
    + intros id Hid. destruct (Hli id Hid) as (p & c & Hp & Hb & He & _).
      unfold lane, lane_items. by rewrite Hp, Hb, He, (Hnet id Hid).
    + apply top_pos_0.
  - rewrite Hpc. by split.
  - by rewrite Hlpc.
  - by constructor.
  - rewrite Hpc, Hlpc. simpl. split; [done|]. intros H. apply H. by constructor.
Qed.

Lemma works_run out0 s s' : (exists n, works out0 s n) -> rtc ok_step s s' -> exists n, works out0 s' n.
Proof using Type*. intros Hw Hr. induction Hr as [s|s s1 s' Hs _ IH]; [done|].
  destruct Hw as [n Hw]. apply IH. by eapply works_ok. Qed.

Lemma works_bound out0 n k s s' : works out0 s n -> nsteps move_step k s s' -> k <= n.
Proof using Type*.
  intros Hw Hr. revert n Hw. induction Hr as [s|k s s1 s' Hs _ IH]; intros n Hw; [lia|].
  destruct (works_move _ _ _ _ Hw Hs) as (n1 & Hw1 & Hn). specialize (IH _ Hw1). lia.
Qed.
End system_moves.

(** Everything arrives. From the handshake on, while no timer expires, no
    connection fails and nobody removes the proxied connection, under any
    scheduling of the writer, the two [Send]s, the dispatchers and whatever other
    connections do on the same websockets and in the same hub: the program
    makes only a bounded number of steps for this connection without further input, so it comes to
    rest; and wherever it is at rest (no deadlock), every byte accepted so far
    has been written to the receiver's TCP connection, which has been shut
    down for writing if the writer signalled its end of file. *)
Theorem stream_delivered conn s0 s :
  sys_init order master me conn s0 -> sys_fresh s0 -> rtc ok_step s0 s ->
  (exists n, forall k s', nsteps move_step k s s' -> k <= n) /\
  ((forall s', ~ move_step s s') ->
     exists cn, conn_at (s_hub s) me = Some (Some cn) /\
       tc_sent cn = tc_sent conn ++ data_of (s_in s) /\
       (~ no_eof (s_in s) -> tc_eof cn = true)).
Proof.
  intros Hinit Hfresh Hr. destruct (in_order _ _ _ _ _ Hinit) as [Hnd Hm].
  destruct (works_run Hnd Hm _ _ _ (fresh_works _ _ Hinit Hfresh) Hr) as [n Hw]. split.
  - exists n. intros k s'. by eapply works_bound.
  - intros Hrest. by destruct (works_rest _ _ _ Hw) as [[s' Hs']|?]; [destruct (Hrest s')|].
Qed.
End delivery.
