(* ===== verification/Base64.v ===== *)
(** The standard encoding of Go's encoding/base64, which carries the chunks in
    the JSON messages: [EncodeToString] and [DecodeString] of
    [base64.StdEncoding], and that decoding undoes encoding. *)
From Stdlib Require Import Ascii.
From S2P Require Import Prelude.

Open Scope Z_scope.

(** ** The alphabet *)

Definition b64_alphabet : bytes :=
  bytes_of "ABCDEFGHIJKLMNOPQRSTUVWXYZabcdefghijklmnopqrstuvwxyz0123456789+/".

Definition b64_char (n : Z) : byte := default "A"%char (b64_alphabet !! Z.to_nat n).

Fixpoint b64_index (l : bytes) (c : byte) : option Z :=
  match l with
  | [] => None
  | x :: l' => if decide (x = c) then Some 0 else Z.succ <$> b64_index l' c
  end.

Definition b64_value (c : byte) : option Z := b64_index b64_alphabet c.

Definition b64_pad : byte := "="%char.

Lemma b64_value_char n : 0 <= n < 64 -> b64_value (b64_char n) = Some n.
Proof.
  intros Hn.
  assert (forallb (fun k => bool_decide (b64_value (b64_char (Z.of_nat k)) = Some (Z.of_nat k)))
            (seq 0 64) = true) as H by (vm_compute; reflexivity).
  rewrite forallb_forall in H. specialize (H (Z.to_nat n)).
  rewrite Z2Nat.id, bool_decide_eq_true in H by lia. apply H, in_seq. lia.
Qed.

Lemma b64_char_no_pad n : 0 <= n < 64 -> b64_char n <> b64_pad.
Proof. intros Hn%b64_value_char E. rewrite E in Hn. discriminate. Qed.

(** ** Encoding *)

(** The [i]-th of the six-bit digits of a 24-bit quantum, from the left. *)
Definition sextet (v i : Z) : Z := Z.land (Z.shiftr v (18 - 6 * i)) 63.

Fixpoint b64_encode (l : bytes) : bytes :=
  match l with
  | [] => []
  | [a] =>
      let v := Z.shiftl (byte_val a) 16 in
      [b64_char (sextet v 0); b64_char (sextet v 1); b64_pad; b64_pad]
  | [a; b] =>
      let v := Z.lor (Z.shiftl (byte_val a) 16) (Z.shiftl (byte_val b) 8) in
      [b64_char (sextet v 0); b64_char (sextet v 1); b64_char (sextet v 2); b64_pad]
  | a :: b :: c :: l' =>
      let v := Z.lor (Z.lor (Z.shiftl (byte_val a) 16) (Z.shiftl (byte_val b) 8)) (byte_val c) in
      b64_char (sextet v 0) :: b64_char (sextet v 1) :: b64_char (sextet v 2)
        :: b64_char (sextet v 3) :: b64_encode l'
  end.

Definition EncodeToString (data : bytes) : string := string_of (b64_encode data).

(** ** Decoding *)

(** The bytes of a 24-bit quantum. *)
Definition octet (v i : Z) : byte := byte_of_Z (Z.shiftr v (16 - 8 * i)).

Definition quantum (w x y z : Z) : Z :=
  Z.lor (Z.lor (Z.shiftl w 18) (Z.shiftl x 12)) (Z.lor (Z.shiftl y 6) z).

(** [None] is a CorruptInputError.  Padding ends the input; its unused low bits
    are not checked (the encoding is not strict). *)
Fixpoint b64_decode (l : bytes) : option bytes :=
  match l with
  | [] => Some []
  | a :: b :: c :: d :: l' =>
      w ← b64_value a;
      x ← b64_value b;
      if decide (c = b64_pad) then
        if decide (d = b64_pad /\ l' = []) then Some [octet (quantum w x 0 0) 0] else None
      else
        y ← b64_value c;
        if decide (d = b64_pad) then
          if decide (l' = []) then Some [octet (quantum w x y 0) 0; octet (quantum w x y 0) 1] else None
        else
          z ← b64_value d;
          r ← b64_decode l';
          Some (octet (quantum w x y z) 0 :: octet (quantum w x y z) 1 :: octet (quantum w x y z) 2 :: r)
  | _ => None
  end.

(** Newlines are skipped wherever they occur. *)
Definition b64_newline (c : byte) : Prop := c = "010"%char \/ c = "013"%char.

#[export] Instance b64_newline_dec c : Decision (b64_newline c).
Proof. unfold b64_newline. apply _. Defined.

Definition DecodeString (s : string) : option bytes :=
  b64_decode (filter (fun c => ~ b64_newline c) (bytes_of s)).

(** ** The round trip *)

Lemma sextet_div v i : 0 <= i <= 3 -> sextet v i = v / 2 ^ (18 - 6 * i) mod 64.
Proof.
  intros Hi. unfold sextet. rewrite Z.shiftr_div_pow2 by lia.
  change 63 with (Z.ones 6). by rewrite Z.land_ones by lia.
Qed.

Lemma sextet_bound v i : 0 <= i <= 3 -> 0 <= sextet v i < 64.
Proof. intros Hi. rewrite sextet_div by done. apply Z.mod_pos_bound. lia. Qed.

Lemma lor_add a b n : 0 <= n -> 0 <= b < 2 ^ n -> Z.lor (Z.shiftl a n) b = a * 2 ^ n + b.
Proof.
  intros Hn Hb. rewrite <- Z.shiftl_mul_pow2 by done. rewrite <- Z.add_lor_land.
  assert (Z.land (Z.shiftl a n) b = 0) as ->; [|lia].
  apply Z.bits_inj'. intros k Hk. rewrite Z.land_spec, Z.bits_0.
  destruct (Z.lt_ge_cases k n).
  - by rewrite Z.shiftl_spec_low.
  - destruct (decide (b = 0)) as [->|]; [by rewrite Z.bits_0, andb_false_r|].
    rewrite (Z.bits_above_log2 b k), andb_false_r; [done|lia|].
    assert (Z.log2 b < n); [|lia]. apply Z.log2_lt_pow2; lia.
Qed.

(** Splitting three bytes into four digits and back. *)
Lemma quantum_sextets v :
  0 <= v < 2 ^ 24 -> quantum (sextet v 0) (sextet v 1) (sextet v 2) (sextet v 3) = v.
Proof.
  intros Hv. pose proof (sextet_bound v 0). pose proof (sextet_bound v 1).
  pose proof (sextet_bound v 2). pose proof (sextet_bound v 3).
  unfold quantum. rewrite (lor_add (sextet v 2) (sextet v 3) 6) by lia.
  replace 18 with (6 + 12) at 1 by lia.
  rewrite <- (Z.shiftl_shiftl (sextet v 0) 6 12), <- Z.shiftl_lor by lia.
  rewrite !lor_add by lia. rewrite !sextet_div by lia. clear -Hv.
  replace (18 - 6 * 0) with 18 by lia. replace (18 - 6 * 1) with 12 by lia.
  replace (18 - 6 * 2) with 6 by lia. replace (18 - 6 * 3) with 0 by lia.
  change (2 ^ 24) with 16777216 in Hv. change (2 ^ 18) with 262144. change (2 ^ 12) with 4096.
  change (2 ^ 6) with 64. change (2 ^ 0) with 1. Z.to_euclidean_division_equations. lia.
Qed.

Lemma bytes_quantum a b c :
  let v := Z.lor (Z.lor (Z.shiftl (byte_val a) 16) (Z.shiftl (byte_val b) 8)) (byte_val c) in
  0 <= v < 2 ^ 24 /\ octet v 0 = a /\ octet v 1 = b /\ octet v 2 = c.
Proof.
  intros v. pose proof (byte_val_bound a). pose proof (byte_val_bound b). pose proof (byte_val_bound c).
  assert (v = (byte_val a * 2 ^ 8 + byte_val b) * 2 ^ 8 + byte_val c) as ->.
  { unfold v. change 16 with (8 + 8). rewrite <- (Z.shiftl_shiftl (byte_val a) 8 8), <- Z.shiftl_lor by lia.
    by rewrite !lor_add by lia. }
  split; [lia|]. unfold octet. rewrite !Z.shiftr_div_pow2 by lia.
  assert (forall z d, (z mod 256 = byte_val d) -> byte_of_Z z = d) as Hof.
  { intros z d Hz. unfold byte_of_Z. rewrite Hz. unfold byte_val. rewrite N2Z.id.
    apply Ascii.ascii_N_embedding. }
  change (2 ^ 8) with 256. change (2 ^ (16 - 8 * 0)) with 65536. change (2 ^ (16 - 8 * 1)) with 256.
  change (2 ^ (16 - 8 * 2)) with 1.
  split_and!; apply Hof; clear Hof; Z.to_euclidean_division_equations; lia.
Qed.

Lemma byte_val_0 : byte_val "000"%char = 0.
Proof. done. Qed.

(** Short groups are groups of three whose missing bytes are zero. *)
Lemma b64_decode_encode l : b64_decode (b64_encode l) = Some l.
Proof.
  assert (forall n : nat, forall l, (length l <= n)%nat -> b64_decode (b64_encode l) = Some l) as H.
  2: { by eapply H. }
  clear l. intros n. induction n as [|n IH]; intros l Hl; [by destruct l; simpl in Hl; [|lia]|].
  destruct l as [|a [|b [|c l]]]; simpl b64_encode; [done| | |].
  - pose proof (bytes_quantum a "000" "000") as H. rewrite byte_val_0, Z.shiftl_0_l, !Z.lor_0_r in H.
    set (v := Z.shiftl (byte_val a) 16) in *. destruct H as (Hv & Ha & _).
    assert (sextet v 2 = 0 /\ sextet v 3 = 0) as [E2 E3].
    { rewrite !sextet_div by lia. unfold v. rewrite Z.shiftl_mul_pow2 by lia.
      change (2 ^ 16) with 65536. change (2 ^ (18 - 6 * 2)) with 64. change (2 ^ (18 - 6 * 3)) with 1.
      Z.to_euclidean_division_equations. lia. }
    pose proof (quantum_sextets v Hv) as Hq. rewrite E2, E3 in Hq. cbn [b64_decode].
    rewrite !b64_value_char by (apply sextet_bound; lia). simpl. by rewrite Hq, Ha.
  - pose proof (bytes_quantum a b "000") as H. rewrite byte_val_0, Z.lor_0_r in H.
    set (v := Z.lor _ _) in *. destruct H as (Hv & Ha & Hb & _).
    assert (sextet v 3 = 0) as E3.
    { pose proof (byte_val_bound b). rewrite sextet_div by lia. unfold v.
      change 16 with (8 + 8). rewrite <- (Z.shiftl_shiftl (byte_val a) 8 8), <- Z.shiftl_lor by lia.
      rewrite Z.shiftl_mul_pow2 by lia. change (2 ^ 8) with 256. change (2 ^ (18 - 6 * 3)) with 1.
      Z.to_euclidean_division_equations. lia. }
    pose proof (quantum_sextets v Hv) as Hq. rewrite E3 in Hq. cbn [b64_decode].
    rewrite !b64_value_char by (apply sextet_bound; lia).
    pose proof (b64_char_no_pad (sextet v 2) (sextet_bound v 2 ltac:(lia))). simpl.
    rewrite decide_False by done. simpl. by rewrite Hq, Ha, Hb.
  - pose proof (bytes_quantum a b c) as H. set (v := Z.lor _ (byte_val c)) in *.
    destruct H as (Hv & Ha & Hb & Hc). cbn [b64_decode].
    rewrite !b64_value_char by (apply sextet_bound; lia). simpl.
    rewrite !decide_False by (apply b64_char_no_pad, sextet_bound; lia). simpl.
    rewrite IH by (simpl in Hl; lia). simpl. by rewrite (quantum_sextets v Hv), Ha, Hb, Hc.
Qed.

Lemma b64_encode_alphabet l : Forall (fun c => c ∈ b64_pad :: b64_alphabet) (b64_encode l).
Proof.
  assert (forall n, b64_char n ∈ b64_pad :: b64_alphabet) as Hc.
  { intros n. unfold b64_char. apply list_elem_of_further.
    destruct (b64_alphabet !! Z.to_nat n) as [c|] eqn:E; simpl; [by eapply list_elem_of_lookup_2|].
    apply list_elem_of_here. }
  pose proof (list_elem_of_here b64_pad b64_alphabet) as Hp.
  remember (length l) as n eqn:E. revert l E. induction (lt_wf n) as [n _ IH]. intros l ->.
  destruct l as [|a [|b [|c l]]]; cbn [b64_encode]; repeat (constructor; [by auto|]); [constructor..|].
  eapply IH; [|done]. simpl. lia.
Qed.

Lemma b64_encode_no_newline l : filter (fun c => ~ b64_newline c) (b64_encode l) = b64_encode l.
Proof.
  assert (Forall (fun c => ~ b64_newline c) (b64_pad :: b64_alphabet)) as Hall.
  { apply (bool_decide_unpack _). vm_compute. done. }
  rewrite Forall_forall in Hall.
  induction (b64_encode_alphabet l) as [|c k Hc _ IH]; [done|].
  by rewrite filter_cons, decide_True, IH by auto.
Qed.

Lemma DecodeString_EncodeToString data : DecodeString (EncodeToString data) = Some data.
Proof.
  unfold DecodeString, EncodeToString.
  by rewrite bytes_of_string_of, b64_encode_no_newline, b64_decode_encode.
Qed.

Close Scope Z_scope.
