(* ===== verification/Json.v ===== *)
(** Go's encoding/json at the level of JSON values.

    The program never looks at JSON text: it marshals and unmarshals structs.
    So the wire carries values ([json]), and this file has what encoding/json
    does between values and structs: [json_string], the coercion of strings to
    valid UTF-8 when they are marshalled, and the unmarshalling of fields:
    matching of names, null, type errors, unknown and repeated keys.  The text
    of a value is not modelled. *)
From Stdlib Require Import Ascii.
From S2P Require Import Prelude.

(** An integer literal is a [JNum]; any other number is a [JReal]. *)
Inductive json :=
  | JNull
  | JBool (b : bool)
  | JNum (z : Z)
  | JReal (literal : string)
  | JStr (s : string)
  | JArr (l : list json)
  | JObj (l : list (string * json)).

(** * Marshalling *)

(** UTF-8: is a byte in a range, and the well-formed sequences
    (unicode/utf8.DecodeRune), given as the length of the first rune of the
    input, or 0 if it is not well formed. *)
Definition in_range (lo hi : Z) (c : byte) : bool :=
  (lo <=? byte_val c)%Z && (byte_val c <=? hi)%Z.

Definition cont : byte -> bool := in_range 128 191.

Definition rune_len (l : bytes) : nat :=
  match l with
  | [] => 0
  | a :: l1 =>
      if in_range 0 127 a then 1
      else match l1 with
      | [] => 0
      | b :: l2 =>
          if in_range 194 223 a then (if cont b then 2 else 0)
          else match l2 with
          | [] => 0
          | c :: l3 =>
              if in_range 224 239 a then
                let lo := (if (byte_val a =? 224)%Z then 160 else 128)%Z in
                let hi := (if (byte_val a =? 237)%Z then 159 else 191)%Z in
                if in_range lo hi b && cont c then 3 else 0
              else match l3 with
              | [] => 0
              | d :: _ =>
                  if in_range 240 244 a then
                    let lo := (if (byte_val a =? 240)%Z then 144 else 128)%Z in
                    let hi := (if (byte_val a =? 244)%Z then 143 else 191)%Z in
                    if in_range lo hi b && cont c && cont d then 4 else 0
                  else 0
              end
          end
      end
  end.

(** U+FFFD *)
Definition replacement : bytes := ["239"; "191"; "189"]%char.

(** Invalid bytes become U+FFFD.  [n] counts the bytes that remain of a rune
    whose first byte has been copied. *)
Fixpoint utf8_coerce (n : nat) (l : bytes) : bytes :=
  match l with
  | [] => []
  | a :: l' =>
      match n with
      | S n' => a :: utf8_coerce n' l'
      | 0 => match rune_len l with
             | 0 => replacement ++ utf8_coerce 0 l'
             | S k => a :: utf8_coerce k l'
             end
      end
  end.

(** A Go string as a JSON string. *)
Definition json_string (s : string) : string := string_of (utf8_coerce 0 (bytes_of s)).

Definition ascii7 (s : string) : bool := forallb (in_range 0 127) (bytes_of s).

Lemma json_string_ascii s : ascii7 s = true -> json_string s = s.
Proof.
  unfold json_string, ascii7. intros H. rewrite <- (string_of_bytes_of s) at 2. f_equal.
  induction (bytes_of s) as [|a l IH]; [done|]. cbn [forallb] in H.
  apply andb_true_iff in H as [Ha Hl]. cbn [utf8_coerce rune_len]. rewrite Ha. f_equal. auto.
Qed.

(** * Unmarshalling *)

(** Field names match exactly or up to the case of ASCII letters. *)
Definition lower (c : byte) : byte :=
  if in_range 65 90 c then byte_of_Z (byte_val c + 32) else c.

Definition fold_name (s : string) : bytes := map lower (bytes_of s).

Definition name_matches (key field : string) : bool :=
  bool_decide (fold_name key = fold_name field).

(** Values that are not null, into a field of a basic type; null leaves the
    field as it is. [None] is an UnmarshalTypeError. *)
Definition dec_string (old : string) (v : json) : option string :=
  match v with JStr s => Some s | JNull => Some old | _ => None end.

Definition dec_bool (old : bool) (v : json) : option bool :=
  match v with JBool b => Some b | JNull => Some old | _ => None end.

Definition dec_int (old : Z) (v : json) : option Z :=
  match v with
  | JNum z => if decide (int64 z = z) then Some z else None
  | JNull => Some old
  | _ => None
  end.

Definition dec_uint (old : Z) (v : json) : option Z :=
  match v with
  | JNum z => if decide (uint64 z = z) then Some z else None
  | JNull => Some old
  | _ => None
  end.

(** Unmarshalling into a struct: the keys are handled from left to right by
    [field], which sets the field of that name; a type error does not stop the
    decoding but makes it fail. [None] is the failure. *)
Fixpoint dec_fields {A} (field : string -> json -> A -> option A) (l : list (string * json))
    (a : A) : option A :=
  match l with
  | [] => Some a
  | (k, v) :: l' => a' ← field k v a; dec_fields field l' a'
  end.

Definition dec_struct {A} (field : string -> json -> A -> option A) (zero : A) (v : json) :
    option A :=
  match v with
  | JObj l => dec_fields field l zero
  | JNull => Some zero
  | _ => None
  end.

(** A [[]T]: [elem] decodes an element, given the zero value for null. *)
Definition dec_slice {A} (elem : json -> option A) (v : json) : option (list A) :=
  match v with
  | JArr l => mapM elem l
  | JNull => Some []
  | _ => None
  end.

Lemma dec_slice_map {A} (elem : json -> option A) (enc : A -> json) l :
  (forall a, elem (enc a) = Some a) -> dec_slice elem (JArr (map enc l)) = Some l.
Proof.
  intros H. simpl. induction l as [|a l IH]; [done|]. simpl. rewrite H. simpl. by rewrite IH.
Qed.
