(* ===== verification/Messages.v ===== *)
(** The messages on the websockets: their data types (wss/ws_datatypes.go),
    how the two sides write them (wss/concurrent_websocket.go,
    wss/proxy_client.go, [TellClose], [tellClosed], the heart beat) and how
    they are unmarshalled again. *)
From Stdlib Require Import Ascii.
From S2P Require Import Prelude Pipe Base64 Json.

(** What the program uses of github.com/segmentio/ksuid besides map keys: a
    KSUID has a text form of letters and digits, which [Parse] reads back, and
    a zero value.  In JSON a KSUID is its text. *)
Class KsuidText {K : Ksuid} := {
  ksuid_String : KSUID -> string;
  ksuid_Parse : string -> option KSUID;
  ksuid_Nil : KSUID;
  ksuid_parse_string id : ksuid_Parse (ksuid_String id) = Some id;
  ksuid_string_ascii id : ascii7 (ksuid_String id) = true;
}.
Arguments KsuidText : clear implicits.

(** A concrete instance: a number is as many letters. *)
Definition N_String (n : N) : string := string_of (replicate (N.to_nat n) "a"%char).
Definition N_Parse (s : string) : option N :=
  if forallb (fun c => bool_decide (c = "a"%char)) (bytes_of s)
  then Some (N.of_nat (length (bytes_of s))) else None.

#[refine] Definition ksuid_text_N : KsuidText ksuid_N :=
  {| ksuid_String := (N_String : @KSUID ksuid_N -> string); ksuid_Parse := N_Parse;
     ksuid_Nil := (0%N : @KSUID ksuid_N) |}.
Proof.
  - intros n. unfold N_Parse, N_String. rewrite bytes_of_string_of, length_replicate, N2Nat.id.
    rewrite (proj2 (forallb_forall _ _)); [done|].
    intros x Hx%list_elem_of_In%elem_of_replicate. by destruct Hx as [-> _].
  - intros n. unfold ascii7, N_String. rewrite bytes_of_string_of.
    apply forallb_forall. intros x Hx%list_elem_of_In%elem_of_replicate. by destruct Hx as [-> _].
Defined.

Section messages.
Context {K : Ksuid} `{!KsuidText K}.
Implicit Types (id : KSUID) (data : bytes) (sorted : list KSUID).

(** * Data types (ws_datatypes.go, proxy_client.go) *)

Definition WsTpVer : string := "version".
Definition WsTpBeats : string := "heart_beat".
Definition WsTpClose : string := "finish".
Definition WsTpData : string := "data".
Definition WsTpEst : string := "est".
Definition WsTpHi : string := "sayhi".

Definition TagData : Z := 0.
Definition TagEstOk : Z := 1.
Definition TagEstErr : Z := 2.
Definition TagNoMore : Z := 3.
Definition TagHandshake : Z := 4.
Definition TagEOF : Z := 5.

(** [Data] is the JSON value of the field, [None] for nil. *)
Record WebSocketMessage := mkMessage {
  m_Id : string;
  m_Type : string;
  m_Data : option json;
}.

Record ProxyData := mkProxyData { pd_Tag : Z; pd_DataBase64 : string }.

(** [Sorted] is [None] when the slice is nil. *)
Record ProxyEstMessage := mkEst {
  e_Addr : string;
  e_Sorted : option (list KSUID);
  e_WithData : bool;
  e_DataBase64 : string;
}.

Record ServerData := mkServerData { sd_Tag : Z; sd_Data : bytes }.

(** ** Marshalling *)

Definition marshal_message (m : WebSocketMessage) : json :=
  JObj [("id", JStr (json_string (m_Id m))); ("type", JStr (json_string (m_Type m)));
        ("data", default JNull (m_Data m))].

Definition marshal_id id : json := JStr (json_string (ksuid_String id)).

Definition marshal_data (d : ProxyData) : json :=
  JObj [("tag", JNum (pd_Tag d)); ("base64", JStr (json_string (pd_DataBase64 d)))].

Definition marshal_est (e : ProxyEstMessage) : json :=
  JObj [("addr", JStr (json_string (e_Addr e)));
        ("sorted", match e_Sorted e with Some l => JArr (map marshal_id l) | None => JNull end);
        ("with_data", JBool (e_WithData e));
        ("base64", JStr (json_string (e_DataBase64 e)))].

(** ** Unmarshalling *)

(** The [Data] field is declared as an interface that holds a pointer to a
    [json.RawMessage], which then has the raw value; null leaves it empty. *)
Definition dec_message_field (k : string) (v : json) (m : WebSocketMessage) :
    option WebSocketMessage :=
  if name_matches k "id" then
    s ← dec_string (m_Id m) v; Some (mkMessage s (m_Type m) (m_Data m))
  else if name_matches k "type" then
    s ← dec_string (m_Type m) v; Some (mkMessage (m_Id m) s (m_Data m))
  else if name_matches k "data" then
    Some (match v with
          | JNull => m
          | _ => mkMessage (m_Id m) (m_Type m) (Some v)
          end)
  else Some m.

Definition unmarshal_message (v : json) : option WebSocketMessage :=
  dec_struct dec_message_field (mkMessage "" "" None) v.

(** Unmarshalling an empty raw message is an error. *)
Definition unmarshal_raw {A} (dec : json -> option A) (raw : option json) : option A :=
  match raw with Some v => dec v | None => None end.

Definition unmarshal_id (v : json) : option KSUID :=
  match v with
  | JStr s => ksuid_Parse s
  | JNull => Some ksuid_Nil
  | _ => None
  end.

Definition dec_data_field (k : string) (v : json) (d : ProxyData) : option ProxyData :=
  if name_matches k "tag" then
    z ← dec_int (pd_Tag d) v; Some (mkProxyData z (pd_DataBase64 d))
  else if name_matches k "base64" then
    s ← dec_string (pd_DataBase64 d) v; Some (mkProxyData (pd_Tag d) s)
  else Some d.

Definition unmarshal_data (v : json) : option ProxyData :=
  dec_struct dec_data_field (mkProxyData 0 "") v.

Definition dec_est_field (k : string) (v : json) (e : ProxyEstMessage) : option ProxyEstMessage :=
  if name_matches k "addr" then
    s ← dec_string (e_Addr e) v; Some (mkEst s (e_Sorted e) (e_WithData e) (e_DataBase64 e))
  else if name_matches k "sorted" then
    match v with
    | JNull => Some (mkEst (e_Addr e) None (e_WithData e) (e_DataBase64 e))
    | _ => l ← dec_slice unmarshal_id v;
           Some (mkEst (e_Addr e) (Some l) (e_WithData e) (e_DataBase64 e))
    end
  else if name_matches k "with_data" then
    b ← dec_bool (e_WithData e) v; Some (mkEst (e_Addr e) (e_Sorted e) b (e_DataBase64 e))
  else if name_matches k "base64" then
    s ← dec_string (e_DataBase64 e) v; Some (mkEst (e_Addr e) (e_Sorted e) (e_WithData e) s)
  else Some e.

Definition unmarshal_est (v : json) : option ProxyEstMessage :=
  dec_struct dec_est_field (mkEst "" None false "") v.

(** * Writing messages

    [ws_err] is the error of the websocket when it is given the message. *)

(** What a call gives to the websocket, and its result. *)
Definition ws_write (m : WebSocketMessage) (ws_err : option error) : list json * option error :=
  ([marshal_message m], ws_err).

(** [ConcurrentWebSocket.WriteProxyMessage] *)
Definition proxy_message id (tag : Z) data : WebSocketMessage :=
  mkMessage (ksuid_String id) WsTpData (Some (marshal_data (mkProxyData tag (EncodeToString data)))).

Definition WriteProxyMessage (ws_err : option error) id (tag : Z) data : list json * option error :=
  ws_write (proxy_message id tag data) ws_err.

(** [webSocketWriter]: the websocket (its index among those of the process),
    the connection's ID and [Ctx.Err()]. *)
Record webSocketWriter := mkWriter { w_WSC : nat; w_Id : KSUID; w_CtxErr : option error }.

Definition NewWebSocketWriter (wsc : nat) id : webSocketWriter := mkWriter wsc id None.

(** [CloseWsWriter] cancels the context. *)
Definition context_Canceled : error := errors_New "context canceled".

Definition CloseWsWriter (w : webSocketWriter) : webSocketWriter :=
  mkWriter (w_WSC w) (w_Id w) (match w_CtxErr w with Some e => Some e | None => Some context_Canceled end).

Definition writer_Write (w : webSocketWriter) (ws_err : option error) (buffer : bytes) :
    list json * (Z * option error) :=
  match w_CtxErr w with
  | Some e => ([], (0%Z, Some e))
  | None =>
      match WriteProxyMessage ws_err (w_Id w) TagData buffer with
      | (out, Some e) => (out, (0%Z, Some e))
      | (out, None) => (out, (Z.of_nat (length buffer), None))
      end
  end.

Definition writer_WriteEOF (w : webSocketWriter) (ws_err : option error) : list json :=
  match w_CtxErr w with
  | Some _ => []
  | None => fst (WriteProxyMessage ws_err (w_Id w) TagEOF [])
  end.

(** [Base64WSBufferWriter]: the bytes of its buffer. *)
Definition Base64_Write (p buffer : bytes) : bytes * (Z * option error) :=
  (buffer ++ p, (Z.of_nat (length p), None)).

(** [Flush]; [messageType] is not used. *)
Definition Base64_Flush (ws_err : option error) id (buffer : bytes) :
    bytes * list json * (Z * option error) :=
  if (length buffer =? 0)%nat then (buffer, [], (0%Z, None))
  else
    let m := mkMessage (ksuid_String id) WsTpData
               (Some (marshal_data (mkProxyData 0 (EncodeToString buffer)))) in
    match ws_write m ws_err with
    | (out, Some e) => (buffer, out, (0%Z, Some e))
    | (out, None) => ([], out, (Z.of_nat (length buffer), None))
    end.

(** [ProxyClient.SayID]: [p_Id] is the proxy's, [id] the master's. *)
Definition hi_message (p_Id id : KSUID) : WebSocketMessage :=
  mkMessage (ksuid_String p_Id) WsTpHi (Some (marshal_id id)).

Definition SayID (ws_err : option error) (p_Id id : KSUID) : list json * option error :=
  ws_write (hi_message p_Id id) ws_err.

(** [ProxyClient.Establish]; [firstSendData] may be nil. *)
Definition est_message (p_Id : KSUID) (firstSendData : option bytes) (addr : string)
    (sorted : option (list KSUID)) : WebSocketMessage :=
  let estMsg := match firstSendData with
                | Some d => mkEst addr sorted true (EncodeToString d)
                | None => mkEst addr sorted false ""
                end in
  mkMessage (ksuid_String p_Id) WsTpEst (Some (marshal_est estMsg)).

Definition Establish (ws_err : option error) (p_Id : KSUID) (firstSendData : option bytes)
    (addr : string) (sorted : option (list KSUID)) : list json * option error :=
  ws_write (est_message p_Id firstSendData addr sorted) ws_err.

(** [WebSocketClient.TellClose] and [Hub.tellClosed] *)
Definition finish_message id : WebSocketMessage := mkMessage (ksuid_String id) WsTpClose None.

Definition TellClose (ws_err : option error) id : list json * option error :=
  ws_write (finish_message id) ws_err.

Definition tellClosed (ws_err : option error) id : list json * option error :=
  ws_write (finish_message id) ws_err.

(** The heart beat: the ID of twenty zero bytes. *)
Definition heartBeats : WebSocketMessage := mkMessage (ksuid_String ksuid_Nil) WsTpBeats None.

(** * Round trips *)

Lemma json_string_id id : json_string (ksuid_String id) = ksuid_String id.
Proof. apply json_string_ascii, ksuid_string_ascii. Qed.

Lemma unmarshal_marshal_id id : unmarshal_id (marshal_id id) = Some id.
Proof. simpl. by rewrite json_string_id, ksuid_parse_string. Qed.

Lemma unmarshal_marshal_message m :
  m_Data m <> Some JNull -> ascii7 (m_Type m) = true -> ascii7 (m_Id m) = true ->
  unmarshal_message (marshal_message m) = Some m.
Proof.
  intros Hd Ht Hi. destruct m as [i t d]. unfold marshal_message. simpl in *.
  rewrite !json_string_ascii by done. unfold unmarshal_message, dec_message_field. simpl.
  destruct d as [[]|]; try done.
Qed.
Lemma EncodeToString_ascii data : ascii7 (EncodeToString data) = true.
Proof.
  unfold ascii7, EncodeToString. rewrite bytes_of_string_of. apply forallb_forall.
  intros c Hc%list_elem_of_In. pose proof (b64_encode_alphabet data) as H.
  rewrite Forall_forall in H. specialize (H c Hc).
  assert (forallb (in_range 0 127) (b64_pad :: b64_alphabet) = true) as Hall by done.
  rewrite forallb_forall in Hall. by apply Hall, list_elem_of_In.
Qed.

Lemma unmarshal_marshal_data tag data :
  int64 tag = tag ->
  unmarshal_data (marshal_data (mkProxyData tag (EncodeToString data))) =
    Some (mkProxyData tag (EncodeToString data)).
Proof.
  intros Ht. unfold marshal_data. simpl. rewrite json_string_ascii by apply EncodeToString_ascii.
  unfold unmarshal_data, dec_data_field. simpl. by rewrite decide_True.
Qed.

(** What [unmarshal_message] makes of the messages the program writes. *)
Lemma unmarshal_proxy_message id tag data :
  unmarshal_message (marshal_message (proxy_message id tag data)) = Some (proxy_message id tag data).
Proof. apply unmarshal_marshal_message; [done|done|apply ksuid_string_ascii]. Qed.

Lemma unmarshal_hi_message p_Id id :
  unmarshal_message (marshal_message (hi_message p_Id id)) = Some (hi_message p_Id id).
Proof. apply unmarshal_marshal_message; [done|done|apply ksuid_string_ascii]. Qed.

Lemma unmarshal_finish_message id :
  unmarshal_message (marshal_message (finish_message id)) = Some (finish_message id).
Proof. apply unmarshal_marshal_message; [done|done|apply ksuid_string_ascii]. Qed.

Lemma unmarshal_est_message p_Id d addr (sorted : option (list KSUID)) :
  unmarshal_message (marshal_message (est_message p_Id d addr sorted)) =
    Some (est_message p_Id d addr sorted).
Proof. by apply unmarshal_marshal_message; [|done|apply ksuid_string_ascii]. Qed.

(** The address is coerced to valid UTF-8 on the way. *)
Lemma unmarshal_marshal_est e :
  ascii7 (e_DataBase64 e) = true ->
  unmarshal_est (marshal_est e) =
    Some (mkEst (json_string (e_Addr e)) (e_Sorted e) (e_WithData e) (e_DataBase64 e)).
Proof.
  intros Hb. destruct e as [addr sorted wd b64]. unfold marshal_est, unmarshal_est. simpl in *.
  rewrite (json_string_ascii b64) by done. unfold dec_est_field. simpl.
  destruct sorted as [l|]; [|done]. cbn [dec_slice].
  pose proof (dec_slice_map unmarshal_id marshal_id l unmarshal_marshal_id) as H.
  cbn [dec_slice] in H. by rewrite H.
Qed.

(** C17: a chunk that a [webSocketWriter] writes, or its end of file, is read back
    by the other side as it was: the message has the connection's ID and the
    type "data", and its fields decode to the tag and the bytes. *)
Theorem data_message_roundtrip (w : webSocketWriter) data :
  w_CtxErr w = None ->
  (exists v m d, writer_Write w None data = ([v], (Z.of_nat (length data), None)) /\
     unmarshal_message v = Some m /\ ksuid_Parse (m_Id m) = Some (w_Id w) /\ m_Type m = WsTpData /\
     unmarshal_raw unmarshal_data (m_Data m) = Some d /\ pd_Tag d = TagData /\
     DecodeString (pd_DataBase64 d) = Some data) /\
  (exists v m d, writer_WriteEOF w None = [v] /\
     unmarshal_message v = Some m /\ ksuid_Parse (m_Id m) = Some (w_Id w) /\ m_Type m = WsTpData /\
     unmarshal_raw unmarshal_data (m_Data m) = Some d /\ pd_Tag d = TagEOF).
Proof.
  intros Hw. unfold writer_Write, writer_WriteEOF. rewrite Hw. split.
  - eexists _, _, _. split; [done|]. rewrite unmarshal_proxy_message. split; [done|].
    cbn [m_Id m_Type m_Data proxy_message unmarshal_raw].
    rewrite ksuid_parse_string. split_and!; [done..|by apply unmarshal_marshal_data|done|].
    apply DecodeString_EncodeToString.
  - eexists _, _, _. split; [done|]. rewrite unmarshal_proxy_message. split; [done|].
    cbn [m_Id m_Type m_Data proxy_message unmarshal_raw].
    rewrite ksuid_parse_string. split_and!; [done..|by apply unmarshal_marshal_data|done].
Qed.
End messages.
