(* ===== verification/Hub.v ===== *)
(** The server's registries: the [Hub] of each websocket (wss/hub.go), the
    [HubCollection] (wss/hub_collection.go) and the objects they close,
    [DefaultProxyEst] (wss/proxy_server.go).

    [server] is the state that the server's goroutines share.  Each proxied
    connection has one [DefaultProxyEst], made by the goroutine that
    establishes it; [est] is that object with the goroutine's own variables,
    and a pointer to it is its index.  Server.v has the goroutine. *)
From S2P Require Import Prelude GoChan Pipe RoundRobin PtrMap Queue QueueHub Link Json Messages.

Section hub.
Context {K : Ksuid} `{!KsuidText K}.

(** [ProxyServer]; it is never changed once made. [ProxyIns] is a pointer. *)
Record ProxyServer := mkProxy { ps_Id : KSUID; ps_ProxyIns : nat }.

(** [Hub]; its websocket is that of the same index. *)
Record Hub := mkHub { hub_id : KSUID; connPool : gmap KSUID ProxyServer }.

(** Program points of [establish], named after the call that comes next. *)
Inductive est_pc :=
  | ECheck                                        (* checkAddrPrivite *)
  | EDial                                         (* net.DialTimeout *)
  | ETryLink (conn : TCPConn)                     (* serverLinkHub.TrySend *)
  | EAddProxy                                     (* hub.addNewProxy *)
  | ETryQueue                                     (* serverQueueHub.TrySend *)
  | EGet                                          (* serverQueueHub.Get *)
  | EWait (writer : option nat)                   (* writer.Wait *)
  | ERemoveProxy                                  (* deferred: hub.RemoveProxy *)
  | ECloseConn                                    (* deferred: conn.Close *)
  | EClose                                        (* deferred: e.Close *)
  | ETell (err : option error)                    (* tellClosed, in establishProxy *)
  | EEnd (err : option error)                     (* establishProxy has returned *)
  | EPanic.

(** The goroutine that waits for the link and then shortens the deadline. *)
Inductive watch_pc :=
  | WNone                                         (* not started *)
  | WGet                                          (* serverLinkHub.Get *)
  | WWait (link : option nat)                     (* link.Wait *)
  | WLine                                         (* d.Line = 5 s *)
  | WEnd.

Record est := mkProxyEst {
  es_status : string;                             (* DefaultProxyEst.status *)
  es_hub : nat;
  es_id : KSUID;
  es_addr : string;
  es_data : option bytes;                         (* the data of the establish message *)
  es_pc : est_pc;
  es_watch : watch_pc;
  es_dead : dead;                                 (* d *)
  es_open : bool;                                 (* conn has been dialled and not closed *)
}.

Record server := mkServer {
  serverQueueHub : QueueHub webSocketWriter;
  serverLinkHub : LinkHub;
  sv_ests : list est;
  sv_hubs : list Hub;
  sv_hc : gmap KSUID nat;                         (* HubCollection.hubs *)
}.

Definition set_queues (h : QueueHub webSocketWriter) (s : server) : server :=
  mkServer h (serverLinkHub s) (sv_ests s) (sv_hubs s) (sv_hc s).
Definition set_links (h : LinkHub) (s : server) : server :=
  mkServer (serverQueueHub s) h (sv_ests s) (sv_hubs s) (sv_hc s).
Definition set_est (p : nat) (f : est -> est) (s : server) : server :=
  mkServer (serverQueueHub s) (serverLinkHub s) (alter f p (sv_ests s)) (sv_hubs s) (sv_hc s).
Definition set_hub (hp : nat) (f : Hub -> Hub) (s : server) : server :=
  mkServer (serverQueueHub s) (serverLinkHub s) (sv_ests s) (alter f hp (sv_hubs s)) (sv_hc s).

Definition set_status (st : string) (e : est) : est :=
  mkProxyEst st (es_hub e) (es_id e) (es_addr e) (es_data e) (es_pc e) (es_watch e) (es_dead e)
    (es_open e).

(** [NewHubCollection], with the hubs of the two packages' [init]. *)
Definition server_init : server := mkServer NewQueueHub NewLinkHub [] [] ∅.

(** [StaticServer] *)
Definition StaticServer (s : server) : nat * nat :=
  (QueueHub.Len (serverQueueHub s), Link.Len (serverLinkHub s)).

(** [DefaultProxyEst.Close], through a pointer; [None] is a panic. Its error is
    always nil. *)
Definition est_Close (p : nat) (id : KSUID) (s : server) : option server :=
  match sv_ests s !! p with
  | Some e =>
      if decide (es_status e = "closed") then Some s
      else
        let s1 := set_est p (set_status "closed") s in
        l ← Link.RemoveAll id (serverLinkHub s1);
        let s2 := set_links l s1 in
        q ← QueueHub.Remove id (serverQueueHub s2);
        Some (set_queues q s2)
  | None => None
  end.

(** * Hubs *)

Definition set_pool (m : gmap KSUID ProxyServer) (h : Hub) : Hub := mkHub (hub_id h) m.

(** [addNewProxy] *)
Definition addNewProxy (hp : nat) (proxy : ProxyServer) (s : server) : server :=
  set_hub hp (fun h => set_pool (<[ps_Id proxy := proxy]> (connPool h)) h) s.

(** [GetProxyById]; [None] is nil. *)
Definition GetProxyById (hp : nat) (id : KSUID) (s : server) : option ProxyServer :=
  h ← sv_hubs s !! hp; connPool h !! id.

(** [GetConnectorSize] *)
Definition GetConnectorSize (h : Hub) : nat := size (connPool h).

(** [CloseProxyConn] *)
Definition CloseProxyConn (hp : nat) (id : KSUID) (s : server) : option server :=
  match GetProxyById hp id s with
  | Some proxy => est_Close (ps_ProxyIns proxy) id s
  | None => Some s
  end.

(** [RemoveProxy] *)
Definition RemoveProxy (hp : nat) (id : KSUID) (s : server) : server :=
  set_hub hp (fun h => match connPool h !! id with
                       | Some _ => set_pool (delete id (connPool h)) h
                       | None => h
                       end) s.

(** [Hub.Close]; [order] is the order in which Go ranges over the map. An entry
    deleted before it is reached is not visited. *)
Fixpoint hub_Close (hp : nat) (order : list KSUID) (s : server) : option server :=
  match order with
  | [] => Some s
  | id :: order' =>
      match GetProxyById hp id s with
      | Some proxy =>
          s1 ← est_Close (ps_ProxyIns proxy) id s;
          hub_Close hp order' (set_hub hp (fun h => set_pool (delete id (connPool h)) h) s1)
      | None => hub_Close hp order' s
      end
  end.

(** * The collection of hubs *)

(** [NewHub]; [id] is the result of [ksuid.New]. *)
Definition NewHub (id : KSUID) (s : server) : server * nat :=
  let hp := length (sv_hubs s) in
  (mkServer (serverQueueHub s) (serverLinkHub s) (sv_ests s) (sv_hubs s ++ [mkHub id ∅])
     (<[id := hp]> (sv_hc s)), hp).

(** [GetConnCount] *)
Definition GetConnCount (s : server) : nat * nat :=
  (size (sv_hc s),
   map_fold (fun _ hp n => match sv_hubs s !! hp with
                           | Some h => GetConnectorSize h + n
                           | None => n
                           end) 0 (sv_hc s)).

(** [HubCollection.RemoveProxy] *)
Definition hc_RemoveProxy (id : KSUID) (s : server) : server :=
  match sv_hc s !! id with
  | Some _ => mkServer (serverQueueHub s) (serverLinkHub s) (sv_ests s) (sv_hubs s) (delete id (sv_hc s))
  | None => s
  end.
End hub.

(** * Facts *)

Section hub_facts.
Context {K : Ksuid} `{!KsuidText K}.
Implicit Types (s : server) (id : KSUID).

(** The hubs of queues and links are well formed, and an entry of a pool is
    there under its own ID and points to an object of that ID and hub. *)
Record server_wf s : Prop := {
  sw_queues : pm_wf (serverQueueHub s);
  sw_links : pm_wf (serverLinkHub s);
  sw_pool hp h id proxy :
    sv_hubs s !! hp = Some h -> connPool h !! id = Some proxy ->
    ps_Id proxy = id /\
    exists e, sv_ests s !! ps_ProxyIns proxy = Some e /\ es_id e = id /\ es_hub e = hp;
}.

(** From [s] to [s'], what a proxied connection has in the hubs of queues and
    links is removed and closed: its queue, and its links, which are its own and
    those of the order that its master link carries. Every other queue and link
    is as it was. *)
Record released id s s' : Prop := {
  rel_queues : pm_removes (serverQueueHub s) [id] (serverQueueHub s');
  rel_links : pm_removes (serverLinkHub s) (link_ids id (serverLinkHub s)) (serverLinkHub s');
}.

Lemma released_gone id s s' :
  released id s s' -> pm_map (serverQueueHub s') !! id = None /\ pm_map (serverLinkHub s') !! id = None.
Proof.
  intros [[[Hq _] _ _] [[Hl _] _ _]]. rewrite Hq, Hl, !decide_True; [done|apply link_ids_self|set_solver].
Qed.

(** Closing an object takes away queues and links, and changes nothing else but
    the status of the object. *)
Record closes (p : nat) id s s' : Prop := {
  cl_once e : sv_ests s !! p = Some e -> if decide (es_status e = "closed") then s' = s else released id s s';
  cl_ests : sv_ests s' = alter (set_status "closed") p (sv_ests s);
  cl_hubs : sv_hubs s' = sv_hubs s /\ sv_hc s' = sv_hc s;
}.

Lemma set_status_twice p (l : list est) e :
  l !! p = Some e -> es_status e = "closed" -> alter (set_status "closed") p l = l.
Proof.
  intros Hl Hs. rewrite <- (list_alter_id id l p) at 2; [|done].
  apply list_alter_ext; [|done]. intros e' He'. simplify_eq. unfold set_status. destruct e. by simpl in *; subst.
Qed.

Lemma est_Close_ok p id s e :
  server_wf s -> sv_ests s !! p = Some e ->
  exists s', est_Close p id s = Some s' /\ closes p id s s' /\
    pm_wf (serverQueueHub s') /\ pm_wf (serverLinkHub s') /\
    (es_status e <> "closed" -> released id s s').
Proof.
  intros [Hq Hl _] He. unfold est_Close. rewrite He. case_decide as Hst.
  - exists s. split_and!; try done. split; try done; [|by erewrite set_status_twice].
    intros e' He'. simplify_eq. by rewrite decide_True.
  - simpl. destruct (RemoveAll_ok id _ Hl) as (l' & El & Hl' & _). rewrite El. simpl.
    unfold QueueHub.Remove. destruct (pm_close_delete_ok id _ Hq) as (q' & Eq & Hq' & _). rewrite Eq. simpl.
    assert (released id s (set_queues q' (set_links l' (set_est p (set_status "closed") s)))) as Hrel.
    { split; [by apply pm_close_delete_removes|by apply RemoveAll_removes]. }
    eexists. split; [done|]. split_and!; try done. split; try done.
    intros e' He'. simplify_eq. by rewrite decide_False.
Qed.

Lemma closes_wf p id s s' :
  closes p id s s' -> pm_wf (serverQueueHub s') -> pm_wf (serverLinkHub s') ->
  server_wf s -> server_wf s'.
Proof.
  intros [_ He [Hh _]] Hq Hl [_ _ Hp]. split; [done..|]. intros hp h id' proxy Hhp Hid.
  rewrite Hh in Hhp. destruct (Hp hp h id' proxy Hhp Hid) as [Hps (e & Hes & Hei & Heh)].
  split; [done|]. rewrite He.
  destruct (decide (ps_ProxyIns proxy = p)) as [<-|Hne].
  - rewrite list_lookup_alter_eq, Hes. by eexists.
  - rewrite list_lookup_alter_ne by congruence. by exists e.
Qed.
(** Deleting an entry of a pool. *)
Lemma delete_pool_wf hp id s :
  server_wf s -> server_wf (set_hub hp (fun h => set_pool (delete id (connPool h)) h) s).
Proof.
  intros [Hq Hl Hp]. split; [done..|]. simpl. intros hp' h' id' proxy Hhp.
  destruct (decide (hp = hp')) as [<-|Hne].
  - rewrite list_lookup_alter_eq in Hhp. destruct (sv_hubs s !! hp) as [h|] eqn:E; [|done].
    injection Hhp as <-. simpl. intros [_ Hid]%lookup_delete_Some. by eapply Hp.
  - rewrite list_lookup_alter_ne in Hhp by done. by eapply Hp.
Qed.

(** *** Closing the entries of a pool

    [open_in h s id]: the pool of [h] has an entry for [id] whose object in [s]
    is not closed. *)
Definition open_in (h : Hub) s id : Prop :=
  exists proxy e, connPool h !! id = Some proxy /\ sv_ests s !! ps_ProxyIns proxy = Some e /\ es_status e <> "closed".

(** What becomes of the hubs of queues and links when the entries [ids] are
    closed: the queues removed are those of the open entries; the links removed
    are links of these entries. All the links of an open entry are, unless its own link is
    one of those of another entry. *)
Record pool_released (h : Hub) (ids : list KSUID) s s' : Prop := {
  plr_queues : exists gone, pm_removes (serverQueueHub s) gone (serverQueueHub s') /\
    forall id, id ∈ gone <-> id ∈ ids /\ open_in h s id;
  plr_links : exists gone, pm_removes (serverLinkHub s) gone (serverLinkHub s') /\
    (forall i, i ∈ gone -> exists id, id ∈ ids /\ open_in h s id /\ i ∈ link_ids id (serverLinkHub s)) /\
    forall id, id ∈ ids -> open_in h s id ->
      (forall id', id' ∈ ids -> open_in h s id' -> id ∈ link_ids id' (serverLinkHub s) -> id' = id) ->
      forall i, i ∈ link_ids id (serverLinkHub s) -> i ∈ gone;
}.

(** What closing the entries [ids] of the pool of [h] does. *)
Record hub_closed (hp : nat) (h : Hub) (ids : list KSUID) s s' : Prop := {
  hcl_pool : exists h', sv_hubs s' !! hp = Some h' /\
    forall id, connPool h' !! id = if decide (id ∈ ids) then None else connPool h !! id;
  hcl_released : pool_released h ids s s';
  hcl_closed id proxy e :
    id ∈ ids -> connPool h !! id = Some proxy -> sv_ests s !! ps_ProxyIns proxy = Some e ->
    sv_ests s' !! ps_ProxyIns proxy = Some (set_status "closed" e);
  hcl_other p :
    (forall id proxy, id ∈ ids -> connPool h !! id = Some proxy -> ps_ProxyIns proxy <> p) ->
    sv_ests s' !! p = sv_ests s !! p;
  hcl_hubs hp' : hp' <> hp -> sv_hubs s' !! hp' = sv_hubs s !! hp';
  hcl_hc : sv_hc s' = sv_hc s;
}.

Lemma pool_released_nil h s : pool_released h [] s s.
Proof.
  split; exists []; split; try apply pm_removes_nil; [set_solver|]. split; [|by intros id ?%not_elem_of_nil].
  by intros i ?%not_elem_of_nil.
Qed.

Lemma hub_closed_nil hp h s : sv_hubs s !! hp = Some h -> hub_closed hp h [] s s.
Proof.
  intros Hh. split; try done.
  - exists h. split; [done|]. intros id. rewrite decide_False; [done|]. apply not_elem_of_nil.
  - apply pool_released_nil.
  - by intros id proxy e ?%not_elem_of_nil.
Qed.

(** An ID without an open entry is passed over. *)
Lemma pool_released_skip h id (ids : list KSUID) s s' :
  ~ open_in h s id -> pool_released h ids s s' -> pool_released h (id :: ids) s s'.
Proof.
  intros Hn [(gq & Hq & Eq) (gl & Hl & El & Al)]. split.
  - exists gq. split; [done|]. intros id'. rewrite Eq, elem_of_cons. naive_solver.
  - exists gl. split; [done|]. split.
    + intros i (id' & Hid & Ho & Hi)%El. exists id'. set_solver.
    + intros id' [->|Hid]%elem_of_cons Ho Hone; [done|]. apply (Al id'); [done..|].
      intros id2 Hid2. apply Hone. set_solver.
Qed.

Lemma hub_closed_skip hp h id (ids : list KSUID) s s' :
  connPool h !! id = None -> hub_closed hp h ids s s' -> hub_closed hp h (id :: ids) s s'.
Proof.
  intros Hn [(h' & Hh' & Hpool) Hr Hc Ho Hhs Hhc]. split; try done.
  - exists h'. split; [done|]. intros id'. rewrite Hpool. repeat case_decide; set_solver.
  - apply pool_released_skip; [|done]. intros (proxy & e & Hp & _). congruence.
  - intros id' proxy e [->|Hid]%elem_of_cons Hp; [congruence|]. by eapply Hc.
  - intros p Hp. apply Ho. intros id' proxy Hid. apply Hp. set_solver.
Qed.

(** The links of a connection after other links were removed. *)
Lemma link_ids_removes (hl hl' : LinkHub) gone id :
  pm_removes hl gone hl' ->
  link_ids id hl' = if decide (id ∈ gone) then [id] else link_ids id hl.
Proof.
  intros [[Hm Hd] _ _]. unfold link_ids. case_decide as Hid; [|by rewrite Hd].
  unfold pm_deref. by rewrite Hm, decide_True.
Qed.

(** One entry is closed, then the others. *)
Lemma pool_released_cons h id (ids : list KSUID) s s1 s2 :
  pm_wf (serverQueueHub s) -> pm_wf (serverLinkHub s) ->
  open_in h s id -> released id s s1 ->
  (forall id', open_in (set_pool (delete id (connPool h)) h) s1 id' <-> id' <> id /\ open_in h s id') ->
  pool_released (set_pool (delete id (connPool h)) h) ids s1 s2 -> pool_released h (id :: ids) s s2.
Proof.
  intros Hwq Hwl Ho [Rq Rl] Hop [(gq & Hq & Eq) (gl & Hl & El & Al)]. split.
  - exists ([id] ++ gq). split; [by eapply pm_removes_trans|]. intros id'. rewrite elem_of_app, Eq, Hop, !elem_of_cons, elem_of_nil.
    destruct (decide (id' = id)) as [->|]; naive_solver.
  - exists (link_ids id (serverLinkHub s) ++ gl). split; [by eapply pm_removes_trans|]. split.
    + intros i [Hi|(id' & Hid & [_ Ho']%Hop & Hi)%El]%elem_of_app; [exists id; set_solver|]. exists id'.
      split; [set_solver|]. split; [done|]. rewrite (link_ids_removes _ _ _ _ Rl) in Hi. case_decide; [|done].
      apply list_elem_of_singleton in Hi as ->. apply link_ids_self.
    + intros id' Hid Ho' Hone i Hi. apply elem_of_app. destruct (decide (id' = id)) as [->|Hne]; [by left|right].
      assert (id' ∉ link_ids id (serverLinkHub s)) as Hnot.
      { intros Hin. apply Hne. symmetry. apply Hone; [set_solver|done|done]. }
      apply (Al id'); [set_solver|by apply Hop| |by rewrite (link_ids_removes _ _ _ _ Rl), decide_False].
      intros id2 Hid2 [Hne2 Ho2]%Hop. rewrite (link_ids_removes _ _ _ _ Rl). case_decide.
      * intros ->%list_elem_of_singleton. done.
      * apply Hone; [set_solver|done].
Qed.

Lemma hub_closed_cons hp h id proxy (ids : list KSUID) s s1 s2 :
  server_wf s -> sv_hubs s !! hp = Some h -> connPool h !! id = Some proxy ->
  closes (ps_ProxyIns proxy) id s s1 ->
  hub_closed hp (set_pool (delete id (connPool h)) h) ids
    (set_hub hp (fun h => set_pool (delete id (connPool h)) h) s1) s2 ->
  hub_closed hp h (id :: ids) s s2.
Proof.
  intros Hwf Hh Hid [Honce He1 [Hh1 Hhc1]] [(h' & Hh' & Hpool) Hr Hc Ho Hhs Hhc].
  simpl in *. destruct (sw_pool _ Hwf _ _ _ _ Hh Hid) as [Hps (e0 & He0 & Hi0 & _)].
  assert (forall id' proxy', id' <> id -> connPool h !! id' = Some proxy' ->
            ps_ProxyIns proxy <> ps_ProxyIns proxy') as Hinj.
  { intros id' proxy' Hne Hp' E. destruct (sw_pool _ Hwf _ _ _ _ Hh Hp') as [_ (e & He & Hi & _)].
    rewrite <- E, He0 in He. simplify_eq. }
  set (t := set_hub hp (fun h => set_pool (delete id (connPool h)) h) s1) in *.
  assert (forall id', open_in (set_pool (delete id (connPool h)) h) t id' <-> id' <> id /\ open_in h s id') as Hop.
  { intros id'. split.
    - intros (proxy' & e & Hp' & He & Hst). simpl in Hp'. apply lookup_delete_Some in Hp' as [Hne Hp'].
      split; [by apply not_eq_sym|]. exists proxy', e.
      simpl in He. rewrite He1, list_lookup_alter_ne in He by (eapply Hinj; [by apply not_eq_sym|done]). done.
    - intros [Hne (proxy' & e & Hp' & He & Hst)]. exists proxy', e. simpl. rewrite lookup_delete_ne by by apply not_eq_sym.
      split; [done|]. rewrite He1, list_lookup_alter_ne by (by eapply Hinj). done. }
  split.
  - exists h'. split; [done|]. intros id'. rewrite Hpool, lookup_delete.
    repeat case_decide; set_solver.
  - specialize (Honce _ He0). case_decide as Hst.
    + apply pool_released_skip; [intros (proxy' & e & ? & ? & ?); by simplify_eq|]. subst s1.
      assert (forall id', open_in (set_pool (delete id (connPool h)) h) t id' <-> open_in h s id') as Hop'.
      { intros id'. rewrite Hop. split; [tauto|]. intros Ho'. split; [|done]. intros ->.
        destruct Ho' as (proxy' & e & ? & ? & ?). by simplify_eq. }
      clear -Hr Hop'. destruct Hr as [(gq & Hq & Eq) (gl & Hl & El & Al)]. split.
      * exists gq. split; [done|]. intros id'. by rewrite Eq, Hop'.
      * exists gl. split; [done|]. setoid_rewrite Hop' in El. setoid_rewrite Hop' in Al. done.
    + apply (pool_released_cons h id ids s t s2); [apply Hwf..| |by destruct Honce|done|done].
      by exists proxy, e0.
  - intros id' proxy' e Hin Hp' He. destruct (decide (id' = id)) as [->|Hne].
    + rewrite Hid in Hp'. simplify_eq.
      rewrite Ho, He1, list_lookup_alter_eq, He0; [done|]. intros id' proxy''.
      intros _ [Hne Hp']%lookup_delete_Some. apply not_eq_sym. by apply Hinj with id'.
    + apply (Hc id'); [set_solver| |].
      * by rewrite lookup_delete_ne.
      * rewrite He1, list_lookup_alter_ne; [done|]. by apply Hinj with id'.
  - intros p Hp. rewrite Ho, He1, list_lookup_alter_ne; [done| |].
    + apply (Hp id); [set_solver|done].
    + intros id' proxy' Hin [_ Hp']%lookup_delete_Some. apply (Hp id'); [set_solver|done].
  - intros hp' Hne. rewrite Hhs by done. by rewrite list_lookup_alter_ne, Hh1.
  - congruence.
Qed.

Lemma hub_Close_ok hp order s h :
  server_wf s -> sv_hubs s !! hp = Some h ->
  exists s', hub_Close hp order s = Some s' /\ server_wf s' /\ hub_closed hp h order s s'.
Proof.
  revert s h. induction order as [|id order IH]; intros s h Hwf Hh; simpl.
  { exists s. split_and!; [done..|]. by apply hub_closed_nil. }
  unfold GetProxyById. rewrite Hh. simpl. destruct (connPool h !! id) as [proxy|] eqn:Hid.
  - destruct (sw_pool _ Hwf _ _ _ _ Hh Hid) as [_ (e & He & _)].
    destruct (est_Close_ok (ps_ProxyIns proxy) id s e Hwf He) as (s1 & -> & Hcl & Hq & Hl & _). simpl.
    pose proof (closes_wf _ _ _ _ Hcl Hq Hl Hwf) as Hwf1. apply (delete_pool_wf hp id) in Hwf1.
    destruct (cl_hubs _ _ _ _ Hcl) as [Eh _].
    edestruct (IH _ (set_pool (delete id (connPool h)) h) Hwf1) as (s2 & -> & Hwf2 & Hc2).
    { simpl. by rewrite Eh, list_lookup_alter_eq, Hh. }
    exists s2. split_and!; [done..|]. by eapply hub_closed_cons.
  - destruct (IH s h Hwf Hh) as (s' & -> & Hwf' & Hc). exists s'. split_and!; [done..|].
    by apply hub_closed_skip.
Qed.

(** C24: when a websocket of the server ends, [Hub.Close] never panics, empties
    the hub's pool and marks its objects closed. Of the queues it removes and
    closes exactly those of its proxied connections that were not closed
    before. Of the links it removes and closes only links of these connections, and of
    each of them all, its own and those of its order (unless its own is in the
    order of another of them, in which case it is gone, and its order with it,
    when its turn comes). Every other queue and link, the other websockets'
    pools and the other proxied connections stay as they are. *)
Theorem hub_Close_releases hp h order s :
  server_wf s -> sv_hubs s !! hp = Some h -> (forall id, is_Some (connPool h !! id) -> id ∈ order) ->
  exists s', hub_Close hp order s = Some s' /\ server_wf s' /\
    (exists h', sv_hubs s' !! hp = Some h' /\ connPool h' = ∅) /\
    (forall id proxy e, connPool h !! id = Some proxy -> sv_ests s !! ps_ProxyIns proxy = Some e ->
       sv_ests s' !! ps_ProxyIns proxy = Some (set_status "closed" e)) /\
    (exists gone, pm_removes (serverQueueHub s) gone (serverQueueHub s') /\
       forall id, id ∈ gone <-> open_in h s id) /\
    (exists gone, pm_removes (serverLinkHub s) gone (serverLinkHub s') /\
       (forall i, i ∈ gone -> exists id, open_in h s id /\ i ∈ link_ids id (serverLinkHub s)) /\
       forall id, open_in h s id ->
         (forall id', open_in h s id' -> id ∈ link_ids id' (serverLinkHub s) -> id' = id) ->
         forall i, i ∈ link_ids id (serverLinkHub s) -> i ∈ gone) /\
    (forall hp', hp' <> hp -> sv_hubs s' !! hp' = sv_hubs s !! hp') /\
    (forall p e, sv_ests s !! p = Some e -> es_hub e <> hp -> sv_ests s' !! p = Some e).
Proof.
  intros Hwf Hh Hord. destruct (hub_Close_ok hp order s h Hwf Hh) as (s' & E & Hwf' & Hc).
  assert (forall id, open_in h s id -> id ∈ order) as Hopen.
  { intros id (proxy & e & Hp & _). eauto. }
  exists s'. split_and!; [done..| | | | |apply (hcl_hubs _ _ _ _ _ Hc)|].
  - destruct (hcl_pool _ _ _ _ _ Hc) as (h' & Hh' & Hp). exists h'. split; [done|].
    apply map_eq. intros id. rewrite Hp, lookup_empty. case_decide as Hin; [done|].
    destruct (connPool h !! id) eqn:E1; [|done]. exfalso. eauto.
  - intros id proxy e Hp He. apply (hcl_closed _ _ _ _ _ Hc id); eauto.
  - destruct (plr_queues _ _ _ _ (hcl_released _ _ _ _ _ Hc)) as (g & Hg & Eg). exists g. split; [done|].
    intros id. rewrite Eg. naive_solver.
  - destruct (plr_links _ _ _ _ (hcl_released _ _ _ _ _ Hc)) as (g & Hg & Eg & Ag). exists g. split; [done|]. split.
    + intros i (id & _ & ?)%Eg. by exists id.
    + intros id Ho Hone. apply Ag; auto.
  - intros p e He Hne. rewrite (hcl_other _ _ _ _ _ Hc); [done|]. intros id proxy _ Hp <-.
    destruct (sw_pool _ Hwf _ _ _ _ Hh Hp) as [_ (e' & He' & _ & Hhe)]. simplify_eq.
Qed.
End hub_facts.
