(* ===== verification/Server.v ===== *)
(** The server (wss/proxy_server.go, wss/wssocks_server.go): dispatching the
    messages of a websocket, establishing proxied connections, and serving a
    websocket from its handshake to its end.

    Messages are dispatched by one goroutine per websocket; [establish] runs in
    a goroutine of its own and is a machine whose steps interleave with
    everything else ([sv_exec]).  DNS, dialling and the websockets are the
    events of the steps. *)
From Stdlib Require Import Ascii.
From S2P Require Import Prelude GoChan Pipe RoundRobin PtrMap Queue QueueHub Link Base64 Json Messages Hub.

(** The result of a call that may block or panic. *)
Inductive outcome (A : Type) := Finished (a : A) | Blocked | Panicked.
Arguments Finished {A} _.
Arguments Blocked {A}.
Arguments Panicked {A}.

Definition map_outcome {A B} (f : A -> B) (r : outcome A) : outcome B :=
  match r with Finished a => Finished (f a) | Blocked => Blocked | Panicked => Panicked end.

Section server.
Context {K : Ksuid} `{!KsuidText K}.

(** * Dispatching messages *)

(** The errors of [dispatchDataMessage], which are only logged. *)
Inductive dispatch_err := ErrJson | ErrKsuid | ErrBase64.

Inductive MessageType := MessageNone | MessageText | MessageBinary.

(** [WebsocksServerConfig] *)
Record ServerConfig := mkServerConfig {
  EnableHttp : bool;
  EnableConnKey : bool;
  ConnKey : string;
  EnableStatusPage : bool;
}.

(** [go establishProxy(hub, ...)]: a new object, at the start of [establish]. *)
Definition go_establish (hp : nat) (id : KSUID) (addr : string) (data : option bytes) (s : server) :
    server :=
  mkServer (serverQueueHub s) (serverLinkHub s)
    (sv_ests s ++ [mkProxyEst "" hp id addr data ECheck WNone NewDead false])
    (sv_hubs s) (sv_hc s).

(** The case [WsTpHi]. *)
Definition dispatch_hi (now : Z) (hp : nat) (id : KSUID) (socketData : option json) (s : server) :
    server * option dispatch_err :=
  match unmarshal_raw unmarshal_id socketData with
  | None => (s, Some ErrJson)
  | Some masterID =>
      let s1 := set_queues (QueueHub.Add now masterID id (NewWebSocketWriter hp id) (serverQueueHub s)) s in
      (set_links (Link.Add now id masterID (serverLinkHub s1)) s1, None)
  end.

(** The case [WsTpEst]. *)
Definition dispatch_est (now : Z) (hp : nat) (id : KSUID) (socketData : option json) (s : server) :
    server * option dispatch_err :=
  match unmarshal_raw unmarshal_est socketData with
  | None => (s, Some ErrJson)
  | Some m =>
      match (if e_WithData m then Some <$> DecodeString (e_DataBase64 m) else Some None) with
      | None => (s, Some ErrBase64)
      | Some estData =>
          let sorted := default [] (e_Sorted m) in
          let s1 := set_queues (QueueHub.hub_SetSort now id sorted (serverQueueHub s)) s in
          let s2 := set_links (Link.hub_SetSort now id sorted (serverLinkHub s1)) s1 in
          (go_establish hp id (e_Addr m) estData s2, None)
      end
  end.

(** The case [WsTpData].  The results of [link.Write] are not looked at. *)
Definition dispatch_data (we : Link.write_env) (id : KSUID) (socketData : option json) (s : server) :
    outcome (server * option dispatch_err) :=
  match unmarshal_raw unmarshal_data socketData with
  | None => Finished (s, Some ErrJson)
  | Some m =>
      match Link.Get id (serverLinkHub s) with
      | None => Finished (s, None)
      | Some p =>
          match pm_heap (serverLinkHub s) !! p with
          | None => Finished (s, None)
          | Some l =>
              let put l' := set_links (pm_update p (fun _ => l') (serverLinkHub s)) s in
              if (pd_Tag m =? TagEOF)%Z then
                match Link.WriteEOF we l with
                | Some l' => Finished (put l', None)
                | None => Blocked
                end
              else
                match DecodeString (pd_DataBase64 m) with
                | None => Finished (s, Some ErrBase64)
                | Some decodeBytes =>
                    match Link.Write we l decodeBytes with
                    | Some (l', _) => Finished (put l', None)
                    | None => Blocked
                    end
                end
          end
      end
  end.

(** [dispatchDataMessage]; [data] is [None] when the text is not JSON. *)
Definition dispatchDataMessage (now : Z) (we : Link.write_env) (hp : nat) (data : option json)
    (s : server) : outcome (server * option dispatch_err) :=
  match unmarshal_raw unmarshal_message data with
  | None => Finished (s, Some ErrJson)
  | Some m =>
      match ksuid_Parse (m_Id m) with
      | None => Finished (s, Some ErrKsuid)
      | Some id =>
          if String.eqb (m_Type m) WsTpBeats then Finished (s, None)
          else if String.eqb (m_Type m) WsTpClose then
            match CloseProxyConn hp id s with
            | Some s' => Finished (s', None)
            | None => Panicked
            end
          else if String.eqb (m_Type m) WsTpHi then Finished (dispatch_hi now hp id (m_Data m) s)
          else if String.eqb (m_Type m) WsTpEst then Finished (dispatch_est now hp id (m_Data m) s)
          else if String.eqb (m_Type m) WsTpData then dispatch_data we id (m_Data m) s
          else Finished (s, None)
      end
  end.

(** [dispatchMessage] *)
Definition dispatchMessage (now : Z) (we : Link.write_env) (hp : nat) (msgType : MessageType)
    (data : option json) (s : server) : outcome (server * option dispatch_err) :=
  match msgType with
  | MessageText => dispatchDataMessage now we hp data s
  | _ => Finished (s, None)
  end.

(** * Establishing a connection *)

Definition set_pc (pc : est_pc) (e : est) : est :=
  mkProxyEst (es_status e) (es_hub e) (es_id e) (es_addr e) (es_data e) pc (es_watch e) (es_dead e)
    (es_open e).
Definition set_watch (w : watch_pc) (e : est) : est :=
  mkProxyEst (es_status e) (es_hub e) (es_id e) (es_addr e) (es_data e) (es_pc e) w (es_dead e)
    (es_open e).
Definition set_dead (d : dead) (e : est) : est :=
  mkProxyEst (es_status e) (es_hub e) (es_id e) (es_addr e) (es_data e) (es_pc e) (es_watch e) d
    (es_open e).
Definition set_open (b : bool) (e : est) : est :=
  mkProxyEst (es_status e) (es_hub e) (es_id e) (es_addr e) (es_data e) (es_pc e) (es_watch e)
    (es_dead e) b.

Inductive est_ev :=
  | EvStep                                        (* a step on its own *)
  | EvChecked (privite : bool)                    (* the result of checkAddrPrivite *)
  | EvDialed (r : error + TCPConn)                (* the result of net.DialTimeout *)
  | EvWoken (signal : bool).                      (* Wait returns: [Send] signals, or done is closed *)

(** A receive from the [done] channel of a queue or link can complete. *)
Definition done_ready (signal : bool) (done : chan unit) : bool := signal || chan_closed done.

(** [establish], and the rest of [establishProxy] after it: the object [p] does
    its next step.  The websocket's outgoing message is the second result. *)
Definition establish_step (p : nat) (ev : est_ev) (s : server) : option (server * list json) :=
  e ← sv_ests s !! p;
  let id := es_id e in
  let at_pc pc := set_est p (set_pc pc) in
  match es_pc e, ev with
  | ECheck, EvChecked true =>
      Some (at_pc (ETell (Some (errors_New "visit privite network, dial deny"))) s, [])
  | ECheck, EvChecked false => Some (at_pc EDial s, [])
  | EDial, EvDialed (inl err) => Some (at_pc (ETell (Some err)) s, [])
  | EDial, EvDialed (inr conn) =>
      Some (set_est p (fun e => set_dead NewDead (set_open true (set_pc (ETryLink conn) e))) s, [])
  | ETryLink conn, EvStep =>
      let s1 := set_links (fst (Link.TrySend id (Some conn) (serverLinkHub s))) s in
      Some (set_est p (fun e => set_watch WGet (set_pc EAddProxy e)) s1, [])
  | EAddProxy, EvStep => Some (at_pc ETryQueue (addNewProxy (es_hub e) (mkProxy id p) s), [])
  | ETryQueue, EvStep =>
      Some (at_pc EGet (set_queues (fst (QueueHub.TrySend id (serverQueueHub s))) s), [])
  | EGet, EvStep => Some (at_pc (EWait (QueueHub.Get id (serverQueueHub s))) s, [])
  | EWait (Some w), EvWoken signal =>
      q ← pm_heap (serverQueueHub s) !! w;
      if done_ready signal (q_done q) then Some (at_pc ERemoveProxy s, []) else None
  | EWait None, EvStep => Some (at_pc EPanic s, [])
  | ERemoveProxy, EvStep => Some (at_pc ECloseConn (RemoveProxy (es_hub e) id s), [])
  | ECloseConn, EvStep => Some (set_est p (fun e => set_open false (set_pc EClose e)) s, [])
  | EClose, EvStep => s1 ← est_Close p id s; Some (at_pc (ETell None) s1, [])
  | ETell err, EvStep => Some (at_pc (EEnd err) s, fst (tellClosed None id))
  | _, _ => None
  end.

(** The goroutine that waits for the link to be done and then makes the read
    deadline of the connection short. *)
Definition watch_step (p : nat) (ev : est_ev) (s : server) : option server :=
  e ← sv_ests s !! p;
  match es_watch e, ev with
  | WGet, EvStep => Some (set_est p (set_watch (WWait (Link.Get (es_id e) (serverLinkHub s)))) s)
  | WWait None, EvStep => Some (set_est p (set_watch WLine) s)
  | WWait (Some l), EvWoken signal =>
      k ← pm_heap (serverLinkHub s) !! l;
      if done_ready signal (l_done k) then Some (set_est p (set_watch WLine) s) else None
  | WLine, EvStep => Some (set_est p (fun e => set_watch WEnd (set_dead (mkDead (5 * Second)) e)) s)
  | _, _ => None
  end.
(** * Serving a websocket *)

(** Program points of [ServerWS.ServeHTTP]; the deferred calls run in the
    reverse order of their [defer] statements. *)
Inductive http_pc :=
  | HKey                                          (* the test of the connection key *)
  | HAccept                                       (* websocket.Accept *)
  | HVersion                                      (* NegVersionServer *)
  | HNewHub                                       (* s.hc.NewHub *)
  | HRead (hp : nat)                              (* wc.Read and dispatchMessage *)
  | HClose (hp : nat)                             (* deferred: hub.Close *)
  | HRemove (hp : nat)                            (* deferred: s.hc.RemoveProxy *)
  | HCloseConn                                    (* deferred: wc.Close *)
  | HEnd.

Inductive http_ev :=
  | HEvHeader (key : string)                      (* r.Header.Get("Key") *)
  | HEvAccept (err : option error)
  | HEvVersion (err : option error)
  | HEvHub (id : KSUID)                           (* ksuid.New *)
  | HEvRead (msgType : MessageType) (p : option json) (err : option error) (we : Link.write_env)
  | HEvRange (order : list KSUID)                 (* the range of Hub.Close *)
  | HEvStep.

(** What is written to the response. *)
Inductive http_out := WriteHeader (code : Z) | WriteBody (s : string).

Definition ServeHTTP_step (config : ServerConfig) (now : Z) (pc : http_pc) (ev : http_ev) (s : server) :
    outcome (server * http_pc * list http_out) :=
  match pc, ev with
  | HKey, HEvHeader key =>
      if EnableConnKey config && negb (String.eqb key (ConnKey config))
      then Finished (s, HEnd, [WriteHeader 401; WriteBody ("Access denied!" ++ String "010" "")])
      else Finished (s, HAccept, [])
  | HAccept, HEvAccept (Some _) => Finished (s, HEnd, [])
  | HAccept, HEvAccept None => Finished (s, HVersion, [])
  | HVersion, HEvVersion (Some _) => Finished (s, HCloseConn, [])
  | HVersion, HEvVersion None => Finished (s, HNewHub, [])
  | HNewHub, HEvHub id => let '(s1, hp) := NewHub id s in Finished (s1, HRead hp, [])
  | HRead hp, HEvRead msgType p err we =>
      if bool_decide (err <> None /\ err <> Some EOF) then Finished (s, HClose hp, [])
      else match dispatchMessage now we hp msgType p s with
           | Finished (s1, _) => Finished (s1, HRead hp, [])
           | Blocked => Blocked
           | Panicked => Panicked
           end
  | HClose hp, HEvRange order =>
      match hub_Close hp order s with
      | Some s1 => Finished (s1, HRemove hp, [])
      | None => Panicked
      end
  | HRemove hp, HEvStep =>
      match sv_hubs s !! hp with
      | Some h => Finished (hc_RemoveProxy (hub_id h) s, HCloseConn, [])
      | None => Panicked
      end
  | HCloseConn, HEvStep => Finished (s, HEnd, [])
  | _, _ => Blocked
  end.

(** * The process *)

(** A step of any goroutine of the process.  A dispatcher that had to wait in
    [link.Write], a writer of a queue and the two [Send]s can be at any point. *)
Inductive sv_event :=
  | XHttp (config : ServerConfig) (now : Z) (pc : http_pc) (ev : http_ev)
  | XEst (p : nat) (ev : est_ev)
  | XWatch (p : nat) (ev : est_ev)
  | XQueueWrite (p : nat) (b : buffer)
  | XQueueSend (p : nat) (pc : Queue.send_pc webSocketWriter) (ev : Queue.send_ev)
  | XLinkWrite (p : nat) (b : buffer)
  | XLinkSend (me : nat) (pc : Link.send_pc) (ev : Link.send_ev).

(** A dispatcher's write that need not wait. *)
Definition at_once (timer : bool) : Link.write_env := Link.mkWriteEnv [] timer.

Definition ev_at_once (ev : http_ev) : Prop :=
  match ev with HEvRead _ _ _ we => Link.we_ops we = [] | _ => True end.

#[export] Instance ev_at_once_dec ev : Decision (ev_at_once ev).
Proof. destruct ev; simpl; apply _. Defined.

Definition sv_exec (ev : sv_event) (s : server) : option server :=
  match ev with
  | XHttp config now pc hev =>
      if decide (ev_at_once hev) then
        match ServeHTTP_step config now pc hev s with
        | Finished (s', _, _) => Some s'
        | _ => None
        end
      else None
  | XEst p e => fst <$> establish_step p e s
  | XWatch p e => watch_step p e s
  | XQueueWrite p b =>
      q ← pm_heap (serverQueueHub s) !! p;
      match chan_send (q_buffer q) b with
      | SendOk c => Some (set_queues (pm_update p (set_q_buffer c) (serverQueueHub s)) s)
      | _ => None
      end
  | XQueueSend p pc e =>
      q ← pm_heap (serverQueueHub s) !! p;
      '(q', _, _) ← Queue.Send_step q pc e;
      Some (set_queues (pm_update p (fun _ => q') (serverQueueHub s)) s)
  | XLinkWrite p b =>
      l ← pm_heap (serverLinkHub s) !! p;
      match chan_send (l_buffer l) b with
      | SendOk c => Some (set_links (pm_update p (set_l_buffer c) (serverLinkHub s)) s)
      | _ => None
      end
  | XLinkSend me pc e =>
      '(h, _) ← Link.Send_step me (serverLinkHub s) pc e;
      Some (set_links h s)
  end.

Definition sv_step (s s' : server) : Prop := exists ev, sv_exec ev s = Some s'.

Fixpoint sv_run (evs : list sv_event) (s : server) : option server :=
  match evs with
  | [] => Some s
  | ev :: evs' => s1 ← sv_exec ev s; sv_run evs' s1
  end.

Lemma sv_run_reachable evs s s' : sv_run evs s = Some s' -> rtc sv_step s s'.
Proof.
  revert s. induction evs as [|ev evs IH]; intros s H; simpl in H; [by simplify_eq|].
  destruct (sv_exec ev s) as [s1|] eqn:E; [|done]. eapply rtc_l; [by exists ev|]. by apply IH.
Qed.
End server.

(** * Facts *)

Section server_facts.
Context {K : Ksuid} `{!KsuidText K}.
Implicit Types (s : server) (id : KSUID) (e : est).

(** ** The invariant *)

(** The object can be in its hub's pool. *)
Definition registered (pc : est_pc) : Prop :=
  match pc with ETryQueue | EGet | EWait _ | ERemoveProxy | EPanic => True | _ => False end.

(** The connection is open from its dialling to [conn.Close], and when
    [establish] has returned without an error its object is closed. *)
Definition est_ok e : Prop :=
  match es_pc e with
  | ECheck | EDial | EClose => es_open e = false
  | ETell err | EEnd err => es_open e = false /\ (err = None -> es_status e = "closed")
  | _ => es_open e = true
  end.

Record sv_inv s : Prop := {
  si_wf : server_wf s;
  si_est p e : sv_ests s !! p = Some e -> est_ok e;
  si_pool hp h id proxy e :
    sv_hubs s !! hp = Some h -> connPool h !! id = Some proxy ->
    sv_ests s !! ps_ProxyIns proxy = Some e -> registered (es_pc e);
}.

Lemma sv_inv_init : sv_inv server_init.
Proof. by split; [split; [apply pm_wf_empty..|]| |]. Qed.

(** Changing the hubs of queues or links. *)
Lemma sv_inv_hubs q l s :
  pm_wf q -> pm_wf l -> sv_inv s ->
  sv_inv (mkServer q l (sv_ests s) (sv_hubs s) (sv_hc s)).
Proof. intros Hq Hl [[_ _ H1] H2 H3]. by split; [split|..]. Qed.

(** Advancing one object, not past the points where it is in a pool. *)
Lemma sv_inv_est p f s e :
  sv_ests s !! p = Some e -> es_id (f e) = es_id e -> es_hub (f e) = es_hub e ->
  est_ok (f e) -> (registered (es_pc e) -> registered (es_pc (f e))) ->
  sv_inv s -> sv_inv (set_est p f s).
Proof.
  intros He Hi Hh Hok Hr [[Hq Hl Hp] Hes Hreg].
  assert (forall p' e', sv_ests (set_est p f s) !! p' = Some e' ->
            exists e0, sv_ests s !! p' = Some e0 /\ e' = if decide (p' = p) then f e0 else e0) as Hlook.
  { intros p' e' He'. simpl in He'. case_decide as Hd.
    - subst. rewrite list_lookup_alter_eq, He in He'. injection He' as <-. by exists e.
    - rewrite list_lookup_alter_ne in He' by congruence. by exists e'. }
  split; [split; [done..|]| |].
  - intros hp h id proxy Hhp Hid. destruct (Hp _ _ _ _ Hhp Hid) as [Hps (e0 & He0 & Hi0 & Hh0)].
    split; [done|]. simpl. destruct (decide (ps_ProxyIns proxy = p)) as [Hd|Hd].
    + rewrite Hd, list_lookup_alter_eq, He in *. simplify_eq/=. eexists. split; [done|]. by rewrite Hi, Hh.
    + rewrite list_lookup_alter_ne by congruence. by exists e0.
  - intros p' e' (e0 & He0 & ->)%Hlook. case_decide as Hd; [subst|by eapply Hes]. by simplify_eq.
  - intros hp h id proxy e' Hhp Hid (e0 & He0 & ->)%Hlook. specialize (Hreg _ _ _ _ _ Hhp Hid He0).
    case_decide as Hd; [subst|done]. simplify_eq. auto.
Qed.

(** [go establishProxy] *)
Lemma sv_inv_go hp id addr data s : sv_inv s -> sv_inv (go_establish hp id addr data s).
Proof.
  intros [[Hq Hl Hp] Hes Hreg]. split; [split; [done..|]| |]; simpl.
  - intros hp' h id' proxy Hhp Hid. destruct (Hp _ _ _ _ Hhp Hid) as [Hps (e0 & He0 & Hi0 & Hh0)].
    split; [done|]. exists e0. split; [|done]. by apply lookup_app_l_Some.
  - intros p e He%lookup_app_Some. destruct He as [He|[_ He]]; [by eapply Hes|].
    apply list_lookup_singleton_Some in He as [_ <-]. done.
  - intros hp' h id' proxy e Hhp Hid He. destruct (Hp _ _ _ _ Hhp Hid) as [_ (e0 & He0 & _)].
    rewrite (lookup_app_l_Some _ _ _ _ He0) in He. simplify_eq. by eapply Hreg.
Qed.

(** Registering an object in its hub's pool, and removing it. *)
Lemma sv_inv_addProxy p e s :
  sv_ests s !! p = Some e -> registered (es_pc e) -> sv_inv s ->
  sv_inv (addNewProxy (es_hub e) (mkProxy (es_id e) p) s).
Proof.
  intros He Hr [[Hq Hl Hp] Hes Hreg].
  assert (forall hp h id proxy, sv_hubs (addNewProxy (es_hub e) (mkProxy (es_id e) p) s) !! hp = Some h ->
            connPool h !! id = Some proxy ->
            (hp = es_hub e /\ id = es_id e /\ proxy = mkProxy id p) \/
            exists h0, sv_hubs s !! hp = Some h0 /\ connPool h0 !! id = Some proxy) as Hlook.
  { intros hp h id proxy Hhp Hid. simpl in Hhp. destruct (decide (es_hub e = hp)) as [<-|Hne].
    - rewrite list_lookup_alter_eq in Hhp. destruct (sv_hubs s !! es_hub e) as [h0|] eqn:E; [|done].
      injection Hhp as <-. simpl in Hid. rewrite lookup_insert in Hid. case_decide as Hd.
      + left. simplify_eq. done.
      + right. by exists h0.
    - rewrite list_lookup_alter_ne in Hhp by done. right. by exists h. }
  split; [split; [done..|]|done|]; simpl.
  - intros hp h id proxy Hhp Hid. destruct (Hlook _ _ _ _ Hhp Hid) as [(-> & -> & ->)|(h0 & ? & ?)];
      [|by eapply Hp]. split; [done|]. by exists e.
  - intros hp h id proxy e' Hhp Hid. destruct (Hlook _ _ _ _ Hhp Hid) as [(-> & -> & ->)|(h0 & ? & ?)];
      [|by eapply Hreg]. simpl. intros He'. by simplify_eq.
Qed.

Lemma pool_delete_lookup hp id s hp' h' id' proxy :
  sv_hubs (set_hub hp (fun h => set_pool (delete id (connPool h)) h) s) !! hp' = Some h' ->
  connPool h' !! id' = Some proxy ->
  exists h0, sv_hubs s !! hp' = Some h0 /\ connPool h0 !! id' = Some proxy /\ (hp' = hp -> id' <> id).
Proof.
  intros Hhp Hid. simpl in Hhp. destruct (decide (hp = hp')) as [<-|Hne].
  - rewrite list_lookup_alter_eq in Hhp. destruct (sv_hubs s !! hp) as [h0|] eqn:E; [|done].
    injection Hhp as <-. simpl in Hid. apply lookup_delete_Some in Hid as [Hne Hid].
    exists h0. split_and!; [done..|]. congruence.
  - rewrite list_lookup_alter_ne in Hhp by done. exists h'. split_and!; [done..|]. congruence.
Qed.

Lemma RemoveProxy_delete hp id s :
  RemoveProxy hp id s = set_hub hp (fun h => set_pool (delete id (connPool h)) h) s.
Proof.
  unfold RemoveProxy, set_hub. f_equal. apply list_alter_ext; [|done]. intros h _.
  destruct (connPool h !! id) eqn:E; [done|]. unfold set_pool. rewrite delete_id by done. by destruct h.
Qed.

Lemma sv_inv_delete hp id s :
  sv_inv s -> sv_inv (set_hub hp (fun h => set_pool (delete id (connPool h)) h) s).
Proof.
  intros [Hwf Hes Hreg]. split; [by apply delete_pool_wf|done|].
  intros hp' h' id' proxy e Hhp Hid. destruct (pool_delete_lookup _ _ _ _ _ _ _ Hhp Hid) as (h0 & ? & ? & _).
  by eapply Hreg.
Qed.

Lemma sv_inv_closes p id s s' :
  closes p id s s' -> pm_wf (serverQueueHub s') -> pm_wf (serverLinkHub s') -> sv_inv s -> sv_inv s'.
Proof.
  intros Hc Hq Hl [Hwf Hes Hreg]. pose proof Hc as [_ He [Hh _]].
  assert (forall p' e', sv_ests s' !! p' = Some e' -> exists e0, sv_ests s !! p' = Some e0 /\
            (e' = e0 \/ e' = set_status "closed" e0)) as Hlook.
  { intros p' e' He'. rewrite He in He'. destruct (decide (p = p')) as [<-|Hne].
    - rewrite list_lookup_alter_eq in He'. destruct (sv_ests s !! p) as [e0|]; [|done].
      injection He' as <-. exists e0. auto.
    - rewrite list_lookup_alter_ne in He' by done. exists e'. auto. }
  split; [by eapply closes_wf| |].
  - intros p' e' (e0 & He0%Hes & [-> | ->])%Hlook; [done|].
    unfold est_ok in *. simpl. destruct (es_pc e0); try done; by destruct He0.
  - rewrite Hh. intros hp h id' proxy e' Hhp Hid (e0 & He0 & Hor)%Hlook.
    specialize (Hreg _ _ _ _ _ Hhp Hid He0). by destruct Hor as [-> | ->].
Qed.

Lemma sv_inv_est_Close p id s e :
  sv_inv s -> sv_ests s !! p = Some e ->
  exists s', est_Close p id s = Some s' /\ sv_inv s' /\ closes p id s s' /\
             (es_status e <> "closed" -> released id s s').
Proof.
  intros Hinv He. destruct (est_Close_ok p id s e (si_wf _ Hinv) He) as (s' & E & Hc & Hq & Hl & Hr).
  exists s'. split_and!; [done| |done|done]. by eapply sv_inv_closes.
Qed.

Lemma sv_inv_hub_Close hp order s :
  sv_inv s -> exists s', hub_Close hp order s = Some s' /\ sv_inv s'.
Proof.
  revert s. induction order as [|id order IH]; intros s Hinv; simpl; [by exists s|].
  unfold GetProxyById. destruct (sv_hubs s !! hp) as [h|] eqn:Hh; simpl; [|by apply IH].
  destruct (connPool h !! id) as [proxy|] eqn:Hid; [|by apply IH].
  destruct (sw_pool _ (si_wf _ Hinv) _ _ _ _ Hh Hid) as [_ (e & He & _)].
  destruct (sv_inv_est_Close _ id _ _ Hinv He) as (s1 & -> & Hinv1 & _). simpl.
  by apply IH, sv_inv_delete.
Qed.
(** The deferred [RemoveProxy]: the object leaves the pool and moves on. *)
Lemma sv_inv_unregister p s e pc :
  sv_ests s !! p = Some e -> est_ok (set_pc pc e) -> sv_inv s ->
  sv_inv (set_est p (set_pc pc) (RemoveProxy (es_hub e) (es_id e) s)).
Proof.
  intros He Hok Hinv. rewrite RemoveProxy_delete.
  apply (sv_inv_delete (es_hub e) (es_id e)) in Hinv as Hinv1.
  set (s1 := set_hub _ _ s) in *. pose proof Hinv1 as [[Hq Hl Hp] Hes Hreg].
  assert (forall hp h id proxy, sv_hubs s1 !! hp = Some h -> connPool h !! id = Some proxy ->
            ps_ProxyIns proxy <> p) as Hnot.
  { intros hp h id proxy Hhp Hid Hpp. destruct (Hp _ _ _ _ Hhp Hid) as [_ (e0 & He0 & Hi & Hh)].
    destruct (pool_delete_lookup _ _ _ _ _ _ _ Hhp Hid) as (_ & _ & _ & Hne).
    simpl in He0. rewrite Hpp, He in He0. simplify_eq. by apply Hne. }
  split; [split; [done..|]| |]; simpl.
  - intros hp h id proxy Hhp Hid. rewrite list_lookup_alter_ne by (apply not_eq_sym; by eapply Hnot).
    exact (Hp hp h id proxy Hhp Hid).
  - intros p' e' He'. destruct (decide (p = p')) as [<-|Hne].
    + rewrite list_lookup_alter_eq, He in He'. by injection He' as <-.
    + rewrite list_lookup_alter_ne in He' by done. by eapply Hes.
  - intros hp h id proxy e' Hhp Hid.
    rewrite list_lookup_alter_ne by (apply not_eq_sym; by eapply Hnot).
    exact (Hreg hp h id proxy e' Hhp Hid).
Qed.

Lemma sv_inv_set_queues q s : pm_wf q -> sv_inv s -> sv_inv (set_queues q s).
Proof. intros Hq Hinv. apply sv_inv_hubs; [done|apply (sw_links _ (si_wf _ Hinv))|done]. Qed.

Lemma sv_inv_set_links l s : pm_wf l -> sv_inv s -> sv_inv (set_links l s).
Proof. intros Hl Hinv. apply sv_inv_hubs; [apply (sw_queues _ (si_wf _ Hinv))|done|done]. Qed.

#[local] Hint Resolve sv_inv_set_queues sv_inv_set_links sv_inv_go pm_wf_Add pm_wf_SetSort
  pm_wf_trySend lh_wf_Add lh_wf_SetSort lh_wf_trySend sw_queues sw_links si_wf : core.

(** ** Dispatching *)

Lemma dispatch_hi_inv now hp id d s : sv_inv s -> sv_inv (fst (dispatch_hi now hp id d s)).
Proof. intros Hinv. unfold dispatch_hi. case_match; simpl; auto 10. Qed.

Lemma dispatch_est_inv now hp id d s : sv_inv s -> sv_inv (fst (dispatch_est now hp id d s)).
Proof. intros Hinv. unfold dispatch_est. repeat case_match; simpl; auto 10. Qed.

(** The writes of a dispatcher that need not wait keep the link's channel open. *)
Lemma link_put_wf p l l' h :
  pm_heap h !! p = Some l -> (chan_closed (l_buffer l) = false -> chan_closed (l_buffer l') = false) ->
  pm_wf h -> pm_wf (pm_update p (fun _ => l') h).
Proof. intros Hl Hc. apply pm_wf_update. intros l1 Hl1. simplify_eq. apply Hc. Qed.

Lemma writeBuf_at_once we l b l' r :
  Link.we_ops we = [] -> Link.writeBuf we l b = Some (l', r) ->
  chan_closed (l_buffer l) = false -> chan_closed (l_buffer l') = false.
Proof.
  intros Hops. unfold Link.writeBuf. rewrite Hops. simpl. intros H Hc.
  repeat case_match; simplify_eq; try done.
  by match goal with E : chan_send _ _ = _ |- _ => apply chan_send_inv in E as (_ & E & _) end.
Qed.

Lemma dispatch_data_inv we id d s s' err :
  Link.we_ops we = [] -> sv_inv s -> dispatch_data we id d s = Finished (s', err) -> sv_inv s'.
Proof.
  intros Hops Hinv. unfold dispatch_data, Link.WriteEOF, Link.Write.
  destruct (unmarshal_raw _ _) as [m|]; [|intros [= <- <-]; done].
  destruct (Link.Get _ _) as [p|]; [|intros [= <- <-]; done].
  destruct (pm_heap _ !! p) as [l|] eqn:Hl; [|intros [= <- <-]; done].
  assert (forall b l' r, Link.writeBuf we l b = Some (l', r) ->
            sv_inv (set_links (pm_update p (fun _ => l') (serverLinkHub s)) s)) as Hput.
  { intros b l' r Hb. apply sv_inv_set_links; [|done]. eapply link_put_wf; [done| |auto].
    by eapply writeBuf_at_once. }
  destruct (pd_Tag m =? TagEOF)%Z.
  - destruct (Link.writeBuf _ _ _) as [[l' r]|] eqn:E; [|done]. intros [= <- <-]. by eapply Hput.
  - destruct (DecodeString _); [|by intros [= <- <-]].
    destruct (Link.writeBuf _ _ _) as [[l' r]|] eqn:E; [|done]. intros [= <- <-]. by eapply Hput.
Qed.

Lemma CloseProxyConn_inv hp id s :
  sv_inv s -> exists s', CloseProxyConn hp id s = Some s' /\ sv_inv s'.
Proof.
  intros Hinv. unfold CloseProxyConn, GetProxyById.
  destruct (sv_hubs s !! hp) as [h|] eqn:Hh; simpl; [|by exists s].
  destruct (connPool h !! id) as [proxy|] eqn:Hid; [|by exists s].
  destruct (sw_pool _ (si_wf _ Hinv) _ _ _ _ Hh Hid) as [_ (e & He & _)].
  destruct (sv_inv_est_Close _ id _ _ Hinv He) as (s1 & E & Hinv1 & _). by exists s1.
Qed.

Lemma dispatch_inv now we hp data s :
  Link.we_ops we = [] -> sv_inv s ->
  match dispatchDataMessage now we hp data s with
  | Finished (s', _) => sv_inv s'
  | Blocked => True
  | Panicked => False
  end.
Proof.
  intros Hops Hinv. unfold dispatchDataMessage.
  destruct (unmarshal_raw _ _) as [m|]; [|done]. destruct (ksuid_Parse _) as [id|]; [|done].
  destruct (String.eqb _ _); [done|]. destruct (String.eqb _ _).
  { destruct (CloseProxyConn_inv hp id s Hinv) as (s' & -> & Hinv'). done. }
  destruct (String.eqb _ _).
  { pose proof (dispatch_hi_inv now hp id (m_Data m) s Hinv). by destruct (dispatch_hi _ _ _ _ _). }
  destruct (String.eqb _ _).
  { pose proof (dispatch_est_inv now hp id (m_Data m) s Hinv). by destruct (dispatch_est _ _ _ _ _). }
  destruct (String.eqb _ _); [|done].
  destruct (dispatch_data we id (m_Data m) s) as [[s' err]| |] eqn:E; [|done|].
  - by eapply dispatch_data_inv.
  - unfold dispatch_data in E. repeat case_match; done.
Qed.
(** ** Every step keeps the invariant *)

Lemma sv_inv_NewHub id s : sv_inv s -> sv_inv (fst (NewHub id s)).
Proof.
  intros [[Hq Hl Hp] Hes Hreg].
  assert (forall hp h id' proxy, sv_hubs (fst (NewHub id s)) !! hp = Some h -> connPool h !! id' = Some proxy ->
            sv_hubs s !! hp = Some h) as Hlook.
  { intros hp h id' proxy Hhp Hid. simpl in Hhp. apply lookup_app_Some in Hhp as [?|[_ Hhp]]; [done|].
    apply list_lookup_singleton_Some in Hhp as [_ <-]. simpl in Hid. by rewrite lookup_empty in Hid. }
  split; [split; [done..|]|done|].
  - intros hp h id' proxy Hhp Hid. exact (Hp hp h id' proxy (Hlook _ _ _ _ Hhp Hid) Hid).
  - intros hp h id' proxy e Hhp Hid He. by eapply (Hreg hp h id' proxy); [eapply Hlook| |].
Qed.

Lemma sv_inv_hc_RemoveProxy id s : sv_inv s -> sv_inv (hc_RemoveProxy id s).
Proof.
  intros Hinv. unfold hc_RemoveProxy. case_match; [|done].
  destruct Hinv as [[Hq Hl Hp] Hes Hreg]. by split; [split|..].
Qed.

(** The points of a handler know hubs that exist. *)
Definition http_hub (pc : http_pc) s : Prop :=
  match pc with HRead hp | HClose hp | HRemove hp => is_Some (sv_hubs s !! hp) | _ => True end.

Lemma ServeHTTP_inv config now pc ev s :
  ev_at_once ev -> sv_inv s ->
  match ServeHTTP_step config now pc ev s with
  | Finished (s', _, _) => sv_inv s'
  | Blocked => True
  | Panicked => ~ http_hub pc s
  end.
Proof.
  intros Hev Hinv. destruct pc as [| | | |hp|hp|hp| |], ev as [key|[err|]|[err|]|id|mt d err we|ord|];
    simpl in *; try done.
  - by destruct (_ && _).
  - by apply (sv_inv_NewHub id).
  - destruct (bool_decide _); [done|]. destruct mt; simpl; [done| |done].
    pose proof (dispatch_inv now we hp d s Hev Hinv) as H.
    by destruct (dispatchDataMessage _ _ _ _ _) as [[s' ?]| |].
  - destruct (sv_inv_hub_Close hp ord s Hinv) as (s' & -> & Hinv'). done.
  - destruct (sv_hubs s !! hp) as [h|]; [by apply sv_inv_hc_RemoveProxy|by intros []].
Qed.

Lemma establish_inv p ev s s' out :
  sv_inv s -> establish_step p ev s = Some (s', out) -> sv_inv s'.
Proof.
  intros Hinv H. unfold establish_step in H. destruct (sv_ests s !! p) as [e|] eqn:He; [|done].
  simpl in H. pose proof (si_est _ Hinv _ _ He) as Hok. unfold est_ok in Hok.
  destruct (es_pc e) as [| |conn| | | |[w|]| | | |err|err|] eqn:Hpc, ev as [|[]|[err'|conn']|sig]; try done;
    simplify_eq;
    try (eapply sv_inv_est; [done|done|done| |by rewrite Hpc|done]; by unfold est_ok).
  - (* serverLinkHub.TrySend *)
    apply sv_inv_set_links with (s := set_est p _ s); [by apply lh_wf_trySend, sw_links, si_wf|].
    eapply sv_inv_est; [done|done|done| |by rewrite Hpc|done]. by unfold est_ok.
  - (* addNewProxy *)
    change (sv_inv (addNewProxy (es_hub e) (mkProxy (es_id e) p) (set_est p (set_pc ETryQueue) s))).
    apply (sv_inv_addProxy p (set_pc ETryQueue e)); [simpl; by rewrite list_lookup_alter_eq, He|done|].
    eapply sv_inv_est; [done|done|done| |by rewrite Hpc|done]. by unfold est_ok.
  - (* serverQueueHub.TrySend *)
    apply sv_inv_set_queues with (s := set_est p _ s); [by apply pm_wf_trySend, sw_queues, si_wf|].
    eapply sv_inv_est; [done|done|done| |by rewrite Hpc|done]. by unfold est_ok.
  - (* writer.Wait *)
    destruct (pm_heap (serverQueueHub s) !! w) as [q|]; [|done]. simpl in H.
    destruct (done_ready _ _); simplify_eq.
    eapply sv_inv_est; [done|done|done| |by rewrite Hpc|done]. by unfold est_ok.
  - (* RemoveProxy *)
    apply sv_inv_unregister; [done| |done]. by unfold est_ok.
  - (* e.Close *)
    destruct (sv_inv_est_Close p (es_id e) s e Hinv He) as (s1 & E & Hinv1 & Hc & _). rewrite E in H.
    simpl in H. simplify_eq. eapply sv_inv_est; [|done|done| | |done].
    + rewrite (cl_ests _ _ _ _ Hc), list_lookup_alter_eq, He. done.
    + unfold est_ok. simpl. done.
    + simpl. by rewrite Hpc.
Qed.

Lemma watch_inv p ev s s' : sv_inv s -> watch_step p ev s = Some s' -> sv_inv s'.
Proof.
  intros Hinv H. unfold watch_step in H. destruct (sv_ests s !! p) as [e|] eqn:He; [|done].
  simpl in H. pose proof (si_est _ Hinv _ _ He) as Hok.
  assert (forall f, (forall e, es_id (f e) = es_id e /\ es_hub (f e) = es_hub e /\ es_pc (f e) = es_pc e /\
                       es_open (f e) = es_open e /\ es_status (f e) = es_status e) ->
            sv_inv (set_est p f s)) as Hset.
  { intros f Hf. destruct (Hf e) as (E1 & E2 & E3 & E4 & E5).
    eapply sv_inv_est; [done..| | |done]; [|by rewrite E3].
    unfold est_ok in *. by rewrite E3, E4, E5. }
  destruct (es_watch e) as [| |[l|]| |], ev; try done; simplify_eq; try (by apply Hset).
  destruct (pm_heap (serverLinkHub s) !! l); [|done]. simpl in H. destruct (done_ready _ _); [|done].
  simplify_eq. by apply Hset.
Qed.

Lemma sv_exec_inv ev s s' : sv_exec ev s = Some s' -> sv_inv s -> sv_inv s'.
Proof.
  intros H Hinv. destruct ev as [config now pc hev|p e|p e|p b|p pc e|p b|me pc e]; simpl in H.
  - case_decide as Hev; [|done]. pose proof (ServeHTTP_inv config now pc hev s Hev Hinv) as Hs.
    destruct (ServeHTTP_step config now pc hev s) as [[[s1 ?] ?]| |]; by simplify_eq.
  - destruct (establish_step p e s) as [[s1 out]|] eqn:E; simpl in H; simplify_eq. by eapply establish_inv.
  - by eapply watch_inv.
  - destruct (pm_heap (serverQueueHub s) !! p) as [q|] eqn:Hq; [|done]. simpl in H.
    destruct (chan_send (q_buffer q) b) as [c| |] eqn:E; simplify_eq.
    apply sv_inv_set_queues; [|done]. eapply qh_step_wf; [by eapply qh_step_write|by auto].
  - destruct (pm_heap (serverQueueHub s) !! p) as [q|] eqn:Hq; [|done]. simpl in H.
    destruct (Queue.Send_step q pc e) as [[[q' pc'] out]|] eqn:E; simpl in H; simplify_eq.
    apply sv_inv_set_queues; [|done]. eapply qh_step_wf; [by eapply qh_step_Send|by auto].
  - destruct (pm_heap (serverLinkHub s) !! p) as [l|] eqn:Hl; [|done]. simpl in H.
    destruct (chan_send (l_buffer l) b) as [c| |] eqn:E; simplify_eq.
    apply sv_inv_set_links; [|done]. eapply lh_step_wf; [by eapply lh_step_write|by auto].
  - destruct (Link.Send_step me (serverLinkHub s) pc e) as [[h pc']|] eqn:E; simpl in H; simplify_eq.
    apply sv_inv_set_links; [|done]. eapply lh_step_wf; [by eapply lh_step_Send|by auto].
Qed.

Lemma sv_reachable_inv s : rtc sv_step server_init s -> sv_inv s.
Proof.
  intros Hr. pose proof sv_inv_init as H0. revert H0.
  induction Hr as [|s1 s2 s3 [ev Hev] _ IH]; [done|]. intros H. by eapply IH, sv_exec_inv.
Qed.

(** ** Properties *)

(** C10: in every state that the server can reach, by any interleaving of its
    goroutines, a websocket's handler never panics, whatever message it reads
    and whenever the websocket ends, and neither does the [Close] of an object
    by the goroutine that established it. *)
Theorem server_closes_safely s :
  rtc sv_step server_init s ->
  (forall config now pc ev, ev_at_once ev -> http_hub pc s ->
     ServeHTTP_step config now pc ev s <> Panicked) /\
  (forall p e, sv_ests s !! p = Some e -> es_pc e = EClose -> is_Some (establish_step p EvStep s)).
Proof.
  intros Hinv%sv_reachable_inv. split.
  - intros config now pc ev Hev Hpc E. pose proof (ServeHTTP_inv config now pc ev s Hev Hinv) as H.
    by rewrite E in H.
  - intros p e He Hpc. destruct (sv_inv_est_Close p (es_id e) s e Hinv He) as (s1 & E & _).
    unfold establish_step. rewrite He. simpl. rewrite Hpc, E. by eexists.
Qed.

(** C25: a proxied connection whose [establish] has returned leaves nothing
    behind: its TCP connection is closed, no hub has it in its pool, and if it
    returned without an error its object is closed; the step that closes the
    object removes and closes the queue and the links (its own and those of the
    order, each of them), unless that was done before, and leaves the queues and
    links of all others alone. When it returns with an error, because the target is private
    or cannot be dialled, nothing closes the object: from there on it leaves the
    hubs of queues and links as they are, so what the hello messages of the
    connection have put there stays. *)
Theorem establish_cleans_up s p e :
  rtc sv_step server_init s -> sv_ests s !! p = Some e ->
  (forall err, es_pc e = ETell err \/ es_pc e = EEnd err ->
     es_open e = false /\ (err = None -> es_status e = "closed") /\
     forall hp h id proxy, sv_hubs s !! hp = Some h -> connPool h !! id = Some proxy ->
       ps_ProxyIns proxy <> p) /\
  (forall s' out, es_pc e = EClose -> es_status e <> "closed" ->
     establish_step p EvStep s = Some (s', out) -> released (es_id e) s s') /\
  (forall err ev s' out, es_pc e = ETell (Some err) -> establish_step p ev s = Some (s', out) ->
     serverQueueHub s' = serverQueueHub s /\ serverLinkHub s' = serverLinkHub s /\
     forall ev', establish_step p ev' s' = None).
Proof.
  intros Hinv%sv_reachable_inv He. split_and!.
  - intros err Hpc. pose proof (si_est _ Hinv _ _ He) as Hok. unfold est_ok in Hok.
    assert (es_open e = false /\ (err = None -> es_status e = "closed")) as [? ?] by (by destruct Hpc as [E|E]; rewrite E in Hok).
    split_and!; [done..|]. intros hp h id proxy Hhp Hid <-.
    pose proof (si_pool _ Hinv _ _ _ _ _ Hhp Hid He) as Hr. by destruct Hpc as [E|E]; rewrite E in Hr.
  - intros s' out Hpc Hst H. destruct (sv_inv_est_Close p (es_id e) s e Hinv He) as (s1 & E & _ & _ & Hrel).
    unfold establish_step in H. rewrite He in H. simpl in H. rewrite Hpc, E in H. simpl in H.
    simplify_eq. destruct (Hrel Hst). by split.
  - intros err ev s' out Hpc H. unfold establish_step in H. rewrite He in H. simpl in H. rewrite Hpc in H.
    destruct ev; simplify_eq. split_and!; [done|done|]. intros ev'. unfold establish_step.
    simpl. rewrite list_lookup_alter_eq, He. simpl. by destruct ev'.
Qed.

(** C40: a finish message that arrives while [establish] is between registering
    the proxy and looking up its queue kills the server: the message closes the
    object and takes its queue away, [establish] then gets a nil queue, guards
    the copying with a test for nil, but not the [Wait] after it. *)
Theorem finish_while_establishing_panics s now we p e h :
  rtc sv_step server_init s -> sv_ests s !! p = Some e -> es_pc e = ETryQueue ->
  es_status e <> "closed" -> sv_hubs s !! es_hub e = Some h ->
  connPool h !! es_id e = Some (mkProxy (es_id e) p) ->
  exists s1 s2,
    dispatchMessage now we (es_hub e) MessageText (Some (marshal_message (finish_message (es_id e)))) s =
      Finished (s1, None) /\
    sv_run [XEst p EvStep; XEst p EvStep; XEst p EvStep] s1 = Some s2 /\
    (es_pc <$> sv_ests s2 !! p) = Some EPanic.
Proof.
  intros Hinv%sv_reachable_inv He Hpc Hst Hhub Hpool.
  destruct (sv_inv_est_Close p (es_id e) s e Hinv He) as (s1 & E & _ & Hcl & Hrel).
  destruct (released_gone _ _ _ (Hrel Hst)) as [Hq _]. pose proof (cl_ests _ _ _ _ Hcl) as Hes.
  assert (sv_ests s1 !! p = Some (set_status "closed" e)) as He1.
  { by rewrite Hes, list_lookup_alter_eq, He. }
  set (s2 := set_est p (set_pc EGet) (set_queues (fst (QueueHub.TrySend (es_id e) (serverQueueHub s1))) s1)).
  assert (sv_ests s2 !! p = Some (set_pc EGet (set_status "closed" e))) as He2.
  { unfold s2. simpl. by rewrite list_lookup_alter_eq, He1. }
  set (s3 := set_est p (set_pc (EWait None)) s2).
  assert (sv_ests s3 !! p = Some (set_pc (EWait None) (set_status "closed" e))) as He3.
  { unfold s3. cbn [set_est sv_ests]. by rewrite list_lookup_alter_eq, He2. }
  exists s1, (set_est p (set_pc EPanic) s3). split_and!.
  - unfold dispatchMessage, dispatchDataMessage. cbn [unmarshal_raw]. rewrite unmarshal_finish_message.
    cbn [m_Id m_Type finish_message]. rewrite ksuid_parse_string. cbn.
    unfold CloseProxyConn, GetProxyById. rewrite Hhub. simpl. rewrite Hpool. simpl. by rewrite E.
  - assert (sv_exec (XEst p EvStep) s1 = Some s2) as E1.
    { simpl. unfold establish_step. rewrite He1. simpl. by rewrite Hpc. }
    assert (sv_exec (XEst p EvStep) s2 = Some s3) as E2.
    { simpl. unfold establish_step. rewrite He2. simpl. unfold s3. do 4 f_equal. unfold s2. simpl.
      unfold QueueHub.Get, QueueHub.TrySend, QueueHub.trySend. by rewrite Hq. }
    assert (sv_exec (XEst p EvStep) s3 = Some (set_est p (set_pc EPanic) s3)) as E3.
    { simpl. unfold establish_step. by rewrite He3. }
    cbn [sv_run]. rewrite E1. cbn [mbind option_bind]. rewrite E2. cbn [mbind option_bind]. by rewrite E3.
  - cbn [set_est sv_ests]. by rewrite list_lookup_alter_eq, He3.
Qed.

(** C31: a message that cannot be decoded has no effect on the server: whenever
    the dispatcher reports an error (no JSON, an ID that cannot be parsed, data
    of the wrong form), the state is as it was. *)
Theorem dispatch_error_harmless now we hp data s s' err :
  dispatchDataMessage now we hp data s = Finished (s', Some err) -> s' = s.
Proof.
  unfold dispatchDataMessage, dispatch_hi, dispatch_est, dispatch_data.
  intros H. repeat case_match; by simplify_eq/=.
Qed.
End server_facts.
