(* ===== verification/Handshake.v ===== *)
(** The handshake of a proxied connection on the server.

    The client says hello on each of its websockets, and sends the establish
    message on the first; the server handles them on as many goroutines, and
    the establishing goroutine tries to start both [Send]s.  This file follows
    the messages through [dispatchMessage] and shows that in any order of these
    steps both [Send]s are started on a complete queue and link. *)
From S2P Require Import Prelude GoChan Pipe RoundRobin PtrMap Queue QueueHub Link Base64 Json Messages Hub Server.

Section handshake.
Context {K : Ksuid} `{!KsuidText K}.
Implicit Types (s : server) (id m : KSUID) (sort : list KSUID).

(** The steps: a hello message of [id] on the websocket [hp], the establish
    message, and the two [TrySend] of [establish] ([establish_step] at
    [ETryLink] and [ETryQueue]). *)
Inductive sv_handshake :=
  | SHi (hp : nat) (id : KSUID)
  | SEst (hp : nat) (addr : string)
  | STryLink (conn : TCPConn)
  | STryQueue.

(** A message that is dispatched without waiting. *)
Definition dispatched (now : Z) (hp : nat) (v : json) s : server :=
  match dispatchMessage now (at_once false) hp MessageText (Some v) s with
  | Finished (s', _) => s'
  | _ => s
  end.

Definition sv_hs_step (now : Z) m sort s (op : sv_handshake) : server :=
  match op with
  | SHi hp id => dispatched now hp (marshal_message (hi_message id m)) s
  | SEst hp addr => dispatched now hp (marshal_message (est_message m None addr (Some sort))) s
  | STryLink conn => set_links (fst (Link.TrySend m (Some conn) (serverLinkHub s))) s
  | STryQueue => set_queues (fst (QueueHub.TrySend m (serverQueueHub s))) s
  end.

(** What the steps are for the hub of queues, and for the hub of links. *)
Definition queue_op (op : sv_handshake) : option (QueueHub.handshake (W := webSocketWriter)) :=
  match op with
  | SHi hp id => Some (QueueHub.HAdd id (NewWebSocketWriter hp id))
  | SEst _ _ => Some QueueHub.HSort
  | STryLink _ => None
  | STryQueue => Some QueueHub.HTry
  end.

Definition link_op (op : sv_handshake) : option Link.handshake :=
  match op with
  | SHi hp id => Some (Link.HAdd id)
  | SEst _ _ => Some Link.HSort
  | STryLink conn => Some (Link.HTry conn)
  | STryQueue => None
  end.

Lemma dispatched_hi now hp id m s :
  dispatched now hp (marshal_message (hi_message id m)) s =
    set_links (Link.Add now id m (serverLinkHub s))
      (set_queues (QueueHub.Add now m id (NewWebSocketWriter hp id) (serverQueueHub s)) s).
Proof.
  unfold dispatched, dispatchMessage, dispatchDataMessage. cbn [unmarshal_raw].
  rewrite unmarshal_hi_message. cbn [hi_message m_Id m_Type m_Data]. rewrite ksuid_parse_string.
  simpl. unfold dispatch_hi. cbn [unmarshal_raw]. by rewrite unmarshal_marshal_id.
Qed.

Lemma dispatched_est now hp m addr sort s :
  dispatched now hp (marshal_message (est_message m None addr (Some sort))) s =
    go_establish hp m (json_string addr) None
      (set_links (Link.hub_SetSort now m sort (serverLinkHub s))
         (set_queues (QueueHub.hub_SetSort now m sort (serverQueueHub s)) s)).
Proof.
  unfold dispatched, dispatchMessage, dispatchDataMessage. cbn [unmarshal_raw].
  rewrite unmarshal_est_message. cbn [est_message m_Id m_Type m_Data]. rewrite ksuid_parse_string.
  cbn -[unmarshal_est marshal_est]. unfold dispatch_est. cbn [unmarshal_raw].
  by rewrite unmarshal_marshal_est.
Qed.

Lemma sv_hs_queue now m sort s op :
  serverQueueHub (sv_hs_step now m sort s op) =
    foldl (QueueHub.hs_step now m sort) (serverQueueHub s) (option_list (queue_op op)).
Proof. destruct op; simpl; rewrite ?dispatched_hi, ?dispatched_est; done. Qed.

Lemma sv_hs_link now m sort s op :
  serverLinkHub (sv_hs_step now m sort s op) =
    foldl (Link.hs_step now m sort) (serverLinkHub s) (option_list (link_op op)).
Proof. destruct op; simpl; rewrite ?dispatched_hi, ?dispatched_est; done. Qed.

Lemma omap_snoc_list {A B} (f : A -> option B) l x : omap f (l ++ [x]) = omap f l ++ option_list (f x).
Proof. rewrite omap_app. simpl. by destruct (f x). Qed.

Lemma sv_hs_run now m sort s ops :
  serverQueueHub (foldl (sv_hs_step now m sort) s ops) =
    foldl (QueueHub.hs_step now m sort) (serverQueueHub s) (omap queue_op ops) /\
  serverLinkHub (foldl (sv_hs_step now m sort) s ops) =
    foldl (Link.hs_step now m sort) (serverLinkHub s) (omap link_op ops).
Proof.
  induction ops as [|op ops [IH1 IH2]] using rev_ind; [done|].
  rewrite !omap_snoc_list, !foldl_app. simpl. by rewrite sv_hs_queue, sv_hs_link, IH1, IH2.
Qed.

(** The connections that say hello, and on which websocket. *)
Definition hi_of (op : sv_handshake) : option (nat * KSUID) :=
  match op with SHi hp id => Some (hp, id) | _ => None end.

Definition is_hi (op : sv_handshake) : Prop := match op with SHi _ _ => True | _ => False end.

Lemma hs_added_hi ops : hs_added (omap queue_op ops) = map snd (omap hi_of ops).
Proof.
  induction ops as [|op ops IH] using rev_ind; [done|].
  rewrite !omap_snoc_list, map_app, <- IH. unfold hs_added. rewrite omap_app. by destruct op.
Qed.

Lemma hs_adds_hi ops : hs_adds (omap link_op ops) = map snd (omap hi_of ops).
Proof.
  induction ops as [|op ops IH] using rev_ind; [done|].
  rewrite !omap_snoc_list, hs_adds_app, map_app, IH. by destruct op.
Qed.

(** For the queues, the last step is not the setting of the order. *)
Lemma queue_ops_last ops1 hp addr ops2 ops3 :
  Forall is_hi ops3 ->
  exists l op, omap queue_op (ops1 ++ SEst hp addr :: ops2 ++ STryQueue :: ops3) = l ++ [op] /\
    op <> QueueHub.HSort /\ QueueHub.HSort ∈ l.
Proof.
  intros Hhi. destruct ops3 as [|x ops3 _] using rev_ind.
  - exists (omap queue_op (ops1 ++ SEst hp addr :: ops2)), QueueHub.HTry.
    repeat (rewrite omap_app; simpl). rewrite <- app_assoc. simpl. split_and!; [done|done|set_solver].
  - apply Forall_app in Hhi as [_ Hx]. rewrite Forall_cons in Hx. destruct Hx as [Hx _].
    destruct x as [hp' id'| | |]; try done.
    exists (omap queue_op (ops1 ++ SEst hp addr :: ops2 ++ STryQueue :: ops3)).
    exists (QueueHub.HAdd id' (NewWebSocketWriter hp' id')).
    repeat (rewrite omap_app; simpl). repeat (rewrite <- app_assoc; simpl).
    split_and!; [done|done|set_solver].
Qed.

Lemma server_ready now m sort s ops1 hp addr ops2 conn ops3 ops4 :
  pm_map (serverQueueHub s) !! m = None -> pm_map (serverLinkHub s) !! m = None ->
  Forall is_hi (ops1 ++ ops2 ++ ops3 ++ ops4) -> NoDup sort ->
  let ops := ops1 ++ SEst hp addr :: ops2 ++ STryLink conn :: ops3 ++ STryQueue :: ops4 in
  map snd (omap hi_of ops) ≡ₚ sort ->
  let s' := foldl (sv_hs_step now m sort) s ops in
  (exists p q, pm_map (serverQueueHub s') !! m = Some p /\ pm_heap (serverQueueHub s') !! p = Some q /\
     last (pm_go (serverQueueHub s')) = Some p /\ q_sorted q = sort /\ q_covered q /\
     (forall hp id, SHi hp id ∈ ops -> q_writers q !! id = Some (NewWebSocketWriter hp id)) /\
     (forall id w, q_writers q !! id = Some w -> exists hp, SHi hp id ∈ ops /\ w = NewWebSocketWriter hp id)) /\
  (exists p l, pm_map (serverLinkHub s') !! m = Some p /\ pm_heap (serverLinkHub s') !! p = Some l /\
     last (pm_go (serverLinkHub s')) = Some p /\ l_sorted l = sort /\ l_conn l = Some conn /\
     forall id, id ∈ sort -> is_Some (pm_map (serverLinkHub s') !! id)).
Proof.
  intros Hq Hl Hhi Hnd ops Hids s'. destruct (sv_hs_run now m sort s ops) as [Eq El].
  fold s' in Eq, El. rewrite Eq, El.
  rewrite !Forall_app in Hhi. destruct Hhi as (Hh1 & Hh2 & Hh3 & Hh4). split.
  - destruct (queue_ops_last ops1 hp addr (ops2 ++ STryLink conn :: ops3) ops4 Hh4)
      as (l1 & op & E & Hop & Hin). rewrite <- app_assoc in E. simpl in E. fold ops in E.
    pose proof (hs_added_hi ops) as Ha. rewrite E in Ha |- *.
    destruct (handshake_starts now m sort (serverQueueHub s) l1 op Hq Hnd Hop Hin) as (p & q & ? & ? & ? & Hqw & ?).
    { by rewrite Ha. }
    exists p, q. split_and!; try done.
    + intros id Hid. apply elem_of_dom. rewrite Hqw, hs_writers_dom, elem_of_list_to_set, Ha, Hids. congruence.
    + intros hp' id Hin'. rewrite Hqw. apply hs_writers_lookup; [by rewrite Ha, Hids|].
      rewrite <- E. apply list_elem_of_omap. by exists (SHi hp' id).
    + intros id w. rewrite Hqw, <- E. intros Hw%hs_writers_from%list_elem_of_omap.
      destruct Hw as ([hp' id'| | |] & Hin' & Ho); simplify_eq/=. by exists hp'.
  - assert (omap link_op ops = omap link_op (ops1 ++ SEst hp addr :: ops2) ++
              Link.HTry conn :: omap link_op (ops3 ++ ops4)) as E.
    { unfold ops. repeat (rewrite omap_app; simpl). by rewrite <- !app_assoc. }
    rewrite E.
    assert (forall l, Forall is_hi l -> Link.HSort ∉ omap link_op l /\
              Forall (fun op => match op with Link.HTry _ => False | _ => True end) (omap link_op l)) as Hno.
    { intros l. induction 1 as [|[] l Hx _ [IH1 IH2]]; simpl; try done; [split; [set_solver|done]|].
      split; [set_solver|by constructor]. }
    destruct (Hno _ Hh1) as [_ F1], (Hno _ Hh2) as [_ F2], (Hno _ Hh3) as [N3 F3], (Hno _ Hh4) as [N4 F4].
    destruct (link_handshake_starts now m sort (serverLinkHub s) (omap link_op (ops1 ++ SEst hp addr :: ops2))
      conn (omap link_op (ops3 ++ ops4)) Hl) as (p & l & ? & ? & ? & ? & ? & ?).
    + rewrite omap_app. simpl. set_solver.
    + rewrite omap_app. set_solver.
    + rewrite !omap_app. simpl. rewrite !Forall_app, Forall_cons. by split_and!.
    + rewrite <- Hids, <- hs_adds_hi, E, !hs_adds_app. done.
    + by exists p, l.
Qed.

(** C11: whatever the order in which the server's goroutines handle the hello
    messages of a proxied connection, its establish message and the dialling of
    the target: once all of it is done, both [Send]s have been started; the
    queue writes each connection of the order on the websocket that said hello
    for it, and the master link has the dialled connection, the same order, and
    a link for each connection of the order. *)
Theorem server_handshake now m sort s ops1 hp addr ops2 conn ops3 ops4 :
  pm_map (serverQueueHub s) !! m = None -> pm_map (serverLinkHub s) !! m = None ->
  Forall is_hi (ops1 ++ ops2 ++ ops3 ++ ops4) -> NoDup sort ->
  let ops := ops1 ++ SEst hp addr :: ops2 ++ STryLink conn :: ops3 ++ STryQueue :: ops4 in
  map snd (omap hi_of ops) ≡ₚ sort ->
  let s' := foldl (sv_hs_step now m sort) s ops in
  (exists p q, pm_map (serverQueueHub s') !! m = Some p /\ pm_heap (serverQueueHub s') !! p = Some q /\
     last (pm_go (serverQueueHub s')) = Some p /\ q_sorted q = sort /\ q_covered q /\
     forall hp id, SHi hp id ∈ ops -> q_writers q !! id = Some (NewWebSocketWriter hp id)) /\
  (exists p l, pm_map (serverLinkHub s') !! m = Some p /\ pm_heap (serverLinkHub s') !! p = Some l /\
     last (pm_go (serverLinkHub s')) = Some p /\ l_sorted l = sort /\ l_conn l = Some conn /\
     forall id, id ∈ sort -> is_Some (pm_map (serverLinkHub s') !! id)).
Proof.
  intros Hq Hl Hhi Hnd ops Hids s'.
  destruct (server_ready now m sort s ops1 hp addr ops2 conn ops3 ops4 Hq Hl Hhi Hnd Hids)
    as [(p & q & ? & ? & ? & ? & ? & ? & _) Hlinks].
  split; [by exists p, q|exact Hlinks].
Qed.
End handshake.
