(* ===== verification/HeartBeat.v ===== *)
(** The heart beat (wss/heart_beat.go): every fifteen seconds a message on each
    of the client's websockets, until the client closes or a write fails.

    The loop of [Start] selects between the end of its context and its ticker;
    its events say which it takes, and a tick comes with the result of the
    write to each websocket. *)
From S2P Require Import Prelude Pipe Queue QueueHub Link Json Messages Hub Server.

(** [HeartBeat]: the number of its websockets, [isClosed], and whether its
    context has been cancelled. *)
Record HeartBeat := mkHeartBeat { hb_wsc : nat; hb_isClosed : bool; hb_cancelled : bool }.

Definition NewHeartBeat (wsc : nat) : HeartBeat := mkHeartBeat wsc false false.

Definition hb_Close (hb : HeartBeat) : HeartBeat :=
  if hb_isClosed hb then hb else mkHeartBeat (hb_wsc hb) true true.

Section heart_beat.
Context {K : Ksuid} `{!KsuidText K}.
Implicit Types (w : nat -> option error).

Inductive hb_ev :=
  | HbDone                                        (* the context is done *)
  | HbTick (w : nat -> option error).             (* a tick: the result of each write *)

(** What one tick sends, with the websockets it goes to. *)
Definition beats (n : nat) : list (nat * json) :=
  map (fun i => (i, marshal_message heartBeats)) (seq 0 n).

(** The error that the loop over the websockets leaves in [err]. *)
Definition beat_err (n : nat) w : option error := foldl (fun _ i => w i) None (seq 0 n).

(** [Start]: the messages sent, and its result if it has returned. *)
Fixpoint hb_Start (n : nat) (evs : list hb_ev) : list (nat * json) * option (option error) :=
  match evs with
  | [] => ([], None)
  | HbDone :: _ => ([], Some None)
  | HbTick w :: evs' =>
      match beat_err n w with
      | Some err => (beats n, Some (Some err))
      | None => let '(out, res) := hb_Start n evs' in (beats n ++ out, res)
      end
  end.

(** Only the last websocket's result counts. *)
Lemma beat_err_last n w : beat_err (S n) w = w n.
Proof. unfold beat_err. rewrite seq_S, foldl_app. done. Qed.

Lemma hb_Start_ticks n ws evs :
  Forall (fun w => w n = None) ws ->
  hb_Start (S n) (map HbTick ws ++ evs) =
    (concat (map (fun _ => beats (S n)) ws) ++ fst (hb_Start (S n) evs), snd (hb_Start (S n) evs)).
Proof.
  induction 1 as [|w ws Hw _ IH]; cbn [map app hb_Start concat]; [by destruct (hb_Start _ evs)|].
  rewrite beat_err_last, Hw, IH. by rewrite <- app_assoc.
Qed.

(** C37: while the writes to the last websocket succeed, each tick sends one beat on
    every websocket, in their order, whatever the other writes give; the first
    failed write to the last websocket ends the loop with its error, the end of
    the context without one; and the server reads each beat without an error
    and without any effect. *)
Theorem heart_beat_loop n ws rest :
  Forall (fun w => w n = None) ws ->
  hb_Start (S n) (map HbTick ws ++ HbDone :: rest) = (concat (map (fun _ => beats (S n)) ws), Some None) /\
  (forall w err, w n = Some err ->
     hb_Start (S n) (map HbTick ws ++ HbTick w :: rest) =
       (concat (map (fun _ => beats (S n)) ws) ++ beats (S n), Some (Some err))) /\
  (forall i v, (i, v) ∈ beats (S n) -> forall now we hp s,
     dispatchMessage now we hp MessageText (Some v) s = Finished (s, None)).
Proof.
  intros Hws. split_and!.
  - rewrite hb_Start_ticks by done. simpl. by rewrite app_nil_r.
  - intros w err Hw. rewrite hb_Start_ticks by done. cbn [hb_Start]. by rewrite beat_err_last, Hw.
  - intros i v Hv now we hp s. apply list_elem_of_fmap in Hv as (j & [= -> ->] & _).
    unfold dispatchMessage, dispatchDataMessage. cbn [unmarshal_raw].
    rewrite unmarshal_marshal_message by (done || apply ksuid_string_ascii).
    cbn [heartBeats m_Id m_Type]. by rewrite ksuid_parse_string.
Qed.
End heart_beat.
