(* ===== verification/Client.v ===== *)
(** The client's side of proxied connections (wss/websocket_client.go, and
    [transData] of wss/wssocks_client.go): the proxies of each websocket, the
    loop that listens to it, and carrying one SOCKS connection over all of
    them.

    The callbacks of a proxy are closures of the call of [transData] that made
    it; they share the variables of that call, which are a [trans] here, so a
    proxy points to its [trans].  A [webSocketWriter] is reached through a
    pointer by the queue, and [CloseWsWriter] changes it there. *)
From S2P Require Import Prelude GoChan Pipe RoundRobin PtrMap Queue QueueHub Link Base64 Json Messages Hub Server.

Section client.
Context {K : Ksuid} `{!KsuidText K}.

(** [ProxyClient]: its ID, and the call of [transData] whose closures it has. *)
Record ProxyClient := mkProxyClient { p_Id : KSUID; p_trans : nat }.

(** [WebSocketClient]: its proxies, and whether it has been cancelled and its
    websocket closed. *)
Record WebSocketClient := mkWSC {
  proxies : gmap KSUID ProxyClient;
  wc_cancelled : bool;
  wc_closed : bool;
}.

(** The variables of a call of [transData] that its closures share. *)
Record trans := mkTrans { tr_status : string; tr_master : option KSUID; tr_sorted : list KSUID }.

Record client := mkClient {
  clientQueueHub : QueueHub nat;
  clientLinkHub : LinkHub;
  cl_writers : list webSocketWriter;
  cl_trans : list trans;
  cl_wsc : list WebSocketClient;
}.

Definition client_init : client := mkClient NewQueueHub NewLinkHub [] [] [].

Definition set_cqueues (h : QueueHub nat) (s : client) : client :=
  mkClient h (clientLinkHub s) (cl_writers s) (cl_trans s) (cl_wsc s).
Definition set_clinks (h : LinkHub) (s : client) : client :=
  mkClient (clientQueueHub s) h (cl_writers s) (cl_trans s) (cl_wsc s).
Definition set_cwriters (l : list webSocketWriter) (s : client) : client :=
  mkClient (clientQueueHub s) (clientLinkHub s) l (cl_trans s) (cl_wsc s).
Definition set_ctrans (l : list trans) (s : client) : client :=
  mkClient (clientQueueHub s) (clientLinkHub s) (cl_writers s) l (cl_wsc s).
Definition set_wsc (i : nat) (f : WebSocketClient -> WebSocketClient) (s : client) : client :=
  mkClient (clientQueueHub s) (clientLinkHub s) (cl_writers s) (cl_trans s) (alter f i (cl_wsc s)).
Definition set_proxies (m : gmap KSUID ProxyClient) (w : WebSocketClient) : WebSocketClient :=
  mkWSC m (wc_cancelled w) (wc_closed w).

(** * The proxies of a websocket *)

(** [ConnSize] *)
Definition ConnSize (w : WebSocketClient) : nat := size (proxies w).

(** [NewWebSocketClient], when the dial succeeds. *)
Definition NewWebSocketClient (s : client) : client :=
  mkClient (clientQueueHub s) (clientLinkHub s) (cl_writers s) (cl_trans s)
    (cl_wsc s ++ [mkWSC ∅ false false]).

(** [NewProxy]; [id] is the result of [ksuid.New]. *)
Definition NewProxy (i t : nat) (id : KSUID) (s : client) : client :=
  set_wsc i (fun w => set_proxies (<[id := mkProxyClient id t]> (proxies w)) w) s.

(** [GetProxyById]; [None] is nil. *)
Definition wsc_GetProxyById (i : nat) (id : KSUID) (s : client) : option ProxyClient :=
  w ← cl_wsc s !! i; proxies w !! id.

(** [RemoveProxy] *)
Definition wsc_RemoveProxy (i : nat) (id : KSUID) (s : client) : client :=
  set_wsc i (fun w => match proxies w !! id with
                      | Some _ => set_proxies (delete id (proxies w)) w
                      | None => w
                      end) s.

(** [WebSocketClient.Close]; [cancel] is nil until [ListenIncomeMsg] runs. *)
Definition wsc_Close (i : nat) (listening : bool) (s : client) : client :=
  set_wsc i (fun w => mkWSC (proxies w) (wc_cancelled w || listening) true) s.

(** * Callbacks of [transData] *)

(** [remove]: release the resources once. [None] is a panic. *)
Definition remove (t : nat) (id : KSUID) (s : client) : option client :=
  match cl_trans s !! t with
  | Some tr =>
      if decide (tr_status tr = "removed") then Some s
      else
        let s1 := set_ctrans (<[t := mkTrans "removed" (tr_master tr) (tr_sorted tr)]> (cl_trans s)) s in
        q ← QueueHub.Remove id (clientQueueHub s1);
        let s2 := set_cqueues q s1 in
        l ← Link.RemoveAll id (clientLinkHub s2);
        Some (set_clinks l s2)
  | None => Some s
  end.

(** [onData]; the results of [link.Write] are not looked at. *)
Definition onData (we : Link.write_env) (id : KSUID) (data : ServerData) (s : client) : outcome client :=
  match Link.Get id (clientLinkHub s) with
  | None => Finished s
  | Some p =>
      match pm_heap (clientLinkHub s) !! p with
      | None => Finished s
      | Some l =>
          let put l' := set_clinks (pm_update p (fun _ => l') (clientLinkHub s)) s in
          if (sd_Tag data =? TagData)%Z then
            match Link.Write we l (sd_Data data) with
            | Some (l', _) => Finished (put l')
            | None => Blocked
            end
          else if (sd_Tag data =? TagEOF)%Z then
            match Link.WriteEOF we l with
            | Some l' => Finished (put l')
            | None => Blocked
            end
          else Finished s
      end
  end.

(** [onClosed]; [tell] is not used. *)
Definition onClosed (t : nat) (id : KSUID) (tell : bool) (s : client) : option client := remove t id s.

(** [onError] does nothing. *)
Definition onError (t : nat) (id : KSUID) (s : client) : client := s.

(** * Listening *)

(** A message that has been read; [data] is [None] when it is not JSON. *)
Definition income (we : Link.write_env) (i : nat) (data : option json) (s : client) : outcome client :=
  match unmarshal_raw unmarshal_message data with
  | None => Finished s
  | Some m =>
      match ksuid_Parse (m_Id m) with
      | None => Finished s
      | Some ksid =>
          match wsc_GetProxyById i ksid s with
          | None => Finished s
          | Some proxy =>
              if String.eqb (m_Type m) WsTpClose then
                match onClosed (p_trans proxy) ksid false s with
                | Some s' => Finished s'
                | None => Panicked
                end
              else if String.eqb (m_Type m) WsTpData then
                match unmarshal_raw unmarshal_data (m_Data m) with
                | None => Finished (onError (p_trans proxy) ksid s)
                | Some proxyData =>
                    match DecodeString (pd_DataBase64 proxyData) with
                    | None => Finished (onError (p_trans proxy) ksid s)
                    | Some decodeBytes =>
                        onData we ksid (mkServerData (pd_Tag proxyData) decodeBytes) s
                    end
                end
              else Finished s
          end
      end
  end.

Definition StoppedError : error := errors_New "listener stopped".

(** [ListenIncomeMsg]: one turn of its loop. The result is the state and, when
    the loop returns, its error. *)
Definition Listen_step (we : Link.write_env) (i : nat) (read : error + option json) (s : client) :
    outcome (client * option error) :=
  match cl_wsc s !! i with
  | None => Blocked
  | Some w =>
      if wc_cancelled w then Finished (s, Some StoppedError)
      else match read with
           | inl err => Finished (s, Some err)
           | inr data =>
               match income we i data s with
               | Finished s' => Finished (s', None)
               | Blocked => Blocked
               | Panicked => Panicked
               end
           end
  end.

(** * Carrying a connection *)

(** The loop over the websockets: the [i]-th gets a proxy with the ID [id], says
    hello for it, and is added to the queue and the links of the master, which
    is the first.  [ids] are the results of [ksuid.New]; the errors of the
    hello messages are not looked at.  The messages go to the websockets. *)
Fixpoint trans_loop (now : Z) (t i : nat) (ids : list KSUID) (s : client) : client * list (nat * json) :=
  match ids with
  | [] => (s, [])
  | id :: ids' =>
      let s1 := NewProxy i t id s in
      let tr := default (mkTrans "" None []) (cl_trans s1 !! t) in
      let masterID := if Nat.eqb i 0 then id else default ksuid_Nil (tr_master tr) in
      let s2 := set_ctrans (<[t := mkTrans (tr_status tr) (Some masterID) (tr_sorted tr ++ [id])]>
                              (cl_trans s1)) s1 in
      let hi := fst (SayID None id masterID) in
      let writer := length (cl_writers s2) in
      let s3 := set_cwriters (cl_writers s2 ++ [NewWebSocketWriter i id]) s2 in
      let s4 := set_cqueues (QueueHub.Add now masterID id writer (clientQueueHub s3)) s3 in
      let s5 := set_clinks (Link.Add now id masterID (clientLinkHub s4)) s4 in
      let '(s6, out) := trans_loop now t (S i) ids' s5 in
      (s6, map (pair i) hi ++ out)
  end.

(** How [transData] goes on after its calls up to [oo.Wait()]. *)
Inductive trans_result :=
  | TReturn (err : error)                         (* it returns, after its deferred calls *)
  | TWait (queue link : nat)                      (* it waits for the link *)
  | TPanic.

(** [transData] up to [oo.Wait()], for a new [trans]; [est_err] is the result of
    the establish message.  [go qq.Send()] and [go oo.Send()] are recorded in
    the hubs. *)
Definition transData (now : Z) (ids : list KSUID) (conn : TCPConn) (firstSendData : option bytes)
    (addr : string) (est_err : option error) (s : client) : client * list (nat * json) * trans_result :=
  if bool_decide (default [] firstSendData <> []) then (s, [], TPanic)
  else
    let t := length (cl_trans s) in
    let s0 := set_ctrans (cl_trans s ++ [mkTrans "" None []]) s in
    let '(s1, out) := trans_loop now t 0 ids s0 in
    let tr := default (mkTrans "" None []) (cl_trans s1 !! t) in
    match tr_master tr with
    | None => (s1, out, TPanic)
    | Some masterID =>
        let '(est, err) := Establish est_err masterID firstSendData addr (Some (tr_sorted tr)) in
        let out1 := out ++ map (pair 0) est in
        match err with
        | Some e => (s1, out1, TReturn e)
        | None =>
            match QueueHub.Get masterID (clientQueueHub s1) with
            | None => (s1, out1, TReturn (errors_New "queue not found"))
            | Some qq =>
                let s2 := set_cqueues (pm_start qq (pm_update qq (Queue.SetSort (tr_sorted tr))
                                                      (clientQueueHub s1))) s1 in
                match Link.Get masterID (clientLinkHub s2) with
                | None => (s2, out1, TReturn (errors_New "link not found"))
                | Some oo =>
                    let s3 := set_clinks (pm_start oo (pm_update oo
                                (fun l => Link.SetSort (tr_sorted tr) (Link.SetConn conn l))
                                (clientLinkHub s2))) s2 in
                    (s3, out1, TWait qq oo)
                end
            end
        end
    end.

(** The deferred calls of the loop, last first: [CloseWsWriter] and
    [RemoveProxy] of each websocket. [writers] are pointers. *)
Fixpoint trans_undo (l : list (nat * KSUID * nat)) (s : client) : client :=
  match l with
  | [] => s
  | (i, id, writer) :: l' =>
      let s1 := trans_undo l' s in
      wsc_RemoveProxy i id (set_cwriters (alter CloseWsWriter writer (cl_writers s1)) s1)
  end.

(** The return of [transData]: [remove(masterID)], then the deferred calls of
    the loop.  [l] are its websockets, IDs and writers. *)
Definition trans_return (t : nat) (masterID : KSUID) (l : list (nat * KSUID * nat)) (s : client) :
    option client :=
  s1 ← remove t masterID s; Some (trans_undo l s1).
End client.

(** * A chunk reaches its link *)

Section delivery.
Context {K : Ksuid} `{!KsuidText K}.

(** What a [webSocketWriter] of connection [id] gives its websocket for a
    buffer of the queue: [Write], or [WriteEOF] at the end of file. *)
Definition chunk_message (wsc : nat) (id : KSUID) (b : buffer) : list json :=
  let w := NewWebSocketWriter wsc id in
  if b_eof b then writer_WriteEOF w None else fst (writer_Write w None (b_data b)).

(** What becomes of the buffer [b] for [id] at a hub of links, and of the call
    that writes it, when [we] is what happens meanwhile: there is no link, or
    its [Send] is over, and the buffer is dropped; else the call waits in its
    [select], while other goroutines do [we_ops we] to the link, until the timer
    ends it and the buffer is dropped, or there is room and the buffer is the
    newest of the link, or the link is closed and the panic of the send is
    recovered. As long as the buffer is full the call is blocked. *)
Inductive receives (we : Link.write_env) (h : LinkHub) (id : KSUID) (b : buffer) : outcome LinkHub -> Prop :=
  | rc_no_link : pm_deref h id = None -> receives we h id b (Finished h)
  | rc_refused p l :
      pm_map h !! id = Some p -> pm_heap h !! p = Some l -> l_status l = StaDone ->
      receives we h id b (Finished h)
  | rc_timer p l l' :
      pm_map h !! id = Some p -> pm_heap h !! p = Some l -> l_status l <> StaDone ->
      l' = foldl Link.interfere l (Link.we_ops we) -> Link.we_timer we = true ->
      receives we h id b (Finished (pm_update p (fun _ => l') h))
  | rc_closed p l l' :
      pm_map h !! id = Some p -> pm_heap h !! p = Some l -> l_status l <> StaDone ->
      l' = foldl Link.interfere l (Link.we_ops we) -> Link.we_timer we = false ->
      chan_closed (l_buffer l') = true ->
      receives we h id b (Finished (pm_update p (fun _ => l') h))
  | rc_written p l l' c :
      pm_map h !! id = Some p -> pm_heap h !! p = Some l -> l_status l <> StaDone ->
      l' = foldl Link.interfere l (Link.we_ops we) -> Link.we_timer we = false ->
      chan_closed (l_buffer l') = false -> length (chan_items (l_buffer l')) < chan_cap (l_buffer l') ->
      chan_items c = chan_items (l_buffer l') ++ [b] -> chan_cap c = chan_cap (l_buffer l') -> chan_closed c = false ->
      receives we h id b (Finished (pm_update p (fun _ => set_l_buffer c l') h))
  | rc_blocked p l l' :
      pm_map h !! id = Some p -> pm_heap h !! p = Some l -> l_status l <> StaDone ->
      l' = foldl Link.interfere l (Link.we_ops we) -> Link.we_timer we = false ->
      chan_closed (l_buffer l') = false -> ~ length (chan_items (l_buffer l')) < chan_cap (l_buffer l') ->
      receives we h id b Blocked.

(** The case without waiting: there is room at once, or no link, or its [Send]
    is over. The processes of two sides that exchange chunks while nothing
    times out take this case ([delivers_receives] relates the two). *)
Inductive delivers (h : LinkHub) (id : KSUID) (b : buffer) : LinkHub -> Prop :=
  | dl_written p l c :
      Link.Get id h = Some p -> pm_heap h !! p = Some l -> l_status l <> StaDone ->
      chan_send (l_buffer l) b = SendOk c ->
      delivers h id b (pm_update p (set_l_buffer c) h)
  | dl_refused p l :
      Link.Get id h = Some p -> pm_heap h !! p = Some l -> l_status l = StaDone ->
      delivers h id b h
  | dl_no_link : Link.Get id h = None -> delivers h id b h.

Lemma pm_update_at {V} p (f : V -> V) v (h : ptrmap V) :
  pm_heap h !! p = Some v -> pm_update p (fun _ => f v) h = pm_update p f h.
Proof.
  intros Hv. unfold pm_update. f_equal. apply list_alter_ext; [|done]. intros v' Hv'. by simplify_eq.
Qed.

Lemma pm_update_id {V} p v (h : ptrmap V) :
  pm_heap h !! p = Some v -> pm_update p (fun _ => v) h = h.
Proof.
  intros Hv. rewrite (pm_update_at p (fun x => x) v h Hv). unfold pm_update.
  rewrite list_alter_id by done. by destruct h.
Qed.

Lemma delivers_receives h id b h' : delivers h id b h' -> receives (at_once false) h id b (Finished h').
Proof.
  destruct 1 as [p l c Hp Hl Hst Hs|p l Hp Hl Hst|Hp].
  - apply chan_send_inv in Hs as Hi. rewrite <- (pm_update_at p (set_l_buffer c) l h Hl).
    unfold chan_send in Hs. destruct (chan_closed (l_buffer l)) eqn:Hc; [done|].
    destruct (Nat.ltb_spec (length (chan_items (l_buffer l))) (chan_cap (l_buffer l))); [|done]. injection Hs as <-.
    by eapply (rc_written _ _ _ _ p l l).
  - by eapply rc_refused.
  - apply rc_no_link. unfold pm_deref. unfold Link.Get in Hp. by rewrite Hp.
Qed.

(** [link.Write] and [link.WriteEOF] do that. *)
Lemma writeBuf_receives we h id b p l :
  pm_map h !! id = Some p -> pm_heap h !! p = Some l ->
  receives we h id b match Link.writeBuf we l b with
                     | Some (l', _) => Finished (pm_update p (fun _ => l') h)
                     | None => Blocked
                     end.
Proof.
  intros Hp Hl. unfold Link.writeBuf. case_decide as Hst.
  { rewrite pm_update_id by done. by eapply rc_refused. }
  cbn zeta. set (l1 := foldl _ _ _). destruct (Link.we_timer we) eqn:Ht; [by eapply rc_timer|].
  unfold chan_send. destruct (chan_closed (l_buffer l1)) eqn:Hc; [by eapply rc_closed|].
  destruct (Nat.ltb_spec (length (chan_items (l_buffer l1))) (chan_cap (l_buffer l1))).
  - by eapply rc_written.
  - apply (rc_blocked _ _ _ _ p l l1); [done..|lia].
Qed.

(** What the server and the client do with a chunk. *)
Lemma dispatch_receives we now hp id b s :
  (b_eof b = true -> b_data b = []) ->
  exists o, receives we (serverLinkHub s) id b o /\
    dispatchMessage now we hp MessageText
        (Some (marshal_message (proxy_message id (if b_eof b then TagEOF else TagData) (b_data b)))) s =
      map_outcome (fun h => (set_links h s, None)) o.
Proof.
  intros Hb. unfold dispatchMessage, dispatchDataMessage. cbn [unmarshal_raw].
  rewrite unmarshal_proxy_message. cbn [proxy_message m_Id m_Type m_Data]. rewrite ksuid_parse_string.
  cbn -[unmarshal_data marshal_data EncodeToString]. unfold dispatch_data. cbn [unmarshal_raw].
  rewrite unmarshal_marshal_data by (by destruct (b_eof b)).
  cbn [pd_Tag pd_DataBase64]. rewrite DecodeString_EncodeToString. unfold Link.Get.
  destruct (pm_map (serverLinkHub s) !! id) as [p|] eqn:Hp.
  2: { exists (Finished (serverLinkHub s)). split; [apply rc_no_link; unfold pm_deref; by rewrite Hp|by destruct s]. }
  destruct (pm_heap (serverLinkHub s) !! p) as [l|] eqn:Hl.
  2: { exists (Finished (serverLinkHub s)). split; [apply rc_no_link; unfold pm_deref; by rewrite Hp|by destruct s]. }
  eexists. split; [by eapply writeBuf_receives|]. unfold Link.WriteEOF, Link.Write.
  destruct b as [[] data]; simpl in *; [rewrite (Hb eq_refl)|]; by destruct (Link.writeBuf _ _ _) as [[]|].
Qed.

Lemma income_receives we i id b proxy s :
  (b_eof b = true -> b_data b = []) -> wsc_GetProxyById i id s = Some proxy ->
  exists o, receives we (clientLinkHub s) id b o /\
    income we i (Some (marshal_message (proxy_message id (if b_eof b then TagEOF else TagData) (b_data b)))) s =
      map_outcome (fun h => set_clinks h s) o.
Proof.
  intros Hb Hproxy. unfold income. cbn [unmarshal_raw].
  rewrite unmarshal_proxy_message. cbn [proxy_message m_Id m_Type m_Data].
  rewrite ksuid_parse_string, Hproxy. cbn -[unmarshal_data marshal_data EncodeToString].
  rewrite unmarshal_marshal_data by (by destruct (b_eof b)).
  cbn [pd_Tag pd_DataBase64]. rewrite DecodeString_EncodeToString. unfold onData, Link.Get.
  destruct (pm_map (clientLinkHub s) !! id) as [p|] eqn:Hp.
  2: { exists (Finished (clientLinkHub s)). split; [apply rc_no_link; unfold pm_deref; by rewrite Hp|by destruct s]. }
  destruct (pm_heap (clientLinkHub s) !! p) as [l|] eqn:Hl.
  2: { exists (Finished (clientLinkHub s)). split; [apply rc_no_link; unfold pm_deref; by rewrite Hp|by destruct s]. }
  eexists. split; [by eapply writeBuf_receives|]. unfold Link.WriteEOF, Link.Write.
  destruct b as [[] data]; simpl in *; [rewrite (Hb eq_refl)|]; by destruct (Link.writeBuf _ _ _) as [[]|].
Qed.

(** C13: a chunk or an end of file that one side writes for connection [id] is
    one message, and when the other side reads it, whatever happens to its link
    meanwhile, the same buffer becomes the newest of the link that its hub has
    for [id], unless there is no such link, its [Send] is over, it is closed
    while the dispatcher waits, or the timer ends the waiting: then the buffer
    is dropped. While the link is full the dispatcher is blocked ([receives]
    lists the cases). Nothing but the hub of links changes. Both for the
    server's dispatcher and for the client's. *)
Theorem chunk_delivered wsc id b :
  (b_eof b = true -> b_data b = []) ->
  exists v, chunk_message wsc id b = [v] /\
    (forall we now hp s, exists o, receives we (serverLinkHub s) id b o /\
       dispatchMessage now we hp MessageText (Some v) s = map_outcome (fun h => (set_links h s, None)) o) /\
    (forall we i proxy s, wsc_GetProxyById i id s = Some proxy ->
       exists o, receives we (clientLinkHub s) id b o /\
         income we i (Some v) s = map_outcome (fun h => set_clinks h s) o).
Proof.
  intros Hb. eexists. split; [|split].
  - unfold chunk_message, writer_WriteEOF, writer_Write. simpl.
    instantiate (1 := marshal_message (proxy_message id (if b_eof b then TagEOF else TagData) (b_data b))).
    destruct (b_eof b); [|done]. by rewrite Hb.
  - intros we now hp s. by apply dispatch_receives.
  - intros we i proxy s Hp. by eapply income_receives.
Qed.
End delivery.

(** * Setting up a connection *)

Section setup.
Context {K : Ksuid} `{!KsuidText K}.
Implicit Types (s : client) (ids : list KSUID).

(** The IDs with the indices of their websockets, from the [i]-th on. *)
Definition numbered (i : nat) ids : list (nat * KSUID) := zip (seq i (length ids)) ids.

(** The hello messages, with the websockets they are given to. *)
Definition hello_messages (i : nat) (m : KSUID) ids : list (nat * json) :=
  map (fun '(k, id) => (k, marshal_message (hi_message id m))) (numbered i ids).

(** What the loop registers with the hub of queues. *)
Definition queue_adds (w : nat) ids : list (QueueHub.handshake (W := nat)) :=
  map (fun '(k, id) => QueueHub.HAdd id k) (numbered w ids).

(** What the loop of [transData] has done for the IDs [ids], from the [i]-th
    websocket on. *)
Record loop_done (now : Z) (t i : nat) (m : KSUID) ids s s' : Prop := {
  ld_queues : clientQueueHub s' = foldl (QueueHub.hs_step now m []) (clientQueueHub s)
                                    (queue_adds (length (cl_writers s)) ids);
  ld_links : clientLinkHub s' = foldl (Link.hs_step now m []) (clientLinkHub s) (map Link.HAdd ids);
  ld_writers : cl_writers s' = cl_writers s ++ map (fun '(k, id) => NewWebSocketWriter k id) (numbered i ids);
  ld_trans tr : cl_trans s !! t = Some tr ->
    cl_trans s' !! t = Some (match ids with
                             | [] => tr
                             | _ => mkTrans (tr_status tr) (Some m) (tr_sorted tr ++ ids)
                             end);
  ld_proxies k id : (k, id) ∈ numbered i ids -> k < length (cl_wsc s) ->
    wsc_GetProxyById k id s' = Some (mkProxyClient id t);
  ld_kept k id proxy : k < i -> wsc_GetProxyById k id s = Some proxy -> wsc_GetProxyById k id s' = Some proxy;
  ld_wsc : length (cl_wsc s') = length (cl_wsc s);
}.

Lemma NewProxy_get i t id s k id' :
  i < length (cl_wsc s) ->
  wsc_GetProxyById k id' (NewProxy i t id s) =
    if decide (k = i /\ id' = id) then Some (mkProxyClient id t) else wsc_GetProxyById k id' s.
Proof.
  intros [w Hw]%lookup_lt_is_Some. unfold wsc_GetProxyById, NewProxy. simpl.
  destruct (decide (k = i)) as [->|Hk].
  - rewrite list_lookup_alter_eq, Hw. simpl. rewrite lookup_insert.
    repeat case_decide; try done; naive_solver.
  - rewrite list_lookup_alter_ne by done. rewrite decide_False; [done|]. naive_solver.
Qed.

Lemma trans_loop_done now t i m ids s :
  is_Some (cl_trans s !! t) ->
  (if Nat.eqb i 0 then head ids = Some m \/ ids = []
   else tr_master <$> cl_trans s !! t = Some (Some m)) ->
  i + length ids <= length (cl_wsc s) ->
  loop_done now t i m ids s (fst (trans_loop now t i ids s)) /\
  snd (trans_loop now t i ids s) = hello_messages i m ids.
Proof.
  revert i s. induction ids as [|id ids IH]; intros i s [tr Htr] Hm Hlen.
  { simpl. split; [|done]. split; simpl; rewrite ?app_nil_r; try done. by intros k id ?%not_elem_of_nil. }
  assert ((if Nat.eqb i 0 then id else default ksuid_Nil (tr_master tr)) = m) as Em.
  { destruct (Nat.eqb i 0); [by destruct Hm as [[= ->]|]|]. rewrite Htr in Hm. by injection Hm as ->. }
  assert (i < length (cl_wsc s)) as Hi by (simpl in Hlen; lia).
  cbn [trans_loop]. cbn [cl_trans NewProxy set_wsc]. rewrite Htr. cbn [default]. simpl default. rewrite Em.
  match goal with |- context [trans_loop now t (S i) ids ?x] => set (s5 := x) end.
  assert (loop_done now t i m [id] s s5) as H1.
  { split; simpl; try done.
    - intros tr' Htr'. rewrite Htr in Htr'. simplify_eq. rewrite list_lookup_insert_eq; [done|].
      by eapply lookup_lt_Some.
    - intros k id' Hk%list_elem_of_singleton _. simplify_eq. unfold wsc_GetProxyById at 1. simpl.
      pose proof (NewProxy_get i t id s i id Hi) as Hg. rewrite decide_True in Hg by done. exact Hg.
    - intros k id' proxy Hk Hp. pose proof (NewProxy_get i t id s k id' Hi) as Hg.
      rewrite decide_False in Hg by lia. rewrite Hp in Hg. exact Hg.
    - by rewrite length_alter. }
  assert (cl_trans s5 !! t = Some (mkTrans (tr_status tr) (Some m) (tr_sorted tr ++ [id]))) as T5
    by exact (ld_trans _ _ _ _ _ _ _ H1 tr Htr).
  destruct (IH (S i) s5) as [H2 Hout].
  - by eexists.
  - cbn [Nat.eqb]. by rewrite T5.
  - rewrite (ld_wsc _ _ _ _ _ _ _ H1). simpl in Hlen. lia.
  - destruct (trans_loop now t (S i) ids s5) as [s6 out]. simpl in *. subst out. split; [|done].
    clear IH Em T5.
    destruct H1 as [Q1 L1 W1 T1 P1 K1 N1], H2 as [Q2 L2 W2 T2 P2 K2 N2].
    split.
    + rewrite Q2, Q1, W1, length_app. simpl. by rewrite Nat.add_1_r.
    + by rewrite L2, L1.
    + rewrite W2, W1, <- app_assoc. done.
    + intros tr' Htr'. rewrite Htr in Htr'. injection Htr' as <-. rewrite (T2 _ (T1 tr Htr)).
      destruct ids; [done|]. simpl. by rewrite <- app_assoc.
    + intros k id' [Hk|Hk]%elem_of_cons Hlt.
      * simplify_eq. apply K2; [lia|]. apply P1; [simpl; set_solver|done].
      * apply P2; [done|]. by rewrite N1.
    + intros k id' proxy Hk Hp. apply K2; [lia|]. by apply K1.
    + congruence.
Qed.
Lemma numbered_lookup i ids k id :
  ids !! k = Some id -> numbered i ids !! k = Some (i + k, id).
Proof.
  intros Hk. unfold numbered. apply lookup_zip_Some. split; [|done].
  apply lookup_seq. split; [done|]. by eapply lookup_lt_Some.
Qed.

Lemma elem_of_numbered k id ids : (k, id) ∈ numbered 0 ids -> ids !! k = Some id.
Proof.
  intros [j Hj]%list_elem_of_lookup. apply lookup_zip_Some in Hj as [Hs Hid].
  apply lookup_seq in Hs as [-> _]. done.
Qed.

Lemma queue_adds_added w ids : hs_added (queue_adds w ids) = ids.
Proof.
  unfold queue_adds, numbered. revert w. induction ids as [|id ids IH]; intros w; [done|].
  simpl. f_equal. apply IH.
Qed.

(** The queue that the loop leaves. *)
Lemma loop_queue now m ids w h :
  pm_map h !! m = None -> NoDup ids -> ids <> [] ->
  exists p q, pm_map (foldl (QueueHub.hs_step now m []) h (queue_adds w ids)) !! m = Some p /\
    pm_heap (foldl (QueueHub.hs_step now m []) h (queue_adds w ids)) !! p = Some q /\
    q_writers q = hs_writers (queue_adds w ids) /\
    forall k id, (k, id) ∈ numbered 0 ids -> q_writers q !! id = Some (w + k).
Proof.
  intros Hm Hnd Hne. pose proof (hs_run_inv now m [] (queue_adds w ids) h Hm) as Hinv.
  set (h1 := foldl _ _ _) in *. unfold QueueHub.hs_inv in Hinv.
  destruct (pm_map h1 !! m) as [p|].
  - destruct Hinv as (q & Hq & Hw & _). exists p, q. split_and!; [done..|].
    intros k id Hk%elem_of_numbered. rewrite Hw. apply hs_writers_lookup; [by rewrite queue_adds_added|].
    apply list_elem_of_fmap. exists (w + k, id). split; [done|].
    eapply list_elem_of_lookup_2, numbered_lookup, Hk.
  - destruct ids as [|id ids]; [done|]. by apply Forall_inv in Hinv.
Qed.

(** The master link that the loop leaves. *)
Lemma loop_link now m ids h :
  pm_map h !! m = None -> ids <> [] ->
  exists p l, pm_map (foldl (Link.hs_step now m []) h (map Link.HAdd ids)) !! m = Some p /\
    pm_heap (foldl (Link.hs_step now m []) h (map Link.HAdd ids)) !! p = Some l /\
    forall id, id ∈ ids -> is_Some (pm_map (foldl (Link.hs_step now m []) h (map Link.HAdd ids)) !! id).
Proof.
  intros Hm Hne.
  assert (Link.hs_inv m [] [] None h) as Hinv by (unfold Link.hs_inv; by rewrite Hm).
  apply (lhs_run_inv now m [] [] (map Link.HAdd ids)) in Hinv.
  2: { rewrite Forall_map. by apply Forall_true. }
  simpl in Hinv. set (h1 := foldl _ _ _) in *. unfold Link.hs_inv in Hinv.
  destruct (pm_map h1 !! m) as [p|].
  - destruct Hinv as (l & Hl & _ & _ & _ & Hids). exists p, l. split_and!; [done..|].
    intros id Hid. apply Hids. apply list_elem_of_omap. exists (Link.HAdd id).
    split; [|done]. apply list_elem_of_fmap. by exists id.
  - destruct Hinv as [Hn _]. by destruct ids.
Qed.

(** [transData] up to its wait: the loop, and then the order, the connection and
    the start of both [Send]s. *)
Lemma transData_hubs now ids m conn addr s :
  head ids = Some m -> NoDup ids -> length ids <= length (cl_wsc s) ->
  pm_map (clientQueueHub s) !! m = None -> pm_map (clientLinkHub s) !! m = None ->
  let s0 := set_ctrans (cl_trans s ++ [mkTrans "" None []]) s in
  exists s1 qq oo q l,
    loop_done now (length (cl_trans s)) 0 m ids s0 s1 /\
    (pm_map (clientQueueHub s1) !! m = Some qq /\ pm_heap (clientQueueHub s1) !! qq = Some q /\
     q_writers q = hs_writers (queue_adds (length (cl_writers s)) ids) /\
     forall k id, (k, id) ∈ numbered 0 ids -> q_writers q !! id = Some (length (cl_writers s) + k)) /\
    (pm_map (clientLinkHub s1) !! m = Some oo /\ pm_heap (clientLinkHub s1) !! oo = Some l /\
     forall id, id ∈ ids -> is_Some (pm_map (clientLinkHub s1) !! id)) /\
    transData now ids conn None addr None s =
      (set_clinks (pm_start oo (pm_update oo (fun l => Link.SetSort ids (Link.SetConn conn l)) (clientLinkHub s1)))
         (set_cqueues (pm_start qq (pm_update qq (Queue.SetSort ids) (clientQueueHub s1))) s1),
       hello_messages 0 m ids ++ [(0, marshal_message (est_message m None addr (Some ids)))], TWait qq oo).
Proof.
  intros Hhead Hnd Hlen Hq Hl s0. assert (ids <> []) as Hne by (by intros ->).
  set (t := length (cl_trans s)).
  assert (cl_trans s0 !! t = Some (mkTrans "" None [])) as Ht by (by apply list_lookup_middle).
  destruct (trans_loop_done now t 0 m ids s0) as [Hdone Hout]; [by eexists|by left|done|].
  unfold transData. simpl. fold t s0.
  destruct (trans_loop now t 0 ids s0) as [s1 out]. simpl in Hdone, Hout. subst out.
  pose proof (ld_trans _ _ _ _ _ _ _ Hdone _ Ht) as Ht1. destruct ids as [|id0 ids]; [done|].
  rewrite Ht1. cbn [default tr_master tr_sorted tr_status app]. set (ids' := id0 :: ids) in *.
  destruct (loop_queue now m ids' (length (cl_writers s0)) (clientQueueHub s0) Hq Hnd Hne) as (qq & q & Hqq & Hqh & Hqm & Hqw).
  destruct (loop_link now m ids' (clientLinkHub s0) Hl Hne) as (oo & l & Hoo & Hlh & Hlids).
  rewrite <- (ld_queues _ _ _ _ _ _ _ Hdone) in Hqq, Hqh.
  rewrite <- (ld_links _ _ _ _ _ _ _ Hdone) in Hoo, Hlh, Hlids.
  unfold QueueHub.Get, Link.Get. simpl. rewrite Hqq. simpl. rewrite Hoo.
  exists s1, qq, oo, q, l. by split_and!.
Qed.

(** [transData] tells the server, on each websocket, the ID it has there and
    the master's, and on the first one the target and the order of all; when it
    starts to wait, its queue and its master link have that order, the queue
    writes each ID on its own websocket, the link has the SOCKS connection and
    there is a link for each ID, a proxy of this call is registered for each ID
    on its websocket, and both [Send]s have been started. *)
Theorem transData_setup now ids m conn addr s :
  head ids = Some m -> NoDup ids -> length ids <= length (cl_wsc s) ->
  pm_map (clientQueueHub s) !! m = None -> pm_map (clientLinkHub s) !! m = None ->
  exists s' qq oo q l,
    transData now ids conn None addr None s =
      (s', hello_messages 0 m ids ++ [(0, marshal_message (est_message m None addr (Some ids)))], TWait qq oo) /\
    (pm_map (clientQueueHub s') !! m = Some qq /\ pm_heap (clientQueueHub s') !! qq = Some q /\
     last (pm_go (clientQueueHub s')) = Some qq /\ q_sorted q = ids /\
     forall k id, (k, id) ∈ numbered 0 ids ->
       exists w, q_writers q !! id = Some w /\ cl_writers s' !! w = Some (NewWebSocketWriter k id)) /\
    (pm_map (clientLinkHub s') !! m = Some oo /\ pm_heap (clientLinkHub s') !! oo = Some l /\
     last (pm_go (clientLinkHub s')) = Some oo /\ l_sorted l = ids /\ l_conn l = Some conn /\
     forall id, id ∈ ids -> is_Some (pm_map (clientLinkHub s') !! id)) /\
    (forall k id, (k, id) ∈ numbered 0 ids ->
       wsc_GetProxyById k id s' = Some (mkProxyClient id (length (cl_trans s)))).
Proof.
  intros Hhead Hnd Hlen Hq Hl.
  destruct (transData_hubs now ids m conn addr s Hhead Hnd Hlen Hq Hl)
    as (s1 & qq & oo & q & l & Hdone & (Hqq & Hqh & _ & Hqw) & (Hoo & Hlh & Hlids) & ->).
  eexists _, qq, oo, (Queue.SetSort ids q), (Link.SetSort ids (Link.SetConn conn l)).
  split; [done|]. split_and!; simpl; rewrite ?list_lookup_alter_eq, ?Hqh, ?Hlh, ?last_snoc; try done.
  - intros k id Hk. exists (length (cl_writers s) + k). split; [by apply Hqw|].
    rewrite (ld_writers _ _ _ _ _ _ _ Hdone). cbn [cl_writers set_ctrans].
    rewrite lookup_app_r, Nat.add_sub' by lia.
    apply elem_of_numbered in Hk. rewrite list_lookup_fmap, (numbered_lookup 0 ids k id Hk). done.
  - intros k id Hk. apply (ld_proxies _ _ _ _ _ _ _ Hdone k id); [done|].
    apply elem_of_numbered, lookup_lt_Some in Hk. simpl in *. lia.
Qed.
End setup.

(** * Releasing a connection *)

Section release.
Context {K : Ksuid} `{!KsuidText K}.
Implicit Types (s : client) (id : KSUID).

(** [remove] does not panic, takes the queue and the links of the connection
    away the first time, and does nothing afterwards. *)
Lemma remove_ok t id s tr :
  pm_wf (clientQueueHub s) -> pm_wf (clientLinkHub s) -> cl_trans s !! t = Some tr ->
  exists s', remove t id s = Some s' /\ cl_wsc s' = cl_wsc s /\ cl_writers s' = cl_writers s /\
    tr_status <$> cl_trans s' !! t = Some "removed"%string /\
    (tr_status tr = "removed"%string -> s' = s) /\
    (tr_status tr <> "removed"%string ->
       pm_removes (clientQueueHub s) [id] (clientQueueHub s') /\
       pm_removes (clientLinkHub s) (link_ids id (clientLinkHub s)) (clientLinkHub s')).
Proof.
  intros Hq Hl Ht. unfold remove. rewrite Ht. case_decide as Hst.
  - exists s. split_and!; try done. by rewrite Ht, <- Hst.
  - unfold QueueHub.Remove. simpl. destruct (pm_close_delete_ok id _ Hq) as (q' & Eq & _). rewrite Eq. simpl.
    destruct (RemoveAll_ok id _ Hl) as (l' & El & _). rewrite El. simpl. eexists.
    split_and!; try done.
    + simpl. rewrite list_lookup_insert_eq; [done|]. by eapply lookup_lt_Some.
    + intros _. split; [by apply pm_close_delete_removes|by apply RemoveAll_removes].
Qed.

Lemma RemoveProxy_get i id s k id' :
  wsc_GetProxyById k id' (wsc_RemoveProxy i id s) =
    if decide (k = i /\ id' = id) then None else wsc_GetProxyById k id' s.
Proof.
  unfold wsc_GetProxyById, wsc_RemoveProxy. simpl. destruct (decide (k = i)) as [->|Hk].
  - rewrite list_lookup_alter_eq. destruct (cl_wsc s !! i) as [w|] eqn:Hw; simpl.
    2: { by case_decide. }
    destruct (proxies w !! id) as [x|] eqn:Hx; simpl.
    + rewrite lookup_delete. repeat case_decide; try done; naive_solver.
    + case_decide as Hd; [|done]. by destruct Hd as [_ ->].
  - rewrite list_lookup_alter_ne by done. rewrite decide_False; [done|]. naive_solver.
Qed.

(** A writer whose context is cancelled refuses to write. *)
Definition cancelled (w : webSocketWriter) : Prop := w_CtxErr w <> None.

Lemma CloseWsWriter_cancelled w : cancelled (CloseWsWriter w).
Proof. unfold cancelled, CloseWsWriter. simpl. by destruct (w_CtxErr w). Qed.

Lemma trans_undo_keeps l s :
  clientQueueHub (trans_undo l s) = clientQueueHub s /\ clientLinkHub (trans_undo l s) = clientLinkHub s /\
  cl_trans (trans_undo l s) = cl_trans s.
Proof. induction l as [|[[i id] w] l IH]; [done|]. exact IH. Qed.

Lemma trans_undo_proxies l s k id :
  wsc_GetProxyById k id (trans_undo l s) =
    if decide ((k, id) ∈ map fst l) then None else wsc_GetProxyById k id s.
Proof.
  induction l as [|[[i id'] w] l IH]; simpl; [done|].
  rewrite RemoveProxy_get. unfold wsc_GetProxyById in IH |- *. simpl. rewrite IH.
  destruct (decide (k = i /\ id = id')) as [[-> ->]|Hne].
  - rewrite decide_True; [done|set_solver].
  - repeat case_decide; try done; set_solver.
Qed.

Lemma trans_undo_writers l s w x :
  cl_writers (trans_undo l s) !! w = Some x -> w ∈ map snd l -> cancelled x.
Proof.
  revert x. induction l as [|[[i id] w'] l IH]; intros x; simpl; [by intros _ ?%not_elem_of_nil|].
  destruct (decide (w' = w)) as [->|Hne].
  - rewrite list_lookup_alter_eq. destruct (cl_writers (trans_undo l s) !! w); simpl; [|done].
    intros [= <-] _. apply CloseWsWriter_cancelled.
  - rewrite list_lookup_alter_ne by done. intros Hx [->|Hin]%elem_of_cons; [done|]. eauto.
Qed.

(** When [transData] returns, by whatever path and whatever has happened to
    the client in the meantime, its queue and its links are removed and closed
    (or were taken out before, by the server's finish message), its proxies are
    removed from their websockets, no other proxy is, and its writers refuse to
    write from then on. *)
Theorem trans_return_releases t m l s tr :
  pm_wf (clientQueueHub s) -> pm_wf (clientLinkHub s) -> cl_trans s !! t = Some tr ->
  exists s', trans_return t m l s = Some s' /\
    tr_status <$> cl_trans s' !! t = Some "removed"%string /\
    (tr_status tr <> "removed"%string ->
       pm_removes (clientQueueHub s) [m] (clientQueueHub s') /\
       pm_removes (clientLinkHub s) (link_ids m (clientLinkHub s)) (clientLinkHub s')) /\
    (forall k id, wsc_GetProxyById k id s' =
       if decide ((k, id) ∈ map fst l) then None else wsc_GetProxyById k id s) /\
    (forall w x, w ∈ map snd l -> cl_writers s' !! w = Some x ->
       forall ws_err data, exists e, writer_Write x ws_err data = ([], (0%Z, Some e))).
Proof.
  intros Hq Hl Ht. destruct (remove_ok t m s tr Hq Hl Ht) as (s1 & E & Hwsc & Hw & Hst & Hsame & Hrel).
  unfold trans_return. rewrite E. simpl. exists (trans_undo l s1).
  destruct (trans_undo_keeps l s1) as (-> & -> & ->). split_and!; [done|done|done| |].
  - intros k id. rewrite trans_undo_proxies. unfold wsc_GetProxyById. by rewrite Hwsc.
  - intros w x Hin Hx ws_err data. pose proof (trans_undo_writers l s1 w x Hx Hin) as Hc.
    unfold cancelled, writer_Write in *. destruct (w_CtxErr x) as [e|]; [|done]. by exists e.
Qed.
End release.
