(* ===== verification/Finish.v ===== *)
(** Ending a proxied connection from one side (wss/wssocks_client.go,
    wss/proxy_server.go): the goroutine of [transData] that copies from the SOCKS
    connection tells the server when it fails, [establishProxy] tells the client
    at its end, and each side releases what it has for the connection when it
    reads the message. *)
From S2P Require Import Prelude GoChan Pipe RoundRobin PtrMap Queue QueueHub Link Base64 Json Messages Hub Server Client.

Section finish.
Context {K : Ksuid} `{!KsuidText K}.
Implicit Types (id : KSUID) (s : server) (c : client).

(** The end of the goroutine of [transData] that copies from the SOCKS
    connection to the queue: an error is told to the server on the first
    websocket. *)
Definition trans_copied {W} (masterID : KSUID) (r : copy_result W) : list (nat * json) :=
  match r with
  | CopyReturned _ _ (Some _) => map (pair 0) (fst (TellClose None masterID))
  | _ => []
  end.

Definition finish_json id : json := marshal_message (finish_message id).

Lemma dispatch_finish now we hp id s :
  dispatchMessage now we hp MessageText (Some (finish_json id)) s =
    match CloseProxyConn hp id s with Some s' => Finished (s', None) | None => Panicked end.
Proof.
  unfold dispatchMessage, dispatchDataMessage, finish_json. cbn [unmarshal_raw].
  rewrite unmarshal_finish_message. cbn [m_Id m_Type finish_message]. by rewrite ksuid_parse_string.
Qed.

Lemma income_finish we i id c :
  income we i (Some (finish_json id)) c =
    match wsc_GetProxyById i id c with
    | None => Finished c
    | Some proxy => match remove (p_trans proxy) id c with Some c' => Finished c' | None => Panicked end
    end.
Proof.
  unfold income, finish_json. cbn [unmarshal_raw]. rewrite unmarshal_finish_message.
  cbn [m_Id m_Type finish_message]. by rewrite ksuid_parse_string.
Qed.

(** C19: a finish message reaches the other side's hubs. On the server it closes
    the object that is registered for the connection on that websocket, which
    removes and closes its queue and its links (once), and does nothing if there is
    none, so also when it comes before [establish] has registered the object. On
    the client it removes and closes the queue and the links (once), and has no
    effect when it comes again. The links are the connection's own and every one
    of the order that its own link carries at that moment ([link_ids]; on the
    client that order is empty until [SetSort] has run); all other queues and
    links stay as they are. Both sides send it: the client when copying from its SOCKS
    connection fails, the server when [establish] is over. *)
Theorem finish_releases id :
  (forall W (w : W) n err, trans_copied id (CopyReturned w n (Some err)) = [(0, finish_json id)]) /\
  (forall p s s' out err e, sv_ests s !! p = Some e -> es_id e = id -> es_pc e = ETell err ->
     establish_step p EvStep s = Some (s', out) -> out = [finish_json id]) /\
  (forall now we hp s h, rtc sv_step server_init s -> sv_hubs s !! hp = Some h ->
     exists s', dispatchMessage now we hp MessageText (Some (finish_json id)) s = Finished (s', None) /\
       match connPool h !! id with
       | None => s' = s
       | Some proxy => exists e, sv_ests s !! ps_ProxyIns proxy = Some e /\
           (if decide (es_status e = "closed") then s' = s else released id s s')
       end) /\
  (forall we i c proxy tr, pm_wf (clientQueueHub c) -> pm_wf (clientLinkHub c) ->
     wsc_GetProxyById i id c = Some proxy -> cl_trans c !! p_trans proxy = Some tr ->
     exists c', income we i (Some (finish_json id)) c = Finished c' /\
       (if decide (tr_status tr = "removed"%string) then c' = c
        else pm_removes (clientQueueHub c) [id] (clientQueueHub c') /\
             pm_removes (clientLinkHub c) (link_ids id (clientLinkHub c)) (clientLinkHub c')) /\
       income we i (Some (finish_json id)) c' = Finished c').
Proof.
  split_and!.
  - done.
  - intros p s s' out err e He <- Hpc H. unfold establish_step in H. rewrite He in H. simpl in H.
    rewrite Hpc in H. by simplify_eq/=.
  - intros now we hp s h Hr%sv_reachable_inv Hh. rewrite dispatch_finish.
    unfold CloseProxyConn, GetProxyById. rewrite Hh. simpl. destruct (connPool h !! id) as [proxy|] eqn:Hp; [|by eexists].
    destruct (sw_pool _ (si_wf _ Hr) _ _ _ _ Hh Hp) as [_ (e & He & _)].
    destruct (est_Close_ok (ps_ProxyIns proxy) id s e (si_wf _ Hr) He) as (s' & E & _ & _ & _ & Hrel).
    rewrite E. exists s'. split; [done|]. exists e. split; [done|]. case_decide as Hst; [|by apply Hrel].
    unfold est_Close in E. rewrite He, decide_True in E by done. by simplify_eq.
  - intros we i c proxy tr Hq Hl Hp Ht. rewrite income_finish, Hp.
    destruct (remove_ok (p_trans proxy) id c tr Hq Hl Ht) as (c' & E & Hw & _ & Hst & Hsame & Hrel).
    rewrite E. exists c'. split; [done|]. split; [case_decide; auto|].
    rewrite income_finish. unfold wsc_GetProxyById in *. rewrite Hw, Hp. unfold remove.
    destruct (cl_trans c' !! p_trans proxy) as [tr'|]; [|done]. injection Hst as Hst. by rewrite decide_True.
Qed.
End finish.
