(* ===== verification/Wire.v ===== *)
(** The websockets between a client and a server, with the JSON messages on them.

    Striping.v knows a [Transport] only by what waits for each connection.  Here
    it is made of websockets that carry messages one after the other, those of
    all connections in one stream: what waits for a connection are the chunks
    that its websocket's messages for it decode to. *)
From S2P Require Import Prelude GoChan Pipe RoundRobin PtrMap Queue Link Striping Base64 Json Messages.

(** The websockets by their number, oldest message first. *)
Abbreviation wires := (gmap nat (list json)).

Section wire.
Context {K : Ksuid} `{!KsuidText K}.
Implicit Types (id : KSUID) (v : json) (b : buffer).

Definition wire (t : wires) (k : nat) : list json := default [] (t !! k).

(** The message of a chunk or of an end of file. *)
Definition chunk_json id b : json :=
  marshal_message (proxy_message id (if b_eof b then TagEOF else TagData) (b_data b)).

(** The chunk that a message brings to [id], if it does. *)
Definition chunk_of id v : option buffer :=
  m ← unmarshal_message v;
  id' ← ksuid_Parse (m_Id m);
  if decide (id' = id /\ m_Type m = WsTpData) then
    d ← unmarshal_raw unmarshal_data (m_Data m);
    data ← DecodeString (pd_DataBase64 d);
    Some (mkBuffer (pd_Tag d =? TagEOF)%Z data)
  else None.

Lemma chunk_of_json id b id' : chunk_of id' (chunk_json id b) = if decide (id = id') then Some b else None.
Proof.
  unfold chunk_of, chunk_json. rewrite unmarshal_proxy_message. cbn [mbind option_bind m_Id m_Type m_Data proxy_message].
  rewrite ksuid_parse_string. cbn [mbind option_bind]. case_decide as Hd.
  - destruct Hd as [-> _]. rewrite decide_True by done. cbn [unmarshal_raw].
    rewrite unmarshal_marshal_data by (by destruct (b_eof b)). cbn [mbind option_bind pd_DataBase64 pd_Tag].
    rewrite DecodeString_EncodeToString. cbn [mbind option_bind]. by destruct b as [[] data].
  - rewrite decide_False; [done|]. intros ->. by apply Hd.
Qed.

Lemma chunk_of_other id id' v b : chunk_of id v = Some b -> id' <> id -> chunk_of id' v = None.
Proof.
  unfold chunk_of. intros H Hne. destruct (unmarshal_message v) as [m|]; [|done]. cbn [mbind option_bind] in *.
  destruct (ksuid_Parse (m_Id m)) as [i|]; [|done]. cbn [mbind option_bind] in *.
  case_decide as Hd; [|done]. destruct Hd as [-> _]. rewrite decide_False; [done|]. by intros [-> _].
Qed.

(** Taking the first message for [id] out of a websocket. *)
Fixpoint take_chunk id (l : list json) : option (buffer * list json) :=
  match l with
  | [] => None
  | v :: l' =>
      match chunk_of id v with
      | Some b => Some (b, l')
      | None => '(b, r) ← take_chunk id l'; Some (b, v :: r)
      end
  end.

Lemma take_chunk_some id l b r :
  take_chunk id l = Some (b, r) ->
  omap (chunk_of id) l = b :: omap (chunk_of id) r /\
  forall id', id' <> id -> omap (chunk_of id') r = omap (chunk_of id') l.
Proof.
  revert b r. induction l as [|v l IH]; intros b r; [done|]. cbn [take_chunk].
  destruct (chunk_of id v) as [b'|] eqn:E.
  - intros [= -> ->]. rewrite omap_cons, E. split; [done|]. intros id' Hne.
    by rewrite omap_cons, (chunk_of_other id id' v b).
  - destruct (take_chunk id l) as [[b' r']|]; [|done]. cbn [mbind option_bind]. intros [= -> <-].
    destruct (IH _ _ eq_refl) as [E1 E2]. rewrite !omap_cons, E. split; [done|].
    intros id' Hne. by rewrite !omap_cons, E2.
Qed.

Lemma take_chunk_none id l : take_chunk id l = None -> omap (chunk_of id) l = [].
Proof.
  induction l as [|v l IH]; [done|]. cbn [take_chunk]. rewrite omap_cons. destruct (chunk_of id v); [done|].
  destruct (take_chunk id l) as [[]|]; [done|]. auto.
Qed.

Section transport.
Context (ws_of : KSUID -> nat).                   (* the websocket of a connection *)

Definition w_pending id (t : wires) : list buffer := omap (chunk_of id) (wire t (ws_of id)).

(** Giving messages to a websocket. *)
Definition put (k : nat) (out : list json) (t : wires) : wires :=
  match out with [] => t | _ => <[k := wire t k ++ out]> t end.

Definition w_send id b (t : wires) : wires := put (ws_of id) [chunk_json id b] t.

Definition w_recv id (t : wires) : option (buffer * wires) :=
  '(b, r) ← take_chunk id (wire t (ws_of id)); Some (b, <[ws_of id := r]> t).

Lemma wire_insert k l t k' : wire (<[k := l]> t) k' = if decide (k' = k) then l else wire t k'.
Proof. unfold wire. rewrite lookup_insert. repeat case_decide; by simplify_eq. Qed.

Lemma wire_put k out t k' : wire (put k out t) k' = if decide (k' = k) then wire t k' ++ out else wire t k'.
Proof.
  unfold put. destruct out as [|v out]; [rewrite app_nil_r; by case_decide|].
  rewrite wire_insert. case_decide; by subst.
Qed.

#[export, refine] Instance wire_transport : Transport wires :=
  {| t_pending := w_pending; t_send := w_send; t_recv := w_recv |}.
Proof using Type*.
  - intros id b t id'. unfold w_pending, w_send, put. rewrite wire_insert.
    destruct (decide (ws_of id' = ws_of id)) as [E|E].
    + rewrite omap_app, E. simpl. rewrite chunk_of_json. by case_decide.
    + rewrite (decide_False (P := id = id')) by (by intros ->). by rewrite app_nil_r.
  - intros id t b t'. unfold w_recv, w_pending.
    destruct (take_chunk id _) as [[b' r]|] eqn:E; [|done]. simpl. intros [= -> <-].
    apply take_chunk_some in E as [E1 E2]. rewrite wire_insert, decide_True by done. split; [done|].
    intros id' Hne. rewrite wire_insert. case_decide as Hk; [|done]. rewrite Hk. by apply E2.
  - intros id t. unfold w_recv, w_pending. destruct (take_chunk id _) as [[]|] eqn:E; [done|].
    intros _. by apply take_chunk_none.
Defined.

(** The dispatcher of a websocket takes its oldest message. *)
Lemma w_recv_head id t v rest b :
  wire t (ws_of id) = v :: rest -> chunk_of id v = Some b ->
  w_recv id t = Some (b, <[ws_of id := rest]> t).
Proof. intros Hw Hv. unfold w_recv. rewrite Hw. simpl. by rewrite Hv. Qed.
End transport.
End wire.
