(* ===== verification/Direction.v ===== *)
(** One direction of a proxied connection, between two processes.

    Striping.v is about a queue whose writers are IDs and about abstract
    websockets.  Here the queue is in the sender's hub and its writers are those
    of the program ([webSocketWriter], reached as the sender reaches them), the
    websockets carry JSON messages ([Wire]), and the dispatcher takes the oldest
    message of a websocket and delivers it to the receiver's hub ([delivers],
    which Client.v proves to be what the dispatchers of both sides do when the
    link takes the chunk at once, refuses it or is not there; Lossy.v has the
    dispatcher whose wait for room times out).  Each
    step of this system is a step of that of Striping.v, or none. *)
From S2P Require Import Prelude GoChan Pipe RoundRobin PtrMap Queue QueueHub Link Striping Base64 Json Messages.
From S2P Require Import Client Wire.

(** * Renaming the writers of a queue *)

Section rename.
Context {K : Ksuid} {W V : Type} (f : W -> V).
Implicit Types (q : queue W) (pc : Queue.send_pc W).

Definition map_queue q : queue V :=
  mkQueue (q_masterID q) (q_buffer q) (f <$> q_writers q) (q_sorted q) (q_status q) (q_done q) (q_ctime q).

Definition map_pc pc : Queue.send_pc V :=
  match pc with
  | Queue.PEnter => Queue.PEnter
  | Queue.PStart => Queue.PStart
  | Queue.PTop => Queue.PTop
  | Queue.PRange rest => Queue.PRange rest
  | Queue.PRead w rest => Queue.PRead (f <$> w) rest
  | Queue.PWrite w rest b => Queue.PWrite (f <$> w) rest b
  | Queue.PDefer r => Queue.PDefer r
  | Queue.PSignal r => Queue.PSignal r
  | Queue.PCloseDone r => Queue.PCloseDone r
  | Queue.PReturned r => Queue.PReturned r
  end.

(** [Send] does not look into its writers. *)
Lemma Send_step_renamed q pc ev :
  Queue.Send_step (map_queue q) (map_pc pc) ev =
  match Queue.Send_step q pc ev with
  | Some (q', pc', out) => Some (map_queue q', map_pc pc', prod_map f id <$> out)
  | None => None
  end.
Proof.
  unfold Queue.Send_step. destruct pc as [| | |[|id rest]|w rest|[w|] rest b|r|r|r|r], ev; simpl;
    try done; repeat case_match; simplify_eq/=; try done.
  by rewrite lookup_fmap.
Qed.

Lemma Send_step_named q pc ev q' pc' out :
  Queue.Send_step q pc ev = Some (q', pc', out) ->
  Queue.Send_step (map_queue q) (map_pc pc) ev = Some (map_queue q', map_pc pc', prod_map f id <$> out).
Proof. intros H. by rewrite Send_step_renamed, H. Qed.

Lemma close_named q q' : Queue.close q = Some q' -> Queue.close (map_queue q) = Some (map_queue q').
Proof. unfold Queue.close. simpl. repeat case_match; intros; by simplify_eq. Qed.

(** Where the writers of [Send] come from. *)
Definition pc_writer pc : option W :=
  match pc with Queue.PRead w _ | Queue.PWrite w _ _ => w | _ => None end.

Lemma Send_step_writer (P : W -> Prop) q pc ev q' pc' out :
  Queue.Send_step q pc ev = Some (q', pc', out) ->
  (forall id w, q_writers q !! id = Some w -> P w) -> (forall w, pc_writer pc = Some w -> P w) ->
  (forall w, pc_writer pc' = Some w -> P w) /\ (forall w b, out = Some (w, b) -> P w).
Proof.
  intros H Hq Hpc. unfold Queue.Send_step in H.
  destruct pc as [| | |[|id rest]|w rest|[w|] rest b|r|r|r|r], ev; simpl in *;
    try done; repeat case_match; simplify_eq/=; (split; [intros w'|intros w' b']); intros; simplify_eq; eauto.
Qed.

(** Everything in the queue has the form that the writers give it. *)
Lemma Send_step_written q pc ev q' pc' out :
  Queue.Send_step q pc ev = Some (q', pc', out) ->
  Forall written (q_held pc ++ chan_items (q_buffer q)) ->
  Forall written (q_held pc' ++ chan_items (q_buffer q')) /\ (forall w b, out = Some (w, b) -> written b).
Proof.
  intros H Hw. unfold Queue.Send_step, readWithTimeout in H.
  destruct pc as [| | |[|id rest]|w rest|[w|] rest b|r|r|r|r], ev; simpl in *;
    try done; repeat case_match; simplify_eq/=; try (by split);
    try (apply Forall_cons in Hw as [Hb Hw]; split; [done|]; intros; by simplify_eq).
  all: try match goal with E : chan_recv _ = RecvOk _ _ |- _ => apply chan_recv_ok_inv in E as (E & _) end.
  all: try match goal with E : chan_items _ = _ :: _, H : Forall _ _ |- _ => rewrite E in H end.
  all: split; try done; by constructor.
Qed.
End rename.

(** * The system *)

Section direction.
Context {K : Ksuid} `{!KsuidText K} {W : Type}.

(** The websocket of each connection, the connections in their order, the
    master's ID, the pointer of its queue, and the connection that each writer
    of the queue writes for. *)
Context (ws_of : KSUID -> nat) (order : list KSUID) (master : KSUID) (qq : nat) (name : W -> KSUID).

#[local] Hint Extern 0 (Transport wires) => exact (wire_transport ws_of) : typeclass_instances.

(** The sender's hub of queues, what its writers are now, and its [Send]; the
    websockets; the receiver's hub of links and its [Send]; the buffers that
    the queue has accepted. *)
Record dir := mkDir {
  d_queues : QueueHub W;
  d_writers : W -> option webSocketWriter;
  d_qpc : Queue.send_pc W;
  d_wires : wires;
  d_links : LinkHub;
  d_lpc : Link.send_pc;
  d_in : list buffer;
}.

(** A writer's [Write] or [WriteEOF], as [Send] calls them: the messages given to
    the websocket, and the error that [Send] sees. *)
Definition hand (x : webSocketWriter) (ws_err : option error) (b : buffer) : list json * option error :=
  if b_eof b then (writer_WriteEOF x ws_err, None)
  else let '(out, (_, e)) := writer_Write x ws_err (b_data b) in (out, e).

(** The sender's side. *)
Inductive dir_send : dir -> dir -> Prop :=
  (* CopyBuffer: a [queue.Write] or [queue.WriteEOF] completes *)
  | ds_write hq ws qpc t hl lpc inp q b c :
      pm_heap hq !! qq = Some q -> no_eof inp -> written b -> chan_send (q_buffer q) b = SendOk c ->
      dir_send (mkDir hq ws qpc t hl lpc inp)
               (mkDir (pm_update qq (fun _ => set_q_buffer c q) hq) ws qpc t hl lpc (inp ++ [b]))
  (* [queue.Send], with nothing to write *)
  | ds_send hq ws qpc t hl lpc inp q ev q' qpc' :
      pm_heap hq !! qq = Some q -> Queue.Send_step q qpc ev = Some (q', qpc', None) ->
      dir_send (mkDir hq ws qpc t hl lpc inp) (mkDir (pm_update qq (fun _ => q') hq) ws qpc' t hl lpc inp)
  (* [queue.Send] calls a writer; the websocket may lose the message and report it *)
  | ds_sent hq ws qpc t hl lpc inp q e q' qpc' w b x ws_err out (lost : bool) :
      pm_heap hq !! qq = Some q -> Queue.Send_step q qpc (Queue.EvWrote e) = Some (q', qpc', Some (w, b)) ->
      ws w = Some x -> hand x ws_err b = (out, e) -> (lost -> is_Some ws_err) ->
      dir_send (mkDir hq ws qpc t hl lpc inp)
               (mkDir (pm_update qq (fun _ => q') hq) ws qpc'
                  (if lost then t else put (w_WSC x) out t) hl lpc inp)
  (* the sender removes the connection from its hub *)
  | ds_remove_queue hq ws qpc t hl lpc inp hq' :
      QueueHub.Remove master hq = Some hq' ->
      dir_send (mkDir hq ws qpc t hl lpc inp) (mkDir hq' ws qpc t hl lpc inp).

(** The receiver's side; [me] is the pointer of the master link. *)
Inductive dir_recv (me : nat) : dir -> dir -> Prop :=
  (* the dispatcher of a websocket handles a chunk *)
  | ds_dispatch hq ws qpc t hl lpc inp id v rest b hl' :
      id ∈ order -> wire t (ws_of id) = v :: rest -> chunk_of id v = Some b -> delivers hl id b hl' ->
      dir_recv me (mkDir hq ws qpc t hl lpc inp) (mkDir hq ws qpc (<[ws_of id := rest]> t) hl' lpc inp)
  (* [link.Send]; the methods of net.TCPConn do not panic *)
  | ds_link hq ws qpc t hl lpc inp ev hl' lpc' :
      ev <> Link.EvConn ConnPanic -> Link.Send_step me hl lpc ev = Some (hl', lpc') ->
      dir_recv me (mkDir hq ws qpc t hl lpc inp) (mkDir hq ws qpc t hl' lpc' inp)
  (* the receiver removes the connection from its hub *)
  | ds_remove_links hq ws qpc t hl lpc inp hl' :
      Link.RemoveAll master hl = Some hl' ->
      dir_recv me (mkDir hq ws qpc t hl lpc inp) (mkDir hq ws qpc t hl' lpc inp).

(** What other connections do to the sender's hub leaves it as it is for this
    connection; the writers keep their connection and their websocket. *)
Definition queues_kept (hq : QueueHub W) (ws : W -> option webSocketWriter) (hq' : QueueHub W)
    (ws' : W -> option webSocketWriter) : Prop :=
  pm_heap hq' !! qq = pm_heap hq !! qq /\ pm_map hq' !! master = pm_map hq !! master /\
  (forall w x, ws w = Some x -> exists x', ws' w = Some x' /\ w_Id x' = w_Id x /\ w_WSC x' = w_WSC x).

(** A step of either side. No write of a dispatcher to a link times out (the
    runs in which one does are those of Lossy.v), and the queue has one [Send]
    that is past its test of the status. *)
Inductive dir_step (me : nat) : dir -> dir -> Prop :=
  | ds_sender d d' : dir_send d d' -> dir_step me d d'
  | ds_receiver d d' : dir_recv me d d' -> dir_step me d d'
  (* other connections; the contexts of writers may be cancelled *)
  | ds_other hq ws qpc t hl lpc inp hq' ws' t' hl' :
      queues_kept hq ws hq' ws' ->
      other_step order me (mkSys (NewQueue 0 master) Queue.PEnter t hl lpc inp)
                          (mkSys (NewQueue 0 master) Queue.PEnter t' hl' lpc inp) ->
      dir_step me (mkDir hq ws qpc t hl lpc inp) (mkDir hq' ws' qpc t' hl' lpc inp).

(** A writer of the queue writes for its connection, on that one's websocket. *)
Definition good_writer (d : dir) (w : W) : Prop :=
  exists x, d_writers d w = Some x /\ w_Id x = name w /\ w_WSC x = ws_of (name w).

(** What the state is in the system of Striping.v. *)
Record dir_sys (d : dir) (s : sys) (q : queue W) : Prop := {
  ds_queue : pm_heap (d_queues d) !! qq = Some q;
  ds_sys : s = mkSys (map_queue name q) (map_pc name (d_qpc d)) (d_wires d) (d_links d) (d_lpc d) (d_in d);
  ds_written : Forall written (q_held (d_qpc d) ++ chan_items (q_buffer q));
  ds_reg : forall id w, q_writers q !! id = Some w -> good_writer d w;
  ds_pc : forall w, pc_writer (d_qpc d) = Some w -> good_writer d w;
  ds_map : forall p, pm_map (d_queues d) !! master = Some p -> p = qq;
}.

(** A message that a writer gives to its websocket is that of the chunk. *)
Lemma hand_good x ws_err b out e :
  hand x ws_err b = (out, e) -> written b ->
  (out = [chunk_json (w_Id x) b] /\ (e = None -> ws_err = None \/ b_eof b = true)) \/
  (out = [] /\ (b_eof b = true \/ is_Some e)).
Proof.
  unfold hand, writer_WriteEOF, writer_Write, chunk_json. intros H Hw.
  destruct (b_eof b) eqn:Eb.
  - destruct (w_CtxErr x) as [c|]; simplify_eq; [right; split; [done|by left]|left].
    split; [|by right]. simpl. by rewrite (Hw Eb).
  - destruct (w_CtxErr x) as [c|]; simplify_eq; [right; split; [done|by right; eexists]|left].
    simpl in H. destruct ws_err; simplify_eq; (split; [done|]); intros; [done|by left].
Qed.

Lemma Send_step_eof (q : queue KSUID) pc e e' q' pc' w b :
  Queue.Send_step q pc (Queue.EvWrote e) = Some (q', pc', Some (w, b)) -> b_eof b = true ->
  Queue.Send_step q pc (Queue.EvWrote e') = Some (q', pc', Some (w, b)).
Proof.
  unfold Queue.Send_step. intros H Hb. destruct pc as [| | |[|id rest]|w' rest|[w'|] rest b'|r|r|r|r]; try done.
  destruct (b_eof b') eqn:E; [done|]. destruct e; simplify_eq; congruence.
Qed.

(** The sender's [Send] hands a buffer to a writer. *)
Lemma sent_sim qpc t hl lpc inp q e q' qpc' w b x ws_err out (lost : bool) :
  Queue.Send_step q qpc (Queue.EvWrote e) = Some (q', qpc', Some (w, b)) ->
  hand x ws_err b = (out, e) -> (lost -> is_Some ws_err) -> written b ->
  w_Id x = name w -> w_WSC x = ws_of (name w) ->
  sys_send (mkSys (map_queue name q) (map_pc name qpc) t hl lpc inp)
    (mkSys (map_queue name q') (map_pc name qpc') (if lost then t else put (w_WSC x) out t) hl lpc inp).
Proof.
  intros Hstep%(Send_step_named name) Hh Hl Hb Hid Hws. simpl in Hstep.
  assert (forall err : error, e = Some err \/ b_eof b = true ->
    sys_send (mkSys (map_queue name q) (map_pc name qpc) t hl lpc inp)
      (mkSys (map_queue name q') (map_pc name qpc') t hl lpc inp)) as Hlost.
  { intros err He. eapply (st_unsent _ _ _ _ _ _ err). destruct He as [-> |He]; [done|].
    by eapply Send_step_eof. }
  destruct (hand_good _ _ _ _ _ Hh Hb) as [[-> He]|[-> He]].
  - destruct lost.
    + destruct (Hl I) as [err Herr]. destruct e as [err'|]; [by apply (Hlost err'); left|].
      apply (Hlost err). destruct (He eq_refl) as [?|?]; [congruence|by right].
    + rewrite Hid, Hws. change (put (ws_of (name w)) [chunk_json (name w) b] t) with (t_send (name w) b t).
      by eapply st_sent.
  - simpl. replace (if lost then t else t) with t by (by destruct lost).
    destruct He as [He|[err He]]; [apply (Hlost EOF); by right|apply (Hlost err); by left].
Qed.

Lemma dispatch_sim me (q : queue KSUID) qpc (t : wires) hl lpc inp id v rest b hl' :
  id ∈ order -> wire t (ws_of id) = v :: rest -> chunk_of id v = Some b -> delivers hl id b hl' ->
  sys_step order master me (mkSys q qpc t hl lpc inp) (mkSys q qpc (<[ws_of id := rest]> t) hl' lpc inp).
Proof.
  intros Hid Hw Hv Hd. pose proof (w_recv_head ws_of id t v rest b Hw Hv) as Hr.
  destruct Hd as [p l c Hp Hl _ Hc|p l Hp Hl Hst|Hp].
  - by eapply st_deliver.
  - by eapply st_refuse.
  - by eapply st_nolink.
Qed.

(** A step of the sender's side is one of the sender's side of the system, or
    none. *)
Lemma dir_send_sim d d' s q :
  dir_send d d' -> dir_sys d s q -> exists s' q', rtc sys_send s s' /\ dir_sys d' s' q'.
Proof.
  intros Hstep [Hq -> Hwr Hreg Hpc Hmap].
  destruct Hstep as [hq ws qpc t hl lpc inp q0 b c Hq0 Hno Hb Hc|hq ws qpc t hl lpc inp q0 ev q' qpc' Hq0 H
    |hq ws qpc t hl lpc inp q0 e q' qpc' w b x ws_err out lost Hq0 H Hx Hh Hl|hq ws qpc t hl lpc inp hq' H];
    simpl in *; try (rewrite Hq in Hq0; injection Hq0 as <-).
  - (* write *)
    eexists _, (set_q_buffer c q). split; [apply rtc_once; by apply st_write|].
    apply chan_send_inv in Hc as (_ & _ & Hi & _).
    split; simpl; rewrite ?list_lookup_alter_eq, ?Hq; try done.
    rewrite Hi, app_assoc. apply Forall_app. split; [done|by repeat constructor].
  - (* send *)
    pose proof (Send_step_fields _ _ _ _ _ _ H) as (_ & Ew & _).
    destruct (Send_step_written _ _ _ _ _ _ H Hwr) as [Hwr' _].
    destruct (Send_step_writer _ _ _ _ _ _ _ H Hreg Hpc) as [Hpc' _].
    eexists _, q'. split; [apply rtc_once, (st_send _ _ _ _ _ _ ev), (Send_step_named name _ _ _ _ _ _ H)|].
    split; simpl; rewrite ?list_lookup_alter_eq, ?Hq, ?Ew; done.
  - (* sent *)
    pose proof (Send_step_fields _ _ _ _ _ _ H) as (_ & Ew & _).
    destruct (Send_step_written _ _ _ _ _ _ H Hwr) as [Hwr' Hwb].
    destruct (Send_step_writer _ _ _ _ _ _ _ H Hreg Hpc) as [Hpc' Hww].
    destruct (Hww w b eq_refl) as (x' & Hx' & Hid & Hws). simpl in Hx'. simplify_eq.
    eexists _, q'. split.
    { apply rtc_once. eapply sent_sim; [done..|by eapply Hwb|done|done]. }
    split; simpl; rewrite ?list_lookup_alter_eq, ?Hq, ?Ew; done.
  - (* the queue is removed *)
    unfold QueueHub.Remove, pm_close_delete in H. destruct (pm_map hq !! master) as [p|] eqn:Hp.
    2: { simplify_eq. eexists _, q. split; [done|]. by split; simpl; rewrite ?Hp. }
    rewrite (Hmap p eq_refl) in H. unfold pm_close in H. rewrite Hq in H. simpl in H.
    destruct (Queue.close q) as [q'|] eqn:Hcl; [|done]. simplify_eq.
    pose proof (Queue.close_inv _ _ Hcl) as (_ & Ew & _ & _ & _ & _ & Ei & _).
    eexists _, q'. split; [apply rtc_once, st_close, (close_named name _ _ Hcl)|].
    split; simpl; rewrite ?list_lookup_insert_eq, ?Ew, ?Ei by (by eapply lookup_lt_Some); try done.
    intros p'. by rewrite lookup_delete_eq.
Qed.

Lemma dir_sys_kept hq ws hq' ws' qpc t hl lpc inp t' hl' s q :
  queues_kept hq ws hq' ws' ->
  dir_sys (mkDir hq ws qpc t hl lpc inp) s q ->
  dir_sys (mkDir hq' ws' qpc t' hl' lpc inp)
    (mkSys (map_queue name q) (map_pc name qpc) t' hl' lpc inp) q.
Proof.
  intros (Hh & Hm & Hws) [Hq -> Hwr Hreg Hpc Hmap]. simpl in *.
  assert (forall w, good_writer (mkDir hq ws qpc t hl lpc inp) w -> good_writer (mkDir hq' ws' qpc t' hl' lpc inp) w) as Hg.
  { intros w (x & Hx & Hid & Hk). destruct (Hws w x Hx) as (x' & ? & ? & ?). exists x'. simpl.
    split_and!; congruence. }
  split; simpl; rewrite ?Hh, ?Hm; try done; eauto.
Qed.

(** A step of the receiver's side is one of the system, whatever its sender. *)
Lemma dir_recv_sim me d d' (q : queue KSUID) qpc :
  dir_recv me d d' ->
  sys_step order master me (mkSys q qpc (d_wires d) (d_links d) (d_lpc d) (d_in d))
    (mkSys q qpc (d_wires d') (d_links d') (d_lpc d') (d_in d')) /\
  d_queues d' = d_queues d /\ d_writers d' = d_writers d /\ d_qpc d' = d_qpc d.
Proof.
  destruct 1 as [hq ws qpc0 t hl lpc inp id v rest b hl' Hid Hw Hv Hdl|hq ws qpc0 t hl lpc inp ev hl' lpc' Hev H
    |hq ws qpc0 t hl lpc inp hl' H]; simpl; split; try done.
  - by eapply dispatch_sim.
  - by eapply st_link.
  - by apply st_remove.
Qed.

(** The step of a direction is a step of the system, or none. *)
Lemma dir_step_sim me d d' s q :
  dir_step me d d' -> dir_sys d s q ->
  exists s' q', rtc (sys_step order master me) s s' /\ dir_sys d' s' q'.
Proof.
  intros Hstep Hd. destruct Hstep as [d d' Hs|d d' Hs|hq ws qpc t hl lpc inp hq' ws' t' hl' Hk Ho].
  - destruct (dir_send_sim _ _ _ _ Hs Hd) as (s' & q' & Hr & Hd'). exists s', q'. split; [|done].
    eapply rtc_subrel; [|done]. intros; by apply st_sender.
  - destruct Hd as [Hq -> Hwr Hreg Hpc Hmap].
    destruct (dir_recv_sim me d d' (map_queue name q) (map_pc name (d_qpc d)) Hs) as (Hss & Eq & Ew & Ep).
    eexists _, q. split; [apply rtc_once, Hss|]. unfold good_writer in *.
    split; unfold good_writer; rewrite ?Eq, ?Ew, ?Ep; done.
  - pose proof Hd as [_ -> _ _ _ _]. simpl in *. eexists _, q.
    inversion Ho as [? ? ? ? ? ? ? ? Ht Hwf Hm' Hp']; simplify_eq.
    split; [apply rtc_once, st_other; by constructor|].
    by eapply (dir_sys_kept hq ws hq' ws' qpc t hl).
Qed.
End direction.
