(* ===== verification/DirectionRun.v ===== *)
(** Running a direction between two processes.

    [dir_exec] executes the steps of Direction.v, action by action, with
    websockets that do not fail; [dir_skip] is the dispatcher that handles a
    message of another connection. *)
From S2P Require Import Prelude GoChan Pipe RoundRobin PtrMap Queue QueueHub Link Striping StripingRun Base64 Json.
From S2P Require Import Messages Client Wire Direction.

Section exec.
Context {K : Ksuid} `{!KsuidText K} {W : Type}.
Context (ws_of : KSUID -> nat) (order : list KSUID) (master : KSUID) (qq me : nat).

(** Actions of the two sides; [AHand] is a write of [Send] to a websocket. *)
Inductive act :=
  | AWrite (b : buffer)
  | ASend (ev : Queue.send_ev)
  | AHand
  | AChunk (id : KSUID)
  | ALink (ev : Link.send_ev).

#[export] Instance no_eof_dec l : Decision (no_eof l).
Proof. unfold no_eof. apply _. Defined.

Definition written_b (b : buffer) : bool := negb (b_eof b) || Nat.eqb (length (b_data b)) 0.

Lemma written_b_ok b : written_b b = true -> written b.
Proof.
  unfold written_b, written. destruct b as [[] data]; simpl; [|done].
  intros Hl _. destruct data; [done|discriminate].
Qed.

Definition send_exec (a : act) (d : dir (W := W)) : option (dir (W := W)) :=
  let '(mkDir hq ws qpc t hl lpc inp) := d in
  q ← pm_heap hq !! qq;
  match a with
  | AWrite b =>
      if bool_decide (no_eof inp) && written_b b then
        match chan_send (q_buffer q) b with
        | SendOk c => Some (mkDir (pm_update qq (fun _ => set_q_buffer c q) hq) ws qpc t hl lpc (inp ++ [b]))
        | _ => None
        end
      else None
  | ASend ev =>
      match Queue.Send_step q qpc ev with
      | Some (q', qpc', None) => Some (mkDir (pm_update qq (fun _ => q') hq) ws qpc' t hl lpc inp)
      | _ => None
      end
  | AHand =>
      match Queue.Send_step q qpc (Queue.EvWrote None) with
      | Some (q', qpc', Some (w, b)) =>
          x ← ws w;
          match hand x None b with
          | (out, None) => Some (mkDir (pm_update qq (fun _ => q') hq) ws qpc' (put (w_WSC x) out t) hl lpc inp)
          | _ => None
          end
      | _ => None
      end
  | _ => None
  end.

Lemma send_exec_ok a d d' : send_exec a d = Some d' -> dir_send master qq d d'.
Proof.
  destruct d as [hq ws qpc t hl lpc inp]. simpl. destruct (pm_heap hq !! qq) as [q|] eqn:Hq; [|done]. simpl.
  destruct a as [b|ev| |id|ev]; try done.
  - destruct (bool_decide_reflect (no_eof inp)) as [Hno|]; [|done]. simpl.
    destruct (written_b b) eqn:Hb; [|done]. destruct (chan_send (q_buffer q) b) as [c| |] eqn:Hc; try done.
    intros [= <-]. apply ds_write; auto using written_b_ok.
  - destruct (Queue.Send_step q qpc ev) as [[[q' qpc'] [|]]|] eqn:Hs; try done. intros [= <-]. by eapply ds_send.
  - destruct (Queue.Send_step q qpc (Queue.EvWrote None)) as [[[q' qpc'] [[w b]|]]|] eqn:Hs; try done.
    destruct (ws w) as [x|] eqn:Hx; [|done]. simpl. destruct (hand x None b) as [out [|]] eqn:Hh; [done|].
    intros [= <-]. by apply (ds_sent master qq hq ws qpc t hl lpc inp q None q' qpc' w b x None out false).
Qed.

(** A dispatcher that need not wait. *)
Definition chunk_exec (id : KSUID) (t : wires) (hl : LinkHub) : option (wires * LinkHub) :=
  if bool_decide (id ∈ order) then
    match wire t (ws_of id) with
    | v :: rest =>
        b ← chunk_of id v;
        match Link.Get id hl with
        | Some p =>
            l ← pm_heap hl !! p;
            if decide (l_status l = StaDone) then Some (<[ws_of id := rest]> t, hl)
            else match chan_send (l_buffer l) b with
                 | SendOk c => Some (<[ws_of id := rest]> t, pm_update p (set_l_buffer c) hl)
                 | _ => None
                 end
        | None => Some (<[ws_of id := rest]> t, hl)
        end
    | [] => None
    end
  else None.

Lemma chunk_exec_ok id t hl t' hl' :
  chunk_exec id t hl = Some (t', hl') ->
  exists v rest b, id ∈ order /\ wire t (ws_of id) = v :: rest /\ chunk_of id v = Some b /\
    delivers hl id b hl' /\ t' = <[ws_of id := rest]> t.
Proof.
  unfold chunk_exec. destruct (bool_decide_reflect (id ∈ order)) as [Hid|]; [|done].
  destruct (wire t (ws_of id)) as [|v rest] eqn:Hw; [done|].
  destruct (chunk_of id v) as [b|] eqn:Hb; [|done]. simpl. intros H. exists v, rest, b.
  destruct (Link.Get id hl) as [p|] eqn:Hp; [|simplify_eq; split_and!; try done; by apply dl_no_link].
  destruct (pm_heap hl !! p) as [l|] eqn:Hl; [|done]. simpl in H. case_decide as Hst.
  { simplify_eq. split_and!; try done. by eapply dl_refused. }
  destruct (chan_send (l_buffer l) b) as [c| |] eqn:Hc; simplify_eq.
  split_and!; try done. by eapply dl_written.
Qed.

Definition recv_exec (a : act) (d : dir (W := W)) : option (dir (W := W)) :=
  let '(mkDir hq ws qpc t hl lpc inp) := d in
  match a with
  | AChunk id => '(t', hl') ← chunk_exec id t hl; Some (mkDir hq ws qpc t' hl' lpc inp)
  | ALink (Link.EvConn ConnPanic) => None
  | ALink ev => '(hl', lpc') ← Link.Send_step me hl lpc ev; Some (mkDir hq ws qpc t hl' lpc' inp)
  | _ => None
  end.

Lemma recv_exec_ok a d d' : recv_exec a d = Some d' -> dir_recv ws_of order master me d d'.
Proof.
  destruct d as [hq ws qpc t hl lpc inp]. destruct a as [b|ev| |id|ev]; simpl; try done.
  - destruct (chunk_exec id t hl) as [[t' hl']|] eqn:E; [|done]. intros [= <-].
    apply chunk_exec_ok in E as (v & rest & b & ? & ? & ? & ? & ->). by eapply ds_dispatch.
  - intros H. assert (ev <> Link.EvConn ConnPanic) as Hev by (by intros ->).
    assert (('(hl', lpc') ← Link.Send_step me hl lpc ev; Some (mkDir hq ws qpc t hl' lpc' inp)) = Some d') as H'.
    { by destruct ev as [| | |[]|]. }
    destruct (Link.Send_step me hl lpc ev) as [[hl' lpc']|] eqn:E; simpl in H'; simplify_eq. by eapply ds_link.
Qed.

Definition dir_exec (a : act) (d : dir (W := W)) : option (dir (W := W)) :=
  match send_exec a d with Some d' => Some d' | None => recv_exec a d end.

Fixpoint dir_run (l : list act) (d : dir (W := W)) : option (dir (W := W)) :=
  match l with
  | [] => Some d
  | a :: l' => d' ← dir_exec a d; dir_run l' d'
  end.
End exec.
Arguments act {K}.
