(* ===== verification/Arrival.v ===== *)
(** One direction between two processes: everything arrives.

    Delivery.v shows it for the system of Striping.v.  Here the same is shown for
    the hubs, writers and websockets of the program (Direction.v): while nothing
    fails, the two [Send]s and the dispatchers come to rest, and then everything
    accepted is out.  On a websocket a chunk may be behind messages of other
    connections; the dispatcher handles those first ([dir_skip]). *)
From S2P Require Import Prelude GoChan Pipe RoundRobin PtrMap Queue QueueHub Link Striping StripingRun Delivery.
From S2P Require Import Base64 Json Messages Client Wire Direction DirectionRun.

Section arrival.
Context {K : Ksuid} `{!KsuidText K} {W : Type}.
Context (ws_of : KSUID -> nat) (order : list KSUID) (master : KSUID) (qq me : nat) (name : W -> KSUID).

#[local] Hint Extern 0 (Transport wires) => exact (wire_transport ws_of) : typeclass_instances.

(** What the two processes do for this connection when nothing fails. *)
Definition act_goes (a : act) : bool :=
  match a with
  | AWrite _ => false
  | ASend ev => q_ev_ok ev
  | AHand | AChunk _ => true
  | ALink ev => l_ev_ok ev
  end.

(** CopyBuffer included. *)
Definition act_fine (a : act) : bool :=
  act_goes a || match a with AWrite _ => true | _ => false end.

(** Other connections, which do not cancel this one's writers. *)
Inductive dir_others : dir (W := W) -> dir (W := W) -> Prop :=
  | do_others hq ws qpc t hl lpc inp hq' ws' t' hl' :
      queues_kept master qq hq ws hq' ws' ->
      (forall w x x', ws w = Some x -> ws' w = Some x' -> w_CtxErr x = None -> w_CtxErr x' = None) ->
      other_step order me (mkSys (NewQueue 0 master) Queue.PEnter t hl lpc inp)
                          (mkSys (NewQueue 0 master) Queue.PEnter t' hl' lpc inp) ->
      dir_others (mkDir hq ws qpc t hl lpc inp) (mkDir hq' ws' qpc t' hl' lpc inp).

(** The dispatcher handles the oldest message of a websocket, which is not a chunk
    of this connection. *)
Inductive dir_skip : dir (W := W) -> dir (W := W) -> Prop :=
  | skip_other hq ws qpc t hl lpc inp id v rest d' :
      id ∈ order -> wire t (ws_of id) = v :: rest -> chunk_of id v = None ->
      dir_others (mkDir hq ws qpc (<[ws_of id := rest]> t) hl lpc inp) d' ->
      d_wires d' = <[ws_of id := rest]> t ->
      dir_skip (mkDir hq ws qpc t hl lpc inp) d'.

Definition dir_move (d d' : dir (W := W)) : Prop :=
  (exists a, act_goes a /\ dir_exec ws_of order qq me a d = Some d') \/ dir_skip d d'.

(** The same, and CopyBuffer writes, and other connections move. *)
Definition dir_ok (d d' : dir (W := W)) : Prop :=
  dir_move d d' \/ (exists b, send_exec qq (AWrite b) d = Some d') \/ dir_others d d'.

Lemma dir_run_fine l d d' :
  Forall act_fine l -> dir_run ws_of order qq me l d = Some d' -> rtc dir_ok d d'.
Proof.
  intros Hl. revert d. induction Hl as [|a l Ha _ IH]; intros d; simpl; [by intros [= ->]|].
  destruct (dir_exec ws_of order qq me a d) as [d1|] eqn:E; [|done]. intros H. eapply rtc_l; [|by apply IH].
  apply orb_prop_elim in Ha as [Ha|Ha]; [left; left; by exists a|].
  destruct a as [b|ev| |id|ev]; try done. right. left. exists b. unfold dir_exec in E.
  destruct (send_exec qq (AWrite b) d) as [d2|]; [done|]. by destruct d.
Qed.

(** Whether the two processes are at rest. *)
Definition dir_rest (d : dir (W := W)) : bool :=
  forallb (fun a => match dir_exec ws_of order qq me a d with None => true | Some _ => false end)
    ([ASend Queue.EvTau; ASend Queue.EvData; ASend (Queue.EvWrote None); ASend Queue.EvWaiter; AHand;
      ALink Link.EvTau; ALink Link.EvData; ALink (Link.EvConn ConnOk); ALink Link.EvWaiter] ++ map AChunk order) &&
  forallb (fun id => match wire (d_wires d) (ws_of id) with
                     | [] => true
                     | v :: _ => match chunk_of id v with Some _ => true | None => false end
                     end) order.

Lemma dir_rest_ok d d' : dir_rest d = true -> ~ dir_move d d'.
Proof.
  intros [Ha Hw]%andb_prop. rewrite forallb_forall in Ha. rewrite forallb_forall in Hw. intros [(a & Hgo & E)|Hs].
  - assert (a ∈ [ASend Queue.EvTau; ASend Queue.EvData; ASend (Queue.EvWrote None); ASend Queue.EvWaiter; AHand;
      ALink Link.EvTau; ALink Link.EvData; ALink (Link.EvConn ConnOk); ALink Link.EvWaiter] ++ map AChunk order) as Hin.
    { destruct a as [b|ev| |id|ev]; try done; [destruct ev as [| | |[e|]|]; try done; set_solver|set_solver| |
        destruct ev as [| | |[]|]; try done; set_solver].
      apply elem_of_app. right. apply list_elem_of_fmap_2.
      unfold dir_exec in E. destruct d as [hq ws qpc t hl lpc inp]. simpl in E.
      destruct (pm_heap hq !! qq); simpl in E; unfold chunk_exec in E;
        by destruct (bool_decide_reflect (id ∈ order)). }
    apply list_elem_of_In in Hin. specialize (Ha a Hin). by rewrite E in Ha.
  - destruct Hs as [hq ws qpc t hl lpc inp id v rest d1 Hid Hv Hc _ _]. apply list_elem_of_In in Hid.
    specialize (Hw id Hid). simpl in Hw. by rewrite Hv, Hc in Hw.
Qed.

(** The context of a writer is not cancelled. *)
Definition live_writer (d : dir (W := W)) (w : W) : Prop :=
  exists x, d_writers d w = Some x /\ w_CtxErr x = None.

Definition writers_live (d : dir (W := W)) (q : queue W) : Prop :=
  (forall id w, q_writers q !! id = Some w -> live_writer d w) /\
  (forall w, pc_writer (d_qpc d) = Some w -> live_writer d w).

Definition dir_works (out0 : bytes) (d : dir (W := W)) (n : nat) : Prop :=
  exists s q, dir_sys ws_of master qq name d s q /\ works order master me out0 s n /\ writers_live d q.

(** ** A step of the direction is one of the system *)

Definition act_sys (a : act) : sys_act :=
  match a with
  | AWrite b => ActWrite b
  | ASend ev => ActSend ev
  | AHand => ActSend (Queue.EvWrote None)
  | AChunk id => ActDeliver id
  | ALink ev => ActLink ev
  end.

Lemma hand_live x b :
  w_CtxErr x = None -> written b -> hand x None b = ([chunk_json (w_Id x) b], None).
Proof.
  unfold hand, writer_Write, writer_WriteEOF, chunk_json. intros -> Hb.
  destruct (b_eof b) eqn:E; [by rewrite (Hb E)|done].
Qed.

Lemma live_step d q q' ev qpc' out :
  Queue.Send_step q (d_qpc d) ev = Some (q', qpc', out) -> writers_live d q ->
  (forall id w, q_writers q' !! id = Some w -> live_writer d w) /\
  (forall w, pc_writer qpc' = Some w -> live_writer d w) /\ (forall w b, out = Some (w, b) -> live_writer d w).
Proof.
  intros H [Hq Hpc]. pose proof (Send_step_fields _ _ _ _ _ _ H) as (_ & Ew & _). rewrite Ew.
  split; [done|]. by eapply Send_step_writer.
Qed.

(** The sender's side. *)
Lemma send_exec_sys a d d' s q :
  dir_sys ws_of master qq name d s q -> writers_live d q -> send_exec qq a d = Some d' ->
  exists s' q', sys_exec order master me (act_sys a) s = Some s' /\ dir_sys ws_of master qq name d' s' q' /\
    writers_live d' q'.
Proof.
  intros Hd Hlive Hex. pose proof (send_exec_ok master _ _ _ _ Hex) as Hstep.
  destruct (dir_send_sim _ _ _ _ _ _ _ _ Hstep Hd) as (s1 & q1 & _ & Hd1).
  enough (exists q', pm_heap (d_queues d') !! qq = Some q' /\ writers_live d' q' /\
    sys_exec order master me (act_sys a) s =
      Some (mkSys (map_queue name q') (map_pc name (d_qpc d')) (d_wires d') (d_links d') (d_lpc d') (d_in d')))
    as (q' & Hq' & Hl' & Hs').
  { exists s1, q1. pose proof (ds_queue _ _ _ _ _ _ _ Hd1) as Eq. rewrite Eq in Hq'. injection Hq' as <-.
    split_and!; [|done..]. by rewrite Hs', (ds_sys _ _ _ _ _ _ _ Hd1). }
  destruct Hd as [Hq -> Hwr Hreg Hpc _]. destruct d as [hq ws qpc t hl lpc inp]. simpl in *.
  rewrite Hq in Hex. simpl in Hex. destruct a as [b|ev| |id|ev]; try done; simpl.
  - destruct (bool_decide_reflect (no_eof inp)) as [Hno|]; [|done]. simpl in Hex.
    destruct (written_b b) eqn:Hb; [|done]. apply written_b_ok in Hb.
    destruct (chan_send (q_buffer q) b) as [c| |] eqn:Hc; try done. injection Hex as <-. simpl.
    exists (set_q_buffer c q). rewrite list_lookup_alter_eq, Hq, decide_True by done. done.
  - destruct (Queue.Send_step q qpc ev) as [[[q' qpc'] [|]]|] eqn:Hs; try done. injection Hex as <-.
    exists q'. simpl. rewrite list_lookup_alter_eq, Hq, Send_step_renamed, Hs.
    destruct (live_step (mkDir hq ws qpc t hl lpc inp) _ _ _ _ _ Hs Hlive) as (H1 & H2 & _). done.
  - destruct (Queue.Send_step q qpc (Queue.EvWrote None)) as [[[q' qpc'] [[w b]|]]|] eqn:Hs; try done.
    destruct (live_step (mkDir hq ws qpc t hl lpc inp) _ _ _ _ _ Hs Hlive) as (H1 & H2 & H3).
    destruct (H3 w b eq_refl) as (x & Hx & Hctx). simpl in Hx. rewrite Hx in Hex. simpl in Hex.
    destruct (Send_step_written _ _ _ _ _ _ Hs Hwr) as [_ Hwb].
    destruct (Send_step_writer _ _ _ _ _ _ _ Hs Hreg Hpc) as [_ Hww].
    destruct (Hww w b eq_refl) as (x' & Hx' & Hid & Hws). simpl in Hx'. simplify_eq.
    rewrite hand_live in Hex by (done || by eapply Hwb). injection Hex as <-.
    exists q'. simpl. rewrite list_lookup_alter_eq, Hq, Send_step_renamed, Hs. simpl.
    split_and!; [done|done|]. by rewrite Hid, Hws.
Qed.

(** The receiver's side. *)
Lemma recv_exec_sys a (d d' : dir (W := W)) (q : queue KSUID) qpc :
  recv_exec ws_of order me a d = Some d' ->
  sys_exec order master me (act_sys a) (mkSys q qpc (d_wires d) (d_links d) (d_lpc d) (d_in d)) =
    Some (mkSys q qpc (d_wires d') (d_links d') (d_lpc d') (d_in d')).
Proof.
  destruct d as [hq ws qpc0 t hl lpc inp]. destruct a as [b|ev| |id|ev]; simpl; try done; intros H.
  - destruct (chunk_exec ws_of order id t hl) as [[t' hl']|] eqn:E; [|done]. injection H as <-. simpl.
    unfold chunk_exec in E. destruct (bool_decide_reflect (id ∈ order)) as [Hid|]; [|done].
    destruct (wire t (ws_of id)) as [|v rest] eqn:Hw; [done|].
    destruct (chunk_of id v) as [b|] eqn:Hb; [|done]. simpl in E.
    rewrite decide_True, (w_recv_head ws_of id t v rest b Hw Hb) by done. simpl.
    destruct (Link.Get id hl) as [p|]; [|by simplify_eq]. destruct (pm_heap hl !! p) as [l|]; [|done]. simpl in *.
    case_decide; [by simplify_eq|]. destruct (chan_send (l_buffer l) b); by simplify_eq.
  - destruct ev as [| | |[]|]; try done;
      (destruct (Link.Send_step me hl lpc _) as [[hl' lpc']|]; [|done]); by simplify_eq/=.
Qed.

Lemma dir_exec_sys a d d' s q :
  dir_sys ws_of master qq name d s q -> writers_live d q -> dir_exec ws_of order qq me a d = Some d' ->
  exists s' q', sys_exec order master me (act_sys a) s = Some s' /\ dir_sys ws_of master qq name d' s' q' /\
    writers_live d' q'.
Proof.
  intros Hd Hlive H. unfold dir_exec in H. destruct (send_exec qq a d) as [d1|] eqn:E; simplify_eq.
  { by eapply send_exec_sys. }
  pose proof (recv_exec_sys _ _ _ (map_queue name q) (map_pc name (d_qpc d)) H) as Hs.
  destruct (dir_recv_sim _ _ master _ _ _ (map_queue name q) (map_pc name (d_qpc d)) (recv_exec_ok _ _ master _ _ _ _ H))
    as (_ & Eq & Ew & Ep).
  destruct Hd as [Hq -> Hwr Hreg Hpc Hmap]. eexists _, q. split; [exact Hs|].
  unfold writers_live, live_writer, good_writer in *.
  split; [split; unfold good_writer|]; rewrite ?Eq, ?Ew, ?Ep; done.
Qed.

Lemma act_goes_moves a : act_goes a -> act_moves (act_sys a).
Proof. by destruct a. Qed.

(** ** Other connections *)

Lemma dir_others_sys d d' s q n out0 :
  dir_others d d' -> dir_sys ws_of master qq name d s q -> works order master me out0 s n -> writers_live d q ->
  NoDup order -> master ∈ order ->
  exists s', dir_sys ws_of master qq name d' s' q /\ works order master me out0 s' n /\ writers_live d' q.
Proof.
  intros [hq ws qpc t hl lpc inp hq' ws' t' hl' Hk Hctx Ho] Hd Hw [Hl1 Hl2] Hnd Hm.
  inversion Ho as [? ? ? ? ? ? ? ? Ht Hwf Hm' Hp']; simplify_eq.
  pose proof (ds_sys _ _ _ _ _ _ _ Hd) as ->. simpl in *.
  eexists. split_and!.
  - by eapply (dir_sys_kept _ _ _ _ hq ws hq' ws' qpc t hl).
  - eapply works_other; [done|done|done|by constructor].
  - assert (forall w, live_writer (mkDir hq ws qpc t hl lpc inp) w -> live_writer (mkDir hq' ws' qpc t' hl' lpc inp) w) as H.
    { intros w (x & Hx & Hc). destruct Hk as (_ & _ & Hk). destruct (Hk w x Hx) as (x' & Hx' & _).
      exists x'. split; [done|]. by eapply Hctx. }
    split; intros; apply H; eauto.
Qed.
(** ** Runs *)

Context (Hws : NoDup (ws_of <$> order)) (Hm : master ∈ order).

Lemma order_nodup : NoDup order.
Proof using Hws. by eapply NoDup_fmap_1. Qed.

Lemma ws_of_inj id id' : id ∈ order -> id' ∈ order -> ws_of id = ws_of id' -> id = id'.
Proof using Hws.
  intros [i Hi]%list_elem_of_lookup [j Hj]%list_elem_of_lookup E.
  assert (i = j) as ->; [|congruence].
  eapply (NoDup_lookup (ws_of <$> order)); [done|by rewrite list_lookup_fmap, Hi|].
  by rewrite list_lookup_fmap, Hj; simpl; rewrite E.
Qed.

(** A message that is skipped is none of this connection's. *)
Lemma skip_pending id v rest (t : wires) id' :
  id ∈ order -> wire t (ws_of id) = v :: rest -> chunk_of id v = None -> id' ∈ order ->
  t_pending id' (<[ws_of id := rest]> t : wires) = t_pending id' t.
Proof using Hws.
  intros Hid Hw Hv Hid'. change (w_pending ws_of id' (<[ws_of id := rest]> t) = w_pending ws_of id' t).
  unfold w_pending. rewrite wire_insert. case_decide as E; [|done].
  apply ws_of_inj in E as ->; [|done..]. by rewrite Hw, omap_cons, Hv.
Qed.

Lemma dir_skip_sys d d' s q n out0 :
  dir_skip d d' -> dir_sys ws_of master qq name d s q -> works order master me out0 s n -> writers_live d q ->
  exists s', dir_sys ws_of master qq name d' s' q /\ works order master me out0 s' n /\ writers_live d' q.
Proof using Hws Hm.
  intros [hq ws qpc t hl lpc inp id v rest d1 Hid Hw Hv Ho _] Hd Hwk Hl.
  pose proof (ds_sys _ _ _ _ _ _ _ Hd) as Es. simpl in Es. subst s.
  pose proof Hwk as (cn & Hinv & _). pose proof (iv_hub _ _ _ _ _ _ Hinv) as Hwf. simpl in Hwf.
  eapply (dir_others_sys (mkDir hq ws qpc (<[ws_of id := rest]> t) hl lpc inp)); [done| | | |exact order_nodup|done].
  - eapply (dir_sys_kept _ _ _ _ hq ws hq ws qpc t hl lpc inp); [|exact Hd]. split_and!; eauto.
  - eapply works_other; [exact order_nodup|done|exact Hwk|]. constructor; try done.
    intros id' Hid'. by eapply skip_pending.
  - exact Hl.
Qed.

(** The messages on this connection's websockets. *)
Definition load (t : wires) : nat := sum_list_with (fun k => length (wire t k)) (ws_of <$> order).

Lemma load_put k out t : length out <= 1 -> load (put k out t) <= S (load t).
Proof using Hws.
  intros Hout. apply (sum_list_with_one _ _ k); [done| |]; [|intros j Hj]; rewrite wire_put.
  - rewrite decide_True, length_app by done. lia.
  - by rewrite decide_False.
Qed.

Lemma load_read id v rest t : id ∈ order -> wire t (ws_of id) = v :: rest -> load (<[ws_of id := rest]> t) < load t.
Proof.
  intros Hid Hw. apply (sum_list_with_lt _ _ (ws_of id)); [by apply list_elem_of_fmap_2| |].
  - rewrite wire_insert, decide_True, Hw by done. simpl. lia.
  - intros k. rewrite wire_insert. case_decide as Hk; [|done]. rewrite Hk, Hw. simpl. lia.
Qed.

Lemma hand_short x e b out : hand x None b = (out, e) -> length out <= 1.
Proof.
  unfold hand, writer_Write, writer_WriteEOF. destruct (b_eof b), (w_CtxErr x); simpl; intros; simplify_eq/=; lia.
Qed.

Lemma dir_exec_load a (d d' : dir (W := W)) :
  dir_exec ws_of order qq me a d = Some d' -> load (d_wires d') <= S (load (d_wires d)).
Proof using Hws master.
  unfold dir_exec. destruct d as [hq ws qpc t hl lpc inp].
  destruct (send_exec qq a _) as [d1|] eqn:E; intros H; simplify_eq.
  - unfold send_exec in E. destruct (pm_heap hq !! qq) as [q|]; [|done]. simpl in E.
    destruct a as [b|ev| |id|ev]; try done; repeat case_match; simplify_eq/=; try lia.
    destruct (ws w) as [x|]; [|done]. simpl in E. destruct (hand x None b) as [out [|]] eqn:Hh; simplify_eq/=.
    apply load_put. by eapply hand_short.
  - apply (recv_exec_ok _ _ master) in H.
    destruct H as [hq' ws' qpc' t' hl' lpc' inp' id v rest b hl1 Hid Hw _ _| |]; simpl; try lia.
    pose proof (load_read id v rest t' Hid Hw). lia.
Qed.

Lemma dir_works_move out0 d n d' :
  dir_works out0 d n -> dir_move d d' ->
  exists n', dir_works out0 d' n' /\ 2 * n' + load (d_wires d') < 2 * n + load (d_wires d).
Proof using Hws Hm.
  intros (s & q & Hd & Hw & Hl) [(a & Ha & H)|H].
  - destruct (dir_exec_sys _ _ _ _ _ Hd Hl H) as (s' & q' & Hs & Hd' & Hl').
    destruct (works_move _ _ _ order_nodup Hm _ _ _ s' Hw) as (n' & Hw' & Hn).
    { exists (act_sys a). split; [by apply act_goes_moves|done]. }
    exists n'. split; [by exists s', q'|]. apply dir_exec_load in H. lia.
  - destruct (dir_skip_sys _ _ _ _ _ _ H Hd Hw Hl) as (s' & Hd' & Hw' & Hl').
    exists n. split; [by exists s', q|]. destruct H as [hq ws qpc t hl lpc inp id v rest d1 Hid Hwi _ _ ->].
    simpl. pose proof (load_read id v rest t Hid Hwi). lia.
Qed.

Lemma dir_works_ok out0 d n d' : dir_works out0 d n -> dir_ok d d' -> exists n', dir_works out0 d' n'.
Proof using Hws Hm.
  intros Hwk [H|[[b H]|H]].
  - destruct (dir_works_move _ _ _ _ Hwk H) as (n' & ? & _). by exists n'.
  - destruct Hwk as (s & q & Hd & Hw & Hl). destruct (send_exec_sys _ _ _ _ _ Hd Hl H) as (s' & q' & Hs & Hd' & Hl').
    destruct (works_ok _ _ _ order_nodup Hm _ _ _ s' Hw) as (n' & Hw'); [left; by exists (ActWrite b)|].
    exists n'. by exists s', q'.
  - destruct Hwk as (s & q & Hd & Hw & Hl).
    destruct (dir_others_sys _ _ _ _ _ _ H Hd Hw Hl order_nodup Hm) as (s' & Hd' & Hw' & Hl').
    exists n. by exists s', q.
Qed.

Lemma dir_works_run out0 d d' :
  (exists n, dir_works out0 d n) -> rtc dir_ok d d' -> exists n, dir_works out0 d' n.
Proof using Hws Hm.
  intros Hw Hr. induction Hr as [d|d d1 d' Hs _ IH]; [done|]. destruct Hw as [n Hw].
  apply IH. by eapply dir_works_ok.
Qed.

Lemma dir_works_bound out0 d n d' k :
  dir_works out0 d n -> nsteps dir_move k d d' -> k <= 2 * n + load (d_wires d).
Proof using Hws Hm.
  intros Hw Hr. revert n Hw. induction Hr as [d|k d d1 d' Hs _ IH]; intros n Hw; [lia|].
  destruct (dir_works_move _ _ _ _ Hw Hs) as (n' & Hw' & Hn). specialize (IH _ Hw'). lia.
Qed.

(** ** At rest *)

(** Where the system can move, so can the direction. *)
Lemma sys_move_dir d s q n out0 s' :
  dir_sys ws_of master qq name d s q -> works order master me out0 s n -> writers_live d q ->
  move_step order master me s s' -> exists d', dir_move d d'.
Proof using Hws.
  intros Hd Hwk Hl (a & Ha & E).
  pose proof Hwk as (cn & Hinv & _). pose proof (iv_hub _ _ _ _ _ _ Hinv) as Hwf.
  destruct d as [hq ws qpc t hl lpc inp]. pose proof Hd as [Hq -> Hwr _ _ _]. simpl in *.
  destruct a as [b|ev|id|ev| |]; simpl in Ha; try done.
  - simpl in E. rewrite Send_step_renamed in E.
    destruct (Queue.Send_step q qpc ev) as [[[q' qpc'] [[w b]|]]|] eqn:Hs; [| |done].
    + destruct ev as [| | |[e|]|]; try done.
      destruct (live_step (mkDir hq ws qpc t hl lpc inp) _ _ _ _ _ Hs Hl) as (_ & _ & H3).
      destruct (H3 w b eq_refl) as (x & Hx & Hctx). simpl in Hx.
      destruct (Send_step_written _ _ _ _ _ _ Hs Hwr) as [_ Hwb].
      eexists. left. exists AHand. split; [done|]. unfold dir_exec. simpl. rewrite Hq. simpl. rewrite Hs, Hx. simpl.
      by rewrite hand_live by (done || by eapply Hwb).
    + eexists. left. exists (ASend ev). split; [done|]. unfold dir_exec. simpl. rewrite Hq. simpl. by rewrite Hs.
  - simpl in E. destruct (decide (id ∈ order)) as [Hid|]; [|done].
    destruct (wire t (ws_of id)) as [|v rest] eqn:Hw.
    { exfalso. unfold t_recv in E. simpl in E. unfold w_recv in E. by rewrite Hw in E. }
    destruct (chunk_of id v) as [b|] eqn:Hv.
    + rewrite (w_recv_head ws_of id t v rest b Hw Hv) in E. simpl in E.
      assert (is_Some (chunk_exec ws_of order id t hl)) as [[t' hl'] Hc].
      { unfold chunk_exec. rewrite bool_decide_eq_true_2, Hw, Hv by done. simpl.
        destruct (Link.Get id hl) as [p|]; [|by eexists]. destruct (pm_heap hl !! p) as [l|]; [|done]. simpl in *.
        case_decide; [by eexists|]. by destruct (chan_send (l_buffer l) b). }
      eexists. left. exists (AChunk id). split; [done|]. unfold dir_exec. simpl. rewrite Hq. simpl. by rewrite Hc.
    + exists (mkDir hq ws qpc (<[ws_of id := rest]> t) hl lpc inp). right.
      apply (skip_other hq ws qpc t hl lpc inp id v rest); [done..| |done].
      constructor; [split_and!; eauto|intros; congruence|by constructor].
  - simpl in E. assert (is_Some (recv_exec ws_of order me (ALink ev) (mkDir hq ws qpc t hl lpc inp))) as [d' Hd'].
    { simpl. destruct ev as [| | |[]|]; try done; destruct (Link.Send_step me hl lpc _) as [[]|]; try done; by eexists. }
    exists d'. left. exists (ALink ev). split; [done|]. unfold dir_exec. simpl. rewrite Hq. simpl. exact Hd'.
Qed.

(** What it means that everything has arrived. *)
Definition all_out (out0 : bytes) (d : dir (W := W)) : Prop :=
  exists cn, conn_at (d_links d) me = Some (Some cn) /\ tc_sent cn = out0 ++ data_of (d_in d) /\
    (~ no_eof (d_in d) -> tc_eof cn = true).

Lemma dir_works_rest out0 d n : dir_works out0 d n -> (forall d', ~ dir_move d d') -> all_out out0 d.
Proof using Hws Hm.
  intros (s & q & Hd & Hw & Hl) Hrest. destruct (works_rest _ _ _ _ _ _ Hw) as [[s' Hs']|Ha].
  - destruct (sys_move_dir _ _ _ _ _ _ Hd Hw Hl Hs') as [d' Hd']. by destruct (Hrest d').
  - unfold arrived in Ha. by rewrite (ds_sys _ _ _ _ _ _ _ Hd) in Ha.
Qed.

(** While [Send] runs, or is over, another [Send] of the same queue returns at
    once. *)
Lemma dir_works_second out0 d n q :
  dir_works out0 d n -> pm_heap (d_queues d) !! qq = Some q -> d_qpc d <> Queue.PEnter -> d_qpc d <> Queue.PStart ->
  Queue.Send_step q Queue.PEnter Queue.EvTau = Some (q, Queue.PReturned (Queue.SRet None), None).
Proof.
  intros (s & q0 & Hd & (cn & _ & Hg) & _) Hq Hp1 Hp2.
  pose proof (ds_queue _ _ _ _ _ _ _ Hd) as Hq0. rewrite Hq in Hq0. injection Hq0 as <-.
  assert (q_ok (s_q s) (s_qpc s)) as [_ Hst] by (by destruct Hg as [? ? ? []|[]]).
  rewrite (ds_sys _ _ _ _ _ _ _ Hd) in Hst. simpl in Hst. simpl. rewrite decide_True; [done|].
  destruct (d_qpc d); simpl in Hst; try done; auto.
Qed.
End arrival.
