(* ===== verification/Session.v ===== *)
(** What a call of [transData] starts from, on both sides.

    Upstream.v and Downstream.v follow a proxied connection from the messages
    with which the client opens it.  This file has what they share: those
    messages on the websockets, the state in which [transData] leaves the
    client, and what the steps of the handshake leave alone in a hub of links. *)
From S2P Require Import Prelude GoChan Pipe RoundRobin PtrMap Queue QueueHub Link Starts Striping Base64 Json.
From S2P Require Import Messages Hub Server Handshake Client Wire Direction.

(** * The websocket of a connection *)

Section index.
Context {K : Ksuid}.

(** The place of [id] among the connections of a call. *)
Definition ws_index (ids : list KSUID) (id : KSUID) : nat :=
  default (length ids) (fst <$> list_find (eq id) ids).

Lemma ws_index_lookup ids k id : NoDup ids -> ids !! k = Some id -> ws_index ids id = k.
Proof.
  intros Hnd Hk. unfold ws_index. destruct (list_find (eq id) ids) as [[j id']|] eqn:E; simpl.
  - apply list_find_Some in E as (Hj & <- & _). by eapply NoDup_lookup.
  - apply list_find_None in E. rewrite Forall_forall in E. exfalso. eapply (E id); [|done].
    by eapply list_elem_of_lookup_2.
Qed.

Lemma elem_of_numbered_iff k id ids : (k, id) ∈ numbered 0 ids <-> ids !! k = Some id.
Proof.
  split; [apply elem_of_numbered|]. intros Hk.
  eapply list_elem_of_lookup_2, (numbered_lookup 0 ids k id), Hk.
Qed.
End index.

(** * The messages of a connection *)

Section items.
Context {K : Ksuid} `{!KsuidText K}.
Implicit Types (id m : KSUID) (v : json) (t : wires).

(** The messages of the handshake. *)
Definition hello_json m id : json := marshal_message (hi_message id m).
Definition est_json (ids : list KSUID) m (addr : string) : json :=
  marshal_message (est_message m None addr (Some ids)).

(** What a message is for the connection [id]. *)
Inductive item := Hello (v : json) | Est (v : json) | Chunk (b : buffer).

Definition is_type (ty : string) id v : bool :=
  match unmarshal_message v with
  | Some msg => bool_decide (ksuid_Parse (m_Id msg) = Some id /\ m_Type msg = ty)
  | None => false
  end.

Definition item_of id v : option item :=
  match chunk_of id v with
  | Some b => Some (Chunk b)
  | None => if is_type WsTpHi id v then Some (Hello v) else if is_type WsTpEst id v then Some (Est v) else None
  end.

Definition item_chunk (i : item) : option buffer :=
  match i with Chunk b => Some b | _ => None end.

Lemma chunks_of_items id (l : list json) : omap (chunk_of id) l = omap item_chunk (omap (item_of id) l).
Proof.
  induction l as [|v l IH]; [done|]. rewrite !omap_cons. unfold item_of at 1.
  destruct (chunk_of id v) as [b|]; [by rewrite omap_cons, <- IH|].
  destruct (is_type WsTpHi id v); [by rewrite omap_cons|]. destruct (is_type WsTpEst id v); [by rewrite omap_cons|done].
Qed.

Lemma omap_item_chunks (l : list buffer) : omap item_chunk (map Chunk l) = l.
Proof. induction l as [|b l IH]; [done|]. cbn [map]. rewrite omap_cons. cbn [item_chunk]. by rewrite IH. Qed.

Lemma chunk_of_not_data id v msg :
  unmarshal_message v = Some msg -> m_Type msg <> WsTpData -> chunk_of id v = None.
Proof.
  intros Hv Ht. unfold chunk_of. rewrite Hv. cbn [mbind option_bind].
  destruct (ksuid_Parse (m_Id msg)); [|done]. cbn [mbind option_bind].
  rewrite decide_False; [done|]. by intros [_ ?].
Qed.

Lemma is_type_msg ty id v msg id' :
  unmarshal_message v = Some msg -> m_Id msg = ksuid_String id' ->
  is_type ty id v = bool_decide (id' = id /\ m_Type msg = ty).
Proof.
  intros Hv Hid. unfold is_type. rewrite Hv, Hid, ksuid_parse_string.
  apply bool_decide_ext. split; [intros [[= ->] ->]|intros [-> ->]]; done.
Qed.

Lemma item_of_chunk id b id' :
  item_of id' (chunk_json id b) = if decide (id = id') then Some (Chunk b) else None.
Proof.
  unfold item_of. rewrite chunk_of_json. case_decide; [done|]. unfold chunk_json.
  rewrite (is_type_msg WsTpHi _ _ _ id (unmarshal_proxy_message _ _ _)) by done.
  rewrite (is_type_msg WsTpEst _ _ _ id (unmarshal_proxy_message _ _ _)) by done.
  by rewrite !bool_decide_eq_false_2 by (by intros [_ ?]).
Qed.

Lemma item_of_hello id m id' :
  item_of id' (hello_json m id) = if decide (id = id') then Some (Hello (hello_json m id)) else None.
Proof.
  unfold item_of. erewrite chunk_of_not_data by (unfold hello_json; by rewrite ?unmarshal_hi_message).
  rewrite (is_type_msg WsTpHi _ (hello_json m id) _ id (unmarshal_hi_message _ _)) by done.
  rewrite (is_type_msg WsTpEst _ (hello_json m id) _ id (unmarshal_hi_message _ _)) by done.
  rewrite (bool_decide_eq_false_2 (id = id' /\ _ = WsTpEst)) by (by intros [_ ?]).
  case_decide; [rewrite bool_decide_eq_true_2 by done|rewrite bool_decide_eq_false_2 by tauto]; done.
Qed.

Lemma item_of_est ids m addr id' :
  item_of id' (est_json ids m addr) = if decide (m = id') then Some (Est (est_json ids m addr)) else None.
Proof.
  unfold item_of. erewrite chunk_of_not_data by (unfold est_json; by rewrite ?unmarshal_est_message).
  rewrite (is_type_msg WsTpHi _ (est_json ids m addr) _ m (unmarshal_est_message _ _ _ _)) by done.
  rewrite (is_type_msg WsTpEst _ (est_json ids m addr) _ m (unmarshal_est_message _ _ _ _)) by done.
  rewrite (bool_decide_eq_false_2 (m = id' /\ _ = WsTpHi)) by (by intros [_ ?]).
  case_decide; [rewrite bool_decide_eq_true_2 by done|rewrite bool_decide_eq_false_2 by tauto]; done.
Qed.

(** Messages given to the websockets one after the other. *)
Definition give (out : list (nat * json)) t : wires := foldl (fun t '(k, v) => put k [v] t) t out.

Lemma give_items id k out t :
  omap (item_of id) (wire (give out t) k) =
    omap (item_of id) (wire t k) ++ omap (fun '(k', v) => if decide (k' = k) then item_of id v else None) out.
Proof.
  revert t. induction out as [|[k' v] out IH]; intros t; [simpl; by rewrite app_nil_r|].
  unfold give in *. cbn [foldl]. rewrite IH, wire_put, omap_cons. repeat case_decide; simplify_eq; try done.
  rewrite omap_app. simpl. destruct (item_of id v); simpl; by rewrite <- app_assoc.
Qed.

Lemma hello_items_none id k i m ids :
  id ∉ ids ->
  omap (fun '(k', v) => if decide (k' = k) then item_of id v else None) (hello_messages i m ids) = [].
Proof.
  unfold hello_messages. revert i. induction ids as [|id' ids IH]; intros i Hid; [done|].
  unfold numbered in *. cbn [length seq zip zip_with map]. rewrite omap_cons, IH by set_solver.
  case_decide; [|done]. fold (hello_json m id'). rewrite item_of_hello, decide_False by set_solver. done.
Qed.

Lemma hello_items_own id i k m ids :
  NoDup ids -> (k, id) ∈ numbered i ids ->
  omap (fun '(k', v) => if decide (k' = k) then item_of id v else None) (hello_messages i m ids) =
    [Hello (hello_json m id)].
Proof.
  intros Hnd Hk. revert i Hk. induction Hnd as [|id' ids Hid' Hnd IH]; intros i Hk; [by apply not_elem_of_nil in Hk|].
  unfold hello_messages, numbered in *. cbn [length seq zip zip_with map] in *. rewrite omap_cons.
  fold (hello_json m id'). apply elem_of_cons in Hk as [Hk|Hk].
  - simplify_eq. rewrite decide_True, item_of_hello, decide_True by done.
    f_equal. by apply hello_items_none.
  - assert (id ∈ ids) as Hin by (by apply elem_of_zip_r in Hk).
    rewrite IH by done. case_decide; [|done]. rewrite item_of_hello, decide_False; [done|]. by intros ->.
Qed.

(** What [transData]'s messages are for a connection on its websocket. *)
Lemma hello_items id k m addr ids :
  NoDup ids -> ids !! k = Some id -> head ids = Some m ->
  omap (fun '(k', v) => if decide (k' = k) then item_of id v else None)
    (hello_messages 0 m ids ++ [(0, marshal_message (est_message m None addr (Some ids)))]) =
  Hello (hello_json m id) :: if decide (id = m) then [Est (est_json ids m addr)] else [].
Proof.
  intros Hnd Hk Hm. rewrite omap_app, (hello_items_own id 0) by (done || by apply elem_of_numbered_iff).
  cbn [app]. f_equal. cbn [omap list_omap]. fold (est_json ids m addr). rewrite item_of_est.
  assert (ids !! 0 = Some m) as H0 by (by destruct ids).
  destruct (decide (id = m)) as [->|Hne].
  - by rewrite (decide_True (P := 0 = k)), decide_True by (done || by eapply NoDup_lookup).
  - case_decide; [|done]. by rewrite decide_False.
Qed.
End items.

(** * What the handshake leaves alone in a hub of links *)

Section link_same.
Context {K : Ksuid}.
Implicit Types (h : LinkHub) (id m : KSUID).

(** The link of [id] has not been started or closed, and it can hold chunks. *)
Definition waiting h id : Prop :=
  forall p l, pm_map h !! id = Some p -> pm_heap h !! p = Some l ->
    l_status l = StaWait /\ 0 < chan_cap (l_buffer l).

(** What the links hold, and their status. *)
Definition link_same h h' : Prop :=
  forall id, lane_items h' id = lane_items h id /\ (waiting h id -> waiting h' id).

Lemma link_same_refl h : link_same h h.
Proof. done. Qed.

Lemma link_same_trans h h1 h2 : link_same h h1 -> link_same h1 h2 -> link_same h h2.
Proof. intros H1 H2 id. destruct (H1 id) as [E1 F1], (H2 id) as [E2 F2]. split; [congruence|auto]. Qed.

Lemma link_same_new now id m h : pm_wf h -> pm_map h !! id = None -> link_same h (pm_new id (NewLink now m) h).
Proof.
  intros [Hwf _] Hno i. unfold lane_items, waiting, buf_at. simpl. rewrite lookup_insert.
  destruct (decide (id = i)) as [<-|Hne].
  - rewrite Hno, list_lookup_middle by done. split; [done|]. intros _ p l [= <-].
    rewrite list_lookup_middle by done. intros [= <-]. split; [done|simpl; lia].
  - destruct (pm_map h !! i) as [p|] eqn:Hp; [|done]. destruct (Hwf _ _ Hp) as (l & Hl & _).
    rewrite (lookup_app_l_Some _ _ _ _ Hl), Hl. split; [done|]. intros Hw p' l' [= <-].
    rewrite (lookup_app_l_Some _ _ _ _ Hl). intros [= <-]. by eapply Hw.
Qed.

Lemma link_same_update p f h :
  (forall l, l_buffer (f l) = l_buffer l /\ l_status (f l) = l_status l) -> link_same h (pm_update p f h).
Proof.
  intros Hf id. unfold lane_items, waiting, buf_at. simpl. split.
  - destruct (pm_map h !! id) as [p'|]; [|done]. destruct (decide (p = p')) as [->|Hne].
    + rewrite list_lookup_alter_eq. destruct (pm_heap h !! p') as [l|]; [|done]. simpl. by destruct (Hf l) as [-> _].
    + by rewrite list_lookup_alter_ne.
  - intros Hw p' l Hp'. destruct (decide (p = p')) as [->|Hne].
    + rewrite list_lookup_alter_eq. destruct (pm_heap h !! p') as [l'|] eqn:Hl'; [|done]. simpl.
      intros [= <-]. destruct (Hf l') as [-> ->]. by eapply Hw.
    + rewrite list_lookup_alter_ne by done. by apply Hw.
Qed.

Lemma link_same_ensure now id m h : pm_wf h -> link_same h (Link.ensure now id m h).
Proof. intros Hwf. unfold Link.ensure. destruct (pm_map h !! id) eqn:E; [done|by apply link_same_new]. Qed.

Lemma link_same_trySend m conn h : link_same h (fst (Link.trySend m conn h)).
Proof.
  unfold Link.trySend. destruct (pm_map h !! m) as [p|]; [|done].
  assert (link_same h (match conn with Some c => pm_update p (SetConn c) h | None => h end)) as H1.
  { destruct conn; [by apply link_same_update|done]. }
  destruct (pm_heap _ !! p); [|done]. by destruct (bool_decide _ && _).
Qed.

Lemma hs_step_same now m sort h op : pm_wf h -> link_same h (Link.hs_step now m sort h op).
Proof.
  intros Hwf. destruct op as [id| |c]; simpl; [| |apply link_same_trySend].
  - unfold Link.Add. pose proof (link_same_ensure now m m h Hwf) as H1.
    pose proof (lh_wf_ensure now m m h Hwf) as Hwf1. case_match; [|done].
    eapply link_same_trans; [exact H1|]. eapply link_same_trans; [by apply link_same_ensure|].
    eapply link_same_trans; [|apply link_same_trySend]. by apply link_same_update.
  - unfold Link.hub_SetSort. destruct (pm_map h !! m) eqn:E; [by apply link_same_update|].
    pose proof (link_same_new now m m h Hwf E) as H1. case_match; [|done].
    eapply link_same_trans; [exact H1|]. by apply link_same_update.
Qed.
End link_same.

(** * The client when [transData] waits *)

Section client_ready.
Context {K : Ksuid} `{!KsuidText K}.
Implicit Types (c : client) (ids : list KSUID) (m : KSUID).

(** Its queue [qq] and its links, whose master is [oo]. *)
Record client_ready ids m (conn : TCPConn) c (qq oo : nat) : Prop := {
  cr_queue : exists q, pm_map (clientQueueHub c) !! m = Some qq /\ pm_heap (clientQueueHub c) !! qq = Some q /\
    q_sorted q = ids /\ (q_buffer q = makeBuffer /\ q_status q = StaWait) /\
    (forall k id, ids !! k = Some id ->
       exists w, q_writers q !! id = Some w /\ cl_writers c !! w = Some (NewWebSocketWriter k id)) /\
    (forall id w, q_writers q !! id = Some w ->
       exists k, ids !! k = Some id /\ cl_writers c !! w = Some (NewWebSocketWriter k id));
  cr_links : exists l, pm_map (clientLinkHub c) !! m = Some oo /\ pm_heap (clientLinkHub c) !! oo = Some l /\
    l_sorted l = ids /\ l_conn l = Some conn /\ pm_wf (clientLinkHub c) /\ links_new ids (clientLinkHub c) /\
    (forall id, id ∈ ids -> is_Some (pm_map (clientLinkHub c) !! id));
}.

Lemma transData_ready now ids m conn addr c c' qq oo out :
  head ids = Some m -> NoDup ids -> length ids <= length (cl_wsc c) ->
  pm_map (clientQueueHub c) !! m = None -> pm_wf (clientLinkHub c) ->
  (forall id, id ∈ ids -> pm_map (clientLinkHub c) !! id = None) ->
  transData now ids conn None addr None c = (c', out, TWait qq oo) ->
  client_ready ids m conn c' qq oo /\
  out = hello_messages 0 m ids ++ [(0, marshal_message (est_message m None addr (Some ids)))].
Proof.
  intros Hhead Hnd Hlen Hq Hwf Hl Ht. assert (m ∈ ids) as Hm by (destruct ids; simplify_eq/=; set_solver).
  destruct (transData_hubs now ids m conn addr c Hhead Hnd Hlen Hq (Hl m Hm))
    as (s1 & qq' & oo' & q & l & [Eq El Ew _ _ _ _] & (Hqq & Hqh & Hqm & Hqw) & (Hoo & Hlh & Hlids) & E).
  rewrite E in Ht. simplify_eq. split; [|done].
  cbn [clientQueueHub clientLinkHub cl_writers set_ctrans] in Eq, El, Ew.
  assert (forall k id, ids !! k = Some id ->
            cl_writers s1 !! (length (cl_writers c) + k) = Some (NewWebSocketWriter k id)) as Hwr.
  { intros k id Hk. rewrite Ew, lookup_app_r, Nat.add_sub' by lia.
    by rewrite list_lookup_fmap, (numbered_lookup 0 ids k id Hk). }
  pose proof (hs_run_new_queue (fun b => b = makeBuffer) now m [] (queue_adds (length (cl_writers c)) ids) _ eq_refl Hq) as Hn.
  rewrite <- Eq in Hn. destruct (Hn _ Hqq) as (q' & Hq' & Hb & Hst). rewrite Hqh in Hq'. injection Hq' as <-.
  split; simpl.
  - exists (Queue.SetSort ids q). rewrite list_lookup_alter_eq, Hqh. split_and!; try done; simpl.
    + intros k id Hk. exists (length (cl_writers c) + k). split; [|by apply Hwr].
      apply Hqw, elem_of_numbered_iff, Hk.
    + intros id w Hw. rewrite Hqm in Hw. apply hs_writers_from, list_elem_of_fmap in Hw as ([k' id'] & ? & Hin).
      simplify_eq. unfold numbered in Hin. apply list_elem_of_lookup in Hin as [k Hk].
      apply lookup_zip_Some in Hk as [Hs Hk]. apply lookup_seq in Hs as [-> _].
      exists k. split; [done|by apply Hwr].
  - destruct (hs_run_new_links ids now m [] (map Link.HAdd ids) _ Hwf Hl) as [Hwf' Hnew].
    rewrite <- El in Hwf', Hnew.
    exists (Link.SetSort ids (Link.SetConn conn l)). rewrite list_lookup_alter_eq, Hlh.
    split_and!; try done.
    + by apply pm_wf_start, lh_wf_update.
    + by apply (links_new_update ids oo).
Qed.
End client_ready.
