(* ===== verification/Upstream.v ===== *)
(** From the client to the server: a proxied connection from its first message.

    [transData] starts the [Send] of its queue as soon as it has given its
    messages to the websockets, so chunks may be under way before the server has
    handled all of the handshake, which comes on several websockets and includes
    the dialling of the target.  [up_step] is this phase: the sender's side runs,
    and the server handles the messages of each websocket in their order, hello
    and establish messages as [dispatchMessage] does.  It ends when the [Send]
    of the master link is started, which it is only if the target was dialled
    ([up_server]); from then on the connection is a direction in the sense of
    Direction.v.  Opening.v and Passage.v use the invariant [up_inv]. *)
From S2P Require Import Prelude GoChan Pipe RoundRobin PtrMap Queue QueueHub Link Starts Striping Base64 Json.
From S2P Require Import Messages Hub Server Handshake Client Wire Direction Session.

(** What else may be known of the queue, its [Send] and the chunks sent. *)
Abbreviation inv_on := (queue KSUID -> Queue.send_pc KSUID -> list buffer -> Prop).

Section upstream.
Context {K : Ksuid} `{!KsuidText K}.

(** The connections, the master's ID and the address; the server's number for
    each websocket; what [establish] makes of the address: a connection to the
    target, or none when [checkAddrPrivite] refuses it or the dial fails; the
    pointer of the client's queue and the IDs of its writers. *)
Context (ids : list KSUID) (m : KSUID) (addr : string) (hub_of : nat -> nat) (dial : option TCPConn).
Context (qq : nat) (name : nat -> KSUID).

#[local] Hint Extern 0 (Transport wires) => exact (wire_transport (ws_index ids)) : typeclass_instances.

(** What other connections do to the server's hub of links leaves those of this
    one as they are. *)
Definition links_kept (h h' : LinkHub) : Prop :=
  pm_wf h' /\ pm_go_ok h' /\
  forall id, id ∈ ids -> pm_map h' !! id = pm_map h !! id /\
    forall p, pm_map h !! id = Some p -> pm_heap h' !! p = pm_heap h !! p /\ (p ∈ pm_go h' <-> p ∈ pm_go h).

(** The messages of this connection on the websockets are untouched. *)
Definition items_kept (t t' : wires) : Prop :=
  forall id, id ∈ ids ->
    omap (item_of id) (wire t' (ws_index ids id)) = omap (item_of id) (wire t (ws_index ids id)).

(** The server's steps in this phase; the state is that of the direction, with the
    steps of the handshake that the server has taken. A chunk is read by a
    dispatcher that need not wait: no write to a link times out, and the client
    does not give the connection up (System.v has the latter, Lossy.v the
    former). *)
Inductive up_server : dir (W := nat) * list Link.handshake -> dir (W := nat) * list Link.handshake -> Prop :=
  (* a hello message is read *)
  | us_hello now hq ws qpc t sv lpc inp ops k id rest :
      (k, id) ∈ numbered 0 ids -> wire t k = hello_json m id :: rest ->
      up_server (mkDir hq ws qpc t (serverLinkHub sv) lpc inp, ops)
                (mkDir hq ws qpc (<[k := rest]> t)
                   (serverLinkHub (dispatched now (hub_of k) (hello_json m id) sv)) lpc inp, ops ++ [Link.HAdd id])
  (* the establish message is read *)
  | us_est now hq ws qpc t sv lpc inp ops rest :
      wire t 0 = est_json ids m addr :: rest ->
      up_server (mkDir hq ws qpc t (serverLinkHub sv) lpc inp, ops)
                (mkDir hq ws qpc (<[0 := rest]> t)
                   (serverLinkHub (dispatched now (hub_of 0) (est_json ids m addr) sv)) lpc inp, ops ++ [Link.HSort])
  (* [establish], which the establish message has started, has dialled *)
  | us_dialled hq ws qpc t hl lpc inp ops target :
      dial = Some target -> Link.HSort ∈ ops -> tried ops = None ->
      up_server (mkDir hq ws qpc t hl lpc inp, ops)
                (mkDir hq ws qpc t (fst (Link.TrySend m (Some target) hl)) lpc inp, ops ++ [Link.HTry target])
  (* a chunk is read *)
  | us_chunk hq ws qpc t hl lpc inp ops id v rest b hl' :
      id ∈ ids -> wire t (ws_index ids id) = v :: rest -> chunk_of id v = Some b -> delivers hl id b hl' ->
      up_server (mkDir hq ws qpc t hl lpc inp, ops)
                (mkDir hq ws qpc (<[ws_index ids id := rest]> t) hl' lpc inp, ops).

Inductive up_step : dir (W := nat) * list Link.handshake -> dir (W := nat) * list Link.handshake -> Prop :=
  (* the client: CopyBuffer, its queue and its [Send] *)
  | us_sender d d' ops :
      dir_send m qq d d' -> up_step (d, ops) (d', ops)
  | us_server x x' : up_server x x' -> up_step x x'
  (* other connections *)
  | us_other hq ws qpc t hl lpc inp ops hq' ws' t' hl' :
      queues_kept m qq hq ws hq' ws' -> items_kept t t' -> links_kept hl hl' ->
      up_step (mkDir hq ws qpc t hl lpc inp, ops) (mkDir hq' ws' qpc t' hl' lpc inp, ops).

(** ** The invariant *)

(** The messages of the handshake that the server has not read yet. *)
Definition hs_sorted (ops : list Link.handshake) : bool :=
  existsb (fun op => match op with Link.HSort => true | _ => false end) ops.

Definition due (ops : list Link.handshake) (id : KSUID) : list item :=
  (if decide (id ∈ hs_adds ops) then [] else [Hello (hello_json m id)]) ++
  (if decide (id = m) then if hs_sorted ops then [] else [Est (est_json ids m addr)] else []).

Lemma hs_sorted_in ops : hs_sorted ops = true <-> Link.HSort ∈ ops.
Proof.
  unfold hs_sorted. rewrite existsb_exists. setoid_rewrite <- list_elem_of_In.
  split; [by intros ([| |] & ? & ?)|]. intros H. by exists Link.HSort.
Qed.

Lemma hs_sorted_snoc ops op :
  hs_sorted (ops ++ [op]) = hs_sorted ops || match op with Link.HSort => true | _ => false end.
Proof. unfold hs_sorted. rewrite existsb_app. simpl. by rewrite orb_false_r. Qed.

Lemma due_no_chunks ops id : omap item_chunk (due ops id) = [].
Proof. unfold due. by repeat case_match. Qed.

Lemma hs_adds_snoc ops op :
  hs_adds (ops ++ [op]) = hs_adds ops ++ match op with Link.HAdd id => [id] | _ => [] end.
Proof. rewrite hs_adds_app. by destruct op. Qed.

Lemma due_snoc_other ops op id :
  (forall id', op = Link.HAdd id' -> id' <> id) -> (op = Link.HSort -> id <> m) ->
  due (ops ++ [op]) id = due ops id.
Proof.
  intros Ha Hs. unfold due. rewrite hs_adds_snoc, hs_sorted_snoc. f_equal.
  - destruct op as [id'| |c]; rewrite ?app_nil_r; try done. specialize (Ha id' eq_refl).
    apply decide_ext. rewrite elem_of_app, list_elem_of_singleton. split; [|by left].
    by intros [?|E]; [|destruct (Ha (eq_sym E))].
  - case_decide; [|done]. destruct op; rewrite ?orb_false_r; try done. by destruct Hs.
Qed.

Lemma chunk_item_other id id' v b : chunk_of id v = Some b -> id' <> id -> item_of id' v = None.
Proof.
  intros Hv Hne. unfold item_of. rewrite (chunk_of_other id id' v b) by done.
  unfold is_type, chunk_of in *. destruct (unmarshal_message v) as [msg|]; [|done].
  cbn [mbind option_bind] in Hv. destruct (ksuid_Parse (m_Id msg)); [|done]. cbn [mbind option_bind] in Hv.
  case_decide as Hc'; [|done]. destruct Hc' as [_ ->].
  by rewrite !bool_decide_eq_false_2 by (by intros [_ ?]).
Qed.

Record up_inv (Q : inv_on) (d : dir (W := nat)) (ops : list Link.handshake) : Prop := {
  ui_sender : exists s q P, dir_sys (ws_index ids) m qq name d s q /\ q_ready ids (s_q s) /\
    (eof_last (d_in d) /\ Forall written (d_in d)) /\
    sender (s_q s) (s_qpc s) (d_in d) P (length P) /\
    (forall id, id ∈ ids -> lane (d_wires d) (d_links d) id = stripe ids 0 id P) /\
    Q (s_q s) (s_qpc s) P;
  ui_links : links_run m ids ops (d_links d);
  ui_items : forall id, id ∈ ids -> exists l,
    omap (item_of id) (wire (d_wires d) (ws_index ids id)) = due ops id ++ map Chunk l;
  ui_wait : forall id, id ∈ ids -> waiting (d_links d) id;
  ui_lpc : d_lpc d = Link.PEnter;
}.

Lemma pending_items id (t : wires) :
  t_pending id t = omap item_chunk (omap (item_of id) (wire t (ws_index ids id))).
Proof. apply chunks_of_items. Qed.

Lemma lane_kept (t t' : wires) h h' id :
  omap item_chunk (omap (item_of id) (wire t' (ws_index ids id))) =
    omap item_chunk (omap (item_of id) (wire t (ws_index ids id))) ->
  lane_items h' id = lane_items h id -> lane t' h' id = lane t h id.
Proof. intros Ht Hh. unfold lane. by rewrite !pending_items, Ht, Hh. Qed.

(** Reading the oldest message of a websocket. *)
Lemma items_read k v rest (t : wires) id :
  wire t k = v :: rest -> item_of id v = None ->
  omap (item_of id) (wire (<[k := rest]> t) (ws_index ids id)) =
    omap (item_of id) (wire t (ws_index ids id)).
Proof.
  intros Hw Hv. rewrite wire_insert. case_decide as Hd; [|done].
  by rewrite Hd, Hw, omap_cons, Hv.
Qed.

(** A step of the sender's side adds chunks to the websockets. *)
Lemma sent_items (t : wires) k out id :
  (out = [] \/ exists id' b, out = [chunk_json id' b]) ->
  exists l, omap (item_of id) (wire (put k out t) (ws_index ids id)) =
              omap (item_of id) (wire t (ws_index ids id)) ++ map Chunk l.
Proof.
  intros Hout. rewrite wire_put. case_decide as Hd; [|exists []; by rewrite app_nil_r].
  destruct Hout as [->|(id' & b & ->)]; [exists []; by rewrite !app_nil_r|].
  rewrite omap_app. destruct (decide (id' = id)) as [->|Hne].
  - exists [b]. simpl. by rewrite item_of_chunk, decide_True.
  - exists []. simpl. by rewrite item_of_chunk, decide_False.
Qed.

Lemma dir_send_items d d' s q id :
  dir_send m qq d d' -> dir_sys (ws_index ids) m qq name d s q ->
  d_links d' = d_links d /\ d_lpc d' = d_lpc d /\
  exists l, omap (item_of id) (wire (d_wires d') (ws_index ids id)) =
              omap (item_of id) (wire (d_wires d) (ws_index ids id)) ++ map Chunk l.
Proof.
  intros Hstep [Hq -> Hwr Hreg Hpc _].
  destruct Hstep as [hq ws qpc t hl lpc inp q0 b c Hq0 Hno Hb Hc|hq ws qpc t hl lpc inp q0 ev q' qpc' Hq0 H
    |hq ws qpc t hl lpc inp q0 e q' qpc' w b x ws_err out lost Hq0 H Hx Hh Hl|hq ws qpc t hl lpc inp hq' H];
    simpl in *; (split_and!; [done..|]); try (exists []; by rewrite app_nil_r).
  rewrite Hq in Hq0. injection Hq0 as <-.
  destruct lost; [exists []; by rewrite app_nil_r|]. apply sent_items.
  destruct (Send_step_written _ _ _ _ _ _ H Hwr) as [_ Hwb].
  destruct (hand_good _ _ _ _ _ Hh (Hwb _ _ eq_refl)) as [[-> _]|[-> _]]; [right; eauto|by left].
Qed.

Context (Hnd : NoDup ids) (Hm : m ∈ ids) (Hhead : ids !! 0 = Some m).

(** The client's side takes a step in which it hands out [sent]. *)
Lemma up_sends (Q Q' : inv_on) d d' ops :
  dir_send m qq d d' -> up_inv Q d ops ->
  (forall s q P, dir_sys (ws_index ids) m qq name d s q -> q_ready ids (s_q s) ->
     sender (s_q s) (s_qpc s) (d_in d) P (length P) -> Q (s_q s) (s_qpc s) P ->
     exists s' q' sent, dir_sys (ws_index ids) m qq name d' s' q' /\ sender_moves ids s s' sent /\
       Q' (s_q s') (s_qpc s') (P ++ sent)) ->
  up_inv Q' d' ops.
Proof using Type*.
  intros Hstep [(s & q & P & Hd & Hq & [Hlast Hwr] & Hsn & Hlanes & HQ) Hlinks Hitems Hwait Hlpc] Hmoves.
  pose proof (fun id => dir_send_items d d' s q id Hstep Hd) as Hit.
  destruct (Hit m) as (El & Ep & _).
  destruct (Hmoves s q P Hd Hq Hsn HQ) as (s' & q' & sent & Hd' & [Ew _ _ Heof Hsent] & HQ').
  pose proof (ds_sys _ _ _ _ _ _ _ Hd) as Es. pose proof (ds_sys _ _ _ _ _ _ _ Hd') as Es'.
  subst s s'. cbn [s_q s_qpc s_in s_net s_hub s_lpc] in *.
  destruct (Hsent _ _ Hsn) as [Hsn' Hpend]. rewrite <- length_app in Hsn'.
  split; rewrite ?El, ?Ep; try done.
  - eexists _, q', (P ++ sent). split; [exact Hd'|]. cbn [s_q s_qpc]. split_and!; try done.
    + unfold q_ready. destruct Ew as [-> ->]. exact Hq.
    + by apply Heof.
    + by apply Heof.
    + intros id Hid. unfold lane. rewrite stripe_app, <- (Hlanes id Hid). unfold lane.
      by rewrite (Hpend id Hid), app_assoc.
  - intros id Hid. destruct (Hitems id Hid) as [l Hl]. destruct (Hit id) as (_ & _ & l' & Hl').
    exists (l ++ l'). by rewrite Hl', Hl, map_app, app_assoc.
Qed.

Lemma up_sender d d' ops :
  dir_send m qq d d' -> up_inv (fun _ _ _ => True) d ops -> up_inv (fun _ _ _ => True) d' ops.
Proof using Type*.
  intros Hstep Hinv. apply (up_sends (fun _ _ _ => True) _ d d' ops); [done..|].
  intros s q P Hd Hq _ _. destruct (dir_send_sim _ _ _ _ _ _ _ _ Hstep Hd) as (s' & q' & Hr & Hd').
  destruct (sys_sends_moves ids _ _ Hq Hr) as (sent & Hmv). by exists s', q', sent.
Qed.

(** The handshake: messages that are no chunks leave the websockets, and the
    server takes a step with its hub of links. *)
Lemma up_handshake (Q : inv_on) now hq ws qpc t t' hl lpc inp ops op :
  up_inv Q (mkDir hq ws qpc t hl lpc inp) ops -> link_may ids ops op ->
  (forall id l, id ∈ ids ->
     omap (item_of id) (wire t (ws_index ids id)) = due ops id ++ map Chunk l ->
     omap (item_of id) (wire t' (ws_index ids id)) = due (ops ++ [op]) id ++ map Chunk l) ->
  up_inv Q (mkDir hq ws qpc t' (Link.hs_step now m ids hl op) lpc inp) (ops ++ [op]).
Proof using Type*.
  intros [(s & q & P & Hd & Hq & Heof & Hsn & Hlanes & HQ) Hlinks Hitems Hwait Hlpc] Hmay Hit. simpl in *.
  assert (pm_wf hl) as Hwf by apply Hlinks.
  split; simpl; try done.
  - eexists _, q, P. split; [|split_and!].
    { apply (dir_sys_kept _ _ _ _ hq ws hq ws qpc t hl lpc inp t' _ s q); [|done]. split_and!; eauto. }
    all: pose proof (ds_sys _ _ _ _ _ _ _ Hd) as Es; subst s; try done; try apply Heof.
    intros id Hid. rewrite <- (Hlanes id Hid). destruct (Hitems id Hid) as [l Hl].
    apply lane_kept; [|by apply hs_step_same].
    by rewrite (Hit id l Hid Hl), Hl, !omap_app, !due_no_chunks.
  - by apply links_run_step.
  - intros id Hid. destruct (Hitems id Hid) as [l Hl]. exists l. by apply Hit.
  - intros id Hid. apply hs_step_same; [done|]. by apply Hwait.
Qed.

(** The hello message is the first that is read of its websocket. *)
Lemma hello_due (Q : inv_on) d ops k id rest :
  (k, id) ∈ numbered 0 ids -> wire (d_wires d) k = hello_json m id :: rest -> up_inv Q d ops ->
  link_may ids ops (Link.HAdd id) /\ forall id' l, id' ∈ ids ->
    omap (item_of id') (wire (d_wires d) (ws_index ids id')) = due ops id' ++ map Chunk l ->
    omap (item_of id') (wire (<[k := rest]> (d_wires d)) (ws_index ids id')) = due (ops ++ [Link.HAdd id]) id' ++ map Chunk l.
Proof using Type*.
  intros Hk%elem_of_numbered Hw Hinv.
  pose proof (ws_index_lookup ids k id Hnd Hk) as Hi.
  assert (id ∈ ids) as Hid by by eapply list_elem_of_lookup_2.
  destruct (ui_items _ _ _ Hinv id Hid) as [l Hl].
  rewrite Hi, Hw, omap_cons, item_of_hello, decide_True in Hl by done.
  assert (id ∉ hs_adds ops) as Hno.
  { intros Hin. unfold due in Hl. rewrite decide_True in Hl by done. repeat case_match; by destruct l. }
  split; [done|]. intros id' l' Hid' Hl'. destruct (decide (id' = id)) as [->|Hne].
  - rewrite wire_insert, decide_True by done. rewrite Hi, Hw, omap_cons, item_of_hello, decide_True in Hl' by done.
    unfold due in *. rewrite hs_adds_snoc, hs_sorted_snoc, orb_false_r.
    rewrite decide_True by (apply elem_of_app; right; by apply list_elem_of_singleton).
    rewrite decide_False in Hl' by done. by simplify_eq/=.
  - erewrite items_read; [|done|by rewrite item_of_hello, decide_False].
    rewrite due_snoc_other; [done| |done]. by intros ? [= ->].
Qed.

Lemma up_hello (Q : inv_on) now hq ws qpc t sv lpc inp ops k id rest :
  (k, id) ∈ numbered 0 ids -> wire t k = hello_json m id :: rest ->
  up_inv Q (mkDir hq ws qpc t (serverLinkHub sv) lpc inp) ops ->
  up_inv Q (mkDir hq ws qpc (<[k := rest]> t) (serverLinkHub (dispatched now (hub_of k) (hello_json m id) sv)) lpc inp)
    (ops ++ [Link.HAdd id]).
Proof using Type*.
  intros Hk Hw Hinv. destruct (hello_due _ (mkDir hq ws qpc t (serverLinkHub sv) lpc inp) _ _ _ _ Hk Hw Hinv) as [Hmay Hdue].
  pose proof (sv_hs_link now m ids sv (SHi (hub_of k) id)) as El. simpl in El.
  fold (hello_json m id) in El. rewrite El.
  by apply (up_handshake Q now _ _ _ t _ _ _ _ _ (Link.HAdd id)).
Qed.

(** The establish message comes after the master's hello. *)
Lemma est_due (Q : inv_on) d ops rest :
  wire (d_wires d) 0 = est_json ids m addr :: rest -> up_inv Q d ops ->
  hs_sorted ops = false /\ forall id' l, id' ∈ ids ->
    omap (item_of id') (wire (d_wires d) (ws_index ids id')) = due ops id' ++ map Chunk l ->
    omap (item_of id') (wire (<[0 := rest]> (d_wires d)) (ws_index ids id')) = due (ops ++ [Link.HSort]) id' ++ map Chunk l.
Proof using Type*.
  intros Hw Hinv.
  assert (forall l, omap (item_of m) (wire (d_wires d) (ws_index ids m)) = due ops m ++ map Chunk l ->
    hs_sorted ops = false /\ m ∈ hs_adds ops /\ omap (item_of m) rest = map Chunk l) as Hx.
  { intros l Hl. rewrite (ws_index_lookup ids 0 m), Hw, omap_cons, item_of_est, decide_True in Hl by done.
    unfold due in Hl. rewrite (decide_True (P := m = m)) in Hl by done.
    case_decide; [|done]. destruct (hs_sorted ops); [by destruct l|]. simpl in Hl. by simplify_eq. }
  destruct (ui_items _ _ _ Hinv m Hm) as [l0 Hl0]. destruct (Hx l0 Hl0) as (Hs & Ha & _). split; [done|].
  intros id' l' Hid' Hl'. destruct (decide (id' = m)) as [->|Hne].
  - rewrite wire_insert, decide_True by by apply ws_index_lookup. destruct (Hx l' Hl') as (_ & _ & ->).
    unfold due. by rewrite hs_adds_snoc, app_nil_r, hs_sorted_snoc, orb_true_r, decide_True, decide_True.
  - erewrite items_read; [|done|by rewrite item_of_est, decide_False].
    by rewrite due_snoc_other.
Qed.

Lemma up_est (Q : inv_on) now hq ws qpc t sv lpc inp ops rest :
  wire t 0 = est_json ids m addr :: rest ->
  up_inv Q (mkDir hq ws qpc t (serverLinkHub sv) lpc inp) ops ->
  up_inv Q (mkDir hq ws qpc (<[0 := rest]> t) (serverLinkHub (dispatched now (hub_of 0) (est_json ids m addr) sv)) lpc inp)
    (ops ++ [Link.HSort]).
Proof using Type*.
  intros Hw Hinv. destruct (est_due _ (mkDir hq ws qpc t (serverLinkHub sv) lpc inp) _ _ Hw Hinv) as [_ Hdue].
  pose proof (sv_hs_link now m ids sv (SEst (hub_of 0) addr)) as El. simpl in El. fold (est_json ids m addr) in El. rewrite El.
  by apply (up_handshake Q now _ _ _ t _ _ _ _ _ Link.HSort).
Qed.

Lemma up_dialled (Q : inv_on) target hq ws qpc t hl lpc inp ops :
  Link.HSort ∈ ops -> tried ops = None ->
  up_inv Q (mkDir hq ws qpc t hl lpc inp) ops ->
  up_inv Q (mkDir hq ws qpc t (fst (Link.TrySend m (Some target) hl)) lpc inp) (ops ++ [Link.HTry target]).
Proof using Type*.
  intros Hs Ht Hinv. apply (up_handshake Q 0 _ _ _ t t _ _ _ _ (Link.HTry target)); [done..|].
  intros id' l' _ Hl'. by rewrite due_snoc_other.
Qed.

(** A chunk that is read is given to a link, which is there since the hello
    message. *)
Lemma up_chunk_added (Q : inv_on) d ops id v rest b :
  up_inv Q d ops -> id ∈ ids -> wire (d_wires d) (ws_index ids id) = v :: rest -> chunk_of id v = Some b ->
  id ∈ hs_adds ops /\ due ops id = [] /\ exists p l, pm_map (d_links d) !! id = Some p /\ pm_heap (d_links d) !! p = Some l.
Proof using Type*.
  intros [_ Hlinks Hitems _ _] Hid Hw Hv. destruct (Hitems id Hid) as [l Hl].
  rewrite Hw, omap_cons in Hl. unfold item_of in Hl at 1. rewrite Hv in Hl.
  assert (due ops id = []) as Hdue.
  { revert Hl. unfold due. repeat case_match; try done; intros; simplify_eq/=. }
  assert (id ∈ hs_adds ops) as Hin.
  { unfold due in Hdue. by case_decide. }
  split_and!; [done..|]. pose proof Hlinks as [Hinv [_ Hsub] _ [Hwf Hok] _].
  assert (is_Some (pm_map (d_links d) !! id)) as [p Hp].
  { unfold Link.hs_inv in Hinv. destruct (pm_map (d_links d) !! m); [|destruct Hinv as [-> _]; set_solver].
    destruct Hinv as (l' & _ & _ & _ & _ & Hl'). by apply Hl'. }
  destruct (proj1 Hwf _ _ Hp) as (l' & Hl' & _). by exists p, l'.
Qed.

Lemma up_chunk (Q : inv_on) hq ws qpc t hl lpc inp ops id v rest b hl' :
  id ∈ ids -> wire t (ws_index ids id) = v :: rest -> chunk_of id v = Some b -> delivers hl id b hl' ->
  up_inv Q (mkDir hq ws qpc t hl lpc inp) ops ->
  up_inv Q (mkDir hq ws qpc (<[ws_index ids id := rest]> t) hl' lpc inp) ops.
Proof using Type*.
  intros Hid Hw Hv Hdl Hinv.
  destruct (up_chunk_added _ _ _ _ _ _ _ Hinv Hid Hw Hv) as (Hin & Hdue & p & l & Hp & Hl).
  destruct Hinv as [(s & q & P & Hd & Hq & Heof & Hsn & Hlanes & HQ) Hlinks Hitems Hwait Hlpc]. simpl in *.
  pose proof (Hwait id Hid p l Hp Hl) as [Hst Hcap].
  assert (exists c, chan_send (l_buffer l) b = SendOk c /\ hl' = pm_update p (set_l_buffer c) hl) as (c & Hc & ->).
  { destruct Hdl as [p' l' c Hp' Hl' _ Hc|p' l' Hp' Hl' Hst'|Hno]; unfold Link.Get in *.
    - exists c. by simplify_eq.
    - congruence.
    - congruence. }
  pose proof (w_recv_head (ws_index ids) id t v rest b Hw Hv) as Hr.
  pose proof (chan_send_inv _ _ _ Hc) as (_ & Ecl & _ & Ecap).
  split; simpl; try done.
  - eexists _, q, P. split; [|split_and!].
    { apply (dir_sys_kept _ _ _ _ hq ws hq ws qpc t hl lpc inp _ _ s q); [|done]. split_and!; eauto. }
    all: pose proof (ds_sys _ _ _ _ _ _ _ Hd) as Es; subst s; try done; try apply Heof.
    intros id' Hid'. rewrite <- (Hlanes id' Hid'). eapply lane_deliver; [apply Hlinks|done..].
  - apply (links_run_keep _ _ _ hl); [done| |apply pm_go_ok_update, Hlinks|done|].
    + apply pm_wf_update; [|apply Hlinks]. intros l1 Hl1 Ho. done.
    + intros p' q' Hp' Hq'. split; [done|]. simpl. destruct (decide (p = p')) as [->|Hne].
      * rewrite list_lookup_alter_eq, Hq'. by eexists.
      * rewrite list_lookup_alter_ne by done. by eexists.
  - intros id' Hid'. destruct (Hitems id' Hid') as [l' Hl']. destruct (decide (id' = id)) as [->|Hne].
    + rewrite wire_insert, decide_True by done. rewrite Hdue in *.
      rewrite Hw, omap_cons in Hl'. unfold item_of in Hl' at 1. rewrite Hv in Hl'.
      destruct l' as [|b' l']; [done|]. simplify_eq/=. by exists l'.
    + exists l'. erewrite items_read; [done|done|]. by eapply chunk_item_other.
  - intros id' Hid' p' l' Hp'. simpl in *. destruct (decide (p = p')) as [->|Hne].
    + rewrite list_lookup_alter_eq, Hl. intros [= <-]. simpl. by rewrite Ecap.
    + rewrite list_lookup_alter_ne by done. by apply (Hwait id').
Qed.

Lemma up_server_inv (Q : inv_on) x x' : up_server x x' -> up_inv Q (fst x) (snd x) -> up_inv Q (fst x') (snd x').
Proof using Type*. destruct 1; simpl; [by apply up_hello|by apply up_est|by apply up_dialled|by eapply up_chunk]. Qed.

Lemma up_other (Q : inv_on) hq ws qpc t hl lpc inp ops hq' ws' t' hl' :
  queues_kept m qq hq ws hq' ws' -> items_kept t t' -> links_kept hl hl' ->
  up_inv Q (mkDir hq ws qpc t hl lpc inp) ops -> up_inv Q (mkDir hq' ws' qpc t' hl' lpc inp) ops.
Proof using Type*.
  intros Hqk Ht (Hwf' & Hok' & Hk) [(s & q & P & Hd & Hq & Heof & Hsn & Hlanes & HQ) Hlinks Hitems Hwait Hlpc].
  simpl in *. split; simpl; try done.
  - eexists _, q, P. split; [|split_and!].
    { by apply (dir_sys_kept _ _ _ _ hq ws hq' ws' qpc t hl lpc inp _ _ s q). }
    all: pose proof (ds_sys _ _ _ _ _ _ _ Hd) as Es; subst s; try done; try apply Heof.
    intros id Hid. rewrite <- (Hlanes id Hid). apply lane_kept; [by rewrite Ht|].
    unfold lane_items. destruct (Hk id Hid) as [-> Hp]. destruct (pm_map hl !! id) as [p|]; [|done].
    unfold buf_at. by destruct (Hp p eq_refl) as [-> _].
  - apply (links_run_keep _ _ _ hl); try done.
    + intros id [->|Hid]; by apply Hk.
    + intros p l Hp Hl. destruct (Hk m Hm) as [_ Hp']. destruct (Hp' p Hp) as [E Hg].
      split; [done|]. exists l. by rewrite E.
  - intros id Hid. destruct (Hitems id Hid) as [l Hl]. exists l. by rewrite Ht.
  - intros id Hid p l. destruct (Hk id Hid) as [-> Hp]. intros Hp1. destruct (Hp p Hp1) as [-> _]. by apply (Hwait id).
Qed.

Lemma up_step_inv x x' : up_step x x' -> up_inv (fun _ _ _ => True) (fst x) (snd x) -> up_inv (fun _ _ _ => True) (fst x') (snd x').
Proof using Type*.
  destruct 1; simpl; [by apply up_sender|by apply up_server_inv|by eapply up_other].
Qed.

Lemma up_steps_inv x x' : rtc up_step x x' -> up_inv (fun _ _ _ => True) (fst x) (snd x) -> up_inv (fun _ _ _ => True) (fst x') (snd x').
Proof using Type*. intros Hr. induction Hr as [x|x x1 x' Hs _ IH]; [done|]. intros Hi. by apply IH, (up_step_inv x). Qed.

(** When the [Send] of the master link is started the system is one in the
    sense of Striping.v, with what is under way. *)
Lemma up_started (Q : inv_on) target d ops me :
  up_inv Q d ops -> tc_eof target = false -> (forall c, tried ops = Some c -> c = target) ->
  pm_map (d_links d) !! m = Some me -> me ∈ pm_go (d_links d) ->
  exists s q P, dir_sys (ws_index ids) m qq name d s q /\ sys_inv ids m me (tc_sent target) s target /\
    alive ids (tc_sent target) target s [] P 0 /\ Q (s_q s) (s_qpc s) P.
Proof using Type*.
  intros [(s & q & P & Hd & Hq & Heof & Hsn & Hlanes & HQ) Hlinks Hitems Hwait Hlpc] Htc Hconn Hme Hgo.
  exists s, q, P. split; [done|]. pose proof Hlinks as [Hinv _ Hso [Hwf _] Hgo'].
  apply Hgo' in Hgo as [Hperm [c Hc]]; [|done]. pose proof (Hconn c Hc) as ->.
  unfold Link.hs_inv in Hinv. rewrite Hme in Hinv. destruct Hinv as (l & Hl & _ & Hlc & Hls & Hids).
  rewrite Hc in Hlc. rewrite Hc in Hso. specialize (Hls (Hso (ltac:(by eexists)))).
  pose proof (ds_sys _ _ _ _ _ _ _ Hd) as Es. subst s. simpl in *.
  assert (alive ids (tc_sent target) target (mkSys (map_queue name q) (map_pc name (d_qpc d)) (d_wires d)
            (d_links d) (d_lpc d) (d_in d)) [] P 0) as Hal.
  { split; simpl.
    + intros id Hid. assert (is_Some (pm_map (d_links d) !! id)) as [p Hp] by (apply Hids; by rewrite Hperm).
      destruct (proj1 Hwf _ _ Hp) as (l' & Hl' & _). exists p, (l_buffer l'). unfold buf_at, status_at.
      rewrite Hl'. split_and!; [done..|]. simpl. destruct (Hwait id Hid p l' Hp Hl') as [Hst _]. by rewrite Hst.
    + unfold data_of. simpl. by rewrite app_nil_r.
    + by rewrite Hlpc.
    + done.
    + rewrite Hlpc. apply top_pos_0. }
  split_and!; [|done..]. split; simpl; try done.
  - unfold sort_at, conn_at. rewrite Hl. simpl. by rewrite Hls, Hlc.
  - intros p Hp. congruence.
  - left. eauto.
Qed.

(** The server only knows the connection that it has dialled. *)
Lemma up_server_target x x' : up_server x x' ->
  (forall c, tried (snd x) = Some c -> dial = Some c) -> forall c, tried (snd x') = Some c -> dial = Some c.
Proof. destruct 1; simpl; intros Hc c; rewrite ?tried_snoc; auto. by intros [= <-]. Qed.

Lemma up_step_target x x' : up_step x x' ->
  (forall c, tried (snd x) = Some c -> dial = Some c) -> forall c, tried (snd x') = Some c -> dial = Some c.
Proof. destruct 1; simpl; auto. by apply up_server_target. Qed.

Lemma up_steps_target x x' : rtc up_step x x' ->
  (forall c, tried (snd x) = Some c -> dial = Some c) -> forall c, tried (snd x') = Some c -> dial = Some c.
Proof. induction 1 as [x|x x1 x' Hs _ IH]; [done|]. intros Hc. by apply IH, (up_step_target x). Qed.
End upstream.

(** ** Before the queue's [Send] *)

Section side.
Context {K : Ksuid} `{!KsuidText K}.
Context (ids : list KSUID) (m : KSUID) (addr : string) (qq : nat) (name : nat -> KSUID).
Implicit Types (hq : QueueHub nat) (q : queue nat) (t : wires) (hl : LinkHub).

#[local] Hint Extern 0 (Transport wires) => exact (wire_transport (ws_index ids)) : typeclass_instances.

(** The queue [q] has its order and a writer for each connection, and nothing has
    been written to it. *)
Record side_new hq (ws : nat -> option webSocketWriter) q : Prop := {
  sn_queue : pm_heap hq !! qq = Some q;
  sn_map p : pm_map hq !! m = Some p -> p = qq;
  sn_empty : chan_items (q_buffer q) = [];
  sn_sorted : q_sorted q = ids;
  sn_writers id w : q_writers q !! id = Some w ->
    exists x, ws w = Some x /\ w_Id x = name w /\ w_WSC x = ws_index ids (name w);
  sn_all id : id ∈ ids -> exists w, q_writers q !! id = Some w /\ name w = id;
}.

Lemma side_dir_sys hq ws q t hl lpc :
  side_new hq ws q ->
  dir_sys (ws_index ids) m qq name (mkDir hq ws Queue.PEnter t hl lpc [])
    (mkSys (map_queue name q) Queue.PEnter t hl lpc []) q /\
  q_ready ids (map_queue name q).
Proof.
  intros [Hq Hmap He Hs Hw Hall]. split.
  - split; simpl; try done. by rewrite He.
  - split; [done|]. intros id Hid. destruct (Hall id Hid) as (w & Hw' & <-). simpl. by rewrite lookup_fmap, Hw'.
Qed.

Lemma side_sender hq ws q X n :
  side_new hq ws q -> nz X = [] -> top_pos ids n -> sender (map_queue name q) Queue.PEnter [] X n.
Proof.
  intros Hn HX Hp. split.
  - right. split; [by intros []|]. simpl. by rewrite (sn_empty _ _ _ Hn), app_nil_r.
  - intros _. simpl. by rewrite (sn_sorted _ _ _ Hn).
Qed.

(** The state in which all messages of the handshake are on the websockets, and
    the server has read none. *)
Lemma up_begin (Q : inv_on) hq ws q t hl :
  side_new hq ws q -> m ∈ ids -> pm_wf hl -> pm_go_ok hl -> (forall id, id ∈ ids -> pm_map hl !! id = None) ->
  (forall id, id ∈ ids -> omap (item_of id) (wire t (ws_index ids id)) = due ids m addr [] id) ->
  Q (map_queue name q) Queue.PEnter [] ->
  up_inv ids m addr qq name Q (mkDir hq ws Queue.PEnter t hl Link.PEnter []) [].
Proof.
  intros Hn Hm Hwf Hok Hno Ht HQ. destruct (side_dir_sys hq ws q t hl Link.PEnter Hn) as [Hd Hr]. split; simpl.
  - eexists _, q, []. split; [exact Hd|]. simpl. split_and!; [done|..|done].
    + intros [|x pre] y post E; simpl in E; discriminate.
    + done.
    + eapply side_sender; [done|done|apply top_pos_0].
    + intros id Hid. unfold lane, lane_items. rewrite Hno by done. by rewrite (pending_items ids id), Ht, due_no_chunks.
  - apply links_run_start; auto.
  - intros id Hid. exists []. by rewrite Ht, app_nil_r.
  - intros id Hid p l Hp. rewrite Hno in Hp by done. done.
  - done.
Qed.
End side.

(** * The whole way *)

Section upstream_theorem.
Context {K : Ksuid} `{!KsuidText K}.
Implicit Types (c : client) (sv : server) (t : wires).

(** The IDs of the client's writers. *)
Definition writer_name c (m : KSUID) (w : nat) : KSUID := default m (w_Id <$> cl_writers c !! w).

(** The direction when [transData] waits: its messages are on the websockets,
    behind what was there before, and the server has a hub of links. *)
Definition up_start c (out : list (nat * json)) t (hl : LinkHub) : dir (W := nat) :=
  mkDir (clientQueueHub c) (fun w => cl_writers c !! w) Queue.PEnter (give out t) hl Link.PEnter [].

Lemma up_start_inv (Q : inv_on) ids m addr conn c qq oo t hl :
  NoDup ids -> head ids = Some m -> client_ready ids m conn c qq oo ->
  pm_wf hl -> pm_go_ok hl -> (forall id, id ∈ ids -> pm_map hl !! id = None) ->
  (forall id, id ∈ ids -> omap (item_of id) (wire t (ws_index ids id)) = []) ->
  (forall q, pm_heap (clientQueueHub c) !! qq = Some q -> Q (map_queue (writer_name c m) q) Queue.PEnter []) ->
  up_inv ids m addr qq (writer_name c m) Q
    (up_start c (hello_messages 0 m ids ++ [(0, marshal_message (est_message m None addr (Some ids)))]) t hl) [].
Proof.
  intros Hnd Hm [(q & Hqq & Hq & Hsort & [Hempty _] & Hw1 & Hw2) _] Hwf Hok Hno Ht HQ.
  assert (forall w k id, cl_writers c !! w = Some (NewWebSocketWriter k id) -> writer_name c m w = id) as Hname.
  { intros w k id Hx. unfold writer_name. by rewrite Hx. }
  apply (up_begin _ _ _ _ _ _ _ _ q); [|by apply head_Some_elem_of|done..| |by apply HQ].
  - split; [done|congruence|by rewrite Hempty|done|..].
    + intros id w Hw. destruct (Hw2 id w Hw) as (k & Hk & Hx). exists (NewWebSocketWriter k id). simpl.
      rewrite (Hname w k id Hx). by rewrite (ws_index_lookup ids k id Hnd Hk).
    + intros id [k Hk]%list_elem_of_lookup. destruct (Hw1 k id Hk) as (w & Hw & Hx). exists w.
      by rewrite (Hname w k id Hx).
  - intros id [k Hk]%list_elem_of_lookup. rewrite give_items, Ht by (by eapply list_elem_of_lookup_2).
    rewrite (ws_index_lookup ids k id Hnd Hk). by apply hello_items.
Qed.
End upstream_theorem.
