(* ===== verification/Downstream.v ===== *)
(** From the server to the client: a proxied connection from its first message.

    When [transData] waits, the client's links are complete and its [Send] reads
    from them; the server's queue is put together by the hello messages, which
    come on several websockets, and the establish message, and CopyBuffer writes
    to it as soon as the target is dialled.  [down_server] and [down_others] are
    this phase; it ends when the [Send] of the queue is started, and from then on
    the connection is a direction in the sense of Direction.v.  Opening.v uses the
    invariant [down_inv]. *)
From S2P Require Import Prelude GoChan Pipe RoundRobin PtrMap Queue QueueHub Link Starts Striping StripingRun Base64 Json.
From S2P Require Import Messages Hub Server Handshake Client Wire Direction Session.

Abbreviation hs_op := (QueueHub.handshake (W := webSocketWriter)).

Section downstream.
Context {K : Ksuid} `{!KsuidText K}.

(** The connections, the master's ID and the address; the server's number for
    each websocket; the pointer of the client's master link. *)
Context (ids : list KSUID) (m : KSUID) (addr : string) (hub_of : nat -> nat) (oo : nat).

Definition hub_index (id : KSUID) : nat := hub_of (ws_index ids id).

#[local] Hint Extern 0 (Transport wires) => exact (wire_transport hub_index) : typeclass_instances.

(** What other connections do to the server's hub of queues. *)
Definition queue_kept (h h' : QueueHub webSocketWriter) : Prop :=
  pm_wf h' /\ pm_go_ok h' /\ pm_map h' !! m = pm_map h !! m /\
  forall p, pm_map h !! m = Some p -> pm_heap h' !! p = pm_heap h !! p /\ (p ∈ pm_go h' <-> p ∈ pm_go h).

(** The server's steps in this phase, with the steps of the handshake that it has
    taken. *)
Inductive down_server : dir (W := webSocketWriter) * list hs_op -> dir (W := webSocketWriter) * list hs_op -> Prop :=
  (* a hello message is read *)
  | dn_hello now sv ws qpc t hl lpc inp ops k id :
      (k, id) ∈ numbered 0 ids -> id ∉ hs_added ops ->
      down_server (mkDir (serverQueueHub sv) ws qpc t hl lpc inp, ops)
                  (mkDir (serverQueueHub (dispatched now (hub_of k) (hello_json m id) sv)) ws qpc t hl lpc inp,
                   ops ++ [QueueHub.HAdd id (NewWebSocketWriter (hub_of k) id)])
  (* the establish message is read *)
  | dn_est now sv ws qpc t hl lpc inp ops :
      down_server (mkDir (serverQueueHub sv) ws qpc t hl lpc inp, ops)
                  (mkDir (serverQueueHub (dispatched now (hub_of 0) (est_json ids m addr) sv)) ws qpc t hl lpc inp,
                   ops ++ [QueueHub.HSort])
  (* [establish], which the establish message has started, calls [TrySend] *)
  | dn_try hq ws qpc t hl lpc inp ops :
      QueueHub.HSort ∈ ops ->
      down_server (mkDir hq ws qpc t hl lpc inp, ops)
                  (mkDir (fst (QueueHub.TrySend m hq)) ws qpc t hl lpc inp, ops ++ [QueueHub.HTry])
  (* CopyBuffer: a [queue.Write] or [queue.WriteEOF] completes *)
  | dn_write hq ws qpc t hl lpc inp ops p q b c :
      pm_map hq !! m = Some p -> pm_heap hq !! p = Some q -> no_eof inp -> written b ->
      chan_send (q_buffer q) b = SendOk c ->
      down_server (mkDir hq ws qpc t hl lpc inp, ops)
                  (mkDir (pm_update p (fun _ => set_q_buffer c q) hq) ws qpc t hl lpc (inp ++ [b]), ops).

(** The other connections. *)
Inductive down_others : dir (W := webSocketWriter) * list hs_op -> dir (W := webSocketWriter) * list hs_op -> Prop :=
  | dn_others hq ws qpc t hl lpc inp ops hq' t' hl' :
      queue_kept hq hq' ->
      other_step ids oo (mkSys (NewQueue 0 m) Queue.PEnter t hl lpc inp)
                        (mkSys (NewQueue 0 m) Queue.PEnter t' hl' lpc inp) ->
      down_others (mkDir hq ws qpc t hl lpc inp, ops) (mkDir hq' ws qpc t' hl' lpc inp, ops).

(** ** The invariant *)

(** The hello messages register the writers of their websockets. *)
Definition down_ops (ops : list hs_op) : Prop :=
  forall id w, QueueHub.HAdd id w ∈ ops -> exists k, ids !! k = Some id /\ w = NewWebSocketWriter (hub_of k) id.

(** [Inv] is what is known of the system of Striping.v, whose [Send] of the queue
    has not been started. *)
Record down_inv (Inv : sys (T := wires) -> Prop) (d : dir (W := webSocketWriter)) (ops : list hs_op) : Prop := {
  di_sys : exists q, Inv (mkSys q Queue.PEnter (d_wires d) (d_links d) (d_lpc d) (d_in d)) /\
    q_buffer q = queue_buffer m (d_queues d) /\ Forall written (chan_items (q_buffer q));
  di_queues : queues_run m ids ops (d_queues d);
  di_ops : down_ops ops;
  di_writers : d_writers d = Some /\ d_qpc d = Queue.PEnter;
  di_wait : queue_new (fun _ => True) m (d_queues d);
}.

(** What the steps of the server and of other connections need of [Inv]. *)
Record down_closed (Inv : sys (T := wires) -> Prop) : Prop := {
  dc_write b s s' : Inv s -> sys_exec ids m oo (ActWrite b) s = Some s' -> Inv s';
  dc_other s s' : Inv s -> other_step ids oo s s' -> Inv s';
}.

Context (Hnd : NoDup ids) (Hm : m ∈ ids).

Lemma down_handshake (Inv : sys (T := wires) -> Prop) now hq qpc ws t hl lpc inp ops op :
  down_inv Inv (mkDir hq ws qpc t hl lpc inp) ops -> queue_may ids ops op ->
  (forall id w, op = QueueHub.HAdd id w -> exists k, ids !! k = Some id /\ w = NewWebSocketWriter (hub_of k) id) ->
  down_inv Inv (mkDir (QueueHub.hs_step now m ids hq op) ws qpc t hl lpc inp) (ops ++ [op]).
Proof using Type*.
  intros [(q & Hs & Hb & Hwr) Hqs Hops Hws Hwait] Hmay Hop. simpl in *. split; simpl; try done.
  - exists q. split_and!; [done| |done].
    by rewrite (queue_step_buffer now m ids ops) by apply Hqs.
  - by apply queues_run_step.
  - intros id w [Hin|Hin%list_elem_of_singleton]%elem_of_app; [by apply Hops|by apply Hop].
  - by apply hs_step_new_queue.
Qed.

Lemma down_write (Inv : sys (T := wires) -> Prop) hq ws qpc t hl lpc inp ops p q b c :
  down_closed Inv ->
  pm_map hq !! m = Some p -> pm_heap hq !! p = Some q -> no_eof inp -> written b ->
  chan_send (q_buffer q) b = SendOk c ->
  down_inv Inv (mkDir hq ws qpc t hl lpc inp) ops ->
  down_inv Inv (mkDir (pm_update p (fun _ => set_q_buffer c q) hq) ws qpc t hl lpc (inp ++ [b])) ops.
Proof using Type*.
  intros Hcl Hp Hq Hno Hb Hc [(q0 & Hs & Hb0 & Hwr) Hqs Hops Hws Hwait]. simpl in *.
  unfold queue_buffer, pm_deref in Hb0. rewrite Hp, Hq in Hb0.
  split; simpl; try done.
  - rewrite <- Hb0 in Hc. exists (set_q_buffer c q0). split_and!.
    + apply (dc_write _ Hcl b _ _ Hs). simpl. by rewrite decide_True, Hc.
    + unfold queue_buffer, pm_deref. simpl. by rewrite Hp, list_lookup_alter_eq, Hq.
    + simpl. apply chan_send_inv in Hc as (_ & _ & -> & _). apply Forall_app. by repeat constructor.
  - pose proof Hqs as [_ _ _ [Hwf Hok] _]. apply (queues_run_keep _ _ _ hq); [done| |by apply pm_go_ok_update|done|].
    + apply pm_wf_update; [|done]. intros v Hv. simplify_eq. simpl.
      by apply chan_send_inv in Hc as (_ & -> & _).
    + intros p' q' Hp' Hq'. simplify_eq. split; [done|]. simpl. rewrite list_lookup_alter_eq, Hq. by eexists.
  - intros p' Hp'. simpl in *. simplify_eq. exists (set_q_buffer c q). rewrite list_lookup_alter_eq, Hq.
    destruct (Hwait p Hp) as (q' & ? & _ & ?). by simplify_eq.
Qed.

Lemma down_server_inv (Inv : sys (T := wires) -> Prop) x x' :
  down_closed Inv -> down_server x x' -> down_inv Inv (fst x) (snd x) -> down_inv Inv (fst x') (snd x').
Proof using Type*.
  intros Hcl. destruct 1 as [now sv ws qpc t hl lpc inp ops k id Hk Hno|now sv ws qpc t hl lpc inp ops|hq ws qpc t hl lpc inp ops Hs
    |hq ws qpc t hl lpc inp ops p q b c Hp Hq Hno Hb Hc]; simpl; intros Hinv.
  - pose proof (sv_hs_queue now m ids sv (SHi (hub_of k) id)) as E. simpl in E. fold (hello_json m id) in E.
    rewrite E. apply elem_of_numbered in Hk.
    apply (down_handshake Inv now _ _ _ _ _ _ _ _ (QueueHub.HAdd id (NewWebSocketWriter (hub_of k) id))); [done| |].
    + split; [by eapply list_elem_of_lookup_2|done].
    + intros id' w [= <- <-]. by exists k.
  - pose proof (sv_hs_queue now m ids sv (SEst (hub_of 0) addr)) as E. simpl in E. fold (est_json ids m addr) in E.
    rewrite E. by apply (down_handshake Inv now _ _ _ _ _ _ _ _ QueueHub.HSort).
  - by apply (down_handshake Inv 0 _ _ _ _ _ _ _ _ QueueHub.HTry).
  - by eapply down_write.
Qed.

(** The client takes a step that keeps [Inv], whatever the queue. *)
Lemma down_client (Inv Inv' : sys (T := wires) -> Prop) d d' ops :
  dir_recv hub_index ids m oo d d' ->
  (forall q, Inv (mkSys q Queue.PEnter (d_wires d) (d_links d) (d_lpc d) (d_in d)) ->
             Inv' (mkSys q Queue.PEnter (d_wires d') (d_links d') (d_lpc d') (d_in d'))) ->
  down_inv Inv d ops -> down_inv Inv' d' ops.
Proof using Type*.
  intros Hr Hi [(q & Hs & Hb & Hwr) Hqs Hops Hws Hwait].
  destruct (dir_recv_sim _ _ _ _ _ _ q Queue.PEnter Hr) as (_ & Eq & Ew & Ep).
  split; rewrite ?Eq, ?Ew, ?Ep; try done. exists q. split_and!; [by apply Hi|done..].
Qed.

Lemma down_others_inv (Inv : sys (T := wires) -> Prop) x x' :
  down_closed Inv -> down_others x x' -> down_inv Inv (fst x) (snd x) -> down_inv Inv (fst x') (snd x').
Proof using Type*.
  intros Hcl. destruct 1 as [hq ws qpc t hl lpc inp ops hq' t' hl' (Hwf & Hok & Em & Hk) Ho]. simpl.
  intros [(q & Hs & Hb & Hwr) Hqs Hops Hws Hwait]. simpl in *.
  inversion Ho as [? ? ? ? ? ? ? ? Ht Hwf' Hm' Hp']; simplify_eq.
  split; simpl; try done.
  - exists q. split_and!; [by eapply (dc_other _ Hcl); [done|by constructor]| |done].
    rewrite Hb. unfold queue_buffer, pm_deref. rewrite Em.
    destruct (pm_map hq !! m) as [p|]; [|done]. by destruct (Hk p eq_refl) as [-> _].
  - apply (queues_run_keep _ _ _ hq); [done..|]. intros p q' Hp Hq'.
    destruct (Hk p Hp) as [E Hg]. split; [done|]. exists q'. by rewrite E.
  - intros p. rewrite Em. intros Hp. destruct (Hk p Hp) as [-> _]. by apply Hwait.
Qed.

(** Any step keeps what Striping.v shows. *)
Definition safe (out0 : bytes) (s : sys (T := wires)) : Prop := exists cn, sys_inv ids m oo out0 s cn.

Lemma safe_step out0 s s' : safe out0 s -> sys_step ids m oo s s' -> safe out0 s'.
Proof using Type*. intros [cn Hs] Hstep. by eapply sys_step_inv. Qed.

(** The queue of an invariant state may be another one with the same content. *)
Lemma sys_inv_queue out0 q q' (t : wires) h lpc inp cn :
  sys_inv ids m oo out0 (mkSys q Queue.PEnter t h lpc inp) cn -> q_ready ids q' ->
  chan_items (q_buffer q') = chan_items (q_buffer q) ->
  sys_inv ids m oo out0 (mkSys q' Queue.PEnter t h lpc inp) cn.
Proof.
  intros [[Hqs Hqw] Hwf Hme Hma Heof Hst] [Hs Hw] Hi. split; simpl in *; try done.
  destruct Hst as [(C & P & k & [Hmaps Hout [Hf Hp] Hl Hpos])|[Hd|Hf]].
  - left. exists C, P, k. split; simpl in *; try done. split.
    + unfold flow in *. by rewrite Hi.
    + intros Ho. specialize (Hp Ho). simpl in *. by rewrite Hs, <- Hqs.
  - right. left. destruct Hd as (C & [H1 H2 H3 H4]). exists C. by split.
  - right. right. destruct Hf as [H1 H2]. by split.
Qed.

(** When the [Send] of the queue is started. *)
Lemma down_started (Inv : sys (T := wires) -> Prop) d ops qq :
  down_inv Inv d ops -> pm_map (d_queues d) !! m = Some qq -> qq ∈ pm_go (d_queues d) ->
  exists q q0, dir_sys hub_index m qq w_Id d
      (mkSys (map_queue w_Id q) Queue.PEnter (d_wires d) (d_links d) (d_lpc d) (d_in d)) q /\
    Inv (mkSys q0 Queue.PEnter (d_wires d) (d_links d) (d_lpc d) (d_in d)) /\
    q_ready ids (map_queue w_Id q) /\ q_buffer q = q_buffer q0 /\ q_status q = StaWait /\
    (forall id w, q_writers q !! id = Some w -> exists k, w = NewWebSocketWriter (hub_of k) id).
Proof using Type*.
  intros [(q0 & Hs & Hb & Hwr) [Hinv [Hnda _] _ _ Hgo] Hops [Hws Hpc] Hwait] Hqq Hin.
  apply Hgo in Hin as [Hperm Hsort]; [|done].
  unfold QueueHub.hs_inv in Hinv. rewrite Hqq in Hinv. destruct Hinv as (q & Hq & Hw & [[_ Hqs]|[? _]]); [|done].
  unfold queue_buffer, pm_deref in Hb. rewrite Hqq, Hq in Hb.
  assert (forall id w, q_writers q !! id = Some w -> exists k, ids !! k = Some id /\ w = NewWebSocketWriter (hub_of k) id)
    as Hreg.
  { intros id w. rewrite Hw. intros Hid%hs_writers_from. by apply Hops. }
  exists q, q0. split_and!; [| |split; [done|]|done| |].
  - split; simpl; try done.
    + by rewrite Hpc.
    + rewrite Hpc. simpl. by rewrite <- Hb.
    + intros id w Hid. destruct (Hreg id w Hid) as (k & Hk & ->). unfold good_writer. rewrite Hws.
      eexists. split_and!; [done|done|]. simpl. unfold hub_index. by rewrite (ws_index_lookup ids k id Hnd Hk).
    + rewrite Hpc. done.
    + intros p Hp. congruence.
  - done.
  - intros id Hid. simpl. rewrite lookup_fmap.
    assert (exists w, q_writers q !! id = Some w) as [w Hidw].
    { apply elem_of_dom. rewrite Hw, hs_writers_dom, elem_of_list_to_set. by rewrite Hperm. }
    rewrite Hidw. simpl. by destruct (Hreg id w Hidw) as (k & _ & ->).
  - destruct (Hwait qq Hqq) as (q' & ? & _ & ?). by simplify_eq.
  - intros id w Hid. destruct (Hreg id w Hid) as (k & _ & ->). by exists k.
Qed.
End downstream.

(** * The whole way *)

Section downstream_theorem.
Context {K : Ksuid} `{!KsuidText K}.
Implicit Types (c : client) (t : wires).

(** The direction when [transData] waits: the client's links are complete, and
    the server has a hub of queues. *)
Definition down_start c t (hq : QueueHub webSocketWriter) : dir (W := webSocketWriter) :=
  mkDir hq Some Queue.PEnter t (clientLinkHub c) Link.PEnter [].

Lemma down_start_inv (Inv : sys (T := wires) -> Prop) ids m hub_of conn c qq oo t hq :
  NoDup ids -> m ∈ ids -> client_ready ids m conn c qq oo -> tc_eof conn = false ->
  pm_wf hq -> pm_go_ok hq -> pm_map hq !! m = None ->
  (forall id, id ∈ ids -> omap (chunk_of id) (wire t (hub_index ids hub_of id)) = []) ->
  (forall s, @sys_init _ _ (wire_transport (hub_index ids hub_of)) ids m oo conn s ->
     q_status (s_q s) = StaWait -> chan_closed (q_buffer (s_q s)) = false ->
     (forall id, id ∈ ids -> waiting (s_hub s) id) -> Inv s) ->
  down_inv ids m hub_of Inv (down_start c t hq) [].
Proof.
  intros Hnd Hm [_ (l & Hoo & Hl & Hsort & Hconn & Hwf & Hnew & Hlinks)] Heof Hwq Hok Hno Ht HI. split; simpl.
  - exists (mkQueue m makeBuffer (list_to_map (map (fun id => (id, id)) ids)) ids StaWait (make_chan 0) 0).
    split_and!; [|by unfold queue_buffer, pm_deref; rewrite Hno|by constructor].
    apply HI; [|done..|]; [split; simpl; try done|].
    + split_and!; [done..|]. intros id Hid. apply elem_of_list_to_map_1.
      * rewrite <- list_fmap_compose. simpl. by rewrite list_fmap_id.
      * apply list_elem_of_fmap. by exists id.
    + unfold sort_at, conn_at. rewrite Hl. simpl. by rewrite Hsort, Hconn.
    + intros id Hid. destruct (Hlinks id Hid) as [p Hp]. destruct (Hnew id p Hid Hp) as (l' & Hl' & Hb & Hst).
      exists p, makeBuffer. unfold buf_at, status_at. rewrite Hl'. simpl. by rewrite Hb, Hst.
    + intros id Hid p l' Hp Hl'. simpl in Hp, Hl'. destruct (Hnew id p Hid Hp) as (l1 & Hl1 & Hb & Hst). rewrite Hl1 in Hl'. injection Hl' as <-.
      rewrite Hb. split; [done|simpl; lia].
  - by apply queues_run_start.
  - by intros id w ?%not_elem_of_nil.
  - done.
  - intros p. congruence.
Qed.
End downstream_theorem.
