(* ===== verification/ClientProc.v ===== *)
(** The client process (wss/wssocks_client.go, wss/websocket_client.go): all of
    its goroutines on the state that they share.

    Client.v has [transData] as one function.  Here each call of it is a
    goroutine, whose steps are those between two accesses to something shared,
    with the goroutine that copies from its SOCKS connection; the loops that
    listen to the websockets, the [Send]s of the queues and links and the heart
    beat are other goroutines.  [cp_exec] is one step of any of them, with the
    messages that it gives to the websockets.  ClientSafe.v proves what holds in
    every state that such steps lead to. *)
From S2P Require Import Prelude GoChan Pipe RoundRobin PtrMap Queue QueueHub Link Starts Sends Striping Base64 Json.
From S2P Require Import Messages Hub Server Client Wire Direction.

Section client_proc.
Context {K : Ksuid} `{!KsuidText K}.

(** * The goroutine of [transData] *)

(** Its program points, named after what comes next; [i] is the index of the
    loop over the websockets, and a [TUndo] has the deferred calls that are
    left: websocket, ID and writer of each, last first. *)
Inductive call_pc :=
  | TLoop (i : nat)                               (* w.NewProxy, or the end of the loop *)
  | TSay (i : nat) (id : KSUID)                   (* p.SayID *)
  | TWriter (i : nat) (id : KSUID)                (* clientQueueHub.Add *)
  | TLink (i : nat) (id : KSUID)                  (* clientLinkHub.Add *)
  | TEst                                          (* masterProxy.Establish *)
  | TGetQueue                                     (* clientQueueHub.Get *)
  | TSort (qq : nat)                              (* qq.SetSort, and the two go statements *)
  | TGetLink                                      (* clientLinkHub.Get *)
  | TConn (oo : nat)                              (* oo.SetConn, oo.SetSort, go oo.Send; only its
                                                     [Send] reads the connection, so nothing comes
                                                     between the first two that matters *)
  | TWaiting (oo : nat)                              (* oo.Wait *)
  | TRemove (err : option error)                  (* deferred: remove(masterID) *)
  | TUndo (l : list (nat * KSUID * nat)) (err : option error)
                                                  (* deferred: writer.CloseWsWriter *)
  | TUndoProxy (i : nat) (id : KSUID) (l : list (nat * KSUID * nat)) (err : option error)
                                                  (* deferred: w.RemoveProxy *)
  | TEnd (err : option error).                    (* it has returned *)

(** The goroutine that copies from the SOCKS connection to the queue [qq]. *)
Inductive copy_pc := CNone | CCopy (qq : nat) | CTell | CDone.

(** A call of [transData]; its variables [status], [masterID] and [sorted] are
    the [trans] of the same index, the data of [firstSendData] is nil
    ([EstablishData] in Socks5.v). *)
Record call := mkCall {
  ca_conn : TCPConn;
  ca_addr : string;
  ca_pc : call_pc;
  ca_writers : list nat;                          (* the writers of its websockets, in order *)
  ca_copy : copy_pc;
}.

Definition set_ca_pc (pc : call_pc) (c : call) : call :=
  mkCall (ca_conn c) (ca_addr c) pc (ca_writers c) (ca_copy c).
Definition add_ca_writer (w : nat) (c : call) : call :=
  mkCall (ca_conn c) (ca_addr c) (ca_pc c) (ca_writers c ++ [w]) (ca_copy c).
Definition set_ca_copy (pc : copy_pc) (c : call) : call :=
  mkCall (ca_conn c) (ca_addr c) (ca_pc c) (ca_writers c) pc.

Definition new_trans : trans := mkTrans "" None [].
Definition trans_at (t : nat) (s : client) : trans := default new_trans (cl_trans s !! t).

(** What environment decides in a step: the result of [ksuid.New], the time, a
    message that the websocket loses (it then reports an error), the result of
    the establish message, and how [Wait] returns. *)
Inductive call_ev :=
  | CeStep
  | CeNew (id : KSUID)
  | CeSaid (lost : bool)
  | CeAdd (now : Z)
  | CeEst (err : option error) (lost : bool)
  | CeWoken (signal : bool).

Definition unless (lost : bool) {A} (l : list A) : list A := if lost then [] else l.

(** The deferred calls of the loop, the last one first. *)
Definition deferred (ids : list KSUID) (writers : list nat) : list (nat * KSUID * nat) :=
  rev (zip (zip (seq 0 (length ids)) ids) writers).

(** One step of the call [t]; the second result is the call itself. *)
Definition call_step (t : nat) (ev : call_ev) (s : client) (c : call) :
    outcome (client * call * list (nat * json)) :=
  let tr := trans_at t s in
  let masterID := default ksuid_Nil (tr_master tr) in
  let go pc := Finished (s, set_ca_pc pc c, []) in
  match ca_pc c, ev with
  | TLoop i, CeNew id =>
      if Nat.ltb i (length (cl_wsc s)) then
        let s1 := NewProxy i t id s in
        let m := if Nat.eqb i 0 then id else masterID in
        Finished (set_ctrans (<[t := mkTrans (tr_status tr) (Some m) (tr_sorted tr ++ [id])]> (cl_trans s1)) s1,
                  set_ca_pc (TSay i id) c, [])
      else Blocked
  | TLoop i, CeStep => if Nat.ltb i (length (cl_wsc s)) then Blocked else go TEst
  | TSay i id, CeSaid lost =>
      Finished (s, set_ca_pc (TWriter i id) c, unless lost (map (pair i) (fst (SayID None id masterID))))
  | TWriter i id, CeAdd now =>
      let writer := length (cl_writers s) in
      let s1 := set_cwriters (cl_writers s ++ [NewWebSocketWriter i id]) s in
      Finished (set_cqueues (QueueHub.Add now masterID id writer (clientQueueHub s1)) s1,
                set_ca_pc (TLink i id) (add_ca_writer writer c), [])
  | TLink i id, CeAdd now =>
      Finished (set_clinks (Link.Add now id masterID (clientLinkHub s)) s, set_ca_pc (TLoop (S i)) c, [])
  | TEst, CeEst err lost =>
      match tr_master tr with
      | None => Panicked
      | Some m =>
          if lost && bool_decide (err = None) then Blocked
          else
            let out := unless lost (map (pair 0) (fst (Establish err m None (ca_addr c) (Some (tr_sorted tr))))) in
            Finished (s, set_ca_pc (match err with Some e => TRemove (Some e) | None => TGetQueue end) c, out)
      end
  | TGetQueue, CeStep =>
      go (match QueueHub.Get masterID (clientQueueHub s) with
          | Some qq => TSort qq
          | None => TRemove (Some (errors_New "queue not found"))
          end)
  | TSort qq, CeStep =>
      Finished (set_cqueues (pm_start qq (pm_update qq (Queue.SetSort (tr_sorted tr)) (clientQueueHub s))) s,
                set_ca_copy (CCopy qq) (set_ca_pc TGetLink c), [])
  | TGetLink, CeStep =>
      go (match Link.Get masterID (clientLinkHub s) with
          | Some oo => TConn oo
          | None => TRemove (Some (errors_New "link not found"))
          end)
  | TConn oo, CeStep =>
      Finished (set_clinks (pm_start oo (pm_update oo
                  (fun l => Link.SetSort (tr_sorted tr) (Link.SetConn (ca_conn c) l)) (clientLinkHub s))) s,
                set_ca_pc (TWaiting oo) c, [])
  | TWaiting oo, CeWoken signal =>
      match pm_heap (clientLinkHub s) !! oo with
      | Some l => if done_ready signal (l_done l) then go (TRemove None) else Blocked
      | None => Blocked
      end
  | TRemove err, CeStep =>
      match remove t masterID s with
      | Some s1 => Finished (s1, set_ca_pc (TUndo (deferred (tr_sorted tr) (ca_writers c)) err) c, [])
      | None => Panicked
      end
  | TUndo [] err, CeStep => go (TEnd err)
  | TUndo ((i, id, w) :: l) err, CeStep =>
      Finished (set_cwriters (alter CloseWsWriter w (cl_writers s)) s, set_ca_pc (TUndoProxy i id l err) c, [])
  | TUndoProxy i id l err, CeStep => Finished (wsc_RemoveProxy i id s, set_ca_pc (TUndo l err) c, [])
  | _, _ => Blocked
  end.

(** * The process *)

(** The client with its calls, and where each started [Send] stands. *)
Record cproc := mkProc {
  pr_client : client;
  pr_calls : list call;
  pr_qsends : gmap nat (Queue.send_pc nat);
  pr_lsends : gmap nat Link.send_pc;
}.

Definition set_pr_client (c : client) (s : cproc) : cproc :=
  mkProc c (pr_calls s) (pr_qsends s) (pr_lsends s).
Definition set_call (t : nat) (c : call) (s : cproc) : cproc :=
  mkProc (pr_client s) (<[t := c]> (pr_calls s)) (pr_qsends s) (pr_lsends s).

(** With [n] open websockets, before the first connection. *)
Definition cproc_init (n : nat) : cproc :=
  mkProc (mkClient NewQueueHub NewLinkHub [] [] (replicate n (mkWSC ∅ false false))) [] ∅ ∅.

Inductive cp_ev :=
  | PNew (conn : TCPConn) (addr : string)         (* a call of transData *)
  | PCall (t : nat) (ev : call_ev)
  | PCopy (t : nat) (b : buffer)                  (* a chunk is written to the queue *)
  | PCopied (t : nat) (err : option error)        (* CopyBuffer returns *)
  | PTell (t : nat) (lost : bool)                 (* masterWsc.TellClose *)
  | PRead (i : nat) (we : Link.write_env) (read : error + option json)
                                                  (* a turn of ListenIncomeMsg *)
  | PLinkWrite (p : nat) (b : buffer)             (* a listener that had to wait in link.Write *)
  | PQueueSend (g : nat) (ev : Queue.send_ev)     (* queue.Send, with nothing to write *)
  | PQueueWrote (g : nat) (ws_err : option error) (lost : bool)
                                                  (* queue.Send calls a writer *)
  | PLinkSend (g : nat) (ev : Link.send_ev)
  | PBeat (i : nat) (lost : bool)                 (* the heart beat on a websocket *)
  | PClose (i : nat) (listening : bool).          (* WebSocketClient.Close *)

(** The IDs that have been made. *)
Definition issued_ids (s : client) : list KSUID := concat (map tr_sorted (cl_trans s)).

(** [ksuid.New] does not give an ID twice. *)
Definition new_id_ok (ev : call_ev) (s : client) : bool :=
  match ev with CeNew id => bool_decide (id ∉ issued_ids s) | _ => true end.

Definition from_client (s : cproc) (r : outcome client) : outcome (cproc * list (nat * json)) :=
  match r with
  | Finished c => Finished (set_pr_client c s, [])
  | Blocked => Blocked
  | Panicked => Panicked
  end.

Definition of_option {A} (r : option A) : outcome A := match r with Some x => Finished x | None => Blocked end.

Definition queue_send (g : nat) (ev : Queue.send_ev) (s : cproc) :
    option (cproc * option (nat * buffer)) :=
  let h := clientQueueHub (pr_client s) in
  p ← pm_go h !! g;
  q ← pm_heap h !! p;
  '(q', pc', out) ← Queue.Send_step q (pc_at (pr_qsends s) g) ev;
  Some (mkProc (set_cqueues (pm_update p (fun _ => q') h) (pr_client s)) (pr_calls s)
          (<[g := pc']> (pr_qsends s)) (pr_lsends s), out).

Definition link_send (g : nat) (ev : Link.send_ev) (s : cproc) : option cproc :=
  let h := clientLinkHub (pr_client s) in
  p ← pm_go h !! g;
  '(h', pc') ← Link.Send_step p h (pc_at (pr_lsends s) g) ev;
  Some (mkProc (set_clinks h' (pr_client s)) (pr_calls s) (pr_qsends s) (<[g := pc']> (pr_lsends s))).

(** The writer that the [Send] [g] is about to call, and its buffer. *)
Definition about_to_write (g : nat) (s : cproc) : option (webSocketWriter * buffer) :=
  match pc_at (pr_qsends s) g with
  | Queue.PWrite (Some w) _ b => x ← cl_writers (pr_client s) !! w; Some (x, b)
  | _ => None
  end.

Definition cp_exec (ev : cp_ev) (s : cproc) : outcome (cproc * list (nat * json)) :=
  let c := pr_client s in
  match ev with
  | PNew conn addr =>
      Finished (mkProc (set_ctrans (cl_trans c ++ [new_trans]) c)
                  (pr_calls s ++ [mkCall conn addr (TLoop 0) [] CNone]) (pr_qsends s) (pr_lsends s), [])
  | PCall t e =>
      match pr_calls s !! t with
      | Some ca =>
          if new_id_ok e c then
            match call_step t e c ca with
            | Finished (c', ca', out) => Finished (set_call t ca' (set_pr_client c' s), out)
            | Blocked => Blocked
            | Panicked => Panicked
            end
          else Blocked
      | None => Blocked
      end
  | PCopy t b =>
      match ca_copy <$> pr_calls s !! t with
      | Some (CCopy qq) =>
          from_client s (of_option (q ← pm_heap (clientQueueHub c) !! qq;
            match chan_send (q_buffer q) b with
            | SendOk ch => Some (set_cqueues (pm_update qq (set_q_buffer ch) (clientQueueHub c)) c)
            | _ => None
            end))
      | _ => Blocked
      end
  | PCopied t err =>
      match pr_calls s !! t with
      | Some ca =>
          match ca_copy ca with
          | CCopy qq => Finished (set_call t (set_ca_copy (match err with Some _ => CTell | None => CDone end) ca) s, [])
          | _ => Blocked
          end
      | None => Blocked
      end
  | PTell t lost =>
      match pr_calls s !! t with
      | Some ca =>
          match ca_copy ca with
          | CTell =>
              let m := default ksuid_Nil (tr_master (trans_at t c)) in
              Finished (set_call t (set_ca_copy CDone ca) s, unless lost (map (pair 0) (fst (TellClose None m))))
          | _ => Blocked
          end
      | None => Blocked
      end
  | PRead i we read =>
      if decide (Link.we_ops we = []) then
        match Listen_step we i read c with
        | Finished (c', _) => Finished (set_pr_client c' s, [])
        | Blocked => Blocked
        | Panicked => Panicked
        end
      else Blocked
  | PLinkWrite p b =>
      from_client s (of_option (l ← pm_heap (clientLinkHub c) !! p;
        match chan_send (l_buffer l) b with
        | SendOk ch => Some (set_clinks (pm_update p (set_l_buffer ch) (clientLinkHub c)) c)
        | _ => None
        end))
  | PQueueSend g e =>
      match queue_send g e s with Some (s', None) => Finished (s', []) | _ => Blocked end
  | PQueueWrote g ws_err lost =>
      match about_to_write g s with
      | Some (x, b) =>
          let '(out, e) := hand x ws_err b in
          if lost && bool_decide (ws_err = None) then Blocked
          else match queue_send g (Queue.EvWrote e) s with
               | Some (s', Some _) => Finished (s', unless lost (map (pair (w_WSC x)) out))
               | _ => Blocked
               end
      | None => Blocked
      end
  | PLinkSend g e => match link_send g e s with Some s' => Finished (s', []) | None => Blocked end
  | PBeat i lost =>
      if Nat.ltb i (length (cl_wsc c)) then Finished (s, unless lost [(i, marshal_message heartBeats)]) else Blocked
  | PClose i listening => Finished (set_pr_client (wsc_Close i listening c) s, [])
  end.

(** A run, with all the messages given to the websockets. *)
Fixpoint cp_run (evs : list cp_ev) (s : cproc) : outcome (cproc * list (nat * json)) :=
  match evs with
  | [] => Finished (s, [])
  | ev :: evs' =>
      match cp_exec ev s with
      | Finished (s1, out) =>
          match cp_run evs' s1 with
          | Finished (s2, out') => Finished (s2, out ++ out')
          | r => r
          end
      | r => r
      end
  end.

Definition cp_step (s s' : cproc) : Prop := exists ev out, cp_exec ev s = Finished (s', out).
End client_proc.

(** * A call that runs alone *)

Section alone.
Context {K : Ksuid} `{!KsuidText K}.
Implicit Types (s : client) (c : call) (evs : list call_ev).

(** Steps of the call [t] with no step of another goroutine in between. *)
Fixpoint call_run (t : nat) evs s c : outcome (client * call * list (nat * json)) :=
  match evs with
  | [] => Finished (s, c, [])
  | ev :: evs' =>
      match call_step t ev s c with
      | Finished (s1, c1, out) =>
          match call_run t evs' s1 c1 with
          | Finished (s2, c2, out') => Finished (s2, c2, out ++ out')
          | r => r
          end
      | r => r
      end
  end.

(** The [Send]s that make a step. *)
Lemma queue_send_some g ev (s s' : cproc) o :
  queue_send g ev s = Some (s', o) -> exists p q q' pc',
    pm_go (clientQueueHub (pr_client s)) !! g = Some p /\ pm_heap (clientQueueHub (pr_client s)) !! p = Some q /\
    Queue.Send_step q (pc_at (pr_qsends s) g) ev = Some (q', pc', o) /\
    s' = mkProc (set_cqueues (pm_update p (fun _ => q') (clientQueueHub (pr_client s))) (pr_client s)) (pr_calls s)
           (<[g := pc']> (pr_qsends s)) (pr_lsends s).
Proof.
  unfold queue_send. intros H. destruct (pm_go _ !! g) as [p|] eqn:Hg; [|done]. simpl in H.
  destruct (pm_heap _ !! p) as [q|] eqn:Hq; [|done]. simpl in H.
  destruct (Queue.Send_step q _ ev) as [[[q' pc'] o']|] eqn:E; [|done]. simpl in H. injection H as <- <-. by exists p, q, q', pc'.
Qed.

Lemma link_send_some g ev (s s' : cproc) :
  link_send g ev s = Some s' -> exists p h' pc',
    pm_go (clientLinkHub (pr_client s)) !! g = Some p /\
    Link.Send_step p (clientLinkHub (pr_client s)) (pc_at (pr_lsends s) g) ev = Some (h', pc') /\
    s' = mkProc (set_clinks h' (pr_client s)) (pr_calls s) (pr_qsends s) (<[g := pc']> (pr_lsends s)).
Proof.
  unfold link_send. intros H. destruct (pm_go _ !! g) as [p|] eqn:Hg; [|done]. simpl in H.
  destruct (Link.Send_step p _ _ ev) as [[h' pc']|] eqn:E; [|done]. simpl in H. injection H as <-. by exists p, h', pc'.
Qed.

Lemma call_run_app t evs1 evs2 s c s1 c1 out1 s2 c2 out2 :
  call_run t evs1 s c = Finished (s1, c1, out1) -> call_run t evs2 s1 c1 = Finished (s2, c2, out2) ->
  call_run t (evs1 ++ evs2) s c = Finished (s2, c2, out1 ++ out2).
Proof.
  revert s c out1. induction evs1 as [|ev evs1 IH]; intros s c out1 H1 H2; simpl in *; [by simplify_eq|].
  destruct (call_step t ev s c) as [[[sa ca] oa]| |]; [|done..].
  destruct (call_run t evs1 sa ca) as [[[sb cb] ob]| |] eqn:E; [|done..]. simplify_eq.
  rewrite (IH _ _ _ E H2). by rewrite <- app_assoc.
Qed.

Lemma call_run_then t evs1 evs2 s c s1 c1 out s2 c2 :
  call_run t evs1 s c = Finished (s1, c1, out) -> call_run t evs2 s1 c1 = Finished (s2, c2, []) ->
  call_run t (evs1 ++ evs2) s c = Finished (s2, c2, out).
Proof. intros H1 H2. rewrite <- (app_nil_r out). by eapply call_run_app. Qed.

Lemma call_run_panics t evs1 evs2 s c s1 c1 out :
  call_run t evs1 s c = Finished (s1, c1, out) -> call_run t evs2 s1 c1 = Panicked ->
  call_run t (evs1 ++ evs2) s c = Panicked.
Proof.
  revert s c out. induction evs1 as [|ev evs1 IH]; intros s c out H1 H2; simpl in *; [by simplify_eq|].
  destruct (call_step t ev s c) as [[[sa ca] oa]| |]; [|done..].
  destruct (call_run t evs1 sa ca) as [[[sb cb] ob]| |] eqn:E; [|done..]. simplify_eq.
  by rewrite (IH _ _ _ E H2).
Qed.

(** One turn of the loop over the websockets. *)
Definition turn_events (now : Z) (id : KSUID) : list call_ev := [CeNew id; CeSaid false; CeAdd now; CeAdd now].

Definition turn (now : Z) (t i : nat) (id : KSUID) s : client :=
  let tr := trans_at t s in
  let m := if Nat.eqb i 0 then id else default ksuid_Nil (tr_master tr) in
  let s1 := NewProxy i t id s in
  let s2 := set_ctrans (<[t := mkTrans (tr_status tr) (Some m) (tr_sorted tr ++ [id])]> (cl_trans s1)) s1 in
  let s3 := set_cwriters (cl_writers s2 ++ [NewWebSocketWriter i id]) s2 in
  let s4 := set_cqueues (QueueHub.Add now m id (length (cl_writers s2)) (clientQueueHub s3)) s3 in
  set_clinks (Link.Add now id m (clientLinkHub s4)) s4.

Definition turn_hi (t i : nat) (id : KSUID) s : list (nat * json) :=
  let m := if Nat.eqb i 0 then id else default ksuid_Nil (tr_master (trans_at t s)) in
  map (pair i) (fst (SayID None id m)).

Lemma trans_loop_cons now t i id ids s :
  trans_loop now t i (id :: ids) s =
    (fst (trans_loop now t (S i) ids (turn now t i id s)),
     turn_hi t i id s ++ snd (trans_loop now t (S i) ids (turn now t i id s))).
Proof. cbn [trans_loop]. fold trans_loop. by destruct (trans_loop now t (S i) ids _) as [s6 out] eqn:E. Qed.

Lemma turn_run now t i id s conn addr ws cp :
  i < length (cl_wsc s) -> t < length (cl_trans s) ->
  call_run t (turn_events now id) s (mkCall conn addr (TLoop i) ws cp) =
    Finished (turn now t i id s, mkCall conn addr (TLoop (S i)) (ws ++ [length (cl_writers s)]) cp, turn_hi t i id s).
Proof.
  intros Hi Ht. unfold turn_events. cbn [call_run]. unfold call_step at 1. cbn [ca_pc].
  destruct (Nat.ltb_spec i (length (cl_wsc s))) as [_|]; [|lia].
  unfold call_step, trans_at. cbn -[QueueHub.Add Link.Add SayID].
  rewrite !list_lookup_insert_eq by done. cbn -[QueueHub.Add Link.Add SayID].
  unfold turn_hi. by rewrite app_nil_r.
Qed.

Lemma call_loop now t ids i s conn addr ws cp :
  i + length ids <= length (cl_wsc s) -> t < length (cl_trans s) ->
  call_run t (concat (map (turn_events now) ids)) s (mkCall conn addr (TLoop i) ws cp) =
    Finished (fst (trans_loop now t i ids s),
              mkCall conn addr (TLoop (i + length ids)) (ws ++ seq (length (cl_writers s)) (length ids)) cp,
              snd (trans_loop now t i ids s)).
Proof.
  revert i s ws. induction ids as [|id ids IH]; intros i s ws Hlen Ht; simpl in Hlen.
  { simpl. by rewrite Nat.add_0_r, app_nil_r. }
  rewrite trans_loop_cons. cbn [map concat length fst snd].
  erewrite call_run_app; [|apply turn_run; [lia|done]|apply IH].
  - replace (length (cl_writers (turn now t i id s))) with (S (length (cl_writers s)))
      by (cbn; rewrite length_app; cbn; lia).
    rewrite <- app_assoc, Nat.add_succ_r. done.
  - cbn. rewrite length_alter. lia.
  - cbn. by rewrite length_insert.
Qed.

Lemma trans_undo_app (l1 l2 : list (nat * KSUID * nat)) s :
  trans_undo (l1 ++ l2) s = trans_undo l1 (trans_undo l2 s).
Proof. induction l1 as [|[[i id] w] l1 IH]; [done|]. cbn [app trans_undo]. by rewrite IH. Qed.

Lemma undo_run t (l : list (nat * KSUID * nat)) err s c :
  ca_pc c = TUndo (rev l) err ->
  exists evs c', call_run t evs s c = Finished (trans_undo l s, c', []) /\ ca_pc c' = TEnd err.
Proof.
  revert s c. induction l as [|[[i id] w] l IH] using rev_ind; intros s c Hpc.
  { exists [CeStep], (set_ca_pc (TEnd err) c). simpl in *. unfold call_step. by rewrite Hpc. }
  rewrite rev_unit in Hpc.
  destruct (IH (trans_undo [(i, id, w)] s) (set_ca_pc (TUndo (rev l) err) c) eq_refl) as (evs & c' & Hr & Hpc').
  exists ([CeStep; CeStep] ++ evs), c'. split; [|done].
  rewrite trans_undo_app. eapply (call_run_app t _ evs _ _ _ _ []); [|exact Hr].
  cbn [call_run]. unfold call_step at 1. rewrite Hpc. done.
Qed.

Lemma trans_loop_wsc now t i ids s : length (cl_wsc (fst (trans_loop now t i ids s))) = length (cl_wsc s).
Proof.
  revert i s. induction ids as [|id ids IH]; intros i s; [done|]. rewrite trans_loop_cons. cbn [fst].
  rewrite IH. cbn. apply length_alter.
Qed.

(** The steps after the loop. *)
Lemma call_opened t s i conn addr ws cp m est_err out err :
  length (cl_wsc s) <= i -> tr_master (trans_at t s) = Some m ->
  Establish est_err m None addr (Some (tr_sorted (trans_at t s))) = (out, err) ->
  call_run t [CeStep; CeEst est_err false] s (mkCall conn addr (TLoop i) ws cp) =
    Finished (s, mkCall conn addr (match err with Some e => TRemove (Some e) | None => TGetQueue end) ws cp,
              map (pair 0) out).
Proof.
  intros Hi Hm He. assert (err = est_err) as -> by (by injection He).
  cbn [call_run]. unfold call_step at 1. cbn [ca_pc].
  destruct (Nat.ltb_spec i (length (cl_wsc s))) as [|_]; [lia|]. unfold call_step. cbn -[Establish].
  rewrite Hm. cbn [ca_addr]. rewrite He. cbn. by rewrite app_nil_r.
Qed.

(** A call of [transData] that no other goroutine interferes with is the
    function [transData] of Client.v: its steps up to its wait (or to its early
    return, or its panic when there is no websocket) have the same effect and
    send the same messages, and its steps from then on are [trans_return]. *)
Theorem call_alone now ids conn addr est_err s :
  length ids = length (cl_wsc s) ->
  let t := length (cl_trans s) in
  (let s0 := set_ctrans (cl_trans s ++ [new_trans]) s in
   let c0 := mkCall conn addr (TLoop 0) [] CNone in
   match transData now ids conn None addr est_err s with
   | (s1, out, TPanic) => exists evs, call_run t evs s0 c0 = Panicked
   | (s1, out, r) => exists evs c1, call_run t evs s0 c0 = Finished (s1, c1, out) /\
       ca_pc c1 = match r with TReturn e => TRemove (Some e) | TPanic => TEst | TWait qq oo => TWaiting oo end
   end) /\
  (forall s1 s2 c1 err, ca_pc c1 = TRemove err ->
     let tr := trans_at t s1 in
     trans_return t (default ksuid_Nil (tr_master tr))
       (zip (zip (seq 0 (length (tr_sorted tr))) (tr_sorted tr)) (ca_writers c1)) s1 = Some s2 ->
     exists evs c2, call_run t evs s1 c1 = Finished (s2, c2, []) /\ ca_pc c2 = TEnd err).
Proof.
  intros Hlen t. split.
  2: { intros s1 s2 c1 err Hpc tr H. unfold trans_return in H.
       destruct (remove t _ s1) as [sr|] eqn:Hr; [|done]. simpl in H. injection H as <-.
       edestruct (undo_run t (zip (zip (seq 0 (length (tr_sorted tr))) (tr_sorted tr)) (ca_writers c1)) err sr
                   (set_ca_pc (TUndo (deferred (tr_sorted tr) (ca_writers c1)) err) c1) eq_refl)
         as (evs & c2 & Hrun & Hpc2).
       exists (CeStep :: evs), c2. split; [|done]. cbn [call_run]. unfold call_step at 1. rewrite Hpc.
       fold tr. rewrite Hr. fold tr. by rewrite Hrun. }
  intros s0 c0. assert (t < length (cl_trans s0)) as Ht by (cbn; rewrite length_app; cbn; lia).
  assert (length (cl_wsc s0) = length ids) as Hl by done.
  pose proof (call_loop now t ids 0 s0 conn addr [] CNone ltac:(rewrite Hl; lia) Ht) as Hloop.
  rewrite Nat.add_0_l, app_nil_l in Hloop.
  unfold transData. cbn [default bool_decide]. fold t. fold new_trans. fold s0.
  pose proof (trans_loop_wsc now t 0 ids s0) as Hwsc.
  destruct (trans_loop now t 0 ids s0) as [s1 out] eqn:Etl. cbn [fst snd] in *.
  rewrite bool_decide_eq_false_2 by (by intros H). fold (trans_at t s1).
  destruct (tr_master (trans_at t s1)) as [m|] eqn:Hm.
  2: { eexists. eapply (call_run_panics _ _ [CeStep; CeEst None false] _ _ _ _ _ Hloop).
       cbn [call_run]. unfold call_step at 1. cbn [ca_pc].
       destruct (Nat.ltb_spec (length ids) (length (cl_wsc s1))) as [|_]; [lia|].
       unfold call_step. cbn -[Establish]. by rewrite Hm. }
  destruct (Establish est_err m None addr _) as [est err] eqn:He.
  pose proof (call_opened t s1 (length ids) conn addr (seq (length (cl_writers s0)) (length ids)) CNone m est_err
                est err ltac:(lia) Hm He) as Hopen.
  pose proof (call_run_app _ _ _ _ _ _ _ _ _ _ _ Hloop Hopen) as Hrun.
  destruct err as [e|]; [eexists _, _; split; [exact Hrun|done]|].
  assert (forall n r s2, (exists c1, call_run t (replicate n CeStep) s1 (mkCall conn addr TGetQueue
            (seq (length (cl_writers s0)) (length ids)) CNone) = Finished (s2, c1, []) /\ ca_pc c1 = r) ->
            exists evs c1, call_run t evs s0 c0 = Finished (s2, c1, out ++ map (pair 0) est) /\ ca_pc c1 = r) as Hend.
  { intros n r s2 (c1 & Hn & Hr). eexists _, c1. split; [|done]. by eapply (call_run_then _ _ _ _ _ _ _ _ _ _ Hrun). }
  unfold Link.Get, QueueHub.Get. cbn [clientLinkHub set_cqueues].
  destruct (pm_map (clientQueueHub s1) !! m) as [qq|] eqn:Hqq;
    [destruct (pm_map (clientLinkHub s1) !! m) as [oo|] eqn:Hoo|];
    [apply (Hend 4)|apply (Hend 3)|apply (Hend 1)]; eexists; split.
  1,3,5: cbn -[pm_start pm_update]; unfold call_step, QueueHub.Get, Link.Get; cbn -[pm_start pm_update];
    unfold trans_at in *; rewrite Hm; cbn -[pm_start pm_update]; rewrite Hqq; cbn -[pm_start pm_update];
    rewrite ?Hm; cbn -[pm_start pm_update]; rewrite ?Hoo; reflexivity.
  all: reflexivity.
Qed.
End alone.
