(* ===== verification/ClientTable.v ===== *)
(** What the calls of [transData] own (wss/wssocks_client.go).

    The state of each call is its [trans] and its [call]; the invariants of
    ClientSafe.v say what the hubs of the client hold in terms of the calls.
    This file has those parts that are about one hub: [Queues h calls] and
    [Links h calls], and how each access of a call to a hub keeps them. *)
From S2P Require Import Prelude GoChan Pipe RoundRobin PtrMap Queue QueueHub Link Starts Sends Striping Base64 Json.
From S2P Require Import Messages Hub Server Client Wire Direction ClientProc.

Section table.
Context {K : Ksuid} `{!KsuidText K}.
Implicit Types (id m : KSUID) (t : nat) (tr : trans) (ca : call).

(** How far a call has come. *)
Definition rank (pc : call_pc) : nat :=
  match pc with
  | TLoop _ | TSay _ _ | TWriter _ _ | TLink _ _ => 0
  | TEst => 1 | TGetQueue => 2 | TSort _ => 3 | TGetLink => 4 | TConn _ => 5 | TWaiting _ => 6
  | TRemove _ => 7 | TUndo _ _ | TUndoProxy _ _ _ _ => 8 | TEnd _ => 9
  end.

(** The calls with their variables. *)
Definition calls : Type := nat -> option (trans * call).
Implicit Types (T : calls).

Definition calls_of (s : cproc) : calls := fun t =>
  tr ← cl_trans (pr_client s) !! t; ca ← pr_calls s !! t; Some (tr, ca).

Definition upd t x T : calls := fun t' => if decide (t' = t) then Some x else T t'.

Definition removed tr : Prop := tr_status tr = "removed"%string.

(** The number of connections that the call has added to its queue. *)
Definition added tr ca : nat :=
  match ca_pc ca with
  | TLoop i | TSay i _ | TWriter i _ => i
  | TLink i _ => S i
  | _ => length (tr_sorted tr)
  end.

(** No two calls have the same master. *)
Definition one_master T : Prop :=
  forall t1 t2 tr1 tr2 ca1 ca2 m, T t1 = Some (tr1, ca1) -> T t2 = Some (tr2, ca2) ->
    tr_master tr1 = Some m -> tr_master tr2 = Some m -> t1 = t2.

(** No ID belongs to two calls, and a master belongs to its own. *)
Definition one_owner T : Prop :=
  forall t1 t2 tr1 tr2 ca1 ca2 id, T t1 = Some (tr1, ca1) -> T t2 = Some (tr2, ca2) ->
    id ∈ tr_sorted tr1 -> id ∈ tr_sorted tr2 -> t1 = t2.

Definition own_master T : Prop :=
  forall t tr ca m, T t = Some (tr, ca) -> tr_master tr = Some m -> m ∈ tr_sorted tr.

Lemma one_owner_master T : one_owner T -> own_master T -> one_master T.
Proof. intros H1 H2 t1 t2 tr1 tr2 ca1 ca2 m Ht1 Ht2 Hm1 Hm2. eapply H1; eauto. Qed.

(** A call goes on: it keeps its master and its IDs. *)
Definition goes_on tr ca tr' ca' : Prop :=
  rank (ca_pc ca) <= rank (ca_pc ca') /\ (forall m, tr_master tr = Some m -> tr_master tr' = Some m) /\
  tr_sorted tr `prefix_of` tr_sorted tr'.

(** * Queues *)

Section queues.
Implicit Types (h : QueueHub nat) (q : queue nat).

Definition queue_live h tr ca m : Prop :=
  (removed tr -> pm_map h !! m = None) /\
  (~ removed tr -> forall k id, k < added tr ca -> tr_sorted tr !! k = Some id ->
     exists p q, pm_map h !! m = Some p /\ pm_heap h !! p = Some q /\ is_Some (q_writers q !! id)) /\
  (forall qq, ca_pc ca = TSort qq ->
     exists q, pm_heap h !! qq = Some q /\ q_masterID q = m /\ has_writers q (tr_sorted tr)).

(** Each queue belongs to the call with its master; its [Send] runs only once
    the call has started it, and it has no order before. *)
Record Queues h T : Prop := {
  Q_wf : pm_wf h;
  Q_map id p q : pm_map h !! id = Some p -> pm_heap h !! p = Some q -> q_masterID q = id;
  Q_own p q : pm_heap h !! p = Some q ->
    exists t tr ca, T t = Some (tr, ca) /\ tr_master tr = Some (q_masterID q) /\
      (p ∈ pm_go h -> 4 <= rank (ca_pc ca)) /\ (p ∉ pm_go h -> q_sorted q = []);
  Q_live t tr ca m : T t = Some (tr, ca) -> tr_master tr = Some m -> queue_live h tr ca m;
}.

Lemma Queues_ext h T T' : (forall t, T' t = T t) -> Queues h T -> Queues h T'.
Proof.
  intros E [Hwf Hmap Hown Hl]. split; [done..| |].
  - intros p q Hq. destruct (Hown p q Hq) as (t & tr & ca & Ht & ?). exists t, tr, ca. by rewrite E.
  - intros t tr ca m. rewrite E. apply Hl.
Qed.

Lemma Queues_empty T : (forall t, T t = None) -> Queues NewQueueHub T.
Proof.
  intros HT. split; simpl; [apply pm_wf_empty|..]; intros *; rewrite ?lookup_nil, ?lookup_empty, ?HT; done.
Qed.

(** A call goes on without touching the hub. *)
Lemma Queues_upd h T t tr ca tr' ca' :
  T t = Some (tr, ca) -> goes_on tr ca tr' ca' ->
  (forall m, tr_master tr' = Some m -> queue_live h tr' ca' m) ->
  Queues h T -> Queues h (upd t (tr', ca') T).
Proof.
  intros Ht (Hr & Hm & _) Hlive [Hwf Hmap Hown Hl]. split; [done..| |].
  - intros p q Hq. destruct (Hown p q Hq) as (t1 & tr1 & ca1 & Ht1 & Hm1 & Hgo & Hs). unfold upd.
    destruct (decide (t1 = t)) as [->|Hne].
    + simplify_eq. exists t, tr', ca'. rewrite decide_True by done. split_and!; [done|by apply Hm| |done].
      intros Hin%Hgo. lia.
    + exists t1, tr1, ca1. by rewrite decide_False.
  - unfold upd. intros t1 tr1 ca1 m. case_decide; [intros [= <- <-]; apply Hlive|apply Hl].
Qed.

(** A new call, which has no master yet. *)
Lemma Queues_new h T t tr ca :
  T t = None -> tr_master tr = None -> Queues h T -> Queues h (upd t (tr, ca) T).
Proof.
  intros Ht Hm [Hwf Hmap Hown Hl]. split; [done..| |].
  - intros p q Hq. destruct (Hown p q Hq) as (t1 & tr1 & ca1 & Ht1 & ?). unfold upd. exists t1, tr1, ca1.
    rewrite decide_False by (intros ->; congruence). done.
  - unfold upd. intros t1 tr1 ca1 m. case_decide; [intros [= <- <-]; congruence|apply Hl].
Qed.

(** What the goroutines that hold a pointer do to a queue: its master and its
    order stay, and its writers too, or there are more of them. *)
Definition queue_grows (q q' : queue nat) : Prop :=
  q_masterID q' = q_masterID q /\ q_sorted q' = q_sorted q /\
  chan_closed (q_done q') = chan_closed (q_done q) /\
  forall id, is_Some (q_writers q !! id) -> is_Some (q_writers q' !! id).

Lemma queue_grows_refl q : queue_grows q q.
Proof. done. Qed.

Lemma queue_grows_keep h h' : heap_rel queue_grows h h' -> sends_keep h h'.
Proof.
  intros HR. apply sends_keep_rel. eapply heap_rel_impl; [|exact HR]. intros q q' (? & ? & ? & ?). by split_and!.
Qed.

(** What a call needs of its queue is kept by more than that: the order may
    change. *)
Definition queue_more (q q' : queue nat) : Prop :=
  q_masterID q' = q_masterID q /\ forall id, is_Some (q_writers q !! id) -> is_Some (q_writers q' !! id).

(** The same without regard to [done]. *)
Definition queue_still (q q' : queue nat) : Prop := q_sorted q' = q_sorted q /\ queue_more q q'.

Lemma queue_grows_still h h' : heap_rel queue_grows h h' -> heap_rel queue_still h h'.
Proof. apply heap_rel_impl. intros q q' (? & ? & ? & ?). by split_and!. Qed.

Lemma queue_still_more h h' : heap_rel queue_still h h' -> Forall2 queue_more (pm_heap h) (pm_heap h').
Proof. intros [_ HF]. eapply Forall2_impl; [exact HF|]. by intros q q' [_ ?]. Qed.

Lemma queue_live_rel h h' tr ca m :
  Forall2 queue_more (pm_heap h) (pm_heap h') -> pm_map h' !! m = pm_map h !! m ->
  queue_live h tr ca m -> queue_live h' tr ca m.
Proof.
  intros HR Hmap (L1 & L2 & L3). split_and!; rewrite ?Hmap; [done|..].
  - intros Hr k id Hk Hid. destruct (L2 Hr k id Hk Hid) as (p & q & Hp & Hq & Hw).
    destruct (Forall2_lookup_l _ _ _ _ _ HR Hq) as (q' & Hq' & _ & E). exists p, q'. auto.
  - intros qq Hpc. destruct (L3 qq Hpc) as (q & Hq & Hqm & Hw).
    destruct (Forall2_lookup_l _ _ _ _ _ HR Hq) as (q' & Hq' & Em & E).
    exists q'. split_and!; [done|congruence|]. intros id Hid. by apply E, Hw.
Qed.

Lemma Queues_rel h h' T :
  heap_rel queue_still h h' -> pm_map h' = pm_map h -> pm_wf h' -> Queues h T -> Queues h' T.
Proof.
  intros HR Hmap' Hwf' [Hwf Hmap Hown Hl]. split; [done|..]; rewrite ?Hmap', ?(proj1 HR).
  - intros id p q' Hp (q & Hq & _ & -> & _)%(heap_rel_r _ _ _ _ _ HR). by eapply Hmap.
  - intros p q' (q & Hq & -> & -> & _)%(heap_rel_r _ _ _ _ _ HR). by apply Hown.
  - intros t tr ca m Ht Hm. eapply queue_live_rel; [by apply queue_still_more|by rewrite Hmap'|by eapply Hl].
Qed.

Lemma Queues_update p f h T :
  (forall q, pm_heap h !! p = Some q -> queue_grows q (f q) /\ chan_closed (q_buffer (f q)) = chan_closed (q_buffer q)) ->
  Queues h T -> Queues (pm_update p f h) T /\ sends_keep h (pm_update p f h).
Proof.
  intros Hf HQ. assert (heap_rel queue_grows h (pm_update p f h)) as HR.
  { apply heap_rel_update; [apply queue_grows_refl|]. intros q Hq. by apply Hf. }
  split; [|by apply queue_grows_keep]. eapply Queues_rel; [by apply queue_grows_still|done| |done].
  apply pm_wf_update; [|apply HQ]. intros q Hq. simpl. by rewrite (proj2 (Hf q Hq)).
Qed.

(** The queue of a call that still adds its connections: it is the call's own,
    and its [Send] has not been started. *)
Lemma Queues_ensure now h T t tr ca m :
  Queues h T -> one_master T -> pm_go_ok h -> T t = Some (tr, ca) -> tr_master tr = Some m -> ~ removed tr ->
  rank (ca_pc ca) = 0 ->
  exists p q, Queues (QueueHub.ensure now m h) T /\ pm_map (QueueHub.ensure now m h) !! m = Some p /\
    pm_heap (QueueHub.ensure now m h) !! p = Some q /\ (p ∉ pm_go h) /\ q_sorted q = [] /\
    sends_keep h (QueueHub.ensure now m h).
Proof.
  intros HQ H1 Hok Ht Hm Hrem Hr. pose proof HQ as [Hwf Hmap Hown Hl]. unfold QueueHub.ensure.
  destruct (pm_map h !! m) as [p|] eqn:Hp.
  - destruct (proj1 Hwf _ _ Hp) as (q & Hq & _). exists p, q.
    destruct (Hown p q Hq) as (t1 & tr1 & ca1 & Ht1 & Hm1 & Hgo & Hs). rewrite (Hmap m p q Hp Hq) in Hm1.
    assert (t1 = t) as -> by (by eapply H1). simplify_eq.
    assert (p ∉ pm_go h) as Hng by (intros Hin%Hgo; lia).
    split_and!; try done; [by apply Hs|apply sends_keep_refl].
  - pose proof (pm_new_not_started h Hok) as Hng. exists (length (pm_heap h)), (NewQueue now m).
    split_and!; simpl; rewrite ?lookup_insert_eq, ?list_lookup_middle; try done; [|by apply sends_keep_new].
    split; simpl; [by apply pm_wf_new|..].
    + intros id p q. rewrite lookup_insert. case_decide as Hid.
      * intros [= <-]. rewrite list_lookup_middle by done. intros [= <-]. by rewrite Hid.
      * intros Hp' Hq. destruct (proj1 Hwf _ _ Hp') as (q' & Hq' & _).
        rewrite (lookup_app_l_Some _ _ _ _ Hq') in Hq. simplify_eq. by eapply Hmap.
    + intros p q [Hq|[Hlt Hq]]%lookup_app_Some; [by apply Hown|].
      apply list_lookup_singleton_Some in Hq as [Hp' <-]. exists t, tr, ca. split_and!; [done..| |done].
      intros Hin. destruct Hng. by replace (length (pm_heap h)) with p by lia.
    + intros t1 tr1 ca1 m1 Ht1 Hm1. destruct (Hl t1 tr1 ca1 m1 Ht1 Hm1) as (L1 & L2 & L3).
      assert (m = m1 -> t1 = t) as Hsame by (intros ->; by eapply H1). split_and!; simpl.
      * intros Hr1. rewrite lookup_insert_ne; [by apply L1|]. intros E. rewrite (Hsame E) in Ht1. by simplify_eq.
      * intros Hr1 k id Hk Hid. destruct (L2 Hr1 k id Hk Hid) as (p & q & Hp' & Hq & Hw).
        exists p, q. rewrite lookup_insert_ne by (intros ->; congruence). by rewrite (lookup_app_l_Some _ _ _ _ Hq).
      * intros qq Hpc. destruct (L3 qq Hpc) as (q & Hq & ?). exists q. by rewrite (lookup_app_l_Some _ _ _ _ Hq).
Qed.

(** Where no [Send] is started, [Add] only creates the queue and puts a writer
    into it. *)
Lemma Add_unstarted now m id (w : nat) h p q :
  pm_map (QueueHub.ensure now m h) !! m = Some p -> pm_heap (QueueHub.ensure now m h) !! p = Some q ->
  q_sorted q = [] ->
  QueueHub.Add now m id w h =
    pm_update p (fun q => set_q_writers (<[id := w]> (q_writers q)) q) (QueueHub.ensure now m h).
Proof.
  intros Hp Hq Hs. unfold QueueHub.Add. rewrite Hp. unfold QueueHub.trySend. cbn [pm_map pm_update].
  rewrite Hp. cbn [pm_heap pm_update]. rewrite list_lookup_alter_eq, Hq. cbn [fmap option_fmap option_map].
  cbn [q_writers q_sorted set_q_writers]. rewrite Hs. cbn [length].
  destruct (Nat.eqb_spec (size (<[id := w]> (q_writers q))) 0) as [E|_]; [|done].
  apply map_size_empty_inv in E. by apply insert_non_empty in E.
Qed.

(** [clientQueueHub.Add] of a call. *)
Lemma Queues_add now id w h T t tr ca ca' m :
  Queues h T -> one_master T -> pm_go_ok h -> T t = Some (tr, ca) -> tr_master tr = Some m -> ~ removed tr ->
  rank (ca_pc ca) = 0 -> rank (ca_pc ca') = 0 ->
  tr_sorted tr !! added tr ca = Some id -> added tr ca' = S (added tr ca) ->
  Queues (QueueHub.Add now m id w h) (upd t (tr, ca') T) /\ sends_keep h (QueueHub.Add now m id w h).
Proof.
  intros HQ H1 Hok Ht Hm Hrem Hr Hr' Hid Hadd.
  destruct (Queues_ensure now h T t tr ca m HQ H1 Hok Ht Hm Hrem Hr) as (p & q & HQ1 & Hp & Hq & Hng & Hs & Hk).
  rewrite (Add_unstarted now m id w h p q Hp Hq Hs).
  set (f := fun q : queue nat => set_q_writers (<[id := w]> (q_writers q)) q).
  assert (forall q i, i = id \/ is_Some (q_writers q !! i) -> is_Some (q_writers (f q) !! i)) as Hw.
  { intros q' i Hi. simpl. rewrite lookup_insert. case_decide; [done|]. destruct Hi; [congruence|done]. }
  split.
  - eapply (Queues_upd _ _ t tr ca); [done|by split_and!; [lia|..]| |].
    2: { apply Queues_update; [|done]. intros q' _. split; [|done]. split_and!; [done..|]. eauto. }
    intros m' Hm'. simplify_eq. split_and!; [done| |by intros qq E; rewrite E in Hr'].
    intros _ k i Hki Hi. exists p, (f q). simpl. rewrite list_lookup_alter_eq, Hq. split_and!; [done..|].
    apply Hw. rewrite Hadd in Hki. destruct (decide (k = added tr ca)) as [->|Hne]; [left; congruence|right].
    destruct (Q_live _ _ HQ1 t tr ca _ Ht Hm) as (_ & L2 & _).
    destruct (L2 Hrem k i ltac:(lia) Hi) as (p' & q' & Hp' & Hq' & Hi'). by simplify_eq.
  - eapply sends_keep_trans; [exact Hk|]. apply sends_keep_update. intros q' Hq'. split; [done|].
    intros _. split_and!; [done..|]. eauto.
Qed.

(** [qq.SetSort] and [go qq.Send] of a call. *)
Lemma Queues_start h T t tr ca ca' m qq :
  Queues h T -> one_master T -> T t = Some (tr, ca) -> tr_master tr = Some m -> ca_pc ca = TSort qq ->
  rank (ca_pc ca') = 4 -> added tr ca' = added tr ca ->
  let h1 := pm_update qq (Queue.SetSort (tr_sorted tr)) h in
  Queues (pm_start qq h1) (upd t (tr, ca') T) /\
  forall pcs, sends_ok h pcs -> sends_ok (pm_start qq h1) pcs.
Proof.
  intros HQ H1 Ht Hm Hpc Hr Hadd h1. pose proof HQ as [Hwf Hmap Hown Hl].
  destruct (Hl t tr ca m Ht Hm) as (L1 & L2 & L3). destruct (L3 qq Hpc) as (q & Hq & Hqm & Hw).
  destruct (Hown qq q Hq) as (t1 & tr1 & ca1 & Ht1 & Hm1 & Hgo1 & Hs1).
  rewrite Hqm in Hm1. assert (t1 = t) as -> by (by eapply H1). simplify_eq.
  assert (qq ∉ pm_go h) as Hng by (intros Hin%Hgo1; rewrite Hpc in Hin; simpl in Hin; lia).
  assert (pm_heap h1 !! qq = Some (Queue.SetSort (tr_sorted tr) q)) as Hq1.
  { simpl. by rewrite list_lookup_alter_eq, Hq. }
  split.
  2: { intros pcs Hok. eapply sends_ok_start; [exact Hq1|exact Hw|done|].
       eapply sends_ok_keep; [|exact Hok]. apply sends_keep_update. done. }
  split; simpl; [apply pm_wf_start; by apply qh_wf_update|..].
  - intros id p q'. destruct (decide (qq = p)) as [<-|Hne].
    + rewrite list_lookup_alter_eq, Hq. intros Hp [= <-]. simpl. by eapply Hmap.
    + rewrite list_lookup_alter_ne by done. apply Hmap.
  - intros p q' Hq'. unfold upd. destruct (decide (qq = p)) as [<-|Hne].
    + rewrite list_lookup_alter_eq, Hq in Hq'. injection Hq' as <-. exists t, tr, ca'. rewrite decide_True by done.
      split_and!; [done|done|rewrite Hr; lia|]. intros Hin. exfalso. apply Hin. set_solver.
    + rewrite list_lookup_alter_ne in Hq' by done. destruct (Hown p q' Hq') as (t1 & tr1 & ca1 & Ht1' & Hm1' & Hgo & Hs).
      assert (p ∈ pm_go h ++ [qq] <-> p ∈ pm_go h) as Hin by (rewrite elem_of_app, list_elem_of_singleton; naive_solver).
      destruct (decide (t1 = t)) as [->|Hnt].
      * rewrite Ht in Ht1'. injection Ht1' as <- <-. exists t, tr, ca'. rewrite decide_True by done. split_and!; [done..|rewrite Hr; lia|naive_solver].
      * exists t1, tr1, ca1. rewrite decide_False by done. split_and!; naive_solver.
  - unfold upd. intros t1 tr1 ca1 m1 Ht1' Hm1'. apply (queue_live_rel h); [|done|].
    { by apply (heap_rel_update queue_more qq (Queue.SetSort (tr_sorted tr)) h). }
    case_decide; [|by eapply Hl]. simplify_eq. split_and!; [done| |by intros qq' E; rewrite E in Hr].
    by rewrite Hadd.
Qed.

(** [clientQueueHub.Remove] by [remove], for a call or for the finish message
    of the server. *)
Lemma Queues_remove h h' T t tr tr' ca ca' m :
  Queues h T -> one_master T -> T t = Some (tr, ca) -> tr_master tr = Some m -> goes_on tr ca tr' ca' ->
  removed tr' -> (forall qq, ca_pc ca' = TSort qq -> ca_pc ca = TSort qq) -> tr_sorted tr' = tr_sorted tr ->
  QueueHub.Remove m h = Some h' ->
  Queues h' (upd t (tr', ca') T) /\ sends_keep h h'.
Proof.
  intros HQ H1 Ht Hm Hgo Hrem Hpc Hso Hr. pose proof HQ as [Hwf Hmap Hown Hl].
  assert (forall q q', obj_close q = Some q' -> queue_grows q q') as Hcl.
  { intros q q' Hc%Queue.close_inv. destruct Hc as (E1 & E2 & E3 & E4 & _). split_and!; try congruence. }
  destruct (pm_close_delete_inv queue_grows m h h' queue_grows_refl Hcl Hr) as [Hmap' HR].
  destruct (pm_close_delete_ok m h Hwf) as (h1 & E & Hwf' & _). unfold QueueHub.Remove in Hr.
  assert (h1 = h') as -> by congruence. split; [|by apply queue_grows_keep].
  assert (forall k tr0 ca0, T k = Some (tr0, ca0) -> k <> t -> tr_master tr0 <> Some m) as Hothers.
  { intros k tr0 ca0 Hk Hne Hmk. by eapply Hne, H1. }
  assert (tr_master tr' = Some m) as Hm' by (by apply Hgo).
  split; [done|..]; rewrite ?Hmap', ?(proj1 HR).
  - intros id p q'. rewrite lookup_delete. case_decide; [done|].
    intros Hp (q & Hq & -> & _)%(heap_rel_r _ _ _ _ _ HR). by eapply Hmap.
  - intros p q' (q & Hq & -> & -> & _)%(heap_rel_r _ _ _ _ _ HR). unfold upd.
    destruct (Hown p q Hq) as (t1 & tr1 & ca1 & Ht1 & Hm1 & Hg & Hs). destruct (decide (t1 = t)) as [->|Hne].
    + simplify_eq. exists t, tr', ca'. rewrite decide_True by done. destruct Hgo as (Hle & _).
      split_and!; [done|congruence|intros Hin%Hg; lia|done].
    + exists t1, tr1, ca1. by rewrite decide_False.
  - unfold upd. intros t1 tr1 ca1 m1 Ht1 Hm1. case_decide as Hd.
    + simplify_eq. split_and!; rewrite ?Hmap'; [intros _; by rewrite lookup_delete_eq|done|].
      intros qq Hqq. destruct (Hl t tr ca _ Ht Hm) as (_ & _ & L3). destruct (L3 qq (Hpc qq Hqq)) as (q & Hq & Em & Hw).
      destruct (heap_rel_l _ _ _ _ _ HR Hq) as (q' & Hq' & Em' & _ & _ & Ew). exists q'.
      split_and!; [done|congruence|]. rewrite Hso. intros id Hid. by apply Ew, Hw.
    + assert (m <> m1) as Hne by (intros ->; by eapply Hothers).
      eapply queue_live_rel; [by apply queue_still_more, queue_grows_still|by rewrite Hmap', lookup_delete_ne|by eapply Hl].
Qed.
End queues.

(** * Links *)

Section links.
Implicit Types (h : LinkHub) (l : link).

Definition link_live h tr ca m : Prop :=
  (removed tr -> pm_map h !! m = None) /\
  (forall oo, ca_pc ca = TConn oo -> exists l, pm_heap h !! oo = Some l /\ l_master l = m).

(** Each link belongs to the call whose master it names, and is found under an
    ID of that call; it has a connection and an order, which is of the call's
    IDs, and its [Send] runs, only once the call has started it. *)
Record Links h T : Prop := {
  K_wf : pm_wf h;
  K_map id p l : pm_map h !! id = Some p -> pm_heap h !! p = Some l ->
    exists t tr ca, T t = Some (tr, ca) /\ tr_master tr = Some (l_master l) /\ id ∈ tr_sorted tr;
  K_own p l : pm_heap h !! p = Some l ->
    exists t tr ca, T t = Some (tr, ca) /\ tr_master tr = Some (l_master l) /\
      (l_conn l <> None -> 6 <= rank (ca_pc ca)) /\ (p ∈ pm_go h -> 6 <= rank (ca_pc ca)) /\
      (forall id, id ∈ l_sorted l -> id ∈ tr_sorted tr /\ 6 <= rank (ca_pc ca));
  K_live t tr ca m : T t = Some (tr, ca) -> tr_master tr = Some m -> link_live h tr ca m;
}.

Lemma Links_ext h T T' : (forall t, T' t = T t) -> Links h T -> Links h T'.
Proof.
  intros E [Hwf Hmap Hown Hl]. split; [done|..].
  - intros id p l Hp Hq. destruct (Hmap id p l Hp Hq) as (t & tr & ca & Ht & ?). exists t, tr, ca. by rewrite E.
  - intros p l Hq. destruct (Hown p l Hq) as (t & tr & ca & Ht & ?). exists t, tr, ca. by rewrite E.
  - intros t tr ca m. rewrite E. apply Hl.
Qed.

Lemma Links_empty T : (forall t, T t = None) -> Links NewLinkHub T.
Proof.
  intros HT. split; simpl; [apply pm_wf_empty|..]; intros *; rewrite ?lookup_nil, ?lookup_empty, ?HT; done.
Qed.

Lemma Links_upd h T t tr ca tr' ca' :
  T t = Some (tr, ca) -> goes_on tr ca tr' ca' -> (forall m, tr_master tr' = Some m -> link_live h tr' ca' m) ->
  Links h T -> Links h (upd t (tr', ca') T).
Proof.
  intros Ht (Hr & Hm & Hpre) Hlive [Hwf Hmap Hown Hl]. split; [done|..].
  - intros id p l Hp Hpl. destruct (Hmap id p l Hp Hpl) as (t1 & tr1 & ca1 & Ht1 & Hm1 & Hid). unfold upd.
    destruct (decide (t1 = t)) as [->|Hne].
    + simplify_eq. exists t, tr', ca'. rewrite decide_True by done. split_and!; [done|by apply Hm|].
      destruct Hpre as [k ->]. apply elem_of_app. by left.
    + exists t1, tr1, ca1. by rewrite decide_False.
  - intros p l Hp. destruct (Hown p l Hp) as (t1 & tr1 & ca1 & Ht1 & Hm1 & Hc & Hgo & Hso). unfold upd.
    destruct (decide (t1 = t)) as [->|Hne].
    + simplify_eq. exists t, tr', ca'. rewrite decide_True by done.
      split_and!; [done|by apply Hm|intros Hx%Hc; lia|intros Hx%Hgo; lia|].
      intros id Hin. destruct (Hso id Hin) as [Hid ?]. split; [|lia]. destruct Hpre as [k ->]. apply elem_of_app. by left.
    + exists t1, tr1, ca1. by rewrite decide_False.
  - unfold upd. intros t1 tr1 ca1 m. case_decide; [intros [= <- <-]; apply Hlive|apply Hl].
Qed.

Lemma Links_new h T t tr ca :
  T t = None -> tr_master tr = None -> Links h T -> Links h (upd t (tr, ca) T).
Proof.
  intros Ht Hm [Hwf Hmap Hown Hl].
  assert (forall t1 x, T t1 = Some x -> upd t (tr, ca) T t1 = Some x) as Hkeep.
  { intros t1 x Hx. unfold upd. by rewrite decide_False by (intros ->; congruence). }
  split; [done|..].
  - intros id p l Hp Hpl. destruct (Hmap id p l Hp Hpl) as (t1 & tr1 & ca1 & Ht1 & ?). exists t1, tr1, ca1. auto.
  - intros p l Hpl. destruct (Hown p l Hpl) as (t1 & tr1 & ca1 & Ht1 & ?). exists t1, tr1, ca1. auto.
  - unfold upd. intros t1 tr1 ca1 m. case_decide; [intros [= <- <-]; congruence|apply Hl].
Qed.

(** What the goroutines that hold a pointer do to a link, before its call has
    set the connection. *)
Definition link_same_call l l' : Prop :=
  l_master l' = l_master l /\ l_sorted l' = l_sorted l /\ (l_conn l' <> None -> l_conn l <> None) /\
  chan_closed (l_done l') = chan_closed (l_done l).

Lemma link_same_call_keep h h' : heap_rel link_same_call h h' -> sends_keep h h'.
Proof. intros HR. apply sends_keep_rel. eapply heap_rel_impl; [|exact HR]. intros l l' (? & ? & ? & ?). by split. Qed.

(** The same without regard to [done]. *)
Definition link_still l l' : Prop :=
  l_master l' = l_master l /\ l_sorted l' = l_sorted l /\ (l_conn l' <> None -> l_conn l <> None).

Lemma link_same_call_still h h' : heap_rel link_same_call h h' -> heap_rel link_still h h'.
Proof. apply heap_rel_impl. intros l l' (? & ? & ? & ?). by split_and!. Qed.

Lemma Links_rel h h' T :
  heap_rel link_still h h' -> pm_map h' = pm_map h -> pm_wf h' -> Links h T -> Links h' T.
Proof.
  intros HR Hmap' Hwf' [Hwf Hmap Hown Hl]. split; [done|..]; rewrite ?Hmap', ?(proj1 HR).
  - intros id p l' Hp (l & Hpl & -> & _)%(heap_rel_r _ _ _ _ _ HR). by eapply Hmap.
  - intros p l' (l & Hpl & -> & -> & Hc)%(heap_rel_r _ _ _ _ _ HR).
    destruct (Hown p l Hpl) as (t1 & tr1 & ca1 & ? & ? & Hc1 & ? & ?). exists t1, tr1, ca1. split_and!; auto.
  - intros t tr ca m Ht Hm. destruct (Hl t tr ca m Ht Hm) as (L1 & L2). split; [by rewrite Hmap'|].
    intros oo Hpc. destruct (L2 oo Hpc) as (l & Hpl & E).
    destruct (heap_rel_l _ _ _ _ _ HR Hpl) as (l' & Hpl' & E' & _). exists l'. split; [done|congruence].
Qed.

(** A link of a call that still adds its connections. *)
Lemma Links_ensure now id m h T t tr ca :
  Links h T -> one_owner T -> own_master T -> pm_go_ok h -> T t = Some (tr, ca) -> tr_master tr = Some m ->
  ~ removed tr -> id ∈ tr_sorted tr -> rank (ca_pc ca) = 0 ->
  Links (Link.ensure now id m h) T /\ sends_keep h (Link.ensure now id m h) /\
  (forall i, is_Some (pm_map h !! i) -> pm_map (Link.ensure now id m h) !! i = pm_map h !! i) /\
  exists p l, pm_map (Link.ensure now id m h) !! id = Some p /\ pm_heap (Link.ensure now id m h) !! p = Some l /\
    l_master l = m /\ l_conn l = None.
Proof.
  intros HK H1 Hom Hok Ht Hm Hrem Hid Hr. pose proof HK as [Hwf Hmap Hown Hl]. unfold Link.ensure.
  destruct (pm_map h !! id) as [p|] eqn:Hp.
  - destruct (proj1 Hwf _ _ Hp) as (l & Hpl & _).
    destruct (Hmap id p l Hp Hpl) as (t1 & tr1 & ca1 & Ht1 & Hm1 & Hid1).
    assert (t1 = t) as -> by (by eapply H1). simplify_eq.
    destruct (Hown p l Hpl) as (t2 & tr2 & ca2 & Ht2 & Hm2 & Hc & _ & _).
    assert (t2 = t) as -> by (eapply (one_owner_master T); eauto). simplify_eq.
    split_and!; [done|apply sends_keep_refl|done|]. exists p, l. split_and!; [done..|].
    destruct (l_conn l); [|done]. specialize (Hc ltac:(done)). lia.
  - assert (forall i p, pm_map h !! i = Some p -> id <> i) as Hne by (intros i p Hi ->; congruence).
    split_and!; [|by apply sends_keep_new| |].
    + split; simpl; [by apply pm_wf_new|..].
      * intros i p l. rewrite lookup_insert. case_decide as Hi.
        -- intros [= <-]. rewrite list_lookup_middle by done. intros [= <-]. exists t, tr, ca. simpl. by rewrite <- Hi.
        -- intros Hp' Hpl. destruct (proj1 Hwf _ _ Hp') as (l' & Hl' & _).
           rewrite (lookup_app_l_Some _ _ _ _ Hl') in Hpl. simplify_eq. by eapply Hmap.
      * intros p l [Hpl|[Hlt Hpl]]%lookup_app_Some; [by apply Hown|].
        apply list_lookup_singleton_Some in Hpl as [Hp' <-]. exists t, tr, ca. split_and!; [done..| |].
        -- intros Hin. destruct (pm_new_not_started h Hok). by replace (length (pm_heap h)) with p by lia.
        -- simpl. by intros i ?%not_elem_of_nil.
      * intros t1 tr1 ca1 m1 Ht1 Hm1. destruct (Hl t1 tr1 ca1 m1 Ht1 Hm1) as (L1 & L2). split; simpl.
        -- intros Hr1. rewrite lookup_insert_ne; [by apply L1|]. intros <-.
           assert (t1 = t) as -> by (eapply H1; eauto). by simplify_eq.
        -- intros oo Hpc. destruct (L2 oo Hpc) as (l & Hpl & ?). exists l. by rewrite (lookup_app_l_Some _ _ _ _ Hpl).
    + intros i [p Hi]. simpl. by rewrite lookup_insert_ne by (by eapply Hne).
    + exists (length (pm_heap h)), (NewLink now m). simpl. by rewrite lookup_insert_eq, list_lookup_middle.
Qed.

(** Where the master link has no connection, [Add] only creates the links and
    counts. *)
Lemma link_Add_unstarted now id m h p l :
  pm_map (Link.ensure now m m h) !! m = Some p ->
  pm_map (Link.ensure now id m (Link.ensure now m m h)) !! m = Some p ->
  pm_heap (Link.ensure now id m (Link.ensure now m m h)) !! p = Some l -> l_conn l = None ->
  Link.Add now id m h =
    pm_update p (fun q => set_l_counter (l_counter q + 1) q) (Link.ensure now id m (Link.ensure now m m h)).
Proof.
  intros Hp Hp' Hl Hc. unfold Link.Add. rewrite Hp. unfold Link.trySend. cbn [pm_map pm_update].
  rewrite Hp'. cbn [pm_heap pm_update]. rewrite list_lookup_alter_eq, Hl. cbn [fmap option_fmap option_map].
  cbn [l_conn set_l_counter]. rewrite Hc, bool_decide_eq_false_2 by (by intros []). done.
Qed.

(** [clientLinkHub.Add] of a call. *)
Lemma Links_add now id h T t tr ca ca' m :
  Links h T -> one_owner T -> own_master T -> pm_go_ok h -> T t = Some (tr, ca) -> tr_master tr = Some m ->
  ~ removed tr -> id ∈ tr_sorted tr -> rank (ca_pc ca) = 0 -> rank (ca_pc ca') = 0 ->
  Links (Link.Add now id m h) (upd t (tr, ca') T) /\ sends_keep h (Link.Add now id m h).
Proof.
  intros HK H1 Hom Hok Ht Hm Hrem Hid Hr Hr'.
  destruct (Links_ensure now m m h T t tr ca HK H1 Hom Hok Ht Hm Hrem (Hom _ _ _ _ Ht Hm) Hr)
    as (HK1 & Hk1 & _ & p & l & Hp & Hl & Hlm & Hc).
  assert (pm_go_ok (Link.ensure now m m h)) as Hok1 by (unfold Link.ensure; case_match; [done|by apply pm_go_ok_new]).
  destruct (Links_ensure now id m _ T t tr ca HK1 H1 Hom Hok1 Ht Hm Hrem Hid Hr) as (HK2 & Hk2 & Hsame & _).
  assert (pm_map (Link.ensure now id m (Link.ensure now m m h)) !! m = Some p) as Hp2 by (by rewrite Hsame, Hp).
  assert (pm_heap (Link.ensure now id m (Link.ensure now m m h)) !! p = Some l) as Hl2.
  { unfold Link.ensure at 1. case_match; [done|]. simpl. by rewrite (lookup_app_l_Some _ _ _ _ Hl). }
  rewrite (link_Add_unstarted now id m h p l Hp Hp2 Hl2 Hc).
  set (h2 := Link.ensure now id m (Link.ensure now m m h)) in *.
  assert (heap_rel link_same_call h2 (pm_update p (fun q => set_l_counter (l_counter q + 1) q) h2)) as HR.
  { by apply heap_rel_update. }
  split; [|eapply sends_keep_trans; [by eapply sends_keep_trans|by apply link_same_call_keep]].
  eapply (Links_upd _ _ t tr ca); [done|by split_and!; [lia|..]| |].
  - intros m' Hm'. split; [done|]. intros oo E. by rewrite E in Hr'.
  - apply (Links_rel h2); [|done|by apply lh_wf_update, HK2|done].
    by apply link_same_call_still.
Qed.

(** [oo.SetConn], [oo.SetSort] and [go oo.Send] of a call. *)
Lemma Links_start h T t tr ca ca' m oo conn sort :
  Links h T -> one_master T -> T t = Some (tr, ca) -> tr_master tr = Some m -> ca_pc ca = TConn oo ->
  rank (ca_pc ca') = 6 -> sort ⊆ tr_sorted tr ->
  let h1 := pm_update oo (fun l => Link.SetSort sort (Link.SetConn conn l)) h in
  Links (pm_start oo h1) (upd t (tr, ca') T) /\
  forall pcs, sends_ok h pcs -> sends_ok (pm_start oo h1) pcs.
Proof.
  intros HK H1 Ht Hm Hpc Hr Hsub h1. pose proof HK as [Hwf Hmap Hown Hl].
  destruct (Hl t tr ca m Ht Hm) as (L1 & L2). destruct (L2 oo Hpc) as (l & Hpl & Hlm).
  destruct (Hown oo l Hpl) as (t1 & tr1 & ca1 & Ht1 & Hm1 & Hc1 & Hgo1 & _).
  rewrite Hlm in Hm1. assert (t1 = t) as -> by (by eapply H1). simplify_eq.
  assert (oo ∉ pm_go h) as Hng by (intros Hin%Hgo1; rewrite Hpc in Hin; simpl in Hin; lia).
  assert (heap_rel (fun l l' => l_master l' = l_master l) h h1) as HR by (by apply heap_rel_update).
  split.
  2: { intros pcs Hok. eapply (sends_ok_start oo); [simpl; by rewrite list_lookup_alter_eq, Hpl|done|done|].
       eapply sends_ok_keep; [|exact Hok]. by apply sends_keep_update. }
  assert (forall t0 tr0 ca0, T t0 = Some (tr0, ca0) -> exists ca1, upd t (tr, ca') T t0 = Some (tr0, ca1) /\
            rank (ca_pc ca0) <= rank (ca_pc ca1)) as Hforth.
  { intros t0 tr0 ca0 Ht0. unfold upd. case_decide as E; [|by exists ca0]. subst t0. simplify_eq.
    exists ca'. split; [done|]. rewrite Hpc, Hr. simpl. lia. }
  split; simpl; [apply pm_wf_start; by apply lh_wf_update|..].
  - intros id p l' Hp (l0 & Hpl0 & ->)%(heap_rel_r _ _ _ _ _ HR).
    destruct (Hmap id p l0 Hp Hpl0) as (t0 & tr0 & ca0 & Ht0 & ? & ?).
    destruct (Hforth _ _ _ Ht0) as (ca2 & ? & _). by exists t0, tr0, ca2.
  - intros p l' Hpl'. pose proof Hpl' as (l0 & Hpl0 & E)%(heap_rel_r _ _ _ _ _ HR). rewrite E.
    destruct (Hown p l0 Hpl0) as (t0 & tr0 & ca0 & Ht0 & Hm0 & Hc0 & Hgo0 & Hso0).
    destruct (decide (oo = p)) as [<-|Hne].
    + exists t, tr, ca'. unfold upd. rewrite decide_True by done. rewrite Hr. rewrite list_lookup_alter_eq, Hpl in Hpl'. simplify_eq/=.
      split_and!; [done|done|intros; lia|intros; lia|]. intros id Hid. split; [by apply Hsub|lia].
    + destruct (Hforth _ _ _ Ht0) as (ca2 & ? & Hle). exists t0, tr0, ca2.
      rewrite list_lookup_alter_ne in Hpl' by done. simplify_eq. split_and!; [done..| | |].
      * intros Hx%Hc0. lia.
      * intros [Hx%Hgo0|?%list_elem_of_singleton]%elem_of_app; [lia|congruence].
      * intros id Hid. destruct (Hso0 id Hid). split; [done|lia].
  - unfold upd. intros t0 tr0 ca0 m0 Ht0 Hm0. assert (link_live h tr0 ca0 m0) as [K1 K2].
    { case_decide; [|by eapply Hl]. simplify_eq. split; [done|]. intros oo' E. by rewrite E in Hr. }
    split; [done|]. intros oo' E. destruct (K2 oo' E) as (l0 & Hpl0 & Hl0).
    destruct (heap_rel_l _ _ _ _ _ HR Hpl0) as (l1 & ? & ?). exists l1. split; [done|congruence].
Qed.

(** [RemoveAll] only closes links and takes them out of the map. *)
Lemma RemoveAll_inv m h h' :
  Link.RemoveAll m h = Some h' ->
  heap_rel link_same_call h h' /\ forall id p, pm_map h' !! id = Some p -> pm_map h !! id = Some p.
Proof.
  assert (forall l l', obj_close l = Some l' -> link_same_call l l') as Hcl.
  { intros l l' Hc. unfold obj_close, link_object, Link.close in Hc. case_decide; [by simplify_eq|]. simpl in Hc.
    by destruct (chan_close _); simplify_eq. }
  assert (forall id h h', pm_close_delete id h = Some h' ->
    heap_rel link_same_call h h' /\ forall i p, pm_map h' !! i = Some p -> pm_map h !! i = Some p) as Hone.
  { intros id h0 h1 H. destruct (pm_close_delete_inv link_same_call id h0 h1 ltac:(done) Hcl H) as [-> HR].
    split; [done|]. intros i p [_ ?]%lookup_delete_Some. done. }
  assert (forall l1 l2 l3, link_same_call l1 l2 -> link_same_call l2 l3 -> link_same_call l1 l3) as Htr.
  { intros l1 l2 l3 (? & ? & ? & ?) (? & ? & ? & ?). split_and!; [congruence|congruence|auto|congruence]. }
  assert (forall sort h h', Link.remove_others m sort h = Some h' ->
    heap_rel link_same_call h h' /\ forall i p, pm_map h' !! i = Some p -> pm_map h !! i = Some p) as Hothers.
  { induction sort as [|id sort IH]; intros h0 h1 H; simpl in H; [simplify_eq; split; [by apply heap_rel_refl|done]|].
    case_decide; [by apply IH|]. destruct (pm_close_delete id h0) as [h2|] eqn:E; [|done].
    destruct (Hone _ _ _ E) as [R1 M1]. destruct (IH _ _ H) as [R2 M2].
    split; [by eapply heap_rel_trans|auto]. }
  unfold Link.RemoveAll. destruct (pm_deref h m) as [q|]; [|intros [= <-]; split; [by apply heap_rel_refl|done]].
  destruct (Link.remove_others m (l_sorted q) h) as [h1|] eqn:E; [|done]. intros H.
  destruct (Hothers _ _ _ E) as [R1 M1]. destruct (Hone _ _ _ H) as [R2 M2].
  split; [by eapply heap_rel_trans|auto].
Qed.

Lemma Links_remove h h' T t tr tr' ca ca' m :
  Links h T -> T t = Some (tr, ca) -> tr_master tr = Some m -> goes_on tr ca tr' ca' ->
  (forall oo, ca_pc ca' = TConn oo -> ca_pc ca = TConn oo) -> Link.RemoveAll m h = Some h' ->
  Links h' (upd t (tr', ca') T) /\ sends_keep h h'.
Proof.
  intros HK Ht Hm Hgo Hpc Hr. destruct (RemoveAll_inv _ _ _ Hr) as [HR Hmap'].
  destruct (RemoveAll_ok m h (K_wf _ _ HK)) as (h1 & E & Hwf' & Hw).
  assert (h1 = h') as -> by congruence. split; [|by apply link_same_call_keep].
  assert (forall i, pm_map h !! i = None -> pm_map h' !! i = None) as Hnone.
  { intros i Hi. destruct (pm_map h' !! i) eqn:Ei; [|done]. apply Hmap' in Ei. congruence. }
  assert (pm_map h' !! m = None) as Hgone.
  { rewrite (proj1 Hw). unfold pm_deref. destruct (pm_map h !! m) as [p|] eqn:Hp; [|by case_decide].
    destruct (proj1 (K_wf _ _ HK) _ _ Hp) as (l & -> & _). rewrite decide_True by set_solver. done. }
  destruct HK as [Hwf Hmap Hown Hl].
  eapply (Links_upd _ _ t tr ca); [done|done| |].
  - intros m' Hm'. destruct Hgo as (_ & Hgm & _). rewrite (Hgm _ Hm) in Hm'. simplify_eq.
    split; [done|]. intros oo Hoo. destruct (Hl t tr ca _ Ht Hm) as [_ L2]. destruct (L2 oo (Hpc oo Hoo)) as (l & Hpl & E').
    destruct (heap_rel_l _ _ _ _ _ HR Hpl) as (l' & ? & ? & _). exists l'. split; [done|congruence].
  - split; [done|..].
    + intros id p l' Hp (l & Hpl & -> & _)%(heap_rel_r _ _ _ _ _ HR). eapply Hmap; [by apply Hmap'|done].
    + intros p l' (l & Hpl & -> & -> & Hc & _)%(heap_rel_r _ _ _ _ _ HR). rewrite (proj1 HR).
      destruct (Hown p l Hpl) as (t1 & tr1 & ca1 & ? & ? & ? & ? & ?). exists t1, tr1, ca1. split_and!; auto.
    + intros t1 tr1 ca1 m1 Ht1 Hm1. destruct (Hl t1 tr1 ca1 m1 Ht1 Hm1) as (L1 & L2). split; [auto|].
      intros oo Hoo. destruct (L2 oo Hoo) as (l & Hpl & E').
      destruct (heap_rel_l _ _ _ _ _ HR Hpl) as (l' & ? & ? & _). exists l'. split; [done|congruence].
Qed.

(** A step of [Send] changes buffers, status, [done], and writes to the
    connection. *)
Lemma l_send_still me h pc ev h' pc' :
  Link.Send_step me h pc ev = Some (h', pc') -> heap_rel link_still h h' /\ pm_map h' = pm_map h.
Proof.
  unfold Link.Send_step. intros H. destruct (pm_heap h !! me) as [q|] eqn:Hq; [|done].
  assert (forall p f, (forall l, link_still l (f l)) ->
    heap_rel link_still h (pm_update p f h) /\ pm_map (pm_update p f h) = pm_map h) as Hup.
  { intros p f Hf. split; [|done]. apply heap_rel_update; [done|]. auto. }
  assert (heap_rel link_still h h /\ pm_map h = pm_map h) as Hid by (split; [by apply heap_rel_refl|done]).
  destruct pc as [| | |[|id rest]|s rest|rest b|r|r|r|r], ev; simpl in *; try done;
    repeat case_match; simplify_eq; try done; try (by apply Hup).
  all: split; [|done]; apply heap_rel_update; [done|]; intros l Hl; simplify_eq; split_and!; [done|done|].
  all: match goal with E : safeWrite _ (l_conn ?l) _ _ = _ |- _ => unfold safeWrite in E; by destruct (l_conn l); simplify_eq end.
Qed.
End links.
End table.
