(* ===== verification/ClientSafe.v ===== *)
(** The client never panics, and what its calls leave behind
    (wss/wssocks_client.go).

    [cp_inv] holds in every state of the client process (ClientProc.v), whatever
    its goroutines do and whatever the server sends, with one proviso
    ([polite]): the server sends the finish message of a connection only after
    it was told to establish it.  System.v discharges the proviso for the
    server of this program. *)
From S2P Require Import Prelude GoChan Pipe RoundRobin PtrMap Queue QueueHub Link Starts Sends Striping Base64 Json.
From S2P Require Import Messages Hub Server Client Finish Wire Direction ClientProc ClientTable.

Section inv.
Context {K : Ksuid} `{!KsuidText K}.
Implicit Types (id m : KSUID) (t : nat) (tr : trans) (ca : call) (c : client) (s : cproc) (T : calls).

(** * Parts of the invariant *)

(** The loop has made as many IDs as it has got to, and added as many writers. *)
Definition loop_ok (n : nat) tr ca : Prop :=
  length (ca_writers ca) = added tr ca /\
  match ca_pc ca with
  | TLoop i => length (tr_sorted tr) = i /\ i <= n
  | TSay i id | TWriter i id | TLink i id =>
      tr_sorted tr !! i = Some id /\ length (tr_sorted tr) = S i /\ S i <= n
  | _ => length (tr_sorted tr) = n
  end.

Record call_ok (n : nat) tr ca : Prop := {
  co_master : tr_master tr = head (tr_sorted tr);
  co_nodup : NoDup (tr_sorted tr);
  co_loop : loop_ok n tr ca;
  co_early : rank (ca_pc ca) <= 1 -> ~ removed tr;
  co_late : 8 <= rank (ca_pc ca) -> removed tr;
}.

Record calls_ok (n : nat) T : Prop := {
  cs_owner : one_owner T;
  cs_call t tr ca : T t = Some (tr, ca) -> call_ok n tr ca;
}.

(** The proxy of [id] on websocket [i], and the writer [w], have not been undone
    by the deferred calls. *)
Definition proxy_left ca (i : nat) id : Prop :=
  match ca_pc ca with
  | TUndo l _ => (i, id) ∈ map fst l
  | TUndoProxy i' id' l _ => (i, id) ∈ (i', id') :: map fst l
  | TEnd _ => False
  | _ => True
  end.

Definition writer_left ca (w : nat) : Prop :=
  match ca_pc ca with
  | TUndo l _ | TUndoProxy _ _ l _ => w ∈ map snd l
  | TEnd _ => False
  | _ => True
  end.

Definition proxies_ok c T : Prop :=
  forall i id proxy, wsc_GetProxyById i id c = Some proxy ->
    exists tr ca, T (p_trans proxy) = Some (tr, ca) /\ tr_sorted tr !! i = Some id /\ proxy_left ca i id.

Record writers_ok (ws : list webSocketWriter) T : Prop := {
  wo_own w x : ws !! w = Some x ->
    exists t tr ca, T t = Some (tr, ca) /\ tr_sorted tr !! w_WSC x = Some (w_Id x);
  wo_left t tr ca w x : T t = Some (tr, ca) -> w ∈ ca_writers ca -> ws !! w = Some x ->
    writer_left ca w \/ cancelled x;
  wo_valid t tr ca w : T t = Some (tr, ca) -> w ∈ ca_writers ca -> w < length ws;
}.

Record cp_inv s : Prop := {
  ci_some : 0 < length (cl_wsc (pr_client s));
  ci_len : length (pr_calls s) = length (cl_trans (pr_client s));
  ci_calls : calls_ok (length (cl_wsc (pr_client s))) (calls_of s);
  ci_proxies : proxies_ok (pr_client s) (calls_of s);
  ci_writers : writers_ok (cl_writers (pr_client s)) (calls_of s);
  ci_queues : Queues (clientQueueHub (pr_client s)) (calls_of s);
  ci_qsends : sends_ok (clientQueueHub (pr_client s)) (pr_qsends s);
  ci_links : Links (clientLinkHub (pr_client s)) (calls_of s);
  ci_lsends : sends_ok (clientLinkHub (pr_client s)) (pr_lsends s);
}.

(** * How the parts are kept *)

Lemma calls_own_master n T : calls_ok n T -> own_master T.
Proof.
  intros [_ Hc] t tr ca m Ht Hm. rewrite (co_master _ _ _ (Hc _ _ _ Ht)) in Hm.
  destruct (tr_sorted tr); simplify_eq/=. set_solver.
Qed.

Lemma calls_one_master n T : calls_ok n T -> one_master T.
Proof. intros H. apply one_owner_master; [apply H|by eapply calls_own_master]. Qed.

Lemma upd_inv t x T t' y : upd t x T t' = Some y -> (t' = t /\ y = x) \/ (t' <> t /\ T t' = Some y).
Proof. unfold upd. case_decide; [intros [= <-]; by left|by right]. Qed.

Lemma upd_other t x T t' : t' <> t -> upd t x T t' = T t'.
Proof. intros. unfold upd. by rewrite decide_False. Qed.

Lemma upd_same t x T : upd t x T t = Some x.
Proof. unfold upd. by rewrite decide_True. Qed.

(** The IDs of a call are those it had, or one that no call has comes last. *)
Definition ids_go_on T tr tr' : Prop :=
  tr_sorted tr' = tr_sorted tr \/
  exists id, tr_sorted tr' = tr_sorted tr ++ [id] /\ forall t tr0 ca0, T t = Some (tr0, ca0) -> id ∉ tr_sorted tr0.

Lemma calls_ok_upd n T t tr ca tr' ca' :
  calls_ok n T -> T t = Some (tr, ca) -> ids_go_on T tr tr' -> call_ok n tr' ca' ->
  calls_ok n (upd t (tr', ca') T).
Proof.
  intros [Ho Hc] Ht Hids Hok. split.
  2: { intros t1 tr1 ca1 [[-> [= -> ->]]|[_ H1]]%upd_inv; [done|by eapply Hc]. }
  assert (forall t1 tr1 ca1 id, T t1 = Some (tr1, ca1) -> id ∈ tr_sorted tr1 -> id ∈ tr_sorted tr' -> t1 = t) as Hx.
  { intros t1 tr1 ca1 id Ht1 Hid. destruct Hids as [->|(i & -> & Hn)]; [by eapply Ho|].
    intros [?| ->%list_elem_of_singleton]%elem_of_app; [by eapply Ho|]. by destruct (Hn _ _ _ Ht1). }
  intros t1 t2 tr1 tr2 ca1 ca2 id [[-> [= -> ->]]|[Hn1 H1]]%upd_inv [[-> [= -> ->]]|[Hn2 H2]]%upd_inv Hi1 Hi2;
    [done| | |by eapply Ho]; [symmetry|]; by eapply Hx.
Qed.

Lemma proxies_ok_upd c c' T t tr ca tr' ca' :
  proxies_ok c T -> T t = Some (tr, ca) -> tr_sorted tr `prefix_of` tr_sorted tr' ->
  (forall i id proxy, wsc_GetProxyById i id c' = Some proxy -> wsc_GetProxyById i id c = Some proxy) ->
  (forall i id proxy, wsc_GetProxyById i id c' = Some proxy -> tr_sorted tr !! i = Some id ->
     proxy_left ca i id -> proxy_left ca' i id) ->
  proxies_ok c' (upd t (tr', ca') T).
Proof.
  intros Hp Ht Hpre Hback Hleft i id proxy Hpx. destruct (Hp i id proxy (Hback _ _ _ Hpx)) as (tr1 & ca1 & Ht1 & Hid & Hl).
  unfold upd. case_decide as E; [|by exists tr1, ca1]. rewrite E, Ht in Ht1. injection Ht1 as <- <-.
  exists tr', ca'. split_and!; [done|by eapply prefix_lookup_Some|by eapply Hleft].
Qed.

Lemma writers_ok_upd ws T t tr ca tr' ca' :
  writers_ok ws T -> T t = Some (tr, ca) -> tr_sorted tr `prefix_of` tr_sorted tr' ->
  ca_writers ca' = ca_writers ca ->
  (forall w, w ∈ ca_writers ca -> writer_left ca w -> writer_left ca' w) ->
  writers_ok ws (upd t (tr', ca') T).
Proof.
  intros [Ho Hl Hv] Ht Hpre Hw Hleft. split.
  - intros w x Hx. destruct (Ho w x Hx) as (t1 & tr1 & ca1 & Ht1 & Hid). destruct (decide (t1 = t)) as [->|Hne].
    + simplify_eq. exists t, tr', ca'. rewrite upd_same. split; [done|]. by eapply prefix_lookup_Some.
    + exists t1, tr1, ca1. by rewrite upd_other.
  - intros t1 tr1 ca1 w x [[-> [= -> ->]]|[_ H1]]%upd_inv; [|by eapply Hl]. rewrite Hw. intros Hin Hx.
    destruct (Hl t tr ca w x Ht Hin Hx); [left; auto|by right].
  - intros t1 tr1 ca1 w [[-> [= -> ->]]|[_ H1]]%upd_inv; [rewrite Hw|]; by eapply Hv.
Qed.

(** The invariant, of calls given as a table. *)
Record cp_inv_at s T : Prop := {
  ca_calls : calls_ok (length (cl_wsc (pr_client s))) T;
  ca_proxies : proxies_ok (pr_client s) T;
  ca_wr : writers_ok (cl_writers (pr_client s)) T;
  ca_queues : Queues (clientQueueHub (pr_client s)) T;
  ca_qsends : sends_ok (clientQueueHub (pr_client s)) (pr_qsends s);
  ca_links : Links (clientLinkHub (pr_client s)) T;
  ca_lsends : sends_ok (clientLinkHub (pr_client s)) (pr_lsends s);
}.

Lemma cp_inv_intro s T :
  0 < length (cl_wsc (pr_client s)) -> length (pr_calls s) = length (cl_trans (pr_client s)) ->
  (forall t, calls_of s t = T t) -> cp_inv_at s T -> cp_inv s.
Proof.
  intros Hn Hlen E [[Ho Hc] Hp [W1 W2 W3] Hq Hqs Hl Hls].
  split; [done|done| | | |by eapply Queues_ext|done|by eapply Links_ext|done].
  - split; [intros t1 t2 tr1 tr2 ca1 ca2 id; rewrite !E; apply Ho|intros t tr ca; rewrite E; apply Hc].
  - intros i id proxy H. destruct (Hp i id proxy H) as (tr & ca & ? & ?). exists tr, ca. by rewrite E.
  - split; [|intros t tr ca w x; rewrite E; apply W2|intros t tr ca w; rewrite E; apply W3].
    intros w x Hx. destruct (W1 w x Hx) as (t & tr & ca & ? & ?). exists t, tr, ca. by rewrite E.
Qed.

Lemma cp_inv_elim s : cp_inv s -> cp_inv_at s (calls_of s).
Proof. intros [? ? ? ? ? ? ? ? ?]. by split. Qed.

Lemma calls_of_some s t tr ca :
  calls_of s t = Some (tr, ca) -> cl_trans (pr_client s) !! t = Some tr /\ pr_calls s !! t = Some ca.
Proof. unfold calls_of. by destruct (cl_trans _ !! t), (pr_calls s !! t); simpl; intros; simplify_eq. Qed.

Lemma calls_of_call s t ca : cp_inv s -> pr_calls s !! t = Some ca -> exists tr, calls_of s t = Some (tr, ca).
Proof.
  intros Hinv Hca. unfold calls_of. rewrite Hca.
  destruct (lookup_lt_is_Some_2 (cl_trans (pr_client s)) t) as [tr ->]; [|by exists tr].
  rewrite <- (ci_len _ Hinv). by eapply lookup_lt_Some.
Qed.

Lemma calls_of_trans s t tr : cp_inv s -> cl_trans (pr_client s) !! t = Some tr -> exists ca, calls_of s t = Some (tr, ca).
Proof.
  intros Hinv Htr. unfold calls_of. rewrite Htr. simpl.
  destruct (lookup_lt_is_Some_2 (pr_calls s) t) as [ca ->]; [|by exists ca].
  rewrite (ci_len _ Hinv). by eapply lookup_lt_Some.
Qed.

Lemma calls_of_same s t tr ca :
  calls_of s t = Some (tr, ca) -> cl_trans (pr_client s) = <[t := tr]> (cl_trans (pr_client s)).
Proof. intros [H _]%calls_of_some. symmetry. by apply list_insert_id. Qed.

(** A step of the call [t]. *)
Lemma cp_inv_call s t tr ca tr' ca' c' :
  cp_inv s -> calls_of s t = Some (tr, ca) ->
  cl_trans c' = <[t := tr']> (cl_trans (pr_client s)) -> length (cl_wsc c') = length (cl_wsc (pr_client s)) ->
  cp_inv_at (set_pr_client c' s) (upd t (tr', ca') (calls_of s)) ->
  cp_inv (set_call t ca' (set_pr_client c' s)).
Proof.
  intros [Hn Hlen _ _ _ _ _ _ _] Ht Htr Hwsc [? ? ? ? ? ? ?].
  assert (t < length (pr_calls s)) as Hlt.
  { unfold calls_of in Ht. destruct (cl_trans (pr_client s) !! t) eqn:E; [|done].
    rewrite Hlen. by eapply lookup_lt_Some. }
  eapply cp_inv_intro; simpl; [lia|by rewrite length_insert, Htr, length_insert| |by split].
  intros t'. unfold calls_of, upd. simpl. rewrite Htr. case_decide as E.
  - subst t'. by rewrite !list_lookup_insert_eq by lia.
  - by rewrite !list_lookup_insert_ne.
Qed.

(** A step that does not change the calls. *)
Lemma cp_inv_same s s' :
  cp_inv s -> cl_trans (pr_client s') = cl_trans (pr_client s) -> pr_calls s' = pr_calls s ->
  length (cl_wsc (pr_client s')) = length (cl_wsc (pr_client s)) ->
  cp_inv_at s' (calls_of s) -> cp_inv s'.
Proof.
  intros [Hn Hlen _ _ _ _ _ _ _] Htr Hca Hwsc H. eapply cp_inv_intro; [lia|by rewrite Hca, Htr| |exact H].
  intros t. unfold calls_of. by rewrite Htr, Hca.
Qed.

(** * The steps of a call *)

Lemma sends_go_ok {V PC} `{!Sender V PC} (h : ptrmap V) (pcs : gmap nat PC) : sends_ok h pcs -> pm_go_ok h.
Proof.
  intros [_ Hs _ _]. apply Forall_lookup. intros g p (v & Hv & _)%Hs. by eapply lookup_lt_Some.
Qed.

Lemma queue_live_pc h tr ca ca' m :
  queue_live h tr ca m -> added tr ca' <= added tr ca -> (forall qq, ca_pc ca' <> TSort qq) ->
  queue_live h tr ca' m.
Proof. intros (L1 & L2 & _) Ha Hpc. split_and!; [done| |by intros qq ?%Hpc]. intros Hr k id Hk. apply L2; [done|lia]. Qed.

Lemma link_live_pc h tr ca ca' m :
  link_live h tr ca m -> (forall oo, ca_pc ca' <> TConn oo) -> link_live h tr ca' m.
Proof. intros (L1 & _) Hpc. split; [done|by intros oo ?%Hpc]. Qed.

(** A call goes to another program point, and nothing else changes. *)
Lemma cp_inv_go s t tr ca pc :
  cp_inv s -> calls_of s t = Some (tr, ca) -> rank (ca_pc ca) <= rank pc ->
  call_ok (length (cl_wsc (pr_client s))) tr (set_ca_pc pc ca) ->
  (forall m, tr_master tr = Some m -> queue_live (clientQueueHub (pr_client s)) tr (set_ca_pc pc ca) m /\
     link_live (clientLinkHub (pr_client s)) tr (set_ca_pc pc ca) m) ->
  (forall i id proxy, wsc_GetProxyById i id (pr_client s) = Some proxy -> tr_sorted tr !! i = Some id ->
     proxy_left ca i id -> proxy_left (set_ca_pc pc ca) i id) ->
  (forall w, w ∈ ca_writers ca -> writer_left ca w -> writer_left (set_ca_pc pc ca) w) ->
  cp_inv (set_call t (set_ca_pc pc ca) s).
Proof.
  intros Hinv Ht Hr Hok Hlive Hpx Hw. pose proof (cp_inv_elim _ Hinv) as [? ? ? ? ? ? ?].
  assert (goes_on tr ca tr (set_ca_pc pc ca)) as Hgo by (by split_and!).
  change (set_call t (set_ca_pc pc ca) s) with (set_call t (set_ca_pc pc ca) (set_pr_client (pr_client s) s)).
  eapply (cp_inv_call s t tr ca tr); [done|done|by eapply calls_of_same|done|].
  split; simpl; [|by eapply proxies_ok_upd|by eapply writers_ok_upd| |done| |done].
  - eapply calls_ok_upd; [done|done|by left|done].
  - eapply Queues_upd; [done|done|by intros m []%Hlive|done].
  - eapply Links_upd; [done|done|by intros m []%Hlive|done].
Qed.

(** What is known of a call in a state that satisfies the invariant. *)
Lemma cp_inv_known s t tr ca :
  cp_inv s -> calls_of s t = Some (tr, ca) ->
  call_ok (length (cl_wsc (pr_client s))) tr ca /\
  forall m, tr_master tr = Some m -> queue_live (clientQueueHub (pr_client s)) tr ca m /\
                                   link_live (clientLinkHub (pr_client s)) tr ca m.
Proof.
  intros Hinv Ht. split; [by eapply (cs_call _ _ (ci_calls _ Hinv))|].
  intros m Hm. split; [by eapply (ci_queues _ Hinv)|by eapply (ci_links _ Hinv)].
Qed.

(** Getting the queue, once all connections are added: it has all writers. *)
Lemma got_queue s t tr ca m qq :
  cp_inv s -> calls_of s t = Some (tr, ca) -> tr_master tr = Some m -> added tr ca = length (tr_sorted tr) ->
  QueueHub.Get m (clientQueueHub (pr_client s)) = Some qq ->
  exists q, pm_heap (clientQueueHub (pr_client s)) !! qq = Some q /\ q_masterID q = m /\ has_writers q (tr_sorted tr).
Proof.
  intros Hinv Ht Hm Hadd Hqq. pose proof (ci_queues _ Hinv) as HQ.
  destruct (Q_live _ _ HQ t tr ca m Ht Hm) as (L1 & L2 & _). unfold QueueHub.Get in Hqq.
  assert (~ removed tr) as Hr by (intros H%L1; congruence).
  destruct (proj1 (Q_wf _ _ HQ) _ _ Hqq) as (q & Hq & _). exists q. split_and!; [done|by eapply (Q_map _ _ HQ)|].
  intros id [k Hk]%list_elem_of_lookup.
  destruct (L2 Hr k id ltac:(apply lookup_lt_Some in Hk; lia) Hk) as (p & q' & Hp & Hq' & Hw). by simplify_eq.
Qed.

Lemma got_link s t tr ca m oo :
  cp_inv s -> calls_of s t = Some (tr, ca) -> tr_master tr = Some m ->
  Link.Get m (clientLinkHub (pr_client s)) = Some oo ->
  exists l, pm_heap (clientLinkHub (pr_client s)) !! oo = Some l /\ l_master l = m.
Proof.
  intros Hinv Ht Hm Hoo. pose proof (ci_links _ Hinv) as HK. unfold Link.Get in Hoo.
  destruct (proj1 (K_wf _ _ HK) _ _ Hoo) as (l & Hl & _). exists l. split; [done|].
  destruct (K_map _ _ HK _ _ _ Hoo Hl) as (t1 & tr1 & ca1 & Ht1 & Hm1 & Hin).
  assert (t1 = t) as ->; [|by simplify_eq].
  eapply (cs_owner _ _ (ci_calls _ Hinv)); [done|done|done|].
  by eapply (calls_own_master _ _ (ci_calls _ Hinv)).
Qed.

(** The steps that only change the program point. *)
Lemma call_moves s t tr ca pc :
  cp_inv s -> calls_of s t = Some (tr, ca) ->
  match ca_pc ca, pc with
  | TLoop i, TEst => length (cl_wsc (pr_client s)) <= i
  | TSay i id, TWriter i' id' => i' = i /\ id' = id
  | TEst, TGetQueue | TEst, TRemove _ | TGetQueue, TRemove _ | TGetLink, TRemove _ | TWaiting _, TRemove _ => True
  | TGetQueue, TSort qq => QueueHub.Get (default ksuid_Nil (tr_master tr)) (clientQueueHub (pr_client s)) = Some qq
  | TGetLink, TConn oo => Link.Get (default ksuid_Nil (tr_master tr)) (clientLinkHub (pr_client s)) = Some oo
  | TUndo [] _, TEnd _ => True
  | _, _ => False
  end -> cp_inv (set_call t (set_ca_pc pc ca) s).
Proof.
  intros Hinv Ht Hmove. destruct (cp_inv_known s t tr ca Hinv Ht) as [[Hm Hnd [Hw Hl] He Hlate] Hlive].
  unfold loop_ok, added in *.
  destruct (ca_pc ca) as [i|i id|i id|i id| | |qq| |oo|oo|err|[|[[i id] w] l] err|i id l err|err] eqn:E, pc; try done.
  all: apply (cp_inv_go s t tr ca); [done|done|rewrite E; simpl; lia|..].
  all: try (intros * Hpx Hsid; unfold proxy_left; rewrite E; simpl; first [done|by intros ?%not_elem_of_nil]).
  all: try (intros * Hwin; unfold writer_left; rewrite E; simpl; first [done|by intros ?%not_elem_of_nil]).
  all: match goal with
       | |- call_ok _ _ _ => split; [done|done|..]; simpl in *
       | |- forall m, _ => idtac
       end.
  all: try done.
  all: try (intros; lia).
  all: try (intros _; first [apply He|apply Hlate]; simpl; lia).
  all: try (intros m' Hm'; destruct (Hlive m' Hm') as [Hq Hk]; split;
    [apply (queue_live_pc _ _ ca); [done|unfold added; rewrite E; simpl; lia|done]
    |apply (link_live_pc _ _ ca); done]).
  - split; simpl; [|lia]. rewrite Hw. unfold added. simpl. lia.
  - destruct Hmove as [-> ->]. by split.
  - intros m Hm'. destruct (Hlive m Hm') as [Hq Hk]. split; [|by apply (link_live_pc _ _ ca)].
    destruct Hq as (L1 & L2 & _). split_and!; [done| |].
    + intros Hr k id Hki. apply L2; [done|]. unfold added in *. by rewrite E.
    + intros qq' [= <-]. rewrite Hm' in Hmove. eapply got_queue; [done..| |done]. unfold added. by rewrite E.
  - intros m Hm'. destruct (Hlive m Hm') as [Hq Hk]. split.
    + apply (queue_live_pc _ _ ca); [done|unfold added; rewrite E; simpl; lia|done].
    + destruct Hk as (L1 & _). split; [done|]. intros oo' [= <-]. rewrite Hm' in Hmove. by eapply got_link.
Qed.

(** [w.NewProxy] with a new ID. *)
Lemma call_news s t tr ca i id :
  cp_inv s -> calls_of s t = Some (tr, ca) -> ca_pc ca = TLoop i -> i < length (cl_wsc (pr_client s)) ->
  id ∉ issued_ids (pr_client s) ->
  let m := if Nat.eqb i 0 then id else default ksuid_Nil (tr_master tr) in
  let tr' := mkTrans (tr_status tr) (Some m) (tr_sorted tr ++ [id]) in
  let s1 := NewProxy i t id (pr_client s) in
  cp_inv (set_call t (set_ca_pc (TSay i id) ca) (set_pr_client (set_ctrans (<[t := tr']> (cl_trans s1)) s1) s)).
Proof.
  intros Hinv Ht E Hi Hid m tr' s1. destruct (cp_inv_known s t tr ca Hinv Ht) as [[Hm Hnd [Hw Hl] He Hlate] Hlive].
  unfold added in Hw. rewrite E in *. destruct Hl as [Hl Hle].
  assert (forall t0 tr0 ca0, calls_of s t0 = Some (tr0, ca0) -> id ∉ tr_sorted tr0) as Hnew.
  { intros t0 tr0 ca0 Ht0 Hin. apply Hid. unfold issued_ids. apply list_elem_of_In, in_concat. exists (tr_sorted tr0).
    split; [|by apply list_elem_of_In]. apply list_elem_of_In, list_elem_of_fmap. exists tr0. split; [done|].
    destruct (calls_of_some _ _ _ _ Ht0) as [Hx _]. by eapply list_elem_of_lookup_2. }
  assert (tr_master tr' = head (tr_sorted tr') /\ forall m0, tr_master tr = Some m0 -> m = m0) as [Hhead Hsame].
  { unfold tr', m. simpl. rewrite Hm. destruct (tr_sorted tr) as [|id0 l]; simpl in Hl; rewrite <- Hl; simpl;
      (split; [done|]); [done|]. intros m0 [= ->]. done. }
  assert (goes_on tr ca tr' (set_ca_pc (TSay i id) ca)) as Hgo.
  { split_and!; simpl; [by rewrite E|intros m0 Hm0; by rewrite (Hsame m0 Hm0)|by apply prefix_app_r]. }
  pose proof (cp_inv_elim _ Hinv) as [Hcs Hpx Hwr HQ HqS HK HlS].
  eapply (cp_inv_call s t tr ca tr'); [done|done|done|simpl; by rewrite length_alter|].
  split; simpl; rewrite ?length_alter; [| | | |done| |done].
  3: { eapply (writers_ok_upd _ _ t tr ca); [done|done|by apply prefix_app_r|done|].
       intros w _. unfold writer_left. by rewrite E. }
  - eapply calls_ok_upd; [done|done|right; by exists id|]. split; simpl; [done| |split|intros _; apply He; simpl; lia|lia].
    + apply NoDup_app. split_and!; [done| |apply NoDup_singleton]. intros x Hx ->%list_elem_of_singleton.
      by eapply (Hnew t tr ca).
    + unfold added. simpl. lia.
    + simpl. rewrite lookup_app_r, Hl, Nat.sub_diag, length_app by lia. simpl. split_and!; [done|lia|lia].
  - intros i0 id0 px Hp. unfold upd.
    assert (px = mkProxyClient id t /\ i0 = i /\ id0 = id \/ wsc_GetProxyById i0 id0 (pr_client s) = Some px) as [(-> & -> & ->)|Hp'].
    { change (wsc_GetProxyById i0 id0 (NewProxy i t id (pr_client s)) = Some px) in Hp.
      rewrite NewProxy_get in Hp by done. case_decide as Hd; [left|by right]. destruct Hd as [-> ->]. by simplify_eq. }
    + simpl. rewrite decide_True by done. eexists _, _. split_and!; [done| |done]. simpl.
      by rewrite lookup_app_r, Hl, Nat.sub_diag by lia.
    + destruct (Hpx i0 id0 px Hp') as (tr0 & ca0 & Ht0 & Hi0 & Hleft). case_decide as Hd; [|by exists tr0, ca0].
      rewrite Hd in Ht0. simplify_eq. eexists _, _. split_and!; [done| |done]. simpl. by apply lookup_app_l_Some.
  - eapply Queues_upd; [done|done| |done]. intros m0 [= <-]. split_and!; simpl; [|..|done].
    + intros Hr. exfalso. apply He; [simpl; lia|done].
    + intros Hr k id0 Hk Hid0. unfold added in Hk. simpl in Hk. rewrite lookup_app_l in Hid0 by lia.
      destruct (tr_master tr) as [m0|] eqn:Em; [|destruct (tr_sorted tr); simpl in *; [lia|done]].
      destruct (Hlive m0 eq_refl) as [(_ & L2 & _) _]. rewrite (Hsame m0 eq_refl). apply (L2 Hr k id0); [|done].
      unfold added. by rewrite E.
  - eapply Links_upd; [done|done| |done]. intros m0 _. split; [|done]. intros Hr. exfalso. apply He; [simpl; lia|done].
Qed.

(** The writer of a connection, and [clientQueueHub.Add]. *)
Lemma call_adds now s t tr ca i id m :
  cp_inv s -> calls_of s t = Some (tr, ca) -> ca_pc ca = TWriter i id -> tr_master tr = Some m ->
  let c := pr_client s in
  let w := length (cl_writers c) in
  let s1 := set_cwriters (cl_writers c ++ [NewWebSocketWriter i id]) c in
  cp_inv (set_call t (set_ca_pc (TLink i id) (add_ca_writer w ca))
    (set_pr_client (set_cqueues (QueueHub.Add now m id w (clientQueueHub s1)) s1) s)).
Proof.
  intros Hinv Ht E Hm c w s1. subst c. destruct (cp_inv_known s t tr ca Hinv Ht) as [[Hmm Hnd [Hw Hl] He Hlate] Hlive].
  unfold added in Hw. rewrite E in *. destruct Hl as (Hid & Hl & Hle).
  pose proof (cp_inv_elim _ Hinv) as [Hcs Hpx Hwr HQ HqS HK HlS].
  assert (~ removed tr) as Hrem by (apply He; simpl; lia).
  set (ca' := set_ca_pc (TLink i id) (add_ca_writer w ca)).
  destruct (Queues_add now id w _ _ t tr ca ca' m HQ (calls_one_master _ _ Hcs) (sends_go_ok _ _ HqS) Ht Hm Hrem)
    as [HQ' Hkeep]; [by rewrite E|done|unfold added; by rewrite E|unfold added; by rewrite E|].
  eapply (cp_inv_call s t tr ca tr); [done|done|by eapply calls_of_same|done|].
  split; simpl; [| | |done|by eapply sends_ok_keep| |done].
  - eapply calls_ok_upd; [done|done|by left|]. split; simpl; [done|done| |done|lia]. split; simpl; [|done].
    rewrite length_app, Hw. unfold added. simpl. lia.
  - eapply proxies_ok_upd; [done|done|done|done|]. intros * _ _. unfold proxy_left. by rewrite E.
  - destruct Hwr as [W1 W2 W3]. split.
    + intros w0 x [Hx|[Hlt Hx]]%lookup_app_Some.
      * destruct (W1 w0 x Hx) as (t1 & tr1 & ca1 & Ht1 & Hid1). unfold upd. destruct (decide (t1 = t)) as [->|Hne].
        -- rewrite Ht in Ht1. injection Ht1 as <- <-. exists t, tr, ca'. by rewrite decide_True.
        -- exists t1, tr1, ca1. by rewrite decide_False.
      * apply list_lookup_singleton_Some in Hx as [_ <-]. exists t, tr, ca'. rewrite upd_same. done.
    + intros t1 tr1 ca1 w0 x [[-> [= -> ->]]|[_ H1]]%upd_inv Hin; [by left|].
      intros [Hx|[Hlt Hx]]%lookup_app_Some; [by eapply W2|]. pose proof (W3 _ _ _ _ H1 Hin). lia.
    + intros t1 tr1 ca1 w0 [[-> [= -> ->]]|[_ H1]]%upd_inv Hin; rewrite length_app; simpl.
      * simpl in Hin. apply elem_of_app in Hin as [Hin| ->%list_elem_of_singleton]; [|unfold w; lia].
        pose proof (W3 _ _ _ _ Ht Hin). lia.
      * pose proof (W3 _ _ _ _ H1 Hin). lia.
  - eapply Links_upd; [done|by split_and!; [simpl; rewrite E|..]| |done]. intros m0 Hm0.
    apply (link_live_pc _ _ ca); [by apply Hlive|done].
Qed.

(** [clientLinkHub.Add]. *)
Lemma call_links now s t tr ca i id m :
  cp_inv s -> calls_of s t = Some (tr, ca) -> ca_pc ca = TLink i id -> tr_master tr = Some m ->
  let c := pr_client s in
  cp_inv (set_call t (set_ca_pc (TLoop (S i)) ca)
    (set_pr_client (set_clinks (Link.Add now id m (clientLinkHub c)) c) s)).
Proof.
  intros Hinv Ht E Hm c. subst c. destruct (cp_inv_known s t tr ca Hinv Ht) as [[Hmm Hnd [Hw Hl] He Hlate] Hlive].
  unfold added in Hw. rewrite E in *. destruct Hl as (Hid & Hl & Hle).
  pose proof (cp_inv_elim _ Hinv) as [Hcs Hpx Hwr HQ HqS HK HlS].
  assert (~ removed tr) as Hrem by (apply He; simpl; lia).
  set (ca' := set_ca_pc (TLoop (S i)) ca).
  destruct (Links_add now id _ _ t tr ca ca' m HK (cs_owner _ _ Hcs) (calls_own_master _ _ Hcs) (sends_go_ok _ _ HlS)
    Ht Hm Hrem) as [HK' Hkeep]; [by eapply list_elem_of_lookup_2|by rewrite E|done|].
  eapply (cp_inv_call s t tr ca tr); [done|done|by eapply calls_of_same|done|].
  assert (goes_on tr ca tr ca') as Hgo by (by split_and!; [simpl; rewrite E|..]).
  split; simpl; [| | | |done|done|by eapply sends_ok_keep].
  - eapply calls_ok_upd; [done|done|by left|]. split; simpl; [done|done|by split|done|lia].
  - eapply proxies_ok_upd; [done|done|done|done|]. intros * _ _. unfold proxy_left. by rewrite E.
  - eapply writers_ok_upd; [done|done|done|done|]. intros w _. unfold writer_left. by rewrite E.
  - eapply Queues_upd; [done|done| |done]. intros m0 Hm0.
    apply (queue_live_pc _ _ ca); [by apply Hlive|unfold added; by rewrite E|done].
Qed.

(** [qq.SetSort] and the two [go] statements. *)
Lemma call_sorts s t tr ca qq :
  cp_inv s -> calls_of s t = Some (tr, ca) -> ca_pc ca = TSort qq ->
  cp_inv (set_call t (set_ca_copy (CCopy qq) (set_ca_pc TGetLink ca))
    (set_pr_client (set_cqueues (pm_start qq (pm_update qq (Queue.SetSort (tr_sorted tr))
                                                (clientQueueHub (pr_client s)))) (pr_client s)) s)).
Proof.
  intros Hinv Ht E. destruct (cp_inv_known s t tr ca Hinv Ht) as [[Hmm Hnd [Hw Hl] He Hlate] Hlive].
  unfold added in Hw. rewrite E in *.
  pose proof (cp_inv_elim _ Hinv) as [Hcs Hpx Hwr HQ HqS HK HlS].
  set (ca' := set_ca_copy (CCopy qq) (set_ca_pc TGetLink ca)).
  assert (exists m, tr_master tr = Some m) as [m Hm].
  { rewrite Hmm. pose proof (ci_some _ Hinv). destruct (tr_sorted tr) as [|id l]; simpl in *; [lia|by exists id]. }
  destruct (Queues_start _ _ t tr ca ca' m qq HQ (calls_one_master _ _ Hcs) Ht Hm E) as [HQ' HS];
    [done|unfold added; by rewrite E|].
  assert (goes_on tr ca tr ca') as Hgo by (split_and!; [simpl; rewrite E; simpl; lia|done..]).
  eapply (cp_inv_call s t tr ca tr); [done|done|by eapply calls_of_same|done|].
  split; simpl; [| | |done|by apply HS| |done].
  - eapply calls_ok_upd; [done|done|by left|]. split; simpl; [done|done|by split|lia|lia].
  - eapply proxies_ok_upd; [done|done|done|done|]. intros * _ _. unfold proxy_left. by rewrite E.
  - eapply writers_ok_upd; [done|done|done|done|]. intros w _. unfold writer_left. by rewrite E.
  - eapply Links_upd; [done|done| |done]. intros m0 Hm0. apply (link_live_pc _ _ ca); [by apply Hlive|done].
Qed.

(** [oo.SetConn], [oo.SetSort] and [go oo.Send]. *)
Lemma call_conns s t tr ca oo :
  cp_inv s -> calls_of s t = Some (tr, ca) -> ca_pc ca = TConn oo ->
  cp_inv (set_call t (set_ca_pc (TWaiting oo) ca)
    (set_pr_client (set_clinks (pm_start oo (pm_update oo
       (fun l => Link.SetSort (tr_sorted tr) (Link.SetConn (ca_conn ca) l)) (clientLinkHub (pr_client s))))
       (pr_client s)) s)).
Proof.
  intros Hinv Ht E. destruct (cp_inv_known s t tr ca Hinv Ht) as [[Hmm Hnd [Hw Hl] He Hlate] Hlive].
  unfold added in Hw. rewrite E in *.
  pose proof (cp_inv_elim _ Hinv) as [Hcs Hpx Hwr HQ HqS HK HlS].
  set (ca' := set_ca_pc (TWaiting oo) ca).
  assert (exists m, tr_master tr = Some m) as [m Hm].
  { rewrite Hmm. pose proof (ci_some _ Hinv). destruct (tr_sorted tr) as [|id l]; simpl in *; [lia|by exists id]. }
  destruct (Links_start _ _ t tr ca ca' m oo (ca_conn ca) (tr_sorted tr) HK (calls_one_master _ _ Hcs) Ht Hm E)
    as [HK' HS]; [done..|].
  assert (goes_on tr ca tr ca') as Hgo by (split_and!; [simpl; rewrite E; simpl; lia|done..]).
  eapply (cp_inv_call s t tr ca tr); [done|done|by eapply calls_of_same|done|].
  split; simpl; [| | | |done|done|by apply HS].
  - eapply calls_ok_upd; [done|done|by left|]. split; simpl; [done|done|by split|lia|lia].
  - eapply proxies_ok_upd; [done|done|done|done|]. intros * _ _. unfold proxy_left. by rewrite E.
  - eapply writers_ok_upd; [done|done|done|done|]. intros w _. unfold writer_left. by rewrite E.
  - eapply Queues_upd; [done|done| |done]. intros m0 Hm0.
    apply (queue_live_pc _ _ ca); [by apply Hlive|unfold added; by rewrite E|done].
Qed.

(** [remove] by the call itself, or by a listener that reads the finish message
    of its master. *)
Lemma remove_inv s t tr ca ca' m c' :
  cp_inv s -> calls_of s t = Some (tr, ca) -> tr_master tr = Some m -> 2 <= rank (ca_pc ca) ->
  remove t m (pr_client s) = Some c' ->
  rank (ca_pc ca) <= rank (ca_pc ca') -> loop_ok (length (cl_wsc (pr_client s))) tr ca' ->
  (forall qq, ca_pc ca' = TSort qq -> ca_pc ca = TSort qq) ->
  (forall oo, ca_pc ca' = TConn oo -> ca_pc ca = TConn oo) ->
  ca_writers ca' = ca_writers ca -> added tr ca' = added tr ca ->
  (forall i id, tr_sorted tr !! i = Some id -> proxy_left ca i id -> proxy_left ca' i id) ->
  (forall w, w ∈ ca_writers ca -> writer_left ca w -> writer_left ca' w) ->
  cp_inv (set_call t ca' (set_pr_client c' s)).
Proof.
  intros Hinv Ht Hm Hr2 Hrem Hr Hl' Hsort Hconn Hws Hadd Hpl Hwl.
  destruct (cp_inv_known s t tr ca Hinv Ht) as [[Hmm Hnd Hl He Hlate] Hlive].
  pose proof (cp_inv_elim _ Hinv) as [Hcs Hpx Hwr HQ HqS HK HlS].
  destruct (calls_of_some _ _ _ _ Ht) as [Htr _]. unfold remove in Hrem. rewrite Htr in Hrem.
  set (tr' := mkTrans "removed" (tr_master tr) (tr_sorted tr)).
  assert (goes_on tr ca tr' ca') as Hgo by (by split_and!).
  assert (call_ok (length (cl_wsc (pr_client s))) tr' ca') as Hok'.
  { split; simpl; [done|done| |lia|done]. unfold loop_ok, added in *. simpl. done. }
  case_decide as Hst.
  - simplify_eq. assert (tr' = tr) as Etr by (unfold tr'; by rewrite <- Hst; destruct tr).
    eapply (cp_inv_call s t tr ca tr); [done|done|by eapply calls_of_same|done|]. rewrite Etr in *.
    split; simpl; [|by eapply proxies_ok_upd; eauto|by eapply writers_ok_upd| |done| |done].
    + eapply calls_ok_upd; [done|done|by left|done].
    + eapply Queues_upd; [done|done| |done]. intros m0 Hm0. destruct (Hlive m0 Hm0) as [(L1 & L2 & L3) _].
      split_and!; [done|by rewrite Hadd|by intros qq Hqq%Hsort; apply L3].
    + eapply Links_upd; [done|done| |done]. intros m0 Hm0. destruct (Hlive m0 Hm0) as [_ (L1 & L2)].
      split; [done|by intros oo Hoo%Hconn; apply L2].
  - destruct (QueueHub.Remove m _) as [q'|] eqn:Eq; simpl in Hrem, Eq; [|done].
    destruct (Link.RemoveAll m _) as [l'|] eqn:El; simpl in Hrem, El; [|done]. injection Hrem as <-.
    destruct (Queues_remove _ q' _ t tr tr' ca ca' m HQ (calls_one_master _ _ Hcs) Ht Hm Hgo) as [HQ' Hkq]; [done..|].
    destruct (Links_remove _ l' _ t tr tr' ca ca' m HK Ht Hm Hgo Hconn El) as [HK' Hkl].
    eapply (cp_inv_call s t tr ca tr'); [done|done|done|done|].
    split; simpl; [|by eapply proxies_ok_upd; eauto|by eapply writers_ok_upd|done|by eapply sends_ok_keep|done
      |by eapply sends_ok_keep].
    eapply calls_ok_upd; [done|done|by left|done].
Qed.

(** Deferred calls: [CloseWsWriter], then [RemoveProxy]. *)
Lemma call_closes_writer s t tr ca i id w l err :
  cp_inv s -> calls_of s t = Some (tr, ca) -> ca_pc ca = TUndo ((i, id, w) :: l) err ->
  cp_inv (set_call t (set_ca_pc (TUndoProxy i id l err) ca)
    (set_pr_client (set_cwriters (alter CloseWsWriter w (cl_writers (pr_client s))) (pr_client s)) s)).
Proof.
  intros Hinv Ht E. destruct (cp_inv_known s t tr ca Hinv Ht) as [[Hmm Hnd [Hw Hl] He Hlate] Hlive].
  unfold added in Hw. rewrite E in *.
  pose proof (cp_inv_elim _ Hinv) as [Hcs Hpx Hwr HQ HqS HK HlS].
  set (ca' := set_ca_pc (TUndoProxy i id l err) ca).
  assert (goes_on tr ca tr ca') as Hgo by (split_and!; [simpl; by rewrite E|done..]).
  eapply (cp_inv_call s t tr ca tr); [done|done|by eapply calls_of_same|done|].
  split; simpl; [| | | |done| |done].
  - eapply calls_ok_upd; [done|done|by left|]. split; simpl; [done|done|by split|lia|by intros _; apply Hlate].
  - eapply proxies_ok_upd; [done|done|done|done|]. intros * _ _. unfold proxy_left. by rewrite E.
  - assert (forall w0 x, alter CloseWsWriter w (cl_writers (pr_client s)) !! w0 = Some x -> exists x0,
      cl_writers (pr_client s) !! w0 = Some x0 /\ w_WSC x = w_WSC x0 /\ w_Id x = w_Id x0 /\
      (cancelled x0 -> cancelled x) /\ (w0 = w -> cancelled x)) as Hback.
    { intros w0 x. destruct (decide (w = w0)) as [->|Hne].
      - rewrite list_lookup_alter_eq. destruct (cl_writers (pr_client s) !! w0) as [x0|]; [|done]. simpl.
        intros [= <-]. exists x0. split_and!; [done..| |]; intros _; apply CloseWsWriter_cancelled.
      - rewrite list_lookup_alter_ne by done. exists x. split_and!; [done..|congruence]. }
    destruct Hwr as [W1 W2 W3]. split.
    + intros w0 x (x0 & Hx0 & -> & -> & _)%Hback. destruct (W1 w0 x0 Hx0) as (t1 & tr1 & ca1 & Ht1 & Hid1).
      unfold upd. destruct (decide (t1 = t)) as [->|Hne].
      * rewrite Ht in Ht1. injection Ht1 as <- <-. exists t, tr, ca'. by rewrite decide_True.
      * exists t1, tr1, ca1. by rewrite decide_False.
    + intros t1 tr1 ca1 w0 x [[-> [= -> ->]]|[_ H1]]%upd_inv Hin (x0 & Hx0 & _ & _ & Hc & Hcw)%Hback.
      * destruct (W2 t tr ca w0 x0 Ht Hin Hx0) as [Hleft|?]; [|right; auto]. unfold writer_left in *. rewrite E in Hleft.
        apply elem_of_cons in Hleft as [->|?]; [right; by apply Hcw|by left].
      * destruct (W2 t1 tr1 ca1 w0 x0 H1 Hin Hx0) as [?|?]; [by left|right; auto].
    + intros t1 tr1 ca1 w0 [[-> [= -> ->]]|[_ H1]]%upd_inv; rewrite length_alter; [by apply (W3 t tr ca)|by eapply W3].
  - eapply Queues_upd; [done|done| |done]. intros m0 Hm0.
    apply (queue_live_pc _ _ ca); [by apply Hlive|unfold added; by rewrite E|done].
  - eapply Links_upd; [done|done| |done]. intros m0 Hm0. apply (link_live_pc _ _ ca); [by apply Hlive|done].
Qed.

Lemma call_removes_proxy s t tr ca i id l err :
  cp_inv s -> calls_of s t = Some (tr, ca) -> ca_pc ca = TUndoProxy i id l err ->
  cp_inv (set_call t (set_ca_pc (TUndo l err) ca) (set_pr_client (wsc_RemoveProxy i id (pr_client s)) s)).
Proof.
  intros Hinv Ht E. destruct (cp_inv_known s t tr ca Hinv Ht) as [[Hmm Hnd [Hw Hl] He Hlate] Hlive].
  unfold added in Hw. rewrite E in *.
  pose proof (cp_inv_elim _ Hinv) as [Hcs Hpx Hwr HQ HqS HK HlS].
  set (ca' := set_ca_pc (TUndo l err) ca).
  assert (goes_on tr ca tr ca') as Hgo by (split_and!; [simpl; by rewrite E|done..]).
  assert (forall k i0 px, wsc_GetProxyById k i0 (wsc_RemoveProxy i id (pr_client s)) = Some px ->
    ~ (k = i /\ i0 = id) /\ wsc_GetProxyById k i0 (pr_client s) = Some px) as Hback.
  { intros k i0 px. rewrite RemoveProxy_get. case_decide; [done|]. by split. }
  eapply (cp_inv_call s t tr ca tr); [done|done|by eapply calls_of_same|simpl; apply length_alter|].
  split; simpl; rewrite ?length_alter; [| | | |done| |done].
  - eapply calls_ok_upd; [done|done|by left|]. split; simpl; [done|done|by split|lia|by intros _; apply Hlate].
  - eapply proxies_ok_upd; [done|done|done|intros * Hx; by apply Hback in Hx as [_ ?]|].
    intros k i0 px [Hne _]%Hback _. unfold proxy_left. rewrite E. simpl.
    intros [[= -> ->]|?]%elem_of_cons; [by destruct Hne|done].
  - eapply writers_ok_upd; [done|done|done|done|]. intros w0 _. unfold writer_left. by rewrite E.
  - eapply Queues_upd; [done|done| |done]. intros m0 Hm0.
    apply (queue_live_pc _ _ ca); [by apply Hlive|unfold added; by rewrite E|done].
  - eapply Links_upd; [done|done| |done]. intros m0 Hm0. apply (link_live_pc _ _ ca); [by apply Hlive|done].
Qed.

(** ** Every step of a call *)

Lemma master_some s t tr ca :
  cp_inv s -> calls_of s t = Some (tr, ca) -> 0 < length (tr_sorted tr) -> exists m, tr_master tr = Some m.
Proof.
  intros Hinv Ht. destruct (cp_inv_known s t tr ca Hinv Ht) as [[Hmm _ _ _ _] _]. rewrite Hmm.
  destruct (tr_sorted tr) as [|id l]; simpl; [lia|by exists id].
Qed.

(** The deferred calls are those of all websockets. *)
Lemma deferred_writer (ids : list KSUID) (ws : list nat) w :
  length ws = length ids -> w ∈ ws -> w ∈ map snd (deferred ids ws).
Proof.
  intros Hlen Hin. unfold deferred. rewrite map_rev. apply list_elem_of_In, in_rev. rewrite rev_involutive.
  apply list_elem_of_In. change (w ∈ (zip (zip (seq 0 (length ids)) ids) ws).*2).
  rewrite snd_zip; [done|]. rewrite length_zip, length_seq. lia.
Qed.

Lemma deferred_proxy (ids : list KSUID) (ws : list nat) i id :
  length ws = length ids -> ids !! i = Some id -> (i, id) ∈ map fst (deferred ids ws).
Proof.
  intros Hlen Hid. unfold deferred. rewrite map_rev. apply list_elem_of_In, in_rev. rewrite rev_involutive.
  apply list_elem_of_In. change ((i, id) ∈ (zip (zip (seq 0 (length ids)) ids) ws).*1).
  rewrite fst_zip; [|rewrite length_zip, length_seq; lia].
  exact (list_elem_of_lookup_2 _ _ _ (numbered_lookup 0 ids i id Hid)).
Qed.

Lemma call_step_inv s t ev tr ca :
  cp_inv s -> calls_of s t = Some (tr, ca) -> new_id_ok ev (pr_client s) = true ->
  match call_step t ev (pr_client s) ca with
  | Finished (c', ca', _) => cp_inv (set_call t ca' (set_pr_client c' s))
  | Blocked => True
  | Panicked => False
  end.
Proof.
  intros Hinv Ht Hnew. destruct (calls_of_some _ _ _ _ Ht) as [Htr Hca].
  destruct (cp_inv_known s t tr ca Hinv Ht) as [[Hmm Hnd [Hw Hl] He Hlate] Hlive]. pose proof (ci_some _ Hinv) as Hn.
  pose proof (master_some s t tr ca Hinv Ht) as Hms.
  assert (forall pc, set_call t (set_ca_pc pc ca) (set_pr_client (pr_client s) s) = set_call t (set_ca_pc pc ca) s) as Eset
    by done.
  unfold call_step, trans_at. rewrite Htr. cbn [default]. change (Datatypes.id tr) with tr. unfold added in Hw.
  destruct (ca_pc ca) as [i|i id|i id|i id| | |qq| |oo|oo|err|[|[[i id] w] l] err|i id l err|err] eqn:E, ev; try done;
    rewrite ?Eset.
  - destruct (Nat.ltb_spec i (length (cl_wsc (pr_client s)))); [done|]. apply (call_moves s t tr ca); [done..|].
    rewrite E. lia.
  - destruct (Nat.ltb_spec i (length (cl_wsc (pr_client s)))); [|done]. apply (call_news s t tr ca i); [done..|].
    by apply bool_decide_eq_true in Hnew.
  - apply (call_moves s t tr ca); [done..|]. by rewrite E.
  - destruct Hms as [m Hm]; [destruct Hl; lia|]. rewrite Hm. by apply (call_adds now s t tr ca i).
  - destruct Hms as [m Hm]; [destruct Hl; lia|]. rewrite Hm. by apply (call_links now s t tr ca i).
  - destruct Hms as [m Hm]; [lia|]. rewrite Hm. destruct (lost && _); [done|]. rewrite Eset.
    apply (call_moves s t tr ca); [done..|]. rewrite E. by destruct err.
  - apply (call_moves s t tr ca); [done..|]. rewrite E. by destruct (QueueHub.Get _ _).
  - by apply call_sorts.
  - apply (call_moves s t tr ca); [done..|]. rewrite E. by destruct (Link.Get _ _).
  - by apply call_conns.
  - destruct (pm_heap _ !! oo) as [k|]; [|done]. destruct (done_ready _ _); [|done]. rewrite Eset.
    apply (call_moves s t tr ca); [done..|]. by rewrite E.
  - destruct Hms as [m Hm]; [lia|]. rewrite Hm. simpl.
    destruct (remove_ok t m (pr_client s) tr (Q_wf _ _ (ci_queues _ Hinv)) (K_wf _ _ (ci_links _ Hinv)) Htr)
      as (c' & Hc' & _). rewrite Hc'.
    apply (remove_inv s t tr ca _ m c'); simpl; rewrite ?E; [done|done|done|simpl; lia|done|simpl; lia|by split|done|done|done| | |].
    + unfold added. by rewrite E.
    + intros i id Hid _. unfold proxy_left. simpl. by apply deferred_proxy.
    + intros w Hin _. unfold writer_left. simpl. by apply deferred_writer.
  - apply (call_moves s t tr ca); [done..|]. by rewrite E.
  - by apply (call_closes_writer s t tr ca i id w l err).
  - by apply (call_removes_proxy s t tr ca i id l err).
Qed.

(** * The steps of the other goroutines *)

(** Steps on the hub of queues. *)
Lemma cp_inv_queues s h' qs :
  cp_inv s -> Queues h' (calls_of s) -> sends_ok h' qs ->
  cp_inv (mkProc (set_cqueues h' (pr_client s)) (pr_calls s) qs (pr_lsends s)).
Proof. intros Hinv HQ HS. eapply cp_inv_same; [done..|]. destruct (cp_inv_elim _ Hinv). by split. Qed.

Lemma cp_inv_links s h' ls :
  cp_inv s -> Links h' (calls_of s) -> sends_ok h' ls ->
  cp_inv (mkProc (set_clinks h' (pr_client s)) (pr_calls s) (pr_qsends s) ls).
Proof. intros Hinv HQ HS. eapply cp_inv_same; [done..|]. destruct (cp_inv_elim _ Hinv). by split. Qed.

(** Something is put into a buffer. *)
Lemma queue_put_inv s p q b ch :
  cp_inv s -> pm_heap (clientQueueHub (pr_client s)) !! p = Some q -> chan_send (q_buffer q) b = SendOk ch ->
  cp_inv (set_pr_client (set_cqueues (pm_update p (set_q_buffer ch) (clientQueueHub (pr_client s))) (pr_client s)) s).
Proof.
  intros Hinv Hq Hc. destruct (Queues_update p (set_q_buffer ch) (clientQueueHub (pr_client s)) (calls_of s)) as [HQ Hk].
  2: { by apply ci_queues. }
  { intros q0 Hq0. simplify_eq. split; [done|]. simpl.
    apply chan_send_inv in Hc as (E1 & E2 & _). by rewrite E1, E2. }
  apply cp_inv_queues; [done..|]. eapply sends_ok_keep; [done|by apply ci_qsends].
Qed.

Lemma link_rel_inv s h' :
  cp_inv s -> heap_rel link_same_call (clientLinkHub (pr_client s)) h' -> pm_map h' = pm_map (clientLinkHub (pr_client s)) ->
  pm_wf h' -> cp_inv (set_pr_client (set_clinks h' (pr_client s)) s).
Proof.
  intros Hinv HR Hm Hwf. apply cp_inv_links; [done| |].
  - apply (Links_rel (clientLinkHub (pr_client s))); [|done|done|by apply ci_links]. by apply link_same_call_still.
  - eapply sends_ok_keep; [by apply link_same_call_keep|by apply ci_lsends].
Qed.

Lemma link_put_inv s p l b ch :
  cp_inv s -> pm_heap (clientLinkHub (pr_client s)) !! p = Some l -> chan_send (l_buffer l) b = SendOk ch ->
  cp_inv (set_pr_client (set_clinks (pm_update p (set_l_buffer ch) (clientLinkHub (pr_client s))) (pr_client s)) s).
Proof.
  intros Hinv Hl Hc. apply link_rel_inv; [done|by apply heap_rel_update|done|].
  apply pm_wf_update; [|apply (K_wf _ _ (ci_links _ Hinv))]. intros l0 Hl0 Ho. simplify_eq. simpl.
  by apply chan_send_inv in Hc as (_ & -> & _).
Qed.

(** A link that a listener writes to without waiting. *)
Lemma link_write_inv we s p l b l' r :
  Link.we_ops we = [] -> cp_inv s -> pm_heap (clientLinkHub (pr_client s)) !! p = Some l ->
  Link.writeBuf we l b = Some (l', r) ->
  cp_inv (set_pr_client (set_clinks (pm_update p (fun _ => l') (clientLinkHub (pr_client s))) (pr_client s)) s).
Proof.
  intros Hops Hinv Hl Hw. assert (l' = l \/ exists ch, chan_send (l_buffer l) b = SendOk ch /\ l' = set_l_buffer ch l) as Hor.
  { unfold Link.writeBuf in Hw. rewrite Hops in Hw. simpl in Hw.
    repeat case_match; simplify_eq; try (by left). right. by eexists. }
  destruct Hor as [->|(ch & Hc & ->)].
  - rewrite (pm_update_id p l) by done. destruct s as [c ? ? ?], c. done.
  - rewrite (pm_update_at p (set_l_buffer ch) l) by done. by eapply link_put_inv.
Qed.

(** A [Send] of a queue. *)
Lemma queue_send_inv s g ev s' out :
  cp_inv s -> queue_send g ev s = Some (s', out) -> cp_inv s'.
Proof.
  intros Hinv (p & q & q' & pc' & Hg & Hq & E & ->)%queue_send_some.
  pose proof (ci_qsends _ Hinv) as HS. destruct (so_safe _ _ HS g p Hg) as (v & Hv & Hfine). simplify_eq.
  pose proof (Send_step_fields _ _ _ _ _ _ E) as (Es & Ew & Em & _ & Ec).
  apply cp_inv_queues; [done| |].
  - apply (Queues_rel (clientQueueHub (pr_client s))); [|done| |by apply ci_queues].
    + apply heap_rel_update; [by intros v|]. intros v Hv'. simplify_eq.
      split; [done|split; [done|]]. intros id Hid. by rewrite Ew.
    + apply pm_wf_update; [|apply (Q_wf _ _ (ci_queues _ Hinv))]. intros v Hv' Ho. simplify_eq. simpl in *. by rewrite Ec.
  - eapply sends_ok_step; [exact Hg|simpl; by rewrite list_lookup_alter_eq, Hq|by eapply q_send_fine| |done].
    by apply sends_others_update.
Qed.

Lemma link_send_inv s g ev s' :
  cp_inv s -> link_send g ev s = Some s' -> cp_inv s'.
Proof.
  intros Hinv (p & h' & pc' & Hg & E & ->)%link_send_some.
  pose proof (ci_lsends _ Hinv) as HS. destruct (so_safe _ _ HS g p Hg) as (l & Hl & Hfine).
  destruct (l_send_others _ _ _ _ _ _ E) as [Ho [l' Hl']].
  pose proof (Link.Send_step_wf _ _ _ _ _ _ E (K_wf _ _ (ci_links _ Hinv))) as Hwf'.
  apply cp_inv_links; [done| |].
  - destruct (l_send_still _ _ _ _ _ _ E) as [HR Hm]. apply (Links_rel (clientLinkHub (pr_client s))); [done|done|done|by apply ci_links].
  - eapply sends_ok_step; [exact Hg|exact Hl'|by eapply l_send_fine|done|done].
Qed.

(** A new call. *)
Lemma new_call_inv s conn addr :
  cp_inv s ->
  cp_inv (mkProc (set_ctrans (cl_trans (pr_client s) ++ [new_trans]) (pr_client s))
            (pr_calls s ++ [mkCall conn addr (TLoop 0) [] CNone]) (pr_qsends s) (pr_lsends s)).
Proof.
  intros Hinv. pose proof (cp_inv_elim _ Hinv) as [Hcs Hpx Hwr HQ HqS HK HlS].
  set (t := length (pr_calls s)). set (ca := mkCall conn addr (TLoop 0) [] CNone).
  assert (calls_of s t = None) as Hnone.
  { unfold calls_of, t. rewrite (lookup_ge_None_2 (pr_calls s)) by lia. by destruct (cl_trans _ !! _). }
  assert (forall t' x, calls_of s t' = Some x -> upd t (new_trans, ca) (calls_of s) t' = Some x) as Hkeep.
  { intros t' x Hx. rewrite upd_other by (intros ->; congruence). done. }
  apply (cp_inv_intro _ (upd t (new_trans, ca) (calls_of s))); simpl.
  - apply (ci_some _ Hinv).
  - rewrite !length_app, (ci_len _ Hinv). done.
  - intros t'. unfold calls_of, upd. simpl. case_decide as E.
    + subst t'. unfold t. rewrite (ci_len _ Hinv) at 1. by rewrite !list_lookup_middle.
    + destruct (decide (t' < t)) as [Hlt|Hge].
      * rewrite !lookup_app_l by (unfold t in *; rewrite <- ?(ci_len _ Hinv); lia). done.
      * rewrite (lookup_ge_None_2 (cl_trans _ ++ _)), (lookup_ge_None_2 (cl_trans _))
          by (rewrite ?length_app, <- (ci_len _ Hinv); unfold t in *; simpl; lia). done.
  - split; simpl; [| | |by apply Queues_new|done|by apply Links_new|done].
    + split.
      * intros t1 t2 tr1 tr2 ca1 ca2 id [[-> [= -> ->]]|[_ H1]]%upd_inv [[-> [= -> ->]]|[_ H2]]%upd_inv Hi1 Hi2;
          [done|by apply not_elem_of_nil in Hi1|by apply not_elem_of_nil in Hi2|by eapply (cs_owner _ _ Hcs)].
      * intros t1 tr1 ca1 [[-> [= -> ->]]|[_ H1]]%upd_inv; [|by eapply (cs_call _ _ Hcs)].
        split; simpl; [done|by apply NoDup_nil_2| |done|lia]. split; [done|]. simpl. split; [done|lia].
    + intros i id px H. destruct (Hpx i id px H) as (tr1 & ca1 & Ht1 & ?). exists tr1, ca1. auto.
    + destruct Hwr as [W1 W2 W3]. split.
      * intros w x Hx. destruct (W1 w x Hx) as (t1 & tr1 & ca1 & Ht1 & ?). exists t1, tr1, ca1. auto.
      * intros t1 tr1 ca1 w x [[-> [= -> ->]]|[_ H1]]%upd_inv; [by intros ?%not_elem_of_nil|by eapply W2].
      * intros t1 tr1 ca1 w [[-> [= -> ->]]|[_ H1]]%upd_inv; [by intros ?%not_elem_of_nil|by eapply W3].
Qed.

(** The copying goroutine of a call goes on. *)
Lemma copy_inv s t ca pc :
  cp_inv s -> pr_calls s !! t = Some ca -> cp_inv (set_call t (set_ca_copy pc ca) s).
Proof.
  intros Hinv Hca. destruct (calls_of_call s t ca Hinv Hca) as [tr Ht].
  destruct (cp_inv_known s t tr ca Hinv Ht) as [[Hmm Hnd Hl He Hlate] Hlive].
  pose proof (cp_inv_elim _ Hinv) as [? ? ? ? ? ? ?]. set (ca' := set_ca_copy pc ca).
  assert (goes_on tr ca tr ca') as Hgo by done.
  change (set_call t ca' s) with (set_call t ca' (set_pr_client (pr_client s) s)).
  eapply (cp_inv_call s t tr ca tr); [done|done|by eapply calls_of_same|done|].
  split; simpl; [|by eapply proxies_ok_upd|by eapply writers_ok_upd| |done| |done].
  - eapply calls_ok_upd; [done|done|by left|by split].
  - eapply Queues_upd; [done|done|by intros m [Hq _]%Hlive|done].
  - eapply Links_upd; [done|done|by intros m [_ Hk]%Hlive|done].
Qed.

(** * Reading messages *)

(** The connection that a message ends. *)
Definition finish_of (v : json) : option KSUID :=
  msg ← unmarshal_message v; if String.eqb (m_Type msg) WsTpClose then ksuid_Parse (m_Id msg) else None.

(** [id] is the master of a call that has sent its establish message. *)
Definition opened s id : Prop :=
  exists t tr ca, calls_of s t = Some (tr, ca) /\ tr_master tr = Some id /\ 2 <= rank (ca_pc ca).

(** A finish message that is read is for a connection that has been opened, or
    for none that the client has. *)
Definition polite (ev : cp_ev) s : Prop :=
  match ev with
  | PRead i _ (inr (Some v)) => forall id proxy,
      finish_of v = Some id -> wsc_GetProxyById i id (pr_client s) = Some proxy -> opened s id
  | _ => True
  end.

(** The proxy of a master belongs to its call. *)
Lemma opened_proxy s i id proxy t tr ca :
  cp_inv s -> wsc_GetProxyById i id (pr_client s) = Some proxy -> calls_of s t = Some (tr, ca) ->
  tr_master tr = Some id -> p_trans proxy = t.
Proof.
  intros Hinv Hpx Ht Hm. destruct (ci_proxies _ Hinv i id proxy Hpx) as (tr1 & ca1 & Ht1 & Hid & _).
  eapply (cs_owner _ _ (ci_calls _ Hinv)); [done|done|by eapply list_elem_of_lookup_2|].
  by eapply (calls_own_master _ _ (ci_calls _ Hinv)).
Qed.

(** [remove], called for the finish message of an opened connection. *)
Lemma finish_inv s i id proxy :
  cp_inv s -> wsc_GetProxyById i id (pr_client s) = Some proxy -> opened s id ->
  exists c', remove (p_trans proxy) id (pr_client s) = Some c' /\ cp_inv (set_pr_client c' s).
Proof.
  intros Hinv Hpx (t & tr & ca & Ht & Hm & Hr).
  rewrite (opened_proxy s i id proxy t tr ca Hinv Hpx Ht Hm). destruct (calls_of_some _ _ _ _ Ht) as [Htr Hca].
  destruct (remove_ok t id (pr_client s) _ (Q_wf _ _ (ci_queues _ Hinv)) (K_wf _ _ (ci_links _ Hinv)) Htr)
    as (c' & Hc' & _). exists c'. split; [done|].
  destruct (cp_inv_known s t _ _ Hinv Ht) as [[Hmm Hnd Hl He Hlate] _].
  pose proof (remove_inv s t tr ca ca id c' Hinv Ht Hm Hr Hc' ltac:(done) Hl ltac:(done) ltac:(done) eq_refl eq_refl
                ltac:(done) ltac:(done)) as H.
  unfold set_call in H. simpl in H. by rewrite list_insert_id in H.
Qed.
End inv.
