(* ===== verification/ClientRun.v ===== *)
(** Runs of the client process (wss/wssocks_client.go, wss/websocket_client.go):
    whatever its goroutines do, none of them panics, a call that has returned
    has left nothing behind in the hubs under its master, and what an early
    removal leaks. *)
From S2P Require Import Prelude GoChan Pipe RoundRobin PtrMap Queue QueueHub Link Starts Sends Striping Base64 Json.
From S2P Require Import Messages Hub Server Client Finish Wire Direction ClientProc ClientTable ClientSafe.

Section run.
Context {K : Ksuid} `{!KsuidText K}.
Implicit Types (id m : KSUID) (t : nat) (tr : trans) (ca : call) (c : client) (s : cproc).

Definition finished_ok (s : cproc) (r : outcome client) : Prop :=
  match r with
  | Finished c => cp_inv (set_pr_client c s)
  | Blocked => True
  | Panicked => False
  end.

Lemma cproc_same s : set_pr_client (pr_client s) s = s.
Proof. by destruct s. Qed.

(** [onData]. *)
Lemma onData_inv we s id d :
  Link.we_ops we = [] -> cp_inv s -> finished_ok s (onData we id d (pr_client s)).
Proof.
  intros Hops Hinv. unfold onData, finished_ok. assert (cp_inv (set_pr_client (pr_client s) s)) as Hsame by (by rewrite cproc_same).
  destruct (Link.Get id _) as [p|]; [|done]. destruct (pm_heap _ !! p) as [l|] eqn:Hl; [|done].
  destruct (_ =? _)%Z; [|destruct (_ =? _)%Z; [|done]]; unfold Link.Write, Link.WriteEOF in *;
    repeat case_match; simplify_eq; try done; by eapply link_write_inv.
Qed.

(** One turn of [ListenIncomeMsg]. *)
Lemma income_inv we s i data :
  Link.we_ops we = [] -> cp_inv s -> polite (PRead i we (inr data)) s -> finished_ok s (income we i data (pr_client s)).
Proof.
  intros Hops Hinv Hpol. unfold income.
  assert (finished_ok s (Finished (pr_client s))) as Hsame by (simpl; by rewrite cproc_same).
  destruct data as [v|]; [|done]. simpl unmarshal_raw. destruct (unmarshal_message v) as [msg|] eqn:Hmsg; [|done].
  destruct (ksuid_Parse (m_Id msg)) as [id|] eqn:Hid; [|done].
  destruct (wsc_GetProxyById i id (pr_client s)) as [proxy|] eqn:Hpx; [|done].
  destruct (String.eqb_spec (m_Type msg) WsTpClose) as [Et|_].
  - assert (opened s id) as Hop.
    { apply (Hpol id proxy); [|done]. unfold finish_of. rewrite Hmsg. simpl. by rewrite Et. }
    destruct (finish_inv s i id proxy Hinv Hpx Hop) as (c' & Hc' & Hinv'). unfold onClosed. by rewrite Hc'.
  - destruct (String.eqb _ _); [|done]. destruct (unmarshal_raw _ _) as [pd|]; [|done].
    destruct (DecodeString _); [|done]. by apply onData_inv.
Qed.

(** [WebSocketClient.Close]. *)
Lemma wsc_close_inv s i b : cp_inv s -> cp_inv (set_pr_client (wsc_Close i b (pr_client s)) s).
Proof.
  intros Hinv. apply (cp_inv_same s); [done..|simpl; by rewrite length_alter|].
  destruct (cp_inv_elim _ Hinv) as [Hc Hp Hw Hq Hqs Hl Hls]. split; simpl; rewrite ?length_alter; [done| |done..].
  intros k id proxy H. apply Hp. unfold wsc_GetProxyById in *. simpl in *. destruct (decide (i = k)) as [<-|Hne].
  - rewrite list_lookup_alter_eq in H. by destruct (cl_wsc (pr_client s) !! i).
  - by rewrite list_lookup_alter_ne in H.
Qed.

(** * Every step of the process *)

Definition step_ok (r : outcome (cproc * list (nat * json))) : Prop :=
  match r with
  | Finished (s', _) => cp_inv s'
  | Blocked => True
  | Panicked => False
  end.

Lemma from_client_ok s (r : option client) :
  (forall c, r = Some c -> cp_inv (set_pr_client c s)) -> step_ok (from_client s (of_option r)).
Proof. intros H. destruct r as [c|]; [|done]. by apply H. Qed.

Lemma pcall_inv s t e : cp_inv s -> step_ok (cp_exec (PCall t e) s).
Proof.
  intros Hinv. simpl. destruct (pr_calls s !! t) as [ca|] eqn:Hca; [|done].
  destruct (new_id_ok e (pr_client s)) eqn:Hnew; [|done].
  destruct (calls_of_call s t ca Hinv Hca) as [tr Ht].
  pose proof (call_step_inv s t e tr ca Hinv Ht Hnew). by destruct (call_step t e _ ca) as [[[c' ca'] out]| |].
Qed.

Theorem cp_exec_inv s ev : cp_inv s -> polite ev s -> step_ok (cp_exec ev s).
Proof.
  intros Hinv Hpol. destruct ev as [conn addr|t e|t b|t err|t lost|i we read|p b|g e|g we lost|g e|i lost|i b].
  - by apply new_call_inv.
  - by apply pcall_inv.
  - simpl. destruct (ca_copy <$> _) as [[|qq| |]|]; try done. apply from_client_ok. intros c Hc.
    destruct (pm_heap _ !! qq) as [q|] eqn:Hq; [|done]. simpl in Hc.
    destruct (chan_send _ b) as [ch| |] eqn:Hs; simplify_eq. by eapply queue_put_inv.
  - simpl. destruct (pr_calls s !! t) as [ca|] eqn:Hca; [|done]. destruct (ca_copy ca); try done. by apply copy_inv.
  - simpl. destruct (pr_calls s !! t) as [ca|] eqn:Hca; [|done]. destruct (ca_copy ca); try done. by apply copy_inv.
  - simpl. case_decide as Hops; [|done]. unfold Listen_step. destruct (cl_wsc _ !! i) as [w|]; [|done].
    destruct (wc_cancelled w); [simpl; by rewrite cproc_same|]. destruct read as [e|data]; [simpl; by rewrite cproc_same|].
    pose proof (income_inv we s i data Hops Hinv Hpol). by destruct (income we i data (pr_client s)).
  - simpl. apply from_client_ok. intros c Hc. destruct (pm_heap _ !! p) as [l|] eqn:Hl; [|done]. simpl in Hc.
    destruct (chan_send _ b) as [ch| |] eqn:Hs; simplify_eq. by eapply link_put_inv.
  - simpl. destruct (queue_send g e s) as [[s' [o|]]|] eqn:E; try done. by eapply queue_send_inv.
  - simpl. destruct (about_to_write g s) as [[x b]|]; [|done]. destruct (hand x we b) as [out e].
    destruct (lost && _); [done|]. destruct (queue_send g _ s) as [[s' [o|]]|] eqn:E; try done. by eapply queue_send_inv.
  - simpl. destruct (link_send g e s) as [s'|] eqn:E; [|done]. by eapply link_send_inv.
  - simpl. by destruct (Nat.ltb _ _).
  - by apply wsc_close_inv.
Qed.

Lemma cp_inv_init n : 0 < n -> cp_inv (cproc_init n).
Proof.
  intros Hn. assert (forall t, calls_of (cproc_init n) t = None) as HT by done.
  assert (forall i id, wsc_GetProxyById i id (pr_client (cproc_init n)) = None) as Hpx.
  { intros i id. unfold wsc_GetProxyById. simpl. destruct (replicate n _ !! i) as [w|] eqn:E; [|done].
    apply lookup_replicate in E as [-> _]. done. }
  split; simpl; rewrite ?length_replicate; [done|done|..].
  - split; [intros t1 t2 tr1 tr2 ca1 ca2 id|intros t tr ca]; by rewrite HT.
  - intros i id proxy H. by rewrite Hpx in H.
  - split; [by intros w x|intros t tr ca w x|intros t tr ca w]; by rewrite HT.
  - by apply Queues_empty.
  - apply sends_ok_empty.
  - by apply Links_empty.
  - apply sends_ok_empty.
Qed.

(** A step of the client, with a server that is polite. *)
Definition polite_step s s' : Prop := exists ev out, polite ev s /\ cp_exec ev s = Finished (s', out).

Lemma polite_step_inv s s' : cp_inv s -> polite_step s s' -> cp_inv s'.
Proof. intros Hinv (ev & out & Hp & E). pose proof (cp_exec_inv s ev Hinv Hp) as H. by rewrite E in H. Qed.

Lemma polite_steps_inv s s' : cp_inv s -> rtc polite_step s s' -> cp_inv s'.
Proof. intros Hinv. induction 1 as [|s s1 s' H _ IH]; [done|]. by eapply IH, polite_step_inv. Qed.

Lemma client_inv n s : 0 < n -> rtc polite_step (cproc_init n) s -> cp_inv s.
Proof. intros Hn. by apply polite_steps_inv, cp_inv_init. Qed.

(** The program point of a [Send] is one that does not panic. *)
Lemma sends_ok_at {V PC} `{!Sender V PC} (h : ptrmap V) (pcs : gmap nat PC) g :
  sends_ok h pcs -> pc_at pcs g = snd_enter \/ exists p v, pm_go h !! g = Some p /\ pm_heap h !! p = Some v /\ snd_safe v (pc_at pcs g).
Proof.
  intros [_ Hs _ Hp]. destruct (pm_go h !! g) as [p|] eqn:Hg.
  - right. destruct (Hs g p Hg) as (v & Hv & Hf & _). by exists p, v.
  - left. unfold pc_at. destruct (pcs !! g) as [pc|] eqn:E; [|done]. apply mk_is_Some, Hp in E.
    apply lookup_ge_None in Hg. lia.
Qed.

(** C4: no goroutine of the client panics. In every state that it reaches from its
    start with open websockets, with any number of connections under way, no
    step of a goroutine panics, whatever messages the server sends and however
    the websockets, the SOCKS connections and the timers behave, and no [Send]
    of a queue or a link has panicked (none runs twice, closes or sends on a
    closed channel, or meets an ID without a writer). The server has to keep to
    one thing: it sends the finish message of a connection only after that was
    established. *)
Theorem client_never_panics n s ev :
  0 < n -> rtc polite_step (cproc_init n) s -> polite ev s ->
  cp_exec ev s <> Panicked /\
  forall g, pc_at (pr_qsends s) g <> Queue.PReturned Queue.SPanic /\ pc_at (pr_lsends s) g <> Link.PReturned Link.SPanic.
Proof.
  intros Hn Hr Hp. pose proof (client_inv n s Hn Hr) as Hinv. split.
  - pose proof (cp_exec_inv s ev Hinv Hp) as H. intros E. by rewrite E in H.
  - intros g. split.
    + destruct (sends_ok_at _ _ g (ci_qsends _ Hinv)) as [->|(p & v & _ & _ & _ & H)]; [done|].
      intros E. by rewrite E in H.
    + destruct (sends_ok_at _ _ g (ci_lsends _ Hinv)) as [->|(p & v & _ & _ & H)]; [done|].
      intros E. by rewrite E in H.
Qed.

(** C5: what a call of [transData] leaves behind. When it has returned, by whatever
    path and whatever the other goroutines have done in the meantime, its queue
    and its master link are out of the hubs, no proxy of it is registered on any
    websocket, and each of its writers refuses to write; every queue that is
    still in the hub belongs to a call that is under way. *)
Theorem calls_clean_up n s t tr ca err :
  0 < n -> rtc polite_step (cproc_init n) s -> calls_of s t = Some (tr, ca) -> ca_pc ca = TEnd err ->
  (forall m, tr_master tr = Some m ->
     pm_map (clientQueueHub (pr_client s)) !! m = None /\ pm_map (clientLinkHub (pr_client s)) !! m = None) /\
  (forall i id proxy, wsc_GetProxyById i id (pr_client s) = Some proxy -> p_trans proxy <> t) /\
  (forall w x ws_err data, w ∈ ca_writers ca -> cl_writers (pr_client s) !! w = Some x ->
     exists e, writer_Write x ws_err data = ([], (0%Z, Some e))) /\
  (forall m p, pm_map (clientQueueHub (pr_client s)) !! m = Some p ->
     exists t' tr' ca', calls_of s t' = Some (tr', ca') /\ tr_master tr' = Some m /\ forall err', ca_pc ca' <> TEnd err').
Proof.
  intros Hn Hr Ht Hpc. pose proof (client_inv n s Hn Hr) as Hinv.
  destruct (cp_inv_known s t tr ca Hinv Ht) as [[_ _ _ _ Hlate] Hlive].
  assert (removed tr) as Hrem by (apply Hlate; rewrite Hpc; simpl; lia). split_and!.
  - intros m Hm. destruct (Hlive m Hm) as [[Hq _] [Hl _]]. auto.
  - intros i id proxy Hp <-. destruct (ci_proxies _ Hinv i id proxy Hp) as (tr' & ca' & Ht' & _ & Hleft).
    simplify_eq. unfold proxy_left in Hleft. by rewrite Hpc in Hleft.
  - intros w x ws_err data Hw Hx. destruct (wo_left _ _ (ci_writers _ Hinv) t tr ca w x Ht Hw Hx) as [Hl|Hc].
    + unfold writer_left in Hl. by rewrite Hpc in Hl.
    + unfold cancelled, writer_Write in *. destruct (w_CtxErr x) as [e|]; [|done]. by exists e.
  - intros m p Hp. pose proof (ci_queues _ Hinv) as HQ. destruct (proj1 (Q_wf _ _ HQ) _ _ Hp) as (q & Hq & _).
    destruct (Q_own _ _ HQ p q Hq) as (t' & tr' & ca' & Ht' & Hm' & _). rewrite (Q_map _ _ HQ m p q Hp Hq) in Hm'.
    exists t', tr', ca'. split_and!; [done..|]. intros err' Hpc'.
    destruct (cp_inv_known s t' tr' ca' Hinv Ht') as [[_ _ _ _ Hlate'] Hlive'].
    destruct (Hlive' m Hm') as [[Hgone _] _]. rewrite Hgone in Hp; [done|]. apply Hlate'. rewrite Hpc'. simpl. lia.
Qed.

(** * What an early removal leaks *)

Lemma link_Add_grows now id m h i :
  is_Some (pm_map h !! i) -> is_Some (pm_map (Link.Add now id m h) !! i).
Proof.
  intros Hi. assert (forall id h, is_Some (pm_map h !! i) -> is_Some (pm_map (Link.ensure now id m h) !! i)) as He.
  { intros id0 h0 H. unfold Link.ensure. case_match; [done|]. simpl. rewrite lookup_insert. by case_decide. }
  unfold Link.Add. destruct (pm_map _ !! m) as [p|]; [|by apply He].
  unfold Link.trySend. repeat case_match; simpl; by apply He, He.
Qed.

(** What a step does to the calls' [status] and to the map of links: it removes a
    call, or it keeps all of them and all entries of the map. *)
Definition trans_kept c c' : Prop :=
  forall t tr, cl_trans c !! t = Some tr ->
    exists tr', cl_trans c' !! t = Some tr' /\ tr_status tr' = tr_status tr /\ tr_sorted tr ⊆ tr_sorted tr'.

Definition links_kept c c' : Prop :=
  forall id, is_Some (pm_map (clientLinkHub c) !! id) -> is_Some (pm_map (clientLinkHub c') !! id).

Inductive effect s c' : Prop :=
  | eff_keeps : trans_kept (pr_client s) c' -> links_kept (pr_client s) c' -> effect s c'
  | eff_removes t tr ca m :
      calls_of s t = Some (tr, ca) -> tr_master tr = Some m -> remove t m (pr_client s) = Some c' -> effect s c'.

Lemma trans_kept_same c c' : cl_trans c' = cl_trans c -> trans_kept c c'.
Proof. intros E t tr Ht. exists tr. rewrite E. by split_and!. Qed.

Lemma eff_same s c' :
  cl_trans c' = cl_trans (pr_client s) -> pm_map (clientLinkHub c') = pm_map (clientLinkHub (pr_client s)) -> effect s c'.
Proof. intros Et Em. apply eff_keeps; [by apply trans_kept_same|]. intros id. by rewrite Em. Qed.

Lemma trans_kept_insert c c' t tr tr' :
  cl_trans c !! t = Some tr -> tr_status tr' = tr_status tr -> tr_sorted tr ⊆ tr_sorted tr' ->
  cl_trans c' = <[t := tr']> (cl_trans c) -> trans_kept c c'.
Proof.
  intros Ht Hs Hsub E t0 tr0 Ht0. rewrite E. destruct (decide (t = t0)) as [<-|Hne].
  - rewrite list_lookup_insert_eq by (by eapply lookup_lt_Some). simplify_eq. by exists tr'.
  - rewrite list_lookup_insert_ne by done. exists tr0. by split_and!.
Qed.

Lemma call_effect s t e ca c' ca1 out :
  cp_inv s -> pr_calls s !! t = Some ca -> call_step t e (pr_client s) ca = Finished (c', ca1, out) -> effect s c'.
Proof.
  intros Hinv Hca H. destruct (calls_of_call s t ca Hinv Hca) as [tr Ht].
  destruct (calls_of_some _ _ _ _ Ht) as [Htr _]. pose proof (master_some s t tr ca Hinv Ht) as Hms.
  destruct (cp_inv_known s t tr ca Hinv Ht) as [[_ _ [_ Hlp] _ _] _]. pose proof (ci_some _ Hinv) as Hn.
  unfold call_step, trans_at in H. rewrite Htr in H. simpl in H.
  destruct (ca_pc ca) as [i|i id1|i id1|i id1| | |qq| |oo|oo|err|[|[[i id1] w] l] err|i id1 l err|err] eqn:Epc, e; try done;
    repeat case_match; simplify_eq; try done; try (by apply eff_same).
  1,2: apply eff_keeps; [eapply trans_kept_insert; [exact Htr| | |reflexivity]; simpl; [done|set_solver]|by intros ?].
  - apply eff_keeps; [by apply trans_kept_same|]. intros id0. simpl. apply link_Add_grows.
  - destruct Hms as [m Hm]; [lia|]. eapply eff_removes; [done|done|]. by rewrite Hm in *.
Qed.

Lemma income_effect s we i data c' :
  cp_inv s -> polite (PRead i we (inr data)) s -> income we i data (pr_client s) = Finished c' -> effect s c'.
Proof.
  intros Hinv Hpol H. unfold income in H. assert (pr_client s = c' -> effect s c') as Hsame by (intros <-; by apply eff_same).
  destruct data as [v|]; [|simplify_eq/=; auto].
  simpl unmarshal_raw in H. destruct (unmarshal_message v) as [msg|] eqn:Hmsg; [|simplify_eq; auto].
  destruct (ksuid_Parse (m_Id msg)) as [ksid|] eqn:Hid; [|simplify_eq; auto].
  destruct (wsc_GetProxyById i ksid (pr_client s)) as [proxy|] eqn:Hpx; [|simplify_eq; auto].
  destruct (String.eqb_spec (m_Type msg) WsTpClose) as [Et|_].
  - assert (finish_of v = Some ksid) as Hf by (unfold finish_of; rewrite Hmsg; simpl; by rewrite Et).
    pose proof (Hpol ksid proxy Hf Hpx) as (t & tr & ca & Ht & Hm & _).
    rewrite (opened_proxy s i ksid proxy t tr ca Hinv Hpx Ht Hm) in H.
    unfold onClosed in H. destruct (remove t ksid _) eqn:Er; simplify_eq. by eapply eff_removes.
  - unfold onData in H. repeat case_match; simplify_eq; auto; by apply eff_same.
Qed.

Lemma queue_send_effect g e s s' o : queue_send g e s = Some (s', o) -> effect s (pr_client s').
Proof.
  intros (p & q & q' & pc' & _ & _ & _ & ->)%queue_send_some. by apply eff_same.
Qed.

Lemma link_send_effect g e s s' : link_send g e s = Some s' -> effect s (pr_client s').
Proof.
  intros (p & h' & pc' & _ & E & ->)%link_send_some. apply eff_same; [done|]. by eapply l_send_still.
Qed.

Lemma step_effect s s' : cp_inv s -> polite_step s s' -> effect s (pr_client s').
Proof.
  intros Hinv (ev & out & Hpol & E).
  destruct ev as [conn addr|t e|t b|t err|t lost|i we read|p b|g e|g we lost|g e|i lost|i b]; simpl in E.
  - simplify_eq. apply eff_keeps; [|by intros ?]. intros t tr Ht. exists tr. split_and!; [|done..]. simpl. by apply lookup_app_l_Some.
  - destruct (pr_calls s !! t) as [ca|] eqn:Hca; [|done]. destruct (new_id_ok _ _); [|done].
    destruct (call_step t e _ ca) as [[[c' ca'] o]| |] eqn:Ec; simplify_eq. by eapply call_effect.
  - destruct (ca_copy <$> _) as [[|qq| |]|]; try done. destruct (pm_heap _ !! qq) as [q|]; [|done]. simpl in E.
    destruct (chan_send _ b); simplify_eq/=. by apply eff_same.
  - repeat case_match; simplify_eq; by apply eff_same.
  - repeat case_match; simplify_eq; by apply eff_same.
  - case_decide; [|done]. destruct (Listen_step _ _ _ _) as [[c' e]| |] eqn:El; simplify_eq. unfold Listen_step in El.
    destruct (cl_wsc _ !! i); [|done]. destruct (wc_cancelled _); [simplify_eq; by apply eff_same|].
    destruct read as [?|data]; [simplify_eq; by apply eff_same|].
    destruct (income we i data _) as [c1| |] eqn:Ei; simplify_eq. by eapply income_effect.
  - destruct (pm_heap _ !! p) as [l|]; [|done]. simpl in E. destruct (chan_send _ b); simplify_eq/=. by apply eff_same.
  - destruct (queue_send g e s) as [[s1 [o|]]|] eqn:Eq; simplify_eq. by eapply queue_send_effect.
  - destruct (about_to_write g s) as [[x b]|]; [|done]. destruct (hand x we b) as [o e].
    destruct (lost && _); [done|]. destruct (queue_send g _ s) as [[s1 [o'|]]|] eqn:Eq; simplify_eq. by eapply queue_send_effect.
  - destruct (link_send g e s) as [s1|] eqn:Eq; simplify_eq. by eapply link_send_effect.
  - destruct (Nat.ltb _ _); simplify_eq. by apply eff_same.
  - simplify_eq. by apply eff_same.
Qed.

(** [remove], and a link of an ID that is not the master and is not in the order
    of the master link. *)
Lemma remove_keeps_link t m c c' id :
  pm_wf (clientLinkHub c) -> remove t m c = Some c' -> id <> m ->
  (forall l, pm_deref (clientLinkHub c) m = Some l -> id ∉ l_sorted l) ->
  pm_map (clientLinkHub c') !! id = pm_map (clientLinkHub c) !! id.
Proof.
  intros Hwf H Hne Hl. unfold remove in H. destruct (cl_trans c !! t) as [tr|]; [|by simplify_eq].
  case_decide; [by simplify_eq|]. destruct (QueueHub.Remove m _) as [q'|]; simpl in H; [|done].
  destruct (RemoveAll_ok m (clientLinkHub c) Hwf) as (h' & E & _ & Hw & _). rewrite E in H. simplify_eq/=.
  rewrite Hw, decide_False; [done|]. destruct (pm_deref _ m) as [l|]; [|by apply not_elem_of_nil].
  intros [[_ Hin]%list_elem_of_filter|Hin%list_elem_of_singleton]%elem_of_app; [|done]. by eapply Hl.
Qed.

(** A link of a removed call that is still in the hub. *)
Definition leaked t id c : Prop :=
  exists tr, cl_trans c !! t = Some tr /\ removed tr /\ id ∈ tr_sorted tr /\ is_Some (pm_map (clientLinkHub c) !! id).

Lemma remove_trans t m c c' t0 tr0 :
  remove t m c = Some c' -> cl_trans c !! t0 = Some tr0 ->
  exists tr', cl_trans c' !! t0 = Some tr' /\ tr_sorted tr' = tr_sorted tr0 /\ (t0 = t -> removed tr') /\
    (t0 <> t -> tr' = tr0).
Proof.
  intros H Ht0. unfold remove in H. destruct (cl_trans c !! t) as [tr|] eqn:Ht; [|simplify_eq; exists tr0; split_and!; congruence].
  case_decide as Hst; [simplify_eq; exists tr0; split_and!; [done|done|intros ->; by simplify_eq|done]|].
  destruct (QueueHub.Remove m _) as [q'|]; simpl in H; [|done]. destruct (Link.RemoveAll m _) as [l'|]; simplify_eq/=.
  destruct (decide (t = t0)) as [<-|Hne].
  - rewrite list_lookup_insert_eq by (by eapply lookup_lt_Some). simplify_eq. eexists. by split_and!.
  - rewrite list_lookup_insert_ne by done. exists tr0. split_and!; [done|done|congruence|done].
Qed.

Lemma leaked_step s s' t id : cp_inv s -> polite_step s s' -> leaked t id (pr_client s) -> leaked t id (pr_client s').
Proof.
  intros Hinv Hstep (tr & Htr & Hr & Hid & Hl).
  destruct (step_effect s s' Hinv Hstep) as [Ht Hk|t' tr' ca' m Ht' Hm Hrm].
  - destruct (Ht t tr Htr) as (tr1 & ? & Hs & Hsub). exists tr1. split_and!; [done| |by apply Hsub|by apply Hk].
    unfold removed. by rewrite Hs.
  - destruct (remove_trans _ _ _ _ t tr Hrm Htr) as (tr1 & Htr1 & Hso & Heq & Hne).
    destruct (decide (t = t')) as [->|Htt].
    + destruct (calls_of_some _ _ _ _ Ht') as [Htr' _]. unfold remove in Hrm. rewrite Htr' in Hrm. simplify_eq.
      rewrite decide_True in Hrm by done. injection Hrm as <-. by exists tr.
    + exists tr1. rewrite Hso. rewrite (Hne Htt) in *. split_and!; [done..|].
      destruct (calls_of_trans s t tr Hinv Htr) as [ca Ht].
      pose proof (cs_owner _ _ (ci_calls _ Hinv)) as Ho. pose proof (calls_own_master _ _ (ci_calls _ Hinv)) as Hom.
      rewrite (remove_keeps_link t' m _ _ id (K_wf _ _ (ci_links _ Hinv)) Hrm); [done|..].
      * intros ->. by eapply Htt, Ho; eauto.
      * intros l Hdl Hin. unfold pm_deref in Hdl. destruct (pm_map _ !! m) as [p|] eqn:Hp; [|done].
        destruct (K_map _ _ (ci_links _ Hinv) _ _ _ Hp Hdl) as (t1 & tr2 & ca1 & Ht1 & Hm1 & Hin1).
        destruct (K_own _ _ (ci_links _ Hinv) _ _ Hdl) as (t2 & tr3 & ca2 & Ht2 & Hm2 & _ & _ & Hs).
        assert (t1 = t') as -> by (by eapply Ho; eauto).
        assert (t2 = t') as -> by (eapply (one_owner_master _ Ho Hom); eauto).
        eapply Htt, Ho; [exact Ht|exact Ht2|done|by apply Hs].
Qed.

(** C38: what an early removal leaks. [remove] finds the links of a call through
    the order of its master link. When it runs before [oo.SetSort] - because the
    establish message could not be sent, or because the server's finish message
    is read while the call is on its way to its wait - it takes only the master's
    link away; the links of the other websockets stay in [clientLinkHub] for
    ever, whatever happens afterwards. *)
Theorem early_removal_leaks n s s1 s2 t tr tr1 m id :
  0 < n -> rtc polite_step (cproc_init n) s -> polite_step s s1 -> rtc polite_step s1 s2 ->
  cl_trans (pr_client s) !! t = Some tr -> tr_status tr <> "removed"%string -> tr_master tr = Some m ->
  cl_trans (pr_client s1) !! t = Some tr1 -> tr_status tr1 = "removed"%string ->
  (forall l, pm_deref (clientLinkHub (pr_client s)) m = Some l -> l_sorted l = []) ->
  id ∈ tr_sorted tr -> id <> m -> is_Some (pm_map (clientLinkHub (pr_client s)) !! id) ->
  is_Some (pm_map (clientLinkHub (pr_client s2)) !! id).
Proof.
  intros Hn Hr Hs1 Hs2 Ht Hnr Hm Ht1 Hrem Hso Hid Hne Hl. pose proof (client_inv n s Hn Hr) as Hinv.
  assert (leaked t id (pr_client s1)) as Hleak.
  { destruct (step_effect s s1 Hinv Hs1) as [Hk _|t' tr' ca' m' Ht' Hm' Hrm].
    { destruct (Hk t tr Ht) as (tr2 & Ht2 & Es & _). simplify_eq. congruence. }
    destruct (remove_trans _ _ _ _ t tr Hrm Ht) as (tr2 & Ht2 & Es & _ & Hkeep). simplify_eq.
    assert (t = t') as <- by (destruct (decide (t = t')); [done|]; rewrite Hkeep in Hrem by done; done).
    destruct (calls_of_some _ _ _ _ Ht') as [Htr _]. simplify_eq. exists tr1. rewrite Es. split_and!; [done..|].
    rewrite (remove_keeps_link _ _ _ _ id (K_wf _ _ (ci_links _ Hinv)) Hrm Hne); [done|].
    intros l Hdl. rewrite (Hso l Hdl). apply not_elem_of_nil. }
  pose proof (polite_step_inv _ _ Hinv Hs1) as Hinv1. clear -Hleak Hs2 Hinv1.
  induction Hs2 as [s1|s1 s3 s2 H _ IH]; [by destruct Hleak as (? & _ & _ & _ & ?)|].
  apply IH; [by eapply leaked_step|by eapply polite_step_inv].
Qed.
End run.
