(* ===== verification/Typing.v ===== *)
(** A type discipline for the messages between the client and the server
    (wss/ws_datatypes.go, wss/wssocks_client.go, wss/proxy_server.go).

    [msg] are the messages of the protocol and [encode] the JSON that the program
    writes for them; [serve] and [consume] are what the two dispatchers do with
    each of them, without any decoding.  [up_type s k] and [down_type s k] say
    which messages may be on their way on websocket [k], to the server and to the
    client, when the client is in state [s]. *)
From S2P Require Import Prelude GoChan Pipe RoundRobin PtrMap Queue QueueHub Link Starts Sends Striping Base64 Json.
From S2P Require Import Messages Hub Server Handshake Client Finish Wire Direction Session ClientProc ClientTable ClientSafe ClientRun.

Section typing.
Context {K : Ksuid} `{!KsuidText K}.
Implicit Types (id m : KSUID) (t : nat) (tr : trans) (ca : call) (s : cproc) (g : buffer).

(** * Messages *)

Inductive msg :=
  | MBeat
  | MHi (m id : KSUID)                            (* the connection [id] of [m] *)
  | MEst (ids : list KSUID) (m : KSUID) (addr : string)
  | MChunk (id : KSUID) (b : buffer)
  | MFinish (id : KSUID).

Definition encode (x : msg) : json :=
  match x with
  | MBeat => marshal_message heartBeats
  | MHi m id => hello_json m id
  | MEst ids m addr => est_json ids m addr
  | MChunk id b => chunk_json id b
  | MFinish id => finish_json id
  end.

(** [link.Write] or [link.WriteEOF] of a dispatcher, for the link of [id]. *)
Definition to_link (we : Link.write_env) id (b : buffer) (h : LinkHub) : outcome LinkHub :=
  match Link.Get id h with
  | None => Finished h
  | Some p =>
      match pm_heap h !! p with
      | None => Finished h
      | Some l =>
          match Link.writeBuf we l (if b_eof b then mkBuffer true [] else b) with
          | Some (l', _) => Finished (pm_update p (fun _ => l') h)
          | None => Blocked
          end
      end
  end.

(** What the server does with a message that it reads on the websocket of hub
    [hp]. *)
Definition serve (now : Z) (we : Link.write_env) (hp : nat) (x : msg) (st : server) : outcome server :=
  match x with
  | MBeat => Finished st
  | MHi m id =>
      Finished (set_links (Link.Add now id m (serverLinkHub st))
        (set_queues (QueueHub.Add now m id (NewWebSocketWriter hp id) (serverQueueHub st)) st))
  | MEst ids m addr =>
      Finished (go_establish hp m (json_string addr) None
        (set_links (Link.hub_SetSort now m ids (serverLinkHub st))
           (set_queues (QueueHub.hub_SetSort now m ids (serverQueueHub st)) st)))
  | MChunk id b => map_outcome (fun h => set_links h st) (to_link we id b (serverLinkHub st))
  | MFinish id => match CloseProxyConn hp id st with Some st' => Finished st' | None => Panicked end
  end.

(** What the client does with a message that it reads on websocket [k]. *)
Definition consume (we : Link.write_env) (k : nat) (x : msg) (c : client) : outcome client :=
  match x with
  | MChunk id b =>
      match wsc_GetProxyById k id c with
      | Some _ => map_outcome (fun h => set_clinks h c) (to_link we id b (clientLinkHub c))
      | None => Finished c
      end
  | MFinish id =>
      match wsc_GetProxyById k id c with
      | Some proxy => match remove (p_trans proxy) id c with Some c' => Finished c' | None => Panicked end
      | None => Finished c
      end
  | _ => Finished c
  end.

Lemma set_links_id st : set_links (serverLinkHub st) st = st.
Proof. by destruct st. Qed.

Lemma set_clinks_id c : set_clinks (clientLinkHub c) c = c.
Proof. by destruct c. Qed.

Lemma unmarshal_beat : unmarshal_message (marshal_message heartBeats) = Some heartBeats.
Proof. apply unmarshal_marshal_message; [done|done|apply ksuid_string_ascii]. Qed.

(** The chunk as the dispatchers see it: the data of an end of file is ignored. *)
Lemma dispatch_data_chunk we id b st :
  dispatch_data we id (m_Data (proxy_message id (if b_eof b then TagEOF else TagData) (b_data b))) st =
    map_outcome (fun h => (set_links h st, None)) (to_link we id b (serverLinkHub st)).
Proof.
  unfold dispatch_data, to_link. cbn [proxy_message m_Data unmarshal_raw].
  rewrite unmarshal_marshal_data by (by destruct (b_eof b)). cbn [pd_Tag pd_DataBase64].
  rewrite DecodeString_EncodeToString.
  destruct (Link.Get id _) as [p|]; [|simpl; by rewrite set_links_id].
  destruct (pm_heap _ !! p) as [l|]; [|simpl; by rewrite set_links_id].
  unfold Link.WriteEOF, Link.Write. destruct b as [[] data]; simpl; by destruct (Link.writeBuf _ _ _) as [[l' r]|].
Qed.

(** The server's dispatcher decodes every message of the protocol, and does with
    it what [serve] says. *)
Lemma dispatch_encode now we hp x st :
  dispatchMessage now we hp MessageText (Some (encode x)) st = map_outcome (fun st' => (st', None)) (serve now we hp x st).
Proof.
  unfold dispatchMessage, dispatchDataMessage. cbn [unmarshal_raw]. destruct x as [|m id|ids m addr|id b|id]; cbn [encode].
  - rewrite unmarshal_beat. cbn [heartBeats m_Id m_Type]. by rewrite ksuid_parse_string.
  - unfold hello_json. rewrite unmarshal_hi_message. cbn [hi_message m_Id m_Type m_Data]. rewrite ksuid_parse_string.
    simpl. unfold dispatch_hi. cbn [unmarshal_raw]. by rewrite unmarshal_marshal_id.
  - unfold est_json. rewrite unmarshal_est_message. cbn [est_message m_Id m_Type m_Data]. rewrite ksuid_parse_string.
    cbn -[unmarshal_est marshal_est]. unfold dispatch_est. cbn [unmarshal_raw]. by rewrite unmarshal_marshal_est.
  - unfold chunk_json. rewrite unmarshal_proxy_message.
    pose proof (dispatch_data_chunk we id b st) as H. cbn [proxy_message m_Id m_Type] in *. rewrite ksuid_parse_string.
    cbn -[dispatch_data proxy_message to_link] in *. cbn [proxy_message m_Data] in *. rewrite H. cbn [serve].
    by destruct (to_link _ _ _ _).
  - unfold finish_json. rewrite unmarshal_finish_message. cbn [m_Id m_Type finish_message]. rewrite ksuid_parse_string. simpl.
    by destruct (CloseProxyConn hp id st).
Qed.

(** So does the client's. *)
Lemma income_encode we k x c : income we k (Some (encode x)) c = consume we k x c.
Proof.
  unfold income. cbn [unmarshal_raw]. destruct x as [|m id|ids m addr|id b|id]; cbn [encode].
  - rewrite unmarshal_beat. cbn [heartBeats m_Id m_Type]. rewrite ksuid_parse_string. simpl. by case_match.
  - unfold hello_json. rewrite unmarshal_hi_message. cbn [hi_message m_Id m_Type m_Data]. rewrite ksuid_parse_string.
    simpl. by case_match.
  - unfold est_json. rewrite unmarshal_est_message. cbn [est_message m_Id m_Type m_Data]. rewrite ksuid_parse_string.
    simpl. by case_match.
  - unfold chunk_json. rewrite unmarshal_proxy_message. cbn [proxy_message m_Id m_Type m_Data]. rewrite ksuid_parse_string.
    cbn [consume]. destruct (wsc_GetProxyById k id c) as [proxy|]; [|done]. simpl String.eqb. cbn iota. cbn [unmarshal_raw].
    rewrite unmarshal_marshal_data by (by destruct (b_eof b)). cbn [pd_Tag pd_DataBase64].
    rewrite DecodeString_EncodeToString. unfold onData, to_link. cbn [sd_Tag sd_Data].
    destruct (Link.Get id _) as [p|]; [|simpl; by rewrite set_clinks_id].
    destruct (pm_heap _ !! p) as [l|]; [|simpl; by rewrite set_clinks_id].
    unfold Link.WriteEOF, Link.Write. destruct b as [[] data]; simpl; by destruct (Link.writeBuf _ _ _) as [[l' r]|].
  - unfold finish_json. rewrite unmarshal_finish_message. cbn [m_Id m_Type finish_message]. by rewrite ksuid_parse_string.
Qed.

(** * Types *)

(** The client has given [id] to a connection of websocket [k], of the call whose
    master is [m]. *)
Definition announced s (k : nat) m id : Prop :=
  exists t tr ca, calls_of s t = Some (tr, ca) /\ tr_sorted tr !! k = Some id /\ tr_master tr = Some m.

Inductive up_type s (k : nat) : msg -> Prop :=
  | up_beat : up_type s k MBeat
  | up_hi m id : announced s k m id -> up_type s k (MHi m id)
  | up_est t tr ca m :
      k = 0 -> calls_of s t = Some (tr, ca) -> tr_master tr = Some m -> 2 <= rank (ca_pc ca) ->
      length (tr_sorted tr) = length (cl_wsc (pr_client s)) -> up_type s k (MEst (tr_sorted tr) m (ca_addr ca))
  | up_chunk m id b : announced s k m id -> written b -> up_type s k (MChunk id b)
  | up_finish id : k = 0 -> opened s id -> up_type s k (MFinish id).

Inductive down_type s (k : nat) : msg -> Prop :=
  | down_chunk m id b : announced s k m id -> written b -> down_type s k (MChunk id b)
  | down_finish id : k = 0 -> opened s id -> down_type s k (MFinish id).

Definition up_typed s k (v : json) : Prop := exists x, v = encode x /\ up_type s k x.
Definition down_typed s k (v : json) : Prop := exists x, v = encode x /\ down_type s k x.
End typing.
