(* ===== verification/ClientTyped.v ===== *)
(** The messages of the client have their types (wss/wssocks_client.go): what the
    steps of the client process do to its calls, so that types are kept, and that
    every message that a step gives to a websocket has a type. *)
From S2P Require Import Prelude GoChan Pipe RoundRobin PtrMap Queue QueueHub Link Starts Sends Striping Base64 Json.
From S2P Require Import Messages Hub Server Client Finish Wire Direction Session ClientProc ClientTable ClientSafe ClientRun Typing.

Section typed.
Context {K : Ksuid} `{!KsuidText K}.
Implicit Types (id m : KSUID) (t k : nat) (tr : trans) (ca : call) (s : cproc).

(** * Calls go on *)

(** Its copying goroutine is started once its queue is. *)
Definition copy_ok ca : Prop := ca_copy ca <> CNone -> 4 <= rank (ca_pc ca).

Definition call_on tr ca tr' ca' : Prop :=
  goes_on tr ca tr' ca' /\ ca_addr ca' = ca_addr ca /\ (copy_ok ca -> copy_ok ca').

(** All calls go on, and a new one is at its start. *)
Record proc_on s s' : Prop := {
  on_old t tr ca : calls_of s t = Some (tr, ca) ->
    exists tr' ca', calls_of s' t = Some (tr', ca') /\ call_on tr ca tr' ca';
  on_new t tr ca : calls_of s t = None -> calls_of s' t = Some (tr, ca) -> ca_copy ca = CNone;
  on_wsc : length (cl_wsc (pr_client s')) = length (cl_wsc (pr_client s));
}.

Lemma call_on_refl tr ca : call_on tr ca tr ca.
Proof. done. Qed.

Lemma proc_on_same s s' :
  (forall t, calls_of s' t = calls_of s t) -> length (cl_wsc (pr_client s')) = length (cl_wsc (pr_client s)) -> proc_on s s'.
Proof.
  intros E Hn. split; [|intros t tr ca; rewrite E; congruence|done].
  intros t tr ca Ht. exists tr, ca. rewrite E. split; [done|apply call_on_refl].
Qed.

Lemma proc_on_client s s' :
  cl_trans (pr_client s') = cl_trans (pr_client s) -> pr_calls s' = pr_calls s ->
  length (cl_wsc (pr_client s')) = length (cl_wsc (pr_client s)) -> proc_on s s'.
Proof. intros Et Ec. apply proc_on_same. intros t. unfold calls_of. by rewrite Et, Ec. Qed.

(** A step of the call [t]. *)
Lemma proc_on_call s t tr ca tr' ca' c' :
  calls_of s t = Some (tr, ca) -> cl_trans c' = <[t := tr']> (cl_trans (pr_client s)) ->
  length (cl_wsc c') = length (cl_wsc (pr_client s)) -> call_on tr ca tr' ca' ->
  proc_on s (set_call t ca' (set_pr_client c' s)) /\ calls_of (set_call t ca' (set_pr_client c' s)) t = Some (tr', ca').
Proof.
  intros Ht Htr Hn Hon. destruct (calls_of_some _ _ _ _ Ht) as [Hlt Hlc].
  assert (forall t', calls_of (set_call t ca' (set_pr_client c' s)) t' =
            if decide (t' = t) then Some (tr', ca') else calls_of s t') as Hlook.
  { intros t'. unfold calls_of. simpl. rewrite Htr. case_decide as E.
    - subst t'. by rewrite !list_lookup_insert_eq by (by eapply lookup_lt_Some).
    - by rewrite !list_lookup_insert_ne. }
  split; [|by rewrite Hlook, decide_True]. split; [| |done].
  - intros t0 tr0 ca0 Ht0. rewrite Hlook. case_decide as E; [subst; simplify_eq; by exists tr', ca'|].
    exists tr0, ca0. split; [done|apply call_on_refl].
  - intros t0 tr0 ca0 Hn0. rewrite Hlook. case_decide; [subst; congruence|congruence].
Qed.

Lemma remove_call t m c c' tr :
  cl_trans c !! t = Some tr -> remove t m c = Some c' ->
  exists tr', cl_trans c' = <[t := tr']> (cl_trans c) /\ tr_master tr' = tr_master tr /\ tr_sorted tr' = tr_sorted tr /\
    length (cl_wsc c') = length (cl_wsc c).
Proof.
  intros Ht H. unfold remove in H. rewrite Ht in H. case_decide.
  - simplify_eq. exists tr. by rewrite list_insert_id.
  - destruct (QueueHub.Remove m _); simpl in H; [|done]. destruct (Link.RemoveAll m _); simplify_eq/=. by eexists.
Qed.

(** What a step of a call does to it. *)
Lemma call_step_on s t e tr ca c' ca' out :
  cp_inv s -> calls_of s t = Some (tr, ca) -> call_step t e (pr_client s) ca = Finished (c', ca', out) ->
  exists tr', cl_trans c' = <[t := tr']> (cl_trans (pr_client s)) /\
    length (cl_wsc c') = length (cl_wsc (pr_client s)) /\ call_on tr ca tr' ca'.
Proof.
  intros Hinv Ht H. destruct (calls_of_some _ _ _ _ Ht) as [Htr Hca]. pose proof (master_some s t tr ca Hinv Ht) as Hms.
  destruct (cp_inv_known s t tr ca Hinv Ht) as [[Hmm _ [_ Hlp] _ _] _]. pose proof (ci_some _ Hinv) as Hn.
  pose proof (calls_of_same _ _ _ _ Ht) as Hid. unfold call_step, trans_at in H. rewrite Htr in H. simpl in H.
  assert (forall pc, rank (ca_pc ca) <= rank pc -> call_on tr ca tr (set_ca_pc pc ca)) as Hgo.
  { intros pc Hr. split; [by split_and!|split; [done|]]. unfold copy_ok. simpl. intros Hc Hx%Hc. lia. }
  destruct (ca_pc ca) as [i|i id1|i id1|i id1| | |qq| |oo|oo|err|[|[[i id1] w] l] err|i id1 l err|err] eqn:Epc, e; try done;
    repeat case_match; simplify_eq; try done;
    try (exists tr; split_and!; [done|simpl; rewrite ?length_alter; done|apply Hgo; simpl; lia]).
  1,2: match goal with |- context [mkTrans _ (Some ?m) _] => assert (forall m0, tr_master tr = Some m0 -> m = m0) as Hsame by
         (intros m0 Hm0; rewrite ?Hm0; destruct Hlp as [Hl _]; try apply Nat.eqb_eq in H1;
          rewrite Hm0 in Hmm; destruct (tr_sorted tr); simplify_eq/=; done) end;
       eexists; split_and!; [done|simpl; by rewrite length_alter|split; [|split; [done|]]];
       [split_and!; [rewrite Epc; simpl; lia|intros m0 Hm0; by rewrite <- (Hsame m0 Hm0)|by apply prefix_app_r]
       |unfold copy_ok; rewrite Epc; simpl; intros Hc Hx%Hc; lia].
  - exists tr. split_and!; [done|done|]. split; [by split_and!; [rewrite Epc; simpl; lia|..]|split; [done|]].
    unfold copy_ok. simpl. lia.
  - match goal with H : remove _ _ _ = Some _ |- _ => destruct (remove_call _ _ _ _ _ Htr H) as (tr' & -> & Em & Es & Ew) end.
    exists tr'. split_and!; [done|done|]. split; [|split; [done|]].
    + split_and!; [rewrite Epc; simpl; lia|by rewrite Em|by rewrite Es].
    + unfold copy_ok. simpl. lia.
Qed.

Lemma set_call_same s t ca c : pr_calls s !! t = Some ca -> set_call t ca (set_pr_client c s) = set_pr_client c s.
Proof. intros Hca. unfold set_call. simpl. by rewrite list_insert_id. Qed.

(** The copying goroutine goes on. *)
Lemma copy_on s t ca pc :
  cp_inv s -> pr_calls s !! t = Some ca -> ca_copy ca <> CNone -> proc_on s (set_call t (set_ca_copy pc ca) s).
Proof.
  intros Hinv Hca Hc. destruct (calls_of_call s t ca Hinv Hca) as [tr Ht].
  destruct (proc_on_call s t tr ca tr (set_ca_copy pc ca) (pr_client s) Ht) as [H _]; [by eapply calls_of_same|done| |].
  - split; [done|split; [done|]]. intros Hok _. by apply Hok.
  - by rewrite cproc_same in H.
Qed.

(** Reading a message. *)
Lemma consume_on s k we x c' :
  cp_inv s -> (forall id proxy, x = MFinish id -> wsc_GetProxyById k id (pr_client s) = Some proxy -> opened s id) ->
  consume we k x (pr_client s) = Finished c' -> proc_on s (set_pr_client c' s).
Proof.
  intros Hinv Hop H. unfold consume, to_link in H.
  destruct x as [|m id|ids m addr|id b|id]; try (simplify_eq; by apply proc_on_client).
  - repeat case_match; simplify_eq/=; by apply proc_on_client.
  - destruct (wsc_GetProxyById k id _) as [proxy|] eqn:Hpx; [|simplify_eq; by apply proc_on_client].
    destruct (Hop id proxy eq_refl Hpx) as (t & tr & ca & Ht & Hm & _).
    rewrite (opened_proxy s k id proxy t tr ca Hinv Hpx Ht Hm) in H.
    destruct (remove t id _) as [c1|] eqn:Er; simplify_eq.
    destruct (calls_of_some _ _ _ _ Ht) as [Htr Hca].
    destruct (remove_call _ _ _ _ _ Htr Er) as (tr' & E & Em & Es & Ew).
    destruct (proc_on_call s t tr ca tr' ca c' Ht E Ew) as [Hon _]; [|by rewrite set_call_same in Hon].
    split; [|done]. split_and!; [done|by rewrite Em|by rewrite Es].
Qed.

Lemma queue_send_on g e s s' o : queue_send g e s = Some (s', o) -> proc_on s s'.
Proof.
  intros (p & q & q' & pc' & _ & _ & _ & ->)%queue_send_some. by apply proc_on_client.
Qed.

Lemma link_send_on g e s s' : link_send g e s = Some s' -> proc_on s s'.
Proof.
  intros (p & h' & pc' & _ & _ & ->)%link_send_some. by apply proc_on_client.
Qed.

(** The other steps. *)
Lemma exec_on s ev s' out :
  cp_inv s -> (forall i we data, ev <> PRead i we (inr data)) -> cp_exec ev s = Finished (s', out) -> proc_on s s'.
Proof.
  intros Hinv Hev E.
  destruct ev as [conn addr|t e|t b|t err|t lost|i we read|p b|g e|g we lost|g e|i lost|i b]; simpl in E.
  - simplify_eq. split; [| |done].
    + intros t tr ca Ht. destruct (calls_of_some _ _ _ _ Ht) as [Htr Hca]. exists tr, ca. unfold calls_of. simpl.
      by rewrite (lookup_app_l_Some _ _ _ _ Htr), (lookup_app_l_Some _ _ _ _ Hca).
    + intros t tr ca Hn Ht. destruct (calls_of_some _ _ _ _ Ht) as [Htr [Hca|[_ Hca]]%lookup_app_Some]; simpl in *.
      * destruct (calls_of_call s t ca Hinv Hca) as [tr0 ?]. congruence.
      * by apply list_lookup_singleton_Some in Hca as [_ <-].
  - destruct (pr_calls s !! t) as [ca|] eqn:Hca; [|done]. destruct (new_id_ok _ _); [|done].
    destruct (call_step t e _ ca) as [[[c' ca'] o]| |] eqn:Ec; simplify_eq.
    destruct (calls_of_call s t ca Hinv Hca) as [tr Ht].
    destruct (call_step_on _ _ _ _ _ _ _ _ Hinv Ht Ec) as (tr' & Etr & En & Hon). by eapply proc_on_call.
  - destruct (ca_copy <$> _) as [[|qq| |]|]; try done. destruct (pm_heap _ !! qq) as [q|]; [|done]. simpl in E.
    destruct (chan_send _ b); simplify_eq/=. by apply proc_on_client.
  - destruct (pr_calls s !! t) as [ca|] eqn:Hca; [|done]. destruct (ca_copy ca) eqn:Ec; simplify_eq.
    apply copy_on; [done|done|by rewrite Ec].
  - destruct (pr_calls s !! t) as [ca|] eqn:Hca; [|done]. destruct (ca_copy ca) eqn:Ec; simplify_eq.
    apply copy_on; [done|done|by rewrite Ec].
  - case_decide; [|done]. destruct read as [e|data]; [|by destruct (Hev i we data)].
    unfold Listen_step in E. destruct (cl_wsc _ !! i) as [w|]; [|done]. destruct (wc_cancelled w); simplify_eq/=; by apply proc_on_client.
  - destruct (pm_heap _ !! p) as [l|]; [|done]. simpl in E. destruct (chan_send _ b); simplify_eq/=. by apply proc_on_client.
  - destruct (queue_send g e s) as [[s1 [o|]]|] eqn:Eq; simplify_eq. by eapply queue_send_on.
  - destruct (about_to_write g s) as [[x b]|]; [|done]. destruct (hand x we b) as [o e].
    destruct (lost && _); [done|]. destruct (queue_send g _ s) as [[s1 [o'|]]|] eqn:Eq; simplify_eq. by eapply queue_send_on.
  - destruct (link_send g e s) as [s1|] eqn:Eq; simplify_eq. by eapply link_send_on.
  - destruct (Nat.ltb _ _); simplify_eq. by apply proc_on_client.
  - simplify_eq. apply proc_on_client; [done|done|]. simpl. by rewrite length_alter.
Qed.
(** * Types are kept *)

Definition copies_ok s : Prop := forall t tr ca, calls_of s t = Some (tr, ca) -> copy_ok ca.

Lemma copies_on s s' : proc_on s s' -> copies_ok s -> copies_ok s'.
Proof.
  intros [Ho Hn _] Hc t tr' ca' Ht'. destruct (calls_of s t) as [[tr ca]|] eqn:Ht.
  - destruct (Ho t tr ca Ht) as (tr1 & ca1 & Ht1 & _ & _ & Hcp). simplify_eq. by eapply Hcp, Hc.
  - intros H. by rewrite (Hn t tr' ca' Ht Ht') in H.
Qed.

Lemma announced_on s s' k m id : proc_on s s' -> announced s k m id -> announced s' k m id.
Proof.
  intros Hon (t & tr & ca & Ht & Hid & Hm). destruct (on_old _ _ Hon t tr ca Ht) as (tr' & ca' & Ht' & (_ & Hgm & Hpre) & _).
  exists t, tr', ca'. split_and!; [done|by eapply prefix_lookup_Some|by apply Hgm].
Qed.

Lemma opened_on s s' id : proc_on s s' -> opened s id -> opened s' id.
Proof.
  intros Hon (t & tr & ca & Ht & Hm & Hr). destruct (on_old _ _ Hon t tr ca Ht) as (tr' & ca' & Ht' & (Hle & Hgm & _) & _).
  exists t, tr', ca'. split_and!; [done|by apply Hgm|lia].
Qed.

(** The IDs of a call whose loop is over are all there. *)
Lemma all_ids s t tr ca :
  cp_inv s -> calls_of s t = Some (tr, ca) -> 1 <= rank (ca_pc ca) -> length (tr_sorted tr) = length (cl_wsc (pr_client s)).
Proof.
  intros Hinv Ht Hr. destruct (cp_inv_known s t tr ca Hinv Ht) as [[_ _ [_ Hl] _ _] _].
  by destruct (ca_pc ca); simpl in *; try lia.
Qed.

Lemma up_type_on s s' k x : proc_on s s' -> cp_inv s' -> up_type s k x -> up_type s' k x.
Proof.
  intros Hon Hinv' []; try (econstructor; by first [eapply announced_on|eapply opened_on|done]).
  - match goal with H : calls_of s _ = Some _ |- _ => destruct (on_old _ _ Hon _ _ _ H) as (tr' & ca' & Ht' & (Hle & Hgm & Hpre) & Ha & _) end.
    assert (tr_sorted tr' = tr_sorted tr) as <-.
    { symmetry. apply prefix_length_eq; [done|]. rewrite (all_ids s' t tr' ca'); [|done|done|lia].
      rewrite (on_wsc _ _ Hon). lia. }
    rewrite <- Ha. econstructor; [done|exact Ht'|by apply Hgm|lia|]. apply (all_ids s' t tr' ca'); [done|done|lia].
Qed.

Lemma down_type_on s s' k x : proc_on s s' -> down_type s k x -> down_type s' k x.
Proof.
  intros Hon []; [econstructor; [by eapply announced_on|done]|apply down_finish; [done|by eapply opened_on]].
Qed.

Lemma up_typed_on s s' k v : proc_on s s' -> cp_inv s' -> up_typed s k v -> up_typed s' k v.
Proof. intros Hon Hinv (x & -> & Hx). exists x. split; [done|by eapply up_type_on]. Qed.

Lemma down_typed_on s s' k v : proc_on s s' -> down_typed s k v -> down_typed s' k v.
Proof. intros Hon (x & -> & Hx). exists x. split; [done|by eapply down_type_on]. Qed.

(** * The messages of a step *)

Definition out_typed s (out : list (nat * json)) : Prop := Forall (fun '(k, v) => up_typed s k v) out.

Lemma out_unless s lost out : out_typed s out -> out_typed s (unless lost out).
Proof. destruct lost; [by constructor|done]. Qed.

Lemma out_one s k x : up_type s k x -> out_typed s [(k, encode x)].
Proof. intros Hx. constructor; [by exists x|constructor]. Qed.

Lemma call_out s t e tr ca c' ca' out :
  cp_inv s -> calls_of s t = Some (tr, ca) -> call_step t e (pr_client s) ca = Finished (c', ca', out) ->
  out_typed (set_call t ca' (set_pr_client c' s)) out.
Proof.
  intros Hinv Ht H. destruct (call_step_on _ _ _ _ _ _ _ _ Hinv Ht H) as (tr' & Etr & En & Hon).
  destruct (calls_of_some _ _ _ _ Ht) as [Htr Hca]. pose proof (master_some s t tr ca Hinv Ht) as Hms.
  destruct (proc_on_call s t tr ca tr' ca' c' Ht Etr En Hon) as [_ Ht'].
  assert (cl_trans c' !! t = Some tr') as Htr' by (rewrite Etr; apply list_lookup_insert_eq; by eapply lookup_lt_Some).
  clear Etr Hon. destruct (cp_inv_known s t tr ca Hinv Ht) as [[_ _ [_ Hlp] _ _] _]. pose proof (ci_some _ Hinv) as Hn.
  unfold call_step, trans_at in H. rewrite Htr in H. simpl in H.
  assert (forall s' pc m, calls_of s' t = Some (tr, set_ca_pc pc ca) -> tr_master tr = Some m -> 2 <= rank pc ->
            length (tr_sorted tr) = length (cl_wsc (pr_client s')) ->
            out_typed s' [(0, est_json (tr_sorted tr) m (ca_addr ca))]) as Hest.
  { intros s' pc m Hs' Hm Hr Hlen. apply (out_one _ 0 (MEst (tr_sorted tr) m (ca_addr (set_ca_pc pc ca)))).
    by apply (up_est _ _ t). }
  destruct (ca_pc ca) as [i|i id1|i id1|i id1| | |qq| |oo|oo|err|[|[[i id1] w] l] err|i id1 l err|err] eqn:Epc, e; try done;
    repeat case_match; simplify_eq; try done; try (by constructor); apply out_unless.
  - destruct Hlp as (Hid & Hl & _). destruct Hms as [m Hm]; [lia|]. rewrite Hm in *.
    apply (out_one _ i (MHi m id1)), up_hi. eexists t, _, _. by split_and!.
  - apply (Hest _ (TRemove (Some e))); [exact Ht'|done|simpl; lia|done].
  - apply (Hest _ TGetQueue); [exact Ht'|done|simpl; lia|done].
Qed.

(** What a writer hands to its websocket. *)
Lemma hand_encode x we b out e :
  hand x we b = (out, e) -> Forall (fun v => exists b', v = encode (MChunk (w_Id x) b') /\ written b') out.
Proof.
  unfold hand, writer_WriteEOF, writer_Write. intros H.
  assert (forall d, marshal_message (proxy_message (w_Id x) TagData d) = encode (MChunk (w_Id x) (mkBuffer false d))) as Hd by done.
  assert (marshal_message (proxy_message (w_Id x) TagEOF []) = encode (MChunk (w_Id x) (mkBuffer true []))) as He by done.
  destruct (b_eof b), (w_CtxErr x); simpl in H; repeat case_match; simplify_eq; constructor; try done;
    eexists; (split; [first [apply Hd|apply He]|done]).
Qed.

Lemma about_to_write_announced s g x b :
  cp_inv s -> about_to_write g s = Some (x, b) -> exists m, announced s (w_WSC x) m (w_Id x).
Proof.
  intros Hinv H. unfold about_to_write in H. destruct (pc_at _ g) as [| | | | |[w|] rest b'| | | |]; try done.
  destruct (cl_writers _ !! w) as [y|] eqn:Hy; simplify_eq/=.
  destruct (wo_own _ _ (ci_writers _ Hinv) w x Hy) as (t & tr & ca & Ht & Hid).
  destruct (master_some s t tr ca Hinv Ht) as [m Hm]; [apply lookup_lt_Some in Hid; lia|]. by exists m, t, tr, ca.
Qed.

(** Every message that a step of the client gives to a websocket has its type. *)
Lemma exec_out s ev s' out :
  cp_inv s -> cp_inv s' -> copies_ok s -> (forall i we data, ev <> PRead i we (inr data)) ->
  cp_exec ev s = Finished (s', out) -> out_typed s' out.
Proof.
  intros Hinv Hinv' Hcp Hev E. pose proof (exec_on _ _ _ _ Hinv Hev E) as Hon.
  destruct ev as [conn addr|t e|t b|t err|t lost|i we read|p b|g e|g we lost|g e|i lost|i b]; simpl in E.
  - simplify_eq. constructor.
  - destruct (pr_calls s !! t) as [ca|] eqn:Hca; [|done]. destruct (new_id_ok _ _); [|done].
    destruct (call_step t e _ ca) as [[[c' ca'] o]| |] eqn:Ec; simplify_eq.
    destruct (calls_of_call s t ca Hinv Hca) as [tr Ht]. by eapply call_out.
  - unfold from_client, of_option in E. repeat case_match; simplify_eq; constructor.
  - repeat case_match; simplify_eq; constructor.
  - destruct (pr_calls s !! t) as [ca|] eqn:Hca; [|done]. destruct (ca_copy ca) eqn:Ec; simplify_eq.
    destruct (calls_of_call s t ca Hinv Hca) as [tr Ht]. destruct (calls_of_some _ _ _ _ Ht) as [Htr _].
    assert (4 <= rank (ca_pc ca)) as Hr by (apply (Hcp t tr ca Ht); by rewrite Ec).
    destruct (master_some s t tr ca Hinv Ht) as [m Hm].
    { rewrite (all_ids s t tr ca); [apply (ci_some _ Hinv)|done|done|lia]. }
    unfold trans_at. rewrite Htr. simpl. rewrite Hm. apply out_unless, (out_one _ 0 (MFinish m)), up_finish; [done|].
    eapply opened_on; [exact Hon|]. exists t, tr, ca. split_and!; [done|done|lia].
  - repeat case_match; simplify_eq; constructor.
  - unfold from_client, of_option in E. repeat case_match; simplify_eq; constructor.
  - repeat case_match; simplify_eq; constructor.
  - destruct (about_to_write g s) as [[x b]|] eqn:Ea; [|done]. destruct (hand x we b) as [o e] eqn:Eh.
    destruct (lost && _); [done|]. destruct (queue_send g _ s) as [[s1 [o'|]]|]; simplify_eq. apply out_unless.
    destruct (about_to_write_announced s g x b Hinv Ea) as [m Hm].
    apply Forall_map. eapply Forall_impl; [by eapply hand_encode|]. intros v [b' [-> Hb']].
    exists (MChunk (w_Id x) b'). split; [done|]. eapply up_chunk; [by eapply announced_on|done].
  - repeat case_match; simplify_eq; constructor.
  - destruct (Nat.ltb _ _); simplify_eq. apply out_unless, (out_one _ i MBeat), up_beat.
  - simplify_eq. constructor.
Qed.
End typed.
