(* ===== verification/ServerTyped.v ===== *)
(** Whom the server writes to (wss/proxy_server.go, wss/hub.go): the writers of
    its queues and its proxied connections come from the messages that were read
    on their own websocket, and no other step makes or redirects one. *)
From S2P Require Import Prelude GoChan Pipe RoundRobin PtrMap Queue QueueHub Link Starts Sends Striping Base64 Json.
From S2P Require Import Messages Hub Server Handshake Wire Direction Session.

Section writers.
Context {K : Ksuid} {W : Type}.
Implicit Types (h : QueueHub W) (w : W) (q : queue W).

(** [w] is a writer of some queue. *)
Definition hub_writer h w : Prop := exists p q id, pm_heap h !! p = Some q /\ q_writers q !! id = Some w.

Lemma hub_writer_update p f h w :
  hub_writer (pm_update p f h) w ->
  hub_writer h w \/ exists q id, pm_heap h !! p = Some q /\ q_writers (f q) !! id = Some w.
Proof.
  intros (p' & q' & id & Hq & Hw). simpl in Hq. destruct (decide (p = p')) as [<-|Hne].
  - rewrite list_lookup_alter_eq in Hq. destruct (pm_heap h !! p) as [q|] eqn:E; [|done]. simplify_eq/=.
    right. by exists q, id.
  - rewrite list_lookup_alter_ne in Hq by done. left. by exists p', q', id.
Qed.

Lemma hub_writer_same p f h w :
  (forall q, pm_heap h !! p = Some q -> q_writers (f q) = q_writers q) -> hub_writer (pm_update p f h) w -> hub_writer h w.
Proof.
  intros Hf [?|(q & id & Hq & Hw)]%hub_writer_update; [done|]. rewrite (Hf q Hq) in Hw. by exists p, q, id.
Qed.

Lemma hub_writer_new now id m h w : hub_writer (pm_new id (NewQueue now m) h) w -> hub_writer h w.
Proof.
  intros (p & q & id' & [Hq|[_ Hq]]%lookup_app_Some & Hw); [by exists p, q, id'|].
  apply list_lookup_singleton_Some in Hq as [_ <-]. simpl in Hw. by rewrite lookup_empty in Hw.
Qed.

Lemma hub_writer_trySend m h w : hub_writer (fst (QueueHub.trySend m h)) w -> hub_writer h w.
Proof. unfold QueueHub.trySend. by repeat case_match. Qed.

Lemma hub_writer_Add now m id w h w' : hub_writer (QueueHub.Add now m id w h) w' -> w' = w \/ hub_writer h w'.
Proof.
  unfold QueueHub.Add. intros H%hub_writer_trySend.
  assert (forall h, hub_writer (QueueHub.ensure now m h) w' -> hub_writer h w') as He.
  { intros h0 H0. unfold QueueHub.ensure in H0. case_match; [exact H0|by eapply hub_writer_new]. }
  destruct (pm_map (QueueHub.ensure now m h) !! m) as [p|]; [|right; by apply He].
  apply hub_writer_update in H as [?|(q & id' & Hq & Hw)]; [right; by apply He|].
  simpl in Hw. rewrite lookup_insert in Hw. case_decide; [simplify_eq; by left|]. right. apply He. by exists p, q, id'.
Qed.

Lemma hub_writer_SetSort now m sort h w : hub_writer (QueueHub.hub_SetSort now m sort h) w -> hub_writer h w.
Proof.
  unfold QueueHub.hub_SetSort. intros H. repeat case_match; try (apply hub_writer_same in H; [|done]);
    by first [done|eapply hub_writer_new].
Qed.

Lemma hub_writer_Remove m h h' w : QueueHub.Remove m h = Some h' -> hub_writer h' w -> hub_writer h w.
Proof.
  intros Hr (p & q' & id & Hq' & Hw).
  assert (forall q q', obj_close q = Some q' -> q_writers q' = q_writers q) as Hcl.
  { intros q q'' Hc%Queue.close_inv. by destruct Hc as (? & ? & _). }
  destruct (pm_close_delete_inv (fun q q' => q_writers q' = q_writers q) m h h' ltac:(done) Hcl Hr) as [_ HR].
  destruct (heap_rel_r _ _ _ _ _ HR Hq') as (q & Hq & E). rewrite E in Hw. by exists p, q, id.
Qed.
End writers.

Section authors.
Context {K : Ksuid} `{!KsuidText K}.
Implicit Types (st : server) (e : est) (id : KSUID) (w : webSocketWriter).

(** What a step makes: the new writers satisfy [P], the hub and the ID of a new
    connection satisfy [Q]; those that were there keep theirs. *)
Record authored (P : webSocketWriter -> Prop) (Q : nat -> KSUID -> Prop) st st' : Prop := {
  au_writers w : hub_writer (serverQueueHub st') w -> hub_writer (serverQueueHub st) w \/ P w;
  au_ests p e : sv_ests st' !! p = Some e ->
    (exists e0, sv_ests st !! p = Some e0 /\ es_hub e = es_hub e0 /\ es_id e = es_id e0) \/ Q (es_hub e) (es_id e);
}.

Definition same_authors : server -> server -> Prop := authored (fun _ => False) (fun _ _ => False).

Lemma authored_trans P Q st st1 st' : authored P Q st st1 -> authored P Q st1 st' -> authored P Q st st'.
Proof.
  intros [W1 E1] [W2 E2]. split.
  - intros w [H%W1|H]%W2; [done|by right].
  - intros p e [(e1 & [(e0 & H0 & A0 & B0)|HQ]%E1 & A1 & B1)|H]%E2; [|right; by rewrite A1, B1|by right].
    left. exists e0. split_and!; congruence.
Qed.

Lemma same_authors_any P Q st st' : same_authors st st' -> authored P Q st st'.
Proof.
  intros [W E]. split.
  - intros w [?|[]]%W. by left.
  - intros p e [?|[]]%E. by left.
Qed.

Lemma same_authors_parts st st' :
  (forall w, hub_writer (serverQueueHub st') w -> hub_writer (serverQueueHub st) w) -> sv_ests st' = sv_ests st ->
  same_authors st st'.
Proof. intros Hw He. split; [intros w H; left; by apply Hw|]. intros p e H. rewrite He in H. left. by exists e. Qed.

Lemma same_authors_refl st : same_authors st st.
Proof. by apply same_authors_parts. Qed.

Lemma same_authors_est p f st :
  (forall e, es_hub (f e) = es_hub e /\ es_id (f e) = es_id e) -> same_authors st (set_est p f st).
Proof.
  intros Hf. split; [by left|]. intros p' e H. left. simpl in H. destruct (decide (p = p')) as [<-|Hne].
  - rewrite list_lookup_alter_eq in H. destruct (sv_ests st !! p) as [e0|]; simplify_eq/=. exists e0. split; [done|apply Hf].
  - rewrite list_lookup_alter_ne in H by done. by exists e.
Qed.

Lemma same_authors_est' p f st st' :
  (forall e, es_hub (f e) = es_hub e /\ es_id (f e) = es_id e) -> same_authors st st' -> same_authors st (set_est p f st').
Proof. intros Hf H. eapply authored_trans; [exact H|by apply same_authors_est]. Qed.

Lemma est_Close_authors p id st st' : est_Close p id st = Some st' -> same_authors st st'.
Proof.
  unfold est_Close. intros H. destruct (sv_ests st !! p); [|done]. case_decide; [simplify_eq; apply same_authors_refl|].
  destruct (Link.RemoveAll id _) as [l|]; simpl in H; [|done].
  destruct (QueueHub.Remove id _) as [q|] eqn:E; simplify_eq/=.
  eapply authored_trans; [by apply (same_authors_est p (set_status "closed") st)|].
  apply same_authors_parts; [|done]. intros w. simpl. by apply (hub_writer_Remove id).
Qed.

Lemma hub_Close_authors hp order st st' : hub_Close hp order st = Some st' -> same_authors st st'.
Proof.
  revert st. induction order as [|id order IH]; intros st H; simpl in H; [simplify_eq; apply same_authors_refl|].
  destruct (GetProxyById hp id st) as [proxy|]; [|by apply IH].
  destruct (est_Close _ id st) as [st1|] eqn:E; simpl in H; [|done]. apply est_Close_authors in E.
  eapply authored_trans; [exact E|]. eapply authored_trans; [|by apply IH]. by apply same_authors_parts.
Qed.

(** ** Dispatching *)

Definition says (ty : string) id (data : option json) : Prop := exists v, data = Some v /\ is_type ty id v = true.

Definition dispatch_authors (hp : nat) (data : option json) : server -> server -> Prop :=
  authored (fun w => w_WSC w = hp /\ says WsTpHi (w_Id w) data) (fun hp' id => hp' = hp /\ says WsTpEst id data).

Lemma says_intro ty id v m :
  unmarshal_message v = Some m -> ksuid_Parse (m_Id m) = Some id -> String.eqb (m_Type m) ty = true -> says ty id (Some v).
Proof.
  intros Hm Hid Ht%String.eqb_eq. exists v. split; [done|]. unfold is_type. rewrite Hm. by apply bool_decide_eq_true.
Qed.

Lemma dispatchData_authors now we hp data st st' err :
  dispatchDataMessage now we hp data st = Finished (st', err) -> dispatch_authors hp data st st'.
Proof.
  intros H. unfold dispatchDataMessage in H.
  assert (forall st, dispatch_authors hp data st st) as Hid by (intros; apply same_authors_any, same_authors_refl).
  destruct data as [v|]; [|by simplify_eq/=]. cbn [unmarshal_raw] in H.
  destruct (unmarshal_message v) as [m|] eqn:Em; [|by simplify_eq].
  destruct (ksuid_Parse (m_Id m)) as [id|] eqn:Ei; [|by simplify_eq].
  destruct (String.eqb (m_Type m) WsTpBeats); [by simplify_eq|].
  destruct (String.eqb (m_Type m) WsTpClose).
  { unfold CloseProxyConn in H. repeat case_match; simplify_eq; [|done]. by eapply same_authors_any, est_Close_authors. }
  destruct (String.eqb (m_Type m) WsTpHi) eqn:Eh.
  { unfold dispatch_hi in H. destruct (unmarshal_raw unmarshal_id (m_Data m)) as [mid|]; simplify_eq; [|done].
    split; [|intros p0 e0 He; left; by exists e0]. intros w [->|?]%hub_writer_Add; [right|by left].
    split; [done|]. by eapply says_intro. }
  destruct (String.eqb (m_Type m) WsTpEst) eqn:Ee.
  { unfold dispatch_est in H. repeat case_match; simplify_eq; try done; (split; [intros w ?%hub_writer_SetSort; by left|]);
      intros p0 e0; simpl; intros [He|[_ He]]%lookup_app_Some; try (left; by exists e0);
      apply list_lookup_singleton_Some in He as [_ <-]; right; (split; [done|]); by eapply says_intro. }
  destruct (String.eqb (m_Type m) WsTpData); [|by simplify_eq].
  unfold dispatch_data in H. repeat case_match; simplify_eq; try done; by apply same_authors_any, same_authors_parts.
Qed.

(** ** The other steps *)

Lemma ServeHTTP_authors config now pc ev st st' pc' out :
  ServeHTTP_step config now pc ev st = Finished (st', pc', out) ->
  same_authors st st' \/ exists hp data err we, pc = HRead hp /\ ev = HEvRead MessageText data err we /\
    ~ (err <> None /\ err <> Some EOF) /\ dispatch_authors hp data st st'.
Proof.
  intros H. assert (same_authors st st) as Hid by apply same_authors_refl.
  destruct pc as [| | | |hp|hp|hp| |], ev as [key|[err|]|[err|]|id|mt d err we|ord|]; simpl in H; try done.
  - left. by case_match; simplify_eq.
  - left. by simplify_eq.
  - left. by simplify_eq.
  - left. by simplify_eq.
  - left. by simplify_eq.
  - left. simplify_eq. by apply same_authors_parts.
  - case_bool_decide as Hb; [left; by simplify_eq|]. destruct mt; simpl in H; [left; by simplify_eq| |left; by simplify_eq].
    destruct (dispatchDataMessage now we hp d st) as [[st1 e]| |] eqn:E; simplify_eq. right.
    exists hp, d, err, we. split_and!; [done..|]. by eapply dispatchData_authors.
  - left. destruct (hub_Close hp ord st) as [st1|] eqn:E; simplify_eq. by eapply hub_Close_authors.
  - left. destruct (sv_hubs st !! hp); simplify_eq. unfold hc_RemoveProxy. case_match; by apply same_authors_parts.
  - left. by simplify_eq.
Qed.

Lemma establish_authors p ev st st' out : establish_step p ev st = Some (st', out) -> same_authors st st'.
Proof.
  intros H. unfold establish_step in H. destruct (sv_ests st !! p) as [e|] eqn:He; [|done]. simpl in H.
  destruct (es_pc e) as [| |conn| | | |[w|]| | | |err|err|] eqn:Hpc, ev as [|[]|[err'|conn']|sig]; try done;
    simplify_eq; try (by apply same_authors_est); try (by apply same_authors_est', same_authors_parts).
  - apply same_authors_est'; [done|]. apply same_authors_parts; [|done]. intros w. simpl. apply hub_writer_trySend.
  - destruct (pm_heap (serverQueueHub st) !! w) as [q|]; [|done]. simpl in H. destruct (done_ready _ _); simplify_eq.
    by apply same_authors_est.
  - destruct (est_Close p (es_id e) st) as [st1|] eqn:E; simplify_eq/=. apply same_authors_est'; [done|].
    by eapply est_Close_authors.
Qed.

Lemma watch_authors p ev st st' : watch_step p ev st = Some st' -> same_authors st st'.
Proof.
  intros H. unfold watch_step in H. destruct (sv_ests st !! p) as [e|]; [|done]. simpl in H.
  destruct (es_watch e) as [| |[l|]| |], ev; try done; simplify_eq; try (by apply same_authors_est).
  destruct (pm_heap (serverLinkHub st) !! l); [|done]. simpl in H. destruct (done_ready _ _); simplify_eq.
  by apply same_authors_est.
Qed.

Lemma sv_exec_authors ev st st' :
  sv_exec ev st = Some st' ->
  same_authors st st' \/ exists config now hp data err we, ev = XHttp config now (HRead hp) (HEvRead MessageText data err we) /\
    ~ (err <> None /\ err <> Some EOF) /\ dispatch_authors hp data st st'.
Proof.
  intros H. destruct ev as [config now pc hev|p e|p e|p b|p pc e|p b|me pc e]; simpl in H.
  - case_decide; [|done]. destruct (ServeHTTP_step config now pc hev st) as [[[st1 pc1] o]| |] eqn:E; simplify_eq.
    apply ServeHTTP_authors in E as [?|(hp & data & err & we & -> & -> & ? & ?)]; [by left|right].
    exists config, now, hp, data, err, we. by split_and!.
  - left. destruct (establish_step p e st) as [[st1 o]|] eqn:E; simplify_eq/=. by eapply establish_authors.
  - left. by eapply watch_authors.
  - left. destruct (pm_heap _ !! p) as [q|]; [|done]. simpl in H. destruct (chan_send _ b); simplify_eq.
    apply same_authors_parts; [|done]. intros w. simpl. by apply hub_writer_same.
  - left. destruct (pm_heap _ !! p) as [q|] eqn:Hq; [|done]. simpl in H.
    destruct (Queue.Send_step q pc e) as [[[q' pc'] o]|] eqn:E; simplify_eq/=.
    apply same_authors_parts; [|done]. intros w. simpl. apply hub_writer_same. intros q0 Hq0. simplify_eq.
    by apply Send_step_fields in E as (_ & -> & _).
  - left. destruct (pm_heap _ !! p) as [l|]; [|done]. simpl in H. destruct (chan_send _ b); simplify_eq.
    by apply same_authors_parts.
  - left. destruct (Link.Send_step _ _ _ _) as [[h pc']|]; simplify_eq/=. by apply same_authors_parts.
Qed.
End authors.
