(* ===== verification/System.v ===== *)
(** The client and the server, with the websockets between them
    (wss/wssocks_client.go, wss/websocket_client.go, wss/proxy_server.go,
    wss/wssocks_server.go): the whole processes, with any number of connections
    of this client and whatever other clients do to the server.

    Websocket [k] of the client is served by the server's hub [hub_of k]; what a
    side has given to a websocket is read by the other side in that order.
    Messages may be lost where the websocket reports an error.  The messages on
    the websockets are typed (Typing.v), so that neither dispatcher ever fails on
    them, and the proviso of ClientRun.v holds. *)
From S2P Require Import Prelude GoChan Pipe RoundRobin PtrMap Queue QueueHub Link Starts Sends Striping Base64 Json.
From S2P Require Import Messages Hub Server Handshake Client Finish Wire Direction Session ClientProc ClientTable ClientSafe.
From S2P Require Import ClientRun Typing ClientTyped ServerTyped.

Section system.
Context {K : Ksuid} `{!KsuidText K}.
Implicit Types (id m : KSUID) (k p g : nat) (v : json).

(** The number of websockets, and the server's hub of each. *)
Context (n : nat) (hub_of : nat -> nat).

Record system := mkSystem {
  sy_client : cproc;
  sy_server : server;
  sy_sends : gmap nat (Queue.send_pc webSocketWriter);  (* the [Send]s of the server's queues *)
  sy_up : wires;                                  (* to the server, by websocket *)
  sy_down : wires;                                (* from the server, by hub *)
}.

Definition set_sy_server (st : server) (S : system) : system :=
  mkSystem (sy_client S) st (sy_sends S) (sy_up S) (sy_down S).

Inductive sys_ev :=
  | SClient (ev : cp_ev)                          (* the client, but for reading messages *)
  | SClientRead (k : nat) (we : Link.write_env)   (* the client reads the oldest message *)
  | SServer (ev : sv_event)                       (* the server, but for reading messages of these websockets *)
  | SServerRead (config : ServerConfig) (now : Z) (k : nat) (we : Link.write_env)
  | SEst (p : nat) (ev : est_ev) (lost : bool)    (* a step of establish *)
  | SQueueSend (g : nat) (ev : Queue.send_ev)     (* queue.Send, with nothing to write *)
  | SQueueWrote (g : nat) (ws_err : option error) (lost : bool).

(** Hub [hp] serves one of the websockets. *)
Definition ours (hp : nat) : bool := existsb (fun k => Nat.eqb (hub_of k) hp) (seq 0 n).

Definition reads_message (ev : cp_ev) : bool :=
  match ev with PRead _ _ (inr _) => true | _ => false end.

(** A step of the server that is not one of the others here. *)
Definition elsewhere (ev : sv_event) : bool :=
  match ev with
  | XEst _ _ | XQueueSend _ _ _ => false
  | XHttp _ _ (HRead hp) (HEvRead MessageText _ err _) =>
      negb (ours hp) || bool_decide (err <> None /\ err <> Some EOF)
  | _ => true
  end.

Definition sy_queue_send (g : nat) (ev : Queue.send_ev) (S : system) :
    option (system * option (webSocketWriter * buffer)) :=
  let h := serverQueueHub (sy_server S) in
  p ← pm_go h !! g;
  q ← pm_heap h !! p;
  '(q', pc', out) ← Queue.Send_step q (pc_at (sy_sends S) g) ev;
  Some (mkSystem (sy_client S) (set_queues (pm_update p (fun _ => q') h) (sy_server S))
          (<[g := pc']> (sy_sends S)) (sy_up S) (sy_down S), out).

Definition sy_exec (ev : sys_ev) (S : system) : option system :=
  match ev with
  | SClient ev =>
      if reads_message ev then None
      else match cp_exec ev (sy_client S) with
           | Finished (c, out) => Some (mkSystem c (sy_server S) (sy_sends S) (give out (sy_up S)) (sy_down S))
           | _ => None
           end
  | SClientRead k we =>
      match wire (sy_down S) (hub_of k) with
      | v :: rest =>
          if Nat.ltb k n then
            match cp_exec (PRead k we (inr (Some v))) (sy_client S) with
            | Finished (c, _) =>
                Some (mkSystem c (sy_server S) (sy_sends S) (sy_up S) (<[hub_of k := rest]> (sy_down S)))
            | _ => None
            end
          else None
      | [] => None
      end
  | SServer ev =>
      if elsewhere ev then st ← sv_exec ev (sy_server S); Some (set_sy_server st S) else None
  | SServerRead config now k we =>
      match wire (sy_up S) k with
      | v :: rest =>
          if Nat.ltb k n then
            st ← sv_exec (XHttp config now (HRead (hub_of k)) (HEvRead MessageText (Some v) None we)) (sy_server S);
            Some (mkSystem (sy_client S) st (sy_sends S) (<[k := rest]> (sy_up S)) (sy_down S))
          else None
      | [] => None
      end
  | SEst p ev lost =>
      e ← sv_ests (sy_server S) !! p;
      '(st, out) ← establish_step p ev (sy_server S);
      Some (mkSystem (sy_client S) st (sy_sends S) (sy_up S) (put (es_hub e) (unless lost out) (sy_down S)))
  | SQueueSend g ev =>
      match sy_queue_send g ev S with Some (S', None) => Some S' | _ => None end
  | SQueueWrote g ws_err lost =>
      match pc_at (sy_sends S) g with
      | Queue.PWrite (Some x) _ b =>
          let '(out, e) := hand x ws_err b in
          match sy_queue_send g (Queue.EvWrote e) S with
          | Some (S', Some _) =>
              Some (mkSystem (sy_client S') (sy_server S') (sy_sends S') (sy_up S')
                      (put (w_WSC x) (unless lost out) (sy_down S')))
          | _ => None
          end
      | _ => None
      end
  end.

Definition sy_step (S S' : system) : Prop := exists ev, sy_exec ev S = Some S'.

(** The websockets have been opened, and nothing has been sent on them; the
    server may serve other clients already. *)
Record sy_start (S : system) : Prop := {
  ss_client : sy_client S = cproc_init n;
  ss_server : rtc sv_step server_init (sy_server S);
  ss_writers w : hub_writer (serverQueueHub (sy_server S)) w -> ours (w_WSC w) = false;
  ss_sends g pc w : sy_sends S !! g = Some pc -> pc_writer pc = Some w -> ours (w_WSC w) = false;
  ss_ests p e : sv_ests (sy_server S) !! p = Some e -> ours (es_hub e) = false;
  ss_up k : wire (sy_up S) k = [];
  ss_down k : wire (sy_down S) (hub_of k) = [];
}.

(** * The invariant *)

Implicit Types (S : system) (w : webSocketWriter).

(** A writer of the server for one of the websockets writes for a connection that
    the client has on it. *)
Definition good_for (c : cproc) w : Prop :=
  forall k, k < n -> w_WSC w = hub_of k -> exists m, announced c k m (w_Id w).

Definition est_for (c : cproc) (hp : nat) id : Prop :=
  forall k, k < n -> hp = hub_of k -> k = 0 /\ opened c id.

Record sys_typed S : Prop := {
  st_client : cp_inv (sy_client S);
  st_wsc : length (cl_wsc (pr_client (sy_client S))) = n;
  st_copies : copies_ok (sy_client S);
  st_server : sv_inv (sy_server S);
  st_up k : Forall (up_typed (sy_client S) k) (wire (sy_up S) k);
  st_down k : k < n -> Forall (down_typed (sy_client S) k) (wire (sy_down S) (hub_of k));
  st_writers w : hub_writer (serverQueueHub (sy_server S)) w -> good_for (sy_client S) w;
  st_sends g pc w : sy_sends S !! g = Some pc -> pc_writer pc = Some w -> good_for (sy_client S) w;
  st_ests p e : sv_ests (sy_server S) !! p = Some e -> est_for (sy_client S) (es_hub e) (es_id e);
}.

Lemma sy_queue_send_some g ev S S' o :
  sy_queue_send g ev S = Some (S', o) -> exists p q q' pc',
    pm_go (serverQueueHub (sy_server S)) !! g = Some p /\ pm_heap (serverQueueHub (sy_server S)) !! p = Some q /\
    Queue.Send_step q (pc_at (sy_sends S) g) ev = Some (q', pc', o) /\
    S' = mkSystem (sy_client S) (set_queues (pm_update p (fun _ => q') (serverQueueHub (sy_server S))) (sy_server S))
           (<[g := pc']> (sy_sends S)) (sy_up S) (sy_down S).
Proof.
  unfold sy_queue_send. intros H. destruct (pm_go _ !! g) as [p|] eqn:Hg; [|done]. simpl in H.
  destruct (pm_heap _ !! p) as [q|] eqn:Hq; [|done]. simpl in H.
  destruct (Queue.Send_step q _ ev) as [[[q' pc'] o']|] eqn:E; [|done]. simpl in H. injection H as <- <-. by exists p, q, q', pc'.
Qed.

Lemma ours_hub k : k < n -> ours (hub_of k) = true.
Proof. intros Hk. apply existsb_exists. exists k. rewrite Nat.eqb_refl, in_seq. split; [lia|done]. Qed.

Lemma sy_start_typed S : 0 < n -> sy_start S -> sys_typed S.
Proof.
  intros Hn [Hc Hs Hw Hp He Hu Hd]. split; rewrite ?Hc.
  - by apply cp_inv_init.
  - simpl. apply length_replicate.
  - intros t tr ca H. done.
  - by apply sv_reachable_inv.
  - intros k. rewrite Hu. constructor.
  - intros k _. rewrite Hd. constructor.
  - intros w H%Hw k Hk E. rewrite E, ours_hub in H by done. done.
  - intros g pc w H1 H2 k Hk E. pose proof (Hp g pc w H1 H2) as H. rewrite E, ours_hub in H by done. done.
  - intros p e H%He k Hk E. rewrite E, ours_hub in H by done. done.
Qed.

(** ** Steps of the client *)

Lemma good_for_on c c' w : proc_on c c' -> good_for c w -> good_for c' w.
Proof. intros Hon Hg k Hk E. destruct (Hg k Hk E) as [m Hm]. exists m. by eapply announced_on. Qed.

Lemma est_for_on c c' hp id : proc_on c c' -> est_for c hp id -> est_for c' hp id.
Proof. intros Hon Hg k Hk E. destruct (Hg k Hk E) as [-> Ho]. split; [done|by eapply opened_on]. Qed.

Lemma wire_give P k out t :
  Forall P (wire t k) -> Forall (fun '(k', v) => k' = k -> P v) out -> Forall P (wire (give out t) k).
Proof.
  revert t. induction out as [|[k' v] out IH]; intros t Ht Ho; [done|]. apply Forall_cons in Ho as [Hv Ho].
  apply IH; [|done]. rewrite wire_put. case_decide as E; [|done]. subst. apply Forall_app. split; [done|].
  constructor; [by apply Hv|constructor].
Qed.

Lemma typed_client S c up down :
  sys_typed S -> cp_inv c -> proc_on (sy_client S) c ->
  (forall k, Forall (up_typed c k) (wire up k)) ->
  (forall k, k < n -> Forall (down_typed (sy_client S) k) (wire down (hub_of k))) ->
  sys_typed (mkSystem c (sy_server S) (sy_sends S) up down).
Proof.
  intros [Hc Hn Hcp Hs Hu Hd Hw Hp He] Hinv Hon Hup Hdown. split; simpl; try done.
  - rewrite (on_wsc _ _ Hon). done.
  - by eapply copies_on.
  - intros k Hk. eapply Forall_impl; [by apply Hdown|]. intros v. by apply down_typed_on.
  - intros w H%Hw. by eapply good_for_on.
  - intros g pc w H1 H2. eapply good_for_on; [done|by eapply Hp].
  - intros p e H%He. by eapply est_for_on.
Qed.

Lemma reads_message_false ev : reads_message ev = false -> forall i we data, ev <> PRead i we (inr data).
Proof. intros H i we data ->. done. Qed.

Lemma reads_message_polite ev c : reads_message ev = false -> polite ev c.
Proof. by destruct ev as [| | | | |i we [|]| | | | | |]. Qed.

Lemma client_typed S ev S' : sys_typed S -> sy_exec (SClient ev) S = Some S' -> sys_typed S'.
Proof.
  intros HS H. simpl in H. destruct (reads_message ev) eqn:Hr; [done|].
  destruct (cp_exec ev (sy_client S)) as [[c out]| |] eqn:E; simplify_eq.
  pose proof (cp_exec_inv _ ev (st_client _ HS) (reads_message_polite _ _ Hr)) as Hinv. rewrite E in Hinv. simpl in Hinv.
  pose proof (exec_on _ _ _ _ (st_client _ HS) (reads_message_false _ Hr) E) as Hon.
  pose proof (exec_out _ _ _ _ (st_client _ HS) Hinv (st_copies _ HS) (reads_message_false _ Hr) E) as Hout.
  apply typed_client; [done|done|done| |apply (st_down _ HS)].
  intros k. apply wire_give.
  - eapply Forall_impl; [apply (st_up _ HS)|]. intros v. by apply up_typed_on.
  - eapply Forall_impl; [exact Hout|]. intros [k' v] Hv <-. done.
Qed.

(** A typed message respects the proviso of the client. *)
Lemma finish_of_encode x : finish_of (encode x) = match x with MFinish id => Some id | _ => None end.
Proof.
  unfold finish_of. destruct x as [|m id|ids m addr|id b|id]; cbn [encode].
  - by rewrite unmarshal_beat.
  - unfold hello_json. by rewrite unmarshal_hi_message.
  - unfold est_json. by rewrite unmarshal_est_message.
  - unfold chunk_json. by rewrite unmarshal_proxy_message.
  - unfold finish_json. rewrite unmarshal_finish_message. simpl. apply ksuid_parse_string.
Qed.

Lemma down_typed_polite c k we v : down_typed c k v -> polite (PRead k we (inr (Some v))) c.
Proof.
  intros (x & -> & Hx) id proxy Hf _. rewrite finish_of_encode in Hf.
  destruct Hx as [m id0 b Ha _|id0 _ Ho]; simplify_eq. done.
Qed.

Lemma read_on c k we v c' out :
  cp_inv c -> down_typed c k v -> cp_exec (PRead k we (inr (Some v))) c = Finished (c', out) -> proc_on c c'.
Proof.
  intros Hinv (x & -> & Hx) E. simpl in E. case_decide; [|done]. unfold Listen_step in E.
  destruct (cl_wsc _ !! k) as [w|]; [|done]. destruct (wc_cancelled w); [simplify_eq/=; by apply proc_on_client|].
  rewrite income_encode in E. destruct (consume we k x (pr_client c)) as [c1| |] eqn:Ec; simplify_eq/=.
  eapply consume_on; [done| |exact Ec]. intros id proxy -> _. by inversion Hx.
Qed.

Lemma client_read_typed S k we S' : Inj (=) (=) hub_of -> sys_typed S -> sy_exec (SClientRead k we) S = Some S' -> sys_typed S'.
Proof.
  intros Hinj HS H. cbn [sy_exec] in H. destruct (wire (sy_down S) (hub_of k)) as [|v rest] eqn:Hw; [done|].
  destruct (Nat.ltb_spec k n) as [Hk|]; [|done].
  pose proof (st_down _ HS k Hk) as Hd. rewrite Hw in Hd. apply Forall_cons in Hd as [Hv Hrest].
  destruct (cp_exec (PRead k we (inr (Some v))) (sy_client S)) as [[c out]| |] eqn:E; [|done..]. injection H as <-.
  pose proof (cp_exec_inv _ _ (st_client _ HS) (down_typed_polite _ _ we _ Hv)) as Hinv. rewrite E in Hinv.
  pose proof (read_on _ _ _ _ _ _ (st_client _ HS) Hv E) as Hon.
  apply typed_client; [done|done|done| |].
  - intros k'. eapply Forall_impl; [apply (st_up _ HS)|]. intros v'. by apply up_typed_on.
  - intros k' Hk'. rewrite wire_insert. case_decide as Eh; [apply Hinj in Eh; by subst|by apply (st_down _ HS)].
Qed.

(** ** Steps of the server *)

Lemma typed_server S st sends up down (P : webSocketWriter -> Prop) (Q : nat -> KSUID -> Prop) :
  sys_typed S -> sv_inv st -> authored P Q (sy_server S) st ->
  (forall w, P w -> good_for (sy_client S) w) -> (forall hp id, Q hp id -> est_for (sy_client S) hp id) ->
  (forall g pc w, sends !! g = Some pc -> pc_writer pc = Some w -> good_for (sy_client S) w) ->
  (forall k, Forall (up_typed (sy_client S) k) (wire up k)) ->
  (forall k, k < n -> Forall (down_typed (sy_client S) k) (wire down (hub_of k))) ->
  sys_typed (mkSystem (sy_client S) st sends up down).
Proof.
  intros [Hc Hn Hcp Hs Hu Hd Hw Hp He] Hinv [HW HE] HP HQ Hsends Hup Hdown. split; simpl; try done.
  - intros w [H|H]%HW; [by apply Hw|by apply HP].
  - intros p e [(e0 & H0 & -> & ->)|H]%HE; [by eapply He|by apply HQ].
Qed.

Lemma typed_server_same S st sends up down :
  sys_typed S -> sv_inv st -> same_authors (sy_server S) st ->
  (forall g pc w, sends !! g = Some pc -> pc_writer pc = Some w -> good_for (sy_client S) w) ->
  (forall k, Forall (up_typed (sy_client S) k) (wire up k)) ->
  (forall k, k < n -> Forall (down_typed (sy_client S) k) (wire down (hub_of k))) ->
  sys_typed (mkSystem (sy_client S) st sends up down).
Proof. intros HS Hinv Hsame Hsends Hup Hdown. by eapply typed_server. Qed.

Lemma server_typed S ev S' : sys_typed S -> sy_exec (SServer ev) S = Some S' -> sys_typed S'.
Proof.
  intros HS H. simpl in H. destruct (elsewhere ev) eqn:Hel; [|done].
  destruct (sv_exec ev (sy_server S)) as [st|] eqn:E; simplify_eq/=.
  pose proof (sv_exec_inv _ _ _ E (st_server _ HS)) as Hinv.
  pose proof HS as [_ _ _ _ Hu Hd _ Hp _]. apply sv_exec_authors in E as [Hsame|(cfg & now & hp & d & err & we & -> & Herr & Ha)].
  { by apply typed_server_same. }
  simpl in Hel. apply orb_true_iff in Hel as [Hno|Hb%bool_decide_eq_true]; [|done].
  apply negb_true_iff in Hno. eapply typed_server; [done|done|exact Ha| | |done|done|done].
  - intros w [<- _] k Hk Ek. rewrite Ek, ours_hub in Hno by done. done.
  - intros hp' id [-> _] k Hk Ek. rewrite Ek, ours_hub in Hno by done. done.
Qed.

(** What a typed message says. *)
Lemma up_type_says c k x ty id :
  up_type c k x -> says ty id (Some (encode x)) ->
  (ty = WsTpHi -> exists m, announced c k m id) /\ (ty = WsTpEst -> k = 0 /\ opened c id).
Proof.
  intros Hx (v & [= <-] & Ht). destruct Hx as [|m id0 Ha|t tr ca m -> Hc Hm Hr _|m id0 b Ha|id0 -> Ho]; cbn [encode] in Ht.
  - rewrite (is_type_msg _ _ _ _ ksuid_Nil unmarshal_beat) in Ht by done. apply bool_decide_eq_true in Ht as [_ <-]. done.
  - unfold hello_json in Ht. rewrite (is_type_msg _ _ _ _ id0 (unmarshal_hi_message _ _)) in Ht by done.
    apply bool_decide_eq_true in Ht as [<- <-]. split; [intros _; by exists m|done].
  - unfold est_json in Ht. rewrite (is_type_msg _ _ _ _ m (unmarshal_est_message _ _ _ _)) in Ht by done.
    apply bool_decide_eq_true in Ht as [<- <-]. split; [done|]. intros _. split; [done|]. by exists t, tr, ca.
  - unfold chunk_json in Ht. rewrite (is_type_msg _ _ _ _ id0 (unmarshal_proxy_message _ _ _)) in Ht by done.
    apply bool_decide_eq_true in Ht as [_ <-]. done.
  - unfold finish_json in Ht. rewrite (is_type_msg _ _ _ _ id0 (unmarshal_finish_message _)) in Ht by done.
    apply bool_decide_eq_true in Ht as [_ <-]. done.
Qed.

Lemma server_read_typed S config now k we S' :
  Inj (=) (=) hub_of -> sys_typed S -> sy_exec (SServerRead config now k we) S = Some S' -> sys_typed S'.
Proof.
  intros Hinj HS H. cbn [sy_exec] in H. destruct (wire (sy_up S) k) as [|v rest] eqn:Hw; [done|].
  destruct (Nat.ltb_spec k n) as [Hk|]; [|done].
  destruct (sv_exec _ (sy_server S)) as [st|] eqn:E; [|done]. cbn [mbind option_bind] in H. injection H as <-.
  pose proof (sv_exec_inv _ _ _ E (st_server _ HS)) as Hinv.
  pose proof (st_up _ HS k) as Hu. rewrite Hw in Hu. apply Forall_cons in Hu as [(x & -> & Hx) Hrest].
  assert (forall k', Forall (up_typed (sy_client S) k') (wire (<[k:=rest]> (sy_up S)) k')) as Hup.
  { intros k'. rewrite wire_insert. case_decide as Ek; [by subst|apply (st_up _ HS)]. }
  pose proof HS as [_ _ _ _ _ Hd _ Hp _]. apply sv_exec_authors in E as [Hsame|(cfg & nw & hp & d & err & we' & Eev & Herr & Ha)].
  { by apply typed_server_same. }
  simplify_eq. eapply typed_server; [done|done|exact Ha| | |done|done|done].
  - intros w [Ew Hs] k' Hk' Ek. rewrite Ew in Ek. apply Hinj in Ek as <-. by apply (up_type_says _ _ _ _ _ Hx Hs).
  - intros hp' id [-> Hs] k' Hk' Ek. apply Hinj in Ek as <-. by apply (up_type_says _ _ _ _ _ Hx Hs).
Qed.

Lemma put_typed S hp out :
  sys_typed S -> (forall k, k < n -> hp = hub_of k -> Forall (down_typed (sy_client S) k) out) ->
  forall k, k < n -> Forall (down_typed (sy_client S) k) (wire (put hp out (sy_down S)) (hub_of k)).
Proof.
  intros HS Ho k Hk. rewrite wire_put. case_decide as E; [|by apply (st_down _ HS)].
  apply Forall_app. split; [by apply (st_down _ HS)|by apply Ho].
Qed.

Lemma establish_out p ev st st' out e :
  sv_ests st !! p = Some e -> establish_step p ev st = Some (st', out) -> out = [] \/ out = [finish_json (es_id e)].
Proof.
  intros He H. unfold establish_step in H. rewrite He in H. simpl in H.
  destruct (es_pc e) as [| |conn| | | |[w|]| | | |err|err|], ev as [|[]|[err'|conn']|sig]; try done; simplify_eq; auto.
  - destruct (pm_heap (serverQueueHub st) !! w) as [q|]; [|done]. simpl in H. destruct (done_ready _ _); simplify_eq. auto.
  - destruct (est_Close p (es_id e) st); simplify_eq/=. auto.
Qed.

Lemma est_typed S p ev lost S' : sys_typed S -> sy_exec (SEst p ev lost) S = Some S' -> sys_typed S'.
Proof.
  intros HS H. simpl in H. destruct (sv_ests (sy_server S) !! p) as [e|] eqn:He; [|done]. simpl in H.
  destruct (establish_step p ev (sy_server S)) as [[st out]|] eqn:E; simplify_eq/=.
  pose proof (establish_inv _ _ _ _ _ (st_server _ HS) E) as Hinv. pose proof (establish_authors _ _ _ _ _ E) as Hsame.
  pose proof HS as [_ _ _ _ Hu Hd _ Hp _]. apply typed_server_same; [done|done|done|done|done|].
  apply put_typed; [done|]. intros k Hk Ek. destruct (st_ests _ HS p e He k Hk Ek) as [-> Ho].
  destruct lost; [constructor|]. destruct (establish_out _ _ _ _ _ _ He E) as [->| ->]; [constructor|].
  constructor; [|constructor]. exists (MFinish (es_id e)). split; [done|by apply down_finish].
Qed.

Lemma queue_send_typed S g ev S' o :
  sys_typed S -> sy_queue_send g ev S = Some (S', o) ->
  sys_typed S' /\ sy_client S' = sy_client S.
Proof.
  intros HS (p & q & q' & pc' & _ & Hq & E & ->)%sy_queue_send_some. split; [|done].
  assert (sv_exec (XQueueSend p (pc_at (sy_sends S) g) ev) (sy_server S) =
            Some (set_queues (pm_update p (fun _ => q') (serverQueueHub (sy_server S))) (sy_server S))) as Ex.
  { simpl. rewrite Hq. simpl. by rewrite E. }
  pose proof (sv_exec_inv _ _ _ Ex (st_server _ HS)) as Hinv.
  pose proof HS as [_ _ _ _ Hu Hd Hw Hp _]. destruct (sv_exec_authors _ _ _ Ex) as [Hsame|(? & ? & ? & ? & ? & ? & ? & _)]; [|done].
  apply typed_server_same; [done|done|done| |done|done].
  assert (forall w, pc_writer pc' = Some w -> good_for (sy_client S) w) as Hpc'.
  { destruct (Send_step_writer (good_for (sy_client S)) _ _ _ _ _ _ E) as [H _]; [| |exact H].
    - intros id w Hid. apply Hw. by exists p, q, id.
    - intros w Hpw. unfold pc_at in Hpw. destruct (sy_sends S !! g) as [pc|] eqn:Hg; [by eapply Hp|done]. }
  intros g' pc w. rewrite lookup_insert. case_decide; [intros [= <-]; apply Hpc'|apply Hp].
Qed.

Lemma queue_wrote_typed S g ws_err lost S' :
  sys_typed S -> sy_exec (SQueueWrote g ws_err lost) S = Some S' -> sys_typed S'.
Proof.
  intros HS H. simpl in H. destruct (pc_at (sy_sends S) g) as [| | | | |[x|] rest b| | | |] eqn:Hpc; try done.
  destruct (hand x ws_err b) as [out e] eqn:Eh.
  destruct (sy_queue_send g _ S) as [[S1 [o|]]|] eqn:E; simplify_eq.
  destruct (queue_send_typed _ _ _ _ _ HS E) as [HS1 Ec].
  assert (good_for (sy_client S) x) as Hx.
  { unfold pc_at in Hpc. destruct (sy_sends S !! g) as [pc|] eqn:Hg; [|done]. simpl in Hpc. subst pc.
    by eapply (st_sends _ HS). }
  pose proof HS1 as [_ _ _ _ Hu _ _ Hp _]. apply typed_server_same; [done|apply (st_server _ HS1)|apply same_authors_refl|done|done|].
  apply put_typed; [done|]. intros k Hk Ek. destruct lost; [constructor|]. destruct (Hx k Hk Ek) as [m Hm].
  eapply Forall_impl; [by eapply hand_encode|]. intros v [b' [-> Hb]]. exists (MChunk (w_Id x) b').
  split; [done|]. apply (down_chunk _ _ m); [by rewrite Ec|done].
Qed.

Lemma sy_step_typed S S' : Inj (=) (=) hub_of -> sys_typed S -> sy_step S S' -> sys_typed S'.
Proof.
  intros Hinj HS [ev H]. destruct ev as [ev|k we|ev|config now k we|p ev lost|g ev|g ws_err lost].
  - by eapply client_typed.
  - by eapply client_read_typed.
  - by eapply server_typed.
  - by eapply server_read_typed.
  - by eapply est_typed.
  - simpl in H. destruct (sy_queue_send g ev S) as [[S1 [o|]]|] eqn:E; simplify_eq. by eapply queue_send_typed.
  - by eapply queue_wrote_typed.
Qed.

Lemma sy_reachable_typed S0 S : 0 < n -> Inj (=) (=) hub_of -> sy_start S0 -> rtc sy_step S0 S -> sys_typed S.
Proof.
  intros Hn Hinj H0 Hr. assert (sys_typed S0) as HS by (by apply sy_start_typed). clear H0.
  induction Hr; [done|]. by eauto using sy_step_typed.
Qed.

(** The client of the system only does what ClientRun.v is about. *)
Lemma sy_step_client S S' :
  sys_typed S -> sy_step S S' -> sy_client S' = sy_client S \/ polite_step (sy_client S) (sy_client S').
Proof.
  intros HS [ev H]. destruct ev as [ev|k we|ev|config now k we|p ev lost|g ev|g ws_err lost].
  - right. simpl in H. destruct (reads_message ev) eqn:Hr; [done|].
    destruct (cp_exec ev (sy_client S)) as [[c out]| |] eqn:E; simplify_eq. exists ev, out.
    split; [by apply reads_message_polite|done].
  - right. cbn [sy_exec] in H. destruct (wire (sy_down S) (hub_of k)) as [|v rest] eqn:Hw; [done|].
    destruct (Nat.ltb_spec k n) as [Hk|]; [|done]. pose proof (st_down _ HS k Hk) as Hd. rewrite Hw in Hd.
    apply Forall_cons in Hd as [Hv _].
    destruct (cp_exec (PRead k we (inr (Some v))) (sy_client S)) as [[c out]| |] eqn:E; [|done..]. injection H as <-.
    exists (PRead k we (inr (Some v))), out. split; [by eapply down_typed_polite|done].
  - left. simpl in H. destruct (elsewhere ev); [|done]. by destruct (sv_exec ev (sy_server S)); simplify_eq/=.
  - left. cbn [sy_exec] in H. destruct (wire (sy_up S) k); [done|]. destruct (Nat.ltb k n); [|done].
    destruct (sv_exec _ (sy_server S)); [|done]. by injection H as <-.
  - left. simpl in H. destruct (sv_ests (sy_server S) !! p); [|done]. simpl in H.
    by destruct (establish_step p ev (sy_server S)) as [[st out]|]; simplify_eq/=.
  - left. simpl in H. destruct (sy_queue_send g ev S) as [[S1 [o|]]|] eqn:E; simplify_eq. by eapply queue_send_typed.
  - left. simpl in H. destruct (pc_at (sy_sends S) g) as [| | | | |[x|] rest b| | | |]; try done.
    destruct (hand x ws_err b) as [out e]. destruct (sy_queue_send g _ S) as [[S1 [o|]]|] eqn:E; simplify_eq.
    simpl. by eapply queue_send_typed.
Qed.

Lemma sy_client_polite S0 S :
  0 < n -> Inj (=) (=) hub_of -> sy_start S0 -> rtc sy_step S0 S -> rtc polite_step (cproc_init n) (sy_client S).
Proof.
  intros Hn Hinj H0 Hr. rewrite <- (ss_client _ H0). apply (sy_start_typed S0 Hn) in H0. clear Hn.
  revert H0. induction Hr as [S|S S1 S' Hs _ IH]; [constructor|]. intros HS.
  pose proof (IH (sy_step_typed _ _ Hinj HS Hs)) as Hrest.
  destruct (sy_step_client _ _ HS Hs) as [E|Hstep]; [by rewrite <- E|by eapply rtc_l].
Qed.

(** C3: type soundness of the protocol. In every state that the client and the
    server reach, with any number of connections and whatever other clients do,
    every message on the way on a websocket has a type of its direction: hello,
    establish and data messages name a connection that the client has on that
    very websocket, and the establish and finish messages are on the first
    websocket and name the master of a connection that has been established.
    When such a message is read the dispatcher decodes it, finds no error in it,
    does what the message means and does not panic; and so no goroutine of the
    client panics, and all that holds of a client with a polite server holds. *)
Theorem messages_well_typed S0 S k :
  0 < n -> Inj (=) (=) hub_of -> sy_start S0 -> rtc sy_step S0 S -> k < n ->
  (forall v, v ∈ wire (sy_up S) k -> exists x, v = encode x /\ up_type (sy_client S) k x /\
     forall now we, Link.we_ops we = [] ->
       dispatchMessage now we (hub_of k) MessageText (Some v) (sy_server S) =
         map_outcome (fun st => (st, None)) (serve now we (hub_of k) x (sy_server S)) /\
       serve now we (hub_of k) x (sy_server S) <> Panicked) /\
  (forall v, v ∈ wire (sy_down S) (hub_of k) -> exists x, v = encode x /\ down_type (sy_client S) k x /\
     forall we, Link.we_ops we = [] ->
       income we k (Some v) (pr_client (sy_client S)) = consume we k x (pr_client (sy_client S)) /\
       consume we k x (pr_client (sy_client S)) <> Panicked) /\
  (forall ev, reads_message ev = false -> cp_exec ev (sy_client S) <> Panicked) /\
  rtc polite_step (cproc_init n) (sy_client S).
Proof.
  intros Hn Hinj H0 Hr Hk. pose proof (sy_reachable_typed _ _ Hn Hinj H0 Hr) as HS. split_and!.
  - intros v Hv. pose proof (st_up _ HS k) as Hu. rewrite Forall_forall in Hu. destruct (Hu v Hv) as (x & -> & Hx).
    exists x. split_and!; [done|done|]. intros now we Hops. split; [apply dispatch_encode|]. intros Hp.
    pose proof (dispatch_inv now we (hub_of k) (Some (encode x)) _ Hops (st_server _ HS)) as H.
    pose proof (dispatch_encode now we (hub_of k) x (sy_server S)) as E. unfold dispatchMessage in E.
    rewrite E, Hp in H. done.
  - intros v Hv. pose proof (st_down _ HS k Hk) as Hd. rewrite Forall_forall in Hd.
    pose proof (Hd v Hv) as Hty. destruct Hty as (x & -> & Hx). exists x. split_and!; [done|done|]. intros we Hops.
    split; [apply income_encode|]. rewrite <- income_encode. intros Hp.
    pose proof (income_inv we (sy_client S) k _ Hops (st_client _ HS) (down_typed_polite _ _ we _ (Hd _ Hv))) as H.
    by rewrite Hp in H.
  - intros ev Hev Hp. pose proof (cp_exec_inv _ ev (st_client _ HS) (reads_message_polite _ _ Hev)) as H.
    by rewrite Hp in H.
  - by eapply sy_client_polite.
Qed.

Fixpoint sy_run (evs : list sys_ev) (S : system) : option system :=
  match evs with
  | [] => Some S
  | ev :: evs' => S1 ← sy_exec ev S; sy_run evs' S1
  end.

Lemma sy_run_reachable evs S S' : sy_run evs S = Some S' -> rtc sy_step S S'.
Proof.
  revert S. induction evs as [|ev evs IH]; intros S H; simpl in H; [by simplify_eq|].
  destruct (sy_exec ev S) as [S1|] eqn:E; [|done]. eapply rtc_l; [by exists ev|]. by apply IH.
Qed.
End system.
