(* ===== verification/LinkOwner.v ===== *)
(** One proxied connection in a hub of links that others use too
    (pipe/link.go).

    Every link has the ID of its master, so the links of one connection, with
    master [m] and IDs [ids], can be told from all others.  [owned] says that the
    hub's map and the orders in it respect this; what is done for other
    connections then leaves those links as they are ([apart]), whatever it is,
    and so does a step of another connection's [Send].  Follow.v uses it for the
    server, whose hub is shared by all its clients. *)
From S2P Require Import Prelude GoChan Pipe RoundRobin PtrMap Queue QueueHub Link Starts Sends.

Section owner.
Context {K : Ksuid} (ids : list KSUID) (m : KSUID).
Implicit Types (h : LinkHub) (l : link) (id mm : KSUID) (p g : nat) (pc : Link.send_pc).

Definition none_of (sort : list KSUID) : Prop := forall id, id ∈ ids -> id ∉ sort.

Record owned h : Prop := {
  ow_wf : pm_wf h;
  ow_go : pm_go_ok h;
  ow_map id p l : pm_map h !! id = Some p -> pm_heap h !! p = Some l -> id ∈ ids <-> l_master l = m;
  ow_sort p l : pm_heap h !! p = Some l -> l_master l <> m -> none_of (l_sorted l);
}.

(** The links of the connection are the same, and only others have been
    started. *)
Record apart h h' : Prop := {
  ap_map id : id ∈ ids -> pm_map h' !! id = pm_map h !! id;
  ap_heap p l : pm_heap h !! p = Some l -> l_master l = m -> pm_heap h' !! p = Some l;
  ap_old p l : pm_heap h' !! p = Some l -> l_master l = m -> pm_heap h !! p = Some l;
  ap_go : exists new, pm_go h' = pm_go h ++ new /\
    forall p l, p ∈ new -> pm_heap h' !! p = Some l -> l_master l <> m;
}.

(** What is done for others. *)
Definition others h h' : Prop := owned h -> owned h' /\ apart h h'.

Lemma apart_refl h : apart h h.
Proof. split; try done. exists []. rewrite app_nil_r. split; [done|]. by intros ? ? ?%not_elem_of_nil. Qed.

Lemma apart_trans h h1 h' : apart h h1 -> apart h1 h' -> apart h h'.
Proof.
  intros [M1 H1 O1 (n1 & G1 & N1)] [M2 H2 O2 (n2 & G2 & N2)]. split; auto.
  - intros id Hid. by rewrite M2, M1.
  - exists (n1 ++ n2). rewrite G2, G1, app_assoc. split; [done|]. intros p l [Hp|Hp]%elem_of_app Hl; [|by apply (N2 p)].
    intros Hm. apply (N1 p l Hp); [by apply O2|done].
Qed.

Lemma others_refl h : others h h.
Proof. intros Ho. split; [done|apply apart_refl]. Qed.

Lemma others_trans h h1 h' : others h h1 -> others h1 h' -> others h h'.
Proof.
  intros H1 H2 Ho. destruct (H1 Ho) as [Ho1 A1]. destruct (H2 Ho1) as [Ho2 A2]. split; [done|by eapply apart_trans].
Qed.

(** ** The accesses to a hub *)

Lemma owned_update p f h :
  (forall l, pm_heap h !! p = Some l -> l_master (f l) = l_master l /\
     chan_closed (l_buffer (f l)) = chan_closed (l_buffer l) /\
     (l_master l <> m -> none_of (l_sorted l) -> none_of (l_sorted (f l)))) ->
  owned h -> owned (pm_update p f h).
Proof.
  intros Hf [Hwf Hgo Hmap Hsort].
  assert (forall p' l', pm_heap (pm_update p f h) !! p' = Some l' ->
    exists l, pm_heap h !! p' = Some l /\ l_master l' = l_master l /\
      (l_master l <> m -> none_of (l_sorted l) -> none_of (l_sorted l'))) as Hx.
  { intros p' l'. simpl. destruct (decide (p = p')) as [<-|Hne].
    - rewrite list_lookup_alter_eq. destruct (pm_heap h !! p) as [l|] eqn:Hl; [|done]. intros [= <-].
      destruct (Hf l eq_refl) as (? & _ & ?). by exists l.
    - rewrite list_lookup_alter_ne by done. intros H. by exists l'. }
  split.
  - apply pm_wf_update; [|done]. intros l Hl. simpl. by destruct (Hf l Hl) as (_ & -> & _).
  - by apply pm_go_ok_update.
  - intros id p' l' Hp (l & Hl & -> & _)%Hx. by eapply Hmap.
  - intros p' l' (l & Hl & E & Hs)%Hx. rewrite E. eauto.
Qed.

Lemma apart_update p f h :
  (forall l, pm_heap h !! p = Some l -> l_master l <> m /\ l_master (f l) = l_master l) -> apart h (pm_update p f h).
Proof.
  intros Hf. split; simpl; [done|..]; [intros p' l Hl Hm|intros p' l Hl Hm|by exists []; rewrite app_nil_r; split; [|intros ? ? ?%not_elem_of_nil]].
  - rewrite list_lookup_alter_ne; [done|]. intros ->. by destruct (Hf l Hl).
  - destruct (decide (p = p')) as [<-|Hne]; [|by rewrite list_lookup_alter_ne in Hl].
    rewrite list_lookup_alter_eq in Hl. destruct (pm_heap h !! p) as [l0|] eqn:E; [|done]. simplify_eq/=.
    destruct (Hf l0 eq_refl) as [? ?]. congruence.
Qed.

Lemma others_update p f h :
  (forall l, pm_heap h !! p = Some l -> l_master l <> m /\ l_master (f l) = l_master l /\
     chan_closed (l_buffer (f l)) = chan_closed (l_buffer l) /\
     (none_of (l_sorted l) -> none_of (l_sorted (f l)))) -> others h (pm_update p f h).
Proof.
  intros Hf Ho. split; [apply owned_update; [|done]|apply apart_update]; intros l Hl; destruct (Hf l Hl) as (? & ? & ? & ?); auto.
Qed.

Lemma owned_new id mm now h : id ∈ ids <-> mm = m -> owned h -> owned (pm_new id (NewLink now mm) h).
Proof.
  intros Hid [Hwf Hgo Hmap Hsort]. split; simpl; [by apply pm_wf_new|by apply pm_go_ok_new|..].
  - intros id' p l. rewrite lookup_insert. case_decide as E.
    + intros [= <-]. rewrite list_lookup_middle by done. intros [= <-]. simpl. by rewrite <- E.
    + intros Hp Hl. destruct (proj1 Hwf _ _ Hp) as (l' & Hl' & _).
      rewrite (lookup_app_l_Some _ _ _ _ Hl') in Hl. simplify_eq. by eapply Hmap.
  - intros p l [Hl|[_ Hl]]%lookup_app_Some; [by apply (Hsort p)|].
    apply list_lookup_singleton_Some in Hl as [_ <-]. intros _ i _. apply not_elem_of_nil.
Qed.

Lemma others_new id mm now h : id ∉ ids -> mm <> m -> others h (pm_new id (NewLink now mm) h).
Proof.
  intros Hid Hmm Ho. split; [by apply owned_new|]. split; simpl.
  - intros id' Hid'. rewrite lookup_insert_ne; [done|]. by intros ->.
  - intros p l Hl _. by apply lookup_app_l_Some.
  - intros p l [Hl|[_ Hl]]%lookup_app_Some; [done|]. apply list_lookup_singleton_Some in Hl as [_ <-]. done.
  - exists []. rewrite app_nil_r. split; [done|]. by intros ? ? ?%not_elem_of_nil.
Qed.

Lemma owned_start p h : is_Some (pm_heap h !! p) -> owned h -> owned (pm_start p h).
Proof. intros Hp [Hwf Hgo Hmap Hsort]. split; [done|by apply pm_go_ok_start|done|done]. Qed.

Lemma others_start p l h : pm_heap h !! p = Some l -> l_master l <> m -> others h (pm_start p h).
Proof.
  intros Hl Hm Ho. split; [by apply owned_start; [eexists|]|]. split; simpl; try done.
  exists [p]. split; [done|]. intros p' l' ->%list_elem_of_singleton Hl'. congruence.
Qed.

(** A link that the map gives for an ID of another connection is not ours. *)
Lemma owned_other h id p l : owned h -> id ∉ ids -> pm_map h !! id = Some p -> pm_heap h !! p = Some l -> l_master l <> m.
Proof. intros Ho Hid Hp Hl Hm. by apply Hid, (ow_map _ Ho id p l). Qed.

Lemma owned_ours h id p : owned h -> id ∈ ids -> pm_map h !! id = Some p ->
  exists l, pm_heap h !! p = Some l /\ l_master l = m /\ chan_closed (l_buffer l) = false.
Proof.
  intros Ho Hid Hp. destruct (proj1 (ow_wf _ Ho) _ _ Hp) as (l & Hl & Hop). exists l.
  split_and!; [done| |done]. by apply (ow_map _ Ho id p l).
Qed.

Lemma others_at id p f h :
  id ∉ ids -> pm_map h !! id = Some p ->
  (forall l, l_master (f l) = l_master l /\ chan_closed (l_buffer (f l)) = chan_closed (l_buffer l) /\
     (none_of (l_sorted l) -> none_of (l_sorted (f l)))) -> others h (pm_update p f h).
Proof.
  intros Hid Hp Hf Ho. apply others_update; [|done]. intros l Hl. destruct (Hf l) as (? & ? & ?).
  split_and!; try done. by eapply owned_other.
Qed.

(** ** The methods of the hub *)

Lemma owned_ensure now id mm h : id ∈ ids <-> mm = m -> owned h -> owned (Link.ensure now id mm h).
Proof. intros Hid Ho. unfold Link.ensure. case_match; [done|by apply owned_new]. Qed.

Lemma others_ensure now id mm h : id ∉ ids -> mm <> m -> others h (Link.ensure now id mm h).
Proof. intros Hid Hmm. unfold Link.ensure. case_match; [apply others_refl|by apply others_new]. Qed.

Lemma owned_trySend mm conn h : owned h -> owned (fst (trySend mm conn h)).
Proof.
  intros Ho. unfold trySend. destruct (pm_map h !! mm) as [p|] eqn:Hp; [|done].
  set (h1 := match conn with Some c => pm_update p (SetConn c) h | None => h end).
  assert (owned h1) as Ho1.
  { unfold h1. destruct conn; [|done]. apply owned_update; [|done]. intros l _. by split_and!. }
  destruct (pm_heap h1 !! p) as [l|] eqn:Hl; [|done]. case_match; [|done]. by apply owned_start; [eexists|].
Qed.

Lemma others_trySend mm conn h : mm ∉ ids -> others h (fst (trySend mm conn h)).
Proof.
  intros Hid Ho. unfold trySend. destruct (pm_map h !! mm) as [p|] eqn:Hp; [|by apply others_refl].
  set (h1 := match conn with Some c => pm_update p (SetConn c) h | None => h end).
  assert (others h h1) as H1.
  { unfold h1. destruct conn; [|apply others_refl]. by apply (others_at mm). }
  assert (pm_map h1 = pm_map h) as Em by (unfold h1; by destruct conn).
  destruct (pm_heap h1 !! p) as [l|] eqn:Hl; [|by apply H1]. case_match; [|by apply H1].
  eapply others_trans; [exact H1| |done]. intros Ho1. eapply others_start; [done| |done].
  eapply owned_other; [exact Ho1|exact Hid|by rewrite Em|done].
Qed.

Lemma owned_Add now id mm h : mm ∈ ids <-> mm = m -> id ∈ ids <-> mm = m -> owned h -> owned (Link.Add now id mm h).
Proof.
  intros Hmm Hid Ho. unfold Link.Add. pose proof (owned_ensure now mm mm h Hmm Ho) as H1.
  destruct (pm_map _ !! mm) as [p|]; [|done]. apply owned_trySend, owned_update; [|by apply owned_ensure].
  intros l _. by split_and!.
Qed.

Lemma others_Add now id mm h : mm <> m -> mm ∉ ids -> id ∉ ids -> others h (Link.Add now id mm h).
Proof.
  intros Hne Hmm Hid. unfold Link.Add. eapply others_trans; [by apply (others_ensure now mm)|].
  destruct (pm_map _ !! mm) as [p|] eqn:Hp; [|apply others_refl].
  eapply others_trans; [by apply (others_ensure now id)|]. eapply others_trans; [|by apply others_trySend].
  apply (others_at mm); [done| |done]. unfold Link.ensure in *. destruct (pm_map h !! mm) as [p'|] eqn:Hm'.
  - destruct (pm_map h !! id) eqn:Hi; [done|]. simpl. rewrite lookup_insert_ne; [done|]. congruence.
  - simpl in Hp. rewrite lookup_insert_eq in Hp. case_match eqn:Hi; simpl in *; [by rewrite lookup_insert_eq|].
    rewrite lookup_insert_ne; [by rewrite lookup_insert_eq|]. intros ->. by rewrite lookup_insert_eq in Hi.
Qed.

Lemma owned_SetSort now mm sort h : mm ∈ ids <-> mm = m -> (mm <> m -> none_of sort) -> owned h -> owned (hub_SetSort now mm sort h).
Proof.
  intros Hmm Hs. unfold hub_SetSort.
  assert (forall p h, pm_map h !! mm = Some p -> owned h -> owned (pm_update p (SetSort sort) h)) as Hup.
  { intros p h0 Hp Ho. apply owned_update; [|done]. intros l Hl. split_and!; [done..|]. intros Hne _. simpl.
    apply Hs. intros ->. apply Hne. apply (ow_map _ Ho m p l Hp Hl). by apply Hmm. }
  destruct (pm_map h !! mm) as [p|] eqn:Hp; [by apply Hup|]. intros Ho.
  pose proof (owned_new mm mm now h Hmm Ho) as H1. case_match; [|done]. by apply Hup.
Qed.

Lemma others_SetSort now mm sort h : mm <> m -> mm ∉ ids -> none_of sort -> others h (hub_SetSort now mm sort h).
Proof.
  intros Hne Hmm Hs. unfold hub_SetSort. destruct (pm_map h !! mm) as [p|] eqn:Hp; [by apply (others_at mm)|].
  pose proof (others_new mm mm now h Hmm Hne) as H1. case_match; [|done].
  eapply others_trans; [exact H1|]. by apply (others_at mm).
Qed.

(** Removing. *)
Lemma owned_close_delete id h h' : pm_close_delete id h = Some h' -> owned h -> owned h'.
Proof.
  intros H Ho. pose proof Ho as [Hwf Hgo Hmap Hsort].
  destruct (pm_close_delete_ok id h Hwf) as (h1 & E & Hwf' & _). assert (h1 = h') as -> by congruence.
  assert (forall l l', obj_close l = Some l' -> l_master l' = l_master l /\ l_sorted l' = l_sorted l) as Hcl.
  { intros l l' Hc. unfold obj_close, link_object, Link.close in Hc. case_decide; [by simplify_eq|]. simpl in Hc.
    by destruct (chan_close _); simplify_eq. }
  destruct (pm_close_delete_inv (fun l l' => l_master l' = l_master l /\ l_sorted l' = l_sorted l) id h h' ltac:(done) Hcl H) as [Em HR].
  split; [done|..].
  - unfold pm_go_ok. destruct HR as [-> HF]. by rewrite <- (Forall2_length _ _ _ HF).
  - intros id' p l' Hp (l & Hl & -> & _)%(heap_rel_r _ _ _ _ _ HR). rewrite Em in Hp.
    apply lookup_delete_Some in Hp as [_ Hp]. by eapply Hmap.
  - intros p l' (l & Hl & -> & ->)%(heap_rel_r _ _ _ _ _ HR). by apply (Hsort p).
Qed.

Lemma others_close_delete id h h' : id ∉ ids -> pm_close_delete id h = Some h' -> others h h'.
Proof.
  intros Hid H Ho. split; [by eapply owned_close_delete|]. unfold pm_close_delete, pm_close in H.
  destruct (pm_map h !! id) as [p|] eqn:Hp; [|simplify_eq; apply apart_refl].
  destruct (proj1 (ow_wf _ Ho) _ _ Hp) as (l & Hl & _). rewrite Hl in H.
  destruct (obj_close l) as [l'|] eqn:Hc; [|done]. simplify_eq. pose proof (owned_other h id p l Ho Hid Hp Hl) as Hne.
  assert (l_master l' = l_master l) as El.
  { unfold obj_close, link_object, Link.close in Hc. case_decide; [by simplify_eq|]. simpl in Hc.
    by destruct (chan_close _); simplify_eq. }
  assert (p < length (pm_heap h)) as Hlt by (by eapply lookup_lt_Some).
  split; simpl.
  - intros i Hi. rewrite lookup_delete_ne; [done|]. by intros ->.
  - intros p' l0 Hl0 Hm0. rewrite list_lookup_insert_ne; [done|]. intros ->. congruence.
  - intros p' l0 Hl0 Hm0. destruct (decide (p = p')) as [<-|Hne']; [|by rewrite list_lookup_insert_ne in Hl0].
    rewrite list_lookup_insert_eq in Hl0 by done. congruence.
  - exists []. rewrite app_nil_r. split; [done|]. by intros ? ? ?%not_elem_of_nil.
Qed.

Lemma owned_remove_others mm sort h h' : remove_others mm sort h = Some h' -> owned h -> owned h'.
Proof.
  revert h. induction sort as [|id sort IH]; intros h H Ho; simpl in H; [by simplify_eq|].
  case_decide; [by eapply IH|]. destruct (pm_close_delete id h) as [h1|] eqn:E; [|done].
  eapply IH; [done|]. by eapply owned_close_delete.
Qed.

Lemma others_remove_others mm sort h h' : none_of sort -> remove_others mm sort h = Some h' -> others h h'.
Proof.
  revert h. induction sort as [|id sort IH]; intros h Hs H; simpl in H; [simplify_eq; apply others_refl|].
  assert (none_of sort) as Hs' by (intros i Hi; specialize (Hs i Hi); set_solver).
  case_decide; [by apply IH|]. destruct (pm_close_delete id h) as [h1|] eqn:E; [|done].
  eapply others_trans; [eapply others_close_delete; [|exact E]|by apply IH]. intros Hi. apply (Hs id Hi). set_solver.
Qed.

Lemma owned_RemoveAll mm h h' : RemoveAll mm h = Some h' -> owned h -> owned h'.
Proof.
  unfold RemoveAll. intros H Ho. destruct (pm_deref h mm) as [q|]; [|by simplify_eq].
  destruct (remove_others _ _ _) as [h1|] eqn:E; [|done]. eapply owned_close_delete; [done|]. by eapply owned_remove_others.
Qed.

Lemma others_RemoveAll mm h h' : mm ∉ ids -> RemoveAll mm h = Some h' -> others h h'.
Proof.
  unfold RemoveAll, pm_deref. intros Hid H Ho. destruct (pm_map h !! mm) as [p|] eqn:Hp; [|simplify_eq; by apply others_refl].
  destruct (pm_heap h !! p) as [q|] eqn:Hq; [|simplify_eq; by apply others_refl].
  destruct (remove_others _ _ _) as [h1|] eqn:E; [|done].
  pose proof (ow_sort _ Ho p q Hq (owned_other h mm p q Ho Hid Hp Hq)) as Hs.
  apply (others_trans h h1); [by eapply others_remove_others|by eapply others_close_delete|done].
Qed.

(** ** The goroutines that run [Send] *)

(** The links stay links of their masters, and goroutines are only added. *)
Definition kept h h' : Prop :=
  (forall p l, pm_heap h !! p = Some l -> exists l', pm_heap h' !! p = Some l' /\ l_master l' = l_master l) /\
  exists new, pm_go h' = pm_go h ++ new.

Lemma kept_refl h : kept h h.
Proof. split; [eauto|]. exists []. by rewrite app_nil_r. Qed.

Lemma kept_trans h h1 h' : kept h h1 -> kept h1 h' -> kept h h'.
Proof.
  intros [M1 [n1 G1]] [M2 [n2 G2]]. split; [|exists (n1 ++ n2); by rewrite G2, G1, app_assoc].
  intros p l (l1 & Hl1 & E1)%M1. destruct (M2 p l1 Hl1) as (l2 & Hl2 & E2). exists l2. split; [done|congruence].
Qed.

Lemma kept_rel h h' : heap_rel (fun l l' => l_master l' = l_master l) h h' -> kept h h'.
Proof.
  intros HR. split; [|exists []; rewrite app_nil_r; apply HR]. intros p l Hl. by apply (heap_rel_l _ _ _ _ _ HR).
Qed.

Lemma kept_update p f h : (forall l, pm_heap h !! p = Some l -> l_master (f l) = l_master l) -> kept h (pm_update p f h).
Proof. intros Hf. by apply kept_rel, heap_rel_update. Qed.

Lemma kept_new id l h : kept h (pm_new id l h).
Proof.
  split; [|exists []; by rewrite app_nil_r]. intros p l' Hl. exists l'. split; [|done]. by apply lookup_app_l_Some.
Qed.

Lemma kept_start p h : kept h (pm_start p h).
Proof. split; [eauto|by exists [p]]. Qed.

Lemma kept_close_delete id h h' : pm_close_delete id h = Some h' -> kept h h'.
Proof.
  intros H. apply kept_rel. eapply (pm_close_delete_inv _ id); [done| |exact H]. intros l l' Hc.
  unfold obj_close, link_object, Link.close in Hc. case_decide; [by simplify_eq|]. simpl in Hc.
  by destruct (chan_close _); simplify_eq.
Qed.

Lemma kept_trySend mm conn h : kept h (fst (trySend mm conn h)).
Proof.
  unfold trySend. destruct (pm_map h !! mm) as [p|]; [|apply kept_refl].
  set (h1 := match conn with Some c => pm_update p (SetConn c) h | None => h end).
  assert (kept h h1) as H1 by (unfold h1; destruct conn; [by apply kept_update|apply kept_refl]).
  destruct (pm_heap h1 !! p); [|done]. case_match; [|done]. eapply kept_trans; [exact H1|apply kept_start].
Qed.

Lemma kept_ensure now id mm h : kept h (Link.ensure now id mm h).
Proof. unfold Link.ensure. case_match; [apply kept_refl|apply kept_new]. Qed.

Lemma kept_Add now id mm h : kept h (Link.Add now id mm h).
Proof.
  unfold Link.Add. pose proof (kept_ensure now mm mm h) as H1. destruct (pm_map _ !! mm); [|done].
  eapply kept_trans; [exact H1|]. eapply kept_trans; [apply kept_ensure|].
  eapply kept_trans; [|apply kept_trySend]. by apply kept_update.
Qed.

Lemma kept_SetSort now mm sort h : kept h (hub_SetSort now mm sort h).
Proof.
  unfold hub_SetSort. destruct (pm_map h !! mm); [by apply kept_update|].
  case_match; [|apply kept_new]. eapply kept_trans; [apply kept_new|by apply kept_update].
Qed.

Lemma kept_RemoveAll mm h h' : RemoveAll mm h = Some h' -> kept h h'.
Proof.
  assert (forall sort h h', remove_others mm sort h = Some h' -> kept h h') as Ho.
  { induction sort as [|id sort IH]; intros h0 h1 H; simpl in H; [simplify_eq; apply kept_refl|].
    case_decide; [by apply IH|]. destruct (pm_close_delete id h0) as [h2|] eqn:E; [|done].
    eapply kept_trans; [by eapply kept_close_delete|by apply IH]. }
  unfold RemoveAll. intros H. destruct (pm_deref h mm) as [q|]; [|simplify_eq; apply kept_refl].
  destruct (remove_others _ _ _) as [h1|] eqn:E; [|done].
  eapply kept_trans; [by eapply Ho|by eapply kept_close_delete].
Qed.

Lemma kept_Send me h pc ev h' pc' : Send_step me h pc ev = Some (h', pc') -> kept h h'.
Proof.
  unfold Send_step. intros H. destruct (pm_heap h !! me) as [q|] eqn:Hq; [|done].
  destruct pc as [| | |[|id rest]|s rest|rest b|r|r|r|r], ev; simpl in *; try done;
    repeat case_match; simplify_eq; first [apply kept_refl|apply kept_update; intros; by simplify_eq].
Qed.

(** A link of others changes, but for its master, its order and whether it is
    open. *)
Lemma others_put p l f h :
  pm_heap h !! p = Some l -> l_master l <> m -> l_master (f l) = l_master l -> l_sorted (f l) = l_sorted l ->
  chan_closed (l_buffer (f l)) = chan_closed (l_buffer l) -> others h (pm_update p f h) /\ kept h (pm_update p f h).
Proof.
  intros Hl Hne Em Es Eb. split.
  - apply others_update. intros l' Hl'. simplify_eq. by rewrite Es.
  - apply kept_update. intros l' Hl'. by simplify_eq.
Qed.

(** A write to a link that is looked up by an ID of another connection. *)
Lemma others_write id p l l' we b r h :
  owned h -> id ∉ ids -> Link.Get id h = Some p -> pm_heap h !! p = Some l -> Link.we_ops we = [] ->
  Link.writeBuf we l b = Some (l', r) -> others h (pm_update p (fun _ => l') h) /\ kept h (pm_update p (fun _ => l') h).
Proof.
  intros Ho Hid Hp Hl Hops Hw. pose proof (owned_other h id p l Ho Hid Hp Hl) as Hne. unfold Link.writeBuf in Hw.
  rewrite Hops in Hw. simpl in Hw. apply (others_put p l (fun _ => l')); try done; case_decide; simplify_eq; try done;
    repeat case_match; simplify_eq; try done.
  simpl. match goal with E : chan_send _ _ = SendOk _ |- _ => by apply chan_send_inv in E as (-> & -> & _) end.
Qed.

(** What a [Send] at [pc] will look up, and the link that it reads from. *)
Definition pc_for (P : KSUID -> Prop) (Q : link -> Prop) h pc : Prop :=
  match pc with
  | PRange rest | PWrite rest _ => Forall P rest
  | PRead s rest => Forall P rest /\ exists l, pm_heap h !! s = Some l /\ Q l
  | _ => True
  end.

Definition pc_ours : LinkHub -> Link.send_pc -> Prop := pc_for (fun id => id ∈ ids) (fun l => l_master l = m).
Definition pc_others : LinkHub -> Link.send_pc -> Prop := pc_for (fun id => id ∉ ids) (fun l => l_master l <> m).

Lemma pc_for_kept P (Q : KSUID -> Prop) h h' pc :
  kept h h' -> pc_for P (fun l => Q (l_master l)) h pc -> pc_for P (fun l => Q (l_master l)) h' pc.
Proof.
  intros [Hk _]. destruct pc as [| | | |s rest| | | | |]; simpl; try done. intros [HP (l & Hl & HQ)].
  split; [done|]. destruct (Hk s l Hl) as (l' & Hl' & E). exists l'. by rewrite E.
Qed.

(** A step of a [Send] on its own link. *)
Lemma pc_for_step P Q me l h pc ev h' pc' :
  Send_step me h pc ev = Some (h', pc') -> pm_heap h !! me = Some l -> Forall P (l_sorted l) ->
  (forall id p, P id -> pm_map h !! id = Some p -> exists l, pm_heap h !! p = Some l /\ Q (l_master l)) ->
  pc_for P (fun l => Q (l_master l)) h pc -> pc_for P (fun l => Q (l_master l)) h' pc'.
Proof.
  intros H Hl Hs Hmap Hpc. pose proof (kept_Send _ _ _ _ _ _ H) as Hk. unfold Send_step in H. rewrite Hl in H.
  destruct pc as [| | |[|id rest]|s rest|rest b|r|r|r|r], ev; simpl in *; try done;
    repeat case_match; simplify_eq; simpl; try done; try apply Hpc.
  apply Forall_cons in Hpc as [Hid Hr]. split; [done|]. by eapply Hmap.
Qed.

Lemma owned_Send me h pc ev h' pc' : Send_step me h pc ev = Some (h', pc') -> owned h -> owned h'.
Proof.
  intros H Ho. pose proof (Send_step_wf _ _ _ _ _ _ H (ow_wf _ Ho)) as Hwf. unfold Send_step in H.
  destruct (pm_heap h !! me) as [q|] eqn:Hq; [|done].
  destruct pc as [| | |[|id rest]|s rest|rest b|r|r|r|r], ev; simpl in *; try done;
    repeat case_match; simplify_eq; try done; apply owned_update; try done; intros ? ?; simplify_eq; split_and!; try done.
  simpl. match goal with E : chan_recv _ = RecvOk _ _ |- _ => by apply chan_recv_ok_inv in E as (_ & -> & _) end.
Qed.

Lemma others_Send me l h pc ev h' pc' :
  Send_step me h pc ev = Some (h', pc') -> pm_heap h !! me = Some l -> l_master l <> m -> pc_others h pc -> others h h'.
Proof.
  intros H Hl Hne Hpc Ho. split; [by eapply owned_Send|]. unfold Send_step in H. rewrite Hl in H.
  destruct pc as [| | |[|id rest]|s rest|rest b|r|r|r|r], ev; simpl in *; try done;
    repeat case_match; simplify_eq; try apply apart_refl; apply apart_update; intros l' Hl'; try by simplify_eq.
  all: destruct Hpc as [_ (? & ? & ?)]; by simplify_eq.
Qed.

(** Each started [Send] is on its own side. *)
Record pcs_ok h (pcs : gmap nat Link.send_pc) : Prop := {
  po_ours g p l : pm_go h !! g = Some p -> pm_heap h !! p = Some l -> l_master l = m -> pc_ours h (pc_at pcs g);
  po_others g p l : pm_go h !! g = Some p -> pm_heap h !! p = Some l -> l_master l <> m -> pc_others h (pc_at pcs g);
  po_new g : is_Some (pcs !! g) -> g < length (pm_go h);
}.

Lemma pcs_ok_kept h h' pcs : pm_go_ok h -> kept h h' -> pcs_ok h pcs -> pcs_ok h' pcs.
Proof.
  intros Hok Hk [H1 H2 H3]. pose proof Hk as [Hm [new Hg]].
  assert (forall g p, pm_go h' !! g = Some p -> pcs !! g = None \/
    pm_go h !! g = Some p /\ exists l, pm_heap h !! p = Some l) as Hold.
  { intros g p. rewrite Hg. intros [Hp|[Hlen _]]%lookup_app_Some.
    - right. split; [done|]. unfold pm_go_ok in Hok. rewrite Forall_lookup in Hok.
      apply lookup_lt_is_Some. by eapply Hok.
    - left. destruct (pcs !! g) eqn:E; [|done]. apply mk_is_Some, H3 in E. lia. }
  split.
  - intros g p l' Hp Hl' Hne. destruct (Hold g p Hp) as [Hn|[Hp0 [l Hl]]]; [unfold pc_at; by rewrite Hn|].
    destruct (Hm p l Hl) as (l1 & Hl1 & E). simplify_eq. eapply (pc_for_kept _ (fun i => i = m)); [done|].
    apply (H1 g p l); congruence.
  - intros g p l' Hp Hl' Hne. destruct (Hold g p Hp) as [Hn|[Hp0 [l Hl]]]; [unfold pc_at; by rewrite Hn|].
    destruct (Hm p l Hl) as (l1 & Hl1 & E). simplify_eq. eapply (pc_for_kept _ (fun i => i <> m)); [done|].
    apply (H2 g p l); congruence.
  - intros g Hg'%H3. rewrite Hg, length_app. lia.
Qed.

(** A step of the goroutine [g]. *)
Lemma pcs_ok_step g me l h h' pcs ev pc' :
  owned h -> pm_go h !! g = Some me -> pm_heap h !! me = Some l ->
  (l_master l = m -> Forall (fun id => id ∈ ids) (l_sorted l)) ->
  Send_step me h (pc_at pcs g) ev = Some (h', pc') -> pcs_ok h pcs -> pcs_ok h' (<[g := pc']> pcs).
Proof.
  intros Ho Hg Hl Hs H Hpcs. pose proof (kept_Send _ _ _ _ _ _ H) as Hk.
  pose proof (pcs_ok_kept _ _ _ (ow_go _ Ho) Hk Hpcs) as [K1 K2 K3]. destruct Hk as [Hm [new Hgo]].
  assert (pm_go h' !! g = Some me) as Hg' by (rewrite Hgo; by apply lookup_app_l_Some).
  split.
  - intros g' p l' Hp Hl' Hown. unfold pc_at. destruct (decide (g = g')) as [<-|Hne].
    2: { rewrite lookup_insert_ne by done. by eapply K1. }
    rewrite lookup_insert_eq. simplify_eq. simpl. destruct (Hm me l Hl) as (l1 & Hl1 & E). simplify_eq.
    eapply (pc_for_step _ (fun i => i = m)); [exact H|done|apply Hs; congruence| |eapply (po_ours _ _ Hpcs); [done..|congruence]].
    intros id p Hid Hp0. destruct (owned_ours h id p Ho Hid Hp0) as (l0 & ? & ? & _). by exists l0.
  - intros g' p l' Hp Hl' Hown. unfold pc_at. destruct (decide (g = g')) as [<-|Hne].
    2: { rewrite lookup_insert_ne by done. by eapply K2. }
    rewrite lookup_insert_eq. simplify_eq. simpl. destruct (Hm me l Hl) as (l1 & Hl1 & E). simplify_eq.
    assert (l_master l <> m) as Hlm by congruence.
    eapply (pc_for_step _ (fun i => i <> m)); [exact H|done| | |by eapply (po_others _ _ Hpcs)].
    + apply Forall_forall. intros id Hid Hin. by apply (ow_sort _ Ho me l Hl Hlm id).
    + intros id p Hid Hp0. destruct (proj1 (ow_wf _ Ho) _ _ Hp0) as (l0 & Hl0 & _).
      exists l0. split; [done|]. by eapply owned_other.
  - intros g' Hs'. destruct (decide (g = g')) as [<-|Hne]; [by eapply lookup_lt_Some|].
    rewrite lookup_insert_ne in Hs' by done. by apply K3.
Qed.
End owner.
