(* ===== verification/Passage.v ===== *)
(** From the client to the server, in a hub that others use too: where one
    connection stands.

    Upstream.v follows a connection from its first message to the start of the
    server's [Send], Direction.v from there on.  Here both are one predicate,
    [passage], that every step of the two processes keeps: the connection [waits]
    until its [Send] is started, and then it [runs].  LinkOwner.v tells its links
    from those of others. *)
From S2P Require Import Prelude GoChan Pipe RoundRobin PtrMap Queue QueueHub Link Starts Sends Striping Base64 Json.
From S2P Require Import Messages Hub Server Handshake Client Wire Direction Session Upstream ClientProc ClientTable LinkOwner.

Section passage.
Context {K : Ksuid} `{!KsuidText K}.
Context (ids : list KSUID) (m : KSUID) (addr : string).
Implicit Types (hl : LinkHub) (hq : QueueHub nat) (t : wires) (qq me : nat) (name : nat -> KSUID).

#[local] Hint Extern 0 (Transport wires) => exact (wire_transport (ws_index ids)) : typeclass_instances.

Definition up_any qq name : dir (W := nat) -> list Link.handshake -> Prop :=
  up_inv ids m addr qq name (fun _ _ _ => True).

(** A connection to the target that nothing has been written to. *)
Definition unused (c : TCPConn) : Prop := tc_sent c = [] /\ tc_eof c = false.

Record waits qq name (d : dir (W := nat)) (ops : list Link.handshake) : Prop := {
  wa_up : up_any qq name d ops;
  wa_none p l : p ∈ pm_go (d_links d) -> pm_heap (d_links d) !! p = Some l -> l_master l <> m;
  wa_conn c : tried ops = Some c -> unused c;
}.

Record runs qq name (d : dir (W := nat)) me : Prop := {
  ru_sys : exists s q cn, dir_sys (ws_index ids) m qq name d s q /\ sys_inv ids m me [] s cn;
  ru_items : forall id, id ∈ ids -> exists l, omap (item_of id) (wire (d_wires d) (ws_index ids id)) = map Chunk l;
  ru_me : (exists l, pm_heap (d_links d) !! me = Some l /\ l_master l = m) /\ me ∈ pm_go (d_links d);
  ru_only p l : p ∈ pm_go (d_links d) -> pm_heap (d_links d) !! p = Some l -> l_master l = m -> p = me;
}.

(** Removed by the server before its [Send] was started, which no step starts any
    more: the connection to the target is not given to a link again. *)
Record unconnected hl : Prop := {
  un_none p l : p ∈ pm_go hl -> pm_heap hl !! p = Some l -> l_master l <> m;
  un_conn p l : pm_map hl !! m = Some p -> pm_heap hl !! p = Some l -> l_conn l = None;
}.

Record dead (d : dir (W := nat)) : Prop := {
  de_lpc : d_lpc d = Link.PEnter;
  de_links : unconnected (d_links d);
  de_est id v : id ∈ ids -> Est v ∉ omap (item_of id) (wire (d_wires d) (ws_index ids id));
}.

Context (Hnd : NoDup ids) (Hhead : ids !! 0 = Some m).

Lemma head_in : m ∈ ids.
Proof using Hhead. by eapply list_elem_of_lookup_2. Qed.

#[local] Hint Resolve head_in : core.

(** ** While it runs *)

Lemma runs_step qq name d d' me :
  dir_step (ws_index ids) ids m qq me d d' ->
  (forall id, id ∈ ids -> exists l, omap (item_of id) (wire (d_wires d') (ws_index ids id)) = map Chunk l) ->
  (exists l, pm_heap (d_links d') !! me = Some l /\ l_master l = m) /\ me ∈ pm_go (d_links d') ->
  (forall p l, p ∈ pm_go (d_links d') -> pm_heap (d_links d') !! p = Some l -> l_master l = m -> p = me) ->
  runs qq name d me -> runs qq name d' me.
Proof using Hhead.
  intros Hstep Hit Hme Hon [(s & q & cn & Hd & Hs) _ _ _].
  destruct (dir_step_sim _ _ _ _ _ _ _ _ _ _ Hstep Hd) as (s' & q' & Hr & Hd').
  destruct (sys_steps_inv _ _ _ _ _ _ _ head_in Hs Hr) as [cn' Hs']. split; [by exists s', q', cn'|done..].
Qed.

(** What a step that changes the hub keeps of the links' owners. *)
Lemma runs_links hl hl' me :
  heap_rel (fun l l' => l_master l' = l_master l) hl hl' ->
  (exists l, pm_heap hl !! me = Some l /\ l_master l = m) /\ me ∈ pm_go hl ->
  (forall p l, p ∈ pm_go hl -> pm_heap hl !! p = Some l -> l_master l = m -> p = me) ->
  ((exists l, pm_heap hl' !! me = Some l /\ l_master l = m) /\ me ∈ pm_go hl') /\
  (forall p l, p ∈ pm_go hl' -> pm_heap hl' !! p = Some l -> l_master l = m -> p = me).
Proof.
  intros HR [(l & Hl & E) Hgo] Hon. split.
  - split; [|by rewrite (proj1 HR)].
    destruct (heap_rel_l _ _ _ _ _ HR Hl) as (l' & Hl' & E'). exists l'. split; [done|congruence].
  - intros p l' Hp (l0 & Hl0 & E0)%(heap_rel_r _ _ _ _ _ HR) Hm'. rewrite (proj1 HR) in Hp.
    apply (Hon p l0 Hp Hl0). congruence.
Qed.

Lemma runs_send qq name d d' me : dir_send m qq d d' -> runs qq name d me -> runs qq name d' me.
Proof using Hhead.
  intros Hstep Hr. pose proof Hr as [(s & q & cn & Hd & Hs) Hit Hme Hon].
  pose proof (fun id => dir_send_items ids m qq name d d' s q id Hstep Hd) as Hi. destruct (Hi m) as (El & _).
  eapply (runs_step _ _ d); [by apply ds_sender|..|done]; rewrite ?El; [|done..].
  intros id Hid. destruct (Hit id Hid) as [l Hl]. destruct (Hi id) as (_ & _ & l' & ->).
  exists (l ++ l'). by rewrite Hl, map_app.
Qed.

Lemma runs_link qq name hq ws qpc t hl lpc inp me ev hl' lpc' :
  ev <> Link.EvConn ConnPanic -> Link.Send_step me hl lpc ev = Some (hl', lpc') ->
  runs qq name (mkDir hq ws qpc t hl lpc inp) me -> runs qq name (mkDir hq ws qpc t hl' lpc' inp) me.
Proof using Hhead.
  intros Hev H Hr. pose proof Hr as [_ Hit Hme Hon]. destruct (l_send_still _ _ _ _ _ _ H) as [HR _].
  destruct (runs_links hl hl' me) as [Hme' Hon']; [|done..|].
  { eapply heap_rel_impl; [|exact HR]. by intros l l' (? & _). }
  eapply runs_step; [apply ds_receiver; by eapply ds_link|done..].
Qed.

Lemma runs_remove qq name hq ws qpc t hl lpc inp me hl' :
  Link.RemoveAll m hl = Some hl' ->
  runs qq name (mkDir hq ws qpc t hl lpc inp) me -> runs qq name (mkDir hq ws qpc t hl' lpc inp) me.
Proof using Hhead.
  intros H Hr. pose proof Hr as [_ Hit Hme Hon]. destruct (RemoveAll_inv _ _ _ H) as [HR _].
  destruct (runs_links hl hl' me) as [Hme' Hon']; [|done..|].
  { eapply heap_rel_impl; [|exact HR]. by intros l l' (? & _). }
  eapply runs_step; [apply ds_receiver; by eapply ds_remove_links|done..].
Qed.

(** The oldest message of a websocket of a connection that runs is a chunk, if it
    is for one of its IDs. *)
Lemma runs_chunk qq name hq ws qpc t hl lpc inp me id v rest b hl' :
  id ∈ ids -> wire t (ws_index ids id) = v :: rest -> chunk_of id v = Some b -> delivers hl id b hl' ->
  runs qq name (mkDir hq ws qpc t hl lpc inp) me ->
  runs qq name (mkDir hq ws qpc (<[ws_index ids id := rest]> t) hl' lpc inp) me.
Proof using Hhead.
  intros Hid Hw Hv Hdl Hr. pose proof Hr as [_ Hit Hme Hon]. simpl in *.
  destruct (runs_links hl hl' me) as [Hme' Hon']; [|done..|].
  { destruct Hdl; [by apply heap_rel_update|by apply heap_rel_refl..]. }
  eapply (runs_step _ _ (mkDir hq ws qpc t hl lpc inp)); [apply ds_receiver; by eapply ds_dispatch| |done..].
  intros id' Hid'. destruct (Hit id' Hid') as [l Hl]. simpl. destruct (decide (id' = id)) as [->|Hne].
  - rewrite wire_insert, decide_True by done. rewrite Hw, omap_cons in Hl. unfold item_of in Hl at 1. rewrite Hv in Hl.
    destruct l as [|b' l]; [done|]. simplify_eq/=. by exists l.
  - exists l. erewrite items_read; [done|done|]. by eapply chunk_item_other.
Qed.

(** ** Others *)

Lemma apart_links_kept hl hl' : owned ids m hl -> owned ids m hl' -> apart ids m hl hl' -> links_kept ids hl hl'.
Proof using Type.
  intros Ho Ho' Ha. split_and!; [apply Ho'|apply Ho'|]. intros id Hid. split; [by apply (ap_map _ _ _ _ Ha)|].
  intros p Hp. destruct (owned_ours _ _ _ _ _ Ho Hid Hp) as (l & Hl & Hlm & _).
  pose proof (ap_heap _ _ _ _ Ha p l Hl Hlm) as Hl'. split; [congruence|].
  destruct (ap_go _ _ _ _ Ha) as (new & -> & Hnew). rewrite elem_of_app. split; [|by left].
  intros [?|Hin]; [done|]. by destruct (Hnew p l Hin Hl').
Qed.

Lemma waits_other qq name hq ws qpc t hl lpc inp hq' ws' t' hl' ops :
  queues_kept m qq hq ws hq' ws' -> items_kept ids t t' ->
  owned ids m hl -> owned ids m hl' -> apart ids m hl hl' ->
  waits qq name (mkDir hq ws qpc t hl lpc inp) ops -> waits qq name (mkDir hq' ws' qpc t' hl' lpc inp) ops.
Proof using Hnd Hhead.
  intros Hq Ht Ho Ho' Ha [Hup Hno Hc]. split; [|simpl in *|done].
  - apply (up_other ids m addr qq name Hnd head_in Hhead _ hq ws qpc t hl); [done..|by apply apart_links_kept|done].
  - intros p l Hp Hl. destruct (ap_go _ _ _ _ Ha) as (new & Hg & Hnew). rewrite Hg in Hp.
    apply elem_of_app in Hp as [Hp|Hp]; [|by apply (Hnew p)]. intros Hm'.
    by apply (Hno p l Hp); [apply (ap_old _ _ _ _ Ha)|].
Qed.

Lemma runs_other qq name hq ws qpc t hl lpc inp hq' ws' t' hl' me :
  queues_kept m qq hq ws hq' ws' -> items_kept ids t t' ->
  owned ids m hl -> owned ids m hl' -> apart ids m hl hl' -> pc_ours ids m hl lpc ->
  runs qq name (mkDir hq ws qpc t hl lpc inp) me -> runs qq name (mkDir hq' ws' qpc t' hl' lpc inp) me.
Proof using Hhead.
  intros Hq Ht Ho Ho' Ha Hpc Hr. pose proof Hr as [_ Hit [(l & Hl & Hlm) Hgo] Hon]. simpl in *.
  eapply (runs_step _ _ (mkDir hq ws qpc t hl lpc inp)); [|..|done]; simpl.
  - apply ds_other; [done|]. constructor.
    + intros id Hid. rewrite !(pending_items ids id). by rewrite Ht.
    + apply Ho'.
    + apply (ap_map _ _ _ _ Ha).
    + intros p Hp. assert (exists l, pm_heap hl !! p = Some l /\ l_master l = m) as (lp & Hlp & E).
      { destruct Hp as [->|[(id & Hid & Hp)|[rest ->]]]; [by exists l| |by destruct Hpc].
        destruct (owned_ours _ _ _ _ _ Ho Hid Hp) as (l0 & ? & ? & _). by exists l0. }
      rewrite Hlp. by apply (ap_heap _ _ _ _ Ha).
  - intros id Hid. destruct (Hit id Hid) as [k Hk]. exists k. by rewrite Ht.
  - split; [exists l; split; [by apply (ap_heap _ _ _ _ Ha)|done]|].
    destruct (ap_go _ _ _ _ Ha) as (new & -> & _). apply elem_of_app. by left.
  - intros p l' Hp Hl' Hm'. destruct (ap_go _ _ _ _ Ha) as (new & Hg & Hnew). rewrite Hg in Hp.
    apply elem_of_app in Hp as [Hp|Hp]; [|by destruct (Hnew p l' Hp Hl')].
    apply (Hon p l' Hp); [by apply (ap_old _ _ _ _ Ha)|done].
Qed.

(** ** The handshake *)

(** A step of the handshake starts the master link's [Send] or none. *)
Lemma trySend_started mm conn hl :
  pm_go (fst (trySend mm conn hl)) = pm_go hl \/
  exists p, pm_map hl !! mm = Some p /\ pm_go (fst (trySend mm conn hl)) = pm_go hl ++ [p].
Proof.
  unfold trySend. destruct (pm_map hl !! mm) as [p|]; [|by left].
  set (h1 := match conn with Some c => pm_update p (SetConn c) hl | None => hl end).
  assert (pm_go h1 = pm_go hl) as E by (unfold h1; by destruct conn).
  destruct (pm_heap h1 !! p); [|by left]. case_match; [|by left]. right. exists p. split; [done|]. simpl. by rewrite E.
Qed.

Lemma hs_step_started now hl op :
  pm_go (Link.hs_step now m ids hl op) = pm_go hl \/
  exists p, pm_map (Link.hs_step now m ids hl op) !! m = Some p /\ pm_go (Link.hs_step now m ids hl op) = pm_go hl ++ [p].
Proof.
  destruct op as [id| |c]; simpl.
  - rewrite Add_register, trySend_map. destruct (trySend_started m None (hs_register now m id hl)) as [->|(p & Hp & ->)].
    + left. unfold hs_register, ensure. by repeat case_match.
    + right. exists p. split; [done|]. f_equal. unfold hs_register, ensure. by repeat case_match.
  - left. unfold hub_SetSort. by repeat case_match.
  - unfold Link.TrySend. rewrite trySend_map. destruct (trySend_started m (Some c) hl) as [->|(p & Hp & ->)]; [by left|right; by exists p].
Qed.

Lemma due_complete ops id : id ∈ ids -> links_complete ids ops -> Link.HSort ∈ ops -> due ids m addr ops id = [].
Proof using Type.
  intros Hid [Hp _] Hs. unfold due. rewrite decide_True by (by rewrite Hp).
  case_decide; [|done]. apply hs_sorted_in in Hs. by rewrite Hs.
Qed.

(** The started [Send] of a connection that has waited. *)
Lemma up_runs qq name d ops me :
  up_any qq name d ops -> owned ids m (d_links d) -> (forall c, tried ops = Some c -> unused c) ->
  pm_map (d_links d) !! m = Some me -> me ∈ pm_go (d_links d) ->
  (forall p l, p ∈ pm_go (d_links d) -> pm_heap (d_links d) !! p = Some l -> l_master l = m -> p = me) ->
  runs qq name d me /\ Link.HSort ∈ ops /\ is_Some (tried ops).
Proof using Hnd Hhead.
  intros Hup Ho Hc Hme Hgo Hon. pose proof (ui_links _ _ _ _ _ _ _ _ Hup) as Hlr.
  pose proof (proj1 (lr_go _ _ _ _ Hlr me Hme) Hgo) as Hcomp. pose proof Hcomp as [_ [c Htr]].
  destruct (Hc c Htr) as [Hsent Heof]. assert (Link.HSort ∈ ops) as Hs by (by apply (lr_try _ _ _ _ Hlr); eexists).
  destruct (up_started ids m addr qq name Hnd head_in Hhead _ c d ops me Hup Heof) as (s & q & P & Hd & Hinv & _); [|done..|].
  { intros c' Hc'. congruence. }
  split; [|split; [done|by eexists]]. split; [|..|done].
  - exists s, q, c. by rewrite <- Hsent.
  - intros id Hid. destruct (ui_items _ _ _ _ _ _ _ _ Hup id Hid) as [l Hl]. exists l. by rewrite Hl, due_complete.
  - split; [|done]. destruct (owned_ours _ _ _ _ _ Ho head_in Hme) as (l & ? & ? & _). by exists l.
Qed.

Lemma waits_op qq name now hq ws qpc t t' hl lpc inp ops op :
  waits qq name (mkDir hq ws qpc t hl lpc inp) ops -> owned ids m hl -> owned ids m (Link.hs_step now m ids hl op) ->
  kept hl (Link.hs_step now m ids hl op) -> link_may ids ops op -> (forall c, op = Link.HTry c -> unused c) ->
  (forall id l, id ∈ ids -> omap (item_of id) (wire t (ws_index ids id)) = due ids m addr ops id ++ map Chunk l ->
     omap (item_of id) (wire t' (ws_index ids id)) = due ids m addr (ops ++ [op]) id ++ map Chunk l) ->
  let d' := mkDir hq ws qpc t' (Link.hs_step now m ids hl op) lpc inp in
  (waits qq name d' (ops ++ [op]) /\ pm_go (Link.hs_step now m ids hl op) = pm_go hl) \/
  (exists me, runs qq name d' me /\ pm_go (Link.hs_step now m ids hl op) = pm_go hl ++ [me] /\ (me ∉ pm_go hl) /\
     Link.HSort ∈ ops ++ [op] /\ is_Some (tried (ops ++ [op])) /\ lpc = Link.PEnter).
Proof using Hnd Hhead.
  intros [Hup Hno Hc] Ho Ho' Hk Hmay Hun Hit d'.
  pose proof (ui_lpc _ _ _ _ _ _ _ _ Hup) as Hlpc. simpl in Hlpc.
  assert (up_any qq name d' (ops ++ [op])) as Hup'.
  { by apply (up_handshake ids m addr qq name Hnd head_in Hhead _ now hq ws qpc t t'). }
  assert (forall c, tried (ops ++ [op]) = Some c -> unused c) as Hc'.
  { intros c. rewrite tried_snoc. destruct op; [by apply Hc..|]. intros [= <-]. by apply Hun. }
  assert (forall p l, p ∈ pm_go hl -> pm_heap (Link.hs_step now m ids hl op) !! p = Some l -> l_master l <> m) as Hno'.
  { intros p l Hp Hl. pose proof (ow_go _ _ _ Ho) as Hok. unfold pm_go_ok in Hok. rewrite Forall_forall in Hok.
    destruct (lookup_lt_is_Some_2 _ _ (Hok p Hp)) as [l0 Hl0]. destruct Hk as [Hk _].
    destruct (Hk p l0 Hl0) as (l1 & Hl1 & E). simplify_eq. rewrite E. by apply (Hno p). }
  destruct (hs_step_started now hl op) as [Hg|(me & Hme & Hg)]; [left|right; exists me].
  - split; [|done]. split; [done|simpl; rewrite Hg; done|done].
  - destruct (owned_ours _ _ _ _ _ Ho' head_in Hme) as (l & Hl & Hlm & _).
    assert (me ∉ pm_go hl) as Hme' by (intros Hin; by destruct (Hno' me l Hin Hl)).
    destruct (up_runs qq name d' (ops ++ [op]) me) as (Hr & Hs & Ht); try done; simpl.
    + rewrite Hg. set_solver.
    + rewrite Hg. intros p l' [Hp|Hp%list_elem_of_singleton]%elem_of_app Hl' Hm'; [|done]. by destruct (Hno' p l' Hp Hl').
Qed.

(** ** The client's side *)

Lemma waits_send qq name d d' ops : dir_send m qq d d' -> waits qq name d ops -> waits qq name d' ops.
Proof using Hnd Hhead.
  intros Hstep [Hup Hno Hc]. pose proof (ui_sender _ _ _ _ _ _ _ _ Hup) as (s & q & P & Hd & _).
  destruct (dir_send_items ids m qq name d d' s q m Hstep Hd) as (El & _). split; rewrite ?El; [|done..].
  by apply (up_sender ids m addr qq name Hnd head_in Hhead d).
Qed.

Lemma waits_chunk qq name hq ws qpc t hl lpc inp ops id v rest b hl' :
  id ∈ ids -> wire t (ws_index ids id) = v :: rest -> chunk_of id v = Some b -> delivers hl id b hl' ->
  waits qq name (mkDir hq ws qpc t hl lpc inp) ops ->
  waits qq name (mkDir hq ws qpc (<[ws_index ids id := rest]> t) hl' lpc inp) ops.
Proof using Hnd Hhead.
  intros Hid Hw Hv Hdl [Hup Hno Hc]. split; [|simpl in *|done].
  - by apply (up_chunk ids m addr qq name Hnd head_in Hhead _ hq ws qpc t hl lpc inp ops id v rest b).
  - assert (heap_rel (fun l l' => l_master l' = l_master l) hl hl') as HR.
    { destruct Hdl; [by apply heap_rel_update|by apply heap_rel_refl..]. }
    intros p l' Hp (l & Hl & ->)%(heap_rel_r _ _ _ _ _ HR). rewrite (proj1 HR) in Hp. by apply (Hno p).
Qed.

(** ** Once it is dead *)

Lemma hand_no_est x ws_err b out e id v v0 : hand x ws_err b = (out, e) -> v ∈ out -> item_of id v <> Some (Est v0).
Proof.
  unfold hand, writer_WriteEOF, writer_Write. intros H.
  assert (Forall (fun v => exists b', v = chunk_json (w_Id x) b') out) as Hall.
  { assert (forall d, marshal_message (proxy_message (w_Id x) TagData d) = chunk_json (w_Id x) (mkBuffer false d) /\
              marshal_message (proxy_message (w_Id x) TagEOF d) = chunk_json (w_Id x) (mkBuffer true d)) as Hc by done.
    destruct (b_eof b), (w_CtxErr x); simpl in H; repeat case_match; simplify_eq; constructor; try done; eexists; apply Hc. }
  rewrite Forall_forall in Hall. intros [b' ->]%Hall. rewrite item_of_chunk. by case_decide.
Qed.

Lemma dead_send qq d d' : dir_send m qq d d' -> dead d -> dead d'.
Proof using Type.
  intros Hs [H1 H2 H4]. destruct Hs as [| |hq ws qpc t hl lpc inp q e q' qpc' w b x ws_err out lost Hq H Hx Hh Hl|]; split; try done.
  simpl in *. destruct lost; [done|]. intros id v Hid. rewrite wire_put. case_decide; [|by apply H4]. subst.
  rewrite omap_app. intros [Hin|Hin]%elem_of_app; [by apply (H4 id v)|].
  apply list_elem_of_omap in Hin as (v' & Hin & E). by eapply hand_no_est.
Qed.

Lemma dead_other hq ws qpc t hl lpc inp hq' ws' t' hl' :
  items_kept ids t t' -> owned ids m hl -> owned ids m hl' -> apart ids m hl hl' ->
  dead (mkDir hq ws qpc t hl lpc inp) -> dead (mkDir hq' ws' qpc t' hl' lpc inp).
Proof using Hhead.
  intros Ht Ho Ho' Ha [H1 [H2 H3] H4]. split; simpl in *; [done|split|].
  - intros p l Hp Hl. destruct (ap_go _ _ _ _ Ha) as (new & Hg & Hnew). rewrite Hg in Hp.
    apply elem_of_app in Hp as [Hp|Hp]; [|by apply (Hnew p)]. intros Hm'.
    by apply (H2 p l Hp); [apply (ap_old _ _ _ _ Ha)|].
  - intros p l' Hp Hl'. destruct (owned_ours _ _ _ _ _ Ho' head_in Hp) as (l0 & Hl0 & Hlm & _). assert (l' = l0) as -> by congruence.
    apply (H3 p); [|by apply (ap_old _ _ _ _ Ha)]. by rewrite <- (ap_map _ _ _ _ Ha m head_in).
  - intros id v Hid. rewrite Ht by done. by apply H4.
Qed.

Lemma unconnected_rel hl hl' :
  heap_rel (fun l l' => l_master l' = l_master l /\ (l_conn l = None -> l_conn l' = None)) hl hl' ->
  (forall p, pm_map hl' !! m = Some p -> pm_map hl !! m = Some p) -> unconnected hl -> unconnected hl'.
Proof using Type.
  intros HR Hmap [H2 H3]. split.
  - intros p l' Hp (l & Hl & -> & _)%(heap_rel_r _ _ _ _ _ HR). rewrite (proj1 HR) in Hp. by apply (H2 p).
  - intros p l' Hp%Hmap (l & Hl & _ & Hc)%(heap_rel_r _ _ _ _ _ HR). by apply Hc, (H3 p).
Qed.

(** The links change, but not whose they are, nor the connections to targets. *)
Lemma dead_links hq ws qpc t hl lpc inp t' hl' :
  heap_rel (fun l l' => l_master l' = l_master l /\ (l_conn l = None -> l_conn l' = None)) hl hl' ->
  (forall p, pm_map hl' !! m = Some p -> pm_map hl !! m = Some p) ->
  (forall id v, id ∈ ids -> Est v ∈ omap (item_of id) (wire t' (ws_index ids id)) ->
     Est v ∈ omap (item_of id) (wire t (ws_index ids id))) ->
  dead (mkDir hq ws qpc t hl lpc inp) -> dead (mkDir hq ws qpc t' hl' lpc inp).
Proof using Type.
  intros HR Hmap Ht [H1 H2 H4]. split; simpl in *; [done|by eapply unconnected_rel|].
  - intros id v Hid Hin%Ht; [|done]. by apply (H4 id v).
Qed.

Lemma est_read k v0 (rest : list json) t id v :
  wire t k = v0 :: rest -> Est v ∈ omap (item_of id) (wire (<[k := rest]> t) (ws_index ids id)) ->
  Est v ∈ omap (item_of id) (wire t (ws_index ids id)).
Proof using Type.
  intros Hw. rewrite wire_insert. case_decide as E; [|done]. rewrite E, Hw, omap_cons.
  case_match; [|done]. by apply list_elem_of_further.
Qed.

Lemma dead_chunk hq ws qpc t hl lpc inp k v rest id b hl' :
  wire t k = v :: rest -> delivers hl id b hl' ->
  dead (mkDir hq ws qpc t hl lpc inp) -> dead (mkDir hq ws qpc (<[k := rest]> t) hl' lpc inp).
Proof using Type.
  intros Hw Hdl. apply dead_links.
  - destruct Hdl; [by apply heap_rel_update|by apply heap_rel_refl..].
  - by destruct Hdl.
  - intros i v' _. by eapply est_read.
Qed.

(** A hello message may make a link again, without a connection to the target. *)
Lemma unconnected_ensure now i hl :
  i ∈ ids -> owned ids m hl -> unconnected hl ->
  let h' := Link.ensure now i m hl in
  unconnected h' /\ owned ids m h' /\ pm_go h' = pm_go hl /\ is_Some (pm_map h' !! i) /\
  forall j p, pm_map hl !! j = Some p -> pm_map h' !! j = Some p.
Proof using Hhead.
  intros Hi Ho [H2 H3] h'. assert (owned ids m h') as Ho' by (by apply owned_ensure). split_and!; [|done|..];
    unfold h', Link.ensure; destruct (pm_map hl !! i) as [pi|] eqn:Ei; simpl; try done; [|by rewrite lookup_insert_eq|].
  - split; simpl.
    + intros p l Hp [Hl|[Hge _]]%lookup_app_Some; [by apply (H2 p)|]. pose proof (ow_go _ _ _ Ho) as Hok.
      unfold pm_go_ok in Hok. rewrite Forall_forall in Hok. apply Hok in Hp. lia.
    + intros p l. rewrite lookup_insert. case_decide as E.
      * intros [= <-]. rewrite list_lookup_middle by done. by intros [= <-].
      * intros Hp. destruct (owned_ours _ _ _ _ _ Ho head_in Hp) as (l0 & Hl0 & _).
        rewrite (lookup_app_l_Some _ _ _ _ Hl0). intros [= <-]. by apply (H3 p).
  - intros j p Hj. rewrite lookup_insert_ne; [done|]. congruence.
Qed.

Lemma dead_hello now hq ws qpc t hl lpc inp k v rest id :
  id ∈ ids -> wire t k = v :: rest -> owned ids m hl -> dead (mkDir hq ws qpc t hl lpc inp) ->
  dead (mkDir hq ws qpc (<[k := rest]> t) (Link.Add now id m hl) lpc inp) /\ pm_go (Link.Add now id m hl) = pm_go hl.
Proof using Hhead.
  intros Hid Hw Ho [H1 H2 H4]. simpl in *.
  destruct (unconnected_ensure now m hl head_in Ho H2) as (U1 & O1 & G1 & [p Hp] & _).
  destruct (unconnected_ensure now id _ Hid O1 U1) as (U2 & O2 & G2 & _ & M2). pose proof (M2 m p Hp) as Hp2.
  destruct (owned_ours _ _ _ _ _ O2 head_in Hp2) as (l & Hl & _).
  rewrite (link_Add_unstarted now id m hl p l Hp Hp2 Hl) by (by apply (un_conn _ U2 p)).
  split; [|simpl; by rewrite G2, G1]. split; [done| |].
  - simpl. eapply unconnected_rel; [by apply heap_rel_update|done|done].
  - simpl. intros i v' Hi Hin. by eapply H4, est_read.
Qed.

(** Removing a connection that waits. *)
Lemma waits_dead qq name hq ws qpc t hl lpc inp hl' ops :
  owned ids m hl -> Link.RemoveAll m hl = Some hl' -> hs_sorted ops = true ->
  waits qq name (mkDir hq ws qpc t hl lpc inp) ops -> dead (mkDir hq ws qpc t hl' lpc inp).
Proof using Hnd Hhead.
  intros Ho Hrm Hso [Hup Hno _]. destruct (RemoveAll_inv _ _ _ Hrm) as [HR _].
  destruct (RemoveAll_ok m hl (ow_wf _ _ _ Ho)) as (h1 & E & _ & [Hw _]). assert (h1 = hl') as -> by congruence.
  split; [by apply (ui_lpc _ _ _ _ _ _ _ _ Hup)|split|]; simpl in *.
  - intros p l' Hp (l & Hl & -> & _)%(heap_rel_r _ _ _ _ _ HR). rewrite (proj1 HR) in Hp. by apply (Hno p).
  - intros p l' Hp. exfalso. unfold Link.RemoveAll in Hrm. destruct (pm_deref hl m) as [q|] eqn:Hq.
    + rewrite Hw, decide_True in Hp by set_solver. done.
    + injection Hrm as <-. destruct (owned_ours _ _ _ _ _ Ho head_in Hp) as (l0 & Hl0 & _). unfold pm_deref in Hq.
      rewrite Hp in Hq. congruence.
  - intros id v Hid. destruct (ui_items _ _ _ _ _ _ _ _ Hup id Hid) as [l Hl]. simpl in Hl. rewrite Hl. unfold due. rewrite Hso.
    intros [Hin|[b [? _]]%list_elem_of_fmap]%elem_of_app; [|done].
    case_decide; case_decide; set_solver.
Qed.

(** ** Where it stands *)

(** Either way; [sorted] and [dialled] tell which steps the server has taken. *)
Inductive passage qq name (d : dir (W := nat)) (sorted dialled : bool) : Prop :=
  | pa_waits ops :
      waits qq name d ops -> sorted = hs_sorted ops -> dialled = bool_decide (is_Some (tried ops)) ->
      passage qq name d sorted dialled
  | pa_runs me : runs qq name d me -> sorted = true -> dialled = true -> passage qq name d sorted dialled
  | pa_dead : dead d -> sorted = true -> dialled = true -> passage qq name d sorted dialled.

Lemma passage_send qq name d d' s b : dir_send m qq d d' -> passage qq name d s b -> passage qq name d' s b.
Proof using Hnd Hhead.
  intros H [ops Hw Es Ed|me Hr Es Ed|Hd Es Ed]; [eapply pa_waits|eapply pa_runs|apply pa_dead];
    eauto using waits_send, runs_send, dead_send.
Qed.

Lemma passage_other qq name hq ws qpc t hl lpc inp hq' ws' t' hl' s b :
  queues_kept m qq hq ws hq' ws' -> items_kept ids t t' ->
  owned ids m hl -> owned ids m hl' -> apart ids m hl hl' -> pc_ours ids m hl lpc ->
  passage qq name (mkDir hq ws qpc t hl lpc inp) s b -> passage qq name (mkDir hq' ws' qpc t' hl' lpc inp) s b.
Proof using Hnd Hhead.
  intros Hq Ht Ho Ho' Ha Hpc [ops Hw Es Ed|me Hr Es Ed|Hd Es Ed];
    [eapply pa_waits|eapply pa_runs|apply pa_dead]; eauto using waits_other, runs_other, dead_other.
Qed.

Lemma passage_chunk qq name hq ws qpc t hl lpc inp id v rest b hl' s dl :
  id ∈ ids -> wire t (ws_index ids id) = v :: rest -> chunk_of id v = Some b -> delivers hl id b hl' ->
  passage qq name (mkDir hq ws qpc t hl lpc inp) s dl ->
  passage qq name (mkDir hq ws qpc (<[ws_index ids id := rest]> t) hl' lpc inp) s dl.
Proof using Hnd Hhead.
  intros Hid Hw Hv Hdl [ops Hwa Es Ed|me Hr Es Ed|Hd Es Ed];
    [eapply pa_waits|eapply pa_runs|apply pa_dead]; eauto using waits_chunk, runs_chunk, dead_chunk.
Qed.

(** What a step of the handshake starts: nothing, or the [Send] that was not
    there before. *)
Definition started hl hl' (lpc : Link.send_pc) : Prop :=
  pm_go hl' = pm_go hl \/
  exists me, pm_go hl' = pm_go hl ++ [me] /\ lpc = Link.PEnter /\
    forall p l, p ∈ pm_go hl -> pm_heap hl !! p = Some l -> l_master l <> m.

Lemma own_hs_step now hl op :
  (forall id, op = Link.HAdd id -> id ∈ ids) -> owned ids m hl ->
  owned ids m (Link.hs_step now m ids hl op) /\ kept hl (Link.hs_step now m ids hl op).
Proof using Hhead.
  pose proof head_in as Hm. intros Hid Ho. destruct op as [id| |c]; simpl.
  - specialize (Hid id eq_refl). split; [by apply owned_Add|apply kept_Add].
  - split; [by apply owned_SetSort|apply kept_SetSort].
  - split; [by apply owned_trySend|apply kept_trySend].
Qed.

Lemma waits_passage qq name now hq ws qpc t t' hl lpc inp ops op s dl :
  waits qq name (mkDir hq ws qpc t hl lpc inp) ops -> owned ids m hl ->
  link_may ids ops op -> (forall c, op = Link.HTry c -> unused c) ->
  (forall id l, id ∈ ids -> omap (item_of id) (wire t (ws_index ids id)) = due ids m addr ops id ++ map Chunk l ->
     omap (item_of id) (wire t' (ws_index ids id)) = due ids m addr (ops ++ [op]) id ++ map Chunk l) ->
  s = hs_sorted (ops ++ [op]) -> dl = bool_decide (is_Some (tried (ops ++ [op]))) ->
  passage qq name (mkDir hq ws qpc t' (Link.hs_step now m ids hl op) lpc inp) s dl /\
  started hl (Link.hs_step now m ids hl op) lpc.
Proof using Hnd Hhead.
  intros Hw Ho Hmay Hun Hit Es Ed. destruct (own_hs_step now hl op) as [Ho' Hk]; [|done|].
  { intros id ->. apply Hmay. }
  destruct (waits_op qq name now hq ws qpc t t' hl lpc inp ops op Hw Ho Ho' Hk Hmay Hun Hit)
    as [[Hw' Hg]|(me & Hr & Hg & _ & Hs & Ht & Hlpc)].
  - split; [by eapply pa_waits|by left].
  - split.
    + apply hs_sorted_in in Hs. rewrite Hs in Es. rewrite bool_decide_eq_true_2 in Ed by done. by eapply pa_runs.
    + right. exists me. split_and!; [done..|]. apply Hw.
Qed.

Lemma runs_head qq name d me k v rest id :
  runs qq name d me -> ids !! k = Some id -> wire (d_wires d) k = v :: rest -> item_of id v <> None ->
  exists b, item_of id v = Some (Chunk b).
Proof using Hnd.
  intros Hr Hk Hw Hv. destruct (ru_items _ _ _ _ Hr id) as [l Hl]; [by eapply list_elem_of_lookup_2|].
  rewrite (ws_index_lookup ids k id Hnd Hk), Hw, omap_cons in Hl. destruct (item_of id v) as [i|]; [|done].
  destruct l as [|b l]; simplify_eq/=. by exists b.
Qed.

Lemma passage_hello qq name now hq ws qpc t hl lpc inp k id rest s dl :
  ids !! k = Some id -> wire t k = hello_json m id :: rest -> owned ids m hl ->
  passage qq name (mkDir hq ws qpc t hl lpc inp) s dl ->
  passage qq name (mkDir hq ws qpc (<[k := rest]> t) (Link.Add now id m hl) lpc inp) s dl /\
  started hl (Link.Add now id m hl) lpc.
Proof using Hnd Hhead.
  intros Hk Hw Ho [ops Hwa Es Ed|me Hr _ _|Hd Es Ed].
  3: { destruct (dead_hello now hq ws qpc t hl lpc inp k _ rest id (list_elem_of_lookup_2 _ _ _ Hk) Hw Ho Hd) as [Hd' Hg].
       split; [by apply pa_dead|by left]. }
  2: { exfalso. destruct (runs_head _ _ _ _ _ _ _ _ Hr Hk Hw) as [b Hb]; rewrite item_of_hello, decide_True in * by done; done. }
  destruct (hello_due ids m addr qq name Hnd head_in Hhead (fun _ _ _ => True) (mkDir hq ws qpc t hl lpc inp) ops k id rest) as [Hmay Hdue];
    [by apply elem_of_numbered_iff|done|apply Hwa|].
  apply (waits_passage qq name now hq ws qpc t _ hl lpc inp ops (Link.HAdd id)); try done.
  - by rewrite hs_sorted_snoc, orb_false_r.
  - by rewrite tried_snoc.
Qed.

Lemma passage_est qq name now hq ws qpc t hl lpc inp rest s dl :
  wire t 0 = est_json ids m addr :: rest -> owned ids m hl -> passage qq name (mkDir hq ws qpc t hl lpc inp) s dl ->
  s = false /\ dl = false /\
  passage qq name (mkDir hq ws qpc (<[0 := rest]> t) (Link.hub_SetSort now m ids hl) lpc inp) true false /\
  started hl (Link.hub_SetSort now m ids hl) lpc.
Proof using Hnd Hhead.
  intros Hw Ho [ops Hwa Es Ed|me Hr _ _|Hd _ _].
  3: { exfalso. apply (de_est _ Hd m (est_json ids m addr) head_in). simpl. rewrite (ws_index_lookup ids 0 m Hnd Hhead), Hw, omap_cons.
       rewrite item_of_est, decide_True by done. by apply list_elem_of_here. }
  2: { exfalso. destruct (runs_head _ _ _ _ _ _ _ _ Hr Hhead Hw) as [b Hb]; rewrite item_of_est, decide_True in * by done; done. }
  destruct (est_due ids m addr qq name Hnd head_in Hhead (fun _ _ _ => True) (mkDir hq ws qpc t hl lpc inp) ops rest) as [Hs Hdue]; [done|apply Hwa|].
  assert (dl = false) as ->.
  { rewrite Ed. apply bool_decide_eq_false_2. intros Ht. apply (lr_try _ _ _ _ (ui_links _ _ _ _ _ _ _ _ (wa_up _ _ _ _ Hwa))) in Ht.
    apply hs_sorted_in in Ht. congruence. }
  split; [congruence|]. split; [done|].
  apply (waits_passage qq name now hq ws qpc t _ hl lpc inp ops Link.HSort); try done.
  - by rewrite hs_sorted_snoc, orb_true_r.
  - by rewrite tried_snoc.
Qed.

Lemma passage_dial qq name hq ws qpc t hl lpc inp c :
  unused c -> owned ids m hl -> passage qq name (mkDir hq ws qpc t hl lpc inp) true false ->
  passage qq name (mkDir hq ws qpc t (fst (Link.TrySend m (Some c) hl)) lpc inp) true true /\
  started hl (fst (Link.TrySend m (Some c) hl)) lpc.
Proof using Hnd Hhead.
  intros Hc Ho [ops Hwa Es Ed|me _ _ ?|_ _ ?]; [|done..]. symmetry in Es, Ed. apply hs_sorted_in in Es.
  apply bool_decide_eq_false in Ed.
  assert (tried ops = None) as Ht by (destruct (tried ops); [by destruct Ed; eexists|done]).
  apply (waits_passage qq name 0 hq ws qpc t t hl lpc inp ops (Link.HTry c)); try done.
  - by intros c' [= <-].
  - intros id l _ Hl. by rewrite due_snoc_other.
  - rewrite hs_sorted_snoc. apply hs_sorted_in in Es. by rewrite Es.
  - by rewrite tried_snoc.
Qed.

(** The server may remove it once it has been dialled. *)
Lemma passage_remove qq name hq ws qpc t hl lpc inp hl' dl :
  owned ids m hl -> Link.RemoveAll m hl = Some hl' ->
  passage qq name (mkDir hq ws qpc t hl lpc inp) true dl -> passage qq name (mkDir hq ws qpc t hl' lpc inp) true true.
Proof using Hnd Hhead.
  intros Ho Hrm [ops Hwa Es Ed|me Hr Es Ed|Hd Es Ed].
  - apply pa_dead; [by eapply waits_dead|done..].
  - eapply pa_runs; eauto using runs_remove.
  - apply pa_dead; [|done..]. destruct (RemoveAll_inv _ _ _ Hrm) as [HR Hmap]. eapply dead_links; [|by apply Hmap|done|exact Hd].
    eapply heap_rel_impl; [|exact HR]. intros l l' (? & _ & Hc & _). split; [done|]. intros E.
    destruct (l_conn l') eqn:E'; [|done]. by destruct Hc.
Qed.

(** ** The [Send] of the master link *)

Lemma passage_started qq name d s dl p l :
  passage qq name d s dl -> p ∈ pm_go (d_links d) -> pm_heap (d_links d) !! p = Some l -> l_master l = m ->
  runs qq name d p /\ s = true /\ dl = true.
Proof using Type.
  intros [ops Hw _ _|me Hr Es Ed|Hd _ _] Hp Hl Hlm; [by destruct (wa_none _ _ _ _ Hw p l Hp Hl)| |].
  2: { by destruct (un_none _ (de_links _ Hd) p l Hp Hl). }
  by rewrite (ru_only _ _ _ _ Hr p l Hp Hl Hlm).
Qed.

Lemma passage_link qq name hq ws qpc t hl lpc inp s dl p l ev hl' lpc' :
  p ∈ pm_go hl -> pm_heap hl !! p = Some l -> l_master l = m ->
  ev <> Link.EvConn ConnPanic -> Link.Send_step p hl lpc ev = Some (hl', lpc') ->
  passage qq name (mkDir hq ws qpc t hl lpc inp) s dl -> passage qq name (mkDir hq ws qpc t hl' lpc' inp) s dl.
Proof using Hhead.
  intros Hp Hl Hlm Hev H Hpa. destruct (passage_started _ _ _ _ _ p l Hpa Hp Hl Hlm) as (Hr & -> & ->).
  eapply pa_runs; [by eapply runs_link|done..].
Qed.

Lemma runs_sorted qq name d me l : runs qq name d me -> pm_heap (d_links d) !! me = Some l -> l_sorted l = ids.
Proof using Type.
  intros [(s & q & cn & Hd & Hs) _ _ _] Hl. pose proof (ds_sys _ _ _ _ _ _ _ Hd) as ->.
  destruct (iv_me _ _ _ _ _ _ Hs) as [Hso _]. unfold sort_at in Hso. simpl in Hso. rewrite Hl in Hso. by injection Hso.
Qed.

(** What has been written to the target. *)
Definition written_out (inp : list buffer) l : Prop :=
  exists cn, l_conn l = Some cn /\ tc_sent cn `prefix_of` data_of inp /\
    (tc_eof cn = true -> tc_sent cn = data_of inp /\ ~ no_eof inp).

Lemma passage_out qq name d s dl p l :
  passage qq name d s dl -> p ∈ pm_go (d_links d) -> pm_heap (d_links d) !! p = Some l -> l_master l = m ->
  written_out (d_in d) l.
Proof using Type.
  intros Hpa Hp Hl Hlm. destruct (passage_started _ _ _ _ _ p l Hpa Hp Hl Hlm) as [[(s0 & q & cn & Hd & Hs) _ _ _] _].
  pose proof (ds_sys _ _ _ _ _ _ _ Hd) as ->.
  pose proof (sys_inv_streamed ids m p (mkConn [] false) _ cn Hs) as (cn' & out & Hc & Ho & Hpre & Heof). simpl in *.
  unfold conn_at in Hc. rewrite Hl in Hc. injection Hc as Hc. exists cn'. by rewrite Ho.
Qed.

(** ** Before the client's [Send] starts *)

Lemma sender_swap qq name hq ws q qq' name' hq' ws' q' X n :
  side_new ids m qq name hq ws q -> side_new ids m qq' name' hq' ws' q' ->
  sender (map_queue name q) Queue.PEnter [] X n -> sender (map_queue name' q') Queue.PEnter [] X n.
Proof using Type.
  intros Hn Hn' [Hf Hp]. eapply side_sender; [exact Hn'|..].
  - destruct Hf as [[[] _]|[_ Hf]]. simpl in Hf. by rewrite (sn_empty _ _ _ _ _ _ _ Hn), app_nil_r in Hf.
  - specialize (Hp (fun H => H)). simpl in Hp. by rewrite (sn_sorted _ _ _ _ _ _ _ Hn) in Hp.
Qed.

Lemma passage_swap qq name hq ws q qq' name' hq' ws' q' t hl lpc s dl :
  side_new ids m qq name hq ws q -> side_new ids m qq' name' hq' ws' q' ->
  passage qq name (mkDir hq ws Queue.PEnter t hl lpc []) s dl ->
  passage qq' name' (mkDir hq' ws' Queue.PEnter t hl lpc []) s dl.
Proof using Type.
  intros Hn Hn' Hpa.
  destruct (side_dir_sys ids m qq' name' hq' ws' q' t hl lpc Hn') as [Hd' Hr'].
  destruct Hpa as [ops [Hup Hno Hc] Es Ed|me [(s0 & q0 & cn & Hd & Hs) Hit Hme Hon] Es Ed|[H1 H2 H3] Es Ed]; [..|by apply pa_dead].
  - eapply pa_waits; [|done..]. split; [|done..].
    destruct Hup as [(s0 & q0 & P & Hd & Hq & Heof & Hsn & Hlanes & _) Hl Hi Hw Hlpc].
    pose proof (ds_sys _ _ _ _ _ _ _ Hd) as E. pose proof (ds_queue _ _ _ _ _ _ _ Hd) as Hq0. simpl in Hq0.
    rewrite (sn_queue _ _ _ _ _ _ _ Hn) in Hq0. injection Hq0 as <-. subst s0. simpl in *.
    split; simpl; try done. eexists _, q', P. split; [exact Hd'|]. split_and!; simpl; try done; try apply Heof.
    by apply (sender_swap qq name hq ws q qq' name' hq' ws').
  - eapply pa_runs; [|done..]. split; [|done..]. eexists _, q', cn. split; [exact Hd'|].
    pose proof (ds_sys _ _ _ _ _ _ _ Hd) as E. pose proof (ds_queue _ _ _ _ _ _ _ Hd) as Hq0. simpl in Hq0.
    rewrite (sn_queue _ _ _ _ _ _ _ Hn) in Hq0. injection Hq0 as <-. subst s0. simpl in *.
    destruct Hs as [_ Hhub Hme' Hma Heof Hst]. split; simpl in *; try done.
    destruct Hst as [(C & P & k & [A1 A2 A3 A4 A5])|[(C & [D1 D2 D3 D4])|[F1 F2]]].
    + left. exists C, P, k. split; simpl in *; try done. by apply (sender_swap qq name hq ws q qq' name' hq' ws').
    + right; left. by exists C.
    + by right; right.
Qed.

(** The queue that the call will have. *)
Definition new_queue : queue nat :=
  mkQueue m makeBuffer (list_to_map (zip ids (seq 0 (length ids)))) ids StaWait (make_chan 0) 0.
Definition new_hub : QueueHub nat := mkPtrMap {[m := 0]} [new_queue] [].
Definition new_writers (w : nat) : option webSocketWriter := NewWebSocketWriter w <$> ids !! w.
Definition new_name (w : nat) : KSUID := default m (ids !! w).

Lemma new_side : side_new ids m 0 new_name new_hub new_writers new_queue.
Proof using Hnd.
  assert (forall id w, (list_to_map (zip ids (seq 0 (length ids))) : gmap KSUID nat) !! id = Some w <-> ids !! w = Some id) as Hw.
  { intros id w. rewrite <- elem_of_list_to_map by (by rewrite fst_zip by (by rewrite length_seq)).
    rewrite list_elem_of_lookup. split.
    - intros [i Hi]. apply lookup_zip_Some in Hi as [Hi Hs]. apply lookup_seq in Hs as [-> _]. done.
    - intros Hi. exists w. apply lookup_zip_Some. split; [done|]. apply lookup_seq. split; [lia|by eapply lookup_lt_Some]. }
  split; try done.
  - intros p Hp. simpl in Hp. by apply lookup_singleton_Some in Hp as [_ <-].
  - intros id w Hi%Hw. exists (NewWebSocketWriter w id). unfold new_writers, new_name. rewrite Hi. simpl.
    split_and!; [done..|]. symmetry. by apply ws_index_lookup.
  - intros id [w Hi]%list_elem_of_lookup. exists w. split; [by apply Hw|]. unfold new_name. by rewrite Hi.
Qed.

(** Nothing of the connection is on the websockets or at the server, but for the
    messages of the handshake. *)
Lemma passage_begin t hl :
  owned ids m hl -> (forall id, id ∈ ids -> pm_map hl !! id = None) ->
  (forall p l, p ∈ pm_go hl -> pm_heap hl !! p = Some l -> l_master l <> m) ->
  (forall id, id ∈ ids -> omap (item_of id) (wire t (ws_index ids id)) = due ids m addr [] id) ->
  passage 0 new_name (mkDir new_hub new_writers Queue.PEnter t hl Link.PEnter []) false false.
Proof using Hnd Hhead.
  intros Ho Hno Hgo Ht. apply (pa_waits _ _ _ _ _ []); [|done..]. split; [|done..].
  apply (up_begin ids m addr 0 new_name _ new_hub new_writers new_queue); [apply new_side|apply head_in|apply Ho|apply Ho|done..].
Qed.
End passage.
