(* ===== verification/Follow.v ===== *)
(** The server's end of one connection (pipe/link.go, wss/proxy_server.go): its
    hub of links, with a program point for each [Send] that has been started.

    [follows] is what is known of it at any time.  It is kept by whatever is done
    for other connections, in any number of steps ([link_move]), and by the steps
    of the connection itself. *)
From S2P Require Import Prelude GoChan Pipe RoundRobin PtrMap Queue QueueHub Link Starts Sends Striping Base64 Json.
From S2P Require Import Messages Hub Server Handshake Client Wire Direction Session Upstream ClientProc ClientTable.
From S2P Require Import LinkOwner Passage.

Section follow.
Context {K : Ksuid} `{!KsuidText K}.
Context (ids : list KSUID) (m : KSUID) (addr : string).
Context (Hnd : NoDup ids) (Hhead : ids !! 0 = Some m).
Implicit Types (hl : LinkHub) (hq : QueueHub nat) (t : wires) (pcs : gmap nat Link.send_pc).

(** [lpc] is where the connection's own [Send] stands, of which there is at most
    one. *)
Record at_pc hl pcs lpc : Prop := {
  at_one g g' p p' l l' : pm_go hl !! g = Some p -> pm_go hl !! g' = Some p' ->
    pm_heap hl !! p = Some l -> pm_heap hl !! p' = Some l' -> l_master l = m -> l_master l' = m -> g = g';
  at_at g p l : pm_go hl !! g = Some p -> pm_heap hl !! p = Some l -> l_master l = m -> pc_at pcs g = lpc;
}.

Record follows qq name (d : dir (W := nat)) pcs (s dl : bool) : Prop := {
  fo_owned : owned ids m (d_links d);
  fo_pcs : pcs_ok ids m (d_links d) pcs;
  fo_at : at_pc (d_links d) pcs (d_lpc d);
  fo_passage : passage ids m addr qq name d s dl;
}.

Lemma follows_pc qq name d pcs s dl : follows qq name d pcs s dl -> pc_ours ids m (d_links d) (d_lpc d).
Proof using Type.
  intros [Ho Hp Ha [ops Hw _ _|me Hr _ _|Hd _ _]].
  3: { by rewrite (de_lpc _ _ _ Hd). }
  - pose proof (ui_lpc _ _ _ _ _ _ _ _ (wa_up _ _ _ _ _ _ _ Hw)) as E. by rewrite E.
  - destruct (ru_me _ _ _ _ _ _ Hr) as [(l & Hl & Hlm) [g Hg]%list_elem_of_lookup].
    rewrite <- (at_at _ _ _ Ha g me l Hg Hl Hlm). by eapply po_ours.
Qed.

(** ** What others do *)

(** The owners stay, and only others are started. *)
Definition kept_go hl hl' : Prop :=
  (forall p l, pm_heap hl !! p = Some l -> exists l', pm_heap hl' !! p = Some l' /\ l_master l' = l_master l) /\
  exists new, pm_go hl' = pm_go hl ++ new /\ forall p l, p ∈ new -> pm_heap hl' !! p = Some l -> l_master l <> m.

Lemma kept_go_kept hl hl' : kept_go hl hl' -> kept hl hl'.
Proof using Type. intros [H (new & Hg & _)]. split; [done|by exists new]. Qed.

Lemma own_before hl hl' p l :
  pm_go_ok hl -> kept hl hl' -> p ∈ pm_go hl -> pm_heap hl' !! p = Some l ->
  exists l0, pm_heap hl !! p = Some l0 /\ l_master l = l_master l0.
Proof using Type.
  intros Hok [Hk _] Hp Hl. unfold pm_go_ok in Hok. rewrite Forall_forall in Hok.
  destruct (lookup_lt_is_Some_2 _ _ (Hok p Hp)) as [l0 Hl0]. exists l0. split; [done|].
  destruct (Hk p l0 Hl0) as (l1 & Hl1 & E). by simplify_eq.
Qed.

Lemma at_pc_kept hl hl' pcs lpc : pm_go_ok hl -> kept_go hl hl' -> at_pc hl pcs lpc -> at_pc hl' pcs lpc.
Proof using Type.
  intros Hok Hk [H1 H2]. pose proof (kept_go_kept _ _ Hk) as Hk'. destruct Hk as [_ (new & Hg & Hnew)].
  assert (forall g p l, pm_go hl' !! g = Some p -> pm_heap hl' !! p = Some l -> l_master l = m ->
    pm_go hl !! g = Some p /\ exists l0, pm_heap hl !! p = Some l0 /\ l_master l0 = m) as Hold.
  { intros g p l. rewrite Hg. intros [Hp|[_ Hp]]%lookup_app_Some Hl Hlm.
    - split; [done|]. destruct (own_before hl hl' p l Hok Hk') as (l0 & ? & E); [by eapply list_elem_of_lookup_2|done|].
      exists l0. split; [done|congruence].
    - by destruct (Hnew p l (list_elem_of_lookup_2 _ _ _ Hp) Hl). }
  split.
  - intros g g' p p' l l' Hp Hp' Hl Hl' Hm Hm'. destruct (Hold g p l Hp Hl Hm) as (? & l0 & ? & ?).
    destruct (Hold g' p' l' Hp' Hl' Hm') as (? & l0' & ? & ?). by apply (H1 g g' p p' l0 l0').
  - intros g p l Hp Hl Hm. destruct (Hold g p l Hp Hl Hm) as (? & l0 & ? & ?). by apply (H2 g p l0).
Qed.

Lemma apart_kept_go hl hl' : kept hl hl' -> apart ids m hl hl' -> kept_go hl hl'.
Proof using Type. intros [Hk _] Ha. split; [done|apply Ha]. Qed.

(** A step on the hub that is not the connection's own, or, where [P] holds, that
    removes it. *)
Definition link_move (P : Prop) hl hl' : Prop :=
  (P /\ Link.RemoveAll m hl = Some hl') \/ (others ids m hl hl' /\ kept hl hl').

Lemma link_move_owned P hl hl' : link_move P hl hl' -> owned ids m hl -> owned ids m hl' /\ kept_go hl hl'.
Proof using Type.
  intros [[_ H]|[H Hk]] Ho.
  - split; [by eapply owned_RemoveAll|]. pose proof (kept_RemoveAll _ _ _ H) as [Hk _].
    destruct (RemoveAll_inv _ _ _ H) as [HR _]. split; [done|]. exists []. rewrite app_nil_r, (proj1 HR).
    split; [done|]. by intros ? ? ?%not_elem_of_nil.
  - destruct (H Ho) as [Ho' Ha]. split; [done|by apply apart_kept_go].
Qed.

Lemma queues_kept_refl qq hq (ws : nat -> option webSocketWriter) : queues_kept m qq hq ws hq ws.
Proof. split_and!; [done..|]. intros w x Hx. by exists x. Qed.

(** The sender's side and the websockets, as others leave them. *)
Lemma follows_wires qq name hq ws qpc t hl lpc inp hq' ws' t' pcs s dl :
  queues_kept m qq hq ws hq' ws' -> items_kept ids t t' ->
  follows qq name (mkDir hq ws qpc t hl lpc inp) pcs s dl -> follows qq name (mkDir hq' ws' qpc t' hl lpc inp) pcs s dl.
Proof using Hnd Hhead.
  intros Hq Ht Hf. pose proof (follows_pc _ _ _ _ _ _ Hf) as Hpc. destruct Hf as [Ho Hp Ha Hpa]. simpl in *.
  split; simpl; try done. eapply (passage_other ids m addr Hnd Hhead); eauto using apart_refl.
Qed.

Lemma follows_move1 P qq name hq ws qpc t hl lpc inp hl' pcs s dl :
  link_move P hl hl' -> (P -> s = true) -> follows qq name (mkDir hq ws qpc t hl lpc inp) pcs s dl ->
  exists dl', (dl' = dl \/ (P /\ dl' = true)) /\ follows qq name (mkDir hq ws qpc t hl' lpc inp) pcs s dl'.
Proof using Hnd Hhead.
  intros Hmv Hs Hf. pose proof (follows_pc _ _ _ _ _ _ Hf) as Hpc. destruct Hf as [Ho Hp Ha Hpa]. simpl in *.
  destruct (link_move_owned _ _ _ Hmv Ho) as [Ho' Hk].
  assert (forall dl', passage ids m addr qq name (mkDir hq ws qpc t hl' lpc inp) s dl' ->
    follows qq name (mkDir hq ws qpc t hl' lpc inp) pcs s dl') as Hx.
  { intros dl' Hpa'. split; simpl; [done| | |done].
    - eapply pcs_ok_kept; [apply Ho|by apply kept_go_kept|done].
    - eapply at_pc_kept; [apply Ho|done|done]. }
  destruct Hmv as [[HP Hrm]|[Hot _]].
  - pose proof (Hs HP) as ->. exists true. split; [by right|].
    apply Hx. by apply (passage_remove ids m addr Hnd Hhead qq name hq ws qpc t hl lpc inp hl' dl).
  - destruct (Hot Ho) as [_ Hap]. exists dl. split; [by left|]. apply Hx.
    apply (passage_other ids m addr Hnd Hhead qq name hq ws qpc t hl); try done. apply queues_kept_refl.
Qed.

Lemma follows_moves P qq name hq ws qpc t hl lpc inp hl' pcs s dl :
  rtc (link_move P) hl hl' -> (P -> s = true) -> follows qq name (mkDir hq ws qpc t hl lpc inp) pcs s dl ->
  exists dl', (dl' = dl \/ (P /\ dl' = true)) /\ follows qq name (mkDir hq ws qpc t hl' lpc inp) pcs s dl'.
Proof using Hnd Hhead.
  intros Hr Hs. revert dl. induction Hr as [h|h h1 h' Hmv Hr IH]; intros dl Hf; [exists dl; split; [by left|done]|].
  destruct (follows_move1 _ _ _ _ _ _ _ _ _ _ _ _ _ _ Hmv Hs Hf) as (dl1 & H1 & Hf1).
  destruct (IH dl1 Hf1) as (dl2 & H2 & Hf2). exists dl2. split; [|done]. naive_solver.
Qed.

(** ** The connection's own steps *)

Lemma at_pc_started hl hl' pcs lpc :
  pm_go_ok hl -> kept hl hl' -> pcs_ok ids m hl pcs -> started m hl hl' lpc -> at_pc hl pcs lpc -> at_pc hl' pcs lpc.
Proof using Type.
  intros Hok Hk Hpcs [Hg|(me & Hg & -> & Hw)] Ha.
  { eapply at_pc_kept; [done| |done]. split; [apply Hk|]. exists []. rewrite app_nil_r. split; [done|].
    by intros ? ? ?%not_elem_of_nil. }
  assert (forall g p l, pm_go hl' !! g = Some p -> pm_heap hl' !! p = Some l -> l_master l = m -> g = length (pm_go hl)) as Hlast.
  { intros g p l. rewrite Hg. intros [Hp|[Hge Hp]]%lookup_app_Some Hl Hlm.
    - destruct (own_before hl hl' p l Hok Hk) as (l0 & Hl0 & E); [by eapply list_elem_of_lookup_2|done|].
      exfalso. apply (Hw p l0); [by eapply list_elem_of_lookup_2|done|congruence].
    - apply list_lookup_singleton_Some in Hp as [? _]. lia. }
  split.
  - intros g g' p p' l l' Hp Hp' Hl Hl' Hm Hm'. by rewrite (Hlast g p l), (Hlast g' p' l').
  - intros g p l Hp Hl Hm. rewrite (Hlast g p l) by done. unfold pc_at.
    destruct (pcs !! length (pm_go hl)) eqn:E; [|done]. apply mk_is_Some, (po_new _ _ _ _ Hpcs) in E. lia.
Qed.

Lemma follows_started qq name d d' pcs s dl s' dl' :
  follows qq name d pcs s dl -> d_lpc d' = d_lpc d -> owned ids m (d_links d') -> kept (d_links d) (d_links d') ->
  passage ids m addr qq name d' s' dl' -> started m (d_links d) (d_links d') (d_lpc d) -> follows qq name d' pcs s' dl'.
Proof using Type.
  intros [Ho Hp Ha _] El Ho' Hk Hpa Hst. split; [done| | |done].
  - eapply pcs_ok_kept; [apply Ho|done|done].
  - rewrite El. eapply at_pc_started; [apply Ho|done..].
Qed.

Lemma follows_hello qq name now hq ws qpc t hl lpc inp k id rest pcs s dl :
  ids !! k = Some id -> wire t k = hello_json m id :: rest ->
  follows qq name (mkDir hq ws qpc t hl lpc inp) pcs s dl ->
  follows qq name (mkDir hq ws qpc (<[k := rest]> t) (Link.Add now id m hl) lpc inp) pcs s dl.
Proof using Hnd Hhead.
  intros Hk Hw Hf. pose proof Hf as [Ho _ _ Hpa]. simpl in *.
  destruct (passage_hello ids m addr Hnd Hhead _ _ now _ _ _ _ _ _ _ _ _ _ _ _ Hk Hw Ho Hpa) as [Hpa' Hst].
  assert (id ∈ ids) as Hid by by eapply list_elem_of_lookup_2.
  destruct (own_hs_step ids m Hhead now hl (Link.HAdd id)) as [Ho' Hk']; [by intros ? [= <-]|done|].
  by eapply follows_started.
Qed.

Lemma follows_est qq name now hq ws qpc t hl lpc inp rest pcs s dl :
  wire t 0 = est_json ids m addr :: rest -> follows qq name (mkDir hq ws qpc t hl lpc inp) pcs s dl ->
  s = false /\ dl = false /\
  follows qq name (mkDir hq ws qpc (<[0 := rest]> t) (Link.hub_SetSort now m ids hl) lpc inp) pcs true false.
Proof using Hnd Hhead.
  intros Hw Hf. pose proof Hf as [Ho _ _ Hpa]. simpl in *.
  destruct (passage_est ids m addr Hnd Hhead _ _ now _ _ _ _ _ _ _ _ _ _ Hw Ho Hpa) as (-> & -> & Hpa' & Hst).
  destruct (own_hs_step ids m Hhead now hl Link.HSort) as [Ho' Hk']; [done|done|].
  split; [done|]. split; [done|]. by eapply follows_started.
Qed.

Lemma follows_dial qq name hq ws qpc t hl lpc inp c pcs :
  unused c -> follows qq name (mkDir hq ws qpc t hl lpc inp) pcs true false ->
  follows qq name (mkDir hq ws qpc t (fst (Link.TrySend m (Some c) hl)) lpc inp) pcs true true.
Proof using Hnd Hhead.
  intros Hc Hf. pose proof Hf as [Ho _ _ Hpa]. simpl in *.
  destruct (passage_dial ids m addr Hnd Hhead _ _ _ _ _ _ _ _ _ _ Hc Ho Hpa) as [Hpa' Hst].
  destruct (own_hs_step ids m Hhead 0 hl (Link.HTry c)) as [Ho' Hk']; [done|done|]. by eapply follows_started.
Qed.

Lemma follows_chunk qq name hq ws qpc t hl lpc inp id v rest b hl' pcs s dl :
  id ∈ ids -> wire t (ws_index ids id) = v :: rest -> chunk_of id v = Some b -> delivers hl id b hl' ->
  follows qq name (mkDir hq ws qpc t hl lpc inp) pcs s dl ->
  follows qq name (mkDir hq ws qpc (<[ws_index ids id := rest]> t) hl' lpc inp) pcs s dl.
Proof using Hnd Hhead.
  intros Hid Hw Hv Hdl Hf. pose proof Hf as [Ho _ _ Hpa]. simpl in *.
  pose proof (passage_chunk ids m addr Hnd Hhead _ _ _ _ _ _ _ _ _ _ _ _ _ _ _ _ Hid Hw Hv Hdl Hpa) as Hpa'.
  assert (owned ids m hl' /\ kept hl hl' /\ pm_go hl' = pm_go hl) as (Ho' & Hk & Hg).
  { destruct Hdl as [p l c Hp Hl _ Hc| |]; [|split_and!; [done|apply kept_refl|done]..].
    split_and!; [|by apply kept_update|done]. apply owned_update; [|done]. intros l' Hl'. split_and!; [done| |done].
    simpl. apply chan_send_inv in Hc as (E1 & -> & _). rewrite <- E1. congruence. }
  eapply follows_started; [exact Hf|done..|by left].
Qed.

(** A step of a [Send]. *)
Lemma follows_send qq name hq ws qpc t hl lpc inp g p ev hl' pc' pcs s dl :
  pm_go hl !! g = Some p -> ev <> Link.EvConn ConnPanic -> Link.Send_step p hl (pc_at pcs g) ev = Some (hl', pc') ->
  follows qq name (mkDir hq ws qpc t hl lpc inp) pcs s dl ->
  exists lpc', follows qq name (mkDir hq ws qpc t hl' lpc' inp) (<[g := pc']> pcs) s dl.
Proof using Hnd Hhead.
  intros Hg Hev H Hf. pose proof (follows_pc _ _ _ _ _ _ Hf) as Hpc. destruct Hf as [Ho Hp Ha Hpa]. simpl in *.
  assert (exists l, pm_heap hl !! p = Some l) as [l Hl].
  { unfold Link.Send_step in H. destruct (pm_heap hl !! p) as [l|]; [by exists l|done]. }
  pose proof (kept_Send _ _ _ _ _ _ H) as Hk. destruct (l_send_still _ _ _ _ _ _ H) as [[Egg _] _].
  assert (kept_go hl hl') as Hkg.
  { split; [apply Hk|]. exists []. rewrite app_nil_r. split; [done|]. by intros ? ? ?%not_elem_of_nil. }
  assert (p ∈ pm_go hl) as Hin by (by eapply list_elem_of_lookup_2).
  pose proof (at_pc_kept _ _ _ _ (ow_go _ _ _ Ho) Hkg Ha) as Ha'.
  assert (forall l', pm_heap hl' !! p = Some l' -> l_master l' = l_master l) as Hml.
  { intros l' Hl'. destruct Hk as [Hk _]. destruct (Hk p l Hl) as (? & ? & ?). by simplify_eq. }
  assert (pcs_ok ids m hl' (<[g := pc']> pcs)) as Hp'.
  { eapply pcs_ok_step; [exact Ho|done|done| |done|done]. intros Hlm.
    destruct (passage_started ids m addr _ _ _ _ _ p l Hpa Hin Hl Hlm) as [Hr _].
    rewrite (runs_sorted ids m _ _ _ _ l Hr Hl). by apply Forall_forall. }
  destruct (decide (l_master l = m)) as [Hlm|Hlm].
  - exists pc'. rewrite (at_at _ _ _ Ha g p l Hg Hl Hlm) in H. split; simpl; [by eapply owned_Send|done| |].
    + destruct Ha' as [H1 _]. split; [done|]. intros g' p' l' Hg' Hl' Hm'.
      destruct (lookup_lt_is_Some_2 (pm_heap hl') p) as [lp Hlp].
      { apply lookup_lt_is_Some. destruct Hk as [Hk _]. destruct (Hk p l Hl) as (? & ? & _). by eexists. }
      assert (g' = g) as ->.
      { eapply (H1 g' g p' p l' lp); try done; [by rewrite Egg|]. by rewrite (Hml lp Hlp). }
      unfold pc_at. by rewrite lookup_insert_eq.
    + by eapply (passage_link ids m addr Hhead).
  - exists lpc. destruct (others_Send ids m p l hl (pc_at pcs g) ev hl' pc' H Hl Hlm) as [Ho' Hap]; [by eapply po_others|done|].
    split; simpl; [done|done| |].
    + destruct Ha' as [H1 H2]. split; [done|]. intros g' p' l' Hg' Hl' Hm'. unfold pc_at.
      rewrite lookup_insert_ne; [by eapply H2|]. intros <-. rewrite Egg, Hg in Hg'. simplify_eq.
      apply Hlm. by rewrite <- (Hml l').
    + apply (passage_other ids m addr Hnd Hhead qq name hq ws qpc t hl); try done. apply queues_kept_refl.
Qed.

Lemma follows_out qq name d pcs s dl p l :
  follows qq name d pcs s dl -> p ∈ pm_go (d_links d) -> pm_heap (d_links d) !! p = Some l -> l_master l = m ->
  written_out (d_in d) l.
Proof using Type. intros [_ _ _ Hpa]. by eapply (passage_out ids m addr). Qed.

(** The client's side. *)
Lemma follows_client qq name d d' pcs s dl : dir_send m qq d d' -> follows qq name d pcs s dl -> follows qq name d' pcs s dl.
Proof using Hnd Hhead.
  intros Hs [Ho Hp Ha Hpa]. pose proof (passage_send ids m addr Hnd Hhead _ _ _ _ _ _ Hs Hpa) as Hpa'.
  destruct Hs; by split.
Qed.

Lemma follows_swap qq name hq ws q qq' name' hq' ws' q' t hl lpc pcs s dl :
  side_new ids m qq name hq ws q -> side_new ids m qq' name' hq' ws' q' ->
  follows qq name (mkDir hq ws Queue.PEnter t hl lpc []) pcs s dl ->
  follows qq' name' (mkDir hq' ws' Queue.PEnter t hl lpc []) pcs s dl.
Proof using Type. intros Hn Hn' [Ho Hp Ha Hpa]. split; [done..|]. by apply (passage_swap ids m addr qq name hq ws q qq' name' hq' ws' q'). Qed.
End follow.
