(* ===== verification/ServerOwner.v ===== *)
(** What the server does to the links of one connection (wss/proxy_server.go,
    wss/hub.go), and to the objects that establish it: every step but those of the
    connection itself is one for others ([link_move] of Follow.v), or removes the
    connection. *)
From S2P Require Import Prelude GoChan Pipe RoundRobin PtrMap Queue QueueHub Link Starts Sends Striping Base64 Json.
From S2P Require Import Messages Hub Server Handshake Client Wire Direction Session Upstream ClientProc ClientTable ClientSafe.
From S2P Require Import ClientRun Typing LinkOwner Passage Follow.

Section server_owner.
Context {K : Ksuid} `{!KsuidText K}.
Context (ids : list KSUID) (m : KSUID).
Implicit Types (st : server) (e : est) (id mm : KSUID) (h : LinkHub).

Definition moves (P : Prop) : LinkHub -> LinkHub -> Prop := rtc (link_move ids m P).

(** An ID whose connection may be removed: not its own, or its master, once [P]
    holds. *)
Definition good_id (P : Prop) id : Prop := id ∈ ids -> id = m /\ P.

(** The object can still call [TrySend]. *)
Definition before_try (pc : est_pc) : Prop :=
  match pc with ECheck | EDial | ETryLink _ => True | _ => False end.

(** The object of the connection: there is one once the establish message has
    been read ([sorted]), and it calls [TrySend] once. *)
Record ests_ok st (sorted dialled : bool) : Prop := {
  eo_id p e : sv_ests st !! p = Some e -> es_id e ∈ ids -> es_id e = m /\ sorted = true;
  eo_try p e : sv_ests st !! p = Some e -> es_id e = m -> before_try (es_pc e) -> dialled = false;
  eo_one p p' e e' : sv_ests st !! p = Some e -> sv_ests st !! p' = Some e' -> es_id e = m -> es_id e' = m -> p = p';
  eo_conn p e c : sv_ests st !! p = Some e -> es_id e = m -> es_pc e = ETryLink c -> unused c;
}.

(** The call of [TrySend] is over. *)
Definition past st : Prop := exists p e, sv_ests st !! p = Some e /\ es_id e = m /\ ~ before_try (es_pc e).

(** The objects keep their program points, and new ones are of others. *)
Definition ests_same st st' : Prop :=
  forall p e', sv_ests st' !! p = Some e' ->
    (exists e, sv_ests st !! p = Some e /\ es_id e' = es_id e /\ es_pc e' = es_pc e) \/ es_id e' ∉ ids.

(** None of them goes away. *)
Definition ests_kept st st' : Prop :=
  forall p e, sv_ests st !! p = Some e -> exists e', sv_ests st' !! p = Some e' /\ es_id e' = es_id e.

Lemma ests_kept_eq st st' : sv_ests st' = sv_ests st -> ests_kept st st'.
Proof. intros E p e. rewrite E. eauto. Qed.

Lemma ests_kept_set p f st : (forall e, es_id (f e) = es_id e) -> ests_kept st (set_est p f st).
Proof.
  intros Hf p' e He. simpl. destruct (decide (p = p')) as [<-|Hne].
  - rewrite list_lookup_alter_eq, He. by eexists.
  - rewrite list_lookup_alter_ne by done. by exists e.
Qed.

Lemma ests_kept_trans st st1 st' : ests_kept st st1 -> ests_kept st1 st' -> ests_kept st st'.
Proof. intros H1 H2 p e (e1 & He1 & E1)%H1. destruct (H2 p e1 He1) as (e2 & ? & E2). exists e2. split; [done|congruence]. Qed.

Lemma ests_same_refl st : ests_same st st.
Proof. intros p e He. left. by exists e. Qed.

Lemma ests_same_eq st st' : sv_ests st' = sv_ests st -> ests_same st st'.
Proof. intros E p e. rewrite E. intros He. left. by exists e. Qed.

Lemma ests_same_trans st st1 st' : ests_same st st1 -> ests_same st1 st' -> ests_same st st'.
Proof.
  intros H1 H2 p e' [(e1 & He1 & Ei & Ep)|Hn]%H2; [|by right].
  apply H1 in He1 as [(e & He & Ei' & Ep')|Hn]; [left|right; by rewrite Ei]. exists e. split_and!; congruence.
Qed.

Lemma ests_same_set p f st :
  (forall e, es_id (f e) = es_id e /\ es_pc (f e) = es_pc e) -> ests_same st (set_est p f st).
Proof.
  intros Hf p' e'. simpl. destruct (decide (p = p')) as [<-|Hne].
  - rewrite list_lookup_alter_eq. destruct (sv_ests st !! p) as [e|]; [|done]. intros [= <-]. left. exists e. split; [done|apply Hf].
  - rewrite list_lookup_alter_ne by done. intros He. left. by exists e'.
Qed.

Context (Hm : m ∈ ids).

Lemma ests_ok_same st st' s dl : ests_same st st' -> ests_ok st s dl -> ests_ok st' s dl.
Proof using Hm.
  intros Hs [H1 H2 H3 H4]. split.
  - intros p e' [(e & He & -> & _)|Hn]%Hs; [by apply (H1 p)|done].
  - intros p e' [(e & He & -> & ->)|Hn]%Hs; [by apply (H2 p)|]. intros Ei. by rewrite Ei in Hn.
  - intros p p' e1 e2 [(e & He & -> & _)|Hn]%Hs [(e' & He' & -> & _)|Hn']%Hs; [by eapply H3|..];
      intros Ei Ei'; by rewrite ?Ei, ?Ei' in *.
  - intros p e' c [(e & He & -> & ->)|Hn]%Hs; [by apply (H4 p)|]. intros Ei. by rewrite Ei in Hn.
Qed.

Lemma past_ok st s dl : ests_ok st s dl -> past st -> s = true /\ ests_ok st s true.
Proof using Hm.
  intros [H1 H2 H3 H4] (p & e & He & Ei & Hb). split; [apply (H1 p e He); by rewrite Ei|]. split; [done| |done|done].
  intros p' e' He' Ei' Hb'. assert (p' = p) as -> by (by eapply H3). rewrite He in He'. injection He' as <-. by destruct Hb.
Qed.

(** ** What a step for others is made of *)

Section foreign.
Context (P : Prop).
Abbreviation good_id := (good_id P).

(** One operation on the server's state that is not for the connection, or, where
    [P] holds, that removes it. *)
Inductive foreign st : server -> Prop :=
  | fg_hello now hp mm id :
      mm ∉ ids -> id ∉ ids ->
      foreign st (set_links (Link.Add now id mm (serverLinkHub st))
        (set_queues (QueueHub.Add now mm id (NewWebSocketWriter hp id) (serverQueueHub st)) st))
  | fg_est now hp mm sort addr data :
      mm ∉ ids -> none_of ids sort ->
      foreign st (go_establish hp mm addr data (set_links (Link.hub_SetSort now mm sort (serverLinkHub st))
        (set_queues (QueueHub.hub_SetSort now mm sort (serverQueueHub st)) st)))
  | fg_write id p l l' we b r :
      id ∉ ids -> Link.Get id (serverLinkHub st) = Some p -> pm_heap (serverLinkHub st) !! p = Some l ->
      Link.we_ops we = [] -> Link.writeBuf we l b = Some (l', r) ->
      foreign st (set_links (pm_update p (fun _ => l') (serverLinkHub st)) st)
  | fg_put p l b c :
      pm_heap (serverLinkHub st) !! p = Some l -> l_master l <> m -> chan_send (l_buffer l) b = SendOk c ->
      foreign st (set_links (pm_update p (set_l_buffer c) (serverLinkHub st)) st)
  | fg_close p id st' : good_id id -> est_Close p id st = Some st' -> foreign st st'
  | fg_same st' :
      serverLinkHub st' = serverLinkHub st -> serverQueueHub st' = serverQueueHub st -> ests_same st st' -> ests_kept st st' ->
      foreign st st'.

Definition foreigns : server -> server -> Prop := rtc foreign.

Lemma foreigns_once st st' : foreign st st' -> foreigns st st'.
Proof. apply rtc_once. Qed.

Lemma foreigns_same st st' :
  serverLinkHub st' = serverLinkHub st -> serverQueueHub st' = serverQueueHub st -> ests_same st st' -> ests_kept st st' ->
  foreigns st st'.
Proof. intros. by apply foreigns_once, fg_same. Qed.

Lemma foreigns_refl st : foreigns st st.
Proof. done. Qed.

(** *** Closing *)

(** The connections in the pools. *)
Definition pools_good st : Prop :=
  forall hp (hb : Hub) id, sv_hubs st !! hp = Some hb -> is_Some (connPool hb !! id) -> good_id id.

Lemma CloseProxyConn_foreign hp id st st' : pools_good st -> CloseProxyConn hp id st = Some st' -> foreigns st st'.
Proof using Type.
  unfold CloseProxyConn, GetProxyById. intros Hg H. destruct (sv_hubs st !! hp) as [h|] eqn:Hh; simpl in H; [|by simplify_eq].
  destruct (connPool h !! id) as [proxy|] eqn:Hp; [|by simplify_eq]. eapply foreigns_once, fg_close; [|exact H]. by eapply Hg.
Qed.

Lemma est_Close_hubs p id st st' : est_Close p id st = Some st' -> sv_hubs st' = sv_hubs st.
Proof using Type.
  intros H. unfold est_Close in H. destruct (sv_ests st !! p); [|done]. case_decide; [by simplify_eq|].
  destruct (Link.RemoveAll id _) as [l|]; simpl in H; [|done]. by destruct (QueueHub.Remove id _) as [q|]; simplify_eq/=.
Qed.

Lemma hub_Close_foreign hp order st st' : pools_good st -> hub_Close hp order st = Some st' -> foreigns st st'.
Proof using Type.
  revert st. induction order as [|id order IH]; intros st Hg H; simpl in H; [by simplify_eq|].
  unfold GetProxyById in H. destruct (sv_hubs st !! hp) as [h|] eqn:Hh; simpl in H; [|by apply IH].
  destruct (connPool h !! id) as [proxy|] eqn:Hp; [|by apply IH].
  destruct (est_Close (ps_ProxyIns proxy) id st) as [st1|] eqn:E; simpl in H; [|done].
  pose proof (est_Close_hubs _ _ _ _ E) as E1.
  eapply rtc_l; [by eapply fg_close; [eapply Hg|]|]. eapply rtc_l; [|eapply IH; [|exact H]]; [by apply fg_same; [..|apply ests_same_eq|apply ests_kept_eq]|].
  intros hp' h' id' Hh'. simpl in Hh'. rewrite E1 in Hh'. destruct (decide (hp = hp')) as [<-|Hne].
  - rewrite list_lookup_alter_eq, Hh in Hh'. injection Hh' as <-. simpl. intros [x Hx].
    apply lookup_delete_Some in Hx as [_ Hx]. by eapply Hg.
  - rewrite list_lookup_alter_ne in Hh' by done. by eapply Hg.
Qed.

(** *** Dispatching *)

(** A message of another client, which does not know the IDs. *)
Definition names_none (data : option json) : Prop :=
  forall v msg id, data = Some v -> unmarshal_message v = Some msg -> ksuid_Parse (m_Id msg) = Some id ->
    (id ∉ ids) /\
    (forall mm, unmarshal_raw unmarshal_id (m_Data msg) = Some mm -> m_Type msg = WsTpHi -> mm ∉ ids) /\
    (forall em, unmarshal_raw unmarshal_est (m_Data msg) = Some em -> m_Type msg = WsTpEst -> none_of ids (default [] (e_Sorted em))).

Lemma dispatchData_foreign now we hp data st st' err :
  pools_good st -> Link.we_ops we = [] -> names_none data ->
  dispatchDataMessage now we hp data st = Finished (st', err) -> foreigns st st'.
Proof using Hm.
  intros Hg Hops Hn H. unfold dispatchDataMessage in H. pose proof (foreigns_refl st) as Hid.
  destruct data as [v|]; [|by simplify_eq/=]. cbn [unmarshal_raw] in H.
  destruct (unmarshal_message v) as [msg|] eqn:Em; [|by simplify_eq].
  destruct (ksuid_Parse (m_Id msg)) as [id|] eqn:Ei; [|by simplify_eq].
  destruct (Hn v msg id eq_refl Em Ei) as (Hout & Hhi & Hest).
  destruct (String.eqb (m_Type msg) WsTpBeats); [by simplify_eq|].
  destruct (String.eqb (m_Type msg) WsTpClose).
  { destruct (CloseProxyConn hp id st) as [st1|] eqn:E; simplify_eq. by eapply CloseProxyConn_foreign. }
  destruct (String.eqb_spec (m_Type msg) WsTpHi) as [Et|_].
  { unfold dispatch_hi in H. destruct (unmarshal_raw unmarshal_id (m_Data msg)) as [mm|]; simplify_eq; [|done].
    apply foreigns_once, fg_hello; [by apply Hhi|done]. }
  destruct (String.eqb_spec (m_Type msg) WsTpEst) as [Et|_].
  { unfold dispatch_est in H. destruct (unmarshal_raw unmarshal_est (m_Data msg)) as [em|]; simplify_eq; [|done].
    case_match; simplify_eq; [|done]. apply foreigns_once, fg_est; [done|by apply Hest]. }
  destruct (String.eqb (m_Type msg) WsTpData); [|by simplify_eq].
  unfold dispatch_data in H. destruct (unmarshal_raw unmarshal_data (m_Data msg)) as [d|]; [|by simplify_eq].
  destruct (Link.Get id _) as [p|] eqn:Hp; [|by simplify_eq]. destruct (pm_heap _ !! p) as [l|] eqn:Hl; [|by simplify_eq].
  unfold Link.WriteEOF, Link.Write in H.
  repeat case_match; simplify_eq; try done; by eapply foreigns_once, fg_write.
Qed.

(** *** The other steps *)

(** What the connection relies on of the steps of the server that are not for it:
    other clients do not know its IDs. *)
Definition not_ours (ev : sv_event) st : Prop :=
  match ev with
  | XHttp _ _ (HRead _) (HEvRead MessageText data err _) => ~ (err <> None /\ err <> Some EOF) -> names_none data
  | XLinkWrite p _ => forall l, pm_heap (serverLinkHub st) !! p = Some l -> l_master l <> m
  | XLinkSend _ _ _ => False
  | _ => True
  end.

Lemma ServeHTTP_foreign config now pc ev st st' pc' out :
  pools_good st -> ev_at_once ev -> not_ours (XHttp config now pc ev) st ->
  ServeHTTP_step config now pc ev st = Finished (st', pc', out) -> foreigns st st'.
Proof using Hm.
  intros Hg Hops Hn H. pose proof (foreigns_refl st) as Hid.
  destruct pc as [| | | |hp|hp|hp| |], ev as [key|[err|]|[err|]|id|mt d err we|ord|]; simpl in H; try done; try (by simplify_eq).
  - by case_match; simplify_eq.
  - simplify_eq. by apply foreigns_same; [..|apply ests_same_eq|apply ests_kept_eq].
  - case_bool_decide as Hb; [by simplify_eq|]. destruct mt; simpl in H; [by simplify_eq| |by simplify_eq].
    destruct (dispatchDataMessage now we hp d st) as [[st1 e]| |] eqn:E; simplify_eq.
    by eapply dispatchData_foreign; [..|exact E]; [done|done|apply Hn].
  - destruct (hub_Close hp ord st) as [st1|] eqn:E; simplify_eq. by eapply hub_Close_foreign.
  - destruct (sv_hubs st !! hp); simplify_eq. unfold hc_RemoveProxy. case_match; by apply foreigns_same; [..|apply ests_same_eq|apply ests_kept_eq].
Qed.

Lemma watch_foreign p ev st st' : watch_step p ev st = Some st' -> foreigns st st'.
Proof using Type.
  intros H. unfold watch_step in H. destruct (sv_ests st !! p) as [e|]; [|done]. simpl in H.
  assert (forall f, (forall e, es_id (f e) = es_id e /\ es_pc (f e) = es_pc e) -> foreigns st (set_est p f st)) as Hw.
  { intros f Hf. apply foreigns_same; [done..|by apply ests_same_set|]. apply ests_kept_set. intros e0. apply Hf. }
  destruct (es_watch e) as [| |[l|]| |], ev; try done; simplify_eq; try (by apply Hw).
  destruct (pm_heap (serverLinkHub st) !! l); [|done]. simpl in H. destruct (done_ready _ _); simplify_eq. by apply Hw.
Qed.

Lemma sv_exec_foreign ev st st' :
  pools_good st -> not_ours ev st ->
  match ev with XEst _ _ | XQueueSend _ _ _ | XQueueWrite _ _ => False | _ => True end -> sv_exec ev st = Some st' ->
  foreigns st st'.
Proof using Hm.
  intros Hg Hn Hel H. destruct ev as [config now pc hev|p e|p e|p b|p pc e|p b|me pc e]; simpl in H; try done.
  - case_decide; [|done]. destruct (ServeHTTP_step config now pc hev st) as [[[st1 pc1] o]| |] eqn:E; simplify_eq.
    by eapply ServeHTTP_foreign.
  - by eapply watch_foreign.
  - destruct (pm_heap _ !! p) as [l|] eqn:Hl; [|done]. simpl in H. destruct (chan_send _ b) as [c| |] eqn:Hc; simplify_eq.
    eapply foreigns_once, fg_put; [done|by apply Hn|done].
Qed.

(** ** What it does to the links *)

Abbreviation moves := (moves P).

Lemma moves_others h h' : others ids m h h' -> kept h h' -> moves h h'.
Proof. intros H Hk. apply rtc_once. by right. Qed.

Lemma moves_refl h : moves h h.
Proof. done. Qed.

Lemma moves_TrySend mm conn h : mm ∉ ids -> moves h (fst (Link.TrySend mm conn h)).
Proof. intros Hmm. apply moves_others; [by apply others_trySend|apply kept_trySend]. Qed.

Lemma moves_RemoveAll id h h' : good_id id -> Link.RemoveAll id h = Some h' -> moves h h'.
Proof.
  intros Hid H. destruct (decide (id ∈ ids)) as [Hin|Hout].
  - destruct (Hid Hin) as [-> HP]. apply rtc_once. by left.
  - apply moves_others; [by eapply others_RemoveAll|by eapply kept_RemoveAll].
Qed.

Lemma est_Close_moves p id st st' :
  good_id id -> est_Close p id st = Some st' -> moves (serverLinkHub st) (serverLinkHub st') /\ ests_same st st'.
Proof using Type.
  intros Hid H. unfold est_Close in H. destruct (sv_ests st !! p); [|done].
  case_decide; [simplify_eq; split; [apply moves_refl|apply ests_same_refl]|].
  destruct (Link.RemoveAll id _) as [l|] eqn:E; simpl in H; [|done]. destruct (QueueHub.Remove id _) as [q|]; simplify_eq/=.
  split; [by eapply moves_RemoveAll|by apply ests_same_set].
Qed.

Lemma go_establish_same hp id addr data st st' :
  id ∉ ids -> sv_ests st' = sv_ests st -> ests_same st (go_establish hp id addr data st').
Proof using Type.
  intros Hid E p e. simpl. rewrite E. intros [He|[_ He]]%lookup_app_Some; [left; by exists e|right].
  by apply list_lookup_singleton_Some in He as [_ <-].
Qed.

(** The objects are the same ones. *)
Definition est_ids st : list KSUID := es_id <$> sv_ests st.

Lemma est_ids_kept st st' : est_ids st' = est_ids st -> ests_kept st st'.
Proof using Type.
  intros E p e He. assert (est_ids st' !! p = Some (es_id e)) as H by (rewrite E; unfold est_ids; by rewrite list_lookup_fmap, He).
  unfold est_ids in H. rewrite list_lookup_fmap in H. destruct (sv_ests st' !! p) as [e'|]; [|done].
  injection H as H. by exists e'.
Qed.

Lemma est_ids_set p f st : (forall e, es_id (f e) = es_id e) -> est_ids (set_est p f st) = est_ids st.
Proof using Type. intros Hf. unfold est_ids. simpl. rewrite (list_fmap_alter es_id f id) by (by apply Forall_true). by apply list_alter_id. Qed.

Lemma est_Close_ids p id st st' : est_Close p id st = Some st' -> est_ids st' = est_ids st.
Proof using Type.
  intros H. unfold est_Close in H. destruct (sv_ests st !! p); [|done]. case_decide; [by simplify_eq|].
  destruct (Link.RemoveAll id _) as [l|]; simpl in H; [|done]. destruct (QueueHub.Remove id _) as [q|]; simplify_eq/=.
  by apply est_ids_set.
Qed.

Lemma foreigns_kept st st' : foreigns st st' -> ests_kept st st'.
Proof using Type.
  induction 1 as [|st st1 st' H _ IH]; [by apply ests_kept_eq|]. eapply ests_kept_trans; [|exact IH].
  destruct H; try (by apply ests_kept_eq); [|by eapply est_ids_kept, est_Close_ids|done].
  intros p e He. exists e. split; [by apply lookup_app_l_Some|done].
Qed.

Lemma foreign_moves st st' :
  owned ids m (serverLinkHub st) -> foreign st st' -> moves (serverLinkHub st) (serverLinkHub st') /\ ests_same st st'.
Proof using Hm.
  intros Ho Hf. destruct Hf as [now hp mm id Hmm Hid|now hp mm sort a d Hmm Hs|id p l l' we b r Hid Hp Hl Hops Hw
    |p l b c Hl Hne Hc|p id st' Hid H|st' E _ Hs _].
  - split; [|by apply ests_same_eq]. apply moves_others; [|apply kept_Add]. apply others_Add; [by intros ->|done..].
  - split; [|by apply go_establish_same]. apply moves_others; [|apply kept_SetSort]. apply others_SetSort; [by intros ->|done..].
  - split; [|by apply ests_same_eq]. destruct (others_write ids m id p l l' we b r _ Ho Hid Hp Hl Hops Hw). by apply moves_others.
  - split; [|by apply ests_same_eq]. apply chan_send_inv in Hc as (E & Ec & _).
    destruct (others_put ids m p l (set_l_buffer c) (serverLinkHub st) Hl Hne) as [H1 H2]; simpl; [done|done|congruence|by apply moves_others].
  - by eapply est_Close_moves.
  - rewrite E. by split; [apply moves_refl|].
Qed.

Lemma moves_owned h h' : moves h h' -> owned ids m h -> owned ids m h'.
Proof using Type. induction 1 as [|h h1 h' H _ IH]; [done|]. intros Ho. by apply IH, (link_move_owned ids m _ _ _ H Ho). Qed.

Lemma foreigns_moves st st' :
  owned ids m (serverLinkHub st) -> foreigns st st' -> moves (serverLinkHub st) (serverLinkHub st') /\ ests_same st st'.
Proof using Hm.
  intros Ho Hf. induction Hf as [st|st st1 st' H _ IH]; [by split; [apply moves_refl|apply ests_same_refl]|].
  destruct (foreign_moves _ _ Ho H) as [M1 S1]. destruct IH as [M2 S2]; [by eapply moves_owned|].
  split; [by etrans|by eapply ests_same_trans].
Qed.

Lemma sv_exec_moves ev st st' :
  owned ids m (serverLinkHub st) -> pools_good st -> not_ours ev st ->
  match ev with XEst _ _ | XQueueSend _ _ _ => False | _ => True end -> sv_exec ev st = Some st' ->
  moves (serverLinkHub st) (serverLinkHub st') /\ ests_same st st'.
Proof using Hm.
  intros Ho Hg Hn Hel H. destruct ev as [| | |p b| | |]; try (by eapply foreigns_moves, sv_exec_foreign).
  simpl in H. destruct (pm_heap _ !! p) as [q|]; [|done]. simpl in H. destruct (chan_send _ b); simplify_eq.
  split; [apply moves_refl|by apply ests_same_eq].
Qed.
End foreign.

(** What is in the pools has been dialled. *)
Lemma pools_good_inv st s dl : sv_inv st -> ests_ok st s dl -> pools_good (past st) st.
Proof using Type.
  intros Hinv Hok hp h id Hh [proxy Hp] Hid. destruct (sw_pool _ (si_wf _ Hinv) hp h id proxy Hh Hp) as [_ (e & He & Ei & _)].
  pose proof (si_pool _ Hinv hp h id proxy e Hh Hp He) as Hr. rewrite <- Ei in *.
  destruct (eo_id _ _ _ Hok _ e He Hid) as [Em _]. split; [done|]. eexists _, e. split_and!; [done|done|].
  destruct (es_pc e); simpl in *; tauto.
Qed.

(** ** Establishing *)

Lemma ests_ok_go p f st e s dl :
  sv_ests st !! p = Some e -> es_id (f e) = es_id e -> (before_try (es_pc (f e)) -> before_try (es_pc e)) ->
  (forall c, es_pc (f e) = ETryLink c -> unused c) -> ests_ok st s dl -> ests_ok (set_est p f st) s dl.
Proof using Type.
  intros He Ei Hb Hc [H1 H2 H3 H4].
  assert (forall p' e', sv_ests (set_est p f st) !! p' = Some e' ->
    exists e0, sv_ests st !! p' = Some e0 /\ es_id e' = es_id e0 /\ (before_try (es_pc e') -> before_try (es_pc e0)) /\
      (forall c, es_pc e' = ETryLink c -> es_id e0 = m -> unused c)) as Hx.
  { intros p' e'. simpl. destruct (decide (p = p')) as [<-|Hne].
    - rewrite list_lookup_alter_eq, He. intros [= <-]. exists e. split_and!; auto.
    - rewrite list_lookup_alter_ne by done. intros He'. exists e'. split_and!; eauto. }
  split.
  - intros p' e' (e0 & He0 & -> & _)%Hx. by apply (H1 p').
  - intros p' e' (e0 & He0 & -> & Hb0 & _)%Hx Em Hbt. by eapply (H2 p'); [..|apply Hb0].
  - intros p1 p2 e1 e2 (e0 & He0 & -> & _)%Hx (e0' & He0' & -> & _)%Hx. by eapply H3.
  - intros p' e' c (e0 & He0 & -> & _ & Hc0)%Hx Em Hpc. by apply Hc0.
Qed.

Lemma establish_moves p ev st st' out s dl :
  sv_inv st -> ests_ok st s dl -> (forall c, ev = EvDialed (inr c) -> unused c) ->
  establish_step p ev st = Some (st', out) ->
  (moves (past st) (serverLinkHub st) (serverLinkHub st') /\ forall dl', ests_ok st s dl' -> ests_ok st' s dl') \/
  (exists c, unused c /\ s = true /\ dl = false /\ ests_ok st' true true /\
     serverLinkHub st' = fst (Link.TrySend m (Some c) (serverLinkHub st))).
Proof using Hm.
  intros Hinv Hok Hun H. unfold establish_step in H. destruct (sv_ests st !! p) as [e|] eqn:He; [|done]. simpl in H.
  assert (es_id e ∈ ids -> es_id e = m) as Hgood by (intros Hin; by apply (eo_id _ _ _ Hok p e)).
  assert (forall f st1 dl', sv_ests st1 = sv_ests st -> es_id (f e) = es_id e -> ~ before_try (es_pc (f e)) ->
    ests_ok st s dl' -> ests_ok (set_est p f st1) s dl') as Hgo.
  { intros f st1 dl' E Ei Hnb Hok'. apply (ests_ok_go p f st1 e); [by rewrite E|done|done| |].
    - intros c Ec. by rewrite Ec in Hnb.
    - eapply ests_ok_same; [by apply ests_same_eq|done]. }
  destruct (es_pc e) as [| |conn| | | |[w|]| | | |err|err|] eqn:Hpc, ev as [|[]|[err'|conn']|sig]; try done; simplify_eq;
    try (left; split; [apply moves_refl|intros dl'; apply Hgo; [done|done|by simpl; intros []]]).
  - left. split; [apply moves_refl|]. intros dl'. apply (ests_ok_go p _ st e); try done. intros _. by rewrite Hpc.
  - left. split; [apply moves_refl|]. intros dl'. apply (ests_ok_go p _ st e); try done; [intros _; by rewrite Hpc|].
    intros c [= <-]. by apply Hun.
  - destruct (decide (es_id e = m)) as [Em|Hne].
    + right. exists conn. assert (dl = false) as -> by (apply (eo_try _ _ _ Hok p e He Em); by rewrite Hpc).
      assert (s = true) as -> by (apply (eo_id _ _ _ Hok p e He); by rewrite Em).
      split_and!; [by apply (eo_conn _ _ _ Hok p e)|done|done| |by rewrite Em].
      eapply (past_ok _ true false); [by apply Hgo; [| |intros []|]|]. exists p, (set_watch WGet (set_pc EAddProxy e)). simpl.
      rewrite list_lookup_alter_eq, He. split_and!; [done|done|]. by intros [].
    + left. split; [|intros dl'; by apply Hgo; [| |intros []]].
      apply moves_TrySend. intros Hin. by apply Hne, Hgood.
  - destruct (pm_heap (serverQueueHub st) !! w) as [q|]; [|done]. simpl in H. destruct (done_ready _ _); simplify_eq.
    left. split; [apply moves_refl|intros dl'; by apply Hgo; [| |intros []]].
  - destruct (est_Close p (es_id e) st) as [st1|] eqn:E; simplify_eq/=. left.
    assert (good_id (past st) (es_id e)) as Hg.
    { intros Hin. split; [by apply Hgood|]. exists p, e. split_and!; [done|by apply Hgood|]. rewrite Hpc. by intros []. }
    pose proof (est_Close_moves _ _ _ _ _ Hg E) as [Hmv Hs]. split; [done|]. intros dl' Hok'.
    destruct (est_Close_ok p (es_id e) st e (si_wf _ Hinv) He) as (st2 & E2 & Hcl & _). assert (st2 = st1) as -> by congruence.
    eapply (ests_ok_go p _ st1 (set_status "closed" e)); [|done|done|done|by eapply ests_ok_same].
    by rewrite (cl_ests _ _ _ _ Hcl), list_lookup_alter_eq, He.
Qed.
End server_owner.
