(* ===== verification/QueueOwner.v ===== *)
(** One proxied connection in the client's hub of queues (pipe/queue.go,
    wss/wssocks_client.go).

    Every queue has the ID of its master, so the queue of one connection can be
    told from those of others.  [view] is the sender's side of the connection as
    Direction.v knows it: the queue that it will have, before its [Send] is
    started, and then its queue.  What is done for others leaves the view as it
    is ([q_apart]). *)
From S2P Require Import Prelude GoChan Pipe RoundRobin PtrMap Queue QueueHub Link Starts Sends Striping Base64 Json.
From S2P Require Import Messages Hub Server Handshake Client Wire Direction Session Upstream ClientProc ClientTable.
From S2P Require Import LinkOwner Passage Follow.

Section queue_owner.
Context {K : Ksuid} `{!KsuidText K}.
Context (ids : list KSUID) (m : KSUID) (addr : string).
Implicit Types (h : QueueHub nat) (q : queue nat) (ws : list webSocketWriter) (qs : gmap nat (Queue.send_pc nat)).

(** The writers of the queues write for the IDs under which they are registered,
    and those of the connection are in its queue. *)
Record queues_fine h ws qs : Prop := {
  qf_reg p q id w : pm_heap h !! p = Some q -> q_writers q !! id = Some w ->
    (exists x, ws !! w = Some x /\ w_Id x = id) /\ (id ∈ ids <-> q_masterID q = m);
  qf_pc g p q w : pm_go h !! g = Some p -> pm_heap h !! p = Some q -> pc_writer (pc_at qs g) = Some w ->
    exists x, ws !! w = Some x /\ (w_Id x ∈ ids <-> q_masterID q = m);
}.

(** The queue of the connection is the same, and only others have been started. *)
Record q_apart h ws qs h' ws' qs' : Prop := {
  qa_map : pm_map h' !! m = pm_map h !! m;
  qa_heap p q : pm_heap h !! p = Some q -> q_masterID q = m -> pm_heap h' !! p = Some q;
  qa_old p q : pm_heap h' !! p = Some q -> q_masterID q = m -> pm_heap h !! p = Some q;
  qa_go : exists new, pm_go h' = pm_go h ++ new /\
    forall p q, p ∈ new -> pm_heap h' !! p = Some q -> q_masterID q <> m;
  qa_ws w x : ws !! w = Some x -> exists x', ws' !! w = Some x' /\ w_Id x' = w_Id x /\ w_WSC x' = w_WSC x;
  qa_pc g p q : pm_go h !! g = Some p -> pm_heap h !! p = Some q -> q_masterID q = m -> pc_at qs' g = pc_at qs g;
}.

Definition ws_kept ws ws' : Prop :=
  forall w x, ws !! w = Some x -> exists x', ws' !! w = Some x' /\ w_Id x' = w_Id x /\ w_WSC x' = w_WSC x.

Lemma ws_kept_refl ws : ws_kept ws ws.
Proof. intros w x Hx. by exists x. Qed.

Lemma ws_kept_close w ws : ws_kept ws (alter CloseWsWriter w ws).
Proof.
  intros w' x Hx. destruct (decide (w = w')) as [<-|Hw]; [rewrite list_lookup_alter_eq, Hx; by eexists|].
  rewrite list_lookup_alter_ne by done. by exists x.
Qed.

Lemma q_apart_ws h qs ws ws' : ws_kept ws ws' -> q_apart h ws qs h ws' qs.
Proof.
  intros Hw. split; try done. exists []. rewrite app_nil_r. split; [done|]. by intros ? ? ?%not_elem_of_nil.
Qed.

Lemma q_apart_refl h ws qs : q_apart h ws qs h ws qs.
Proof. apply q_apart_ws, ws_kept_refl. Qed.

Lemma q_apart_trans h ws qs h1 ws1 qs1 h' ws' qs' :
  q_apart h ws qs h1 ws1 qs1 -> q_apart h1 ws1 qs1 h' ws' qs' -> q_apart h ws qs h' ws' qs'.
Proof.
  intros [M1 H1 O1 (n1 & G1 & N1) W1 P1] [M2 H2 O2 (n2 & G2 & N2) W2 P2]. split; auto.
  - congruence.
  - exists (n1 ++ n2). rewrite G2, G1, app_assoc. split; [done|]. intros p q [Hp|Hp]%elem_of_app Hq; [|by apply (N2 p)].
    intros Hm. apply (N1 p q Hp); [by apply O2|done].
  - intros w x Hx. destruct (W1 w x Hx) as (x1 & Hx1 & E1 & E1'). destruct (W2 w x1 Hx1) as (x2 & Hx2 & E2 & E2').
    exists x2. split_and!; congruence.
  - intros g p q Hg Hq Hm. rewrite <- (P1 g p q) by done. eapply P2; [|by apply H1|done]. rewrite G1. by apply lookup_app_l_Some.
Qed.

Lemma q_apart_update p f h ws qs :
  (forall q, pm_heap h !! p = Some q -> q_masterID q <> m /\ q_masterID (f q) = q_masterID q) ->
  q_apart h ws qs (pm_update p f h) ws qs.
Proof.
  intros Hf. split; simpl; try done; [..|by apply ws_kept_refl].
  - intros p' q Hq Hm. rewrite list_lookup_alter_ne; [done|]. intros ->. by destruct (Hf q Hq).
  - intros p' q Hq Hm. destruct (decide (p = p')) as [<-|Hne]; [|by rewrite list_lookup_alter_ne in Hq].
    rewrite list_lookup_alter_eq in Hq. destruct (pm_heap h !! p) as [q0|] eqn:E; [|done]. simplify_eq/=.
    destruct (Hf q0 eq_refl) as [? ?]. congruence.
  - exists []. rewrite app_nil_r. split; [done|]. by intros ? ? ?%not_elem_of_nil.
Qed.

Lemma q_apart_new mm now h ws qs : mm <> m -> q_apart h ws qs (pm_new mm (NewQueue now mm) h) ws qs.
Proof.
  intros Hmm. split; simpl; try done; [..|by apply ws_kept_refl].
  - by rewrite lookup_insert_ne.
  - intros p q Hq _. by apply lookup_app_l_Some.
  - intros p q [Hq|[_ Hq]]%lookup_app_Some; [done|]. apply list_lookup_singleton_Some in Hq as [_ <-]. done.
  - exists []. rewrite app_nil_r. split; [done|]. by intros ? ? ?%not_elem_of_nil.
Qed.

Lemma q_apart_start p q h ws qs : pm_heap h !! p = Some q -> q_masterID q <> m -> q_apart h ws qs (pm_start p h) ws qs.
Proof.
  intros Hq Hm. split; simpl; try done; [..|by apply ws_kept_refl].
  exists [p]. split; [done|]. intros p' q' ->%list_elem_of_singleton Hq'. congruence.
Qed.

Lemma q_apart_remove mm h h' ws qs :
  mm <> m -> pm_wf h -> (forall p q, pm_map h !! mm = Some p -> pm_heap h !! p = Some q -> q_masterID q = mm) ->
  QueueHub.Remove mm h = Some h' -> q_apart h ws qs h' ws qs.
Proof.
  intros Hmm Hwf Hown H. unfold QueueHub.Remove, pm_close_delete, pm_close in H.
  destruct (pm_map h !! mm) as [p|] eqn:Hp; [|simplify_eq; apply q_apart_refl].
  destruct (proj1 Hwf _ _ Hp) as (q & Hq & _). rewrite Hq in H.
  destruct (obj_close q) as [q'|] eqn:Hc; [|done]. simplify_eq. pose proof (Hown p q eq_refl Hq) as Hqm.
  assert (q_masterID q' = q_masterID q) as Eq by (by apply Queue.close_inv in Hc as (? & ? & ? & _)).
  assert (p < length (pm_heap h)) as Hlt by (by eapply lookup_lt_Some).
  split; simpl; try done; [..|by apply ws_kept_refl].
  - by rewrite lookup_delete_ne.
  - intros p' q0 Hq0 Hm0. rewrite list_lookup_insert_ne; [done|]. intros ->. congruence.
  - intros p' q0 Hq0 Hm0. destruct (decide (p = p')) as [<-|Hne]; [|by rewrite list_lookup_insert_ne in Hq0].
    rewrite list_lookup_insert_eq in Hq0 by done. congruence.
  - exists []. rewrite app_nil_r. split; [done|]. by intros ? ? ?%not_elem_of_nil.
Qed.

(** ** The queues stay fine *)

Lemma queues_fine_rel h h' ws ws' qs :
  heap_rel (fun q q' => q_masterID q' = q_masterID q /\ q_writers q' = q_writers q) h h' -> ws_kept ws ws' ->
  queues_fine h ws qs -> queues_fine h' ws' qs.
Proof.
  intros HR Hw [H1 H2]. split.
  - intros p q' id w (q & Hq & -> & ->)%(heap_rel_r _ _ _ _ _ HR) Hid. destruct (H1 p q id w Hq Hid) as [(x & Hx & <-) E].
    destruct (Hw w x Hx) as (x' & Hx' & Ei & _). split; [by exists x'|]. done.
  - intros g p q' w Hg (q & Hq & -> & _)%(heap_rel_r _ _ _ _ _ HR) Hpc. rewrite (proj1 HR) in Hg.
    destruct (H2 g p q w Hg Hq Hpc) as (x & Hx & E). destruct (Hw w x Hx) as (x' & Hx' & Ei & _). exists x'. by rewrite Ei.
Qed.

Lemma queues_fine_update p f h ws qs :
  (forall q, pm_heap h !! p = Some q -> q_masterID (f q) = q_masterID q /\ q_writers (f q) = q_writers q) ->
  queues_fine h ws qs -> queues_fine (pm_update p f h) ws qs.
Proof. intros Hf. apply queues_fine_rel; [by apply heap_rel_update|apply ws_kept_refl]. Qed.

Lemma queues_fine_ensure now mm h ws qs :
  pm_go_ok h -> queues_fine h ws qs -> queues_fine (QueueHub.ensure now mm h) ws qs.
Proof.
  intros Hok [H1 H2]. unfold QueueHub.ensure. destruct (pm_map h !! mm); [done|]. split; simpl.
  - intros p q id w [Hq|[_ Hq]]%lookup_app_Some Hw; [by eapply H1|].
    apply list_lookup_singleton_Some in Hq as [_ <-]. simpl in Hw. by rewrite lookup_empty in Hw.
  - intros g p q w Hg [Hq|[Hge _]]%lookup_app_Some Hw; [by eapply H2|].
    unfold pm_go_ok in Hok. rewrite Forall_lookup in Hok. apply Hok in Hg. lia.
Qed.

(** A writer is registered. *)
Lemma queues_fine_add p q id w x h ws qs :
  pm_heap h !! p = Some q -> ws !! w = Some x -> w_Id x = id -> (id ∈ ids <-> q_masterID q = m) ->
  queues_fine h ws qs -> queues_fine (pm_update p (fun q => set_q_writers (<[id := w]> (q_writers q)) q) h) ws qs.
Proof.
  intros Hq Hx Hi Hown [H1 H2].
  assert (forall p' q', pm_heap (pm_update p (fun q => set_q_writers (<[id := w]> (q_writers q)) q) h) !! p' = Some q' ->
    exists q0, pm_heap h !! p' = Some q0 /\ q_masterID q' = q_masterID q0 /\
      (q' = q0 \/ p' = p /\ q_writers q' = <[id := w]> (q_writers q0))) as Hold.
  { intros p' q'. simpl. destruct (decide (p = p')) as [<-|Hne].
    - rewrite list_lookup_alter_eq, Hq. intros [= <-]. exists q. split_and!; [done..|by right].
    - rewrite list_lookup_alter_ne by done. intros Hq'. exists q'. split_and!; [done..|by left]. }
  split.
  - intros p' q' i w' (q0 & Hq0 & Em & Hor)%Hold. rewrite Em. destruct Hor as [->|[-> ->]]; [by apply (H1 p')|].
    rewrite lookup_insert. case_decide as E; [|by apply (H1 p)]. intros [= <-]. subst i. simplify_eq. split; [by exists x|done].
  - intros g p' q' w' Hg (q0 & Hq0 & Em & _)%Hold. rewrite Em. by apply (H2 g p').
Qed.

Lemma queues_fine_start p h ws qs :
  (pc_writer (pc_at qs (length (pm_go h))) = None) -> queues_fine h ws qs -> queues_fine (pm_start p h) ws qs.
Proof.
  intros Hn [H1 H2]. split; [done|]. intros g p' q w. simpl. intros [Hg|[Hge Hg]]%lookup_app_Some; [by apply H2|].
  apply list_lookup_singleton_Some in Hg as [Hg _]. intros _ Hw. replace g with (length (pm_go h)) in Hw by lia. congruence.
Qed.

(** A step of a queue's [Send]. *)
Lemma queues_fine_send g p q ev q' pc' out h ws qs :
  pm_go h !! g = Some p -> pm_heap h !! p = Some q -> NoDup (pm_go h) ->
  Queue.Send_step q (pc_at qs g) ev = Some (q', pc', out) ->
  queues_fine h ws qs ->
  queues_fine (pm_update p (fun _ => q') h) ws (<[g := pc']> qs) /\
  forall w b, out = Some (w, b) -> exists x, ws !! w = Some x /\ (w_Id x ∈ ids <-> q_masterID q = m).
Proof.
  intros Hg Hq Hnd H Hf. pose proof (Send_step_fields _ _ _ _ _ _ H) as (_ & Ew & Em & _). pose proof Hf as [H1 H2].
  destruct (Send_step_writer (fun w => exists x, ws !! w = Some x /\ (w_Id x ∈ ids <-> q_masterID q = m)) _ _ _ _ _ _ H) as [Hpc Hout].
  { intros id w Hw. destruct (H1 p q id w Hq Hw) as [(x & Hx & <-) E]. by exists x. }
  { intros w. by apply (H2 g p). }
  split; [|done]. destruct (queues_fine_update p (fun _ => q') h ws qs) as [K1 K2]; [|done|].
  { intros q0 Hq0. by simplify_eq. }
  split; [done|]. intros g' p' q0 w Hg' Hq0. unfold pc_at. destruct (decide (g = g')) as [<-|Hne].
  - rewrite lookup_insert_eq. simpl in *. intros Hw. simplify_eq. rewrite list_lookup_alter_eq, Hq in Hq0. simplify_eq/=.
    rewrite Em. by apply Hpc.
  - rewrite lookup_insert_ne by done. by apply (K2 g' p').
Qed.

Lemma q_apart_send g p q q' pc' h ws qs :
  pm_go h !! g = Some p -> pm_heap h !! p = Some q -> q_masterID q <> m -> q_masterID q' = q_masterID q ->
  q_apart h ws qs (pm_update p (fun _ => q') h) ws (<[g := pc']> qs).
Proof.
  intros Hg Hq Hne Em. destruct (q_apart_update p (fun _ => q') h ws qs) as [A1 A2 A3 A4 A5 A6].
  { intros q0 Hq0. by simplify_eq. }
  split; [done..|]. intros g' p' q0 Hg' Hq0 Hm0. unfold pc_at. rewrite lookup_insert_ne; [done|]. intros <-. congruence.
Qed.

(** ** The sender's side *)

(** Before the [Send] of the connection's queue is started nothing is in it;
    after, [ph] has the queue and the goroutine. *)
Definition queue_at (ph : option (nat * nat)) h (inp : list buffer) : Prop :=
  match ph with
  | None => (forall p q, pm_heap h !! p = Some q -> q_masterID q = m -> chan_items (q_buffer q) = [] /\ p ∉ pm_go h) /\ inp = []
  | Some (qq, gq) =>
      pm_go h !! gq = Some qq /\ (exists q, pm_heap h !! qq = Some q /\ q_masterID q = m) /\
      (forall p q, p ∈ pm_go h -> pm_heap h !! p = Some q -> q_masterID q = m -> p = qq) /\
      (forall p, pm_map h !! m = Some p -> p = qq)
  end.

Definition view_qq (ph : option (nat * nat)) : nat := match ph with None => 0 | Some (qq, _) => qq end.

Definition view (ph : option (nat * nat)) h ws qs (t : wires) (hl : LinkHub) (lpc : Link.send_pc) (inp : list buffer) :
    dir (W := nat) :=
  match ph with
  | None => mkDir (new_hub ids m) (new_writers ids) Queue.PEnter t hl lpc inp
  | Some (_, gq) => mkDir h (fun w => ws !! w) (pc_at qs gq) t hl lpc inp
  end.

Context (Hnd : NoDup ids) (Hhead : ids !! 0 = Some m).

Lemma queue_at_apart ph h ws qs h' ws' qs' inp : pm_go_ok h -> q_apart h ws qs h' ws' qs' -> queue_at ph h inp -> queue_at ph h' inp.
Proof using Type.
  intros Hok [A1 A2 A3 (new & Hg & Hnew) A5 A6]. destruct ph as [[qq gq]|]; simpl.
  - intros (Hgo & (q & Hq & Hm) & Hon & Hmap). split_and!.
    + rewrite Hg. by apply lookup_app_l_Some.
    + exists q. auto.
    + intros p q'. rewrite Hg. intros [Hp|Hp]%elem_of_app Hq' Hm'; [by apply (Hon p q'); auto|by destruct (Hnew p q' Hp Hq')].
    + by rewrite A1.
  - intros [Hq Hinp]. split; [|done]. intros p q Hq' Hm'. destruct (Hq p q (A3 p q Hq' Hm') Hm') as [He Hn].
    split; [done|]. rewrite Hg. intros [Hp|Hp]%elem_of_app; [done|]. by destruct (Hnew p q Hp Hq').
Qed.

(** The queues keep their masters, and what is in them before the start. *)
Lemma queue_at_rel ph h h' inp inp' :
  heap_rel (fun q q' => q_masterID q' = q_masterID q /\ (ph = None -> chan_items (q_buffer q') = chan_items (q_buffer q))) h h' ->
  (forall p, pm_map h' !! m = Some p -> pm_map h !! m = Some p) -> (ph = None -> inp' = inp) ->
  queue_at ph h inp -> queue_at ph h' inp'.
Proof using Type.
  intros HR Hmap Hinp. pose proof (proj1 HR) as Eg. destruct ph as [[qq gq]|]; simpl.
  - intros (Hgo & (q & Hq & Hm) & Hon & Hmm). rewrite Eg. split_and!; [done| | |auto].
    + destruct (heap_rel_l _ _ _ _ _ HR Hq) as (q' & Hq' & Em & _). exists q'. split; [done|congruence].
    + intros p q' Hp (q0 & Hq0 & Em & _)%(heap_rel_r _ _ _ _ _ HR) Hm'. apply (Hon p q0); [done|done|congruence].
  - intros [Hq Hi]. rewrite Eg. split; [|by rewrite Hinp].
    intros p q' (q0 & Hq0 & Em & Ei)%(heap_rel_r _ _ _ _ _ HR) Hm'. rewrite Ei by done. apply (Hq p q0); [done|congruence].
Qed.

(** Others leave the view as it is, but for the websockets. *)
Lemma follows_apart ph name h ws qs h' ws' qs' t t' hl lpc inp pcs s dl :
  q_apart h ws qs h' ws' qs' -> queue_at ph h inp -> items_kept ids t t' ->
  follows ids m addr (view_qq ph) name (view ph h ws qs t hl lpc inp) pcs s dl ->
  follows ids m addr (view_qq ph) name (view ph h' ws' qs' t' hl lpc inp) pcs s dl.
Proof using Hnd Hhead.
  intros Ha Hat Ht. destruct ph as [[qq gq]|]; simpl in *.
  - destruct Hat as (Hgo & (q & Hq & Hm) & _). destruct Ha as [A1 A2 A3 A4 A5 A6]. rewrite (A6 gq qq q) by done.
    apply follows_wires; [done..| |done]. split_and!; [|done|exact A5]. rewrite Hq. by apply A2.
  - apply follows_wires; [done..| |done]. apply queues_kept_refl.
Qed.

(** The queue's own steps. *)
Lemma follows_put qq gq name h ws qs t hl lpc inp b c pcs s dl :
  queue_at (Some (qq, gq)) h inp -> no_eof inp -> written b ->
  (forall q, pm_heap h !! qq = Some q -> chan_send (q_buffer q) b = SendOk c) ->
  follows ids m addr qq name (view (Some (qq, gq)) h ws qs t hl lpc inp) pcs s dl ->
  follows ids m addr qq name (view (Some (qq, gq)) (pm_update qq (set_q_buffer c) h) ws qs t hl lpc (inp ++ [b])) pcs s dl.
Proof using Hnd Hhead.
  intros (Hgo & (q & Hq & Hm) & _) Hno Hb Hc. simpl. apply follows_client; [done..|].
  rewrite <- (pm_update_at qq (set_q_buffer c) q h Hq). by apply ds_write; [|..|apply Hc].
Qed.

Lemma follows_qsend qq gq name h ws qs t hl lpc inp q ev q' pc' pcs s dl :
  pm_heap h !! qq = Some q -> Queue.Send_step q (pc_at qs gq) ev = Some (q', pc', None) ->
  follows ids m addr qq name (view (Some (qq, gq)) h ws qs t hl lpc inp) pcs s dl ->
  follows ids m addr qq name (view (Some (qq, gq)) (pm_update qq (fun _ => q') h) ws (<[gq := pc']> qs) t hl lpc inp) pcs s dl.
Proof using Hnd Hhead.
  intros Hq H. simpl. assert (pc_at (<[gq := pc']> qs) gq = pc') as -> by (unfold pc_at; by rewrite lookup_insert_eq).
  apply follows_client; [done..|]. by eapply ds_send.
Qed.

Lemma follows_qwrote qq gq name h ws qs t hl lpc inp q e q' pc' w b x ws_err out (lost : bool) pcs s dl :
  pm_heap h !! qq = Some q -> Queue.Send_step q (pc_at qs gq) (Queue.EvWrote e) = Some (q', pc', Some (w, b)) ->
  ws !! w = Some x -> hand x ws_err b = (out, e) -> (lost -> is_Some ws_err) ->
  follows ids m addr qq name (view (Some (qq, gq)) h ws qs t hl lpc inp) pcs s dl ->
  follows ids m addr qq name (view (Some (qq, gq)) (pm_update qq (fun _ => q') h) ws (<[gq := pc']> qs)
    (if lost then t else put (w_WSC x) out t) hl lpc inp) pcs s dl.
Proof using Hnd Hhead.
  intros Hq H Hx Hh Hl. simpl. assert (pc_at (<[gq := pc']> qs) gq = pc') as -> by (unfold pc_at; by rewrite lookup_insert_eq).
  apply follows_client; [done..|]. by eapply ds_sent.
Qed.

Lemma follows_qremove qq gq name h h' ws qs t hl lpc inp pcs s dl :
  QueueHub.Remove m h = Some h' ->
  follows ids m addr qq name (view (Some (qq, gq)) h ws qs t hl lpc inp) pcs s dl ->
  follows ids m addr qq name (view (Some (qq, gq)) h' ws qs t hl lpc inp) pcs s dl.
Proof using Hnd Hhead. intros H. simpl. apply follows_client; [done..|]. by apply ds_remove_queue. Qed.

(** [SetSort] and [go qq.Send] *)
Lemma follows_start qq q name h ws qs t hl lpc pcs s dl :
  queue_at None h [] -> queues_fine h ws qs -> pm_heap h !! qq = Some q -> q_masterID q = m ->
  (forall id, id ∈ ids -> is_Some (q_writers q !! id)) ->
  (forall w x, ws !! w = Some x -> w_Id x ∈ ids -> w_WSC x = ws_index ids (w_Id x)) ->
  (forall p, pm_map h !! m = Some p -> p = qq) -> pc_at qs (length (pm_go h)) = Queue.PEnter ->
  let h' := pm_start qq (pm_update qq (Queue.SetSort ids) h) in
  follows ids m addr 0 name (view None h ws qs t hl lpc []) pcs s dl -> name = new_name ids m ->
  queue_at (Some (qq, length (pm_go h))) h' [] /\
  exists name', follows ids m addr qq name' (view (Some (qq, length (pm_go h))) h' ws qs t hl lpc []) pcs s dl.
Proof using Hnd.
  intros [Hat _] [H1 _] Hq Hqm Hall Hwsc Hmap Hpc h' Hf ->. destruct (Hat qq q Hq Hqm) as [He Hng]. split.
  - split_and!; simpl.
    + by apply list_lookup_middle.
    + exists (Queue.SetSort ids q). by rewrite list_lookup_alter_eq, Hq.
    + intros p q' [Hp|Hp%list_elem_of_singleton]%elem_of_app Hq' Hm'; [|done]. exfalso.
      destruct (decide (qq = p)) as [->|Hne]; [done|]. rewrite list_lookup_alter_ne in Hq' by done.
      by destruct (Hat p q' Hq' Hm').
    + done.
  - exists (fun w => default m (w_Id <$> ws !! w)). unfold view. rewrite Hpc.
    eapply (follows_swap ids m addr 0 _ _ _ (new_queue ids m) qq _ _ _ (Queue.SetSort ids q)); [by apply new_side| |exact Hf].
    split; simpl; try done.
    + by rewrite list_lookup_alter_eq, Hq.
    + intros id w Hw. destruct (H1 qq q id w Hq Hw) as [(x & Hx & Hi) Hin]. exists x. rewrite Hx. simpl.
      split_and!; [done..|]. apply (Hwsc w x Hx). rewrite Hi. by apply Hin.
    + intros id Hid. destruct (Hall id Hid) as [w Hw]. destruct (H1 qq q id w Hq Hw) as [(x & Hx & Hi) _].
      exists w. by rewrite Hx.
Qed.
End queue_owner.
