(* ===== verification/ClientOwner.v ===== *)
(** The client's end of one connection (wss/wssocks_client.go): the call of
    [transData] with index [t], among all others.

    [caller] is what is known of it at any time: before it has started its
    queue's [Send] the messages that it has still to say, and then its queue
    ([view] of QueueOwner.v).  Every step of the client process keeps it, with
    the place where the connection stands at the server ([follows]). *)
From S2P Require Import Prelude GoChan Pipe RoundRobin PtrMap Queue QueueHub Link Starts Sends Striping Base64 Json.
From S2P Require Import Messages Hub Server Handshake Client Finish Wire Direction Session Upstream.
From S2P Require Import ClientProc ClientTable ClientSafe ClientRun Typing ClientTyped LinkOwner Passage Follow QueueOwner.

Section client_owner.
Context {K : Ksuid} `{!KsuidText K}.
Context (ids : list KSUID) (m : KSUID) (addr : string) (t : nat).
Implicit Types (s : cproc) (tr : trans) (ca : call) (T : calls) (unsaid out : list (nat * json)) (up : wires).

(** ** Messages *)

(** Nothing in [out] is for the connection, but perhaps a finish message. *)
Definition out_others out : Prop := forall k v id, (k, v) ∈ out -> id ∈ ids -> item_of id v = None.

Lemma out_others_nil : out_others [].
Proof. by intros k v id ?%not_elem_of_nil. Qed.

Lemma out_others_unless lost out : out_others out -> out_others (unless lost out).
Proof. by destruct lost; [intros _; apply out_others_nil|]. Qed.

Definition other_msg (x : msg) : Prop :=
  match x with
  | MBeat | MFinish _ => True
  | MHi _ id | MChunk id _ => id ∉ ids
  | MEst _ mm _ => mm ∉ ids
  end.

Lemma other_item x id : other_msg x -> id ∈ ids -> item_of id (encode x) = None.
Proof.
  intros Hx Hid. destruct x as [|mm id'|l mm a|id' b|id']; cbn [encode other_msg] in *.
  - unfold item_of. rewrite (chunk_of_not_data id _ _ unmarshal_beat) by done.
    unfold is_type. rewrite unmarshal_beat. by rewrite !bool_decide_eq_false_2 by (by intros [_ ?]).
  - rewrite item_of_hello, decide_False; [done|]. by intros ->.
  - rewrite item_of_est, decide_False; [done|]. by intros ->.
  - rewrite item_of_chunk, decide_False; [done|]. by intros ->.
  - unfold item_of, finish_json. rewrite (chunk_of_not_data id _ _ (unmarshal_finish_message _)) by done.
    unfold is_type. rewrite unmarshal_finish_message. by rewrite !bool_decide_eq_false_2 by (by intros [_ ?]).
Qed.

Lemma out_others_one k x : other_msg x -> out_others [(k, encode x)].
Proof. intros Hx k' v id [= -> ->]%list_elem_of_singleton Hid. by apply other_item. Qed.

(** What others say comes between what the call has said and what it has still to
    say. *)
Lemma give_others unsaid out up : out_others out -> items_kept ids (give unsaid up) (give unsaid (give out up)).
Proof.
  intros Ho id Hid. rewrite !give_items. f_equal.
  assert (omap (fun '(k', v) => if decide (k' = ws_index ids id) then item_of id v else None) out = []) as ->;
    [|by rewrite app_nil_r].
  clear unsaid up. induction out as [|[k v] out IH]; [done|]. rewrite omap_cons, IH.
  - case_decide; [|done]. by rewrite (Ho k v id) by set_solver.
  - intros k' v' id' Hin. apply (Ho k'). set_solver.
Qed.

Lemma give_app out unsaid up : give (out ++ unsaid) up = give unsaid (give out up).
Proof. apply foldl_app. Qed.

(** ** The call *)

Definition hellos (i : nat) : list (nat * json) := hello_messages i m (drop i ids).
Definition est_last : list (nat * json) := [(0, est_json ids m addr)].

(** What the call has still to say; the establish message may be lost. *)
Definition still_says ca unsaid : Prop :=
  match ca_pc ca with
  | TLoop i | TSay i _ => unsaid = hellos i ++ est_last
  | TWriter i _ | TLink i _ => unsaid = hellos (S i) ++ est_last
  | TEst => unsaid = est_last
  | TGetQueue | TSort _ => unsaid = []
  | _ => unsaid = [] \/ unsaid = est_last
  end.

Definition call_at (ph : option (nat * nat)) (o : option (trans * call)) unsaid (hmap : gmap KSUID nat) : Prop :=
  match ph with
  | None =>
      match o with
      | None => unsaid = hellos 0 ++ est_last
      | Some (tr, ca) => ca_copy ca = CNone /\ still_says ca unsaid /\
          (forall qq, ca_pc ca = TSort qq -> forall p, hmap !! m = Some p -> p = qq)
      end
  | Some (qq, _) => unsaid = [] /\
      exists tr ca, o = Some (tr, ca) /\ 4 <= rank (ca_pc ca) /\ (forall qq', ca_copy ca = CCopy qq' -> qq' = qq)
  end.

(** The IDs of the calls, and the queues that they copy to. *)
Definition call_ids T : Prop := forall t' tr ca, T t' = Some (tr, ca) ->
  (t' = t -> tr_sorted tr `prefix_of` ids /\ ca_addr ca = addr) /\ (t' <> t -> none_of ids (tr_sorted tr)).

Definition copies_at T (h : QueueHub nat) : Prop := forall t' tr ca qq, T t' = Some (tr, ca) -> ca_copy ca = CCopy qq ->
  exists q, pm_heap h !! qq = Some q /\ tr_master tr = Some (q_masterID q).

Abbreviation qh s := (clientQueueHub (pr_client s)).
Abbreviation cws s := (cl_writers (pr_client s)).

Record caller s (inp : list buffer) unsaid (ph : option (nat * nat)) : Prop := {
  cr_ids : call_ids (calls_of s);
  cr_copies : copies_at (calls_of s) (qh s);
  cr_fine : queues_fine ids m (qh s) (cws s) (pr_qsends s);
  cr_queue : queue_at m ph (qh s) inp;
  cr_call : call_at ph (calls_of s t) unsaid (pm_map (qh s));
  cr_wsc : length (cl_wsc (pr_client s)) = length ids;
}.

(** [caller] with the place where the connection stands. *)
Definition stands s inp unsaid up hl lpc pcs sd dl : Prop :=
  exists ph name, caller s inp unsaid ph /\ (ph = None -> name = new_name ids m) /\
    follows ids m addr (view_qq ph) name (view ids m ph (qh s) (cws s) (pr_qsends s) (give unsaid up) hl lpc inp) pcs sd dl.

Context (Hnd : NoDup ids) (Hhead : ids !! 0 = Some m).

(** A step for others. *)
Lemma stands_apart s s' inp unsaid unsaid' out up hl lpc pcs sd dl :
  q_apart m (qh s) (cws s) (pr_qsends s) (qh s') (cws s') (pr_qsends s') ->
  (queues_fine ids m (qh s) (cws s) (pr_qsends s) -> queues_fine ids m (qh s') (cws s') (pr_qsends s')) ->
  pm_go_ok (qh s) -> call_ids (calls_of s') -> copies_at (calls_of s') (qh s') ->
  (forall ph, call_at ph (calls_of s t) unsaid (pm_map (qh s)) -> call_at ph (calls_of s' t) unsaid' (pm_map (qh s'))) ->
  length (cl_wsc (pr_client s')) = length (cl_wsc (pr_client s)) ->
  items_kept ids (give unsaid up) (give unsaid' (give out up)) ->
  stands s inp unsaid up hl lpc pcs sd dl -> stands s' inp unsaid' (give out up) hl lpc pcs sd dl.
Proof using Hnd Hhead.
  intros Ha Hfine Hok Hids Hcp Hcall Hn Hit (ph & name & [C1 C2 C3 C4 C5 C6] & Hname & Hf).
  exists ph, name. split_and!; [|done|].
  - split; [done|done|by apply Hfine|by eapply queue_at_apart|by apply Hcall|congruence].
  - by eapply (follows_apart ids m addr Hnd Hhead).
Qed.

(** The hub of queues and its writers are the same. *)
Lemma stands_same s s' inp unsaid out up hl lpc pcs sd dl :
  qh s' = qh s -> cws s' = cws s -> pr_qsends s' = pr_qsends s -> pm_go_ok (qh s) ->
  call_ids (calls_of s') -> copies_at (calls_of s') (qh s) ->
  (forall ph, call_at ph (calls_of s t) unsaid (pm_map (qh s)) -> call_at ph (calls_of s' t) unsaid (pm_map (qh s))) ->
  length (cl_wsc (pr_client s')) = length (cl_wsc (pr_client s)) -> out_others out ->
  stands s inp unsaid up hl lpc pcs sd dl -> stands s' inp unsaid (give out up) hl lpc pcs sd dl.
Proof using Hnd Hhead.
  intros Eh Ew Eq Hok Hids Hcp Hcall Hn Hout. apply stands_apart; rewrite ?Eh, ?Ew, ?Eq; try done.
  - apply q_apart_refl.
  - by apply give_others.
Qed.

Lemma stands_facts s inp unsaid up hl lpc pcs sd dl :
  stands s inp unsaid up hl lpc pcs sd dl ->
  call_ids (calls_of s) /\ copies_at (calls_of s) (qh s) /\ length (cl_wsc (pr_client s)) = length ids.
Proof using Type. by intros (ph & name & [C1 C2 C3 C4 C5 C6] & _). Qed.

(** Only the client's record changes, and nothing that the connection is about. *)
Lemma stands_client s s' inp unsaid out up hl lpc pcs sd dl :
  qh s' = qh s -> cws s' = cws s -> pr_qsends s' = pr_qsends s -> pm_go_ok (qh s) ->
  (forall t', calls_of s' t' = calls_of s t') ->
  length (cl_wsc (pr_client s')) = length (cl_wsc (pr_client s)) -> out_others out ->
  stands s inp unsaid up hl lpc pcs sd dl -> stands s' inp unsaid (give out up) hl lpc pcs sd dl.
Proof using Hnd Hhead.
  intros Eh Ew Eq Hok Et Hn Hout Hst. destruct (stands_facts _ _ _ _ _ _ _ _ _ Hst) as (C1 & C2 & _).
  eapply stands_same; try done.
  - intros t' tr ca. rewrite Et. apply C1.
  - intros t' tr ca qq. rewrite Et. apply C2.
  - intros ph. by rewrite Et.
Qed.

(** ** The table of calls *)

Lemma calls_of_set s t' tr ca tr' ca' c' t0 :
  calls_of s t' = Some (tr, ca) -> cl_trans c' = <[t' := tr']> (cl_trans (pr_client s)) ->
  calls_of (set_call t' ca' (set_pr_client c' s)) t0 = if decide (t0 = t') then Some (tr', ca') else calls_of s t0.
Proof using Type.
  intros Ht Htr. destruct (calls_of_some _ _ _ _ Ht) as [Hlt Hlc]. unfold calls_of. simpl. rewrite Htr. case_decide as E.
  - subst t0. by rewrite !list_lookup_insert_eq by (by eapply lookup_lt_Some).
  - by rewrite !list_lookup_insert_ne.
Qed.

(** A new call of [transData]. *)
Definition new_call (conn : TCPConn) (a : string) s : cproc :=
  mkProc (set_ctrans (cl_trans (pr_client s) ++ [new_trans]) (pr_client s))
    (pr_calls s ++ [mkCall conn a (TLoop 0) [] CNone]) (pr_qsends s) (pr_lsends s).

Lemma calls_of_new s conn a t0 :
  cp_inv s -> calls_of (new_call conn a s) t0 =
    if decide (t0 = length (pr_calls s)) then Some (new_trans, mkCall conn a (TLoop 0) [] CNone) else calls_of s t0.
Proof using Type.
  intros Hinv. unfold calls_of. simpl. pose proof (ci_len _ Hinv) as Hlen. case_decide as E.
  - subst t0. rewrite list_lookup_middle by done. by rewrite Hlen, list_lookup_middle.
  - destruct (decide (t0 < length (pr_calls s))) as [Hlt|Hge].
    + by rewrite !lookup_app_l by lia.
    + by rewrite !lookup_ge_None_2 by (rewrite ?length_app; simpl; lia).
Qed.

Lemma call_ids_upd T T' t' tr' ca' :
  (forall t0, T' t0 = if decide (t0 = t') then Some (tr', ca') else T t0) -> call_ids T ->
  (t' = t -> tr_sorted tr' `prefix_of` ids /\ ca_addr ca' = addr) -> (t' <> t -> none_of ids (tr_sorted tr')) -> call_ids T'.
Proof using Type. intros E Hc H1 H2 t0 tr ca. rewrite E. case_decide; [intros [= <- <-]; by subst|apply Hc]. Qed.

Lemma copies_at_upd T T' t' tr' ca' h :
  (forall t0, T' t0 = if decide (t0 = t') then Some (tr', ca') else T t0) -> copies_at T h ->
  (forall qq, ca_copy ca' = CCopy qq -> exists q, pm_heap h !! qq = Some q /\ tr_master tr' = Some (q_masterID q)) ->
  copies_at T' h.
Proof using Type. intros E Hc H t0 tr ca qq. rewrite E. case_decide; [intros [= <- <-]; by apply H|apply Hc]. Qed.

Lemma copies_at_heap T h h' :
  (forall p q, pm_heap h !! p = Some q -> exists q', pm_heap h' !! p = Some q' /\ q_masterID q' = q_masterID q) ->
  copies_at T h -> copies_at T h'.
Proof using Type.
  intros Hh Hc t0 tr ca qq Ht Hcp. destruct (Hc t0 tr ca qq Ht Hcp) as (q & Hq & E).
  destruct (Hh qq q Hq) as (q' & Hq' & E'). exists q'. split; [done|congruence].
Qed.
End client_owner.
