(* ===== verification/CallFollow.v ===== *)
(** The steps of [transData] (wss/wssocks_client.go) in the client process: a step
    of the call and a step of any other call keep what ClientOwner.v says of the
    call. *)
From S2P Require Import Prelude GoChan Pipe RoundRobin PtrMap Queue QueueHub Link Starts Sends Striping Base64 Json.
From S2P Require Import Messages Hub Server Handshake Client Finish Wire Direction Session Upstream.
From S2P Require Import ClientProc ClientTable ClientSafe ClientRun Typing ClientTyped LinkOwner Passage Follow QueueOwner.
From S2P Require Import ClientOwner.

Section call_follow.
Context {K : Ksuid} `{!KsuidText K}.
Context (ids : list KSUID) (m : KSUID) (addr : string) (t : nat).
Context (Hnd : NoDup ids) (Hhead : ids !! 0 = Some m).
Implicit Types (s : cproc) (tr : trans) (ca : call) (T : calls) (unsaid out : list (nat * json)) (up : wires).
Implicit Types (q : queue nat) (inp : list buffer) (hl : LinkHub) (pcs : gmap nat Link.send_pc) (sd dl : bool).

Abbreviation qh s := (clientQueueHub (pr_client s)).
Abbreviation cws s := (cl_writers (pr_client s)).
Abbreviation stands := (stands ids m addr t).
Abbreviation call_ids := (call_ids ids addr t).
Abbreviation call_at := (call_at ids m addr).

Lemma inv_go_ok s : cp_inv s -> pm_go_ok (qh s).
Proof using Type. intros Hinv. eapply sends_go_ok, (ci_qsends _ Hinv). Qed.

(** A [Send] that is started begins at its beginning. *)
Lemma fresh_pc s : cp_inv s -> pc_at (pr_qsends s) (length (pm_go (qh s))) = Queue.PEnter.
Proof using Type.
  intros Hinv. unfold pc_at. destruct (pr_qsends s !! _) eqn:E; [|done].
  apply mk_is_Some, (so_pcs _ _ (ci_qsends _ Hinv)) in E. lia.
Qed.

(** The masters of the calls. *)
Lemma master_of s t' tr ca m0 :
  cp_inv s -> call_ids (calls_of s) -> calls_of s t' = Some (tr, ca) -> tr_master tr = Some m0 ->
  (t' = t -> m0 = m) /\ (t' <> t -> m0 ∉ ids).
Proof using Hnd Hhead.
  intros Hinv Hids Ht Hm. destruct (Hids t' tr ca Ht) as [H1 H2]. split.
  - intros E. destruct (H1 E) as [[l Hl] _]. destruct (cp_inv_known _ _ _ _ Hinv Ht) as [[Hmm _ _ _ _] _].
    rewrite Hm in Hmm. pose proof Hhead as Hh. rewrite Hl in Hh. destruct (tr_sorted tr); by simplify_eq/=.
  - intros E Hin. apply (H2 E m0 Hin). by apply (calls_own_master _ _ (ci_calls _ Hinv) t' tr ca).
Qed.

(** The queues of other calls are the queues of other masters. *)
Lemma queue_of s t' tr ca q m0 :
  cp_inv s -> call_ids (calls_of s) -> calls_of s t' = Some (tr, ca) -> tr_master tr = Some m0 ->
  q_masterID q = m0 -> (q_masterID q = m <-> t' = t).
Proof using Hnd Hhead.
  intros Hinv Hids Ht Hm <-. destruct (master_of s t' tr ca _ Hinv Hids Ht Hm) as [H1 H2].
  split; [|apply H1]. intros E. destruct (decide (t' = t)) as [|Hne]; [done|]. exfalso.
  apply (H2 Hne). rewrite E. by eapply list_elem_of_lookup_2.
Qed.

(** ** Other calls *)

Lemma stands_other s t' tr ca tr' ca' c' inp unsaid out up hl lpc pcs sd dl :
  cp_inv s -> t' <> t -> calls_of s t' = Some (tr, ca) -> cl_trans c' = <[t' := tr']> (cl_trans (pr_client s)) ->
  length (cl_wsc c') = length (cl_wsc (pr_client s)) ->
  q_apart m (qh s) (cws s) (pr_qsends s) (clientQueueHub c') (cl_writers c') (pr_qsends s) ->
  (queues_fine ids m (qh s) (cws s) (pr_qsends s) -> queues_fine ids m (clientQueueHub c') (cl_writers c') (pr_qsends s)) ->
  (forall p q, pm_heap (qh s) !! p = Some q -> exists q', pm_heap (clientQueueHub c') !! p = Some q' /\ q_masterID q' = q_masterID q) ->
  (forall qq, ca_copy ca' = CCopy qq -> exists q, pm_heap (clientQueueHub c') !! qq = Some q /\ tr_master tr' = Some (q_masterID q)) ->
  none_of ids (tr_sorted tr') -> out_others ids out ->
  stands s inp unsaid up hl lpc pcs sd dl ->
  stands (set_call t' ca' (set_pr_client c' s)) inp unsaid (give out up) hl lpc pcs sd dl.
Proof using Hnd Hhead.
  intros Hinv Hne Ht Htr Hn Ha Hf Hheap Hcp Hids Hout Hst.
  destruct (stands_facts _ _ _ _ _ _ _ _ _ _ _ _ _ Hst) as (C1 & C2 & _).
  pose proof (fun t0 => calls_of_set s t' tr ca tr' ca' c' t0 Ht Htr) as Hlook.
  eapply (stands_apart ids m addr t Hnd Hhead); [exact Ha|exact Hf|by apply inv_go_ok|..|exact Hst].
  - by eapply call_ids_upd.
  - eapply copies_at_upd; [done|by eapply copies_at_heap|done].
  - intros ph. rewrite Hlook, decide_False by done. unfold ClientOwner.call_at. cbn [pr_client set_call set_pr_client]. by rewrite (qa_map _ _ _ _ _ _ _ Ha).
  - done.
  - by apply give_others.
Qed.

(** The same hub of queues. *)
Lemma stands_other_same s t' tr ca tr' ca' c' inp unsaid out up hl lpc pcs sd dl :
  cp_inv s -> t' <> t -> calls_of s t' = Some (tr, ca) -> cl_trans c' = <[t' := tr']> (cl_trans (pr_client s)) ->
  length (cl_wsc c') = length (cl_wsc (pr_client s)) ->
  clientQueueHub c' = qh s -> ws_kept (cws s) (cl_writers c') ->
  (forall m0, tr_master tr = Some m0 -> tr_master tr' = Some m0) -> ca_copy ca' = ca_copy ca ->
  none_of ids (tr_sorted tr') -> out_others ids out ->
  stands s inp unsaid up hl lpc pcs sd dl ->
  stands (set_call t' ca' (set_pr_client c' s)) inp unsaid (give out up) hl lpc pcs sd dl.
Proof using Hnd Hhead.
  intros Hinv Hne Ht Htr Hn Eq Hw Hm Hc Hids Hout Hst.
  destruct (stands_facts _ _ _ _ _ _ _ _ _ _ _ _ _ Hst) as (_ & C2 & _).
  eapply stands_other; try done; rewrite ?Eq.
  - by apply q_apart_ws.
  - apply queues_fine_rel; [by apply heap_rel_refl|done].
  - eauto.
  - rewrite Hc. intros qq Hqq. destruct (C2 t' tr ca qq Ht Hqq) as (q & Hq & Em). eauto.
Qed.

(** What [clientQueueHub.Add] does for a call whose [Send] has not been started. *)
Definition with_writer (id : KSUID) (w : nat) q : queue nat := set_q_writers (<[id := w]> (q_writers q)) q.

Lemma add_parts now s t' tr ca i id m0 :
  cp_inv s -> calls_of s t' = Some (tr, ca) -> ca_pc ca = TWriter i id -> tr_master tr = Some m0 ->
  let he := QueueHub.ensure now m0 (qh s) in
  exists p q, pm_heap he !! p = Some q /\ q_masterID q = m0 /\ tr_sorted tr !! i = Some id /\ forall w,
    QueueHub.Add now m0 id w (qh s) = pm_update p (with_writer id w) he /\
    forall p0 q0, pm_heap (qh s) !! p0 = Some q0 -> exists q',
      pm_heap (pm_update p (with_writer id w) he) !! p0 = Some q' /\ q_masterID q' = q_masterID q0.
Proof using Type.
  intros Hinv Ht Epc Hm he. destruct (cp_inv_known s t' tr ca Hinv Ht) as [[Hmm _ [_ Hl] He _] _].
  rewrite Epc in Hl. destruct Hl as (Hid & _).
  destruct (Queues_ensure now (qh s) _ t' tr ca m0 (ci_queues _ Hinv) (calls_one_master _ _ (ci_calls _ Hinv))
    (inv_go_ok _ Hinv) Ht Hm) as (p & q & HQ1 & Hp & Hq & Hng & Hs & _); [apply He; rewrite Epc; simpl; lia|by rewrite Epc|].
  exists p, q. split_and!; [done|by apply (Q_map _ _ HQ1 _ _ _ Hp Hq)|done|]. intros w.
  split; [by apply (Add_unstarted now m0 id w (qh s) p q)|]. intros p0 q0 Hq0.
  assert (pm_heap he !! p0 = Some q0) as Hq0'.
  { unfold he, QueueHub.ensure. destruct (pm_map (qh s) !! m0); [done|]. by apply lookup_app_l_Some. }
  simpl. destruct (decide (p = p0)) as [<-|Hnp].
  - rewrite list_lookup_alter_eq, Hq0'. by eexists.
  - rewrite list_lookup_alter_ne by done. by exists q0.
Qed.

(** [clientQueueHub.Add] *)
Lemma stands_other_add now s t' tr ca i id m0 inp unsaid up hl lpc pcs sd dl :
  cp_inv s -> t' <> t -> calls_of s t' = Some (tr, ca) -> ca_pc ca = TWriter i id -> tr_master tr = Some m0 ->
  let c := pr_client s in
  let w := length (cl_writers c) in
  let s1 := set_cwriters (cl_writers c ++ [NewWebSocketWriter i id]) c in
  stands s inp unsaid up hl lpc pcs sd dl ->
  stands (set_call t' (set_ca_pc (TLink i id) (add_ca_writer w ca))
    (set_pr_client (set_cqueues (QueueHub.Add now m0 id w (clientQueueHub s1)) s1) s)) inp unsaid up hl lpc pcs sd dl.
Proof using Hnd Hhead.
  intros Hinv Hne Ht Epc Hm c w s1 Hst. destruct (stands_facts _ _ _ _ _ _ _ _ _ _ _ _ _ Hst) as (C1 & C2 & _).
  destruct (add_parts now s t' tr ca i id m0 Hinv Ht Epc Hm) as (p & q & Hq & Hqm & Hid & Hadd). destruct (Hadd w) as [HA Hheap].
  destruct (master_of s t' tr ca m0 Hinv C1 Ht Hm) as [_ Hm0]. specialize (Hm0 Hne).
  assert (m0 <> m) as Hmne by (intros ->; apply Hm0; by eapply list_elem_of_lookup_2).
  destruct (C1 t' tr ca Ht) as [_ Hnone]. specialize (Hnone Hne).
  assert (id ∉ ids) as Hidn by (intros Hin; apply (Hnone id Hin); by eapply list_elem_of_lookup_2).
  change (clientQueueHub s1) with (qh s). rewrite HA.
  assert (ws_kept (cws s) (cws s ++ [NewWebSocketWriter i id])) as Hw.
  { intros w' x Hx. exists x. by rewrite (lookup_app_l_Some _ _ _ _ Hx). }
  apply (stands_other s t' tr ca tr _ _ inp unsaid []); try done.
  - by eapply calls_of_same.
  - eapply q_apart_trans; [|apply q_apart_update]; [|intros q' Hq'; rewrite Hq in Hq'; simplify_eq; split; [congruence|done]].
    eapply q_apart_trans; [by apply q_apart_ws|]. unfold QueueHub.ensure.
    destruct (pm_map (qh s) !! m0); [apply q_apart_refl|by apply q_apart_new].
  - intros Hf. eapply (queues_fine_add ids m p q id w (NewWebSocketWriter i id)); [done|by apply list_lookup_middle|done| |].
    + rewrite Hqm. naive_solver.
    + apply queues_fine_ensure; [by apply inv_go_ok|]. eapply queues_fine_rel; [by apply heap_rel_refl|exact Hw|done].
  - simpl. intros qq Hqq. destruct (C2 t' tr ca qq Ht Hqq) as (q0 & Hq0 & Em). destruct (Hheap _ _ Hq0) as (q' & Hq' & E).
    exists q'. split; [done|congruence].
  - apply out_others_nil.
Qed.

(** [qq.SetSort] and [go qq.Send] *)
Lemma stands_other_start s t' tr ca qq inp unsaid up hl lpc pcs sd dl :
  cp_inv s -> t' <> t -> calls_of s t' = Some (tr, ca) -> ca_pc ca = TSort qq ->
  stands s inp unsaid up hl lpc pcs sd dl ->
  stands (set_call t' (set_ca_copy (CCopy qq) (set_ca_pc TGetLink ca))
    (set_pr_client (set_cqueues (pm_start qq (pm_update qq (Queue.SetSort (tr_sorted tr)) (qh s))) (pr_client s)) s))
    inp unsaid up hl lpc pcs sd dl.
Proof using Hnd Hhead.
  intros Hinv Hne Ht Epc Hst. destruct (stands_facts _ _ _ _ _ _ _ _ _ _ _ _ _ Hst) as (C1 & C2 & _).
  destruct (master_some s t' tr ca Hinv Ht) as [m0 Hm].
  { rewrite (all_ids s t' tr ca); [apply (ci_some _ Hinv)|done|done|rewrite Epc; simpl; lia]. }
  destruct (Q_live _ _ (ci_queues _ Hinv) t' tr ca m0 Ht Hm) as (_ & _ & L3). destruct (L3 qq Epc) as (q & Hq & Hqm & _).
  pose proof (queue_of s t' tr ca q m0 Hinv C1 Ht Hm Hqm) as Hown.
  set (h1 := pm_update qq (Queue.SetSort (tr_sorted tr)) (qh s)).
  assert (pm_heap h1 !! qq = Some (Queue.SetSort (tr_sorted tr) q)) as Hq1 by (simpl; by rewrite list_lookup_alter_eq, Hq).
  apply (stands_other s t' tr ca tr _ _ inp unsaid []); try done.
  - by eapply calls_of_same.
  - eapply q_apart_trans; [|eapply (q_apart_start m qq (Queue.SetSort (tr_sorted tr) q)); [exact Hq1|simpl; naive_solver]].
    apply q_apart_update. intros q' Hq'. simplify_eq. naive_solver.
  - intros Hf. apply queues_fine_start; [|by apply queues_fine_update].
    cbn [pm_go pm_update h1]. by rewrite (fresh_pc s Hinv).
  - intros p q' Hq'. simpl. destruct (decide (qq = p)) as [<-|Hnp]; [rewrite list_lookup_alter_eq, Hq'; by eexists|].
    rewrite list_lookup_alter_ne by done. by exists q'.
  - simpl. intros qq' [= <-]. rewrite list_lookup_alter_eq, Hq. eexists. split; [done|]. simpl. congruence.
  - by apply (C1 t' tr ca Ht).
  - apply out_others_nil.
Qed.

(** ** The call's own steps *)

Lemma call_at_pc ph tr ca tr' ca' unsaid (hmap hmap' : gmap KSUID nat) :
  ca_copy ca' = ca_copy ca -> rank (ca_pc ca) <= rank (ca_pc ca') ->
  (still_says ids m addr ca unsaid -> still_says ids m addr ca' unsaid) ->
  (forall qq p, ca_pc ca' = TSort qq -> hmap' !! m = Some p -> p = qq \/ (ca_pc ca = TSort qq /\ hmap !! m = Some p)) ->
  call_at ph (Some (tr, ca)) unsaid hmap -> call_at ph (Some (tr', ca')) unsaid hmap'.
Proof using Type.
  intros Ec Hr Hsay Hso. destruct ph as [[qq gq]|]; simpl.
  - intros [-> (tr0 & ca0 & [= <- <-] & Hr0 & Hcp)]. split; [done|]. exists tr', ca'. rewrite Ec. split_and!; [done|lia|done].
  - intros (Hc & Hs & Hsort). rewrite Ec. split_and!; [done|by apply Hsay|].
    intros qq Epc p Hp. destruct (Hso qq p Epc Hp) as [|[Epc' Hp']]; [done|by eapply Hsort].
Qed.

Lemma stands_own s tr ca tr' ca' c' inp unsaid unsaid' out up hl lpc pcs sd dl :
  cp_inv s -> calls_of s t = Some (tr, ca) -> cl_trans c' = <[t := tr']> (cl_trans (pr_client s)) ->
  length (cl_wsc c') = length (cl_wsc (pr_client s)) ->
  clientQueueHub c' = qh s -> ws_kept (cws s) (cl_writers c') ->
  (forall m0, tr_master tr = Some m0 -> tr_master tr' = Some m0) -> ca_copy ca' = ca_copy ca ->
  tr_sorted tr' `prefix_of` ids -> ca_addr ca' = ca_addr ca ->
  (forall ph, call_at ph (Some (tr, ca)) unsaid (pm_map (qh s)) -> call_at ph (Some (tr', ca')) unsaid' (pm_map (qh s))) ->
  give unsaid up = give unsaid' (give out up) ->
  stands s inp unsaid up hl lpc pcs sd dl ->
  stands (set_call t ca' (set_pr_client c' s)) inp unsaid' (give out up) hl lpc pcs sd dl.
Proof using Hnd Hhead.
  intros Hinv Ht Htr Hn Eq Hw Hm Hc Hpre Hadr Hcall Hit Hst.
  destruct (stands_facts _ _ _ _ _ _ _ _ _ _ _ _ _ Hst) as (C1 & C2 & _).
  pose proof (fun t0 => calls_of_set s t tr ca tr' ca' c' t0 Ht Htr) as Hlook. destruct (C1 t tr ca Ht) as [Hpa _].
  eapply (stands_apart ids m addr t Hnd Hhead); [| |by apply inv_go_ok|..|exact Hst]; simpl; rewrite ?Eq.
  - by apply q_apart_ws.
  - apply queues_fine_rel; [by apply heap_rel_refl|done].
  - eapply call_ids_upd; [done|done| |done]. intros _. split; [done|]. rewrite Hadr. by apply Hpa.
  - eapply copies_at_upd; [done|done|]. rewrite Hc. intros qq Hqq. destruct (C2 t tr ca qq Ht Hqq) as (q & Hq & Em). eauto.
  - intros ph. rewrite Ht, Hlook, decide_True by done. apply Hcall.
  - done.
  - by rewrite Hit.
Qed.

(** [clientQueueHub.Add] of the call. *)
Lemma stands_add now s tr ca i id inp unsaid up hl lpc pcs sd dl :
  cp_inv s -> calls_of s t = Some (tr, ca) -> ca_pc ca = TWriter i id -> tr_master tr = Some m ->
  let c := pr_client s in
  let w := length (cl_writers c) in
  let s1 := set_cwriters (cl_writers c ++ [NewWebSocketWriter i id]) c in
  stands s inp unsaid up hl lpc pcs sd dl ->
  stands (set_call t (set_ca_pc (TLink i id) (add_ca_writer w ca))
    (set_pr_client (set_cqueues (QueueHub.Add now m id w (clientQueueHub s1)) s1) s)) inp unsaid up hl lpc pcs sd dl.
Proof using Hnd Hhead.
  intros Hinv Ht Epc Hm c w s1 (ph & name & [C1 C2 C3 C4 C5 C6] & Hname & Hf).
  rewrite Ht in C5. destruct ph as [[qq gq]|].
  { destruct C5 as [_ (tr0 & ca0 & [= <- <-] & Hr & _)]. rewrite Epc in Hr. simpl in Hr. lia. }
  destruct (add_parts now s t tr ca i id m Hinv Ht Epc Hm) as (p & q & Hq & Hqm & Hid & Hadd). destruct (Hadd w) as [HA Hheap].
  destruct (C1 t tr ca Ht) as [Hpa _]. destruct (Hpa eq_refl) as [Hpre Hadr].
  assert (id ∈ ids) as Hidn by (eapply list_elem_of_lookup_2, prefix_lookup_Some; eauto).
  change (clientQueueHub s1) with (qh s). rewrite HA.
  pose proof (fun t0 => calls_of_set s t tr ca tr (set_ca_pc (TLink i id) (add_ca_writer w ca))
    (set_cqueues (pm_update p (with_writer id w) (QueueHub.ensure now m (qh s))) s1) t0 Ht (calls_of_same _ _ _ _ Ht)) as Hlook.
  assert (pm_go (QueueHub.ensure now m (qh s)) = pm_go (qh s)) as Hgo.
  { unfold QueueHub.ensure. by destruct (pm_map (qh s) !! m). }
  assert (queue_at m None (QueueHub.ensure now m (qh s)) inp) as Hat1.
  { destruct C4 as [Hat Hi]. split; [|done]. rewrite Hgo. intros p0 q0. unfold QueueHub.ensure.
    destruct (pm_map (qh s) !! m); [by apply Hat|]. simpl. intros [Hq0|[Hge Hq0]]%lookup_app_Some Hm0; [by apply (Hat p0 q0)|].
    apply list_lookup_singleton_Some in Hq0 as [_ <-]. split; [done|]. intros Hin.
    pose proof (inv_go_ok _ Hinv) as Hok. unfold pm_go_ok in Hok. rewrite Forall_forall in Hok. apply Hok in Hin. lia. }
  exists None, name. split_and!; [|done|exact Hf]. split.
  - by eapply call_ids_upd.
  - eapply copies_at_upd; [done|by eapply copies_at_heap|]. simpl. by destruct C5 as [-> _].
  - eapply (queues_fine_add ids m p q id w (NewWebSocketWriter i id)); [done|by apply list_lookup_middle|done|by rewrite Hqm|].
    apply queues_fine_ensure; [by apply inv_go_ok|]. eapply queues_fine_rel; [by apply heap_rel_refl| |exact C3].
    intros w' x Hx. exists x. split; [by apply lookup_app_l_Some|done].
  - eapply queue_at_rel; [by apply heap_rel_update|done|done|exact Hat1].
  - rewrite Hlook, decide_True by done. apply (call_at_pc None tr ca _ _ _ (pm_map (qh s))); [done|by rewrite Epc|unfold still_says; by rewrite Epc|done|done].
  - done.
Qed.

(** [qq.SetSort] and [go qq.Send] of the call. *)
Lemma stands_start s tr ca qq inp unsaid up hl lpc pcs sd dl :
  cp_inv s -> calls_of s t = Some (tr, ca) -> ca_pc ca = TSort qq ->
  stands s inp unsaid up hl lpc pcs sd dl ->
  stands (set_call t (set_ca_copy (CCopy qq) (set_ca_pc TGetLink ca))
    (set_pr_client (set_cqueues (pm_start qq (pm_update qq (Queue.SetSort (tr_sorted tr)) (qh s))) (pr_client s)) s))
    inp unsaid up hl lpc pcs sd dl.
Proof using Hnd Hhead.
  intros Hinv Ht Epc (ph & name & [C1 C2 C3 C4 C5 C6] & Hname & Hf). rewrite Ht in C5. destruct ph as [[q0 gq]|].
  { destruct C5 as [_ (tr0 & ca0 & [= <- <-] & Hr & _)]. rewrite Epc in Hr. simpl in Hr. lia. }
  destruct C5 as (Hcp & Hsay & Hmap). unfold still_says in Hsay. rewrite Epc in Hsay. subst unsaid.
  pose proof (all_ids s t tr ca Hinv Ht) as Hlen. rewrite Epc in Hlen. specialize (Hlen ltac:(simpl; lia)).
  destruct (C1 t tr ca Ht) as [Hpa _]. destruct (Hpa eq_refl) as [Hpre Hadr].
  destruct (master_some s t tr ca Hinv Ht) as [m0 Hm]; [rewrite Hlen; apply (ci_some _ Hinv)|].
  destruct (master_of s t tr ca m0 Hinv C1 Ht Hm) as [Hmm _]. rewrite (Hmm eq_refl) in *. clear Hmm.
  assert (tr_sorted tr = ids) as Hso by (apply prefix_length_eq; [done|lia]). rewrite Hso.
  destruct (Q_live _ _ (ci_queues _ Hinv) t tr ca m Ht Hm) as (_ & _ & L3). destruct (L3 qq Epc) as (q & Hq & Hqm & Hw).
  destruct C4 as [Hat ->].
  destruct (follows_start ids m addr Hnd qq q name (qh s) (cws s) (pr_qsends s) (give [] up) hl lpc pcs sd dl) as [Hat' [name' Hf']];
    [done|done|done|done| | |by apply Hmap|by apply fresh_pc|exact Hf|by apply Hname|].
  { intros id Hid. apply Hw. by rewrite Hso. }
  { intros w x Hx Hid. destruct (wo_own _ _ (ci_writers _ Hinv) w x Hx) as (t1 & tr1 & ca1 & Ht1 & Hi1).
    destruct (decide (t1 = t)) as [->|Hne].
    - rewrite Ht in Ht1. injection Ht1 as <- <-. rewrite Hso in Hi1. symmetry. by apply ws_index_lookup.
    - exfalso. destruct (C1 t1 tr1 ca1 Ht1) as [_ Hno]. apply (Hno Hne (w_Id x) Hid). by eapply list_elem_of_lookup_2. }
  pose proof (fun t0 => calls_of_set s t tr ca tr (set_ca_copy (CCopy qq) (set_ca_pc TGetLink ca))
    (set_cqueues (pm_start qq (pm_update qq (Queue.SetSort ids) (qh s))) (pr_client s)) t0 Ht (calls_of_same _ _ _ _ Ht)) as Hlook.
  exists (Some (qq, length (pm_go (qh s)))), name'. split_and!; [|done|exact Hf']. split.
  - by eapply call_ids_upd.
  - eapply copies_at_upd; [done| |].
    + eapply copies_at_heap; [|exact C2]. intros p q' Hq'. simpl. destruct (decide (qq = p)) as [<-|Hnp].
      * rewrite list_lookup_alter_eq, Hq'. by eexists.
      * rewrite list_lookup_alter_ne by done. by exists q'.
    + simpl. intros qq' [= <-]. rewrite list_lookup_alter_eq, Hq. eexists. split; [done|]. simpl. congruence.
  - apply queues_fine_start; [|by apply queues_fine_update]. cbn [pr_qsends set_call set_pr_client pm_go pm_update]. by rewrite (fresh_pc s Hinv).
  - done.
  - rewrite Hlook, decide_True by done. split; [done|]. eexists _, _. split_and!; [done|simpl; lia|]. by intros ? [= <-].
  - done.
Qed.

(** ** [remove] *)

(** The same queue as far as its master is concerned. *)
Definition queue_kept q q' : Prop :=
  q_masterID q' = q_masterID q /\ q_writers q' = q_writers q /\ chan_items (q_buffer q') = chan_items (q_buffer q).

Lemma remove_parts t' m0 c c' tr :
  cl_trans c !! t' = Some tr -> remove t' m0 c = Some c' ->
  let h := clientQueueHub c in
  exists tr', cl_trans c' = <[t' := tr']> (cl_trans c) /\ tr_master tr' = tr_master tr /\ tr_sorted tr' = tr_sorted tr /\
    cl_wsc c' = cl_wsc c /\ cl_writers c' = cl_writers c /\
    (clientQueueHub c' = h \/ QueueHub.Remove m0 h = Some (clientQueueHub c')).
Proof using Type.
  intros Ht H h. unfold remove in H. rewrite Ht in H. case_decide.
  - simplify_eq. exists tr. rewrite list_insert_id by done. split_and!; try done. by left.
  - cbn [clientQueueHub set_ctrans] in H. destruct (QueueHub.Remove m0 (clientQueueHub c)) as [h'|] eqn:E; [|done].
    simpl in H. destruct (Link.RemoveAll m0 _); simplify_eq/=. eexists. split_and!; try done. by right.
Qed.

Lemma Remove_kept m0 h h' :
  QueueHub.Remove m0 h = Some h' ->
  heap_rel queue_kept h h' /\ forall k p, pm_map h' !! k = Some p -> pm_map h !! k = Some p.
Proof using Type.
  intros H. destruct (pm_close_delete_inv queue_kept m0 h h') as [Hm HR]; [done| |done|].
  - intros q q' Hc%Queue.close_inv. destruct Hc as (E1 & E2 & E3 & E4 & E5 & E6 & E7 & _). by split_and!.
  - split; [done|]. intros k p. rewrite Hm, lookup_delete. by case_decide.
Qed.

(** The call of a deferred function. *)
Definition same_place ca ca' : Prop :=
  ca_copy ca' = ca_copy ca /\ ca_addr ca' = ca_addr ca /\
  (ca_pc ca' = ca_pc ca \/ exists err l err', ca_pc ca = TRemove err /\ ca_pc ca' = TUndo l err').

Lemma call_at_place ph tr ca tr' ca' unsaid (hmap hmap' : gmap KSUID nat) :
  same_place ca ca' -> (forall p, hmap' !! m = Some p -> hmap !! m = Some p) ->
  call_at ph (Some (tr, ca)) unsaid hmap -> call_at ph (Some (tr', ca')) unsaid hmap'.
Proof using Type.
  intros (Ec & _ & [E|(err & l & err' & E1 & E2)]) Hmap; apply call_at_pc; unfold still_says.
  - done.
  - by rewrite E.
  - by rewrite E.
  - rewrite E. auto.
  - done.
  - rewrite E1, E2. simpl. lia.
  - by rewrite E1, E2.
  - by rewrite E2.
Qed.

Lemma stands_remove s t' tr ca ca' m0 c' inp unsaid up hl lpc pcs sd dl :
  cp_inv s -> calls_of s t' = Some (tr, ca) -> tr_master tr = Some m0 -> remove t' m0 (pr_client s) = Some c' ->
  same_place ca ca' ->
  stands s inp unsaid up hl lpc pcs sd dl -> stands (set_call t' ca' (set_pr_client c' s)) inp unsaid up hl lpc pcs sd dl.
Proof using Hnd Hhead.
  intros Hinv Ht Hm Hrm Hpl Hst. destruct (stands_facts _ _ _ _ _ _ _ _ _ _ _ _ _ Hst) as (C1 & C2 & _).
  destruct (calls_of_some _ _ _ _ Ht) as [Htr Hca]. pose proof Hpl as (Ecp & Eadr & _).
  destruct (remove_parts _ _ _ _ _ Htr Hrm) as (tr' & Etr & Em & Es & Ew & Ewr & Hh).
  assert (heap_rel queue_kept (qh s) (clientQueueHub c') /\
          forall k p, pm_map (clientQueueHub c') !! k = Some p -> pm_map (qh s) !! k = Some p) as [HR Hmap].
  { destruct Hh as [->|H]; [|by eapply Remove_kept]. split; [by apply heap_rel_refl|done]. }
  assert (forall p q, pm_heap (qh s) !! p = Some q -> exists q', pm_heap (clientQueueHub c') !! p = Some q' /\
    q_masterID q' = q_masterID q) as Hheap.
  { intros p q Hq. destruct (heap_rel_l _ _ _ _ _ HR Hq) as (q' & Hq' & E & _). by exists q'. }
  assert (forall qq, ca_copy ca' = CCopy qq -> exists q, pm_heap (clientQueueHub c') !! qq = Some q /\
    tr_master tr' = Some (q_masterID q)) as Hcp.
  { rewrite Ecp. intros qq Hqq. destruct (C2 t' tr ca qq Ht Hqq) as (q & Hq & E). destruct (Hheap _ _ Hq) as (q' & Hq' & E').
    exists q'. split; [done|congruence]. }
  assert (queues_fine ids m (qh s) (cws s) (pr_qsends s) ->
          queues_fine ids m (clientQueueHub c') (cl_writers c') (pr_qsends s)) as Hfine.
  { apply queues_fine_rel; [|rewrite Ewr; apply ws_kept_refl]. eapply heap_rel_impl; [|exact HR]. by intros q q' (? & ? & ?). }
  destruct (decide (t' = t)) as [->|Hne].
  2: { apply (stands_other s t' tr ca tr' ca' c' inp unsaid []); try done; [by rewrite Ew| |rewrite Es; by apply (C1 t' tr ca Ht)|apply out_others_nil].
       rewrite Ewr. destruct Hh as [->|H]; [apply q_apart_refl|]. apply (q_apart_remove _ m0); [| |by apply (Q_map _ _ (ci_queues _ Hinv))|done].
       - intros ->. destruct (master_of s t' tr ca m Hinv C1 Ht Hm) as [_ Hx]. apply (Hx Hne). by eapply list_elem_of_lookup_2.
       - apply (Q_wf _ _ (ci_queues _ Hinv)). }
  destruct (master_of s t tr ca m0 Hinv C1 Ht Hm) as [Hmm _]. rewrite (Hmm eq_refl) in *. clear Hmm.
  destruct Hst as (ph & name & [_ _ C3 C4 C5 C6] & Hname & Hf).
  pose proof (fun t0 => calls_of_set s t tr ca tr' ca' c' t0 Ht Etr) as Hlook. destruct (C1 t tr ca Ht) as [Hpa _].
  exists ph, name. split_and!; [split|done|].
  - eapply call_ids_upd; [done|done| |done]. intros _. rewrite Es, Eadr. by apply Hpa.
  - eapply copies_at_upd; [done|by eapply copies_at_heap|done].
  - by apply Hfine.
  - eapply queue_at_rel; [|by apply Hmap|done|exact C4]. eapply heap_rel_impl; [|exact HR]. by intros q q' (? & ? & ?).
  - rewrite Hlook, decide_True by done. rewrite Ht in C5. eapply call_at_place; [done| |exact C5]. by apply Hmap.
  - simpl. by rewrite Ew.
  - cbn [pr_client set_call set_pr_client pr_qsends]. rewrite Ewr. destruct Hh as [->|H]; [done|].
    destruct ph as [[qq gq]|]; [|done]. by eapply (follows_qremove ids m addr Hnd Hhead).
Qed.

(** ** A step of a call *)

Definition others_new (e : call_ev) : Prop := match e with CeNew id => id ∉ ids | _ => True end.

Lemma call_step_others s t' e tr ca c' ca' out inp unsaid up hl lpc pcs sd dl :
  cp_inv s -> t' <> t -> calls_of s t' = Some (tr, ca) -> others_new e ->
  call_step t' e (pr_client s) ca = Finished (c', ca', out) ->
  stands s inp unsaid up hl lpc pcs sd dl ->
  stands (set_call t' ca' (set_pr_client c' s)) inp unsaid (give out up) hl lpc pcs sd dl.
Proof using Hnd Hhead.
  intros Hinv Hne Ht Hnew H Hst. destruct (stands_facts _ _ _ _ _ _ _ _ _ _ _ _ _ Hst) as (C1 & _).
  destruct (C1 t' tr ca Ht) as [_ Hnone]. specialize (Hnone Hne).
  destruct (call_step_on s t' e tr ca c' ca' out Hinv Ht H) as (tr0 & Etr0 & En & (_ & Hgm & _) & _).
  pose proof (calls_of_same _ _ _ _ Ht) as Hid. destruct (calls_of_some _ _ _ _ Ht) as [Htr Hca].
  pose proof (master_some s t' tr ca Hinv Ht) as Hms.
  destruct (cp_inv_known s t' tr ca Hinv Ht) as [[_ _ [_ Hlp] _ _] _]. pose proof (ci_some _ Hinv) as Hn.
  assert (forall i id, tr_sorted tr !! i = Some id -> id ∉ ids) as Hsorted.
  { intros i id Hi Hin. apply (Hnone id Hin). by eapply list_elem_of_lookup_2. }
  assert (forall lost k x, other_msg ids x -> out_others ids (unless lost [(k, encode x)])) as Hout.
  { intros lost k x Hx. by apply out_others_unless, out_others_one. }
  assert (forall m0, tr_master tr = Some m0 -> m0 ∉ ids) as Hmn.
  { intros m0 Hm. destruct (master_of s t' tr ca m0 Hinv C1 Ht Hm) as [_ Hx]. by apply Hx. }
  unfold call_step, trans_at in H. rewrite Htr in H. simpl in H.
  destruct (ca_pc ca) as [i|i id1|i id1|i id1| | |qq| |oo|oo|err|[|[[i id1] w] l] err|i id1 l err|err] eqn:Epc, e; try done;
    repeat case_match; simplify_eq; try done;
    try (by apply (stands_other_same s t' tr ca tr _ _ inp unsaid []); [..|apply out_others_nil|]; simpl; rewrite ?length_alter; try done; apply ws_kept_refl).
  1-2: pose proof (f_equal (lookup t') Etr0) as E0; simpl in E0;
    rewrite !list_lookup_insert_eq in E0 by (by eapply lookup_lt_Some); injection E0 as <-;
    eapply (stands_other_same s t' tr ca _ _ _ inp unsaid []); try done; [apply ws_kept_refl| |apply out_others_nil];
    simpl; intros id0 Hid0 [Hin|Hin%list_elem_of_singleton]%elem_of_app; [by apply (Hnone id0)|by subst].
  - apply (stands_other_same s t' tr ca tr); try done; [apply ws_kept_refl|].
    apply (Hout lost i (MHi _ id1)). by apply (Hsorted i), Hlp.
  - destruct Hms as [m0 Hm]; [lia|]. rewrite Hm. by apply (stands_other_add now s t' tr).
  - apply (stands_other_same s t' tr ca tr); try done; [apply ws_kept_refl|]. apply (Hout lost 0 (MEst (tr_sorted tr) k (ca_addr ca))). by apply Hmn.
  - apply (stands_other_same s t' tr ca tr); try done; [apply ws_kept_refl|]. apply (Hout lost 0 (MEst (tr_sorted tr) k (ca_addr ca))). by apply Hmn.
  - by apply (stands_other_start s t' tr).
  - destruct Hms as [m0 Hm]; [lia|]. rewrite Hm in *. eapply (stands_remove s t' tr ca); try done.
    split_and!; [done|done|]. right. by eexists _, _, _.
  - apply (stands_other_same s t' tr ca tr _ _ inp unsaid []); try done; [apply ws_kept_close|apply out_others_nil].
Qed.

(** The IDs that the call gets are [ids], and its hello messages are not lost. *)
Definition own_ok (e : call_ev) tr : Prop :=
  match e with
  | CeNew id => ids !! length (tr_sorted tr) = Some id
  | CeSaid lost => lost = false
  | _ => True
  end.

Lemma prefix_snoc (l : list KSUID) id : l `prefix_of` ids -> ids !! length l = Some id -> l ++ [id] `prefix_of` ids.
Proof using Type.
  intros [k E] Hid. rewrite E in Hid. rewrite lookup_app_r, Nat.sub_diag in Hid by done.
  destruct k as [|x k]; [done|]. injection Hid as ->. exists k. by rewrite E, <- app_assoc.
Qed.

Lemma hellos_next i id : ids !! i = Some id -> hellos ids m i = (i, encode (MHi m id)) :: hellos ids m (S i).
Proof using Type. intros Hid. unfold hellos, hello_messages. by rewrite (drop_S _ _ _ Hid). Qed.

Lemma hellos_over i : length ids <= i -> hellos ids m i = [].
Proof using Type. intros Hi. unfold hellos. by rewrite drop_ge. Qed.

(** What the call has still to say, before its [Send] is started. *)
Lemma stands_says s tr ca inp unsaid up hl lpc pcs sd dl :
  calls_of s t = Some (tr, ca) -> rank (ca_pc ca) < 4 -> stands s inp unsaid up hl lpc pcs sd dl ->
  still_says ids m addr ca unsaid.
Proof using Type.
  intros Ht Hr (ph & name & [_ _ _ _ C5 _] & _). rewrite Ht in C5. destruct ph as [[qq gq]|]; [|by apply C5].
  destruct C5 as [_ (tr0 & ca0 & [= <- <-] & Hr0 & _)]. lia.
Qed.

(** The step says the first of it. *)
Lemma stands_say s tr ca pc inp unsaid unsaid' out up hl lpc pcs sd dl :
  cp_inv s -> calls_of s t = Some (tr, ca) -> rank (ca_pc ca) < 4 -> rank (ca_pc ca) <= rank pc ->
  (forall qq, pc <> TSort qq) -> give unsaid up = give unsaid' (give out up) ->
  still_says ids m addr (set_ca_pc pc ca) unsaid' ->
  stands s inp unsaid up hl lpc pcs sd dl ->
  stands (set_call t (set_ca_pc pc ca) (set_pr_client (pr_client s) s)) inp unsaid' (give out up) hl lpc pcs sd dl.
Proof using Hnd Hhead.
  intros Hinv Ht Hr Hle Hns Hg Hsay Hst. destruct (stands_facts _ _ _ _ _ _ _ _ _ _ _ _ _ Hst) as (C1 & _).
  destruct (C1 t tr ca Ht) as [Hpa _]. apply (stands_own s tr ca tr _ _ inp unsaid); try done.
  - by eapply calls_of_same.
  - apply ws_kept_refl.
  - by apply Hpa.
  - intros [[qq gq]|]; simpl.
    + intros [_ (tr0 & ca0 & [= <- <-] & Hr0 & _)]. lia.
    + intros (Hc & _ & _). split_and!; [done|done|]. intros qq E. by destruct (Hns qq).
Qed.

(** A step that says nothing and leaves the hub of queues. *)
Lemma stands_goes s tr ca tr' ca' c' inp unsaid up hl lpc pcs sd dl :
  cp_inv s -> calls_of s t = Some (tr, ca) -> cl_trans c' = <[t := tr']> (cl_trans (pr_client s)) ->
  length (cl_wsc c') = length (cl_wsc (pr_client s)) -> clientQueueHub c' = qh s -> ws_kept (cws s) (cl_writers c') ->
  (forall m0, tr_master tr = Some m0 -> tr_master tr' = Some m0) -> tr_sorted tr' `prefix_of` ids ->
  ca_copy ca' = ca_copy ca -> ca_addr ca' = ca_addr ca -> rank (ca_pc ca) <= rank (ca_pc ca') ->
  (still_says ids m addr ca unsaid -> still_says ids m addr ca' unsaid) ->
  (forall qq p, ca_pc ca' = TSort qq -> pm_map (qh s) !! m = Some p -> p = qq) ->
  stands s inp unsaid up hl lpc pcs sd dl ->
  exists unsaid', stands (set_call t ca' (set_pr_client c' s)) inp unsaid' (give [] up) hl lpc pcs sd dl.
Proof using Hnd Hhead.
  intros Hinv Ht Htr Hn Eq Hw Hm Hpre Hc Hadr Hr Hsay Hso Hst. exists unsaid. apply (stands_own s tr ca tr' ca' c' inp unsaid); try done.
  intros ph. apply call_at_pc; [done..|]. intros qq p E Hp. left. by apply Hso.
Qed.

(** [SayID]. *)
Lemma stands_hello s tr ca i id inp unsaid up hl lpc pcs sd dl :
  cp_inv s -> calls_of s t = Some (tr, ca) -> ca_pc ca = TSay i id -> ids !! i = Some id ->
  stands s inp unsaid up hl lpc pcs sd dl ->
  exists unsaid', stands (set_call t (set_ca_pc (TWriter i id) ca) (set_pr_client (pr_client s) s)) inp unsaid'
    (give [(i, encode (MHi m id))] up) hl lpc pcs sd dl.
Proof using Hnd Hhead.
  intros Hinv Ht Epc Hi Hst.
  pose proof (stands_says s tr ca _ _ _ _ _ _ _ _ Ht ltac:(rewrite Epc; simpl; lia) Hst) as Hsay.
  unfold still_says in Hsay. rewrite Epc, (hellos_next i id Hi) in Hsay.
  exists (hellos ids m (S i) ++ est_last ids m addr).
  eapply (stands_say s tr ca _ inp unsaid); try done; [rewrite Epc; simpl; lia|by rewrite Epc|].
  by rewrite Hsay, <- give_app.
Qed.

(** [Establish], with its error or without. *)
Lemma stands_establish s tr ca pc (lost : bool) inp unsaid up hl lpc pcs sd dl :
  cp_inv s -> calls_of s t = Some (tr, ca) -> ca_pc ca = TEst ->
  (pc = TGetQueue /\ lost = false) \/ (exists err, pc = TRemove err) ->
  stands s inp unsaid up hl lpc pcs sd dl ->
  exists unsaid', stands (set_call t (set_ca_pc pc ca) (set_pr_client (pr_client s) s)) inp unsaid'
    (give (unless lost (est_last ids m addr)) up) hl lpc pcs sd dl.
Proof using Hnd Hhead.
  intros Hinv Ht Epc Hpc Hst.
  pose proof (stands_says s tr ca _ _ _ _ _ _ _ _ Ht ltac:(rewrite Epc; simpl; lia) Hst) as Hsay.
  unfold still_says in Hsay. rewrite Epc in Hsay. exists (if lost then est_last ids m addr else []).
  destruct Hpc as [[-> ->]|[err ->]]; apply (stands_say s tr ca _ inp unsaid); try done; try (rewrite Epc; simpl; lia).
  - by rewrite Hsay.
  - destruct lost; by rewrite Hsay.
  - destruct lost; unfold still_says; simpl; by auto.
Qed.

Lemma call_step_own s e tr ca c' ca' out inp unsaid up hl lpc pcs sd dl :
  cp_inv s -> calls_of s t = Some (tr, ca) -> own_ok e tr ->
  call_step t e (pr_client s) ca = Finished (c', ca', out) ->
  stands s inp unsaid up hl lpc pcs sd dl ->
  exists unsaid', stands (set_call t ca' (set_pr_client c' s)) inp unsaid' (give out up) hl lpc pcs sd dl.
Proof using Hnd Hhead.
  intros Hinv Ht Hnew H Hst. destruct (stands_facts _ _ _ _ _ _ _ _ _ _ _ _ _ Hst) as (C1 & _ & C6).
  destruct (C1 t tr ca Ht) as [Hpa _]. pose proof (proj1 (Hpa eq_refl)) as Hpre.
  destruct (call_step_on s t e tr ca c' ca' out Hinv Ht H) as (tr0 & Etr0 & En & (_ & Hgm & _) & _).
  pose proof (calls_of_same _ _ _ _ Ht) as Hid. destruct (calls_of_some _ _ _ _ Ht) as [Htr Hca].
  pose proof (master_some s t tr ca Hinv Ht) as Hms.
  destruct (cp_inv_known s t tr ca Hinv Ht) as [[_ _ [_ Hlp] _ _] _]. pose proof (ci_some _ Hinv) as Hn.
  assert (forall m0, tr_master tr = Some m0 -> m0 = m) as Hmn.
  { intros m0 Hm. destruct (master_of s t tr ca m0 Hinv C1 Ht Hm) as [Hx _]. by apply Hx. }
  unfold call_step, trans_at in H. rewrite Htr in H. simpl in H.
  destruct (ca_pc ca) as [i|i id1|i id1|i id1| | |qq| |oo|oo|err|[|[[i id1] w] l] err|i id1 l err|err] eqn:Epc, e; try done;
    repeat case_match; simplify_eq; try done;
    try (by apply (stands_goes s tr ca tr _ _ inp unsaid); unfold still_says; simpl; rewrite ?Epc, ?length_alter; simpl;
      first [lia|done|apply ws_kept_refl|apply ws_kept_close|by auto|idtac]).
  2-3: pose proof (f_equal (lookup t) Etr0) as E0; simpl in E0;
    rewrite !list_lookup_insert_eq in E0 by (by eapply lookup_lt_Some); injection E0 as <-;
    eapply (stands_goes s tr ca _ _ _ inp unsaid); try done; unfold still_says; rewrite ?Epc; try done; [apply ws_kept_refl|by apply prefix_snoc].
  4-5: pose proof (all_ids s t tr ca Hinv Ht ltac:(rewrite Epc; simpl; lia)) as Hlen;
    assert (tr_sorted tr = ids) as Hso by (apply prefix_length_eq; [done|lia]);
    rewrite Hso, (Hmn k), (proj2 (Hpa eq_refl)) by done.
  - apply (stands_goes s tr ca tr _ _ inp unsaid); try done; rewrite ?Epc; simpl; [apply ws_kept_refl|lia|].
    unfold still_says. rewrite Epc. simpl. apply Nat.ltb_ge in H0. by rewrite hellos_over by lia.
  - destruct Hlp as (Hi & Hl & Hin). destruct Hms as [m0 Hm]; [lia|]. rewrite Hm. simpl. rewrite (Hmn _ Hm), Hnew.
    apply (stands_hello s tr ca i id1 inp unsaid); try done. by eapply prefix_lookup_Some.
  - destruct Hms as [m0 Hm]; [lia|]. pose proof (Hmn _ Hm) as ->. rewrite Hm. exists unsaid. by apply (stands_add now s tr).
  - apply (stands_establish s tr ca _ lost inp unsaid); try done. right. by eexists.
  - apply (stands_establish s tr ca _ lost inp unsaid); try done. left. split; [done|].
    destruct lost; [by rewrite bool_decide_eq_true_2 in * by done|done].
  - destruct Hms as [m0 Hm]; [lia|]. pose proof (Hmn _ Hm) as ->. rewrite Hm in *. unfold QueueHub.Get in *. simpl in *.
    apply (stands_goes s tr ca tr _ _ inp unsaid); try done; rewrite ?Epc; simpl; [apply ws_kept_refl|lia|..].
    + unfold still_says. by rewrite Epc.
    + intros qq p [= <-] Hp. congruence.
  - exists unsaid. by apply (stands_start s tr).
  - exists unsaid. destruct Hms as [m0 Hm]; [lia|]. rewrite Hm in *. eapply (stands_remove s t tr ca); try done.
    split_and!; [done|done|]. right. by eexists _, _, _.
Qed.
End call_follow.
