(* ===== verification/ClientProxies.v ===== *)
(** The proxies of the client's websockets (wss/websocket_client.go): a connection
    that a call of [transData] has announced has its proxy until the call has been
    removed, so a message for it that finds none comes after that. *)
From S2P Require Import Prelude GoChan Pipe RoundRobin PtrMap Queue QueueHub Link Starts Sends Striping Base64 Json.
From S2P Require Import Messages Hub Server Client Finish Wire Direction ClientProc ClientTable ClientSafe ClientRun Typing ClientTyped.
From S2P Require Import ClientOwner CallFollow.

Section client_proxies.
Context {K : Ksuid} `{!KsuidText K}.
Implicit Types (s : cproc) (c : client) (tr : trans) (ca : call) (id : KSUID) (t k : nat).

(** The proxies that the deferred calls of a call have still to remove. *)
Definition undone ca : list (nat * KSUID) :=
  match ca_pc ca with
  | TUndo l _ => map fst l
  | TUndoProxy i id l _ => (i, id) :: map fst l
  | _ => []
  end.

Record proxies_there s : Prop := {
  pt_undone t tr ca i id : calls_of s t = Some (tr, ca) -> (i, id) ∈ undone ca -> id ∈ tr_sorted tr;
  pt_there t tr ca k id : calls_of s t = Some (tr, ca) -> rank (ca_pc ca) < 8 -> tr_sorted tr !! k = Some id ->
    is_Some (wsc_GetProxyById k id (pr_client s));
}.

Lemma deferred_ids (l : list KSUID) (ws : list nat) i id : (i, id) ∈ map fst (deferred l ws) -> id ∈ l.
Proof.
  unfold deferred. intros [[[i' id'] w] [[= -> ->] Hin]]%list_elem_of_fmap.
  apply list_elem_of_In, in_rev, list_elem_of_In in Hin.
  apply elem_of_zip_l in Hin. by apply elem_of_zip_r in Hin.
Qed.

(** No connection is new, and no proxy is removed. *)
Lemma proxies_kept s s' :
  (forall t tr' ca', calls_of s' t = Some (tr', ca') ->
     (exists tr ca, calls_of s t = Some (tr, ca) /\ tr_sorted tr' = tr_sorted tr /\ rank (ca_pc ca) <= rank (ca_pc ca') /\
        forall i id, (i, id) ∈ undone ca' -> (i, id) ∈ undone ca \/ id ∈ tr_sorted tr) \/
     (tr_sorted tr' = [] /\ undone ca' = [])) ->
  (forall k id, is_Some (wsc_GetProxyById k id (pr_client s)) -> is_Some (wsc_GetProxyById k id (pr_client s'))) ->
  proxies_there s -> proxies_there s'.
Proof.
  intros Hc Hp [H1 H2]. split.
  - intros t tr' ca' i id [(tr & ca & Ht & -> & _ & Hu)|[_ ->]]%Hc Hin; [|by apply not_elem_of_nil in Hin].
    destruct (Hu i id Hin) as [Hin'|]; [by eapply H1|done].
  - intros t tr' ca' k id [(tr & ca & Ht & -> & Hr & _)|[-> _]]%Hc Hlt Hid; [|done]. eapply Hp, H2; [exact Ht|lia|done].
Qed.

Lemma proxies_same s s' :
  (forall t, calls_of s' t = calls_of s t) -> cl_wsc (pr_client s') = cl_wsc (pr_client s) -> proxies_there s -> proxies_there s'.
Proof.
  intros Ec Ew. apply proxies_kept.
  - intros t tr ca. rewrite Ec. intros Ht. left. exists tr, ca. split_and!; [done|done|done|by left].
  - intros k id. unfold wsc_GetProxyById. by rewrite Ew.
Qed.

(** A step of a call that keeps the connections and the proxies. *)
Lemma proxies_call s t tr ca tr' ca' c' :
  calls_of s t = Some (tr, ca) -> cl_trans c' = <[t := tr']> (cl_trans (pr_client s)) -> cl_wsc c' = cl_wsc (pr_client s) ->
  tr_sorted tr' = tr_sorted tr -> rank (ca_pc ca) <= rank (ca_pc ca') ->
  (forall i id, (i, id) ∈ undone ca' -> (i, id) ∈ undone ca \/ id ∈ tr_sorted tr) ->
  proxies_there s -> proxies_there (set_call t ca' (set_pr_client c' s)).
Proof.
  intros Ht Htr Ew Es Hr Hu. apply proxies_kept.
  - intros t0 tr0 ca0. rewrite (calls_of_set s t tr ca tr' ca' c' t0 Ht Htr). intros Ht0. left. case_decide as E.
    + injection Ht0 as <- <-. subst t0. by exists tr, ca.
    + exists tr0, ca0. split_and!; [done|done|done|by left].
  - intros k id. unfold wsc_GetProxyById. simpl. by rewrite Ew.
Qed.

(** [NewProxy], and [ksuid.New] before it. *)
Lemma proxies_new s t tr ca i id ca' c' tr' :
  calls_of s t = Some (tr, ca) -> cl_trans c' = <[t := tr']> (cl_trans (pr_client s)) ->
  tr_sorted tr' = tr_sorted tr ++ [id] -> length (tr_sorted tr) = i -> i < length (cl_wsc (pr_client s)) ->
  cl_wsc c' = cl_wsc (NewProxy i t id (pr_client s)) -> rank (ca_pc ca) = 0 -> undone ca' = [] ->
  proxies_there s -> proxies_there (set_call t ca' (set_pr_client c' s)).
Proof.
  intros Ht Htr Es Hlen Hi Ew Hr Hu [H1 H2].
  assert (forall k id', wsc_GetProxyById k id' c' = wsc_GetProxyById k id' (NewProxy i t id (pr_client s))) as Eg.
  { intros k id'. unfold wsc_GetProxyById. by rewrite Ew. }
  split; intros t0 tr0 ca0; [intros j id'|intros k id']; rewrite (calls_of_set s t tr ca tr' ca' c' t0 Ht Htr); intros Ht0.
  - case_decide; [|by apply (H1 t0 tr0 ca0 j)]. injection Ht0 as <- <-. rewrite Hu. by intros ?%not_elem_of_nil.
  - intros Hlt Hid. simpl. rewrite Eg, NewProxy_get by done. destruct (decide (k = i /\ id' = id)) as [Ed|Ed]; [by eexists|]. case_decide as E.
    + injection Ht0 as <- <-. rewrite Es in Hid. apply lookup_app_Some in Hid as [Hid|[Hge Hid]].
      * eapply H2; [exact Ht|lia|done].
      * apply list_lookup_singleton_Some in Hid as [Hk ->]. destruct Ed. split; [lia|done].
    + by eapply H2.
Qed.

(** [RemoveProxy], of a call that has been removed. *)
Lemma proxies_remove s t tr ca i id l err :
  cp_inv s -> calls_of s t = Some (tr, ca) -> ca_pc ca = TUndoProxy i id l err -> proxies_there s ->
  proxies_there (set_call t (set_ca_pc (TUndo l err) ca) (set_pr_client (wsc_RemoveProxy i id (pr_client s)) s)).
Proof.
  intros Hinv Ht Epc [H1 H2].
  assert (id ∈ tr_sorted tr) as Hin by (apply (H1 t tr ca i id Ht); unfold undone; rewrite Epc; set_solver).
  split; intros t0 tr0 ca0; [intros j id'|intros k id']; rewrite (calls_of_set s t tr ca tr _ (wsc_RemoveProxy i id (pr_client s)) t0 Ht)
    by (by eapply calls_of_same); intros Ht0.
  - case_decide; [|by apply (H1 t0 tr0 ca0 j)]. injection Ht0 as <- <-. intros Hj. apply (H1 t tr ca j id' Ht).
    unfold undone in *. rewrite Epc. simpl in Hj. set_solver.
  - intros Hlt Hid. simpl. rewrite RemoveProxy_get. destruct (decide (k = i /\ id' = id)) as [Ed|Ed]; [|case_decide; [|by eapply H2]].
    2: { injection Ht0 as <- <-. simpl in Hlt. lia. }
    destruct Ed as [-> ->]. exfalso. case_decide as E; [injection Ht0 as <- <-; simpl in Hlt; lia|]. apply E.
    eapply (cs_owner _ _ (ci_calls _ Hinv)); [exact Ht0|exact Ht|by eapply list_elem_of_lookup_2|done].
Qed.

(** ** The steps *)

Lemma call_proxies s t e tr ca c' ca' out :
  cp_inv s -> calls_of s t = Some (tr, ca) -> call_step t e (pr_client s) ca = Finished (c', ca', out) ->
  proxies_there s -> proxies_there (set_call t ca' (set_pr_client c' s)).
Proof.
  intros Hinv Ht H Hp. destruct (call_step_on s t e tr ca c' ca' out Hinv Ht H) as (tr0 & Etr0 & _ & (Hrk & _ & _) & _).
  destruct (calls_of_some _ _ _ _ Ht) as [Htr _]. pose proof (calls_of_same _ _ _ _ Ht) as Hid.
  destruct (cp_inv_known s t tr ca Hinv Ht) as [[_ _ [_ Hlp] _ _] _].
  unfold call_step, trans_at in H. rewrite Htr in H. simpl in H.
  destruct (ca_pc ca) as [i|i id1|i id1|i id1| | |qq| |oo|oo|err|[|[[i id1] w1] l] err|i id1 l err|err] eqn:Epc, e; try done;
    repeat case_match; simplify_eq; try done;
    try (by apply (proxies_call s t tr ca tr); rewrite ?Epc; [..|intros j id; unfold undone; rewrite ?Epc; simpl; by auto|]).
  1-2: pose proof (f_equal (lookup t) Etr0) as E0; simpl in E0; rewrite !list_lookup_insert_eq in E0 by (by eapply lookup_lt_Some);
    injection E0 as E0; eapply (proxies_new s t tr ca i id); try done; rewrite <- ?E0, ?Epc; try done; [apply Hlp|by apply Nat.ltb_lt].
  - match goal with Hr : remove _ _ _ = Some _ |- _ => destruct (remove_parts _ _ _ _ _ Htr Hr) as (tr' & Etr & _ & Es & Ew & _) end.
    apply (proxies_call s t tr ca tr'); rewrite ?Epc; simpl; try done.
    intros j id Hin. right. exact (deferred_ids _ _ j id Hin).
  - by apply (proxies_remove s t tr ca i id1 l err).
Qed.

Lemma exec_proxies s ev s' out :
  cp_inv s -> (forall i we data, ev <> PRead i we (inr data)) -> cp_exec ev s = Finished (s', out) ->
  proxies_there s -> proxies_there s'.
Proof.
  intros Hinv Hr E Hp.
  assert (forall t ca pc, pr_calls s !! t = Some ca -> proxies_there (set_call t (set_ca_copy pc ca) s)) as Hcopy.
  { intros t ca pc Hca. destruct (calls_of_call s t ca Hinv Hca) as [tr Ht].
    pose proof (proxies_call s t tr ca tr (set_ca_copy pc ca) (pr_client s) Ht (calls_of_same _ _ _ _ Ht)) as H.
    rewrite cproc_same in H. apply H; try done. intros i id Hin. by left. }
  destruct ev as [conn a|t e|t b|t err|t lost|i we read|p b|g e|g we lost|g e|i lost|i b]; simpl in E.
  - simplify_eq. apply (proxies_kept s); [|by intros k id|done]. intros t tr' ca'. fold (new_call conn a s). rewrite calls_of_new by done.
    case_decide; [intros [= <- <-]; by right|]. intros Ht. left. exists tr', ca'. split_and!; [done|done|done|by left].
  - destruct (pr_calls s !! t) as [ca|] eqn:Hca; [|done]. destruct (new_id_ok _ _); [|done].
    destruct (call_step t e _ ca) as [[[c' ca'] o]| |] eqn:Ec; simplify_eq.
    destruct (calls_of_call s t ca Hinv Hca) as [tr Ht]. by eapply call_proxies.
  - destruct (pr_calls s !! t) as [ca|]; [|done]. simpl in E. destruct (ca_copy ca) as [|qq| |]; try done.
    destruct (pm_heap _ !! qq) as [q|]; [|done]. simpl in E. destruct (chan_send _ b); simplify_eq/=. by apply (proxies_same s).
  - destruct (pr_calls s !! t) as [ca|] eqn:Hca; [|done]. destruct (ca_copy ca); simplify_eq. by apply Hcopy.
  - destruct (pr_calls s !! t) as [ca|] eqn:Hca; [|done]. destruct (ca_copy ca); simplify_eq. by apply Hcopy.
  - case_decide; [|done]. destruct read as [e|data]; [|by destruct (Hr i we data)].
    unfold Listen_step in E. destruct (cl_wsc _ !! i) as [w|]; [|done]. destruct (wc_cancelled w); simplify_eq/=; by apply (proxies_same s).
  - destruct (pm_heap _ !! p) as [l|]; [|done]. simpl in E. destruct (chan_send _ b); simplify_eq/=. by apply (proxies_same s).
  - destruct (queue_send g e s) as [[s1 [o|]]|] eqn:Eq; simplify_eq.
    apply queue_send_some in Eq as (p & q & q' & pc' & _ & _ & _ & ->). by apply (proxies_same s).
  - destruct (about_to_write g s) as [[x b]|]; [|done]. destruct (hand x we b) as [o e].
    destruct (lost && _); [done|]. destruct (queue_send g _ s) as [[s1 [o'|]]|] eqn:Eq; simplify_eq.
    apply queue_send_some in Eq as (p & q & q' & pc' & _ & _ & _ & ->). by apply (proxies_same s).
  - destruct (link_send g e s) as [s1|] eqn:Eq; simplify_eq. apply link_send_some in Eq as (p & h' & pc' & _ & _ & ->).
    by apply (proxies_same s).
  - destruct (Nat.ltb _ _); by simplify_eq.
  - simplify_eq. eapply proxies_kept; [| |exact Hp].
    + intros t tr ca Ht. left. exists tr, ca. split_and!; [done|done|done|by left].
    + intros k id. unfold wsc_GetProxyById. simpl. destruct (decide (i = k)) as [<-|Hne]; [|by rewrite list_lookup_alter_ne].
      rewrite list_lookup_alter_eq. by destruct (cl_wsc (pr_client s) !! i).
Qed.

(** Reading a message of the server. *)
Lemma read_proxies s k we v s' out :
  cp_inv s -> down_typed s k v -> cp_exec (PRead k we (inr (Some v))) s = Finished (s', out) ->
  proxies_there s -> proxies_there s'.
Proof.
  intros Hinv (x & -> & Hx) E Hp. simpl in E. case_decide; [|done]. unfold Listen_step in E.
  destruct (cl_wsc _ !! k) as [w|]; [|done]. destruct (wc_cancelled w); [simplify_eq/=; by apply (proxies_same s)|].
  rewrite income_encode in E. destruct (consume we k x (pr_client s)) as [c| |] eqn:Ec; simplify_eq/=.
  unfold consume, to_link in Ec. destruct Hx as [m0 id b Ha _|id -> Hop].
  - repeat case_match; simplify_eq/=; by apply (proxies_same s).
  - destruct (wsc_GetProxyById 0 id _) as [proxy|] eqn:Hpx; [|simplify_eq; by apply (proxies_same s)].
    destruct Hop as (t0 & tr & ca & Ht & Hm & _). rewrite (opened_proxy s 0 id proxy t0 tr ca Hinv Hpx Ht Hm) in Ec.
    destruct (remove t0 id _) as [c1|] eqn:Er; simplify_eq. destruct (calls_of_some _ _ _ _ Ht) as [Htr Hca].
    rewrite <- (set_call_same s t0 ca c Hca). destruct (remove_parts _ _ _ _ _ Htr Er) as (tr' & Etr & _ & Es & Ew & _).
    apply (proxies_call s t0 tr ca tr' ca); try done. intros i id' Hin. by left.
Qed.

(** A message for a connection that has no proxy: its call has been removed. *)
Lemma no_proxy_removed s t tr ca k id m :
  cp_inv s -> proxies_there s -> calls_of s t = Some (tr, ca) -> tr_master tr = Some m -> tr_sorted tr !! k = Some id ->
  wsc_GetProxyById k id (pr_client s) = None ->
  8 <= rank (ca_pc ca) /\ pm_map (clientLinkHub (pr_client s)) !! m = None.
Proof.
  intros Hinv [_ Hp] Ht Hm Hid Hn. destruct (cp_inv_known s t tr ca Hinv Ht) as [[_ _ _ _ Hl] Hlive].
  assert (8 <= rank (ca_pc ca)) as Hr.
  { destruct (decide (8 <= rank (ca_pc ca))) as [|Hlt]; [done|].
    destruct (Hp t tr ca k id Ht ltac:(lia) Hid) as [x Hx]. congruence. }
  split; [done|]. by apply (proj2 (Hlive m Hm)), Hl.
Qed.
End client_proxies.
