(* ===== verification/ClientFollow.v ===== *)
(** The client's end of one connection (wss/wssocks_client.go): every step of the
    client process keeps what ClientOwner.v says of it, be it a step of the call,
    of another call, or of the goroutines that copy, write and listen. *)
From S2P Require Import Prelude GoChan Pipe RoundRobin PtrMap Queue QueueHub Link Starts Sends Striping Base64 Json.
From S2P Require Import Messages Hub Server Handshake Client Finish Wire Direction Session Upstream.
From S2P Require Import ClientProc ClientTable ClientSafe ClientRun Typing ClientTyped LinkOwner Passage Follow QueueOwner.
From S2P Require Import ClientOwner CallFollow.

Section client_follow.
Context {K : Ksuid} `{!KsuidText K}.
Context (ids : list KSUID) (m : KSUID) (addr : string) (t : nat).
Context (Hnd : NoDup ids) (Hhead : ids !! 0 = Some m).
Implicit Types (s : cproc) (tr : trans) (ca : call) (T : calls) (unsaid out : list (nat * json)) (up : wires).
Implicit Types (q : queue nat) (inp : list buffer) (hl : LinkHub) (pcs : gmap nat Link.send_pc) (sd dl : bool).

Abbreviation qh s := (clientQueueHub (pr_client s)).
Abbreviation cws s := (cl_writers (pr_client s)).
Abbreviation stands := (stands ids m addr t).
Abbreviation call_ids := (call_ids ids addr t).
Abbreviation call_at := (call_at ids m addr).

(** ** The other goroutines *)

(** A new call of [transData]. *)
Lemma stands_new s conn a inp unsaid up hl lpc pcs sd dl :
  cp_inv s -> (length (pr_calls s) = t -> a = addr) -> stands s inp unsaid up hl lpc pcs sd dl ->
  stands (new_call conn a s) inp unsaid up hl lpc pcs sd dl.
Proof using Hnd Hhead.
  intros Hinv Ha Hst. destruct (stands_facts _ _ _ _ _ _ _ _ _ _ _ _ _ Hst) as (C1 & C2 & _).
  pose proof (fun t0 => calls_of_new s conn a t0 Hinv) as Hlook. set (s' := new_call conn a s) in *.
  apply (stands_same ids m addr t Hnd Hhead s s' inp unsaid []); try done; [by apply inv_go_ok|..|apply out_others_nil].
  - intros t0 tr ca. rewrite Hlook. case_decide as E; [|apply C1]. intros [= <- <-]. split; [|intros _ id _; simpl; set_solver].
    intros ->. split; [apply prefix_nil|by apply Ha].
  - intros t0 tr ca qq. rewrite Hlook. case_decide; [by intros [= <- <-]|apply C2].
  - intros ph. rewrite Hlook. case_decide as E; [|done]. unfold calls_of. rewrite (lookup_ge_None_2 (pr_calls s)) by lia.
    destruct (cl_trans (pr_client s) !! t); destruct ph as [[qq gq]|]; simpl.
    + by intros [_ (tr & ca & ? & _)].
    + intros ->. by split_and!.
    + by intros [_ (tr & ca & ? & _)].
    + intros ->. by split_and!.
Qed.

(** The goroutine that copies goes on. *)
Lemma stands_copying s t' ca pc inp unsaid out up hl lpc pcs sd dl :
  cp_inv s -> pr_calls s !! t' = Some ca -> ca_copy ca <> CNone -> (forall qq, pc <> CCopy qq) -> out_others ids out ->
  stands s inp unsaid up hl lpc pcs sd dl ->
  stands (set_call t' (set_ca_copy pc ca) s) inp unsaid (give out up) hl lpc pcs sd dl.
Proof using Hnd Hhead.
  intros Hinv Hca Hcp Hpc Hout Hst. destruct (stands_facts _ _ _ _ _ _ _ _ _ _ _ _ _ Hst) as (C1 & C2 & _).
  destruct (calls_of_call s t' ca Hinv Hca) as [tr Ht].
  pose proof (fun t0 => calls_of_set s t' tr ca tr (set_ca_copy pc ca) (pr_client s) t0 Ht (calls_of_same _ _ _ _ Ht)) as Hlook.
  rewrite cproc_same in Hlook. apply (stands_same ids m addr t Hnd Hhead s); try done.
  - by apply inv_go_ok.
  - eapply call_ids_upd; [done|done|by apply (C1 t' tr ca)|by apply (C1 t' tr ca)].
  - eapply copies_at_upd; [done|done|]. intros qq E. by destruct (Hpc qq).
  - intros ph. rewrite Hlook. case_decide as E; [|done]. subst t'. rewrite Ht. destruct ph as [[qq gq]|]; simpl.
    + intros [-> (tr0 & ca0 & [= <- <-] & Hr & _)]. split; [done|]. eexists _, _. split_and!; [done|done|]. intros qq' E. by destruct (Hpc qq').
    + by intros [? _].
Qed.

(** What is copied to the queue. *)
Definition copied (t' : nat) (b : buffer) inp : list buffer := if decide (t' = t) then inp ++ [b] else inp.

Lemma copies_at_update s p (f : queue nat -> queue nat) :
  (forall q, pm_heap (qh s) !! p = Some q -> q_masterID (f q) = q_masterID q) ->
  copies_at (calls_of s) (qh s) -> copies_at (calls_of s) (pm_update p f (qh s)).
Proof using Type.
  intros Hf. apply copies_at_heap. intros p' q Hq. simpl. destruct (decide (p = p')) as [<-|Hne].
  - rewrite list_lookup_alter_eq, Hq. eexists. split; [done|by apply Hf].
  - rewrite list_lookup_alter_ne by done. by exists q.
Qed.

Lemma stands_put s t' ca qq q b ch inp unsaid up hl lpc pcs sd dl :
  cp_inv s -> pr_calls s !! t' = Some ca -> ca_copy ca = CCopy qq -> pm_heap (qh s) !! qq = Some q ->
  chan_send (q_buffer q) b = SendOk ch -> (t' = t -> no_eof inp /\ written b) ->
  stands s inp unsaid up hl lpc pcs sd dl ->
  stands (set_pr_client (set_cqueues (pm_update qq (set_q_buffer ch) (qh s)) (pr_client s)) s) (copied t' b inp) unsaid up hl lpc pcs sd dl.
Proof using Hnd Hhead.
  intros Hinv Hca Hcp Hq Hch Hok (ph & name & [C1 C2 C3 C4 C5 C6] & Hname & Hf).
  destruct (calls_of_call s t' ca Hinv Hca) as [tr Ht]. destruct (C2 t' tr ca qq Ht Hcp) as (q' & Hq' & Hm). simplify_eq.
  pose proof (queue_of ids m addr t Hnd Hhead s t' tr ca q _ Hinv C1 Ht Hm eq_refl) as Hown. unfold copied. case_decide as E.
  - subst t'. destruct (Hok eq_refl) as [Hno Hb]. rewrite Ht in C5. destruct ph as [[q0 gq]|].
    2: { destruct C5 as [E _]. congruence. }
    pose proof C5 as [-> (tr0 & ca0 & [= <- <-] & _ & Hqq)]. pose proof (Hqq qq Hcp) as <-.
    exists (Some (qq, gq)), name. split_and!; [split|done|]; try done.
    + by apply (copies_at_update s).
    + by apply queues_fine_update.
    + apply (queue_at_rel m _ (qh s) _ inp); [|done|done|done]. by apply heap_rel_update.
    + change (call_at (Some (qq, gq)) (calls_of s t) [] (pm_map (qh s))). by rewrite Ht.
    + apply (follows_put ids m addr Hnd Hhead qq gq name _ _ _ _ _ _ _ _ ch); try done. intros q0 Hq0. by simplify_eq.
  - assert (q_masterID q <> m) as Hne by naive_solver.
    apply (stands_apart ids m addr t Hnd Hhead s _ inp unsaid unsaid []); simpl; try done; [| |by apply inv_go_ok|by apply (copies_at_update s)|].
    + apply q_apart_update. intros q0 Hq0. by simplify_eq.
    + by apply queues_fine_update.
    + by exists ph, name.
Qed.

(** Its queue is the one that the [Send] of the connection works on. *)
Lemma send_own s ph g p q inp unsaid :
  cp_inv s -> caller ids m addr t s inp unsaid ph -> pm_go (qh s) !! g = Some p -> pm_heap (qh s) !! p = Some q ->
  q_masterID q = m -> ph = Some (p, g) /\ unsaid = [].
Proof using Type.
  intros Hinv [_ _ _ C4 C5 _] Hg Hq Hm. destruct ph as [[qq gq]|].
  - destruct C4 as (Hgo & _ & Hon & _). destruct C5 as [-> _].
    assert (p = qq) as -> by (eapply (Hon p q); [by eapply list_elem_of_lookup_2|done|done]). split; [|done].
    do 2 f_equal. eapply NoDup_lookup; [apply (so_once _ _ (ci_qsends _ Hinv))|done|done].
  - destruct C4 as [Hat _]. destruct (Hat p q Hq Hm) as [_ Hng]. destruct Hng. by eapply list_elem_of_lookup_2.
Qed.

(** A step of a queue's [Send]. *)
Definition sends_on s g p (q' : queue nat) pc' : cproc :=
  mkProc (set_cqueues (pm_update p (fun _ => q') (qh s)) (pr_client s)) (pr_calls s) (<[g := pc']> (pr_qsends s)) (pr_lsends s).

Lemma stands_queue_other s g p q ev q' pc' o out up inp unsaid hl lpc pcs sd dl :
  cp_inv s -> pm_go (qh s) !! g = Some p -> pm_heap (qh s) !! p = Some q -> q_masterID q <> m ->
  Queue.Send_step q (pc_at (pr_qsends s) g) ev = Some (q', pc', o) -> out_others ids out ->
  stands s inp unsaid up hl lpc pcs sd dl -> stands (sends_on s g p q' pc') inp unsaid (give out up) hl lpc pcs sd dl.
Proof using Hnd Hhead.
  intros Hinv Hg Hq Hne H Hout Hst. pose proof (Send_step_fields _ _ _ _ _ _ H) as (_ & _ & Em & _).
  destruct (stands_facts _ _ _ _ _ _ _ _ _ _ _ _ _ Hst) as (C1 & C2 & _).
  apply (stands_apart ids m addr t Hnd Hhead s _ inp unsaid unsaid out); simpl; try done.
  - by eapply q_apart_send.
  - intros Hf. eapply queues_fine_send; try done. apply (so_once _ _ (ci_qsends _ Hinv)).
  - by apply inv_go_ok.
  - apply (copies_at_update s); [|done]. intros q0 Hq0. by simplify_eq.
  - by apply give_others.
Qed.

Lemma stands_queue_own s g p q ev q' pc' o up up' inp unsaid hl lpc pcs sd dl :
  cp_inv s -> pm_go (qh s) !! g = Some p -> pm_heap (qh s) !! p = Some q -> q_masterID q = m ->
  Queue.Send_step q (pc_at (pr_qsends s) g) ev = Some (q', pc', o) ->
  (forall name, let v h qs up := view ids m (Some (p, g)) h (cws s) qs up hl lpc inp in
     follows ids m addr p name (v (qh s) (pr_qsends s) up) pcs sd dl ->
     follows ids m addr p name (v (pm_update p (fun _ => q') (qh s)) (<[g := pc']> (pr_qsends s)) up') pcs sd dl) ->
  stands s inp unsaid up hl lpc pcs sd dl -> stands (sends_on s g p q' pc') inp unsaid up' hl lpc pcs sd dl.
Proof using Hnd Hhead.
  intros Hinv Hg Hq Hm H Hstep (ph & name & Hc & Hname & Hf).
  destruct (send_own s ph g p q inp unsaid Hinv Hc Hg Hq Hm) as [-> ->]. destruct Hc as [C1 C2 C3 C4 C5 C6].
  pose proof (Send_step_fields _ _ _ _ _ _ H) as (_ & _ & Em & _).
  exists (Some (p, g)), name. split_and!; [split|done|by apply Hstep]; try done.
  - apply (copies_at_update s); [|done]. intros q0 Hq0. by simplify_eq.
  - eapply queues_fine_send; try done. apply (so_once _ _ (ci_qsends _ Hinv)).
  - apply (queue_at_rel m _ (qh s) _ inp); [|done|done|done]. apply heap_rel_update; [done|]. intros q0 Hq0. by simplify_eq.
Qed.

Lemma give_put k (vs : list json) up : give (map (pair k) vs) up = put k vs up.
Proof using Type.
  revert up. induction vs as [|v vs IH]; intros up; [done|]. cbn [map]. change (give (map (pair k) vs) (put k [v] up) = put k (v :: vs) up).
  rewrite IH. destruct vs as [|v' vs]; [done|]. simpl. rewrite wire_insert, decide_True, insert_insert_eq by done.
  by rewrite <- app_assoc.
Qed.

Lemma send_wrote q pc e q' pc' o :
  Queue.Send_step q pc (Queue.EvWrote e) = Some (q', pc', o) ->
  forall (w : nat) rest b, pc = Queue.PWrite (Some w) rest b -> o = Some (w, b).
Proof using Type.
  intros H w rest b ->. unfold Queue.Send_step in H. repeat case_match; by simplify_eq/=.
Qed.

Lemma stands_wrote s g x b ws_err outs e (lost : bool) s' o inp unsaid up hl lpc pcs sd dl :
  cp_inv s -> about_to_write g s = Some (x, b) -> hand x ws_err b = (outs, e) -> (lost -> is_Some ws_err) ->
  queue_send g (Queue.EvWrote e) s = Some (s', o) ->
  stands s inp unsaid up hl lpc pcs sd dl ->
  stands s' inp unsaid (give (unless lost (map (pair (w_WSC x)) outs)) up) hl lpc pcs sd dl.
Proof using Hnd Hhead.
  intros Hinv Hab Hh Hl H Hst. unfold about_to_write in Hab.
  destruct (pc_at (pr_qsends s) g) as [| | | | |[w|] rest b0| | | |] eqn:Epc; try done.
  destruct (cws s !! w) as [x0|] eqn:Hx; [|done]. simpl in Hab. injection Hab as -> ->.
  apply queue_send_some in H as (p & q & q' & pc' & Hg & Hq & E & ->).
  rewrite Epc in E. pose proof (send_wrote _ _ _ _ _ _ E w rest b eq_refl) as ->. rewrite <- Epc in E.
  destruct (decide (q_masterID q = m)) as [Hm|Hm].
  - eapply (stands_queue_own s g p q); try done. intros name v Hf.
    pose proof (follows_qwrote ids m addr Hnd Hhead p g name (qh s) (cws s) (pr_qsends s) up hl lpc inp q e q' pc' w b x
      ws_err outs lost pcs sd dl Hq E Hx Hh Hl Hf) as Hf'.
    destruct lost; simpl; [done|]. by rewrite give_put.
  - eapply (stands_queue_other s g p q); try done. apply out_others_unless.
    destruct Hst as (ph & name & [_ _ C3 _ _ _] & _).
    destruct (qf_pc _ _ _ _ _ C3 g p q w Hg Hq) as (x1 & Hx1 & Hi); [by rewrite Epc|]. simplify_eq.
    pose proof (hand_encode _ _ _ _ _ Hh) as Hout. rewrite Forall_forall in Hout.
    intros k v id [v' [[= -> ->] Hin]]%list_elem_of_fmap Hid. destruct (Hout _ Hin) as [b' [-> _]].
    apply (other_item ids); [|done]. simpl. naive_solver.
Qed.

(** A step of a queue's [Send] that writes nothing. *)
Lemma stands_sent s g e s' inp unsaid up hl lpc pcs sd dl :
  cp_inv s -> queue_send g e s = Some (s', None) ->
  stands s inp unsaid up hl lpc pcs sd dl -> stands s' inp unsaid up hl lpc pcs sd dl.
Proof using Hnd Hhead.
  intros Hinv (p & q & q' & pc' & Hg & Hq & E & ->)%queue_send_some Hst.
  destruct (decide (q_masterID q = m)) as [Hm|Hm].
  - eapply (stands_queue_own s g p q); try done. intros name v. by apply (follows_qsend ids m addr Hnd Hhead p g name _ _ _ _ _ _ _ q e).
  - eapply (stands_queue_other s g p q _ _ _ _ []); try done. apply out_others_nil.
Qed.

(** ** All of it *)

(** What the environment does for the call: its connection is to [addr], it gets
    the IDs [ids], its hello messages are not lost, and nothing is copied after
    the end of the input. *)
Definition fair (ev : cp_ev) s inp : Prop :=
  match ev with
  | PNew _ a => length (pr_calls s) = t -> a = addr
  | PCall t' e => (t' = t -> own_ok ids e (trans_at t (pr_client s))) /\ (t' <> t -> others_new ids e)
  | PCopy t' b => t' = t -> no_eof inp /\ written b
  | _ => True
  end.

Definition after (ev : cp_ev) inp : list buffer := match ev with PCopy t' b => copied t' b inp | _ => inp end.

Theorem exec_stands s ev s' out inp unsaid up hl lpc pcs sd dl :
  cp_inv s -> (forall i we data, ev <> PRead i we (inr data)) -> fair ev s inp -> cp_exec ev s = Finished (s', out) ->
  stands s inp unsaid up hl lpc pcs sd dl ->
  exists unsaid', stands s' (after ev inp) unsaid' (give out up) hl lpc pcs sd dl.
Proof using Hnd Hhead.
  intros Hinv Hr Hfair E Hst.
  destruct ev as [conn a|t' e|t' b|t' err|t' lost|i we read|p b|g e|g we lost|g e|i lost|i b]; simpl in E, Hfair; simpl after.
  - simplify_eq. exists unsaid. by apply stands_new.
  - destruct (pr_calls s !! t') as [ca|] eqn:Hca; [|done]. destruct (new_id_ok _ _); [|done].
    destruct (call_step t' e _ ca) as [[[c' ca'] o]| |] eqn:Ec; simplify_eq.
    destruct (calls_of_call s t' ca Hinv Hca) as [tr Ht]. destruct Hfair as [Hown Hoth].
    destruct (decide (t' = t)) as [->|Hne]; [|exists unsaid; eapply (call_step_others ids m addr t Hnd Hhead); eauto].
    eapply (call_step_own ids m addr t Hnd Hhead); eauto. destruct (calls_of_some _ _ _ _ Ht) as [Htr _]. unfold trans_at in Hown.
    rewrite Htr in Hown. by apply Hown.
  - exists unsaid. destruct (pr_calls s !! t') as [ca|] eqn:Hca; [|done]. simpl in E. destruct (ca_copy ca) as [|qq| |] eqn:Hcp; try done.
    destruct (pm_heap _ !! qq) as [q|] eqn:Hq; [|done]. simpl in E. destruct (chan_send _ b) as [ch| |] eqn:Hch; simplify_eq/=.
    by eapply (stands_put s t').
  - exists unsaid. destruct (pr_calls s !! t') as [ca|] eqn:Hca; [|done]. destruct (ca_copy ca) eqn:Ec; simplify_eq.
    apply (stands_copying s t' ca _ inp unsaid []); try done; [by rewrite Ec|by destruct err|apply out_others_nil].
  - exists unsaid. destruct (pr_calls s !! t') as [ca|] eqn:Hca; [|done]. destruct (ca_copy ca) eqn:Ec; simplify_eq.
    apply stands_copying; try done; [by rewrite Ec|]. by apply out_others_unless, (out_others_one ids 0 (MFinish _)).
  - exists unsaid. case_decide; [|done]. destruct read as [e|data]; [|by destruct (Hr i we data)].
    unfold Listen_step in E. destruct (cl_wsc _ !! i) as [w|]; [|done].
    destruct (wc_cancelled w); simplify_eq/=; (apply (stands_client ids m addr t Hnd Hhead s _ inp unsaid []); try done; [by apply inv_go_ok|apply out_others_nil]).
  - exists unsaid. destruct (pm_heap _ !! p) as [l|]; [|done]. simpl in E. destruct (chan_send _ b); simplify_eq/=.
    apply (stands_client ids m addr t Hnd Hhead s _ inp unsaid []); try done; [by apply inv_go_ok|apply out_others_nil].
  - exists unsaid. destruct (queue_send g e s) as [[s1 [o|]]|] eqn:Eq; simplify_eq. by eapply stands_sent.
  - exists unsaid. destruct (about_to_write g s) as [[x b]|] eqn:Ea; [|done]. destruct (hand x we b) as [o e] eqn:Eh.
    destruct (lost && _) eqn:El; [done|]. destruct (queue_send g _ s) as [[s1 [o'|]]|] eqn:Eq; simplify_eq.
    eapply stands_wrote; try done. destruct lost; [|done]. destruct we; [by eexists|done].
  - exists unsaid. destruct (link_send g e s) as [s1|] eqn:Eq; simplify_eq. apply link_send_some in Eq as (p & h' & pc' & _ & _ & ->).
    apply (stands_client ids m addr t Hnd Hhead s _ inp unsaid []); try done; [by apply inv_go_ok|apply out_others_nil].
  - exists unsaid. destruct (Nat.ltb _ _); simplify_eq.
    apply (stands_client ids m addr t Hnd Hhead s' s'); try done; [by apply inv_go_ok|]. by apply out_others_unless, (out_others_one ids i MBeat).
  - exists unsaid. simplify_eq. apply (stands_client ids m addr t Hnd Hhead s _ inp unsaid []); try done;
      [by apply inv_go_ok|by simpl; rewrite length_alter|apply out_others_nil].
Qed.

(** Reading a message of the server. *)
Theorem read_stands s k we v s' out inp unsaid up hl lpc pcs sd dl :
  cp_inv s -> down_typed s k v -> cp_exec (PRead k we (inr (Some v))) s = Finished (s', out) ->
  stands s inp unsaid up hl lpc pcs sd dl -> stands s' inp unsaid up hl lpc pcs sd dl.
Proof using Hnd Hhead.
  intros Hinv (x & -> & Hx) E Hst. simpl in E. case_decide; [|done]. unfold Listen_step in E.
  assert (forall c, clientQueueHub c = qh s -> cl_writers c = cws s -> cl_trans c = cl_trans (pr_client s) ->
    length (cl_wsc c) = length (cl_wsc (pr_client s)) -> stands (set_pr_client c s) inp unsaid up hl lpc pcs sd dl) as Hsame.
  { intros c E1 E2 E3 E4. apply (stands_client ids m addr t Hnd Hhead s _ inp unsaid []); try done; [by apply inv_go_ok| |apply out_others_nil].
    intros t0. unfold calls_of. simpl. by rewrite E3. }
  destruct (cl_wsc _ !! k) as [w|]; [|done]. destruct (wc_cancelled w); [simplify_eq/=; by apply Hsame|].
  rewrite income_encode in E. destruct (consume we k x (pr_client s)) as [c| |] eqn:Ec; simplify_eq/=.
  unfold consume, to_link in Ec. destruct Hx as [m0 id b Ha _|id -> Hop].
  - repeat case_match; simplify_eq/=; by apply Hsame.
  - destruct (wsc_GetProxyById 0 id _) as [proxy|] eqn:Hpx; [|simplify_eq; by apply Hsame].
    destruct Hop as (t0 & tr & ca & Ht & Hm & _). rewrite (opened_proxy s 0 id proxy t0 tr ca Hinv Hpx Ht Hm) in Ec.
    destruct (remove t0 id _) as [c1|] eqn:Er; simplify_eq. destruct (calls_of_some _ _ _ _ Ht) as [_ Hca].
    rewrite <- (set_call_same s t0 ca c Hca). eapply (stands_remove ids m addr t Hnd Hhead s t0 tr ca); try done. split_and!; [done|done|by left].
Qed.
End client_follow.
