(* ===== verification/ServerFollow.v ===== *)
(** The server's end of one connection (wss/proxy_server.go): what it does with
    the messages of the client, which have their types, and with its other steps. *)
From S2P Require Import Prelude GoChan Pipe RoundRobin PtrMap Queue QueueHub Link Starts Sends Striping Base64 Json.
From S2P Require Import Messages Hub Server Handshake Client Finish Wire Direction Session Upstream.
From S2P Require Import ClientProc ClientTable ClientSafe ClientRun Typing ClientTyped LinkOwner Passage Follow ServerOwner.
From S2P Require Import QueueOwner ClientOwner CallFollow ClientFollow.

Section server_follow.
Context {K : Ksuid} `{!KsuidText K}.
Context (ids : list KSUID) (m : KSUID) (addr : string) (t : nat).
Context (Hnd : NoDup ids) (Hhead : ids !! 0 = Some m).
Implicit Types (s : cproc) (st : server) (x : msg) (h : LinkHub) (id : KSUID) (unsaid : list (nat * json)) (up : wires).

Abbreviation stands := (stands ids m addr t).

(** ** The messages of the call, and those of others *)

Definition strange x : Prop :=
  match x with
  | MBeat | MFinish _ => True
  | MHi mm id => (mm ∉ ids) /\ (id ∉ ids)
  | MEst l mm _ => (mm ∉ ids) /\ none_of ids l
  | MChunk id _ => id ∉ ids
  end.

Definition own (k : nat) x : Prop :=
  (exists id, x = MHi m id /\ ids !! k = Some id) \/
  (x = MEst ids m addr /\ k = 0) \/
  (exists id b, x = MChunk id b /\ ids !! k = Some id /\ written b).

Lemma strange_other x : strange x -> other_msg ids x.
Proof using Type. by destruct x; simpl; naive_solver. Qed.

(** A message on websocket [k] is one or the other. *)
Lemma up_type_own s k x :
  cp_inv s -> call_ids ids addr t (calls_of s) -> length (cl_wsc (pr_client s)) = length ids ->
  up_type s k x -> strange x \/ own k x.
Proof using Hnd Hhead.
  intros Hinv Hids Hlen Hx.
  assert (forall mm id, announced s k mm id -> (mm = m /\ ids !! k = Some id) \/ ((mm ∉ ids) /\ (id ∉ ids))) as Ha.
  { intros mm id (t' & tr & ca & Ht & Hid & Hmm). destruct (Hids t' tr ca Ht) as [H1 H2].
    destruct (master_of ids m addr t Hnd Hhead s t' tr ca mm Hinv Hids Ht Hmm) as [M1 M2].
    destruct (decide (t' = t)) as [E|Hne]; [left|right].
    - split; [by apply M1|]. eapply prefix_lookup_Some; [done|by apply H1].
    - split; [by apply M2|]. intros Hin. apply (H2 Hne id Hin). by eapply list_elem_of_lookup_2. }
  destruct Hx as [|mm id H|t' tr ca mm -> Ht Hmm Hr Hl|mm id b H Hb|id -> _]; [by left| | | |by left].
  - destruct (Ha mm id H) as [[-> Hid]|?]; [right; left; by exists id|by left].
  - destruct (Hids t' tr ca Ht) as [H1 H2].
    destruct (master_of ids m addr t Hnd Hhead s t' tr ca mm Hinv Hids Ht Hmm) as [M1 M2].
    destruct (decide (t' = t)) as [E|Hne]; [right; right; left|left; by split; [apply M2|apply H2]].
    destruct (H1 E) as [Hpre ->]. rewrite (M1 E). split; [|done]. f_equal. apply prefix_length_eq; [done|lia].
  - destruct (Ha mm id H) as [[-> Hid]|[_ ?]]; [right; right; right; by exists id, b|by left].
Qed.

(** What the server does with messages of others. *)
Lemma serve_foreign P now we hp x st st' :
  pools_good ids m P st -> Link.we_ops we = [] -> strange x -> serve now we hp x st = Finished st' ->
  foreigns ids m P st st'.
Proof using Hhead.
  intros Hg Hops Hx H. pose proof (head_in ids m Hhead) as Hm.
  destruct x as [|mm id|l mm a|id b|id]; simpl in H, Hx.
  - by simplify_eq.
  - simplify_eq. destruct Hx. by apply foreigns_once, fg_hello.
  - simplify_eq. destruct Hx. by apply foreigns_once, fg_est.
  - unfold to_link in H. destruct (Link.Get id _) as [p|] eqn:Hp; simpl in H; [|by simplify_eq; rewrite set_links_id].
    destruct (pm_heap _ !! p) as [l|] eqn:Hl; simpl in H; [|by simplify_eq; rewrite set_links_id].
    destruct (Link.writeBuf we l _) as [[l' r]|] eqn:Hw; simplify_eq/=. by eapply foreigns_once, fg_write.
  - destruct (CloseProxyConn hp id st) as [st1|] eqn:E; simplify_eq. by eapply CloseProxyConn_foreign.
Qed.

(** A chunk of the call is delivered, if the server does not give up waiting. *)
Lemma to_link_delivers we id b h h' :
  owned ids m h -> id ∈ ids -> Link.we_ops we = [] -> Link.we_timer we = false -> written b ->
  to_link we id b h = Finished h' -> delivers h id b h'.
Proof using Type.
  intros Ho Hid Hops Htm Hb H. unfold to_link in H. destruct (Link.Get id h) as [p|] eqn:Hp; [|simplify_eq; by constructor].
  destruct (owned_ours _ _ _ _ _ Ho Hid Hp) as (l & Hl & _ & Hopen). rewrite Hl in H.
  assert ((if b_eof b then mkBuffer true [] else b) = b) as E.
  { destruct b as [[] data]; [|done]. pose proof (Hb eq_refl) as Hd. simpl in Hd. by subst. }
  rewrite E in H. unfold Link.writeBuf in H. rewrite Hops, Htm in H. simpl in H. case_decide.
  - injection H as <-. rewrite pm_update_id by done. by eapply dl_refused.
  - destruct (chan_send (l_buffer l) b) as [c| |] eqn:Hc; [|done|].
    + injection H as <-. rewrite (pm_update_at p (set_l_buffer c) l h Hl). by eapply dl_written.
    + unfold chan_send in Hc. rewrite Hopen in Hc. by destruct (Nat.ltb (length _) _).
Qed.

Lemma ests_ok_establish hp a st st' sd dl :
  sv_ests st' = sv_ests st -> sd = false -> ests_ok ids m st sd dl -> ests_ok ids m (go_establish hp m a None st') true false.
Proof using Hhead.
  intros E -> [H1 H2 H3 H4]. pose proof (head_in ids m Hhead) as Hm.
  assert (forall p e, sv_ests (go_establish hp m a None st') !! p = Some e -> es_id e ∈ ids ->
    p = length (sv_ests st) /\ es_id e = m /\ es_pc e = ECheck) as Hx.
  { intros p e. simpl. rewrite E. intros [He|[Hge He]]%lookup_app_Some Hid; [by destruct (H1 p e He Hid)|].
    apply list_lookup_singleton_Some in He as [Hp <-]. split_and!; [lia|done|done]. }
  split.
  - intros p e He Hid. by destruct (Hx p e He Hid) as (_ & ? & _).
  - done.
  - intros p p' e e' He He' Hid Hid'. destruct (Hx p e He) as [-> _]; [by rewrite Hid|]. destruct (Hx p' e' He') as [-> _]; [by rewrite Hid'|done].
  - intros p e c He Hid Hpc. destruct (Hx p e He) as (_ & _ & E'); [by rewrite Hid|]. congruence.
Qed.
End server_follow.
