(* ===== verification/ServerQueues.v ===== *)
(** The queue of one proxied connection in the server's hub of queues, which all
    clients share (pipe/queue.go, wss/proxy_server.go).

    Every queue has the ID of its master, so what is done to the queues of others
    leaves those of master [m] as they are ([q_same]).  The operations on the
    server's state that are not for the connection ([foreign] of ServerOwner.v)
    are such, or remove the connection ([q_moves]). *)
From S2P Require Import Prelude GoChan Pipe RoundRobin PtrMap Queue QueueHub Link Starts Sends Striping Base64 Json.
From S2P Require Import Messages Hub Server Handshake Client Wire Direction Session Upstream ClientProc ClientTable.
From S2P Require Import ServerTyped LinkOwner Passage Follow ServerOwner.

Section server_queues.
Context {K : Ksuid} `{!KsuidText K}.
Context (ids : list KSUID) (m : KSUID).
Implicit Types (h : QueueHub webSocketWriter) (q : queue webSocketWriter) (id mm : KSUID) (w : webSocketWriter).

(** The hub is in order, and the writers of others write for others. *)
Record q_owned h : Prop := {
  qo_wf : pm_wf h;
  qo_go : pm_go_ok h;
  qo_map id p q : pm_map h !! id = Some p -> pm_heap h !! p = Some q -> q_masterID q = id;
  qo_writers p q id w : pm_heap h !! p = Some q -> q_masterID q <> m -> q_writers q !! id = Some w -> w_Id w ∉ ids;
}.

(** The queues of [m] are the same, and no [Send] of theirs has been started. *)
Record q_same h h' : Prop := {
  qs_map : pm_map h' !! m = pm_map h !! m;
  qs_heap p q : pm_heap h !! p = Some q -> q_masterID q = m -> pm_heap h' !! p = Some q;
  qs_old p q : pm_heap h' !! p = Some q -> q_masterID q = m -> pm_heap h !! p = Some q;
  qs_master p q : pm_heap h !! p = Some q -> exists q', pm_heap h' !! p = Some q' /\ q_masterID q' = q_masterID q;
  qs_go : exists new, pm_go h' = pm_go h ++ new /\ forall p q, p ∈ new -> pm_heap h' !! p = Some q -> q_masterID q <> m;
}.

Definition q_foreign h h' : Prop := q_owned h -> q_owned h' /\ q_same h h'.

Lemma q_same_refl h : q_same h h.
Proof. split; eauto. exists []. rewrite app_nil_r. split; [done|]. by intros ? ? ?%not_elem_of_nil. Qed.

Lemma q_same_trans h h1 h' : q_same h h1 -> q_same h1 h' -> q_same h h'.
Proof.
  intros [M1 H1 O1 K1 (n1 & G1 & N1)] [M2 H2 O2 K2 (n2 & G2 & N2)]. split.
  - congruence.
  - eauto.
  - eauto.
  - intros p q (q1 & Hq1 & E1)%K1. destruct (K2 p q1 Hq1) as (q2 & ? & E2). exists q2. split; [done|congruence].
  - exists (n1 ++ n2). rewrite G2, G1, app_assoc. split; [done|]. intros p q [Hp|Hp]%elem_of_app Hq; [|by eapply N2].
    intros Em. by apply (N1 p q Hp); [apply O2|].
Qed.

Lemma q_foreign_refl h : q_foreign h h.
Proof. intros Ho. split; [done|apply q_same_refl]. Qed.

Lemma q_foreign_trans h h1 h' : q_foreign h h1 -> q_foreign h1 h' -> q_foreign h h'.
Proof. intros H1 H2 Ho. destruct (H1 Ho) as [O1 S1]. destruct (H2 O1) as [O2 S2]. split; [done|by eapply q_same_trans]. Qed.

(** ** The pieces of the methods *)

Lemma q_owned_update p f h :
  (forall q, pm_heap h !! p = Some q -> q_masterID (f q) = q_masterID q /\
     chan_closed (q_buffer (f q)) = chan_closed (q_buffer q) /\
     (q_masterID q <> m -> forall id w, q_writers (f q) !! id = Some w -> q_writers q !! id = Some w \/ w_Id w ∉ ids)) ->
  q_owned h -> q_owned (pm_update p f h).
Proof.
  intros Hf [Hwf Hgo Hmap Hwr].
  assert (forall p' q', pm_heap (pm_update p f h) !! p' = Some q' -> exists q, pm_heap h !! p' = Some q /\
    q_masterID q' = q_masterID q /\
    (q_masterID q <> m -> forall id w, q_writers q' !! id = Some w -> q_writers q !! id = Some w \/ w_Id w ∉ ids)) as Hx.
  { intros p' q'. simpl. destruct (decide (p = p')) as [<-|Hne].
    - rewrite list_lookup_alter_eq. destruct (pm_heap h !! p) as [q|] eqn:Hq; [|done]. intros [= <-].
      destruct (Hf q eq_refl) as (? & _ & ?). by exists q.
    - rewrite list_lookup_alter_ne by done. intros Hq. exists q'. auto. }
  split.
  - apply pm_wf_update; [|done]. intros q Hq Ho. destruct (Hf q Hq) as (_ & E & _). simpl. by rewrite E.
  - by apply pm_go_ok_update.
  - intros id p' q' Hp (q & Hq & -> & _)%Hx. by eapply Hmap.
  - intros p' q' id w (q & Hq & E & Hs)%Hx Hne Hw. rewrite E in Hne. destruct (Hs Hne id w Hw) as [H|H]; [|done]. by eapply Hwr.
Qed.

Lemma q_same_update p f h :
  (forall q, pm_heap h !! p = Some q -> q_masterID q <> m /\ q_masterID (f q) = q_masterID q) -> q_same h (pm_update p f h).
Proof.
  intros Hf. split; simpl; [done|..].
  - intros p' q Hq Hm. rewrite list_lookup_alter_ne; [done|]. intros ->. by destruct (Hf q Hq).
  - intros p' q Hq Hm. destruct (decide (p = p')) as [<-|Hne]; [|by rewrite list_lookup_alter_ne in Hq].
    rewrite list_lookup_alter_eq in Hq. destruct (pm_heap h !! p) as [q0|] eqn:E; [|done]. simplify_eq/=.
    destruct (Hf q0 eq_refl) as [? ?]. congruence.
  - intros p' q Hq. destruct (decide (p = p')) as [<-|Hne].
    + rewrite list_lookup_alter_eq, Hq. eexists. split; [done|]. by apply Hf.
    + rewrite list_lookup_alter_ne by done. by exists q.
  - exists []. rewrite app_nil_r. split; [done|]. by intros ? ? ?%not_elem_of_nil.
Qed.

Lemma q_foreign_update p f h :
  (forall q, pm_heap h !! p = Some q -> q_masterID q <> m /\ q_masterID (f q) = q_masterID q /\
     chan_closed (q_buffer (f q)) = chan_closed (q_buffer q) /\
     (forall id w, q_writers (f q) !! id = Some w -> q_writers q !! id = Some w \/ w_Id w ∉ ids)) ->
  q_foreign h (pm_update p f h).
Proof.
  intros Hf Ho. split; [apply q_owned_update; [|done]|apply q_same_update]; intros q Hq; destruct (Hf q Hq) as (? & ? & ? & ?); auto.
Qed.

Lemma q_owned_new mm now h : q_owned h -> q_owned (pm_new mm (NewQueue now mm) h).
Proof.
  intros [Hwf Hgo Hmap Hwr]. split; simpl; [by apply pm_wf_new|by apply pm_go_ok_new|..].
  - intros id p q. rewrite lookup_insert. case_decide as E.
    + intros [= <-]. rewrite list_lookup_middle by done. by intros [= <-].
    + intros Hp Hq. destruct (proj1 Hwf _ _ Hp) as (q' & Hq' & _).
      rewrite (lookup_app_l_Some _ _ _ _ Hq') in Hq. simplify_eq. by eapply Hmap.
  - intros p q id w [Hq|[_ Hq]]%lookup_app_Some; [by apply (Hwr p)|].
    apply list_lookup_singleton_Some in Hq as [_ <-]. simpl. by rewrite lookup_empty.
Qed.

Lemma q_foreign_new mm now h : mm <> m -> q_foreign h (pm_new mm (NewQueue now mm) h).
Proof.
  intros Hmm Ho. split; [by apply q_owned_new|]. split; simpl.
  - by rewrite lookup_insert_ne.
  - intros p q Hq _. by apply lookup_app_l_Some.
  - intros p q [Hq|[_ Hq]]%lookup_app_Some; [done|]. apply list_lookup_singleton_Some in Hq as [_ <-]. done.
  - intros p q Hq. exists q. split; [by apply lookup_app_l_Some|done].
  - exists []. rewrite app_nil_r. split; [done|]. by intros ? ? ?%not_elem_of_nil.
Qed.

Lemma q_owned_start p h : is_Some (pm_heap h !! p) -> q_owned h -> q_owned (pm_start p h).
Proof. intros Hp [Hwf Hgo Hmap Hwr]. split; [done|by apply pm_go_ok_start|done|done]. Qed.

Lemma q_foreign_start p q h : pm_heap h !! p = Some q -> q_masterID q <> m -> q_foreign h (pm_start p h).
Proof.
  intros Hq Hm Ho. split; [by apply q_owned_start; [eexists|]|]. split; simpl; eauto.
  exists [p]. split; [done|]. intros p' q' ->%list_elem_of_singleton Hq'. congruence.
Qed.

Lemma q_foreign_at mm p f h :
  mm <> m -> pm_map h !! mm = Some p ->
  (forall q, q_masterID (f q) = q_masterID q /\ chan_closed (q_buffer (f q)) = chan_closed (q_buffer q) /\
     (forall id w, q_writers (f q) !! id = Some w -> q_writers q !! id = Some w \/ w_Id w ∉ ids)) ->
  q_foreign h (pm_update p f h).
Proof.
  intros Hmm Hp Hf Ho. apply q_foreign_update; [|done]. intros q Hq. destruct (Hf q) as (? & ? & ?).
  split_and!; try done. by rewrite (qo_map _ Ho _ _ _ Hp Hq).
Qed.

(** ** The methods *)

Lemma q_owned_trySend mm h : q_owned h -> q_owned (fst (QueueHub.trySend mm h)).
Proof.
  intros Ho. unfold QueueHub.trySend. destruct (pm_map h !! mm) as [p|]; [|done].
  destruct (pm_heap h !! p) as [q|] eqn:Hq; [|done]. case_match; [|done]. by apply q_owned_start; [eexists|].
Qed.

Lemma q_foreign_trySend mm h : mm <> m -> q_foreign h (fst (QueueHub.trySend mm h)).
Proof.
  intros Hmm Ho. unfold QueueHub.trySend. destruct (pm_map h !! mm) as [p|] eqn:Hp; [|by apply q_foreign_refl].
  destruct (pm_heap h !! p) as [q|] eqn:Hq; [|by apply q_foreign_refl]. case_match; [|by apply q_foreign_refl].
  apply (q_foreign_start p q); [done| |done]. by rewrite (qo_map _ Ho _ _ _ Hp Hq).
Qed.

Lemma q_ensure_map now mm h : exists p, pm_map (QueueHub.ensure now mm h) !! mm = Some p.
Proof. unfold QueueHub.ensure. destruct (pm_map h !! mm) as [p|] eqn:E; [by exists p|]. eexists. simpl. apply lookup_insert_eq. Qed.

Lemma q_owned_ensure now mm h : q_owned h -> q_owned (QueueHub.ensure now mm h).
Proof. intros Ho. unfold QueueHub.ensure. case_match; [done|by apply q_owned_new]. Qed.

Lemma q_owned_Add now mm id w h : (mm <> m -> w_Id w ∉ ids) -> q_owned h -> q_owned (QueueHub.Add now mm id w h).
Proof.
  intros Hw Ho. unfold QueueHub.Add. pose proof (q_owned_ensure now mm h Ho) as Ho1.
  destruct (q_ensure_map now mm h) as [p Hp]. rewrite Hp. apply q_owned_trySend, q_owned_update; [|done].
  intros q Hq. split_and!; [done..|]. rewrite (qo_map _ Ho1 _ _ _ Hp Hq). intros Hne id' w'. simpl. rewrite lookup_insert.
  case_decide; [intros [= <-]; right; by apply Hw|by left].
Qed.

Lemma q_foreign_Add now mm id w h : mm <> m -> w_Id w ∉ ids -> q_foreign h (QueueHub.Add now mm id w h).
Proof.
  intros Hmm Hw. unfold QueueHub.Add. eapply q_foreign_trans.
  { unfold QueueHub.ensure. instantiate (1 := QueueHub.ensure now mm h). unfold QueueHub.ensure.
    case_match; [apply q_foreign_refl|by apply q_foreign_new]. }
  destruct (q_ensure_map now mm h) as [p Hp]. rewrite Hp. eapply q_foreign_trans; [|by apply q_foreign_trySend].
  apply (q_foreign_at mm); [done|done|]. intros q. split_and!; [done..|]. intros id' w'. simpl. rewrite lookup_insert.
  case_decide; [intros [= <-]; by right|by left].
Qed.

Lemma q_owned_SetSort now mm sort h : q_owned h -> q_owned (QueueHub.hub_SetSort now mm sort h).
Proof.
  assert (forall p h, q_owned h -> q_owned (pm_update p (Queue.SetSort sort) h)) as Hup.
  { intros p h0. apply q_owned_update. intros q _. split_and!; [done..|]. by left. }
  intros Ho. unfold QueueHub.hub_SetSort. destruct (pm_map h !! mm); [by apply Hup|].
  pose proof (q_owned_new mm now h Ho) as H1. case_match; [by apply Hup|done].
Qed.

Lemma q_foreign_SetSort now mm sort h : mm <> m -> q_foreign h (QueueHub.hub_SetSort now mm sort h).
Proof.
  intros Hmm. unfold QueueHub.hub_SetSort.
  assert (forall p h, pm_map h !! mm = Some p -> q_foreign h (pm_update p (Queue.SetSort sort) h)) as Hup.
  { intros p h0 Hp. apply (q_foreign_at mm); [done|done|]. intros q. split_and!; [done..|]. by left. }
  destruct (pm_map h !! mm) as [p|] eqn:Hp; [by apply Hup|]. pose proof (q_foreign_new mm now h Hmm) as H1.
  case_match; [|done]. eapply q_foreign_trans; [exact H1|by apply Hup].
Qed.

Lemma q_owned_Remove mm h h' : QueueHub.Remove mm h = Some h' -> q_owned h -> q_owned h'.
Proof.
  unfold QueueHub.Remove. intros H Ho. destruct (pm_close_delete_ok mm h (qo_wf _ Ho)) as (h1 & E & Hwf' & _).
  assert (h1 = h') as -> by congruence.
  destruct (pm_close_delete_inv (fun q q' => q_masterID q' = q_masterID q /\ q_writers q' = q_writers q) mm h h') as [Em HR]; [done| |done|].
  { intros q q' Hc. unfold obj_close, queue_object in Hc. pose proof (Queue.close_inv _ _ Hc) as Hi. tauto. }
  split; [done|..].
  - unfold pm_go_ok. destruct HR as [-> HF]. rewrite <- (Forall2_length _ _ _ HF). apply (qo_go _ Ho).
  - intros id p q' Hp (q & Hq & -> & _)%(heap_rel_r _ _ _ _ _ HR). rewrite Em in Hp.
    apply lookup_delete_Some in Hp as [_ Hp]. by eapply (qo_map _ Ho).
  - intros p q' id w (q & Hq & -> & ->)%(heap_rel_r _ _ _ _ _ HR). by apply (qo_writers _ Ho p).
Qed.

Lemma q_foreign_Remove mm h h' : mm <> m -> QueueHub.Remove mm h = Some h' -> q_foreign h h'.
Proof.
  intros Hmm H Ho. split; [by eapply q_owned_Remove|]. unfold QueueHub.Remove, pm_close_delete, pm_close in H.
  destruct (pm_map h !! mm) as [p|] eqn:Hp; [|simplify_eq; apply q_same_refl].
  destruct (proj1 (qo_wf _ Ho) _ _ Hp) as (q & Hq & _). rewrite Hq in H.
  destruct (obj_close q) as [q'|] eqn:Hc; [|done]. simplify_eq. pose proof (qo_map _ Ho _ _ _ Hp Hq) as Em.
  assert (q_masterID q' = q_masterID q) as Eq.
  { unfold obj_close, queue_object in Hc. pose proof (Queue.close_inv _ _ Hc) as Hi. tauto. }
  assert (p < length (pm_heap h)) as Hlt by (by eapply lookup_lt_Some). split; simpl.
  - by rewrite lookup_delete_ne.
  - intros p' q0 Hq0 Hm0. rewrite list_lookup_insert_ne; [done|]. intros ->. congruence.
  - intros p' q0 Hq0 Hm0. destruct (decide (p = p')) as [<-|Hne]; [|by rewrite list_lookup_insert_ne in Hq0].
    rewrite list_lookup_insert_eq in Hq0 by done. congruence.
  - intros p' q0 Hq0. destruct (decide (p = p')) as [<-|Hne]; [|by exists q0; rewrite list_lookup_insert_ne].
    rewrite list_lookup_insert_eq by done. exists q'. split; [done|congruence].
  - exists []. rewrite app_nil_r. split; [done|]. by intros ? ? ?%not_elem_of_nil.
Qed.

(** A step of another queue's [Send]. *)
Lemma q_foreign_send p q pc ev q' pc' out h :
  pm_heap h !! p = Some q -> q_masterID q <> m -> Queue.Send_step q pc ev = Some (q', pc', out) ->
  q_foreign h (pm_update p (fun _ => q') h).
Proof.
  intros Hq Hne H. pose proof (Queue.Send_step_fields _ _ _ _ _ _ H) as (_ & Ew & Em & _ & Ec).
  apply q_foreign_update. intros q0 Hq0. simplify_eq. rewrite Em, Ew, Ec. split_and!; [done..|]. by left.
Qed.

Lemma q_foreign_put p q b c h :
  pm_heap h !! p = Some q -> q_masterID q <> m -> chan_send (q_buffer q) b = SendOk c ->
  q_foreign h (pm_update p (set_q_buffer c) h).
Proof.
  intros Hq Hne H. apply q_foreign_update. intros q0 Hq0. simplify_eq. split_and!; [done..| |by left].
  simpl. by apply chan_send_inv in H as (-> & -> & _).
Qed.

(** The queues stay with their masters, and goroutines are only added. *)
Definition q_kept h h' : Prop :=
  (forall p q, pm_heap h !! p = Some q -> exists q', pm_heap h' !! p = Some q' /\ q_masterID q' = q_masterID q) /\
  exists new, pm_go h' = pm_go h ++ new.

Lemma q_kept_rel h h' : heap_rel (fun q q' => q_masterID q' = q_masterID q) h h' -> q_kept h h'.
Proof.
  intros HR. split; [|exists []; rewrite app_nil_r; apply HR]. intros p q Hq. by apply (heap_rel_l _ _ _ _ _ HR).
Qed.

Lemma q_kept_same h h' : q_same h h' -> q_kept h h'.
Proof. intros [_ _ _ Hk (new & Hg & _)]. split; [done|by exists new]. Qed.

Lemma q_kept_update p (f : queue webSocketWriter -> queue webSocketWriter) h :
  (forall q, pm_heap h !! p = Some q -> q_masterID (f q) = q_masterID q) -> q_kept h (pm_update p f h).
Proof. intros Hf. by apply q_kept_rel, heap_rel_update. Qed.

Lemma q_kept_trans h h1 h' : q_kept h h1 -> q_kept h1 h' -> q_kept h h'.
Proof.
  intros [M1 [n1 G1]] [M2 [n2 G2]]. split; [|exists (n1 ++ n2); by rewrite G2, G1, app_assoc].
  intros p q (q1 & Hq1 & E1)%M1. destruct (M2 p q1 Hq1) as (q2 & Hq2 & E2). exists q2. split; [done|congruence].
Qed.

Lemma q_kept_trySend mm h : q_kept h (fst (QueueHub.trySend mm h)).
Proof.
  assert (q_kept h h) as Hr by (apply q_kept_rel, heap_rel_refl; done).
  unfold QueueHub.trySend. repeat case_match; try done. split; [eauto|]. by eexists.
Qed.

Lemma q_kept_new id now mm h : q_kept h (pm_new id (NewQueue now mm) h).
Proof.
  split; [|exists []; by rewrite app_nil_r]. intros p q Hq. exists q. split; [|done]. by apply lookup_app_l_Some.
Qed.

Lemma q_kept_Add now mm id w h : q_kept h (QueueHub.Add now mm id w h).
Proof.
  unfold QueueHub.Add. eapply q_kept_trans; [|apply q_kept_trySend]. destruct (q_ensure_map now mm h) as [p Hp]. rewrite Hp.
  eapply q_kept_trans; [|by apply q_kept_update]. unfold QueueHub.ensure. case_match; [|apply q_kept_new].
  by apply q_kept_rel, heap_rel_refl.
Qed.

Lemma q_kept_SetSort now mm sort h : q_kept h (QueueHub.hub_SetSort now mm sort h).
Proof.
  unfold QueueHub.hub_SetSort. case_match; [by apply q_kept_update|]. pose proof (q_kept_new mm now mm h) as H1.
  case_match; [|done]. eapply q_kept_trans; [exact H1|by apply q_kept_update].
Qed.

Lemma q_kept_Remove mm h h' : QueueHub.Remove mm h = Some h' -> q_kept h h'.
Proof.
  intros H. apply q_kept_rel. eapply (pm_close_delete_inv _ mm); [done| |exact H]. intros q q' Hc.
  pose proof (Queue.close_inv _ _ Hc). tauto.
Qed.

(** ** What the server does to the queues *)

(** A step on the hub that is not the connection's own, or, where [P] holds, that
    removes it. *)
Definition q_move (P : Prop) h h' : Prop := (P /\ QueueHub.Remove m h = Some h') \/ q_foreign h h'.

Definition q_moves (P : Prop) : QueueHub webSocketWriter -> QueueHub webSocketWriter -> Prop := rtc (q_move P).

Lemma q_moves_foreign P h h' : q_foreign h h' -> q_moves P h h'.
Proof. intros H. apply rtc_once. by right. Qed.

Context (Hm : m ∈ ids).

Lemma q_moves_Remove P id h h' : good_id ids m P id -> QueueHub.Remove id h = Some h' -> q_moves P h h'.
Proof using Hm.
  intros Hid H. apply rtc_once. destruct (decide (id = m)) as [->|Hne]; [|right; by eapply q_foreign_Remove].
  left. by split; [apply Hid|].
Qed.

Lemma est_Close_queues P p id st st' :
  good_id ids m P id -> est_Close p id st = Some st' -> q_moves P (serverQueueHub st) (serverQueueHub st').
Proof using Hm.
  intros Hid H. unfold est_Close in H. destruct (sv_ests st !! p); [|done]. case_decide; [by simplify_eq|].
  destruct (Link.RemoveAll id _) as [l|]; simpl in H; [|done].
  destruct (QueueHub.Remove id _) as [q|] eqn:E; simplify_eq/=. by eapply q_moves_Remove.
Qed.

Lemma foreign_queues P st st' : foreign ids m P st st' -> q_moves P (serverQueueHub st) (serverQueueHub st').
Proof using Hm.
  intros Hf. destruct Hf as [now hp mm id Hmm Hid|now hp mm sort a d Hmm Hs|id p l l' we b r Hid Hp Hl Hops Hw
    |p l b c Hl Hne Hc|p id st' Hid H|st' _ E _ _]; simpl; try done.
  - apply q_moves_foreign, q_foreign_Add; [by intros ->|done].
  - apply q_moves_foreign, q_foreign_SetSort. by intros ->.
  - by eapply est_Close_queues.
  - by rewrite E.
Qed.

Lemma foreigns_queues P st st' : foreigns ids m P st st' -> q_moves P (serverQueueHub st) (serverQueueHub st').
Proof using Hm. induction 1 as [|st st1 st' H _ IH]; [done|]. etrans; [by eapply foreign_queues|done]. Qed.

(** The server has an object for the connection. *)
Definition has_est st : Prop := exists p e, sv_ests st !! p = Some e /\ es_id e = m.

Lemma has_est_kept st st' : ests_kept st st' -> has_est st -> has_est st'.
Proof using Type. intros Hk (p & e & (e' & He' & E)%Hk & Em). exists p, e'. split; [done|congruence]. Qed.

(** A step of [establish] keeps the objects. *)
Lemma establish_ids p ev st st' out : establish_step p ev st = Some (st', out) -> est_ids st' = est_ids st.
Proof using Type.
  intros H. unfold establish_step in H. destruct (sv_ests st !! p) as [e|] eqn:He; [|done]. simpl in H.
  assert (forall f st1, sv_ests st1 = sv_ests st -> (forall e, es_id (f e) = es_id e) -> est_ids (set_est p f st1) = est_ids st) as Hset.
  { intros f st1 E Hf. rewrite est_ids_set by done. unfold est_ids. by rewrite E. }
  destruct (es_pc e) as [| |conn| | | |[w|]| | | |err|err|] eqn:Hpc, ev as [|[]|[err'|conn']|sig]; try done; simplify_eq;
    try (by apply Hset).
  - destruct (pm_heap (serverQueueHub st) !! w) as [q|]; [|done]. simpl in H. destruct (done_ready _ _); simplify_eq. by apply est_ids_set.
  - destruct (est_Close p (es_id e) st) as [st1|] eqn:E; simplify_eq/=. rewrite est_ids_set by done. by eapply est_Close_ids.
Qed.

Lemma establish_has_est p ev st st' out : establish_step p ev st = Some (st', out) -> has_est st <-> has_est st'.
Proof using Type. intros H%establish_ids. split; by apply has_est_kept, est_ids_kept. Qed.

Lemma has_est_past st : past m st -> has_est st.
Proof using Type. intros (p & e & He & Ei & _). by exists p, e. Qed.

Lemma q_moves_impl (P Q : Prop) h h' : (P -> Q) -> q_moves P h h' -> q_moves Q h h'.
Proof using Type. intros HPQ. apply rtc_subrel. intros h1 h2 [[HP H]|H]; [left; auto|by right]. Qed.

(** A step of [establish]: the connection's own calls [TrySend]. *)
Lemma establish_queues p ev st st' out :
  (forall p e, sv_ests st !! p = Some e -> es_id e ∈ ids -> es_id e = m) -> establish_step p ev st = Some (st', out) ->
  q_moves (has_est st) (serverQueueHub st) (serverQueueHub st') \/
  (has_est st /\ serverQueueHub st' = fst (QueueHub.TrySend m (serverQueueHub st))).
Proof using Hm.
  intros Hids H. unfold establish_step in H. destruct (sv_ests st !! p) as [e|] eqn:He; [|done]. simpl in H.
  destruct (es_pc e) as [| |conn| | | |[w|]| | | |err|err|] eqn:Hpc, ev as [|[]|[err'|conn']|sig]; try done; simplify_eq; try (by left).
  - destruct (decide (es_id e = m)) as [Em|Hne]; [right; rewrite Em; split; [by exists p, e|done]|].
    left. by apply q_moves_foreign, q_foreign_trySend.
  - destruct (pm_heap (serverQueueHub st) !! w) as [q|]; [|done]. simpl in H. destruct (done_ready _ _); simplify_eq. by left.
  - destruct (est_Close p (es_id e) st) as [st1|] eqn:E; simplify_eq/=. left. eapply est_Close_queues; [|exact E].
    intros Hin. split; [by eapply Hids|]. exists p, e. split; [done|by eapply Hids].
Qed.
End server_queues.
