(* ===== verification/ServerAnswers.v ===== *)
(** The server's end of the way back (wss/proxy_server.go, pipe/queue.go): the
    queue of one proxied connection, from the first hello message to the last
    chunk of the target, among those of all other connections.

    [answers] says where it stands, and what the sender is in the system of
    Striping.v: while the queue waits for its connections that sender has nothing
    yet; when its [Send] is started it has what the queue has, and from then on it
    makes the same steps.  Every step of the server keeps it. *)
From S2P Require Import Prelude GoChan Pipe RoundRobin PtrMap Queue QueueHub Link Starts Sends Striping StripingRun Base64 Json.
From S2P Require Import Messages Hub Server Handshake Client Wire Direction Session Upstream Downstream ClientProc ClientTable.
From S2P Require Import ServerTyped LinkOwner Passage Follow ServerOwner ServerQueues.

(** The buffers that a new queue has accepted, when nothing has been read. *)
Inductive filled : list buffer -> chan buffer -> Prop :=
  | filled_new : filled [] makeBuffer
  | filled_put l c b c' :
      filled l c -> no_eof l -> written b -> chan_send c b = SendOk c' -> filled (l ++ [b]) c'.

Lemma filled_items l c : filled l c -> chan_items c = l /\ Forall written l /\ chan_closed c = false.
Proof.
  induction 1 as [|l c b c' _ (E & Hw & Ho) _ Hb Hc]; [by split_and!|].
  apply chan_send_inv in Hc as (_ & Ec & Ei & _). split_and!; [by rewrite Ei, E| |by rewrite Ec].
  apply Forall_app. split; [done|by constructor].
Qed.

Section server_answers.
Context {K : Ksuid} `{!KsuidText K}.

(** The number [g0] of the goroutine whose [Send] gets past its entry test. *)
Context (ids : list KSUID) (m : KSUID) (hub_of : nat -> nat) (g0 : nat).
Context (Hnd : NoDup ids) (Hm : m ∈ ids).
Implicit Types (st : server) (h : QueueHub webSocketWriter) (q : queue webSocketWriter) (id : KSUID) (w : webSocketWriter).
Implicit Types (t : wires) (lv : LinkHub) (lpc : Link.send_pc) (inp : list buffer) (aq : queue KSUID) (log : gmap nat (list buffer)).
Implicit Types (pcs : gmap nat (Queue.send_pc webSocketWriter)) (p oo sq : nat).

Abbreviation at_hub := (hub_index ids hub_of).
#[local] Hint Extern 0 (Transport wires) => exact (wire_transport at_hub) : typeclass_instances.

(** The invariant of Striping.v, with a connection that nothing has been written
    to at the start. *)
Abbreviation safe oo := (safe ids m hub_of oo []).

(** The receiver, whatever it is, stays safe when the sender goes on. *)
Definition advances aq apc t inp aq' apc' t' inp' : Prop :=
  forall oo lv lpc, safe oo (mkSys aq apc t lv lpc inp) -> safe oo (mkSys aq' apc' t' lv lpc inp').

Lemma advances_refl aq apc t inp : advances aq apc t inp aq apc t inp.
Proof. by intros oo lv lpc. Qed.

Lemma advances_trans aq apc t inp aq1 apc1 t1 inp1 aq' apc' t' inp' :
  advances aq apc t inp aq1 apc1 t1 inp1 -> advances aq1 apc1 t1 inp1 aq' apc' t' inp' -> advances aq apc t inp aq' apc' t' inp'.
Proof. intros H1 H2 oo lv lpc H. by apply H2, H1. Qed.

Lemma advances_send aq apc t inp aq' apc' t' inp' :
  (forall lv lpc, sys_send (mkSys aq apc t lv lpc inp) (mkSys aq' apc' t' lv lpc inp')) ->
  advances aq apc t inp aq' apc' t' inp'.
Proof using Hnd Hm. intros Hs oo lv lpc H. eapply (safe_step ids m hub_of oo Hnd Hm); [exact H|]. apply st_sender, Hs. Qed.

(** Messages of others come and go. *)
Lemma advances_wires aq apc t inp t' :
  (forall id, id ∈ ids -> t_pending id t' = t_pending id t) -> advances aq apc t inp aq apc t' inp.
Proof using Hnd Hm.
  intros Ht oo lv lpc H. eapply (safe_step ids m hub_of oo Hnd Hm); [exact H|]. destruct H as [cn H]. apply st_other.
  constructor; [done|apply (iv_hub _ _ _ _ _ _ H)|done|done].
Qed.

(** The sender of a queue that waits, with what it has accepted. *)
Definition waiting_queue (c : chan buffer) : queue KSUID :=
  mkQueue m c (list_to_map (map (fun id => (id, id)) ids)) ids StaWait (make_chan 0) 0.

Lemma advances_filled t l c :
  filled l c -> advances (waiting_queue makeBuffer) Queue.PEnter t [] (waiting_queue c) Queue.PEnter t l.
Proof using Hnd Hm.
  induction 1 as [|l c b c' _ IH Hno Hb Hc]; [apply advances_refl|]. eapply advances_trans; [exact IH|].
  apply advances_send. intros lv lpc. change (waiting_queue c') with (set_q_buffer c' (waiting_queue c)). by apply st_write.
Qed.

(** A writer that a hello message has registered. *)
Definition registers id w : Prop := exists k, ids !! k = Some id /\ w = NewWebSocketWriter (hub_of k) id.

Lemma registers_id id w : registers id w -> w_Id w = id /\ id ∈ ids /\ w_WSC w = at_hub id.
Proof using Hnd.
  intros (k & Hk & ->). split_and!; [done|by eapply list_elem_of_lookup_2|]. simpl. unfold hub_index.
  by rewrite (ws_index_lookup ids k id Hnd Hk).
Qed.

(** When the [Send] of a waiting queue is started. *)
Lemma advances_start t l q :
  filled l (q_buffer q) -> q_sorted q = ids -> (forall id, id ∈ ids -> is_Some (q_writers q !! id)) ->
  (forall id w, q_writers q !! id = Some w -> registers id w) ->
  advances (waiting_queue makeBuffer) Queue.PEnter t [] (map_queue w_Id q) Queue.PEnter t l.
Proof using Hnd Hm.
  intros Hf Hs Hall Hreg. eapply advances_trans; [by eapply advances_filled|]. intros oo lv lpc [cn H]. exists cn.
  eapply (sys_inv_queue ids m hub_of oo); [exact H| |done]. split; [done|]. intros id Hid. simpl. rewrite lookup_fmap.
  destruct (Hall id Hid) as [w Hw]. rewrite Hw. simpl. f_equal. by apply (registers_id id w), Hreg.
Qed.

(** ** Where the queue stands *)

(** What each queue of the server has accepted. *)
Definition accepted log p : list buffer := default [] (log !! p).

Definition quiet t : Prop := forall id, id ∈ ids -> t_pending id t = [].

(** The queue waits for its connections; [he]: the establish message has been
    read. *)
Record waits_at h (he : Prop) log p q : Prop := {
  wq_map : pm_map h !! m = Some p;
  wq_go : p ∉ pm_go h;
  wq_sorted : (q_sorted q = [] /\ (q_writers q <> ∅)) \/ (q_sorted q = ids /\ he);
  wq_reg id w : q_writers q !! id = Some w -> registers id w;
  wq_filled : filled (accepted log p) (q_buffer q);
}.

(** The queue is never started: the order has come, but for another one. *)
Definition idle h p q : Prop := (p ∉ pm_go h) /\ (pm_map h !! m = Some p -> q_sorted q = [] /\ (q_writers q <> ∅)).

(** Where the queue's one [Send] stands that gets past its entry test. *)
Definition own_pc h pcs sq : Queue.send_pc webSocketWriter :=
  if decide (pm_go h !! g0 = Some sq) then pc_at pcs g0 else Queue.PEnter.

Record runs_at h pcs sq q : Prop := {
  ra_go : sq ∈ pm_go h;
  ra_q : pm_heap h !! sq = Some q /\ q_masterID q = m;
  ra_ready : q_sorted q = ids /\ forall id, id ∈ ids -> is_Some (q_writers q !! id);
  ra_reg id w : q_writers q !! id = Some w -> registers id w;
  ra_only p q' : pm_heap h !! p = Some q' -> q_masterID q' = m -> p <> sq -> idle h p q';
  ra_others g : pm_go h !! g = Some sq -> g <> g0 ->
    pc_at pcs g = Queue.PEnter \/ exists r, pc_at pcs g = Queue.PReturned r;
  ra_pc w : pc_writer (own_pc h pcs sq) = Some w -> exists id, registers id w;
  ra_written : Forall written (q_held (own_pc h pcs sq) ++ chan_items (q_buffer q));
}.

Inductive answers h (he : Prop) pcs t log : queue KSUID -> Queue.send_pc KSUID -> list buffer -> Prop :=
  | an_wait :
      (forall p q, pm_heap h !! p = Some q -> q_masterID q = m -> waits_at h he log p q) -> quiet t ->
      answers h he pcs t log (waiting_queue makeBuffer) Queue.PEnter []
  | an_run sq q :
      runs_at h pcs sq q -> he ->
      answers h he pcs t log (map_queue w_Id q) (map_pc w_Id (own_pc h pcs sq)) (accepted log sq)
  | an_over :
      (forall p q, pm_heap h !! p = Some q -> q_masterID q = m -> idle h p q) -> he -> quiet t ->
      answers h he pcs t log (waiting_queue makeBuffer) Queue.PEnter [].

(** A program point belongs to a [Send] that has been started. *)
Definition pcs_started h pcs : Prop := forall g, is_Some (pcs !! g) -> g < length (pm_go h).

(** ** What others do *)

Lemma same_go h h' p q g : q_same m h h' -> pm_heap h !! p = Some q -> q_masterID q = m ->
  pm_go h' !! g = Some p <-> pm_go h !! g = Some p.
Proof.
  intros [_ H1 _ _ (new & Hg & Hnew)] Hq Hqm. rewrite Hg. split; [|by apply lookup_app_l_Some].
  intros [Hp|[_ Hp]]%lookup_app_Some; [done|]. exfalso. eapply (Hnew p q); [by eapply list_elem_of_lookup_2|by apply H1|done].
Qed.

Lemma same_in_go h h' p q : q_same m h h' -> pm_heap h !! p = Some q -> q_masterID q = m -> p ∈ pm_go h' <-> p ∈ pm_go h.
Proof.
  intros Hs Hq Hqm. rewrite !list_elem_of_lookup. by setoid_rewrite (same_go h h' p q _ Hs Hq Hqm).
Qed.

Lemma idle_same h h' p q : q_same m h h' -> pm_heap h !! p = Some q -> q_masterID q = m -> idle h p q -> idle h' p q.
Proof. intros Hs Hq Hqm [H1 H2]. split; [by rewrite (same_in_go h h' p q)|by rewrite (qs_map _ _ _ Hs)]. Qed.

Lemma answers_same h h' (he he' : Prop) pcs t log aq apc inp :
  q_same m h h' -> (he -> he') -> answers h he pcs t log aq apc inp -> answers h' he' pcs t log aq apc inp.
Proof.
  intros Hs Hhe Ha. destruct Ha as [Hw Hq|sq q Hr He|Hi He Hq].
  - apply an_wait; [|done]. intros p q Hp Hqm. pose proof (qs_old _ _ _ Hs p q Hp Hqm) as Hp0.
    destruct (Hw p q Hp0 Hqm) as [H1 H2 H3 H4 H5]. split; try done.
    + by rewrite (qs_map _ _ _ Hs).
    + by rewrite (same_in_go h h' p q).
    + destruct H3 as [?|[? ?]]; [by left|right; auto].
  - destruct Hr as [H1 [H2 Hqm] H3 H4 H5 H6 H7 H8].
    assert (own_pc h pcs sq = own_pc h' pcs sq) as Epc.
    { unfold own_pc. pose proof (same_go h h' sq q g0 Hs H2 Hqm). by apply decide_ext. }
    rewrite Epc in *. apply an_run; [|auto]. split; try done.
    + by rewrite (same_in_go h h' sq q).
    + split; [by apply (qs_heap _ _ _ Hs)|done].
    + intros p q' Hp Hqm' Hne. pose proof (qs_old _ _ _ Hs p q' Hp Hqm') as Hp0. apply (idle_same h); try done. by apply H5.
    + intros g Hg. by apply H6, (same_go h h' sq q).
  - apply an_over; [|auto|done]. intros p q Hp Hqm. pose proof (qs_old _ _ _ Hs p q Hp Hqm) as Hp0.
    apply (idle_same h); try done. by apply Hi.
Qed.

Lemma answers_quiet h he pcs t log aq apc inp t' :
  (quiet t -> quiet t') -> answers h he pcs t log aq apc inp -> answers h he pcs t' log aq apc inp.
Proof. intros Hq Ha. destruct Ha; [apply an_wait|apply an_run|apply an_over]; auto. Qed.

Lemma answers_wires h he pcs t log aq apc inp t' :
  (forall id, id ∈ ids -> t_pending id t' = t_pending id t) ->
  answers h he pcs t log aq apc inp -> answers h he pcs t' log aq apc inp.
Proof. intros Ht. apply answers_quiet. intros Hq id Hid. by rewrite Ht by done; apply Hq. Qed.

(** ** Starting *)

Lemma answers_idle_try h p q : pm_map h !! m = Some p -> pm_heap h !! p = Some q ->
  (q_sorted q = [] /\ (q_writers q <> ∅)) -> fst (QueueHub.trySend m h) = h.
Proof using Type.
  intros Hp Hq [Hs Hw]. unfold QueueHub.trySend. rewrite Hp, Hq, Hs. simpl. destruct (Nat.eqb_spec (size (q_writers q)) 0) as [E|]; [|done].
  by apply map_size_empty_inv in E.
Qed.

(** All connections are there when their number is. *)
Lemma all_registered (ws : gmap KSUID webSocketWriter) :
  (forall id w, ws !! id = Some w -> registers id w) -> size ws = length ids -> forall id, id ∈ ids -> is_Some (ws !! id).
Proof using Hnd.
  intros Hreg Hsize id Hid. apply elem_of_dom. assert (dom ws = list_to_set ids) as ->; [|by apply elem_of_list_to_set].
  apply set_subseteq_size_eq.
  - intros i [w Hw]%elem_of_dom. apply elem_of_list_to_set. by apply (registers_id i w), Hreg.
  - by rewrite size_dom, size_list_to_set, Hsize.
Qed.

Lemma fresh_own h pcs p : pcs_started h pcs -> p ∉ pm_go h -> own_pc (pm_start p h) pcs p = Queue.PEnter.
Proof using Type.
  intros Hp Hno. unfold own_pc. case_decide as Hg; [|done]. simpl in Hg. unfold pc_at.
  destruct (pcs !! g0) as [pc|] eqn:E; [|done]. pose proof (Hp g0 ltac:(by eexists)) as Hlt.
  rewrite lookup_app_l in Hg by done. by apply list_elem_of_lookup_2 in Hg.
Qed.

Lemma answers_start h he pcs t log p q :
  pm_go_ok h -> pcs_started h pcs -> pm_heap h !! p = Some q -> q_masterID q = m -> waits_at h he log p q -> he ->
  q_sorted q = ids -> size (q_writers q) = length ids ->
  (forall p q, pm_heap h !! p = Some q -> q_masterID q = m -> pm_map h !! m = Some p) ->
  answers (pm_start p h) he pcs t log (map_queue w_Id q) (map_pc w_Id Queue.PEnter) (accepted log p) /\
  advances (waiting_queue makeBuffer) Queue.PEnter t [] (map_queue w_Id q) (map_pc w_Id Queue.PEnter) t (accepted log p).
Proof using Hnd Hm.
  intros Hok Hpc Hq Hqm [H1 H2 H3 H4 H5] Hhe Hs Hsize Hone. pose proof (all_registered _ H4 Hsize) as Hall. split.
  2: { by apply advances_start. }
  rewrite <- (fresh_own h pcs p Hpc H2). apply an_run; [|done]. destruct (filled_items _ _ H5) as (_ & Hw & _).
  assert (forall g, pm_go (pm_start p h) !! g = Some p -> pc_at pcs g = Queue.PEnter) as Hg.
  { intros g. simpl. intros [Hg|[Hge Hg]]%lookup_app_Some; [by apply list_elem_of_lookup_2 in Hg|]. unfold pc_at.
    destruct (pcs !! g) eqn:E; [|done]. pose proof (Hpc g ltac:(by eexists)). lia. }
  split; simpl; try done.
  - apply elem_of_app. right. by apply list_elem_of_singleton.
  - intros p' q' Hp' Hqm' Hne. pose proof (Hone p' q' Hp' Hqm'). congruence.
  - intros g Hgo _. left. by apply Hg.
  - by rewrite (fresh_own h pcs p Hpc H2).
  - rewrite (fresh_own h pcs p Hpc H2). simpl. destruct (filled_items _ _ H5) as (-> & ? & _). done.
Qed.

(** [TrySend]. *)
Lemma answers_try h he pcs t log aq apc inp :
  q_owned ids m h -> pcs_started h pcs -> answers h he pcs t log aq apc inp ->
  exists aq' apc' inp', answers (fst (QueueHub.trySend m h)) he pcs t log aq' apc' inp' /\
    advances aq apc t inp aq' apc' t inp'.
Proof using Hnd Hm.
  intros Ho Hpc Ha. destruct (pm_map h !! m) as [p|] eqn:Hp.
  2: { exists aq, apc, inp. unfold QueueHub.trySend. rewrite Hp. split; [done|apply advances_refl]. }
  destruct (proj1 (qo_wf _ _ _ Ho) _ _ Hp) as (q & Hq & _). pose proof (qo_map _ _ _ Ho _ _ _ Hp Hq) as Hqm.
  assert (fst (QueueHub.trySend m h) = h -> exists aq' apc' inp', answers (fst (QueueHub.trySend m h)) he pcs t log aq' apc' inp' /\
    advances aq apc t inp aq' apc' t inp') as Hsame.
  { intros ->. exists aq, apc, inp. split; [done|apply advances_refl]. }
  destruct Ha as [Hw Hqt|sq q0 Hr He|Hi He Hqt].
  - pose proof (Hw p q Hq Hqm) as Hwp. destruct (wq_sorted _ _ _ _ _ Hwp) as [Hs|[Hs Hhe]]; [by apply Hsame, (answers_idle_try h p q)|].
    unfold QueueHub.trySend in *. rewrite Hp, Hq, Hs in *. destruct (Nat.eqb_spec (size (q_writers q)) (length ids)) as [Hsize|]; [|by apply Hsame].
    destruct (answers_start h he pcs t log p q) as [H1 H2]; try done; [apply (qo_go _ _ _ Ho)| |by eexists _, _, _].
    intros p' q' Hp' Hqm'. apply (wq_map _ _ _ _ _ (Hw p' q' Hp' Hqm')).
  - destruct (decide (p = sq)) as [->|Hne].
    2: { apply Hsame, (answers_idle_try h p q Hp Hq). by apply (ra_only _ _ _ _ Hr p q Hq Hqm Hne). }
    unfold QueueHub.trySend in *. rewrite Hp, Hq in *. destruct (Nat.eqb _ _); [|by apply Hsame].
    destruct Hr as [H1 [H2 _] H3 H4 H5 H6 H7 H8]. rewrite Hq in H2. injection H2 as <-.
    assert (own_pc (pm_start sq h) pcs sq = own_pc h pcs sq) as Epc.
    { unfold own_pc, pc_at. simpl. destruct (pcs !! g0) eqn:E; [|by repeat case_decide].
      pose proof (Hpc g0 ltac:(by eexists)). by rewrite lookup_app_l by done. }
    exists (map_queue w_Id q), (map_pc w_Id (own_pc h pcs sq)), (accepted log sq). split; [|apply advances_refl].
    rewrite <- Epc. simpl. apply an_run; [|done]. split; simpl; rewrite ?Epc; try done.
    + apply elem_of_app. by left.
    + intros p' q' Hp' Hqm' Hne'. destruct (H5 p' q' Hp' Hqm' Hne') as [I1 I2]. split; [|done]. simpl.
      intros [Hin|Hin%list_elem_of_singleton]%elem_of_app; [done|by subst].
    + intros g [Hg|[Hge Hg]]%lookup_app_Some Hne'; [by apply H6|]. left. unfold pc_at. destruct (pcs !! g) eqn:E; [|done].
      pose proof (Hpc g ltac:(by eexists)). lia.
  - destruct (Hi p q Hq Hqm) as [_ Hs]. apply Hsame, (answers_idle_try h p q Hp Hq), Hs, Hp.
Qed.

(** ** The messages of the connection *)

(** The heap and the map when a queue is made if there is none. *)
Lemma ensure_queue now h :
  q_owned ids m h ->
  exists p q, pm_map (QueueHub.ensure now m h) !! m = Some p /\ pm_heap (QueueHub.ensure now m h) !! p = Some q /\
    q_masterID q = m /\ pm_go (QueueHub.ensure now m h) = pm_go h /\
    (forall p' q', pm_heap (QueueHub.ensure now m h) !! p' = Some q' -> p' <> p -> pm_heap h !! p' = Some q') /\
    ((pm_map h !! m = Some p /\ pm_heap h !! p = Some q) \/
     (pm_map h !! m = None /\ p = length (pm_heap h) /\ q = NewQueue now m)).
Proof using Type.
  intros Ho. unfold QueueHub.ensure. destruct (pm_map h !! m) as [p|] eqn:Hp.
  - destruct (proj1 (qo_wf _ _ _ Ho) _ _ Hp) as (q & Hq & _). exists p, q. split_and!; eauto. by eapply (qo_map _ _ _ Ho).
  - exists (length (pm_heap h)), (NewQueue now m). simpl. split_and!; try done.
    + apply lookup_insert_eq.
    + by rewrite list_lookup_middle.
    + intros p' q' [?|[Hge Hq]]%lookup_app_Some Hne; [done|]. apply list_lookup_singleton_Some in Hq as [? _]. lia.
    + by right.
Qed.

Definition logged h log : Prop := forall p, is_Some (log !! p) -> p < length (pm_heap h).

Lemma logged_new h log : logged h log -> accepted log (length (pm_heap h)) = [].
Proof using Type. intros Hl. unfold accepted. destruct (log !! _) eqn:E; [|done]. pose proof (Hl _ ltac:(by eexists)). lia. Qed.

(** The connection's queue is made or changed by [f], which keeps its buffer. *)
Lemma answers_touch now f h (he he' : Prop) pcs t log aq apc inp :
  q_owned ids m h -> logged h log -> (he -> he') ->
  (forall q, q_masterID (f q) = q_masterID q /\ q_buffer (f q) = q_buffer q) ->
  (forall p q, pm_heap h !! p = Some q -> q_masterID q = m -> pm_map h !! m = Some p ->
     (q_sorted q = [] /\ (q_writers q <> ∅)) \/ (q_sorted q = ids /\ he) ->
     (forall id w, q_writers q !! id = Some w -> registers id w) ->
     ((q_sorted (f q) = [] /\ (q_writers (f q) <> ∅)) \/ (q_sorted (f q) = ids /\ he')) /\
     (forall id w, q_writers (f q) !! id = Some w -> registers id w)) ->
  (((q_sorted (f (NewQueue now m)) = [] /\ (q_writers (f (NewQueue now m)) <> ∅)) \/ (q_sorted (f (NewQueue now m)) = ids /\ ~ he /\ he')) /\
     (forall id w, q_writers (f (NewQueue now m)) !! id = Some w -> registers id w)) ->
  (he -> forall q, q_sorted (f q) = q_sorted q /\ (q_writers q <> ∅ -> q_writers (f q) <> ∅) /\
     (q_sorted q = ids -> (forall id, id ∈ ids -> is_Some (q_writers q !! id)) ->
      (forall id w, q_writers q !! id = Some w -> registers id w) -> f q = q)) ->
  answers h he pcs t log aq apc inp ->
  exists p, pm_map (QueueHub.ensure now m h) !! m = Some p /\
    answers (pm_update p f (QueueHub.ensure now m h)) he' pcs t log aq apc inp.
Proof using Type.
  intros Ho Hlog Hhe Hf Hwait Hnew Hrun Ha.
  destruct (ensure_queue now h Ho) as (p & q & Hp & Hq & Hqm & Hgo & Hback & Hor). exists p. split; [done|].
  set (h1 := QueueHub.ensure now m h) in *.
  assert (forall p' q', pm_heap (pm_update p f h1) !! p' = Some q' -> (p' = p /\ q' = f q) \/ (p' <> p /\ pm_heap h !! p' = Some q')) as Hx.
  { intros p' q'. simpl. destruct (decide (p = p')) as [<-|Hne].
    - rewrite list_lookup_alter_eq, Hq. intros [= <-]. by left.
    - rewrite list_lookup_alter_ne by done. intros H. right. split; [done|]. by apply Hback. }
  assert (forall p', p' <> p -> pm_map h !! m = Some p' -> False) as Hmap.
  { intros p' Hne Hp'. destruct Hor as [[? _]|[? _]]; congruence. }
  assert (p ∉ pm_go h \/ pm_map h !! m = Some p /\ pm_heap h !! p = Some q) as Hpg.
  { destruct Hor as [?|(_ & -> & _)]; [by right|left]. apply pm_new_not_started, (qo_go _ _ _ Ho). }
  assert (he -> forall p' q', pm_heap (pm_update p f h1) !! p' = Some q' -> q_masterID q' = m ->
    (forall q1, pm_heap h !! p' = Some q1 -> q_masterID q1 = m -> idle h p' q1) -> idle (pm_update p f h1) p' q') as Hidle.
  { intros He p' q' Hq' Hqm' Hi. split; simpl; rewrite ?Hgo; destruct (Hx p' q' Hq') as [[-> ->]|[Hnp Hq0]].
    - destruct Hor as [[Hp0 Hq0]|(Hp0 & -> & ->)]; [by apply (Hi q Hq0)|apply pm_new_not_started, (qo_go _ _ _ Ho)].
    - by apply (Hi q' Hq0).
    - intros _. destruct Hor as [[Hp0 Hq0]|(Hp0 & -> & ->)]; [|by destruct Hnew as [[?|(_ & ? & _)] _]].
      destruct (Hi q Hq0 Hqm) as [_ I2]. destruct (Hrun He q) as (E1 & E2 & _). destruct (I2 Hp0) as [I3 I4]. rewrite E1. auto.
    - intros Hp'. congruence. }
  destruct Ha as [Hw Hqt|sq q0 Hr He|Hi He Hqt].
  - apply an_wait; [|done]. intros p' q' [[-> ->]|[Hne Hq']]%Hx Hqm'; simpl.
    2: { pose proof (Hw p' q' Hq' Hqm') as H. exfalso. by eapply Hmap, wq_map. }
    destruct (Hf q) as [_ Eb]. destruct Hor as [[Hp0 Hq0]|(Hp0 & -> & ->)].
    + destruct (Hw p q Hq0 Hqm) as [_ H2 H3 H4 H5]. destruct (Hwait p q Hq0 Hqm Hp0 H3 H4) as [S1 S2].
      split; simpl; rewrite ?Hgo, ?Eb; done.
    + destruct Hnew as [S1 S2]. split; simpl; rewrite ?Hgo, ?Eb; try done.
      * apply pm_new_not_started, (qo_go _ _ _ Ho).
      * destruct S1 as [?|(? & _ & ?)]; [by left|by right].
      * rewrite (logged_new h log Hlog). constructor.
  - destruct Hr as [H1 [H2 H2m] [H3 H3'] H4 H5 H6 H7 H8].
    assert (own_pc (pm_update p f h1) pcs sq = own_pc h pcs sq) as Epc.
    { unfold own_pc. simpl. by rewrite Hgo. }
    assert (pm_heap (pm_update p f h1) !! sq = Some q0) as Hsq.
    { simpl. destruct (decide (p = sq)) as [->|Hne].
      - destruct Hpg as [?|[_ Hq0]]; [done|]. rewrite H2 in Hq0. injection Hq0 as <-. rewrite list_lookup_alter_eq, Hq. simpl.
        f_equal. by apply (Hrun He).
      - rewrite list_lookup_alter_ne by done. unfold h1, QueueHub.ensure. destruct (pm_map h !! m); [done|]. by apply lookup_app_l_Some. }
    rewrite <- Epc. apply an_run; [|auto]. split; rewrite ?Epc; simpl; rewrite ?Hgo; try done.
    intros p' q' Hq' Hqm' Hne. apply Hidle; try done. intros q1 Hq1 Hm1. by apply H5.
  - apply an_over; [|auto|done]. intros p' q' Hq' Hqm'. apply Hidle; try done. intros q1 Hq1 Hm1. by apply Hi.
Qed.

Lemma answers_hello now id w h he pcs t log aq apc inp :
  registers id w -> q_owned ids m h -> logged h log -> pcs_started h pcs -> answers h he pcs t log aq apc inp ->
  exists aq' apc' inp', answers (QueueHub.Add now m id w h) he pcs t log aq' apc' inp' /\
    advances aq apc t inp aq' apc' t inp'.
Proof using Hnd Hm.
  intros Hreg Ho Hlog Hpc Ha.
  assert (forall ws : gmap KSUID webSocketWriter, (forall i x, ws !! i = Some x -> registers i x) ->
    forall i x, <[id := w]> ws !! i = Some x -> registers i x) as Hins.
  { intros ws Hws i x. rewrite lookup_insert. case_decide as E; [intros [= <-]; by rewrite <- E|apply Hws]. }
  destruct (answers_touch now (fun q => set_q_writers (<[id := w]> (q_writers q)) q) h he he pcs t log aq apc inp)
    as (p & Hp & Ha'); try done; simpl.
  - intros p q Hq Hqm Hp Hs Hw. split; [|by apply Hins]. destruct Hs as [[? _]|?]; [left|by right].
    split; [done|]. apply insert_non_empty.
  - split; [left; split; [done|apply insert_non_empty]|]. intros i x. apply (Hins ∅). intros ? ?. by rewrite lookup_empty.
  - intros He q. split_and!; [done|intros _; apply insert_non_empty|]. intros Hs Hall Hws.
    destruct Hreg as (k & Hk & ->). destruct (Hall id) as [x Hx]; [by eapply list_elem_of_lookup_2|].
    rewrite insert_id; [by destruct q|]. rewrite Hx. f_equal. destruct (Hws id x Hx) as (k' & Hk' & ->).
    by rewrite (NoDup_lookup _ _ _ _ Hnd Hk Hk').
  - unfold QueueHub.Add. rewrite Hp. apply (answers_try _ he pcs t log); [| |done].
    2: { intros g Hg. simpl. unfold QueueHub.ensure. case_match; by apply Hpc. }
    apply (q_owned_update ids m); [|by apply q_owned_ensure]. intros q Hq. split_and!; [done..|].
    intros Hne. destruct Hne. eapply (qo_map ids m _ (q_owned_ensure ids m now m h Ho)); [exact Hp|done].
Qed.

Lemma answers_est now h (he he' : Prop) pcs t log aq apc inp :
  ~ he -> he' -> q_owned ids m h -> logged h log -> answers h he pcs t log aq apc inp ->
  answers (QueueHub.hub_SetSort now m ids h) he' pcs t log aq apc inp.
Proof using Type.
  intros Hno Hyes Ho Hlog Ha. destruct (answers_touch now (Queue.SetSort ids) h he he' pcs t log aq apc inp)
    as (p & Hp & Ha'); try done; simpl.
  - intros p q Hq Hqm Hp Hs Hw. split; [by right|done].
  - split; [by right|]. intros ? ?. by rewrite lookup_empty.
  - unfold QueueHub.hub_SetSort. unfold QueueHub.ensure in *. destruct (pm_map h !! m) as [p0|] eqn:Hp0.
    + assert (p0 = p) as -> by congruence. done.
    + rewrite Hp. done.
Qed.

(** The connection is removed. *)
Lemma answers_remove h h' (he : Prop) pcs t log aq apc inp :
  he -> q_owned ids m h -> QueueHub.Remove m h = Some h' -> answers h he pcs t log aq apc inp ->
  exists aq' apc' inp', answers h' he pcs t log aq' apc' inp' /\ advances aq apc t inp aq' apc' t inp'.
Proof using Hnd Hm.
  intros Hhe Ho H Ha. unfold QueueHub.Remove, pm_close_delete in H. destruct (pm_map h !! m) as [p|] eqn:Hp.
  2: { simplify_eq. exists aq, apc, inp. split; [done|apply advances_refl]. }
  destruct (proj1 (qo_wf _ _ _ Ho) _ _ Hp) as (q & Hq & _). pose proof (qo_map _ _ _ Ho _ _ _ Hp Hq) as Hqm.
  unfold pm_close in H. rewrite Hq in H. destruct (obj_close q) as [q'|] eqn:Hc; [|done]. simplify_eq.
  pose proof (Queue.close_inv _ _ Hc) as (Es & Ew & Em & _ & _ & _ & Ei & _).
  assert (p < length (pm_heap h)) as Hlt by (by eapply lookup_lt_Some).
  set (h' := mkPtrMap _ _ _).
  assert (forall p' q0, pm_heap h' !! p' = Some q0 -> q_masterID q0 = q_masterID q ->
    exists q1, pm_heap h !! p' = Some q1 /\ q_masterID q1 = q_masterID q) as Hx.
  { intros p' q0. simpl. destruct (decide (p = p')) as [<-|Hne]; [by exists q|]. rewrite list_lookup_insert_ne by done. by exists q0. }
  assert (forall p' q0, (p' ∉ pm_go h) -> idle h' p' q0) as Hidle.
  { intros p' q0 Hno. split; [done|]. simpl. by rewrite lookup_delete_eq. }
  destruct Ha as [Hw Hqt|sq q0 Hr He|Hi He Hqt].
  - exists (waiting_queue makeBuffer), Queue.PEnter, []. split; [|apply advances_refl]. apply an_over; [|done|done].
    intros p' q0 Hq0 Hqm0. destruct (Hx p' q0 Hq0 ltac:(congruence)) as (q1 & Hq1 & Hm1). apply Hidle.
    by apply (wq_go _ _ _ _ _ (Hw p' q1 Hq1 ltac:(congruence))).
  - destruct Hr as [H1 [H2 H2m] [H3 H3'] H4 H5 H6 H7 H8].
    assert (forall q2, pm_heap h' !! sq = Some q2 -> q_sorted q2 = q_sorted q0 -> q_writers q2 = q_writers q0 ->
      q_masterID q2 = q_masterID q0 -> chan_items (q_buffer q2) = chan_items (q_buffer q0) ->
      answers h' he pcs t log (map_queue w_Id q2) (map_pc w_Id (own_pc h' pcs sq)) (accepted log sq)) as Hrun.
    { intros q2 Hq2 Es2 Ew2 Em2 Ei2. apply an_run; [|done]. unfold own_pc in *.
      split; rewrite ?Es2, ?Ew2, ?Em2, ?Ei2; try done.
      intros p' q1 Hq1 Hqm1 Hne. destruct (Hx p' q1 Hq1 ltac:(congruence)) as (q3 & Hq3 & Hm3). apply Hidle.
      by apply (H5 p' q3 Hq3 ltac:(congruence) Hne). }
    destruct (decide (p = sq)) as [->|Hne].
    + rewrite H2 in Hq. injection Hq as <-. eexists _, _, _. split.
      * apply (Hrun q'); try done. simpl. by rewrite list_lookup_insert_eq.
      * apply advances_send. intros lv lpc. apply st_close, (close_named w_Id), Hc.
    + eexists _, _, _. split; [apply (Hrun q0); try done; simpl; by rewrite list_lookup_insert_ne|apply advances_refl].
  - exists (waiting_queue makeBuffer), Queue.PEnter, []. split; [|apply advances_refl]. apply an_over; [|done|done].
    intros p' q0 Hq0 Hqm0. destruct (Hx p' q0 Hq0 ltac:(congruence)) as (q1 & Hq1 & Hm1). apply Hidle.
    by apply (Hi p' q1 Hq1 ltac:(congruence)).
Qed.

(** ** Writing and sending *)

Lemma answers_log h he pcs t log log' aq apc inp :
  (forall p q, pm_heap h !! p = Some q -> q_masterID q = m -> accepted log' p = accepted log p) ->
  answers h he pcs t log aq apc inp -> answers h he pcs t log' aq apc inp.
Proof using Type.
  intros Hl Ha. destruct Ha as [Hw Hqt|sq q Hr He|Hi He Hqt].
  - apply an_wait; [|done]. intros p q Hq Hqm. destruct (Hw p q Hq Hqm) as [H1 H2 H3 H4 H5]. split; try done. by rewrite (Hl p q).
  - destruct (ra_q _ _ _ _ Hr) as [Hq Hqm]. rewrite <- (Hl sq q Hq Hqm). by apply an_run.
  - by apply an_over.
Qed.

(** A write to one of the queues. *)
Definition log_put p b log : gmap nat (list buffer) := <[p := accepted log p ++ [b]]> log.

Lemma accepted_put p b log p' : accepted (log_put p b log) p' = if decide (p' = p) then accepted log p ++ [b] else accepted log p'.
Proof using Type. unfold accepted at 1, log_put. rewrite lookup_insert. repeat case_decide; by subst. Qed.

Lemma answers_put h he pcs t log aq apc inp p q b c :
  pm_heap h !! p = Some q -> q_masterID q = m -> no_eof (accepted log p) -> written b -> chan_send (q_buffer q) b = SendOk c ->
  answers h he pcs t log aq apc inp ->
  exists aq' apc' inp', answers (pm_update p (set_q_buffer c) h) he pcs t (log_put p b log) aq' apc' inp' /\
    advances aq apc t inp aq' apc' t inp'.
Proof using Hnd Hm.
  intros Hq Hqm Hno Hb Hc Ha. set (h' := pm_update p (set_q_buffer c) h).
  assert (forall p' q', pm_heap h' !! p' = Some q' -> (p' = p /\ q' = set_q_buffer c q) \/ (p' <> p /\ pm_heap h !! p' = Some q')) as Hx.
  { intros p' q'. simpl. destruct (decide (p = p')) as [<-|Hne]; [rewrite list_lookup_alter_eq, Hq; intros [= <-]; by left|].
    rewrite list_lookup_alter_ne by done. by right. }
  destruct Ha as [Hw Hqt|sq q0 Hr He|Hi He Hqt].
  - exists (waiting_queue makeBuffer), Queue.PEnter, []. split; [|apply advances_refl]. apply an_wait; [|done].
    intros p' q' Hq' Hqm'. destruct (Hx p' q' Hq') as [[-> ->]|[Hne Hq0]].
    + destruct (Hw p q Hq Hqm) as [H1 H2 H3 H4 H5]. split; try done. rewrite accepted_put, decide_True by done. by eapply filled_put.
    + destruct (Hw p' q' Hq0 Hqm') as [H1 H2 H3 H4 H5]. split; try done. by rewrite accepted_put, decide_False.
  - destruct Hr as [H1 [H2 H2m] H3 H4 H5 H6 H7 H8].
    assert (forall p' q', pm_heap h' !! p' = Some q' -> q_masterID q' = m -> p' <> sq -> idle h' p' q') as Honly.
    { intros p' q' Hq' Hqm' Hne. destruct (Hx p' q' Hq') as [[-> ->]|[Hnp Hq0]]; [by destruct (H5 p q Hq Hqm Hne)|].
      by destruct (H5 p' q' Hq0 Hqm' Hne). }
    destruct (decide (p = sq)) as [->|Hne].
    + rewrite Hq in H2. injection H2 as <-. exists (map_queue w_Id (set_q_buffer c q)), (map_pc w_Id (own_pc h' pcs sq)), (accepted log sq ++ [b]).
      split; [|apply advances_send; intros lv lpc; by apply (st_write (map_queue w_Id q))].
      assert (accepted (log_put sq b log) sq = accepted log sq ++ [b]) as <- by (by rewrite accepted_put, decide_True).
      apply an_run; [|done]. split; try done; [split; [simpl; by rewrite list_lookup_alter_eq, Hq|done]|].
      simpl. apply chan_send_inv in Hc as (_ & _ & -> & _). rewrite app_assoc. apply Forall_app. split; [done|by constructor].
    + exists (map_queue w_Id q0), (map_pc w_Id (own_pc h' pcs sq)), (accepted log sq). split; [|apply advances_refl].
      assert (accepted (log_put p b log) sq = accepted log sq) as <- by (by rewrite accepted_put, decide_False by congruence).
      apply an_run; [|done]. split; try done. simpl. by rewrite list_lookup_alter_ne.
  - exists (waiting_queue makeBuffer), Queue.PEnter, []. split; [|apply advances_refl]. apply an_over; [|done|done].
    intros p' q' Hq' Hqm'. destruct (Hx p' q' Hq') as [[-> ->]|[Hnp Hq0]]; [by destruct (Hi p q Hq Hqm)|by destruct (Hi p' q' Hq0 Hqm')].
Qed.

(** What a step of [Send] leaves on the websockets. *)
Definition handed (o : option (webSocketWriter * buffer)) (ev : Queue.send_ev) t t' : Prop :=
  match o with
  | None => t' = t
  | Some (w, b) => exists e ws_err out (lost : bool), ev = Queue.EvWrote e /\ hand w ws_err b = (out, e) /\
      (lost -> is_Some ws_err) /\ t' = if lost then t else put (w_WSC w) out t
  end.

Lemma answers_send h he pcs t t' log aq apc inp g p q ev q' pc' o :
  pm_go h !! g = Some p -> pm_heap h !! p = Some q -> q_masterID q = m ->
  Queue.Send_step q (pc_at pcs g) ev = Some (q', pc', o) -> handed o ev t t' ->
  (g <> g0 -> pc_at pcs g = Queue.PEnter -> q_status q = StaSend \/ q_status q = StaDone) ->
  answers h he pcs t log aq apc inp ->
  exists aq' apc' inp', answers (pm_update p (fun _ => q') h) he (<[g := pc']> pcs) t' log aq' apc' inp' /\
    advances aq apc t inp aq' apc' t' inp'.
Proof using Hnd Hm.
  intros Hg Hq Hqm Hs Hh Hfair Ha. pose proof (list_elem_of_lookup_2 _ _ _ Hg) as Hin.
  destruct Ha as [Hw Hqt|sq q0 Hr He|Hi He Hqt].
  1: { by destruct (wq_go _ _ _ _ _ (Hw p q Hq Hqm)). }
  2: { by destruct (Hi p q Hq Hqm) as []. }
  destruct (decide (p = sq)) as [->|Hne]; [|by destruct (ra_only _ _ _ _ Hr p q Hq Hqm Hne)].
  destruct Hr as [H1 [H2 H2m] [H3 H3'] H4 H5 H6 H7 H8]. rewrite Hq in H2. injection H2 as <-.
  pose proof (Queue.Send_step_fields _ _ _ _ _ _ Hs) as (Es & Ew & Em & _).
  set (h' := pm_update sq (fun _ => q') h).
  assert (pm_heap h' !! sq = Some q') as Hq' by (simpl; by rewrite list_lookup_alter_eq, Hq).
  assert (forall p' q1, pm_heap h' !! p' = Some q1 -> q_masterID q1 = m -> p' <> sq -> idle h' p' q1) as Honly.
  { intros p' q1 Hq1 Hqm1 Hne. simpl in Hq1. rewrite list_lookup_alter_ne in Hq1 by done. by destruct (H5 p' q1 Hq1 Hqm1 Hne). }
  assert (forall pc, (forall w, pc_writer (own_pc h' (<[g := pc]> pcs) sq) = Some w -> exists id, registers id w) ->
    Forall written (q_held (own_pc h' (<[g := pc]> pcs) sq) ++ chan_items (q_buffer q')) ->
    (g <> g0 -> exists r, pc = Queue.PReturned r) ->
    answers h' he (<[g := pc]> pcs) t' log (map_queue w_Id q') (map_pc w_Id (own_pc h' (<[g := pc]> pcs) sq)) (accepted log sq)) as Hrun.
  { intros pc Hpw Hwr Hret. apply an_run; [|done]. split; rewrite ?Es, ?Ew; try done; [split; [done|congruence]|].
    intros g' Hg' Hne'. unfold pc_at. destruct (decide (g = g')) as [<-|Hgg]; [rewrite lookup_insert_eq; right; simpl; by apply Hret|].
    rewrite lookup_insert_ne by done. by apply H6. }
  destruct (decide (g = g0)) as [->|Hgg].
  - assert (own_pc h pcs sq = pc_at pcs g0) as Epc by (unfold own_pc; by rewrite decide_True). rewrite Epc in *.
    assert (own_pc h' (<[g0 := pc']> pcs) sq = pc') as Epc'.
    { unfold own_pc, pc_at. rewrite decide_True by done. by rewrite lookup_insert_eq. }
    destruct (Send_step_written _ _ _ _ _ _ Hs H8) as [Hwr Hwb].
    destruct (Send_step_writer (fun w => exists id, registers id w) _ _ _ _ _ _ Hs) as [Hpw Hww]; [by eauto|done|].
    eexists _, _, _. split; [apply (Hrun pc'); rewrite ?Epc'; done|]. rewrite Epc'. apply advances_send. intros lv lpc.
    destruct o as [[w b]|]; simpl in Hh.
    + destruct Hh as (e & ws_err & out & lost & -> & Hh & Hl & ->). destruct (Hww w b eq_refl) as [id Hreg].
      destruct (registers_id id w Hreg) as (Hid & _ & Hws).
      apply (sent_sim at_hub w_Id _ _ _ _ _ _ _ _ _ w b w ws_err out lost Hs Hh Hl); [by eapply Hwb|done|by rewrite Hid].
    + subst t'. apply (st_send _ _ _ _ _ _ ev), (Send_step_named w_Id _ _ _ _ _ _ Hs).
  - pose proof (H6 g Hg Hgg) as Hpc. specialize (Hfair Hgg).
    assert (q' = q /\ o = None /\ exists r, pc' = Queue.PReturned r) as (-> & -> & r & ->).
    { destruct Hpc as [E|[r E]]; rewrite E in Hs; destruct ev; simpl in Hs; try done. rewrite decide_True in Hs by (by apply Hfair).
      simplify_eq. split_and!; [done|done|by eexists]. }
    simpl in Hh. subst t'. unfold h' in *. rewrite (pm_update_id sq q h Hq) in *.
    assert (own_pc h (<[g := Queue.PReturned r]> pcs) sq = own_pc h pcs sq) as Epc.
    { unfold own_pc, pc_at. by rewrite lookup_insert_ne. }
    eexists _, _, _. split; [apply (Hrun (Queue.PReturned r)); rewrite ?Epc; by eauto|]. rewrite Epc. apply advances_refl.
Qed.

(** ** The hub with all its queues *)

Record sound h pcs log : Prop := {
  sd_owned : q_owned ids m h;
  sd_logged : logged h log;
  sd_started : pcs_started h pcs;
  sd_writer g p q w : pm_go h !! g = Some p -> pm_heap h !! p = Some q -> q_masterID q <> m ->
    pc_writer (pc_at pcs g) = Some w -> w_Id w ∉ ids;
}.

Lemma sound_kept h h' pcs log : sound h pcs log -> q_owned ids m h' -> q_kept h h' -> sound h' pcs log.
Proof using Type.
  intros [Ho Hl Hp Hw] Ho' [Hk [new Hg]]. split; [done|..].
  - intros p Hlog. pose proof (Hl p Hlog) as Hlt. apply lookup_lt_is_Some in Hlt as [q Hq].
    destruct (Hk p q Hq) as (q' & Hq' & _). by eapply lookup_lt_Some.
  - intros g Hsome. rewrite Hg, length_app. pose proof (Hp g Hsome). lia.
  - intros g p q w. rewrite Hg. intros [Hgo|[Hge Hgo]]%lookup_app_Some Hq Hne Hpc.
    + pose proof (qo_go _ _ _ Ho) as Hok. unfold pm_go_ok in Hok. rewrite Forall_forall in Hok.
      destruct (lookup_lt_is_Some_2 _ _ (Hok p (list_elem_of_lookup_2 _ _ _ Hgo))) as [q0 Hq0].
      destruct (Hk p q0 Hq0) as (q1 & Hq1 & E). apply (Hw g p q0 w Hgo Hq0); [|done]. congruence.
    + unfold pc_at in Hpc. destruct (pcs !! g) eqn:E; [|done]. pose proof (Hp g ltac:(by eexists)). lia.
Qed.

(** Where the connection stands at the server. *)
Definition stands_back h he pcs t log aq apc inp : Prop := sound h pcs log /\ answers h he pcs t log aq apc inp.

(** It goes on, and the receiver stays safe. *)
Definition goes h' he' pcs' t' log' aq apc t inp : Prop :=
  exists aq' apc' inp', stands_back h' he' pcs' t' log' aq' apc' inp' /\ advances aq apc t inp aq' apc' t' inp'.

Lemma stands_back_he h (he he' : Prop) pcs t log aq apc inp :
  (he -> he') -> stands_back h he pcs t log aq apc inp -> stands_back h he' pcs t log aq apc inp.
Proof using Type. intros Hhe [Hs Ha]. split; [done|]. eapply answers_same; [apply q_same_refl|exact Hhe|exact Ha]. Qed.

Lemma goes_move (he he' : Prop) h h' pcs t log aq apc inp :
  q_moves ids m he h h' -> (he -> he') -> stands_back h he pcs t log aq apc inp -> goes h' he' pcs t log aq apc t inp.
Proof using Hnd Hm.
  intros Hmv Hhe. revert aq apc inp. induction Hmv as [h|h h1 h' Hst _ IH]; intros aq apc inp [Hs Ha].
  - exists aq, apc, inp. split; [split; [done|]|apply advances_refl]. by eapply answers_same; [apply q_same_refl|..].
  - assert (goes h1 he pcs t log aq apc t inp) as (aq1 & apc1 & inp1 & Hs1 & Had1).
    { destruct Hst as [[He Hrm]|Hf].
      - destruct (answers_remove _ _ _ _ _ _ _ _ _ He (sd_owned _ _ _ Hs) Hrm Ha) as (aq1 & apc1 & inp1 & Ha1 & Had1).
        exists aq1, apc1, inp1. split; [split; [|done]|done].
        eapply sound_kept; [done| |by eapply q_kept_Remove]. eapply q_owned_Remove; [exact Hrm|apply (sd_owned _ _ _ Hs)].
      - destruct (Hf (sd_owned _ _ _ Hs)) as [Ho1 Hs1]. exists aq, apc, inp. split; [split|apply advances_refl].
        + eapply sound_kept; [done|done|by eapply q_kept_same].
        + by eapply answers_same. }
    destruct (IH aq1 apc1 inp1 Hs1) as (aq' & apc' & inp' & Hs' & Had'). exists aq', apc', inp'. split; [done|].
    by eapply advances_trans.
Qed.

Lemma goes_wires h he pcs t t' log aq apc inp :
  (forall id, id ∈ ids -> t_pending id t' = t_pending id t) ->
  stands_back h he pcs t log aq apc inp -> goes h he pcs t' log aq apc t inp.
Proof using Hnd Hm.
  intros Ht [Hs Ha]. exists aq, apc, inp. split; [split; [done|by eapply answers_wires]|by apply advances_wires].
Qed.

Lemma goes_try h he pcs t log aq apc inp :
  stands_back h he pcs t log aq apc inp -> goes (fst (QueueHub.TrySend m h)) he pcs t log aq apc t inp.
Proof using Hnd Hm.
  intros [Hs Ha]. destruct (answers_try h he pcs t log aq apc inp) as (aq' & apc' & inp' & Ha' & Had); [apply Hs|apply Hs|done|].
  exists aq', apc', inp'. split; [split; [|done]|done]. eapply sound_kept; [done| |apply q_kept_trySend].
  apply q_owned_trySend, Hs.
Qed.

Lemma goes_hello now id w h he pcs t log aq apc inp :
  registers id w -> stands_back h he pcs t log aq apc inp -> goes (QueueHub.Add now m id w h) he pcs t log aq apc t inp.
Proof using Hnd Hm.
  intros Hreg [Hs Ha]. destruct (answers_hello now id w h he pcs t log aq apc inp Hreg) as (aq' & apc' & inp' & Ha' & Had);
    [apply Hs|apply Hs|apply Hs|done|].
  exists aq', apc', inp'. split; [split; [|done]|done]. eapply sound_kept; [done| |apply q_kept_Add]. by apply q_owned_Add, Hs.
Qed.

Lemma goes_est now h (he he' : Prop) pcs t log aq apc inp :
  ~ he -> he' -> stands_back h he pcs t log aq apc inp -> goes (QueueHub.hub_SetSort now m ids h) he' pcs t log aq apc t inp.
Proof using Hnd Hm.
  intros Hno Hyes [Hs Ha]. exists aq, apc, inp. split; [split|apply advances_refl].
  - eapply sound_kept; [done| |apply q_kept_SetSort]. apply q_owned_SetSort, Hs.
  - eapply answers_est; try done; apply Hs.
Qed.

(** A queue accepts a buffer. *)
Lemma goes_put h he pcs t log aq apc inp p q b c :
  pm_heap h !! p = Some q -> chan_send (q_buffer q) b = SendOk c ->
  (q_masterID q = m -> no_eof (accepted log p) /\ written b) -> stands_back h he pcs t log aq apc inp ->
  goes (pm_update p (set_q_buffer c) h) he pcs t (log_put p b log) aq apc t inp.
Proof using Hnd Hm.
  intros Hq Hc Hown [Hs Ha].
  assert (sound (pm_update p (set_q_buffer c) h) pcs (log_put p b log)) as Hs'.
  { assert (q_owned ids m (pm_update p (set_q_buffer c) h)) as Ho.
    { apply q_owned_update; [|apply Hs]. intros q0 Hq0. simplify_eq. split_and!; [done| |by left].
      simpl. by apply chan_send_inv in Hc as (-> & -> & _). }
    destruct (sound_kept h _ pcs log Hs Ho) as [H1 H2 H3 H4]; [by apply q_kept_update|]. split; [done| |done|done].
    intros p'. unfold log_put. rewrite lookup_insert. case_decide as E; [intros _|apply H2].
    simpl. rewrite length_alter, <- E. by eapply lookup_lt_Some. }
  destruct (decide (q_masterID q = m)) as [Hqm|Hne].
  - destruct (Hown Hqm) as [Hno Hb].
    destruct (answers_put h he pcs t log aq apc inp p q b c Hq Hqm Hno Hb Hc Ha) as (aq' & apc' & inp' & Ha' & Had).
    by exists aq', apc', inp'.
  - exists aq, apc, inp. split; [split; [done|]|apply advances_refl].
    destruct (q_foreign_put ids m p q b c h Hq Hne Hc (sd_owned _ _ _ Hs)) as [_ Hsame].
    eapply answers_log; [|by eapply answers_same; [exact Hsame| |exact Ha]]. intros p' q' Hq' Hqm'. rewrite accepted_put, decide_False; [done|].
    intros ->. pose proof (qs_old _ _ _ Hsame p q' Hq' Hqm'). congruence.
Qed.

(** What a [Send] hands out for another connection. *)
Lemma hand_out w ws_err b out e : hand w ws_err b = (out, e) -> out = [] \/ exists b', out = [chunk_json (w_Id w) b'].
Proof using Type.
  unfold hand, writer_WriteEOF, writer_Write, chunk_json. intros H. destruct (b_eof b) eqn:Eb, (w_CtxErr w); simplify_eq; [by left| |by left|].
  - right. exists (mkBuffer true []). done.
  - right. exists b. rewrite Eb. simpl in H. by destruct ws_err; simplify_eq.
Qed.

Lemma handed_other o ev t t' :
  handed o ev t t' -> (forall w b, o = Some (w, b) -> w_Id w ∉ ids) -> forall id, id ∈ ids -> t_pending id t' = t_pending id t.
Proof using Type.
  intros Hh Hno id Hid. destruct o as [[w b]|]; [|by simpl in Hh; subst]. destruct Hh as (e & ws_err & out & lost & _ & Hh & _ & ->).
  destruct lost; [done|]. simpl. unfold w_pending. rewrite wire_put. case_decide; [|done]. rewrite omap_app.
  destruct (hand_out _ _ _ _ _ Hh) as [->|[b' ->]]; [by rewrite app_nil_r|]. simpl. rewrite chunk_of_json, decide_False; [by rewrite app_nil_r|].
  intros E. apply (Hno w b eq_refl). by rewrite E.
Qed.

(** Where no [Send] of the connection's queues goes on. *)
Lemma answers_pc h he pcs t log aq apc inp g p q pc :
  pm_go h !! g = Some p -> pm_heap h !! p = Some q -> q_masterID q <> m ->
  answers h he pcs t log aq apc inp -> answers h he (<[g := pc]> pcs) t log aq apc inp.
Proof using Type.
  intros Hg Hq Hne Ha. destruct Ha as [Hw Hqt|sq q0 Hr He|Hi He Hqt]; [by apply an_wait| |by apply an_over].
  assert (forall g', pm_go h !! g' = Some sq -> pc_at (<[g := pc]> pcs) g' = pc_at pcs g') as Epc.
  { intros g' Hg'. unfold pc_at. rewrite lookup_insert_ne; [done|]. intros ->. destruct (ra_q _ _ _ _ Hr) as [H1 H2]. congruence. }
  assert (own_pc h (<[g := pc]> pcs) sq = own_pc h pcs sq) as Eown by (unfold own_pc; case_decide; auto).
  rewrite <- Eown. destruct Hr as [H1 H2 H3 H4 H5 H6 H7 H8]. apply an_run; [|done]. split; rewrite ?Eown; try done.
  intros g' Hg' Hne'. rewrite Epc by done. by apply H6.
Qed.

(** A step of any [Send]. *)
Lemma goes_send h he pcs t t' log aq apc inp g p q ev q' pc' o :
  pm_go h !! g = Some p -> pm_heap h !! p = Some q -> Queue.Send_step q (pc_at pcs g) ev = Some (q', pc', o) -> handed o ev t t' ->
  (q_masterID q = m -> g <> g0 -> pc_at pcs g = Queue.PEnter -> q_status q = StaSend \/ q_status q = StaDone) ->
  stands_back h he pcs t log aq apc inp ->
  goes (pm_update p (fun _ => q') h) he (<[g := pc']> pcs) t' log aq apc t inp.
Proof using Hnd Hm.
  intros Hg Hq Hst Hh Hfair [Hs Ha]. pose proof (Queue.Send_step_fields _ _ _ _ _ _ Hst) as (_ & Ew & Em & _ & Ec).
  assert (q_masterID q <> m -> forall w, pc_writer pc' = Some w \/ (exists b, o = Some (w, b)) -> w_Id w ∉ ids) as Hwr.
  { intros Hne. destruct (Send_step_writer (fun w => w_Id w ∉ ids) _ _ _ _ _ _ Hst) as [H1 H2].
    - intros id w. by apply (qo_writers _ _ _ (sd_owned _ _ _ Hs) p q id w).
    - intros w. by apply (sd_writer _ _ _ Hs g p q w).
    - intros w [?|[b ?]]; [by apply H1|by eapply H2]. }
  assert (sound (pm_update p (fun _ => q') h) (<[g := pc']> pcs) log) as Hs'.
  { assert (q_owned ids m (pm_update p (fun _ => q') h)) as Ho.
    { apply q_owned_update; [|apply Hs]. intros q0 Hq0. simplify_eq. rewrite Em, Ew, Ec. split_and!; [done..|]. by left. }
    destruct (sound_kept h _ pcs log Hs Ho) as [H1 H2 H3 H4]; [apply q_kept_update; intros q0 Hq0; by simplify_eq|]. split; try done.
    - intros g' [x Hx]. destruct (decide (g = g')) as [<-|Hne]; [simpl; by eapply lookup_lt_Some|].
      rewrite lookup_insert_ne in Hx by done. apply H3. by eexists.
    - intros g' p' q1 w Hg' Hq1 Hne Hpc. unfold pc_at in Hpc. destruct (decide (g = g')) as [<-|Hgg].
      + rewrite lookup_insert_eq in Hpc. simpl in *. assert (p' = p) as -> by congruence.
        rewrite list_lookup_alter_eq, Hq in Hq1. injection Hq1 as <-. apply Hwr; [by rewrite <- Em|by left].
      + rewrite lookup_insert_ne in Hpc by done. by eapply H4. }
  destruct (decide (q_masterID q = m)) as [Hqm|Hne].
  - destruct (answers_send h he pcs t t' log aq apc inp g p q ev q' pc' o Hg Hq Hqm Hst Hh (Hfair Hqm) Ha) as (aq' & apc' & inp' & Ha' & Had).
    by exists aq', apc', inp'.
  - destruct (q_foreign_send ids m p q _ _ _ _ _ h Hq Hne Hst (sd_owned _ _ _ Hs)) as [_ Hsame].
    assert (forall id, id ∈ ids -> t_pending id t' = t_pending id t) as Ht.
    { apply (handed_other o ev); [done|]. intros w b ->. apply (Hwr Hne). right. by eexists. }
    exists aq, apc, inp. split; [split; [done|]|by apply advances_wires]. apply (answers_wires _ _ _ t); [done|].
    eapply answers_same; [exact Hsame|done|]. by eapply answers_pc.
Qed.
End server_answers.
