(* ===== verification/ClientLinks.v ===== *)
(** The client's end of the way back (pipe/link.go, wss/wssocks_client.go): the
    links of one call of [transData], from the first one to the [Send] that
    writes to the SOCKS connection.

    [collects] says where they stand, and what the receiver is in the system of
    Striping.v: while the call adds its connections the links are fresh; between
    its establish message and its [oo.SetConn] they collect already what arrives,
    as if the connection and the order were there; then the [Send] runs.  If the
    call ends before, nothing is ever written to the connection. *)
From S2P Require Import Prelude GoChan Pipe RoundRobin PtrMap Queue QueueHub Link Starts Sends Striping StripingRun Base64 Json.
From S2P Require Import Messages Hub Server Handshake Client Wire Direction Session Upstream Downstream ClientProc ClientTable.
From S2P Require Import LinkOwner Passage ServerAnswers.

Section client_links.
Context {K : Ksuid} `{!KsuidText K}.
Context (ids : list KSUID) (m : KSUID) (hub_of : nat -> nat).
Context (Hnd : NoDup ids) (Hhead : ids !! 0 = Some m).
Implicit Types (h : LinkHub) (l : link) (id : KSUID) (p g oo : nat) (pcs : gmap nat Link.send_pc) (lpc : Link.send_pc).
Implicit Types (t : wires) (inp : list buffer) (aq : queue KSUID) (o : option (trans * call)) (conn : TCPConn).

Abbreviation at_hub := (hub_index ids hub_of).
#[local] Hint Extern 0 (Transport wires) => exact (wire_transport at_hub) : typeclass_instances.
Abbreviation safe oo := (safe ids m hub_of oo []).
Abbreviation owned := (owned ids m).

Lemma m_in : m ∈ ids.
Proof using Hhead. by eapply list_elem_of_lookup_2. Qed.

(** ** Where the links stand *)

Definition call_rank o : nat := match o with Some (_, ca) => rank (ca_pc ca) | None => 0 end.

(** The number of connections that the call has added to its links. *)
Definition linked o : nat :=
  match o with
  | Some (tr, ca) =>
      match ca_pc ca with
      | TLoop i | TSay i _ | TWriter i _ | TLink i _ => i
      | _ => length (tr_sorted tr)
      end
  | None => 0
  end.

Definition my_link h p l : Prop := pm_heap h !! p = Some l /\ l_master l = m.

(** No [Send] has been started, and there is no connection. *)
Definition unstarted h : Prop := forall p l, my_link h p l -> (p ∉ pm_go h) /\ l_conn l = None.

(** The call still adds its connections. *)
Record gathers o h : Prop := {
  gt_rank : call_rank o <= 1;
  gt_map k id : k < linked o -> ids !! k = Some id -> is_Some (pm_map h !! id);
  gt_fresh p l : my_link h p l -> chan_items (l_buffer l) = [] /\ l_status l <> StaDone;
}.

(** The master link as it will be. *)
Definition connected conn l : link := Link.SetSort ids (Link.SetConn conn l).

Record ready o h oo conn : Prop := {
  rd_call : exists tr ca, o = Some (tr, ca) /\ ca_conn ca = conn /\ 2 <= rank (ca_pc ca) /\
    (forall oo', ca_pc ca = TConn oo' -> oo' = oo);
  rd_map : pm_map h !! m = Some oo;
  rd_start : unstarted h;
}.

(** The [Send] of the master link [oo] is goroutine [g]. *)
Record running o h oo g : Prop := {
  rn_rank : 6 <= call_rank o;
  rn_go : pm_go h !! g = Some oo;
  rn_link : exists l, my_link h oo l;
  rn_only g' p l : pm_go h !! g' = Some p -> my_link h p l -> g' = g;
  rn_removed : pm_map h !! m = None -> forall id, id ∈ ids -> pm_map h !! id = None;
}.

(** What a [Send] does that finds no link. *)
Definition idle_pc (pc : Link.send_pc) : Prop :=
  match pc with
  | Link.PEnter | Link.PStart | Link.PTop => True
  | Link.PRange rest => rest = ids
  | Link.PRead _ _ | Link.PWrite _ _ => False
  | _ => True
  end.

(** The call has been removed before it set the connection. *)
Record gone o h pcs : Prop := {
  gn_rank : 2 <= call_rank o;
  gn_map : pm_map h !! m = None;
  gn_conn p l conn : my_link h p l -> l_conn l = Some conn -> unused conn;
  gn_started p l : my_link h p l -> p ∈ pm_go h -> is_Some (l_conn l) /\ l_sorted l = ids;
  gn_pc g p l : pm_go h !! g = Some p -> my_link h p l -> idle_pc (pc_at pcs g);
  gn_only g g' p p' l l' : pm_go h !! g = Some p -> my_link h p l -> pm_go h !! g' = Some p' -> my_link h p' l' -> g = g';
}.

Inductive collects o h pcs aq apc t inp : Prop :=
  | co_gather : gathers o h -> collects o h pcs aq apc t inp
  | co_ready oo conn :
      ready o h oo conn -> safe oo (mkSys aq apc t (pm_update oo (connected conn) h) Link.PEnter inp) ->
      collects o h pcs aq apc t inp
  | co_run oo g :
      running o h oo g -> safe oo (mkSys aq apc t h (pc_at pcs g) inp) -> collects o h pcs aq apc t inp
  | co_gone : gone o h pcs -> collects o h pcs aq apc t inp.

Lemma collects_advance o h pcs aq apc t inp aq' apc' t' inp' :
  advances ids m hub_of aq apc t inp aq' apc' t' inp' ->
  collects o h pcs aq apc t inp -> collects o h pcs aq' apc' t' inp'.
Proof using Type.
  intros Ha [Hg|oo conn Hr Hs|oo g Hr Hs|Hg]; [by apply co_gather|eapply co_ready|eapply co_run|by apply co_gone]; try done; by apply Ha.
Qed.

(** ** Others *)

Lemma my_link_apart h h' p l : apart ids m h h' -> my_link h' p l <-> my_link h p l.
Proof using Type. intros [_ H1 H2 _]. split; intros [Hl E]; (split; [|done]); [by apply H2|by apply H1]. Qed.

Lemma apart_go h h' g p l : apart ids m h h' -> my_link h p l -> pm_go h' !! g = Some p <-> pm_go h !! g = Some p.
Proof using Type.
  intros [_ H1 _ (new & Hg & Hnew)] [Hl E]. rewrite Hg. split; [|by apply lookup_app_l_Some].
  intros [Hp|[_ Hp]]%lookup_app_Some; [done|]. exfalso. eapply (Hnew p l); [by eapply list_elem_of_lookup_2|by apply H1|done].
Qed.

Lemma apart_in_go h h' p l : apart ids m h h' -> my_link h p l -> p ∈ pm_go h' <-> p ∈ pm_go h.
Proof using Type. intros Ha Hl. rewrite !list_elem_of_lookup. by setoid_rewrite (apart_go h h' _ p l Ha Hl). Qed.

(** The receiver's hub changes where the connection is not concerned. *)
Lemma safe_hub oo aq apc t lv lv' lpc inp :
  pm_wf lv' -> (forall id, id ∈ ids -> pm_map lv' !! id = pm_map lv !! id) ->
  (forall p, ours ids oo lv lpc p -> pm_heap lv' !! p = pm_heap lv !! p) ->
  safe oo (mkSys aq apc t lv lpc inp) -> safe oo (mkSys aq apc t lv' lpc inp).
Proof using Hnd Hhead.
  intros Hwf Hmap Hheap Hs. eapply (safe_step ids m hub_of oo Hnd m_in); [exact Hs|]. by apply st_other.
Qed.

Lemma unstarted_apart h h' : apart ids m h h' -> unstarted h -> unstarted h'.
Proof using Type.
  intros Ha Hu p l Hl. pose proof (proj1 (my_link_apart h h' p l Ha) Hl) as Hl0. rewrite (apart_in_go h h' p l Ha Hl0). by apply Hu.
Qed.

Lemma gone_apart o h h' pcs : apart ids m h h' -> gone o h pcs -> gone o h' pcs.
Proof using Hhead.
  intros Ha [H1 H2 H3 H4 H5 H6].
  assert (forall p l, my_link h' p l -> my_link h p l) as Hb by (intros p l; apply (my_link_apart h h' p l Ha)).
  split; try done.
  - by rewrite (ap_map _ _ _ _ Ha) by apply m_in.
  - intros p l conn Hl. by apply (H3 p l conn), Hb.
  - intros p l Hl. rewrite (apart_in_go h h' p l Ha) by auto. by apply H4, Hb.
  - intros g p l. intros Hg Hl. eapply (H5 g p l); [|by apply Hb]. by apply (apart_go h h' g p l Ha (Hb _ _ Hl)).
  - intros g g' p p' l l' Hg Hl Hg' Hl'.
    by eapply (H6 g g' p p' l l'); [apply (apart_go h h' g p l Ha (Hb _ _ Hl))|apply Hb|apply (apart_go h h' g' p' l' Ha (Hb _ _ Hl'))|apply Hb].
Qed.

Lemma running_apart o h h' oo g : apart ids m h h' -> running o h oo g -> running o h' oo g.
Proof using Hhead.
  intros Ha [H1 H2 [l Hl] H4 H5]. split; [done| |exists l; by apply (my_link_apart h)| |].
  3: { intros Hm' id Hid. rewrite (ap_map _ _ _ _ Ha) in * by (done || apply m_in). by apply H5. }
  - by apply (apart_go h h' g oo l Ha Hl).
  - intros g' p l' Hg' Hl'. pose proof (proj1 (my_link_apart h h' p l' Ha) Hl') as Hl0.
    eapply H4; [|exact Hl0]. by apply (apart_go h h' g' p l' Ha Hl0).
Qed.

Lemma collects_others o h h' pcs aq apc t inp :
  owned h -> pcs_ok ids m h pcs -> others ids m h h' ->
  collects o h pcs aq apc t inp -> collects o h' pcs aq apc t inp.
Proof using Hnd Hhead.
  intros Ho Hp Hoth Hc. destruct (Hoth Ho) as [Ho' Ha]. pose proof (ap_map _ _ _ _ Ha) as Hmap.
  assert (forall id p, id ∈ ids -> pm_map h !! id = Some p -> pm_heap h' !! p = pm_heap h !! p) as Hheap.
  { intros id p Hid Hi. destruct (owned_ours _ _ _ _ _ Ho Hid Hi) as (l & Hl & Hlm & _). by rewrite Hl, (ap_heap _ _ _ _ Ha p l). }
  destruct Hc as [[G1 G2 G3]|oo conn [R1 R2 R3] Hs|oo g Hr Hs|Hg].
  - apply co_gather. split; [done| |].
    + intros k id Hk Hid. rewrite Hmap by (by eapply list_elem_of_lookup_2). by eapply G2.
    + intros p l Hl. apply (G3 p). by apply (my_link_apart h h').
  - apply (co_ready _ _ _ _ _ _ _ oo conn).
    + split; [done|by rewrite Hmap by apply m_in|by eapply unstarted_apart].
    + eapply (safe_hub oo aq apc t (pm_update oo (connected conn) h)); [apply lh_wf_update; [done|apply Ho']|by intros id Hid; apply Hmap| |exact Hs].
      assert (pm_heap h' !! oo = pm_heap h !! oo) as Eoo by (eapply Hheap; [apply m_in|done]).
      assert (forall p, pm_heap h' !! p = pm_heap h !! p ->
        pm_heap (pm_update oo (connected conn) h') !! p = pm_heap (pm_update oo (connected conn) h) !! p) as Hup.
      { intros p E. simpl. destruct (decide (oo = p)) as [<-|Hne]; [by rewrite !list_lookup_alter_eq, E|by rewrite !list_lookup_alter_ne]. }
      intros p [->|[(id & Hid & Hp0)|(rest & E)]]; [by apply Hup|by eapply Hup, Hheap|done].
  - apply (co_run _ _ _ _ _ _ _ oo g); [by eapply running_apart|]. eapply safe_hub; [apply Ho'|done| |exact Hs].
    intros p [->|[(id & Hid & Hp0)|(rest & E)]].
    + destruct Hr as [_ _ [l [Hl Hlm]] _ _]. by rewrite Hl, (ap_heap _ _ _ _ Ha oo l).
    + by eapply Hheap.
    + destruct Hr as [_ Hgo [l [Hl Hlm]] _ _]. pose proof (po_ours _ _ _ _ Hp g oo l Hgo Hl Hlm) as Hpc. rewrite E in Hpc.
      destruct Hpc as [_ (l' & Hl' & Hlm')]. by rewrite Hl', (ap_heap _ _ _ _ Ha p l').
  - apply co_gone. by eapply gone_apart.
Qed.

(** A [Send] of another connection goes on. *)
Lemma collects_pc o h pcs aq apc t inp g p l pc :
  pm_go h !! g = Some p -> pm_heap h !! p = Some l -> l_master l <> m ->
  collects o h pcs aq apc t inp -> collects o h (<[g := pc]> pcs) aq apc t inp.
Proof using Type.
  intros Hg Hl Hne Hc.
  assert (forall g' p' l', pm_go h !! g' = Some p' -> my_link h p' l' -> pc_at (<[g := pc]> pcs) g' = pc_at pcs g') as Epc.
  { intros g' p' l' Hg' [Hl' Hm']. unfold pc_at. rewrite lookup_insert_ne; [done|]. intros ->. congruence. }
  destruct Hc as [Hga|oo conn Hr Hs|oo g1 Hr Hs|[H1 H2 H3 H4 H5 H6]]; [by apply co_gather|by eapply co_ready| |apply co_gone].
  - apply (co_run _ _ _ _ _ _ _ oo g1); [done|]. destruct Hr as [_ Hgo [l' Hl'] _ _]. by rewrite (Epc g1 oo l').
  - split; try done. intros g' p' l' Hg' Hl'. rewrite (Epc g' p' l') by done. by eapply H5.
Qed.

(** ** What arrives *)

(** The buffer of a link changes. *)
Definition rebuffered h h' : Prop :=
  pm_map h' = pm_map h /\ pm_go h' = pm_go h /\
  heap_rel (fun l l' => l_master l' = l_master l /\ l_conn l' = l_conn l /\ l_sorted l' = l_sorted l) h h'.

Lemma rebuffered_update p c h : rebuffered h (pm_update p (set_l_buffer c) h).
Proof using Type. split_and!; [done|done|]. by apply heap_rel_update. Qed.

Lemma rebuffered_link h h' p l' : rebuffered h h' -> my_link h' p l' ->
  exists l, my_link h p l /\ l_conn l' = l_conn l /\ l_sorted l' = l_sorted l.
Proof using Type. intros (_ & _ & HR) [(l & Hl & E & ? & ?)%(heap_rel_r _ _ _ _ _ HR) Hm]. exists l. unfold my_link. split_and!; congruence. Qed.

Lemma unstarted_rebuffered h h' : rebuffered h h' -> unstarted h -> unstarted h'.
Proof using Type.
  intros Hr Hu p l' Hl'. destruct (rebuffered_link _ _ _ _ Hr Hl') as (l & Hl & -> & _). destruct Hr as (_ & -> & _). by eapply Hu.
Qed.

Lemma running_rebuffered o h h' oo g : rebuffered h h' -> running o h oo g -> running o h' oo g.
Proof using Type.
  intros Hr [H1 H2 [l [Hl Hlm]] H4 H5]. pose proof Hr as (Em & Eg & HR). split; rewrite ?Eg, ?Em; try done.
  - destruct (heap_rel_l _ _ _ _ _ HR Hl) as (l' & Hl' & E & _). exists l'. split; [done|congruence].
  - intros g' p l' Hg' Hl'. destruct (rebuffered_link _ _ _ _ Hr Hl') as (l0 & Hl0 & _). by eapply H4.
Qed.

Lemma gone_rebuffered o h h' pcs : rebuffered h h' -> gone o h pcs -> gone o h' pcs.
Proof using Type.
  intros Hr [H1 H2 H3 H4 H5 H6]. pose proof (rebuffered_link h h') as Hb. pose proof Hr as (Em & Eg & _).
  split; rewrite ?Em, ?Eg; try done.
  - intros p l' conn Hl'. destruct (Hb p l' Hr Hl') as (l & Hl & -> & _). by eapply H3.
  - intros p l' Hl'. destruct (Hb p l' Hr Hl') as (l & Hl & -> & ->). by apply H4.
  - intros g p l' Hg Hl'. destruct (Hb p l' Hr Hl') as (l & Hl & _). by eapply H5.
  - intros g g' p p' l1 l2 Hg Hl1 Hg' Hl2. destruct (Hb p l1 Hr Hl1) as (l & Hl & _). destruct (Hb p' l2 Hr Hl2) as (l' & Hl' & _). by eapply H6.
Qed.

Lemma pm_update_commute p p' (f f' : link -> link) h :
  (forall l, f (f' l) = f' (f l)) -> pm_update p f (pm_update p' f' h) = pm_update p' f' (pm_update p f h).
Proof using Type.
  intros Hf. unfold pm_update. simpl. f_equal. apply list_eq. intros i. rewrite !list_lookup_alter.
  repeat case_decide; subst; try done. destruct (pm_heap h !! _); simpl; by rewrite ?Hf.
Qed.

(** Delivering to the hub as it is, or as it will be. *)
Lemma delivers_connected conn oo h id b h' :
  delivers h id b h' -> delivers (pm_update oo (connected conn) h) id b (pm_update oo (connected conn) h').
Proof using Type.
  assert (forall p l, pm_heap h !! p = Some l -> exists l', pm_heap (pm_update oo (connected conn) h) !! p = Some l' /\
    l_status l' = l_status l /\ l_buffer l' = l_buffer l) as Hup.
  { intros p l Hl. simpl. destruct (decide (oo = p)) as [<-|Hne]; [rewrite list_lookup_alter_eq, Hl|rewrite list_lookup_alter_ne by done]; eauto. }
  intros [p l c Hp Hl Hst Hc|p l Hp Hl Hst|Hp].
  - destruct (Hup p l Hl) as (l' & Hl' & Es & Eb).
    assert (pm_update oo (connected conn) (pm_update p (set_l_buffer c) h) = pm_update p (set_l_buffer c) (pm_update oo (connected conn) h)) as ->.
    { by apply pm_update_commute. }
    apply (dl_written _ _ _ p l'); [done|done|by rewrite Es|by rewrite Eb].
  - destruct (Hup p l Hl) as (l' & Hl' & Es & Eb). apply (dl_refused _ _ _ p l'); [done|done|by rewrite Es].
  - by constructor.
Qed.

Lemma delivers_rebuffered h id b h' : delivers h id b h' -> rebuffered h h'.
Proof using Type.
  intros [p l c _ _ _ _|p l _ _ _|_]; [apply rebuffered_update|..]; (split_and!; [done|done|by apply heap_rel_refl]).
Qed.

(** A chunk for the connection arrives. *)
Lemma collects_chunk o h h' pcs aq apc t inp id v rest b :
  id ∈ ids -> wire t (at_hub id) = v :: rest -> chunk_of id v = Some b -> delivers h id b h' ->
  (call_rank o <= 1 -> quiet ids hub_of t) ->
  collects o h pcs aq apc t inp -> collects o h' pcs aq apc (<[at_hub id := rest]> t) inp.
Proof using Hnd Hhead.
  intros Hid Hw Hv Hd Hq Hc. pose proof (delivers_rebuffered _ _ _ _ Hd) as Hr.
  destruct Hc as [Hg|oo conn [R1 R2 R3] Hs|oo g Hrun Hs|Hg].
  - specialize (Hq (gt_rank _ _ Hg) id Hid). exfalso. simpl in Hq. unfold w_pending in Hq. rewrite Hw, omap_cons, Hv in Hq. done.
  - apply (co_ready _ _ _ _ _ _ _ oo conn).
    + split; [done|by rewrite (proj1 Hr)|by eapply unstarted_rebuffered].
    + eapply (safe_step ids m hub_of oo Hnd m_in); [exact Hs|]. by eapply dispatch_sim; [..|apply delivers_connected].
  - apply (co_run _ _ _ _ _ _ _ oo g); [by eapply running_rebuffered|].
    eapply (safe_step ids m hub_of oo Hnd m_in); [exact Hs|]. by eapply dispatch_sim.
  - apply co_gone. by eapply gone_rebuffered.
Qed.

(** A chunk arrives when the connection has been removed. *)
Lemma collects_drop o h pcs aq apc t inp id v rest b :
  id ∈ ids -> wire t (at_hub id) = v :: rest -> chunk_of id v = Some b -> pm_map h !! m = None -> 2 <= call_rank o ->
  collects o h pcs aq apc t inp -> collects o h pcs aq apc (<[at_hub id := rest]> t) inp.
Proof using Hnd Hhead.
  intros Hid Hw Hv Hm Hr [Hg|oo conn [_ R2 _] Hs|oo g Hrun Hs|Hg].
  - pose proof (gt_rank _ _ Hg). lia.
  - congruence.
  - apply (co_run _ _ _ _ _ _ _ oo g); [done|]. eapply (safe_step ids m hub_of oo Hnd m_in); [exact Hs|].
    eapply dispatch_sim; [done..|]. constructor. by apply (rn_removed _ _ _ _ Hrun).
  - by apply co_gone.
Qed.

(** ** The [Send] *)

Lemma idle_send me l h pc ev h' pc' :
  pm_map h !! m = None -> my_link h me l -> is_Some (l_conn l) -> l_sorted l = ids ->
  Link.Send_step me h pc ev = Some (h', pc') -> idle_pc pc -> idle_pc pc' /\ rebuffered h h'.
Proof using Hnd Hhead.
  intros Hm [Hl _] Hc Hs H Hi. unfold Link.Send_step in H. rewrite Hl in H.
  assert (rebuffered h h) as Hid by (split_and!; [done|done|by apply heap_rel_refl]).
  assert (forall f, (forall l, l_master (f l) = l_master l /\ l_conn (f l) = l_conn l /\ l_sorted (f l) = l_sorted l) ->
    rebuffered h (pm_update me f h)) as Hup.
  { intros f Hf. split_and!; [done|done|]. apply heap_rel_update; [done|]. intros l0 _. apply Hf. }
  destruct pc as [| | |[|id rest]|s rest|rest b|r|r|r|r], ev; simpl in *; try done;
    repeat case_match; simplify_eq; simpl; try (split; [done|first [exact Hid|by apply Hup]]).
  destruct ids as [|x l0]; simplify_eq/=. unfold Link.Get in *. congruence.
Qed.

(** A step of it. *)
Lemma collects_send o h h' pcs aq apc t inp g p l ev pc' :
  pm_go h !! g = Some p -> my_link h p l -> (p ∈ pm_go h -> 6 <= call_rank o) -> ev <> Link.EvConn ConnPanic ->
  Link.Send_step p h (pc_at pcs g) ev = Some (h', pc') ->
  collects o h pcs aq apc t inp -> collects o h' (<[g := pc']> pcs) aq apc t inp.
Proof using Hnd Hhead.
  intros Hg Hl Hrank Hev H Hc. pose proof (list_elem_of_lookup_2 _ _ _ Hg) as Hin.
  assert (forall g', pc_at (<[g := pc']> pcs) g' = if decide (g' = g) then pc' else pc_at pcs g') as Epc.
  { intros g'. unfold pc_at. rewrite lookup_insert. repeat case_decide; by subst. }
  destruct Hc as [Hga|oo conn [R1 R2 R3] Hs|oo g1 [R1 R2 [l1 [Hl1 Hlm1]] R4 R5] Hs|Hgo].
  - pose proof (gt_rank _ _ Hga). specialize (Hrank Hin). lia.
  - by destruct (R3 p l Hl).
  - pose proof (R4 g p l Hg Hl) as ->. assert (p = oo) as -> by congruence.
    pose proof (kept_Send _ _ _ _ _ _ H) as [Hk _]. pose proof (l_send_still _ _ _ _ _ _ H) as [HR Em].
    apply (co_run _ _ _ _ _ _ _ oo g1).
    + split; rewrite ?(proj1 HR), ?Em; try done.
      * destruct (Hk oo l1 Hl1) as (l' & Hl' & E). exists l'. split; [done|congruence].
      * intros g' p' l' Hg' [(l0 & Hl0 & E & _)%(heap_rel_r _ _ _ _ _ HR) Hm']. apply (R4 g' p' l0); [done|]. split; [done|congruence].
    + rewrite Epc, decide_True by done. eapply (safe_step ids m hub_of oo Hnd m_in); [exact Hs|]. by eapply st_link.
  - destruct (gn_started _ _ _ Hgo p l Hl Hin) as [Hconn Hsort].
    destruct (idle_send p l h _ ev h' pc' (gn_map _ _ _ Hgo) Hl Hconn Hsort H (gn_pc _ _ _ Hgo g p l Hg Hl)) as [Hi Hr].
    apply co_gone, (gone_rebuffered _ h); [done|]. destruct Hgo as [H1 H2 H3 H4 H5 H6]. split; try done.
    intros g' p' l' Hg' Hl'. rewrite Epc. case_decide; [done|by eapply H5].
Qed.

(** ** The call goes on *)

Lemma collects_go o o' h pcs aq apc t inp :
  call_rank o <= call_rank o' -> (call_rank o <= 1 -> call_rank o' <= 1 /\ linked o' <= linked o) ->
  (forall tr ca, o = Some (tr, ca) -> exists tr' ca', o' = Some (tr', ca') /\ ca_conn ca' = ca_conn ca /\
     forall oo, ca_pc ca' = TConn oo -> pm_map h !! m = Some oo \/ ca_pc ca = TConn oo) ->
  collects o h pcs aq apc t inp -> collects o' h pcs aq apc t inp.
Proof using Type.
  intros Hr Hg Ho Hc. destruct Hc as [[G1 G2 G3]|oo conn [(tr & ca & -> & Hconn & Hrk & Hoo) R2 R3] Hs|oo g [R1 R2 R3 R4 R5] Hs|[H1 H2 H3 H4 H5 H6]].
  - destruct (Hg G1) as [? ?]. apply co_gather. split; [done| |done]. intros k id Hk. apply G2. lia.
  - apply (co_ready _ _ _ _ _ _ _ oo conn); [|done]. split; [|done|done]. destruct (Ho tr ca eq_refl) as (tr' & ca' & -> & Ec & Hoo').
    exists tr', ca'. split_and!; [done|congruence|simpl in Hr; lia|]. intros oo' [E|E]%Hoo'; [congruence|by apply Hoo].
  - apply (co_run _ _ _ _ _ _ _ oo g); [|done]. split; try done. lia.
  - apply co_gone. split; try done. lia.
Qed.

(** [Establish]: from now on chunks may arrive. *)
Lemma collects_est o o' h pcs t conn tr ca oo :
  gathers o h -> length ids <= linked o -> unstarted h -> owned h -> quiet ids hub_of t -> unused conn ->
  o' = Some (tr, ca) -> ca_conn ca = conn -> 2 <= rank (ca_pc ca) -> (forall oo', ca_pc ca <> TConn oo') ->
  pm_map h !! m = Some oo ->
  collects o' h pcs (waiting_queue ids m makeBuffer) Queue.PEnter t [].
Proof using Hnd Hhead.
  intros [G1 G2 G3] Hlen Hu Ho Hq [Hsent Heof] -> Ec Hr Hno Hoo. apply (co_ready _ _ _ _ _ _ _ oo conn).
  - split; [|done|done]. exists tr, ca. split_and!; try done. intros oo' E. by destruct (Hno oo').
  - destruct (owned_ours _ _ _ _ _ Ho m_in Hoo) as (l & Hl & Hlm & _).
    exists conn. rewrite <- Hsent. apply sys_init_inv. split; try done; simpl.
    + split; [done|apply m_in].
    + split_and!; [done..|]. intros id Hid. apply elem_of_list_to_map_1.
      * rewrite <- list_fmap_compose. simpl. by rewrite list_fmap_id.
      * apply list_elem_of_fmap. by exists id.
    + split_and!; [apply lh_wf_update; [done|apply Ho]|done| |]; unfold sort_at, conn_at; simpl; by rewrite list_lookup_alter_eq, Hl.
    + intros id Hid. apply list_elem_of_lookup in Hid as Hk. destruct Hk as [k Hk].
      destruct (G2 k id) as [p Hp]; [apply lookup_lt_Some in Hk; lia|done|].
      destruct (owned_ours _ _ _ _ _ Ho Hid Hp) as (l' & Hl' & Hlm' & _). destruct (G3 p l') as [Hi Hst]; [done|].
      exists p, (l_buffer l'). unfold buf_at, status_at. simpl.
      destruct (decide (oo = p)) as [<-|Hne]; [rewrite list_lookup_alter_eq, Hl'|rewrite list_lookup_alter_ne, Hl' by done];
        simpl; split_and!; try done; congruence.
Qed.

(** [oo.SetConn], [oo.SetSort] and [go oo.Send]. *)
Lemma collects_conn o o' h pcs aq apc t inp oo l conn :
  pm_go_ok h -> pcs_ok ids m h pcs -> my_link h oo l -> (forall p l, my_link h p l -> p ∉ pm_go h) -> unused conn ->
  call_rank o = 5 -> 6 <= call_rank o' -> (forall tr ca, o = Some (tr, ca) -> ca_conn ca = conn /\ ca_pc ca = TConn oo) ->
  collects o h pcs aq apc t inp ->
  collects o' (pm_start oo (pm_update oo (connected conn) h)) pcs aq apc t inp.
Proof using Hnd Hhead.
  intros Hok Hpcs Hl Hno Hun Hr Hr' Ho Hc. set (h' := pm_start oo (pm_update oo (connected conn) h)).
  assert (forall g, length (pm_go h) <= g -> pc_at pcs g = Link.PEnter) as Hfresh.
  { intros g Hg. unfold pc_at. destruct (pcs !! g) eqn:E; [|done]. pose proof (po_new _ _ _ _ Hpcs g ltac:(by eexists)). lia. }
  assert (forall p l', my_link h' p l' -> exists l0, my_link h p l0 /\
    ((p = oo /\ l_conn l' = Some conn /\ l_sorted l' = ids) \/ (p <> oo /\ l' = l0))) as Hb.
  { intros p l' [Hl' Hm']. simpl in Hl'. destruct (decide (oo = p)) as [<-|Hne].
    - rewrite list_lookup_alter_eq in Hl'. destruct Hl as [Hl Hm]. rewrite Hl in Hl'. simplify_eq/=. exists l. split; [done|by left].
    - rewrite list_lookup_alter_ne in Hl' by done. exists l'. split; [done|by right]. }
  assert (forall g p l', pm_go h' !! g = Some p -> my_link h' p l' -> g = length (pm_go h) /\ p = oo) as Hgo.
  { intros g p l' Hg (l0 & Hl0 & _)%Hb. simpl in Hg. apply lookup_app_Some in Hg as [Hg|[Hge Hg]].
    - exfalso. eapply Hno; [exact Hl0|by eapply list_elem_of_lookup_2].
    - apply list_lookup_singleton_Some in Hg as [? ->]. split; [lia|done]. }
  destruct Hc as [[G1 _ _]|oo1 conn1 [(tr & ca & -> & Ec & _ & Hoo) R2 R3] Hs|oo1 g [R1 _ _ _ _] _|[H1 H2 H3 H4 H5 H6]]; try lia.
  - destruct (Ho tr ca eq_refl) as [E1 E2]. assert (oo1 = oo) as -> by (symmetry; by apply Hoo). assert (conn1 = conn) as -> by congruence.
    apply (co_run _ _ _ _ _ _ _ oo (length (pm_go h))).
    + split; [done| | | |simpl; congruence].
      * simpl. by rewrite lookup_app_r, Nat.sub_diag.
      * exists (connected conn l). split; [simpl; by rewrite list_lookup_alter_eq, (proj1 Hl)|apply Hl].
      * intros g' p l' Hg' Hl'. by destruct (Hgo g' p l' Hg' Hl').
    + rewrite Hfresh by done. eapply (safe_hub oo aq apc t (pm_update oo (connected conn) h)); [|done..|exact Hs].
      destruct Hs as [cn Hs]. apply (iv_hub _ _ _ _ _ _ Hs).
  - apply co_gone. split; [lia|done|..].
    + intros p l' conn' (l0 & Hl0 & [(-> & E & _)|[_ ->]])%Hb E'; [congruence|by eapply H3].
    + intros p l' (l0 & Hl0 & [(-> & E & ?)|[Hne ->]])%Hb Hin; [by rewrite E|]. simpl in Hin.
      apply elem_of_app in Hin as [Hin|Hin%list_elem_of_singleton]; [by apply Hno in Hl0|done].
    + intros g p l' Hg Hl'. destruct (Hgo g p l' Hg Hl') as [-> ->]. by rewrite Hfresh.
    + intros g g' p p' l1 l2 Hg Hl1 Hg' Hl2. destruct (Hgo g p l1 Hg Hl1) as [-> _]. by destruct (Hgo g' p' l2 Hg' Hl2) as [-> _].
Qed.

(** [RemoveAll] removes the links of a [Send] that runs. *)
Lemma remove_all oo s h' :
  safe oo s -> Link.RemoveAll m (s_hub s) = Some h' ->
  (pm_map (s_hub s) !! m = None -> forall id, id ∈ ids -> pm_map (s_hub s) !! id = None) ->
  forall id, id ∈ ids -> pm_map h' !! id = None.
Proof using Hnd Hhead.
  intros [cn [_ Hwf [Hsort _] Hme _ _]] H Hnone id Hid.
  destruct (RemoveAll_ok m (s_hub s) Hwf) as (h1 & E & _ & [Hw _]). assert (h1 = h') as -> by congruence. rewrite Hw.
  case_decide as Hin; [done|]. unfold pm_deref in Hin. destruct (pm_map (s_hub s) !! m) as [p|] eqn:Hp; [|by apply Hnone].
  rewrite (Hme p eq_refl) in *. unfold sort_at in Hsort. destruct (pm_heap (s_hub s) !! oo) as [l|]; [|done].
  injection Hsort as Es. rewrite Es, elem_of_app, list_elem_of_filter in Hin. destruct Hin. destruct (decide (id = m)); set_solver.
Qed.

(** The connection is removed. *)
Lemma collects_remove o h h' pcs aq apc t inp :
  owned h -> Link.RemoveAll m h = Some h' -> 2 <= call_rank o ->
  collects o h pcs aq apc t inp -> collects o h' pcs aq apc t inp.
Proof using Hnd Hhead.
  intros Ho H Hr Hc. destruct (RemoveAll_inv _ _ _ H) as [HR Hback].
  assert (pm_map h' !! m = None) as Hgone.
  { destruct (RemoveAll_ok m h (ow_wf _ _ _ Ho)) as (h1 & E & _ & [Hw _]). assert (h1 = h') as -> by congruence.
    rewrite Hw. unfold pm_deref. destruct (pm_map h !! m) as [p|] eqn:Hp; [|by case_decide].
    destruct (proj1 (ow_wf _ _ _ Ho) _ _ Hp) as (l & -> & _). rewrite decide_True by set_solver. done. }
  assert (forall p l', my_link h' p l' -> exists l, my_link h p l /\ (l_conn l' <> None -> l_conn l <> None)) as Hb.
  { intros p l' [(l & Hl & E & _ & Hc' & _)%(heap_rel_r _ _ _ _ _ HR) Hm]. exists l. unfold my_link. split_and!; [done|congruence|done]. }
  destruct Hc as [Hg|oo conn [_ _ R3] _|oo g [R1 R2 [l [Hl Hlm]] R4 R5] Hs|Hg].
  - pose proof (gt_rank _ _ Hg). lia.
  - apply co_gone. split; try done.
    + intros p l' conn' (l & Hl & Hc')%Hb E. destruct (R3 p l Hl) as [_ En]. destruct Hc'; [by rewrite E|done].
    + intros p l' (l & Hl & _)%Hb. rewrite (proj1 HR). intros Hin. by destruct (R3 p l Hl).
    + intros g p l' Hg (l & Hl & _)%Hb. rewrite (proj1 HR) in Hg. destruct (R3 p l Hl) as [Hno _]. by destruct Hno; eapply list_elem_of_lookup_2.
    + intros g g' p p' l1 l2 Hg (l & Hl & _)%Hb. rewrite (proj1 HR) in Hg. destruct (R3 p l Hl) as [Hno _]. by destruct Hno; eapply list_elem_of_lookup_2.
  - apply (co_run _ _ _ _ _ _ _ oo g).
    + split; rewrite ?(proj1 HR); try done.
      * destruct (heap_rel_l _ _ _ _ _ HR Hl) as (l' & Hl' & E & _). exists l'. split; [done|congruence].
      * intros g' p l' Hg' (l0 & Hl0 & _)%Hb. by eapply R4.
      * intros _. eapply remove_all; [exact Hs|exact H|done].
    + eapply (safe_step ids m hub_of oo Hnd m_in); [exact Hs|]. by apply st_remove.
  - apply co_gone. unfold Link.RemoveAll, pm_deref in H. rewrite (gn_map _ _ _ Hg) in H. by simplify_eq.
Qed.

(** ** Adding *)

Lemma ensure_fresh now id h :
  let h' := Link.ensure now id m h in
  (forall i, is_Some (pm_map h !! i) -> pm_map h' !! i = pm_map h !! i) /\ is_Some (pm_map h' !! id) /\
  (forall p l, my_link h' p l -> my_link h p l \/ l = NewLink now m) /\
  (forall p l, pm_heap h !! p = Some l -> pm_heap h' !! p = Some l) /\ pm_go h' = pm_go h.
Proof using Type.
  unfold Link.ensure. destruct (pm_map h !! id) as [p|] eqn:E; simpl; [split_and!; [done|by rewrite E|by left|done..]|]. split_and!.
  - intros i [p Hp]. rewrite lookup_insert_ne; [done|]. intros ->. congruence.
  - rewrite lookup_insert_eq. by eexists.
  - intros p l [[Hl|[_ Hl]]%lookup_app_Some Hm]; [by left|]. apply list_lookup_singleton_Some in Hl as [_ <-]. by right.
  - intros p l Hl. by apply lookup_app_l_Some.
  - done.
Qed.

Lemma unstarted_ensure now id h : pm_go_ok h -> unstarted h -> unstarted (Link.ensure now id m h).
Proof using Type.
  intros Hok Hu. unfold Link.ensure. destruct (pm_map h !! id); [done|]. intros p l [[Hl|[Hge Hl]]%lookup_app_Some Hm].
  - by apply Hu.
  - apply list_lookup_singleton_Some in Hl as [? <-]. replace p with (length (pm_heap h)) by lia.
    split; [exact (pm_new_not_started h Hok)|done].
Qed.

(** [clientLinkHub.Add] of the call. *)
Lemma collects_add now i id o o' h pcs aq apc t inp :
  owned h -> unstarted h -> call_rank o <= 1 -> call_rank o' <= 1 -> linked o = i -> linked o' = S i -> ids !! i = Some id ->
  collects o h pcs aq apc t inp -> collects o' (Link.Add now id m h) pcs aq apc t inp.
Proof using Hnd Hhead.
  intros Ho Hu Hr Hr' Hi Hi' Hid Hc.
  assert (gathers o h) as [G1 G2 G3].
  { destruct Hc as [Hg|oo conn [(tr & ca & -> & _ & Hrk & _) _ _] _|oo g [R1 _ _ _ _] _|[H1 _ _ _ _ _]]; [done| |lia..]. simpl in *. lia. }
  set (h1 := Link.ensure now m m h). set (h2 := Link.ensure now id m h1).
  destruct (ensure_fresh now m h) as (M1 & [p Hp] & F1 & _ & _). fold h1 in M1, Hp, F1.
  destruct (ensure_fresh now id h1) as (M2 & Hs2 & F2 & K2 & _). fold h2 in M2, Hs2, F2, K2.
  assert (owned h1) as Ho1 by (apply owned_ensure; [by split; [|intros _; apply m_in]|done]).
  assert (unstarted h1) as Hu1 by (apply unstarted_ensure; [apply Ho|done]).
  destruct (owned_ours _ _ _ _ _ Ho1 m_in Hp) as (l & Hl & Hlm & _).
  assert (pm_map h2 !! m = Some p) as Hp2 by (rewrite M2; by rewrite Hp).
  rewrite (link_Add_unstarted now id m h p l Hp Hp2 (K2 _ _ Hl)) by (by apply (Hu1 p l)).
  fold h1. fold h2. apply co_gather. split; [done| |].
  - intros k i' Hk Hi''. rewrite Hi' in Hk. cbn [pm_map pm_update]. destruct (decide (k = i)) as [->|Hne]; [by simplify_eq|].
    destruct (G2 k i') as [x Hx]; [lia|done|]. assert (pm_map h1 !! i' = Some x) as Hx1 by (rewrite M1; by rewrite Hx).
    rewrite M2; by rewrite Hx1.
  - intros p' l' [Hl' Hm']. cbn [pm_heap pm_update] in Hl'.
    assert (forall l0, my_link h2 p' l0 -> chan_items (l_buffer l0) = [] /\ l_status l0 <> StaDone) as Hfresh.
    { intros l0 [[Hl0| ->]%F1| ->]%F2; [by eapply G3|done|done]. }
    destruct (decide (p = p')) as [<-|Hne]; [|rewrite list_lookup_alter_ne in Hl' by done; by apply Hfresh].
    rewrite list_lookup_alter_eq in Hl'. destruct (pm_heap h2 !! p) as [l0|] eqn:E; [|done]. injection Hl' as <-.
    by apply (Hfresh l0).
Qed.
End client_links.
