(* ===== verification/ClientCollects.v ===== *)
(** The client's end of the way back (wss/wssocks_client.go): every step of the
    client process keeps what ClientLinks.v says of the links of one call, be it a
    step of the call, of another call, of the [Send]s, or of the goroutines that
    listen to the websockets. *)
From S2P Require Import Prelude GoChan Pipe RoundRobin PtrMap Queue QueueHub Link Starts Sends Striping Base64 Json.
From S2P Require Import Messages Hub Server Handshake Client Finish Wire Direction Session Upstream Downstream.
From S2P Require Import ClientProc ClientTable ClientSafe ClientRun Typing ClientTyped LinkOwner Passage Follow QueueOwner.
From S2P Require Import ClientOwner CallFollow ClientProxies ClientFollow ServerFollow ServerAnswers ClientLinks.

Section client_collects.
Context {K : Ksuid} `{!KsuidText K}.
Context (ids : list KSUID) (m : KSUID) (addr : string) (t : nat).
Context (Hnd : NoDup ids) (Hhead : ids !! 0 = Some m).
Implicit Types (s : cproc) (tr : trans) (ca : call) (h : LinkHub) (id : KSUID) (p g k : nat) (w : wires) (inp : list buffer).
Implicit Types (aq : queue KSUID) (apc : Queue.send_pc KSUID) (l : link).

Abbreviation lh s := (clientLinkHub (pr_client s)).
Abbreviation call_ids := (call_ids ids addr t).

Lemma m_ids : m ∈ ids.
Proof using Hhead. by eapply list_elem_of_lookup_2. Qed.

(** ** What the client's invariant says of the links *)

(** A link of master [m] is the call's. *)
Lemma link_call s p l :
  cp_inv s -> call_ids (calls_of s) -> my_link m (lh s) p l -> exists tr ca,
    calls_of s t = Some (tr, ca) /\ (l_conn l <> None -> 6 <= rank (ca_pc ca)) /\ (p ∈ pm_go (lh s) -> 6 <= rank (ca_pc ca)) /\
    (forall id, id ∈ l_sorted l -> id ∈ ids).
Proof using Hnd Hhead.
  intros Hinv Hids [Hl Hm]. destruct (K_own _ _ (ci_links _ Hinv) p l Hl) as (t1 & tr & ca & Ht & Hmm & Hc & Hg & Hs).
  rewrite Hm in Hmm. destruct (master_of ids m addr t Hnd Hhead s t1 tr ca m Hinv Hids Ht Hmm) as [_ Hx].
  destruct (decide (t1 = t)) as [->|Hne]; [|by destruct (Hx Hne); apply m_ids]. exists tr, ca. split_and!; [done..|].
  intros id Hid. destruct (Hs id Hid) as [Hin _]. destruct (Hids t tr ca Ht) as [Hpre _]. destruct (Hpre eq_refl) as [[r ->] _]. set_solver.
Qed.

Lemma links_owned s : cp_inv s -> call_ids (calls_of s) -> owned ids m (lh s).
Proof using Hnd Hhead.
  intros Hinv Hids.
  assert (forall t1 tr ca mm, calls_of s t1 = Some (tr, ca) -> tr_master tr = Some mm ->
    (mm = m <-> t1 = t) /\ (t1 <> t -> none_of ids (tr_sorted tr)) /\ (t1 = t -> tr_sorted tr ⊆ ids)) as Hm.
  { intros t1 tr ca mm Ht Hmm. destruct (master_of ids m addr t Hnd Hhead s t1 tr ca mm Hinv Hids Ht Hmm) as [M1 M2].
    destruct (Hids t1 tr ca Ht) as [H1 H2]. split_and!; [split; [|done]|done|].
    - intros ->. destruct (decide (t1 = t)) as [|Hne]; [done|]. by destruct (M2 Hne); apply m_ids.
    - intros E. destruct (H1 E) as [[r ->] _]. set_solver. }
  split.
  - apply (K_wf _ _ (ci_links _ Hinv)).
  - eapply sends_go_ok, (ci_lsends _ Hinv).
  - intros id p l Hp Hl. destruct (K_map _ _ (ci_links _ Hinv) id p l Hp Hl) as (t1 & tr & ca & Ht & Hmm & Hid).
    destruct (Hm t1 tr ca _ Ht Hmm) as ([M1 M2] & H1 & H2). split.
    + intros Hin. apply M2. destruct (decide (t1 = t)) as [|Hne]; [done|]. by destruct (H1 Hne id Hin).
    + intros E. by apply (H2 (M1 E)).
  - intros p l Hl Hne id Hid Hin. destruct (K_own _ _ (ci_links _ Hinv) p l Hl) as (t1 & tr & ca & Ht & Hmm & _ & _ & Hs).
    destruct (Hm t1 tr ca _ Ht Hmm) as ([M1 M2] & H1 & _). destruct (decide (t1 = t)) as [E|Hnt]; [by apply Hne, M2|].
    apply (H1 Hnt id Hid). by apply Hs.
Qed.

Lemma early_unstarted s : cp_inv s -> call_ids (calls_of s) -> call_rank (calls_of s t) < 6 -> unstarted m (lh s).
Proof using Hnd Hhead.
  intros Hinv Hids Hr p l Hl. destruct (link_call s p l Hinv Hids Hl) as (tr & ca & Ht & Hc & Hg & _). rewrite Ht in Hr. simpl in Hr. split.
  - intros Hin%Hg. lia.
  - destruct (l_conn l); [|done]. specialize (Hc ltac:(done)). lia.
Qed.

Context (hub_of : nat -> nat).
Abbreviation collects := (collects ids m hub_of).

(** Where the call's links stand. *)
Record collector s aq apc w inp : Prop := {
  cl_ids : call_ids (calls_of s);
  cl_pcs : pcs_ok ids m (lh s) (pr_lsends s);
  cl_unused tr ca : calls_of s t = Some (tr, ca) -> unused (ca_conn ca);
  cl_at : collects (calls_of s t) (lh s) (pr_lsends s) aq apc w inp;
}.

Lemma collector_advance s aq apc w inp aq' apc' w' inp' :
  advances ids m hub_of aq apc w inp aq' apc' w' inp' -> collector s aq apc w inp -> collector s aq' apc' w' inp'.
Proof using Type. intros Ha [H1 H2 H3 H4]. split; [done..|]. by eapply collects_advance. Qed.

(** ** What is not about the call *)

Lemma collector_others s s' aq apc w inp :
  cp_inv s -> others ids m (lh s) (lh s') -> kept (lh s) (lh s') -> pr_lsends s' = pr_lsends s ->
  calls_of s' t = calls_of s t -> call_ids (calls_of s') ->
  collector s aq apc w inp -> collector s' aq apc w inp.
Proof using Hnd Hhead.
  intros Hinv Ho Hk Ep Et Hids [H1 H2 H3 H4]. pose proof (links_owned s Hinv H1) as How. split; [done|..].
  - rewrite Ep. by eapply pcs_ok_kept; [apply How|..].
  - intros tr ca. rewrite Et. apply H3.
  - rewrite Ep, Et. by eapply (collects_others ids m hub_of Hnd Hhead).
Qed.

Lemma collector_same s s' aq apc w inp :
  lh s' = lh s -> pr_lsends s' = pr_lsends s -> calls_of s' t = calls_of s t -> call_ids (calls_of s') ->
  collector s aq apc w inp -> collector s' aq apc w inp.
Proof using Type.
  intros El Ep Et Hids [H1 H2 H3 H4]. split; rewrite ?El, ?Ep, ?Et; try done.
Qed.

(** [remove] *)
Lemma remove_links t' m0 (c c' : client) :
  remove t' m0 c = Some c' ->
  clientLinkHub c' = clientLinkHub c \/ Link.RemoveAll m0 (clientLinkHub c) = Some (clientLinkHub c').
Proof using Type.
  intros H. unfold remove in H. destruct (cl_trans c !! t') as [tr|]; [|simplify_eq; by left].
  case_decide; [simplify_eq; by left|]. cbn [clientQueueHub set_ctrans] in H.
  destruct (QueueHub.Remove m0 (clientQueueHub c)) as [h'|]; [|done]. simpl in H.
  destruct (Link.RemoveAll m0 _) eqn:E; simplify_eq/=. by right.
Qed.

Lemma collector_other_call s t' e tr ca c' ca' out aq apc w inp :
  cp_inv s -> t' <> t -> calls_of s t' = Some (tr, ca) -> others_new ids e ->
  call_step t' e (pr_client s) ca = Finished (c', ca', out) ->
  call_ids (calls_of (set_call t' ca' (set_pr_client c' s))) ->
  collector s aq apc w inp -> collector (set_call t' ca' (set_pr_client c' s)) aq apc w inp.
Proof using Hnd Hhead.
  intros Hinv Hne Ht Hnew H Hids' Hc. pose proof (cl_ids _ _ _ _ _ Hc) as C1.
  destruct (C1 t' tr ca Ht) as [_ Hnone]. specialize (Hnone Hne).
  destruct (call_step_on s t' e tr ca c' ca' out Hinv Ht H) as (tr0 & Etr0 & _).
  pose proof (calls_of_set s t' tr ca tr0 ca' c' t Ht Etr0) as Hlook. rewrite decide_False in Hlook by done.
  pose proof (master_some s t' tr ca Hinv Ht) as Hms. destruct (calls_of_some _ _ _ _ Ht) as [Htr _].
  destruct (cp_inv_known s t' tr ca Hinv Ht) as [[_ _ [_ Hlp] _ _] Hlive]. pose proof (ci_some _ Hinv) as Hn.
  assert (forall m0, tr_master tr = Some m0 -> m0 <> m /\ m0 ∉ ids) as Hmn.
  { intros m0 Hm. destruct (master_of ids m addr t Hnd Hhead s t' tr ca m0 Hinv C1 Ht Hm) as [_ Hx]. specialize (Hx Hne).
    split; [|done]. intros ->. apply Hx, m_ids. }
  unfold call_step, trans_at in H. rewrite Htr in H. simpl in H.
  destruct (ca_pc ca) as [i|i id1|i id1|i id1| | |qq| |oo|oo|err|[|[[i id1] w1] l] err|i id1 l err|err] eqn:Epc, e; try done;
    repeat case_match; simplify_eq; try done; try (by apply (collector_same s)).
  - destruct Hms as [m0 Hm]; [lia|]. destruct (Hmn m0 Hm) as [Hm1 Hm2]. rewrite Hm in *.
    apply (collector_others s); try done; [|apply kept_Add]. apply others_Add; [done|done|].
    intros Hin. apply (Hnone id1 Hin). destruct Hlp as (Hi & _). by eapply list_elem_of_lookup_2.
  - destruct Hms as [m0 Hm]; [rewrite Hlp; lia|]. destruct (Hmn m0 Hm) as [Hm1 Hm2].
    destruct (proj2 (Hlive m0 Hm)) as [_ L2]. destruct (L2 oo Epc) as (l & Hl & Hlm).
    set (f := fun l => Link.SetSort (tr_sorted tr) (Link.SetConn (ca_conn ca) l)).
    apply (collector_others s); try done.
    + eapply others_trans; [|apply (others_start ids m oo (f l)); [simpl; by rewrite list_lookup_alter_eq, Hl|simpl; congruence]].
      apply others_update. intros l0 Hl0. simplify_eq. by split_and!.
    + eapply kept_trans; [by apply (kept_update oo f)|apply kept_start].
  - destruct Hms as [m0 Hm]; [rewrite Hlp; lia|]. destruct (Hmn m0 Hm) as [Hm1 Hm2]. rewrite Hm in *. simpl in *.
    match goal with Hr : remove _ _ _ = Some _ |- _ => destruct (remove_links _ _ _ _ Hr) as [E|E] end; [by apply (collector_same s)|].
    apply (collector_others s); try done; [by eapply others_RemoveAll|by eapply kept_RemoveAll].
Qed.

(** ** The call's own steps *)

(** The links stay, or change to [c'] and keep [collects]. *)
Lemma collector_own s tr ca tr' ca' c' aq apc w inp :
  calls_of s t = Some (tr, ca) -> cl_trans c' = <[t := tr']> (cl_trans (pr_client s)) ->
  pcs_ok ids m (clientLinkHub c') (pr_lsends s) -> ca_conn ca' = ca_conn ca ->
  call_ids (calls_of (set_call t ca' (set_pr_client c' s))) ->
  (collects (Some (tr, ca)) (lh s) (pr_lsends s) aq apc w inp ->
   collects (Some (tr', ca')) (clientLinkHub c') (pr_lsends s) aq apc w inp) ->
  collector s aq apc w inp -> collector (set_call t ca' (set_pr_client c' s)) aq apc w inp.
Proof using Type.
  intros Ht Htr Hp Ec Hids Hco [H1 H2 H3 H4]. pose proof (calls_of_set s t tr ca tr' ca' c' t Ht Htr) as Hlook.
  rewrite decide_True in Hlook by done. split; [done|done|..]; rewrite Hlook.
  - intros tr1 ca1 [= <- <-]. rewrite Ec. by eapply H3.
  - rewrite Ht in H4. by apply Hco.
Qed.

Lemma collector_goes s tr ca tr' ca' c' aq apc w inp :
  calls_of s t = Some (tr, ca) -> cl_trans c' = <[t := tr']> (cl_trans (pr_client s)) -> clientLinkHub c' = lh s ->
  ca_conn ca' = ca_conn ca -> call_ids (calls_of (set_call t ca' (set_pr_client c' s))) ->
  rank (ca_pc ca) <= rank (ca_pc ca') ->
  (rank (ca_pc ca) <= 1 -> rank (ca_pc ca') <= 1 /\ linked (Some (tr', ca')) <= linked (Some (tr, ca))) ->
  (forall oo, ca_pc ca' = TConn oo -> pm_map (lh s) !! m = Some oo \/ ca_pc ca = TConn oo) ->
  collector s aq apc w inp -> collector (set_call t ca' (set_pr_client c' s)) aq apc w inp.
Proof using Type.
  intros Ht Htr El Ec Hids Hr Hg Hoo Hc. eapply collector_own; try done; rewrite El; [apply (cl_pcs _ _ _ _ _ Hc)|].
  apply (collects_go ids m hub_of (Some (tr, ca)) (Some (tr', ca'))); [done|done|]. intros tr1 ca1 [= <- <-]. exists tr', ca'.
  by split_and!.
Qed.

(** It has sent its establish message, or has failed to. *)
Lemma collector_est s tr ca pc w :
  cp_inv s -> calls_of s t = Some (tr, ca) -> ca_pc ca = TEst -> tr_sorted tr = ids -> quiet ids hub_of w ->
  2 <= rank pc -> (forall oo, pc <> TConn oo) ->
  call_ids (calls_of (set_call t (set_ca_pc pc ca) (set_pr_client (pr_client s) s))) ->
  collector s (waiting_queue ids m makeBuffer) Queue.PEnter w [] ->
  collector (set_call t (set_ca_pc pc ca) (set_pr_client (pr_client s) s)) (waiting_queue ids m makeBuffer) Queue.PEnter w [].
Proof using Hnd Hhead.
  intros Hinv Ht Epc Hs Hq Hr Hno Hids Hc. pose proof (cl_ids _ _ _ _ _ Hc) as C1.
  pose proof (early_unstarted s Hinv C1 ltac:(rewrite Ht; simpl; rewrite Epc; simpl; lia)) as Hu.
  eapply collector_own; try done; [by eapply calls_of_same|apply (cl_pcs _ _ _ _ _ Hc)|].
  pose proof (cl_unused _ _ _ _ _ Hc tr ca Ht) as Hun. intros Hco.
  assert (gathers ids m (Some (tr, ca)) (lh s)) as Hg.
  { destruct Hco as [Hg|oo conn [(tr1 & ca1 & [= <- <-] & _ & Hrk & _) _ _] _|oo g [R1 _ _ _ _] _|[H1 _ _ _ _ _]]; [done|..];
      rewrite Epc in * || (simpl in *; rewrite Epc in * ); simpl in *; lia. }
  assert (length ids <= linked (Some (tr, ca))) as Hl by (simpl; by rewrite Epc, Hs).
  destruct (gt_map _ _ _ _ Hg 0 m) as [oo Hoo]; [apply lookup_lt_Some in Hhead; lia|done|].
  eapply (collects_est ids m hub_of Hnd Hhead); try done. by apply links_owned.
Qed.

(** [SetConn], [SetSort] and [go Send] on the master link. *)
Lemma collector_conn s tr ca oo w aq apc inp :
  cp_inv s -> calls_of s t = Some (tr, ca) -> ca_pc ca = TConn oo -> tr_sorted tr = ids -> tr_master tr = Some m ->
  let c' := set_clinks (pm_start oo (pm_update oo (connected ids (ca_conn ca)) (lh s))) (pr_client s) in
  call_ids (calls_of (set_call t (set_ca_pc (TWaiting oo) ca) (set_pr_client c' s))) ->
  collector s aq apc w inp -> collector (set_call t (set_ca_pc (TWaiting oo) ca) (set_pr_client c' s)) aq apc w inp.
Proof using Hnd Hhead.
  intros Hinv Ht Epc Hso Hm c' Hids' Hc. pose proof (cl_ids _ _ _ _ _ Hc) as C1.
  destruct (cp_inv_known s t tr ca Hinv Ht) as [_ Hlive]. destruct (proj2 (Hlive m Hm)) as [_ L2].
  destruct (L2 oo Epc) as (l & Hl & Hlm). eapply collector_own; try done; [by eapply calls_of_same|..].
  { eapply pcs_ok_kept; [apply (links_owned s); done| |apply (cl_pcs _ _ _ _ _ Hc)].
    eapply kept_trans; [by apply (kept_update oo (connected ids (ca_conn ca)))|apply kept_start]. }
  apply (collects_conn ids m hub_of Hnd Hhead (Some (tr, ca)) _ _ _ _ _ _ _ oo l); simpl; rewrite ?Epc; try done.
  - apply (links_owned s); done.
  - apply (cl_pcs _ _ _ _ _ Hc).
  - intros p l' Hl'. destruct (early_unstarted s Hinv C1) with (p := p) (l := l') as [? _]; [|done|done].
    rewrite Ht. simpl. rewrite Epc. simpl. lia.
  - by apply (cl_unused _ _ _ _ _ Hc tr ca).
  - by intros tr1 ca1 [= <- <-].
Qed.

(** [remove] of the call. *)
Lemma collector_removed s tr ca tr' c' pc w aq apc inp :
  cp_inv s -> calls_of s t = Some (tr, ca) -> remove t m (pr_client s) = Some c' ->
  cl_trans c' = <[t := tr']> (cl_trans (pr_client s)) -> 7 <= rank (ca_pc ca) -> rank (ca_pc ca) <= rank pc -> (forall oo, pc <> TConn oo) ->
  call_ids (calls_of (set_call t (set_ca_pc pc ca) (set_pr_client c' s))) ->
  collector s aq apc w inp -> collector (set_call t (set_ca_pc pc ca) (set_pr_client c' s)) aq apc w inp.
Proof using Hnd Hhead.
  intros Hinv Ht Hre Etr Hr7 Hr Hpc Hids' Hc. pose proof (links_owned s Hinv (cl_ids _ _ _ _ _ Hc)) as Ho.
  destruct (remove_links _ _ _ _ Hre) as [E|E].
  { apply (collector_goes s tr ca tr'); try done; [lia|]. by intros oo ?%Hpc. }
  eapply collector_own; try done; [by eapply pcs_ok_kept; [apply Ho|by eapply kept_RemoveAll|apply (cl_pcs _ _ _ _ _ Hc)]|].
  intros Hco. eapply (collects_remove ids m hub_of Hnd Hhead); [exact Ho|exact E|simpl; lia|].
  apply (collects_go ids m hub_of (Some (tr, ca))); simpl; [lia|lia| |done].
  intros tr1 ca1 [= <- <-]. eexists _, _. split_and!; [done|done|]. by intros oo ?%Hpc.
Qed.

Lemma collector_own_call s e tr ca c' ca' out aq apc w inp :
  cp_inv s -> calls_of s t = Some (tr, ca) -> own_ok ids e tr -> length (cl_wsc (pr_client s)) = length ids ->
  call_step t e (pr_client s) ca = Finished (c', ca', out) ->
  call_ids (calls_of (set_call t ca' (set_pr_client c' s))) ->
  (call_rank (calls_of s t) <= 1 -> quiet ids hub_of w /\ aq = waiting_queue ids m makeBuffer /\ apc = Queue.PEnter /\ inp = []) ->
  collector s aq apc w inp -> collector (set_call t ca' (set_pr_client c' s)) aq apc w inp.
Proof using Hnd Hhead.
  intros Hinv Ht Hown Hlen H Hids' Hearly Hc. pose proof (cl_ids _ _ _ _ _ Hc) as C1.
  destruct (C1 t tr ca Ht) as [Hpa _]. pose proof (proj1 (Hpa eq_refl)) as Hpre.
  destruct (call_step_on s t e tr ca c' ca' out Hinv Ht H) as (tr0 & Etr0 & _).
  pose proof (calls_of_same _ _ _ _ Ht) as Hid. destruct (calls_of_some _ _ _ _ Ht) as [Htr _].
  pose proof (master_some s t tr ca Hinv Ht) as Hms.
  destruct (cp_inv_known s t tr ca Hinv Ht) as [[_ _ [_ Hlp] _ _] Hlive]. pose proof (ci_some _ Hinv) as Hn.
  assert (1 <= rank (ca_pc ca) -> tr_sorted tr = ids) as Hall.
  { intros Hr. apply prefix_length_eq; [done|]. rewrite (all_ids s t tr ca Hinv Ht Hr). lia. }
  assert (forall m0, tr_master tr = Some m0 -> m0 = m) as Hmn.
  { intros m0 Hm. by apply (master_of ids m addr t Hnd Hhead s t tr ca m0 Hinv C1 Ht Hm). }
  unfold call_step, trans_at in H. rewrite Htr in H. simpl in H.
  destruct (ca_pc ca) as [i|i id1|i id1|i id1| | |qq| |oo|oo|err|[|[[i id1] w1] l] err|i id1 l err|err] eqn:Epc, e; try done;
    repeat case_match; simplify_eq; try done;
    try (by apply (collector_goes s tr ca tr); rewrite ?Epc; simpl; rewrite ?Epc; first [lia|done|idtac]).
  1-2: apply (collector_goes s tr ca tr0); rewrite ?Epc; simpl; rewrite ?Epc; try done; lia.
  - destruct Hms as [m0 Hm]; [lia|]. pose proof (Hmn m0 Hm) as ->. destruct Hlp as (Hi & Hl & _).
    eapply collector_own; try done; [by eapply pcs_ok_kept; [apply (links_owned s)|apply kept_Add|apply (cl_pcs _ _ _ _ _ Hc)]|].
    rewrite Hm. apply (collects_add ids m hub_of Hnd Hhead now i id1); simpl; rewrite ?Epc; simpl; try done; try lia.
    + by apply links_owned.
    + apply early_unstarted; [done|done|]. rewrite Ht. simpl. rewrite Epc. simpl. lia.
    + by eapply prefix_lookup_Some.
  - destruct Hearly as (Hq & -> & -> & ->); [rewrite Ht; simpl; rewrite Epc; simpl; lia|]. apply (collector_est s tr ca); try done; [auto|simpl; lia].
  - destruct Hearly as (Hq & -> & -> & ->); [rewrite Ht; simpl; rewrite Epc; simpl; lia|]. apply (collector_est s tr ca); try done; auto.
  - destruct Hms as [m0 Hm]; [rewrite Hlp; lia|]. pose proof (Hmn m0 Hm) as ->. rewrite Hm in *. simpl in *.
    apply (collector_goes s tr ca tr); rewrite ?Epc; simpl; try done; try lia. intros oo [= <-]. by left.
  - destruct Hms as [m0 Hm]; [rewrite Hlp; lia|]. pose proof (Hmn m0 Hm) as ->. pose proof (Hall ltac:(simpl; lia)) as Hso.
    rewrite Hso in Hids' |- *. by apply (collector_conn s tr ca).
  - destruct Hms as [m0 Hm]; [rewrite Hlp; lia|]. pose proof (Hmn m0 Hm) as ->. rewrite Hm in *. simpl in *.
    eapply collector_removed; rewrite ?Epc; simpl; try done; lia.
Qed.

(** ** All of it *)

(** What the environment does for the way back: the SOCKS connection is new and
    does not panic, and no listener that has waited writes to its links. *)
Definition answer_fair (ev : cp_ev) s : Prop :=
  match ev with
  | PNew conn _ => length (pr_calls s) = t -> unused conn
  | PLinkWrite p _ => forall l, pm_heap (lh s) !! p = Some l -> l_master l <> m
  | PLinkSend _ ev => ev <> Link.EvConn ConnPanic
  | _ => True
  end.

Lemma collector_new s conn a aq apc w inp :
  cp_inv s -> (length (pr_calls s) = t -> unused conn) -> call_ids (calls_of (new_call conn a s)) ->
  collector s aq apc w inp -> collector (new_call conn a s) aq apc w inp.
Proof using Type.
  intros Hinv Hun Hids [H1 H2 H3 H4]. pose proof (calls_of_new s conn a t Hinv) as Hlook. split; [done|done|..]; rewrite Hlook.
  - intros tr ca. case_decide as E; [intros [= <- <-]; by apply Hun|apply H3].
  - case_decide as E; [|done]. apply (collects_go ids m hub_of (calls_of s t)); [..|done]; unfold calls_of;
      rewrite (lookup_ge_None_2 (pr_calls s)) by lia; by destruct (cl_trans _ !! t).
Qed.

(** A [Send] of a link. *)
Lemma collector_send s g e s' aq apc w inp :
  cp_inv s -> e <> Link.EvConn ConnPanic -> link_send g e s = Some s' -> collector s aq apc w inp -> collector s' aq apc w inp.
Proof using Hnd Hhead.
  intros Hinv He H [H1 H2 H3 H4]. pose proof (links_owned s Hinv H1) as Ho.
  apply link_send_some in H as (p & h' & pc' & Hg & E & ->).
  assert (is_Some (pm_heap (lh s) !! p)) as [l Hl].
  { pose proof (ow_go _ _ _ Ho) as Hok. unfold pm_go_ok in Hok. rewrite Forall_lookup in Hok. apply lookup_lt_is_Some. by eapply Hok. }
  split; try done; simpl.
  - eapply pcs_ok_step; [exact Ho|exact Hg|exact Hl| |exact E|done]. intros Hm.
    destruct (link_call s p l Hinv H1 (conj Hl Hm)) as (_ & _ & _ & _ & _ & Hs). by apply Forall_forall.
  - change (calls_of {| pr_client := set_clinks h' (pr_client s); pr_calls := pr_calls s; pr_qsends := pr_qsends s; pr_lsends := <[g:=pc']> (pr_lsends s) |} t)
      with (calls_of s t).
    destruct (decide (l_master l = m)) as [Hm|Hne].
    + apply (collects_send ids m hub_of Hnd Hhead _ (lh s) _ _ _ _ _ _ g p l e); try done.
      destruct (link_call s p l Hinv H1 (conj Hl Hm)) as (tr & ca & -> & _ & Hr & _). exact Hr.
    + pose proof (kept_Send _ _ _ _ _ _ E) as [Hk [new Hgo]]. destruct (Hk p l Hl) as (l' & Hl' & El).
      apply (collects_pc ids m hub_of _ _ _ _ _ _ _ g p l'); [rewrite Hgo; by apply lookup_app_l_Some|done|congruence|].
      apply (collects_others ids m hub_of Hnd Hhead _ (lh s)); [done|done| |done].
      eapply others_Send; [exact E|done|done|by eapply po_others].
Qed.

(** The goroutine that copies goes on. *)
Lemma collector_copy s t' ca pc aq apc w inp :
  cp_inv s -> pr_calls s !! t' = Some ca -> call_ids (calls_of (set_call t' (set_ca_copy pc ca) s)) ->
  collector s aq apc w inp -> collector (set_call t' (set_ca_copy pc ca) s) aq apc w inp.
Proof using Type.
  intros Hinv Hca Hids Hc. destruct (calls_of_call s t' ca Hinv Hca) as [tr Ht]. pose proof (cproc_same s) as Es.
  destruct (decide (t' = t)) as [->|Hne].
  - rewrite <- Es in Hids |- *. eapply (collector_goes s tr ca tr); try done; [by eapply calls_of_same|]. by right.
  - apply (collector_same s); try done.
    pose proof (calls_of_set s t' tr ca tr (set_ca_copy pc ca) (pr_client s) t Ht (calls_of_same _ _ _ _ Ht)) as Hlook.
    by rewrite Es, decide_False in Hlook.
Qed.

Theorem exec_collects s ev s' out inp0 aq apc w inp :
  cp_inv s -> (forall i we data, ev <> PRead i we (inr data)) -> fair ids addr t ev s inp0 -> answer_fair ev s ->
  length (cl_wsc (pr_client s)) = length ids -> cp_exec ev s = Finished (s', out) -> call_ids (calls_of s') ->
  (call_rank (calls_of s t) <= 1 -> quiet ids hub_of w /\ aq = waiting_queue ids m makeBuffer /\ apc = Queue.PEnter /\ inp = []) ->
  collector s aq apc w inp -> collector s' aq apc w inp.
Proof using Hnd Hhead.
  intros Hinv Hr Hf Hfair Hlen E Hids Hearly Hc.
  destruct ev as [conn a|t' e|t' b|t' err|t' lost|i we read|p b|g e|g we lost|g e|i lost|i b]; simpl in E, Hf, Hfair.
  - simplify_eq. by apply collector_new.
  - destruct (pr_calls s !! t') as [ca|] eqn:Hca; [|done]. destruct (new_id_ok _ _); [|done].
    destruct (call_step t' e _ ca) as [[[c' ca'] o]| |] eqn:Ec; simplify_eq.
    destruct (calls_of_call s t' ca Hinv Hca) as [tr Ht]. destruct Hf as [Hown Hoth].
    destruct (decide (t' = t)) as [->|Hne]; [|eapply collector_other_call; eauto].
    eapply collector_own_call; eauto. destruct (calls_of_some _ _ _ _ Ht) as [Htr _]. unfold trans_at in Hown.
    rewrite Htr in Hown. by apply Hown.
  - destruct (pr_calls s !! t') as [ca|]; [|done]. simpl in E. destruct (ca_copy ca) as [|qq| |]; try done.
    destruct (pm_heap _ !! qq) as [q|]; [|done]. simpl in E. destruct (chan_send _ b); simplify_eq/=. by apply (collector_same s).
  - destruct (pr_calls s !! t') as [ca|] eqn:Hca; [|done]. destruct (ca_copy ca); simplify_eq. by apply collector_copy.
  - destruct (pr_calls s !! t') as [ca|] eqn:Hca; [|done]. destruct (ca_copy ca); simplify_eq. by apply collector_copy.
  - case_decide; [|done]. destruct read as [e|data]; [|by destruct (Hr i we data)].
    unfold Listen_step in E. destruct (cl_wsc _ !! i) as [wc|]; [|done]. destruct (wc_cancelled wc); simplify_eq/=; by apply (collector_same s).
  - destruct (pm_heap _ !! p) as [l|] eqn:Hl; [|done]. simpl in E. destruct (chan_send _ b) as [c| |] eqn:Ech; simplify_eq/=.
    apply (collector_others s); try done; [|by apply kept_update]. apply others_update. intros l0 Hl0. simpl in *. simplify_eq.
    split_and!; [by apply Hfair|done| |done]. by apply chan_send_inv in Ech as (-> & -> & _).
  - destruct (queue_send g e s) as [[s1 [o|]]|] eqn:Eq; simplify_eq.
    apply queue_send_some in Eq as (p & q & q' & pc' & _ & _ & _ & ->). by apply (collector_same s).
  - destruct (about_to_write g s) as [[x b]|]; [|done]. destruct (hand x we b) as [o e].
    destruct (lost && _); [done|]. destruct (queue_send g _ s) as [[s1 [o'|]]|] eqn:Eq; simplify_eq.
    apply queue_send_some in Eq as (p & q & q' & pc' & _ & _ & _ & ->). by apply (collector_same s).
  - destruct (link_send g e s) as [s1|] eqn:Eq; simplify_eq. by eapply collector_send.
  - destruct (Nat.ltb _ _); by simplify_eq.
  - simplify_eq. by apply (collector_same s).
Qed.

(** ** Reading a message of the server *)

(** A message that is no chunk of the call leaves its websocket. *)
Lemma read_other s aq apc w inp k v (rest : list json) :
  wire w (hub_of k) = v :: rest -> (forall id, id ∈ ids -> chunk_of id v = None) ->
  collector s aq apc w inp -> collector s aq apc (<[hub_of k := rest]> w) inp.
Proof using Hnd Hhead.
  intros Hw Hno. eapply collector_advance. apply (advances_wires ids m hub_of Hnd m_ids). intros id Hid. simpl.
  unfold w_pending. rewrite wire_insert. case_decide as Ek; [|done]. by rewrite Ek, Hw, omap_cons, (Hno id Hid).
Qed.

(** A chunk of the call: its link takes it, or the call has been removed. *)
Lemma read_own_chunk s k we m0 id b rest c aq apc w inp :
  cp_inv s -> proxies_there s -> id ∈ ids -> announced s k m0 id -> written b -> Link.we_ops we = [] -> Link.we_timer we = false ->
  wire w (hub_of k) = chunk_json id b :: rest -> consume we k (MChunk id b) (pr_client s) = Finished c ->
  call_ids (calls_of (set_pr_client c s)) ->
  (call_rank (calls_of s t) <= 1 -> quiet ids hub_of w /\ aq = waiting_queue ids m makeBuffer /\ apc = Queue.PEnter /\ inp = []) ->
  collector s aq apc w inp -> collector (set_pr_client c s) aq apc (<[hub_of k := rest]> w) inp.
Proof using Hnd Hhead.
  intros Hinv Hpx Hid (t0 & tr & ca & Ht & Hk & Hmm) Hb Hops Htm Hw Ec Hids Hearly Hc. pose proof (cl_ids _ _ _ _ _ Hc) as C1.
  pose proof (links_owned s Hinv C1) as Ho.
  assert (t0 = t) as ->.
  { destruct (decide (t0 = t)) as [|Hne]; [done|]. destruct (C1 t0 tr ca Ht) as [_ Hnone]. destruct (Hnone Hne id Hid). by eapply list_elem_of_lookup_2. }
  destruct (C1 t tr ca Ht) as [Hpa _]. pose proof (prefix_lookup_Some _ _ _ _ Hk (proj1 (Hpa eq_refl))) as Hkid.
  assert (hub_of k = hub_index ids hub_of id) as Ek by (unfold hub_index; by rewrite (ws_index_lookup ids k id Hnd Hkid)).
  assert (chunk_of id (chunk_json id b) = Some b) as Hch by (by rewrite chunk_of_json, decide_True).
  assert (m0 = m) as -> by (by apply (master_of ids m addr t Hnd Hhead s t tr ca m0 Hinv C1 Ht Hmm)). rewrite Ek in *. simpl in Ec.
  destruct (wsc_GetProxyById k id _) as [px|] eqn:Hp.
  - destruct (to_link we id b _) as [h'| |] eqn:Et; simplify_eq/=.
    pose proof (to_link_delivers ids m we id b _ h' Ho Hid Hops Htm Hb Et) as Hd.
    assert (kept (lh s) h') as Hkp by (destruct Hd; [by apply kept_update|apply kept_refl..]).
    split; [done|simpl; by eapply pcs_ok_kept; [apply Ho| |apply (cl_pcs _ _ _ _ _ Hc)]|by apply (cl_unused _ _ _ _ _ Hc)|].
    eapply (collects_chunk ids m hub_of Hnd Hhead); [exact Hid|exact Hw|exact Hch|exact Hd| |apply (cl_at _ _ _ _ _ Hc)].
    intros Hr. by apply Hearly.
  - simplify_eq. destruct (no_proxy_removed s t tr ca k id m Hinv Hpx Ht Hmm Hk Hp) as [Hr Hgone].
    assert (2 <= call_rank (calls_of s t)) as Hr2 by (rewrite Ht; simpl; lia). destruct Hc as [H1 H2 H3 H4]. split; [done..|].
    exact (collects_drop ids m hub_of Hnd Hhead _ _ _ _ _ _ _ id _ rest b Hid Hw Hch Hgone Hr2 H4).
Qed.

Lemma read_other_chunk s k we id b c aq apc w inp :
  cp_inv s -> id ∉ ids -> Link.we_ops we = [] -> consume we k (MChunk id b) (pr_client s) = Finished c ->
  call_ids (calls_of (set_pr_client c s)) -> collector s aq apc w inp -> collector (set_pr_client c s) aq apc w inp.
Proof using Hnd Hhead.
  intros Hinv Hout Hops Ec Hids Hc. pose proof (links_owned s Hinv (cl_ids _ _ _ _ _ Hc)) as Ho. simpl in Ec.
  destruct (wsc_GetProxyById k id _) as [px|]; [|simplify_eq; by apply (collector_same s)]. unfold to_link in Ec.
  destruct (Link.Get id _) as [p|] eqn:Hp; simpl in Ec; [|simplify_eq; by apply (collector_same s)].
  destruct (pm_heap _ !! p) as [l|] eqn:Hl; simpl in Ec; [|simplify_eq; by apply (collector_same s)].
  destruct (Link.writeBuf we l _) as [[l' r]|] eqn:Ew; simplify_eq/=.
  destruct (others_write ids m id p l l' we _ r _ Ho Hout Hp Hl Hops Ew) as [Hoth Hkp]. by apply (collector_others s).
Qed.

(** A finish message: the connection it names is removed. *)
Lemma read_finish s we id c aq apc w inp :
  cp_inv s -> opened s id -> consume we 0 (MFinish id) (pr_client s) = Finished c ->
  call_ids (calls_of (set_pr_client c s)) -> collector s aq apc w inp -> collector (set_pr_client c s) aq apc w inp.
Proof using Hnd Hhead.
  intros Hinv Hop Ec Hids Hc. pose proof (cl_ids _ _ _ _ _ Hc) as C1. pose proof (links_owned s Hinv C1) as Ho. simpl in Ec.
  destruct (wsc_GetProxyById 0 id _) as [proxy|] eqn:Hp; [|simplify_eq; by apply (collector_same s)].
  destruct Hop as (t0 & tr & ca & Ht & Hmm & Hr). rewrite (opened_proxy s 0 id proxy t0 tr ca Hinv Hp Ht Hmm) in Ec.
  destruct (remove t0 id _) as [c1|] eqn:Er; simplify_eq. destruct (calls_of_some _ _ _ _ Ht) as [Htr Hca].
  destruct (remove_parts _ _ _ _ _ Htr Er) as (tr' & Etr & _ & Es & _).
  rewrite <- (set_call_same s t0 ca c Hca) in Hids |- *. destruct (decide (t0 = t)) as [->|Hne].
  - assert (id = m) as -> by (by apply (master_of ids m addr t Hnd Hhead s t tr ca id Hinv C1 Ht Hmm)).
    destruct (remove_links _ _ _ _ Er) as [E|E].
    { apply (collector_goes s tr ca tr'); try done; [|by right]. intros Hle. lia. }
    eapply collector_own; try done; [by eapply pcs_ok_kept; [apply Ho|by eapply kept_RemoveAll|apply (cl_pcs _ _ _ _ _ Hc)]|].
    intros Hco. eapply (collects_remove ids m hub_of Hnd Hhead); [exact Ho|exact E|done|].
    apply (collects_go ids m hub_of (Some (tr, ca))); simpl; [done|lia| |done].
    intros tr1 ca1 [= <- <-]. exists tr', ca. split_and!; [done|done|by right].
  - pose proof (calls_of_set s t0 tr ca tr' ca c t Ht Etr) as Hlook. rewrite decide_False in Hlook by done.
    assert (id ∉ ids) as Hout by (by apply (master_of ids m addr t Hnd Hhead s t0 tr ca id Hinv C1 Ht Hmm)).
    destruct (remove_links _ _ _ _ Er) as [E|E]; [by apply (collector_same s)|].
    apply (collector_others s); try done; [by eapply others_RemoveAll|by eapply kept_RemoveAll].
Qed.

Theorem read_collects s k we v rest s' out aq apc w inp :
  cp_inv s -> proxies_there s -> down_typed s k v -> wire w (hub_of k) = v :: rest ->
  (forall wc, cl_wsc (pr_client s) !! k = Some wc -> wc_cancelled wc = false) ->
  (forall id b, id ∈ ids -> chunk_of id v = Some b -> Link.we_timer we = false) ->
  cp_exec (PRead k we (inr (Some v))) s = Finished (s', out) -> call_ids (calls_of s') ->
  (call_rank (calls_of s t) <= 1 -> quiet ids hub_of w /\ aq = waiting_queue ids m makeBuffer /\ apc = Queue.PEnter /\ inp = []) ->
  collector s aq apc w inp -> collector s' aq apc (<[hub_of k := rest]> w) inp.
Proof using Hnd Hhead.
  intros Hinv Hpx (x & -> & Hx) Hw Hcan Htm E Hids Hearly Hc. simpl in E. case_decide as Hops; [|done]. simpl in Hops.
  unfold Listen_step in E. destruct (cl_wsc _ !! k) as [wc|]; [|done]. rewrite (Hcan wc eq_refl) in E.
  rewrite income_encode in E. destruct (consume we k x (pr_client s)) as [c| |] eqn:Ec; simplify_eq/=.
  destruct Hx as [m0 id b Ha Hb|id -> Hop]; cbn [encode] in *.
  - destruct (decide (id ∈ ids)) as [Hid|Hout].
    + eapply read_own_chunk; try done. apply (Htm id b Hid). by rewrite chunk_of_json, decide_True.
    + eapply read_other_chunk; try done. eapply read_other; [exact Hw| |exact Hc].
      intros id' Hid'. rewrite chunk_of_json, decide_False; [done|]. by intros ->.
  - eapply read_finish; try done. eapply read_other; [exact Hw| |exact Hc].
    intros id' _. by apply (chunk_of_not_data id' _ _ (unmarshal_finish_message id)).
Qed.
End client_collects.
