(* ===== verification/EndToEnd.v ===== *)
(** One connection through the whole system: what a SOCKS client of the client
    process writes and the target of the server reads (wss/wssocks_client.go,
    wss/proxy_server.go, pipe/queue.go, pipe/link.go).

    System.v has the two processes with any number of calls, the websockets, and
    whatever other clients do.  Here the [Send]s of the server's links have their
    program points too, and for one call of [transData], with index [t], the
    buffers are recorded that its [CopyBuffer] has given to its queue.  The main
    theorem is that the target of that call gets a prefix of them, in the order in
    which they were written, whatever the other calls, the other clients and the
    scheduling of the goroutines do, from the call's first step to its removal. *)
From S2P Require Import Prelude GoChan Pipe RoundRobin PtrMap Queue QueueHub Link Starts Sends Striping Base64 Json.
From S2P Require Import Messages Hub Server Handshake Client Finish Wire Direction Session Upstream.
From S2P Require Import ClientProc ClientTable ClientSafe ClientRun Typing ClientTyped ServerTyped System.
From S2P Require Import LinkOwner Passage Follow ServerOwner QueueOwner ClientOwner CallFollow ClientFollow ServerFollow.

Section end_to_end.
Context {K : Ksuid} `{!KsuidText K}.
Context (n : nat) (hub_of : nat -> nat).
Context (ids : list KSUID) (m : KSUID) (addr : string) (t : nat).
Implicit Types (k g p : nat) (id : KSUID) (S : system).

(** ** The system with what is tracked *)

Record tracked := mkTracked {
  tk_sys : system;
  tk_lsends : gmap nat Link.send_pc;              (* the [Send]s of the server's links *)
  tk_in : list buffer;                            (* what the call has given to its queue *)
}.

Inductive tk_ev := TSys (ev : sys_ev) | TLinkSend (g : nat) (ev : Link.send_ev).

Definition tk_input (ev : sys_ev) (inp : list buffer) : list buffer :=
  match ev with SClient ev => after t ev inp | _ => inp end.

Definition tk_exec (ev : tk_ev) (T : tracked) : option tracked :=
  match ev with
  | TSys ev =>
      S ← sy_exec n hub_of ev (tk_sys T);
      Some (mkTracked S (tk_lsends T) (tk_input ev (tk_in T)))
  | TLinkSend g ev =>
      let st := sy_server (tk_sys T) in
      p ← pm_go (serverLinkHub st) !! g;
      '(h, pc) ← Link.Send_step p (serverLinkHub st) (pc_at (tk_lsends T) g) ev;
      Some (mkTracked (set_sy_server (set_links h st) (tk_sys T)) (<[g := pc]> (tk_lsends T)) (tk_in T))
  end.

(** What the environment does for the call: it gets the IDs [ids], and no other
    call or client does; its hello messages are not lost; it copies nothing after
    the end of its input; the server does not give up waiting to hand a chunk to
    a link; and the targets' connections are new and do not panic. *)
Definition tk_fair (ev : tk_ev) (T : tracked) : Prop :=
  let S := tk_sys T in
  match ev with
  | TSys (SClient ev) => fair ids addr t ev (sy_client S) (tk_in T)
  | TSys (SServer ev) => not_ours ids m ev (sy_server S)
  | TSys (SServerRead _ _ k we) =>
      forall v rest id b, wire (sy_up S) k = v :: rest -> id ∈ ids -> chunk_of id v = Some b -> Link.we_timer we = false
  | TSys (SEst _ ev _) => forall c, ev = EvDialed (inr c) -> unused c
  | TLinkSend _ ev => ev <> Link.EvConn ConnPanic
  | _ => True
  end.

Definition tk_step (T T' : tracked) : Prop := exists ev, tk_fair ev T /\ tk_exec ev T = Some T'.

(** Nothing at the server is for the call's IDs, and it has not begun. *)
Record tk_start (T : tracked) : Prop := {
  ts_sys : sy_start n hub_of (tk_sys T);
  ts_in : tk_in T = [];
  ts_owned : owned ids m (serverLinkHub (sy_server (tk_sys T)));
  ts_free id : id ∈ ids -> pm_map (serverLinkHub (sy_server (tk_sys T))) !! id = None;
  ts_none p l : pm_heap (serverLinkHub (sy_server (tk_sys T))) !! p = Some l -> l_master l <> m;
  ts_pcs : pcs_ok ids m (serverLinkHub (sy_server (tk_sys T))) (tk_lsends T);
  ts_ests p e : sv_ests (sy_server (tk_sys T)) !! p = Some e -> es_id e ∉ ids;
}.

Context (Hnd : NoDup ids) (Hhead : ids !! 0 = Some m) (Hn : length ids = n) (Hinj : Inj (=) (=) hub_of).

(** ** The invariant *)

(** Where the call stands, at both ends. *)
Definition both_ends (c : cproc) (st : server) up (pcs : gmap nat Link.send_pc) (inp : list buffer) : Prop :=
  exists unsaid lpc sd dl,
    stands ids m addr t c inp unsaid up (serverLinkHub st) lpc pcs sd dl /\ ests_ok ids m st sd dl.

Definition tk_inv (T : tracked) : Prop :=
  sys_typed n hub_of (tk_sys T) /\
  both_ends (sy_client (tk_sys T)) (sy_server (tk_sys T)) (sy_up (tk_sys T)) (tk_lsends T) (tk_in T).

Lemma due_begin id :
  id ∈ ids ->
  omap (fun '(k, v) => if decide (k = ws_index ids id) then item_of id v else None) (hellos ids m 0 ++ est_last ids m addr) =
    due ids m addr [] id.
Proof using Hnd Hhead.
  intros [k Hk]%list_elem_of_lookup. rewrite (ws_index_lookup ids k id Hnd Hk).
  pose proof (hello_items id k m addr ids Hnd Hk) as H. unfold hellos, est_last, est_json. rewrite drop_0.
  setoid_rewrite H; [|by rewrite head_lookup]. unfold due. by case_decide.
Qed.

Lemma tk_start_inv T : tk_start T -> tk_inv T.
Proof using Hnd Hhead Hn.
  intros [Hsys Hin Ho Hf Hno Hp He].
  assert (0 < n) as Hpos by (rewrite <- Hn; by eapply lookup_lt_Some).
  split; [by apply sy_start_typed|]. destruct Hsys as [Hc _ _ _ _ Hup _]. rewrite Hc, Hin.
  exists (hellos ids m 0 ++ est_last ids m addr), Link.PEnter, false, false. split.
  2: { pose proof (head_in ids m Hhead) as Hm. split; [intros p e He' Hid; by destruct (He p e He')|done|..].
       - intros p p' e e' He' _ E. destruct (He p e He'). by rewrite E.
       - intros p e c He' E. destruct (He p e He'). by rewrite E. }
  exists None, (new_name ids m). split_and!; [|done|].
  - split; simpl; try done. by rewrite length_replicate.
  - split; simpl; try done.
    + split; [intros g g' p p' l l' _ _ Hl _ E; by destruct (Hno p l Hl)|intros g p l _ Hl E; by destruct (Hno p l Hl)].
    + apply (passage_begin ids m addr Hnd Hhead); [done|done|by intros p l _; apply Hno|].
      intros id Hid. rewrite give_items, Hup. simpl. by apply due_begin.
Qed.

(** ** Steps of the client *)

Lemma client_ends T ev T' : tk_inv T -> tk_fair (TSys (SClient ev)) T -> tk_exec (TSys (SClient ev)) T = Some T' -> tk_inv T'.
Proof using Hnd Hhead Hn.
  intros [HS (unsaid & lpc & sd & dl & Hst & He)] Hf H. cbn [tk_exec] in H.
  destruct (sy_exec n hub_of (SClient ev) (tk_sys T)) as [S'|] eqn:E; [|done]. injection H as <-.
  split; [by eapply client_typed|]. simpl in E. destruct (reads_message ev) eqn:Hr; [done|].
  destruct (cp_exec ev _) as [[c out]| |] eqn:Ec; simplify_eq/=.
  destruct (exec_stands ids m addr t Hnd Hhead _ _ _ _ _ _ _ _ _ _ _ _ (st_client _ _ _ HS) (reads_message_false _ Hr) Hf Ec Hst)
    as [unsaid' Hst']. by exists unsaid', lpc, sd, dl.
Qed.

Lemma client_read_ends T k we T' : tk_inv T -> tk_exec (TSys (SClientRead k we)) T = Some T' -> tk_inv T'.
Proof using Hnd Hhead Hn Hinj.
  intros [HS (unsaid & lpc & sd & dl & Hst & He)] H. cbn [tk_exec] in H.
  destruct (sy_exec n hub_of (SClientRead k we) (tk_sys T)) as [S'|] eqn:E; [|done]. injection H as <-.
  split; [by eapply client_read_typed|]. cbn [sy_exec] in E. destruct (wire _ (hub_of k)) as [|v rest] eqn:Hw; [done|].
  destruct (Nat.ltb_spec k n) as [Hk|]; [|done]. pose proof (st_down _ _ _ HS k Hk) as Hd. rewrite Hw in Hd.
  apply Forall_cons in Hd as [Hv _]. destruct (cp_exec (PRead k we (inr (Some v))) _) as [[c out]| |] eqn:Ec; [|done..].
  injection E as <-. exists unsaid, lpc, sd, dl. split; [|done].
  by eapply (read_stands ids m addr t Hnd Hhead _ k we v); [apply (st_client _ _ _ HS)|..].
Qed.

(** ** Steps of the server *)

(** The receiver's side goes on, and the sender's side is the same. *)
Lemma stands_receiver c inp unsaid up up' hl hl' lpc pcs pcs' sd dl (Q : bool -> bool -> Prop) :
  stands ids m addr t c inp unsaid up hl lpc pcs sd dl ->
  (forall qq name hq ws qpc,
     follows ids m addr qq name (mkDir hq ws qpc (give unsaid up) hl lpc inp) pcs sd dl ->
     exists lpc' sd' dl', Q sd' dl' /\
       follows ids m addr qq name (mkDir hq ws qpc (give unsaid up') hl' lpc' inp) pcs' sd' dl') ->
  exists lpc' sd' dl', Q sd' dl' /\ stands ids m addr t c inp unsaid up' hl' lpc' pcs' sd' dl'.
Proof using Type.
  intros (ph & name & Hc & Hname & Hf) Hstep.
  assert (exists hq ws qpc, forall up hl lpc,
    view ids m ph (clientQueueHub (pr_client c)) (cl_writers (pr_client c)) (pr_qsends c) (give unsaid up) hl lpc inp =
      mkDir hq ws qpc (give unsaid up) hl lpc inp) as (hq & ws & qpc & E).
  { destruct ph as [[qq gq]|]; by eexists _, _, _. }
  rewrite E in Hf. destruct (Hstep _ _ _ _ _ Hf) as (lpc' & sd' & dl' & HQ & Hf'). exists lpc', sd', dl'. split; [done|].
  exists ph, name. by rewrite E.
Qed.

(** A step that is not for the connection, or that removes it. *)
Lemma ends_moves c st st' inp unsaid up lpc pcs sd dl :
  stands ids m addr t c inp unsaid up (serverLinkHub st) lpc pcs sd dl -> ests_ok ids m st sd dl ->
  moves ids m (past m st) (serverLinkHub st) (serverLinkHub st') ->
  (forall dl', ests_ok ids m st sd dl' -> ests_ok ids m st' sd dl') -> both_ends c st' up pcs inp.
Proof using Hnd Hhead.
  intros Hst He Hmv Hests. pose proof (past_ok ids m (head_in ids m Hhead) _ _ _ He) as Hpast.
  destruct (stands_receiver _ _ _ _ up _ (serverLinkHub st') _ _ pcs _ _ (ests_ok ids m st') Hst)
    as (lpc' & sd' & dl' & HQ & Hst'); [|by exists unsaid, lpc', sd', dl'].
  intros qq name hq ws qpc Hf.
  destruct (follows_moves ids m addr Hnd Hhead _ _ _ _ _ _ _ _ _ _ _ _ _ _ Hmv (fun HP => proj1 (Hpast HP)) Hf) as (dl' & Hdl & Hf').
  exists lpc, sd, dl'. split; [|done]. apply Hests. destruct Hdl as [->|[HP ->]]; [done|by apply Hpast].
Qed.

Lemma stands_owned c inp unsaid up hl lpc pcs sd dl : stands ids m addr t c inp unsaid up hl lpc pcs sd dl -> owned ids m hl.
Proof using Type. intros (ph & name & _ & _ & [Ho _ _ _]). by destruct ph as [[? ?]|]. Qed.

Lemma server_ends T ev T' : tk_inv T -> tk_fair (TSys (SServer ev)) T -> tk_exec (TSys (SServer ev)) T = Some T' -> tk_inv T'.
Proof using Hnd Hhead Hn.
  intros [HS (unsaid & lpc & sd & dl & Hst & He)] Hf H. cbn [tk_exec] in H.
  destruct (sy_exec n hub_of (SServer ev) (tk_sys T)) as [S'|] eqn:E; [|done]. injection H as <-.
  split; [by eapply server_typed|]. simpl in E. destruct (elsewhere n hub_of ev) eqn:Hel; [|done].
  destruct (sv_exec ev _) as [st|] eqn:Ex; simplify_eq/=.
  pose proof (head_in ids m Hhead) as Hm.
  pose proof (stands_owned _ _ _ _ _ _ _ _ _ Hst) as Ho.
  pose proof (pools_good_inv ids m _ _ _ (st_server _ _ _ HS) He) as Hg.
  assert (match ev with XEst _ _ | XQueueSend _ _ _ => False | _ => True end) as Hno by (by destruct ev).
  destruct (sv_exec_moves ids m Hm _ ev _ _ Ho Hg Hf Hno Ex) as [Hmv Hsame].
  eapply ends_moves; [exact Hst|exact He|exact Hmv|]. intros dl'. by apply ests_ok_same.
Qed.

Lemma queue_ends T S : tk_inv T -> sys_typed n hub_of S -> sy_client S = sy_client (tk_sys T) -> sy_up S = sy_up (tk_sys T) ->
  (exists h, sy_server S = set_queues h (sy_server (tk_sys T))) -> tk_inv (mkTracked S (tk_lsends T) (tk_in T)).
Proof using Type.
  intros [_ (unsaid & lpc & sd & dl & Hst & [H1 H2 H3 H4])] HS Ec Eu [h Es]. split; [done|]. exists unsaid, lpc, sd, dl.
  cbn [tk_sys tk_lsends tk_in]. rewrite Ec, Eu, Es. by split.
Qed.

Lemma est_ends T p ev lost T' : tk_inv T -> tk_fair (TSys (SEst p ev lost)) T -> tk_exec (TSys (SEst p ev lost)) T = Some T' -> tk_inv T'.
Proof using Hnd Hhead Hn.
  intros [HS (unsaid & lpc & sd & dl & Hst & He)] Hf H. cbn [tk_exec] in H.
  destruct (sy_exec n hub_of (SEst p ev lost) (tk_sys T)) as [S'|] eqn:E; [|done]. injection H as <-.
  split; [by eapply est_typed|]. simpl in E. destruct (sv_ests _ !! p) as [e|]; [|done]. simpl in E.
  destruct (establish_step p ev _) as [[st out]|] eqn:Ex; simplify_eq/=. pose proof (head_in ids m Hhead) as Hm.
  destruct (establish_moves ids m Hm p ev _ _ _ _ _ (st_server _ _ _ HS) He Hf Ex) as [[Hmv Hests]|(c & Hc & -> & -> & He' & El)].
  - by eapply ends_moves.
  - destruct (stands_receiver _ _ _ _ (sy_up (tk_sys T)) _ (serverLinkHub st) _ _ (tk_lsends T) _ _ (ests_ok ids m st) Hst)
      as (lpc' & sd' & dl' & HQ & Hst'); [|by exists unsaid, lpc', sd', dl'].
    intros qq name hq ws qpc Hfo. exists lpc, true, true. split; [done|]. rewrite El. by apply (follows_dial ids m addr Hnd Hhead).
Qed.

Lemma link_send_ends T g ev T' : tk_inv T -> tk_fair (TLinkSend g ev) T -> tk_exec (TLinkSend g ev) T = Some T' -> tk_inv T'.
Proof using Hnd Hhead Hn.
  intros [HS (unsaid & lpc & sd & dl & Hst & He)] Hf H. simpl in H, Hf. destruct (pm_go _ !! g) as [p|] eqn:Hg; [|done]. simpl in H.
  destruct (Link.Send_step p _ _ ev) as [[h pc]|] eqn:E; [|done]. simpl in H. injection H as <-. split.
  - eapply (server_typed n hub_of _ (XLinkSend p (pc_at (tk_lsends T) g) ev)); [exact HS|]. simpl. by rewrite E.
  - destruct (stands_receiver _ _ _ _ (sy_up (tk_sys T)) _ h _ _ (<[g := pc]> (tk_lsends T)) _ _
      (fun sd' dl' => sd' = sd /\ dl' = dl) Hst) as (lpc' & sd' & dl' & [-> ->] & Hst').
    + intros qq name hq ws qpc Hfo.
      destruct (follows_send ids m addr Hnd Hhead _ _ _ _ _ _ _ _ _ _ _ _ _ _ _ _ _ Hg Hf E Hfo) as [lpc' Hf'].
      by exists lpc', sd, dl.
    + exists unsaid, lpc', sd, dl. split; [done|]. destruct He as [H1 H2 H3 H4]. by split.
Qed.

(** *** Reading a message *)

Lemma sv_read config now hp x we st st' :
  sv_exec (XHttp config now (HRead hp) (HEvRead MessageText (Some (encode x)) None we)) st = Some st' ->
  Link.we_ops we = [] /\ serve now we hp x st = Finished st'.
Proof using Type.
  intros H. simpl in H. case_decide as Hops; [|done]. simpl in Hops. split; [done|].
  pose proof (dispatch_encode now we hp x st) as E. unfold dispatchMessage in E. rewrite E in H.
  by destruct (serve now we hp x st); simplify_eq/=.
Qed.

(** The messages for websocket [k]. *)
Definition said k (l : list (nat * json)) : list json := omap (fun '(k', v) => if decide (k' = k) then Some v else None) l.

Lemma wire_give_said k l up : wire (give l up) k = wire up k ++ said k l.
Proof using Type.
  revert up. induction l as [|[k' v] l IH]; intros up; [by rewrite app_nil_r|].
  change (give ((k', v) :: l) up) with (give l (put k' [v] up)). rewrite IH, wire_put. unfold said. rewrite omap_cons.
  repeat case_decide; simplify_eq; rewrite <- ?app_assoc; done.
Qed.

Lemma items_same up up' : (forall k, wire up' k = wire up k) -> items_kept ids up up'.
Proof using Type. intros E id _. by rewrite E. Qed.

(** Reading from the websockets as they are is reading from them with what the
    call has still to say. *)
Lemma read_given k v (rest : list json) unsaid up :
  wire up k = v :: rest ->
  wire (give unsaid up) k = v :: rest ++ said k unsaid /\
  items_kept ids (<[k := rest ++ said k unsaid]> (give unsaid up)) (give unsaid (<[k := rest]> up)).
Proof using Type.
  intros Hw. split; [by rewrite wire_give_said, Hw|]. apply items_same. intros k'. rewrite wire_insert, !wire_give_said, wire_insert.
  by case_decide; subst.
Qed.

Lemma read_strange k x (rest : list json) unsaid up :
  strange ids x -> wire up k = encode x :: rest -> items_kept ids (give unsaid up) (give unsaid (<[k := rest]> up)).
Proof using Type.
  intros Hx Hw id Hid. rewrite !wire_give_said, !omap_app, wire_insert. case_decide as E; [|done]. rewrite E, Hw, omap_cons.
  by rewrite (other_item ids x id (strange_other ids x Hx) Hid).
Qed.

(** A message of the call. *)
Lemma own_read now we hp k x rest unsaid up st st' qq name hq ws qpc lpc inp pcs sd dl :
  own ids m addr k x -> wire up k = encode x :: rest -> Link.we_ops we = [] ->
  (forall id b, id ∈ ids -> chunk_of id (encode x) = Some b -> Link.we_timer we = false) ->
  serve now we hp x st = Finished st' -> ests_ok ids m st sd dl ->
  follows ids m addr qq name (mkDir hq ws qpc (give unsaid up) (serverLinkHub st) lpc inp) pcs sd dl ->
  exists lpc' sd' dl', ests_ok ids m st' sd' dl' /\
    follows ids m addr qq name (mkDir hq ws qpc (give unsaid (<[k := rest]> up)) (serverLinkHub st') lpc' inp) pcs sd' dl'.
Proof using Hnd Hhead.
  intros Hx Hw Hops Htm H He Hf. destruct (read_given k _ rest unsaid up Hw) as [Hg Hit].
  pose proof (fo_owned _ _ _ _ _ _ _ _ _ Hf) as Ho. simpl in Ho.
  assert (forall hl lpc sd dl,
    follows ids m addr qq name (mkDir hq ws qpc (<[k := rest ++ said k unsaid]> (give unsaid up)) hl lpc inp) pcs sd dl ->
    follows ids m addr qq name (mkDir hq ws qpc (give unsaid (<[k := rest]> up)) hl lpc inp) pcs sd dl) as Hfix.
  { intros hl lpc' sd' dl'. apply (follows_wires ids m addr Hnd Hhead); [apply queues_kept_refl|done]. }
  destruct Hx as [(id & -> & Hk)|[[-> ->]|(id & b & -> & Hk & Hb)]]; simpl in H.
  - injection H as <-. exists lpc, sd, dl. split; [destruct He as [H1 H2 H3 H4]; by split|].
    by apply Hfix, (follows_hello ids m addr Hnd Hhead).
  - injection H as <-. destruct (follows_est ids m addr Hnd Hhead _ _ now _ _ _ _ _ _ _ _ _ _ _ Hg Hf) as (-> & -> & Hf').
    exists lpc, true, false. split; [|by apply Hfix]. by apply (ests_ok_establish ids m Hhead hp _ st _ false false).
  - destruct (to_link we id b (serverLinkHub st)) as [h| |] eqn:Et; simplify_eq/=.
    assert (id ∈ ids) as Hid by (by eapply list_elem_of_lookup_2).
    assert (chunk_of id (chunk_json id b) = Some b) as Hc by (by rewrite chunk_of_json, decide_True).
    pose proof (to_link_delivers ids m we id b _ h Ho Hid Hops (Htm id b Hid Hc) Hb Et) as Hdl.
    exists lpc, sd, dl. split; [destruct He as [H1 H2 H3 H4]; by split|]. apply Hfix.
    rewrite <- (ws_index_lookup ids k id Hnd Hk) in *. by eapply (follows_chunk ids m addr Hnd Hhead).
Qed.

Lemma server_read_ends T config now k we T' :
  tk_inv T -> tk_fair (TSys (SServerRead config now k we)) T -> tk_exec (TSys (SServerRead config now k we)) T = Some T' -> tk_inv T'.
Proof using Hnd Hhead Hn Hinj.
  intros [HS (unsaid & lpc & sd & dl & Hst & He)] Hf H. cbn [tk_exec] in H.
  destruct (sy_exec n hub_of _ (tk_sys T)) as [S'|] eqn:E; [|done]. injection H as <-.
  split; [by eapply server_read_typed|]. cbn [sy_exec] in E. destruct (wire _ k) as [|v rest] eqn:Hw; [done|].
  destruct (Nat.ltb k n); [|done]. destruct (sv_exec _ _) as [st|] eqn:Ex; [|done]. cbn [mbind option_bind] in E. injection E as <-.
  pose proof (st_up _ _ _ HS k) as Hu. rewrite Hw in Hu. apply Forall_cons in Hu as [(x & -> & Hx) _].
  destruct (sv_read _ _ _ _ _ _ _ Ex) as [Hops Hs]. cbn [tk_sys tk_lsends tk_in tk_input sy_client sy_server sy_up].
  destruct (stands_facts _ _ _ _ _ _ _ _ _ _ _ _ _ Hst) as (C1 & _ & C3).
  destruct (up_type_own ids m addr t Hnd Hhead _ _ _ (st_client _ _ _ HS) C1 C3 Hx) as [Hstr|Hown].
  - pose proof (head_in ids m Hhead) as Hm.
    pose proof (pools_good_inv ids m _ _ _ (st_server _ _ _ HS) He) as Hg.
    pose proof (serve_foreign ids m Hhead _ _ _ _ _ _ _ Hg Hops Hstr Hs) as Hfg.
    destruct (foreigns_moves ids m Hm _ _ _ (stands_owned _ _ _ _ _ _ _ _ _ Hst) Hfg) as [Hmv Hsame].
    destruct (stands_receiver _ _ _ _ (<[k := rest]> (sy_up (tk_sys T))) _ (serverLinkHub (sy_server (tk_sys T))) _ _ (tk_lsends T) _ _
      (fun sd' dl' => sd' = sd /\ dl' = dl) Hst) as (lpc' & sd' & dl' & [-> ->] & Hst').
    2: { eapply ends_moves; [exact Hst'|exact He|exact Hmv|intros dl'; by apply ests_ok_same]. }
    intros qq name hq ws qpc Hfo. exists lpc, sd, dl. split; [done|].
    eapply (follows_wires ids m addr Hnd Hhead); [apply queues_kept_refl|by eapply read_strange|exact Hfo].
  - destruct (stands_receiver _ _ _ _ (<[k := rest]> (sy_up (tk_sys T))) _ (serverLinkHub st) _ _ (tk_lsends T) _ _
      (ests_ok ids m st) Hst) as (lpc' & sd' & dl' & HQ & Hst'); [|by exists unsaid, lpc', sd', dl'].
    intros qq name hq ws qpc Hfo. eapply own_read; try done. intros id b Hid Hc. by eapply Hf.
Qed.

Lemma tk_step_inv T T' : tk_inv T -> tk_step T T' -> tk_inv T'.
Proof using Hnd Hhead Hn Hinj.
  intros HT (ev & Hf & H). destruct ev as [[ev|k we|ev|config now k we|p ev lost|g ev|g we lost]|g ev].
  - by eapply client_ends.
  - by eapply client_read_ends.
  - by eapply server_ends.
  - by eapply server_read_ends.
  - by eapply est_ends.
  - cbn [tk_exec] in H. destruct (sy_exec n hub_of _ (tk_sys T)) as [S|] eqn:E; [|done]. injection H as <-. simpl in E.
    destruct (sy_queue_send g ev (tk_sys T)) as [[S1 [o|]]|] eqn:Eq; simplify_eq.
    destruct (queue_send_typed _ _ _ _ _ _ _ (proj1 HT) Eq) as [HS' Ec].
    apply sy_queue_send_some in Eq as (p & q & q' & pc' & _ & _ & _ & ->). eapply (queue_ends T); try done. by eexists.
  - cbn [tk_exec] in H. destruct (sy_exec n hub_of _ (tk_sys T)) as [S|] eqn:E; [|done]. injection H as <-.
    pose proof (queue_wrote_typed _ _ _ _ _ _ _ (proj1 HT) E) as HS'. simpl in E.
    destruct (pc_at (sy_sends (tk_sys T)) g) as [| | | | |[x|] rest b| | | |]; try done.
    destruct (hand x we b) as [out e]. destruct (sy_queue_send g _ (tk_sys T)) as [[S1 [o|]]|] eqn:Eq; simplify_eq.
    apply sy_queue_send_some in Eq as (p & q & q' & pc' & _ & _ & _ & ->). eapply (queue_ends T); try done. by eexists.
  - by eapply link_send_ends.
Qed.

Lemma tk_reachable_inv T0 T : tk_start T0 -> rtc tk_step T0 T -> tk_inv T.
Proof using Hnd Hhead Hn Hinj.
  intros H0%tk_start_inv Hr. induction Hr; [done|]. by eauto using tk_step_inv.
Qed.

(** C1: end to end. In every state that the two processes reach in the environment
    of [tk_fair], with any number of other calls and whatever other clients do, the
    server has started at most
    one [Send] for the call, and it has written a prefix of what the call has given
    to its queue, in that order; it has closed the connection for writing only if
    that is all of it and its input has ended. *)
Theorem upstream_end_to_end T0 T p l :
  tk_start T0 -> rtc tk_step T0 T ->
  let h := serverLinkHub (sy_server (tk_sys T)) in
  p ∈ pm_go h -> pm_heap h !! p = Some l -> l_master l = m ->
  (forall p' l', p' ∈ pm_go h -> pm_heap h !! p' = Some l' -> l_master l' = m -> p' = p) /\
  exists cn, l_conn l = Some cn /\ tc_sent cn `prefix_of` data_of (tk_in T) /\
    (tc_eof cn = true -> tc_sent cn = data_of (tk_in T) /\ ~ no_eof (tk_in T)).
Proof using Hnd Hhead Hn Hinj.
  intros H0 Hr h Hp Hl Hlm. destruct (tk_reachable_inv _ _ H0 Hr) as [_ (unsaid & lpc & sd & dl & (ph & name & _ & _ & Hf) & _)].
  pose proof (fo_passage _ _ _ _ _ _ _ _ _ Hf) as Hpa. split.
  - intros p' l' Hp' Hl' Hlm'. destruct ph as [[qq gq]|];
      destruct (passage_started ids m addr _ _ _ _ _ p l Hpa Hp Hl Hlm) as (Hru & _); by apply (ru_only _ _ _ _ _ _ Hru p' l').
  - destruct ph as [[qq gq]|]; apply (follows_out ids m addr _ _ _ _ _ _ p l Hf Hp Hl Hlm).
Qed.

(** A run, for examples. *)
Fixpoint tk_run (evs : list tk_ev) (T : tracked) : option tracked :=
  match evs with
  | [] => Some T
  | ev :: evs' => T1 ← tk_exec ev T; tk_run evs' T1
  end.

Fixpoint tk_run_fair (evs : list tk_ev) (T : tracked) : Prop :=
  match evs with
  | [] => True
  | ev :: evs' => tk_fair ev T /\ match tk_exec ev T with Some T1 => tk_run_fair evs' T1 | None => False end
  end.

Lemma tk_run_reachable evs T T' : tk_run evs T = Some T' -> tk_run_fair evs T -> rtc tk_step T T'.
Proof using Type.
  revert T. induction evs as [|ev evs IH]; intros T H Hf; simpl in H, Hf; [by simplify_eq|].
  destruct Hf as [Hev Hf]. destruct (tk_exec ev T) as [T1|] eqn:E; [|done]. eapply rtc_l; [by exists ev|]. by apply IH.
Qed.
End end_to_end.
