(* ===== verification/EndToEndBack.v ===== *)
(** One connection through the whole system, the way back: what the target sends
    and the SOCKS client of the client process reads (wss/proxy_server.go,
    pipe/queue.go, wss/wssocks_client.go, pipe/link.go).

    This is EndToEnd.v in the other direction, with the same system.  For each
    queue of the server the buffers are recorded that were written to it.  The main
    theorem is that the SOCKS connection of one call gets a prefix of those of its
    queue, in the order in which they were written, whatever the other calls, the
    other clients and the scheduling of the goroutines do: from the hello messages
    that put the queue together, while chunks may arrive before the call has set
    its connection, to the removal of either end. *)
From S2P Require Import Prelude GoChan Pipe RoundRobin PtrMap Queue QueueHub Link Starts Sends Striping Base64 Json.
From S2P Require Import Messages Hub Server Handshake Client Finish Wire Direction Session Upstream Downstream.
From S2P Require Import ClientProc ClientTable ClientSafe ClientRun Typing ClientTyped ServerTyped System.
From S2P Require Import LinkOwner Passage Follow ServerOwner QueueOwner ClientOwner CallFollow ClientProxies ClientFollow.
From S2P Require Import ServerFollow ServerQueues ServerAnswers ClientLinks ClientCollects EndToEnd.

Section end_to_end_back.
Context {K : Ksuid} `{!KsuidText K}.
Context (n : nat) (hub_of : nat -> nat).

(** The call, and the goroutine of its queue's [Send] at the server that gets past
    its entry test. *)
Context (ids : list KSUID) (m : KSUID) (addr : string) (t : nat) (g0 : nat).
Implicit Types (k g p : nat) (id : KSUID) (S : system) (T : tracked).

(** ** The system with what is recorded *)

Record answered := mkAnswered {
  aw_tk : tracked;
  aw_log : gmap nat (list buffer);                (* what each queue of the server has accepted *)
}.
Implicit Types (A : answered).

Abbreviation aw_sys A := (tk_sys (aw_tk A)).
Abbreviation aw_client A := (sy_client (tk_sys (aw_tk A))).
Abbreviation aw_server A := (sy_server (tk_sys (aw_tk A))).
Abbreviation aw_queues A := (serverQueueHub (sy_server (tk_sys (aw_tk A)))).

Definition logging (ev : tk_ev) (log : gmap nat (list buffer)) : gmap nat (list buffer) :=
  match ev with TSys (SServer (XQueueWrite p b)) => log_put p b log | _ => log end.

Definition aw_exec (ev : tk_ev) A : option answered :=
  T ← tk_exec n hub_of t ev (aw_tk A); Some (mkAnswered T (logging ev (aw_log A))).

(** What the environment does for the way back, in addition to [tk_fair]: the
    SOCKS connection is new and does not panic; the client does not give up waiting
    to hand a chunk to a link of the call, and a listener that was stopped reads
    nothing; what is copied to the call's queue at the server has the form of
    [Write] and [WriteEOF], with nothing after the end; a message is lost only with
    an error; and when a second [Send] of that queue was started, it tests the
    status after the first has set it. *)
Definition aw_fair (ev : tk_ev) A : Prop :=
  tk_fair ids m addr t ev (aw_tk A) /\
  match ev with
  | TSys (SClient ev) => answer_fair m t ev (aw_client A)
  | TSys (SClientRead k we) =>
      (forall w, cl_wsc (pr_client (aw_client A)) !! k = Some w -> wc_cancelled w = false) /\
      forall v rest id b, wire (sy_down (aw_sys A)) (hub_of k) = v :: rest -> id ∈ ids -> chunk_of id v = Some b ->
        Link.we_timer we = false
  | TSys (SServer (XQueueWrite p b)) =>
      forall q, pm_heap (aw_queues A) !! p = Some q -> q_masterID q = m -> no_eof (accepted (aw_log A) p) /\ written b
  | TSys (SQueueSend g _) =>
      forall p q, pm_go (aw_queues A) !! g = Some p -> pm_heap (aw_queues A) !! p = Some q -> q_masterID q = m -> g <> g0 ->
        pc_at (sy_sends (aw_sys A)) g = Queue.PEnter -> q_status q = StaSend \/ q_status q = StaDone
  | TSys (SQueueWrote _ ws_err lost) => lost -> is_Some ws_err
  | _ => True
  end.

Definition aw_step A A' : Prop := exists ev, aw_fair ev A /\ aw_exec ev A = Some A'.

(** Nothing at the server is for the call's IDs, and it has not begun. *)
Record aw_start A : Prop := {
  as_tk : tk_start n hub_of ids m (aw_tk A);
  as_log : aw_log A = ∅;
  as_owned : q_owned ids m (aw_queues A);
  as_none p q : pm_heap (aw_queues A) !! p = Some q -> q_masterID q <> m;
  as_started : pcs_started (aw_queues A) (sy_sends (aw_sys A));
  as_writers g pc w : sy_sends (aw_sys A) !! g = Some pc -> pc_writer pc = Some w -> w_Id w ∉ ids;
}.

Context (Hnd : NoDup ids) (Hhead : ids !! 0 = Some m) (Hn : length ids = n) (Hinj : Inj (=) (=) hub_of).

(** ** The invariant *)

Abbreviation asked c := (call_rank (calls_of c t)).
Abbreviation stands_back := (stands_back ids m hub_of g0).
Abbreviation collector := (collector ids m addr t hub_of).

(** Both ends, with the connection in the system of Striping.v. *)
Definition back_ends (c : cproc) (st : server) (sends : gmap nat (Queue.send_pc webSocketWriter)) (down : wires)
    (log : gmap nat (list buffer)) : Prop :=
  exists aq apc inp, stands_back (serverQueueHub st) (has_est m st) sends down log aq apc inp /\
    collector c aq apc down inp.

Record aw_inv A : Prop := {
  ai_tk : tk_inv n hub_of ids m addr t (aw_tk A);
  ai_proxies : proxies_there (aw_client A);
  ai_asked : has_est m (aw_server A) -> 2 <= asked (aw_client A);
  ai_ends : back_ends (aw_client A) (aw_server A) (sy_sends (aw_sys A)) (sy_down (aw_sys A)) (aw_log A);
}.

Lemma m_id : m ∈ ids.
Proof using Hhead. by eapply list_elem_of_lookup_2. Qed.

(** Before the call has sent its establish message, the queue waits. *)
Lemma early_waits h (he : Prop) sends w log aq apc inp :
  ~ he -> stands_back h he sends w log aq apc inp ->
  quiet ids hub_of w /\ aq = waiting_queue ids m makeBuffer /\ apc = Queue.PEnter /\ inp = [].
Proof using Type. intros Hno [_ []]; done. Qed.

Lemma aw_start_inv A : aw_start A -> aw_inv A.
Proof using Hnd Hhead Hn.
  intros [Htk Hlog Ho Hno Hst Hw]. pose proof (ts_sys _ _ _ _ _ Htk) as [Hc _ _ _ _ _ Hdown].
  assert (~ has_est m (aw_server A)) as Hne.
  { intros (p & e & He & E). apply (ts_ests _ _ _ _ _ Htk p e He). rewrite E. apply m_id. }
  split; [by apply tk_start_inv| |by intros|].
  - rewrite Hc. by split; intros t0 tr ca; intros; unfold calls_of in *.
  - exists (waiting_queue ids m makeBuffer), Queue.PEnter, []. split; [split|].
    + split; [done| |done|].
      * rewrite Hlog. intros p [x Hx]. by rewrite lookup_empty in Hx.
      * intros g p q w _ _ _ Hpc. unfold pc_at in Hpc. destruct (sy_sends (aw_sys A) !! g) as [pc|] eqn:E; [|done]. by eapply Hw.
    + apply an_wait; [by intros p q Hq Hm; destruct (Hno p q Hq)|]. intros id Hid. simpl. unfold w_pending, hub_index.
      apply list_elem_of_lookup in Hid as [k Hk]. by rewrite (ws_index_lookup ids k id Hnd Hk), Hdown.
    + rewrite Hc. split; try done.
      * by split; intros g *; simpl; intros; [..|match goal with H : is_Some _ |- _ => by destruct H end].
      * apply co_gather. split; simpl; [lia|by intros; lia|]. by intros p l [Hl _].
Qed.

(** ** Steps of the server *)

(** The server's side goes on, and the client is the same. *)
Lemma ends_goes c st st' sends sends' w w' log log' (he he' : Prop) :
  he = has_est m st -> he' = has_est m st' ->
  (forall aq apc inp, stands_back (serverQueueHub st) he sends w log aq apc inp ->
     goes ids m hub_of g0 (serverQueueHub st') he' sends' w' log' aq apc w inp) ->
  back_ends c st sends w log -> back_ends c st' sends' w' log'.
Proof using Type.
  intros -> -> Hg (aq & apc & inp & Hs & Hc). destruct (Hg _ _ _ Hs) as (aq' & apc' & inp' & Hs' & Ha).
  exists aq', apc', inp'. split; [done|]. by eapply collector_advance.
Qed.

(** The server does something for others, or removes the connection. *)
Lemma ends_moved c st st' sends w log :
  q_moves ids m (has_est m st) (serverQueueHub st) (serverQueueHub st') -> (has_est m st -> has_est m st') ->
  back_ends c st sends w log -> back_ends c st' sends w log.
Proof using Hnd Hhead.
  intros Hmv Hhe. eapply ends_goes; [done|done|]. intros aq apc inp. by apply (goes_move ids m hub_of g0 Hnd m_id).
Qed.

Lemma ends_foreigns c st st' sends w log :
  foreigns ids m (past m st) st st' -> back_ends c st sends w log -> back_ends c st' sends w log.
Proof using Hnd Hhead.
  intros Hf. apply ends_moved; [|by eapply has_est_kept, foreigns_kept].
  eapply q_moves_impl; [apply has_est_past|]. by apply (foreigns_queues ids m m_id).
Qed.

(** Messages of others leave the websockets. *)
Lemma ends_wires c st sends w w' log :
  (forall id, id ∈ ids -> w_pending (hub_index ids hub_of) id w' = w_pending (hub_index ids hub_of) id w) ->
  back_ends c st sends w log -> back_ends c st sends w' log.
Proof using Hnd Hhead.
  intros Hw. eapply ends_goes; [done|done|]. intros aq apc inp. by apply (goes_wires ids m hub_of g0 Hnd m_id).
Qed.

(** A step that leaves the client as it is. *)
Lemma aw_inv_server A T' log' :
  aw_inv A -> tk_inv n hub_of ids m addr t T' -> sy_client (tk_sys T') = aw_client A ->
  (has_est m (sy_server (tk_sys T')) -> has_est m (aw_server A) \/ 2 <= asked (aw_client A)) ->
  (back_ends (aw_client A) (aw_server A) (sy_sends (aw_sys A)) (sy_down (aw_sys A)) (aw_log A) ->
   back_ends (aw_client A) (sy_server (tk_sys T')) (sy_sends (tk_sys T')) (sy_down (tk_sys T')) log') ->
  aw_inv (mkAnswered T' log').
Proof using Type.
  intros [_ H2 H3 H4] HT Ec He Hb. split; simpl; rewrite ?Ec; auto. intros [?|?]%He; auto.
Qed.

Lemma has_est_same st st' : ests_same ids st st' -> has_est m st' -> has_est m st.
Proof using Hhead.
  intros Hs (p & e & [(e0 & He0 & E & _)|Hno]%Hs & Em); [exists p, e0; split; [done|congruence]|]. destruct Hno. rewrite Em. apply m_id.
Qed.

(** The server does something that is not for the connection. *)
Lemma aw_foreigns A st up :
  aw_inv A -> foreigns ids m (past m (aw_server A)) (aw_server A) st ->
  let T' := mkTracked (mkSystem (aw_client A) st (sy_sends (aw_sys A)) up (sy_down (aw_sys A))) (tk_lsends (aw_tk A)) (tk_in (aw_tk A)) in
  tk_inv n hub_of ids m addr t T' -> aw_inv (mkAnswered T' (aw_log A)).
Proof using Hnd Hhead.
  intros HA Hf T' HT. apply (aw_inv_server A); [done|done|done| |].
  - destruct (ai_tk _ HA) as [_ (unsaid & lpc & sd & dl & Hst & _)]. simpl.
    destruct (foreigns_moves ids m m_id _ _ _ (stands_owned ids m addr t _ _ _ _ _ _ _ _ _ Hst) Hf) as [_ Hs].
    intros He. left. by eapply has_est_same.
  - by apply ends_foreigns.
Qed.

Lemma aw_server_step A ev S :
  aw_inv A -> aw_fair (TSys (SServer ev)) A -> sy_exec n hub_of (SServer ev) (aw_sys A) = Some S ->
  tk_inv n hub_of ids m addr t (mkTracked S (tk_lsends (aw_tk A)) (tk_in (aw_tk A))) ->
  aw_inv (mkAnswered (mkTracked S (tk_lsends (aw_tk A)) (tk_in (aw_tk A))) (logging (TSys (SServer ev)) (aw_log A))).
Proof using Hnd Hhead.
  intros HA [Hf Hfair] E HT. simpl in E. destruct (elsewhere n hub_of ev) eqn:Hel; [|done].
  destruct (sv_exec ev _) as [st|] eqn:Ex; [|done]. cbn [mbind option_bind] in E. injection E as <-.
  destruct (ai_tk _ HA) as [HS (unsaid & lpc & sd & dl & _ & He)].
  assert (match ev with XQueueWrite _ _ => False | _ => True end -> aw_inv (mkAnswered
    (mkTracked (set_sy_server st (aw_sys A)) (tk_lsends (aw_tk A)) (tk_in (aw_tk A))) (aw_log A))) as Hforeign.
  { intros Hno. apply aw_foreigns; [done| |done].
    apply (sv_exec_foreign ids m m_id _ ev); [by eapply pools_good_inv; [apply (st_server _ _ _ HS)|]|done|by destruct ev|done]. }
  destruct ev as [| | |p b| | |]; try (by apply Hforeign). simpl in Ex, Hfair.
  destruct (pm_heap _ !! p) as [q|] eqn:Hq; [|done]. simpl in Ex. destruct (chan_send (q_buffer q) b) as [c| |] eqn:Hc; simplify_eq.
  apply (aw_inv_server A); [done|done|done|by left|]. simpl. eapply ends_goes; [done|done|]. intros aq apc inp.
  apply (goes_put ids m hub_of g0 Hnd m_id _ _ _ _ _ _ _ _ p q b c Hq Hc). by apply Hfair.
Qed.

(** Removing or trying, and a message that is no chunk. *)
Lemma put_silent hp out w : (forall id v, id ∈ ids -> v ∈ out -> chunk_of id v = None) ->
  forall id, id ∈ ids -> w_pending (hub_index ids hub_of) id (put hp out w) = w_pending (hub_index ids hub_of) id w.
Proof using Type.
  intros Ho id Hid. unfold w_pending. rewrite wire_put. case_decide; [|done]. rewrite omap_app.
  assert (omap (chunk_of id) out = []) as ->; [|by rewrite app_nil_r].
  induction out as [|v out IH]; [done|]. rewrite omap_cons, (Ho id v Hid) by apply list_elem_of_here. apply IH.
  intros id' v' Hid' Hv'. apply (Ho id' v' Hid'). by apply list_elem_of_further.
Qed.

Lemma aw_est_step A p ev lost S :
  aw_inv A -> sy_exec n hub_of (SEst p ev lost) (aw_sys A) = Some S ->
  tk_inv n hub_of ids m addr t (mkTracked S (tk_lsends (aw_tk A)) (tk_in (aw_tk A))) ->
  aw_inv (mkAnswered (mkTracked S (tk_lsends (aw_tk A)) (tk_in (aw_tk A))) (aw_log A)).
Proof using Hnd Hhead.
  intros HA E HT. simpl in E. destruct (sv_ests _ !! p) as [e|] eqn:Hp; [|done]. simpl in E.
  destruct (establish_step p ev _) as [[st out]|] eqn:Ex; simplify_eq/=.
  destruct (ai_tk _ HA) as [HS (unsaid & lpc & sd & dl & _ & He)].
  apply (aw_inv_server A); [done|done|done| |]; simpl.
  - intros Hx. left. by eapply establish_has_est.
  - intros Hb. eapply ends_wires.
    + apply put_silent. intros id v Hid Hv. destruct lost; [by apply not_elem_of_nil in Hv|]. simpl in Hv.
      destruct (establish_out _ _ _ _ _ _ Hp Ex) as [->| ->]; [by apply not_elem_of_nil in Hv|].
      apply list_elem_of_singleton in Hv as ->. by apply (chunk_of_not_data id _ _ (unmarshal_finish_message (es_id e))).
    + destruct (establish_queues ids m m_id p ev (aw_server A) st out) as [Hm|[Hhe Hm]]; [by apply (eo_id _ _ _ _ _ He)|done|..].
      * eapply ends_moved; [exact Hm| |exact Hb]. by apply (establish_has_est m p ev (aw_server A) st out).
      * eapply ends_goes; [done|done| |exact Hb]. intros aq apc inp Hs. rewrite Hm.
        apply (goes_try ids m hub_of g0 Hnd m_id). eapply stands_back_he; [|exact Hs]. by apply (establish_has_est m p ev (aw_server A) st out).
Qed.

(** ** Steps of the client *)

Lemma tk_facts T : tk_inv n hub_of ids m addr t T ->
  cp_inv (sy_client (tk_sys T)) /\ call_ids ids addr t (calls_of (sy_client (tk_sys T))) /\
  length (cl_wsc (pr_client (sy_client (tk_sys T)))) = length ids.
Proof using Type.
  intros [HS (unsaid & lpc & sd & dl & Hst & _)]. destruct (stands_facts _ _ _ _ _ _ _ _ _ _ _ _ _ Hst) as (C1 & _ & C3).
  split_and!; [apply (st_client _ _ _ HS)|done|done].
Qed.

Lemma asked_on c c' : proc_on c c' -> asked c <= asked c'.
Proof using Type.
  intros Hon. destruct (calls_of c t) as [[tr ca]|] eqn:E; [|apply Nat.le_0_l].
  destruct (on_old _ _ Hon t tr ca E) as (tr' & ca' & -> & (Hle & _) & _). exact Hle.
Qed.

Lemma early_facts A aq apc inp :
  aw_inv A -> stands_back (aw_queues A) (has_est m (aw_server A)) (sy_sends (aw_sys A)) (sy_down (aw_sys A)) (aw_log A) aq apc inp ->
  asked (aw_client A) <= 1 ->
  quiet ids hub_of (sy_down (aw_sys A)) /\ aq = waiting_queue ids m makeBuffer /\ apc = Queue.PEnter /\ inp = [].
Proof using Type.
  intros HA Hs Hr. eapply early_waits; [|exact Hs]. intros He%(ai_asked _ HA). by destruct (Nat.nlt_ge 1 (asked (aw_client A))) as [_ []].
Qed.

Lemma aw_client_step A ev S :
  aw_inv A -> aw_fair (TSys (SClient ev)) A -> sy_exec n hub_of (SClient ev) (aw_sys A) = Some S ->
  tk_inv n hub_of ids m addr t (mkTracked S (tk_lsends (aw_tk A)) (tk_input t (SClient ev) (tk_in (aw_tk A)))) ->
  aw_inv (mkAnswered (mkTracked S (tk_lsends (aw_tk A)) (tk_input t (SClient ev) (tk_in (aw_tk A)))) (aw_log A)).
Proof using Hnd Hhead.
  intros HA [Hf Hfair] E HT. pose proof HA as [Htk Hpx Has (aq & apc & inp & Hs & Hc)].
  destruct (tk_facts _ Htk) as (Hinv & _ & Hlen). destruct (tk_facts _ HT) as (_ & Hids & _). simpl in E, Hids.
  destruct (reads_message ev) eqn:Hr; [done|]. destruct (cp_exec ev _) as [[c out]| |] eqn:Ec; simplify_eq/=.
  pose proof (reads_message_false _ Hr) as Hno. split; simpl; [done|by eapply exec_proxies| |].
  - intros He. etrans; [by apply Has|]. eapply asked_on, exec_on; eauto.
  - exists aq, apc, inp. split; [done|].
    eapply (exec_collects ids m addr t Hnd Hhead); try done. by apply early_facts.
Qed.

Lemma quiet_read k v (rest : list json) w : wire w (hub_of k) = v :: rest -> quiet ids hub_of w -> quiet ids hub_of (<[hub_of k := rest]> w).
Proof using Type.
  intros Hw Hq id Hid. pose proof (Hq id Hid) as H. simpl in *. unfold w_pending in *. rewrite wire_insert. case_decide as E; [|done].
  rewrite E, Hw, omap_cons in H. by destruct (chunk_of id v).
Qed.

Lemma aw_read_step A k we S :
  aw_inv A -> aw_fair (TSys (SClientRead k we)) A -> sy_exec n hub_of (SClientRead k we) (aw_sys A) = Some S ->
  tk_inv n hub_of ids m addr t (mkTracked S (tk_lsends (aw_tk A)) (tk_in (aw_tk A))) ->
  aw_inv (mkAnswered (mkTracked S (tk_lsends (aw_tk A)) (tk_in (aw_tk A))) (aw_log A)).
Proof using Hnd Hhead Hinj.
  intros HA [_ [Hcan Htm]] E HT. pose proof HA as [Htk Hpx Has (aq & apc & inp & Hs & Hc)].
  destruct (tk_facts _ Htk) as (Hinv & _ & Hlen). destruct (tk_facts _ HT) as (_ & Hids & _).
  cbn [sy_exec] in E. destruct (wire _ (hub_of k)) as [|v rest] eqn:Hw; [done|].
  destruct (Nat.ltb_spec k n) as [Hk|]; [|done]. pose proof (st_down _ _ _ (proj1 Htk) k Hk) as Hd. rewrite Hw in Hd.
  apply Forall_cons in Hd as [Hv _]. destruct (cp_exec (PRead k we (inr (Some v))) _) as [[c out]| |] eqn:Ec; [|done..].
  injection E as <-. simpl in Hids. split; simpl; [done|by eapply read_proxies| |].
  - intros He. etrans; [by apply Has|]. eapply asked_on, read_on; eauto.
  - exists aq, apc, inp. split.
    + destruct Hs as [H1 H2]. split; [done|]. eapply answers_quiet; [|exact H2]. by eapply quiet_read.
    + eapply (read_collects ids m addr t Hnd Hhead); try done; [|by apply early_facts].
      intros id b Hid Hb. by eapply Htm.
Qed.
(** The [Send]s of the server's queues. *)
Lemma back_send A g ev S o down :
  aw_inv A -> sy_queue_send g ev (aw_sys A) = Some (S, o) -> handed o ev (sy_down (aw_sys A)) down ->
  (forall p q, pm_go (aw_queues A) !! g = Some p -> pm_heap (aw_queues A) !! p = Some q -> q_masterID q = m -> g <> g0 ->
     pc_at (sy_sends (aw_sys A)) g = Queue.PEnter -> q_status q = StaSend \/ q_status q = StaDone) ->
  sy_client S = aw_client A /\ has_est m (sy_server S) = has_est m (aw_server A) /\
  back_ends (aw_client A) (sy_server S) (sy_sends S) down (aw_log A).
Proof using Hnd Hhead.
  intros HA (p & q & q' & pc' & Hg & Hq & Es & ->)%sy_queue_send_some Hh Hfair. split; [done|]. split; [done|].
  destruct HA as [_ _ _ Hb]. revert Hb. eapply ends_goes; [done|done|]. intros aq apc inp.
  apply (goes_send ids m hub_of g0 Hnd m_id _ _ _ _ _ _ _ _ _ g p q ev q' pc' o); try done. by apply (Hfair p q).
Qed.

(** A message that is lost. *)
Lemma ends_lost c st sends hp out (lost : bool) w log :
  back_ends c st sends (if lost then w else put hp out w) log -> back_ends c st sends (put hp (unless lost out) w) log.
Proof using Hnd Hhead.
  destruct lost; [|done]. apply ends_wires. apply put_silent. by intros id v _ ?%not_elem_of_nil.
Qed.

Lemma aw_wrote_step A g ws_err lost S :
  aw_inv A -> aw_fair (TSys (SQueueWrote g ws_err lost)) A -> sy_exec n hub_of (SQueueWrote g ws_err lost) (aw_sys A) = Some S ->
  tk_inv n hub_of ids m addr t (mkTracked S (tk_lsends (aw_tk A)) (tk_in (aw_tk A))) ->
  aw_inv (mkAnswered (mkTracked S (tk_lsends (aw_tk A)) (tk_in (aw_tk A))) (aw_log A)).
Proof using Hnd Hhead.
  intros HA [_ Hl] E HT. simpl in E, Hl.
  destruct (pc_at (sy_sends (aw_sys A)) g) as [| | | | |[x|] rest b| | | |] eqn:Hpc; try done.
  destruct (hand x ws_err b) as [out e] eqn:Eh. destruct (sy_queue_send g _ (aw_sys A)) as [[S1 [o|]]|] eqn:Eq; [|done..].
  injection E as <-. destruct (sy_queue_send_some _ _ _ _ _ Eq) as (p & q & q' & pc' & _ & _ & Es & E1).
  assert (o = (x, b)) as -> by (rewrite Hpc in Es; simpl in Es; by repeat case_match; simplify_eq).
  assert (sy_down S1 = sy_down (aw_sys A)) as Ed by (by rewrite E1). clear E1.
  destruct (back_send A g _ S1 _ (if lost then sy_down (aw_sys A) else put (w_WSC x) out (sy_down (aw_sys A))) HA Eq)
    as (Ec & Eh' & Hb); [by exists e, ws_err, out, lost|by intros p0 q0 _ _ _ _; rewrite Hpc|].
  rewrite Ed in *. apply (aw_inv_server A); [done|done|done|left; by rewrite <- Eh'|]. intros _. by apply ends_lost.
Qed.

(** ** Reading a message *)

Lemma est_unread T rest :
  tk_inv n hub_of ids m addr t T -> wire (sy_up (tk_sys T)) 0 = encode (MEst ids m addr) :: rest -> ~ has_est m (sy_server (tk_sys T)).
Proof using Hnd Hhead.
  intros [_ (unsaid & lpc & sd & dl & (ph & name & _ & _ & Hf) & He)] Hw (p & e & Hp & Em).
  destruct (read_given ids 0 _ rest unsaid _ Hw) as [Hg _]. assert (sd = false) as ->.
  { destruct ph as [[qq gq]|]; by destruct (follows_est ids m addr Hnd Hhead _ _ 0%Z _ _ _ _ _ _ _ _ _ _ _ Hg Hf) as (-> & _). }
  destruct (eo_id _ _ _ _ _ He p e Hp) as [_ [=]]. rewrite Em. apply m_id.
Qed.

(** The establish message comes from the call. *)
Lemma est_asked c k x l :
  cp_inv c -> call_ids ids addr t (calls_of c) -> up_type c k x -> x = MEst l m addr -> 2 <= asked c.
Proof using Hnd Hhead.
  intros Hinv Hids [|mm id H|t' tr ca mm -> Ht Hmm Hr Hl|mm id b H Hb|id -> _] E; try done. injection E as _ -> _.
  destruct (master_of ids m addr t Hnd Hhead c t' tr ca m Hinv Hids Ht Hmm) as [_ M2].
  destruct (decide (t' = t)) as [->|Hne]; [by rewrite Ht|]. by destruct (M2 Hne m_id).
Qed.

Lemma serve_own A now we k x rest st :
  aw_inv A -> own ids m addr k x -> up_type (aw_client A) k x -> wire (sy_up (aw_sys A)) k = encode x :: rest ->
  serve now we (hub_of k) x (aw_server A) = Finished st ->
  (has_est m st -> has_est m (aw_server A) \/ 2 <= asked (aw_client A)) /\
  back_ends (aw_client A) st (sy_sends (aw_sys A)) (sy_down (aw_sys A)) (aw_log A).
Proof using Hnd Hhead Hn.
  intros HA Hx Hty Hw H. destruct (tk_facts _ (ai_tk _ HA)) as (Hinv & Hids & _). destruct HA as [Htk _ _ Hb].
  destruct Hx as [(id & -> & Hk)|[[-> ->]|(id & b & -> & Hk & Hbw)]]; simpl in H.
  - injection H as <-. split; [by left|]. revert Hb. eapply ends_goes; [done|done|]. intros aq apc inp.
    apply (goes_hello ids m hub_of g0 Hnd m_id). by exists k.
  - injection H as <-. split; [right; by eapply est_asked|]. revert Hb. eapply ends_goes; [done|done|]. intros aq apc inp.
    apply (goes_est ids m hub_of g0 Hnd m_id); [by eapply est_unread|]. exists (length (sv_ests (aw_server A))). eexists.
    simpl. by rewrite list_lookup_middle.
  - destruct (to_link we id b _) as [h'| |]; simplify_eq/=. split; [by left|done].
Qed.

Lemma aw_serve_step A config now k we S :
  aw_inv A -> sy_exec n hub_of (SServerRead config now k we) (aw_sys A) = Some S ->
  tk_inv n hub_of ids m addr t (mkTracked S (tk_lsends (aw_tk A)) (tk_in (aw_tk A))) ->
  aw_inv (mkAnswered (mkTracked S (tk_lsends (aw_tk A)) (tk_in (aw_tk A))) (aw_log A)).
Proof using Hnd Hhead Hn.
  intros HA E HT. cbn [sy_exec] in E. destruct (wire _ k) as [|v rest] eqn:Hw; [done|].
  destruct (Nat.ltb k n); [|done]. destruct (sv_exec _ _) as [st|] eqn:Ex; [|done]. cbn [mbind option_bind] in E. injection E as <-.
  pose proof (ai_tk _ HA) as [HS (unsaid & lpc & sd & dl & _ & He)].
  pose proof (st_up _ _ _ HS k) as Hu. rewrite Hw in Hu. apply Forall_cons in Hu as [(x & -> & Hx) _].
  destruct (sv_read _ _ _ _ _ _ _ Ex) as [Hops Hs]. destruct (tk_facts _ (ai_tk _ HA)) as (Hinv & Hids & Hlen).
  destruct (up_type_own ids m addr t Hnd Hhead _ _ _ Hinv Hids Hlen Hx) as [Hstr|Hown].
  - apply aw_foreigns; [done| |done]. eapply (serve_foreign ids m Hhead); [|exact Hops|exact Hstr|exact Hs].
    by eapply pools_good_inv; [apply (st_server _ _ _ HS)|].
  - destruct (serve_own A now we k x rest st) as [H1 H2]; try done. by apply (aw_inv_server A).
Qed.

(** ** All steps *)

Lemma aw_step_inv A A' : aw_inv A -> aw_step A A' -> aw_inv A'.
Proof using Hnd Hhead Hn Hinj.
  intros HA (ev & Hf & H). unfold aw_exec in H. destruct (tk_exec n hub_of t ev (aw_tk A)) as [T|] eqn:E; [|done].
  injection H as <-. assert (tk_inv n hub_of ids m addr t T) as HT.
  { eapply tk_step_inv; [done..|apply (ai_tk _ HA)|]. exists ev. split; [apply Hf|done]. }
  destruct ev as [ev|g ev]; cbn [tk_exec] in E.
  - destruct (sy_exec n hub_of ev _) as [S|] eqn:Es; [|done]. cbn [mbind option_bind] in E. injection E as <-.
    destruct ev as [ev|k we|ev|config now k we|p ev lost|g ev|g we lost].
    + by apply aw_client_step.
    + by eapply aw_read_step.
    + by apply aw_server_step.
    + by eapply aw_serve_step.
    + by eapply aw_est_step.
    + simpl in Es. destruct (sy_queue_send g ev _) as [[S1 [o|]]|] eqn:Eq; simplify_eq.
      destruct (back_send A g ev S None (sy_down S) HA Eq) as (Ec & Eh & Hb); [|by apply Hf|].
      { by apply sy_queue_send_some in Eq as (p & q & q' & pc' & _ & _ & _ & ->). }
      apply (aw_inv_server A); [done|done|done|left; by rewrite <- Eh|done].
    + by eapply aw_wrote_step.
  - destruct (pm_go _ !! g) as [p|]; [|done]. simpl in E. destruct (Link.Send_step _ _ _ _) as [[h pc]|]; [|done]. simpl in E. injection E as <-.
    apply (aw_inv_server A); [done|done|done|by left|done].
Qed.

Lemma aw_reachable_inv A0 A : aw_start A0 -> rtc aw_step A0 A -> aw_inv A.
Proof using Hnd Hhead Hn Hinj.
  intros H0%aw_start_inv Hr. induction Hr; [done|]. by eauto using aw_step_inv.
Qed.
(** ** What comes out *)

(** What the connection's one started queue at the server has accepted, if there is
    one. *)
Definition answered_with A (inp : list buffer) : Prop :=
  inp = [] \/ exists sq q, sq ∈ pm_go (aw_queues A) /\ pm_heap (aw_queues A) !! sq = Some q /\ q_masterID q = m /\
    inp = accepted (aw_log A) sq /\
    forall p q', p ∈ pm_go (aw_queues A) -> pm_heap (aw_queues A) !! p = Some q' -> q_masterID q' = m -> p = sq.

Lemma stands_answered A aq apc inp :
  stands_back (aw_queues A) (has_est m (aw_server A)) (sy_sends (aw_sys A)) (sy_down (aw_sys A)) (aw_log A) aq apc inp ->
  answered_with A inp.
Proof using Type.
  intros [_ Ha]. destruct Ha as [Hw Hq|sq q Hr He|Hi He Hq]; [by left| |by left]. right.
  destruct Hr as [H1 [H2 H2m] _ _ H5 _ _ _]. exists sq, q. split_and!; [done..|]. intros p q' Hp Hq' Hm.
  destruct (decide (p = sq)) as [|Hne]; [done|]. by destruct (H5 p q' Hq' Hm Hne).
Qed.

(** What has been written to the connection of a started link of the call. *)
Lemma collected c aq apc w inp p l :
  cp_inv c -> collector c aq apc w inp ->
  p ∈ pm_go (clientLinkHub (pr_client c)) -> pm_heap (clientLinkHub (pr_client c)) !! p = Some l -> l_master l = m ->
  (forall p' l', p' ∈ pm_go (clientLinkHub (pr_client c)) -> pm_heap (clientLinkHub (pr_client c)) !! p' = Some l' -> l_master l' = m -> p' = p) /\
  exists inp', (inp' = [] \/ inp' = inp) /\ written_out inp' l.
Proof using Hnd Hhead.
  intros Hinv [Hids _ _ Hc] Hp Hl Hm. apply list_elem_of_lookup in Hp as [gp Hp].
  destruct Hc as [[Hr _ _]|oo conn [_ _ Hu] _|oo g Hr [cn Hs]|[_ _ Hun Hst _ Hone]].
  - destruct (early_unstarted ids m addr t Hnd Hhead c Hinv Hids) with (p := p) (l := l) as [[] _];
      [eapply Nat.le_lt_trans; [exact Hr|by repeat constructor]|done|by eapply list_elem_of_lookup_2].
  - destruct (Hu p l (conj Hl Hm)) as [[] _]. by eapply list_elem_of_lookup_2.
  - assert (forall p' l', p' ∈ pm_go (clientLinkHub (pr_client c)) -> pm_heap (clientLinkHub (pr_client c)) !! p' = Some l' -> l_master l' = m -> p' = oo) as Honly.
    { intros p' l' [g' Hg']%list_elem_of_lookup Hl' Hm'. assert (g' = g) as -> by (by eapply (rn_only _ _ _ _ _ _ Hr)).
      pose proof (rn_go _ _ _ _ _ _ Hr). congruence. }
    assert (p = oo) as -> by (eapply Honly; [by eapply list_elem_of_lookup_2|done|done]). split; [done|]. exists inp. split; [by right|].
    pose proof (sys_inv_streamed ids m oo (mkConn [] false) _ cn Hs) as (cn' & out & Hc & Ho & Hpre & Heof). simpl in *.
    unfold conn_at in Hc. rewrite Hl in Hc. injection Hc as Hc. exists cn'. by rewrite Ho.
  - split.
    + intros p' l' [g' Hg']%list_elem_of_lookup Hl' Hm'. assert (g' = gp) as -> by (by eapply Hone). congruence.
    + exists []. split; [by left|]. destruct (Hst p l (conj Hl Hm)) as [[cn Hcn] _]; [by eapply list_elem_of_lookup_2|].
      destruct (Hun p l cn (conj Hl Hm) Hcn) as [E1 E2]. exists cn. rewrite E1, E2. split_and!; [done|apply prefix_nil|done].
Qed.
(** C2: end to end, the way back. In every state that the two processes reach in
    the environment of [aw_fair], with any number of other calls and whatever other clients do, the client has started
    at most one [Send] for the call, and it has written to the SOCKS connection a
    prefix of what the connection's one started queue at the server has accepted
    from the target, in that order; it has closed the connection for writing only
    if that is all of it and the target's output has ended. *)
Theorem downstream_end_to_end A0 A p l :
  aw_start A0 -> rtc aw_step A0 A ->
  let h := clientLinkHub (pr_client (aw_client A)) in
  p ∈ pm_go h -> pm_heap h !! p = Some l -> l_master l = m ->
  (forall p' l', p' ∈ pm_go h -> pm_heap h !! p' = Some l' -> l_master l' = m -> p' = p) /\
  exists cn inp, l_conn l = Some cn /\ answered_with A inp /\ tc_sent cn `prefix_of` data_of inp /\
    (tc_eof cn = true -> tc_sent cn = data_of inp /\ ~ no_eof inp).
Proof using Hnd Hhead Hn Hinj.
  intros H0 Hr h Hp Hl Hm. destruct (aw_reachable_inv _ _ H0 Hr) as [Htk _ _ (aq & apc & inp & Hs & Hc)].
  destruct (tk_facts _ Htk) as (Hinv & _). destruct (collected _ _ _ _ _ p l Hinv Hc Hp Hl Hm) as [Hone (inp' & Hinp & cn & Hcn & Hout)].
  split; [done|]. exists cn, inp'. split_and!; [done| |apply Hout..].
  destruct Hinp as [->| ->]; [by left|by eapply stands_answered].
Qed.

(** A run, for examples. *)
Fixpoint aw_run (evs : list tk_ev) A : option answered :=
  match evs with
  | [] => Some A
  | ev :: evs' => A1 ← aw_exec ev A; aw_run evs' A1
  end.

Fixpoint aw_run_fair (evs : list tk_ev) A : Prop :=
  match evs with
  | [] => True
  | ev :: evs' => aw_fair ev A /\ match aw_exec ev A with Some A1 => aw_run_fair evs' A1 | None => False end
  end.

Lemma aw_run_reachable evs A A' : aw_run evs A = Some A' -> aw_run_fair evs A -> rtc aw_step A A'.
Proof using Type.
  revert A. induction evs as [|ev evs IH]; intros A H Hf; simpl in H, Hf; [by simplify_eq|].
  destruct Hf as [Hev Hf]. destruct (aw_exec ev A) as [A1|] eqn:E; [|done]. eapply rtc_l; [by exists ev|]. by apply IH.
Qed.
End end_to_end_back.
