(* ===== verification/Opening.v ===== *)
(** A proxied connection from its first message: it opens, and everything arrives.

    Upstream.v and Downstream.v have the invariants of its opening.  Here nothing
    fails: the server, reading its websockets, comes to the point where the
    [Send]s are started, whatever else is on the websockets; and once they are,
    everything that CopyBuffer has given to the queue arrives (Arrival.v), also
    what it gave before. *)
From S2P Require Import Prelude GoChan Pipe RoundRobin PtrMap Queue QueueHub Link Starts Striping StripingRun Delivery.
From S2P Require Import Base64 Json Messages Hub Server Handshake Client Wire Direction DirectionRun Session.
From S2P Require Import Upstream Downstream Arrival.

(** * From the client to the server *)

Section up.
Context {K : Ksuid} `{!KsuidText K}.
Context (ids : list KSUID) (m : KSUID) (addr : string) (hub_of : nat -> nat) (dial : option TCPConn).
Context (qq : nat) (name : nat -> KSUID).

#[local] Hint Extern 0 (Transport wires) => exact (wire_transport (ws_index ids)) : typeclass_instances.

(** ** The server opens the connection *)

(** The server handles the oldest message of a websocket, which is none of this
    connection's. *)
Inductive up_skip : dir (W := nat) * list Link.handshake -> dir (W := nat) * list Link.handshake -> Prop :=
  | us_skip hq ws qpc t hl lpc inp ops id v rest hq' ws' hl' :
      id ∈ ids -> wire t (ws_index ids id) = v :: rest -> item_of id v = None ->
      queues_kept m qq hq ws hq' ws' -> links_kept ids hl hl' ->
      up_skip (mkDir hq ws qpc t hl lpc inp, ops)
              (mkDir hq' ws' qpc (<[ws_index ids id := rest]> t) hl' lpc inp, ops).

Definition up_move x x' : Prop := up_server ids m addr hub_of dial x x' \/ up_skip x x'.

Definition untried (ops : list Link.handshake) : nat := match tried ops with None => 1 | Some _ => 0 end.

Context (Hnd : NoDup ids) (Hhead : ids !! 0 = Some m).

Lemma ws_index_ids : ws_index ids <$> ids = seq 0 (length ids).
Proof using Hnd.
  apply list_eq. intros i. rewrite list_lookup_fmap. destruct (ids !! i) as [id|] eqn:E; simpl.
  - rewrite (ws_index_lookup ids i id Hnd E). symmetry. apply lookup_seq. split; [done|].
    by apply lookup_lt_Some in E.
  - symmetry. apply lookup_seq_ge. by apply lookup_ge_None.
Qed.

Lemma ws_index_nodup : NoDup (ws_index ids <$> ids).
Proof using Hnd. rewrite ws_index_ids. apply NoDup_seq. Qed.

Lemma up_move_load x x' :
  up_move x x' ->
  load (ws_index ids) ids (d_wires (fst x')) + untried (snd x') <
  load (ws_index ids) ids (d_wires (fst x)) + untried (snd x).
Proof using Hnd Hhead.
  assert (m ∈ ids) as Hm by by eapply list_elem_of_lookup_2.
  intros [[now hq ws qpc t sv lpc inp ops k id rest Hk Hw|now hq ws qpc t sv lpc inp ops rest Hw
      |hq ws qpc t hl lpc inp ops target _ Hs Ht|hq ws qpc t hl lpc inp ops id v rest b hl' Hid Hw _ _]
    |[hq ws qpc t hl lpc inp ops id v rest hq' ws' hl' Hid Hw _ _ _]]; simpl.
  - apply elem_of_numbered in Hk. pose proof (ws_index_lookup ids k id Hnd Hk) as <-.
    unfold untried. rewrite tried_snoc. apply Nat.add_lt_mono_r. eapply load_read; [|done].
    by eapply list_elem_of_lookup_2.
  - pose proof (ws_index_lookup ids 0 m Hnd Hhead) as E. rewrite <- E in *.
    unfold untried. rewrite tried_snoc. apply Nat.add_lt_mono_r. by eapply load_read.
  - unfold untried. rewrite tried_snoc, Ht. lia.
  - apply Nat.add_lt_mono_r. by eapply load_read.
  - apply Nat.add_lt_mono_r. by eapply load_read.
Qed.

Lemma up_moves_bound k x x' :
  nsteps up_move k x x' -> k <= load (ws_index ids) ids (d_wires (fst x)) + untried (snd x).
Proof using Hnd Hhead.
  induction 1 as [x|k x x1 x' Hs _ IH]; [lia|]. apply up_move_load in Hs. lia.
Qed.

Lemma item_of_kind id v i :
  item_of id v = Some i -> match i with Hello w | Est w => w = v | Chunk _ => True end.
Proof. unfold item_of. repeat case_match; intros; by simplify_eq. Qed.

(** What is due on a websocket is its oldest message, once the others are skipped. *)
Lemma due_head (Q : inv_on) d ops id i l :
  up_inv ids m addr qq name Q d ops -> (forall x', ~ up_move (d, ops) x') -> id ∈ ids ->
  due ids m addr ops id = i :: l ->
  exists v rest, wire (d_wires d) (ws_index ids id) = v :: rest /\ item_of id v = Some i.
Proof using Type.
  intros Hinv Hrest Hid Hdue. destruct (ui_items _ _ _ _ _ _ _ _ Hinv id Hid) as [k Hk].
  destruct d as [hq ws qpc t hl lpc inp]. simpl in *.
  destruct (wire t (ws_index ids id)) as [|v rest] eqn:Hw; [by rewrite Hdue in Hk|].
  exists v, rest. split; [done|]. rewrite omap_cons, Hdue in Hk.
  destruct (item_of id v) as [j|] eqn:Hv; [by simplify_eq/=|].
  exfalso. eapply Hrest. right. apply (us_skip hq ws qpc t hl lpc inp ops id v rest hq ws hl); try done.
  - split_and!; eauto.
  - destruct (lr_wf _ _ _ _ (ui_links _ _ _ _ _ _ _ _ Hinv)) as [Hwf Hok]. by split_and!.
Qed.

Lemma up_rest_opens (Q : inv_on) d ops :
  up_inv ids m addr qq name Q d ops -> (forall c, tried ops = Some c -> dial = Some c) ->
  (forall x', ~ up_move (d, ops) x') ->
  (forall id, id ∈ ids -> id ∈ hs_adds ops) /\ Link.HSort ∈ ops /\
  exists me, pm_map (d_links d) !! m = Some me /\ (me ∈ pm_go (d_links d) <-> is_Some dial).
Proof using Hnd Hhead.
  intros Hinv Hdial Hrest. assert (m ∈ ids) as Hm by by eapply list_elem_of_lookup_2.
  pose proof (fun id i l => due_head Q d ops id i l Hinv Hrest) as Hdue.
  destruct d as [hq ws qpc t hl lpc inp]. simpl in *.
  assert (forall id, id ∈ ids -> id ∈ hs_adds ops) as Hadds.
  { intros id Hid. destruct (decide (id ∈ hs_adds ops)) as [|Hno]; [done|]. exfalso.
    edestruct (Hdue id) as (v & rest & Hw & Hv); [done|unfold due; by rewrite decide_False|].
    apply item_of_kind in Hv as <-. apply list_elem_of_lookup in Hid as [k Hk].
    rewrite (ws_index_lookup ids k id Hnd Hk) in Hw. eapply Hrest. left.
    apply (us_hello ids m addr hub_of dial 0 hq ws qpc t (set_links hl server_init) lpc inp ops k id rest); [|done].
    by apply elem_of_numbered_iff. }
  assert (Link.HSort ∈ ops) as Hsort.
  { apply hs_sorted_in. destruct (hs_sorted ops) eqn:E; [done|]. exfalso.
    edestruct (Hdue m) as (v & rest & Hw & Hv); [done|unfold due; rewrite decide_True, decide_True, E by auto; done|].
    apply item_of_kind in Hv as <-. rewrite (ws_index_lookup ids 0 m Hnd Hhead) in Hw. eapply Hrest. left.
    apply (us_est ids m addr hub_of dial 0 hq ws qpc t (set_links hl server_init) lpc inp ops rest Hw). }
  assert (is_Some dial <-> is_Some (tried ops)) as Htried.
  { destruct (tried ops) as [c|] eqn:E; [rewrite (Hdial c eq_refl); done|].
    split; [|by intros []]. intros [c Hc]. exfalso. eapply Hrest. left. by apply (us_dialled _ _ _ _ _ _ _ _ _ _ _ _ _ c). }
  pose proof (ui_links _ _ _ _ _ _ _ _ Hinv) as [Hhs [Hnda Hsub] _ _ Hgo]. simpl in *.
  destruct (pm_map hl !! m) as [me|] eqn:Hme.
  2: { unfold Link.hs_inv in Hhs. rewrite Hme in Hhs. destruct Hhs as [-> _]. by apply not_elem_of_nil in Hsort. }
  split; [done|]. split; [done|]. exists me. split; [done|]. rewrite Htried, (Hgo me eq_refl). unfold links_complete.
  split; [by intros [_ ?]|]. intros Ht. split; [|done].
  apply NoDup_Permutation; [done..|]. intros id. split; [apply Hsub|apply Hadds].
Qed.

(** ** Everything arrives *)

(** The phase in which the connection is opened, when nothing fails. *)
Inductive up_ok : dir (W := nat) * list Link.handshake -> dir (W := nat) * list Link.handshake -> Prop :=
  | uo_client a d d' ops : act_fine a -> send_exec qq a d = Some d' -> up_ok (d, ops) (d', ops)
  | uo_server x x' : up_server ids m addr hub_of dial x x' -> up_ok x x'
  | uo_other hq ws qpc t hl lpc inp ops hq' ws' t' hl' :
      queues_kept m qq hq ws hq' ws' ->
      (forall w x x', ws w = Some x -> ws' w = Some x' -> w_CtxErr x = None -> w_CtxErr x' = None) ->
      items_kept ids t t' -> links_kept ids hl hl' ->
      up_ok (mkDir hq ws qpc t hl lpc inp, ops) (mkDir hq' ws' qpc t' hl' lpc inp, ops).

(** Nothing has failed so far. *)
Record up_good (d : dir (W := nat)) (ops : list Link.handshake) : Prop := {
  ug_inv : up_inv ids m addr qq name sends_on d ops;
  ug_live : exists q, pm_heap (d_queues d) !! qq = Some q /\ writers_live d q;
}.
(** The client takes a step: in the system of Striping.v it hands out [sent]. *)
Lemma fine_moves a (s s' : sys (T := wires)) P :
  act_fine a -> sys_exec ids m 0 (act_sys a) s = Some s' -> q_ready ids (s_q s) ->
  (exists b, a = AWrite b) \/ (exists ev, a = ASend ev) \/ a = AHand ->
  sender (s_q s) (s_qpc s) (s_in s) P (length P) -> sends_on (s_q s) (s_qpc s) P ->
  exists sent, sender_moves ids s s' sent /\ sends_on (s_q s') (s_qpc s') (P ++ sent).
Proof using Type*.
  destruct s as [q qpc t h lpc inp]. simpl. intros Ha E Hq Hkind Hsn Hon.
  assert (forall ev, q_ev_ok ev -> sys_exec ids m 0 (ActSend ev) (mkSys q qpc t h lpc inp) = Some s' ->
    exists sent, sender_moves ids (mkSys q qpc t h lpc inp) s' sent /\ sends_on (s_q s') (s_qpc s') (P ++ sent)) as Hsend.
  { clear E. intros ev Hev E. simpl in E.
    destruct (Queue.Send_step q qpc ev) as [[[q' qpc'] out]|] eqn:Hs; [|done].
    exists (map snd (option_list out)).
    assert (s' = mkSys q' qpc' (match out with Some (id, b) => t_send id b t | None => t end) h lpc inp) as ->.
    { destruct out as [[id b]|]; [|by simplify_eq]. destruct ev as [| | |[]|]; by simplify_eq. }
    split; [by apply (send_moves ids _ _ t h lpc inp _ _ _ _ Hq Hs)|]. simpl.
    eapply sends_on_step; [|done..]. destruct Hq as [-> _]. by destruct ids. }
  destruct Hkind as [[b ->]|[[ev ->]| ->]]; simpl in E.
  - case_decide as Hb; [|done]. destruct Hb as [Hno Hb].
    destruct (chan_send (q_buffer q) b) as [c| |] eqn:Hc; simplify_eq/=.
    exists []. split; [by apply write_moves|]. rewrite app_nil_r. destruct Hon as [[Hcl Hst] Hov].
    split; [|done]. apply chan_send_inv in Hc as (_ & E & _). by split.
  - unfold act_fine in Ha. rewrite orb_false_r in Ha. by apply (Hsend ev).
  - by apply (Hsend (Queue.EvWrote None)).
Qed.

Lemma send_exec_kind a (d d' : dir (W := nat)) :
  send_exec qq a d = Some d' -> (exists b, a = AWrite b) \/ (exists ev, a = ASend ev) \/ a = AHand.
Proof.
  unfold send_exec. destruct d as [hq ws qpc t hl lpc inp].
  destruct (pm_heap hq !! qq) as [q|]; [|done]. destruct a; simpl; eauto; done.
Qed.

Lemma up_good_client a d d' ops :
  act_fine a -> send_exec qq a d = Some d' -> up_good d ops -> up_good d' ops.
Proof using Hnd Hhead.
  intros Ha Hex [Hinv (q & Hq & Hlive)]. assert (m ∈ ids) as Hm by by eapply list_elem_of_lookup_2.
  pose proof (fun s q => send_exec_sys (ws_index ids) ids m qq 0 name a d d' s q) as Hsim.
  assert (exists q', pm_heap (d_queues d') !! qq = Some q' /\ writers_live d' q') as Hlive'.
  { destruct (ui_sender _ _ _ _ _ _ _ _ Hinv) as (s & q0 & P & Hd & _).
    pose proof (ds_queue _ _ _ _ _ _ _ Hd) as Hq0. rewrite Hq in Hq0. injection Hq0 as <-.
    destruct (Hsim s q Hd Hlive Hex) as (s' & q' & _ & Hd' & Hl'). exists q'. split; [|done].
    apply (ds_queue _ _ _ _ _ _ _ Hd'). }
  split; [|done].
  apply (up_sends ids m addr qq name Hnd Hm Hhead sends_on sends_on d d' ops); [by eapply send_exec_ok|done|].
  intros s q0 P Hd Hr Hsn Hon.
  pose proof (ds_queue _ _ _ _ _ _ _ Hd) as Hq0. rewrite Hq in Hq0. injection Hq0 as <-.
  destruct (Hsim s q Hd Hlive Hex) as (s' & q' & Hs & Hd' & _).
  pose proof (ds_sys _ _ _ _ _ _ _ Hd) as Es.
  assert (s_in s = d_in d) as Ei by (by subst s).
  rewrite <- Ei in Hsn.
  destruct (fine_moves a s s' P Ha Hs Hr (send_exec_kind _ _ _ Hex) Hsn Hon) as (sent & Hmv & Hon').
  by exists s', q', sent.
Qed.

Lemma up_ok_good x x' : up_ok x x' -> up_good (fst x) (snd x) -> up_good (fst x') (snd x').
Proof using Hnd Hhead.
  assert (m ∈ ids) as Hm by by eapply list_elem_of_lookup_2.
  intros [a d d' ops Ha Hex|y y' Hs|hq ws qpc t hl lpc inp ops hq' ws' t' hl' Hk Hctx Ht Hl]; simpl; [by eapply up_good_client| |].
  - intros [Hinv (q & Hq & Hlive)]. split; [by eapply up_server_inv|]. exists q.
    by destruct Hs.
  - intros [Hinv (q & Hq & [H1 H2])]. split; [by eapply up_other|]. destruct Hk as (Hh & Hmm & Hk). simpl in *.
    exists q. split; [congruence|].
    assert (forall w, live_writer (mkDir hq ws qpc t hl lpc inp) w -> live_writer (mkDir hq' ws' qpc t' hl' lpc inp) w) as H.
    { intros w (wr & Hx & Hc). destruct (Hk w wr Hx) as (wr' & Hx' & _). exists wr'. split; [done|]. by eapply Hctx. }
    split; intros; apply H; eauto.
Qed.

Lemma up_ok_step x x' : up_ok x x' -> up_step ids m addr hub_of dial qq x x'.
Proof.
  intros [a d d' ops Ha Hex|y y' Hs|hq ws qpc t hl lpc inp ops hq' ws' t' hl' Hk Hctx Ht Hl].
  - by eapply us_sender, send_exec_ok.
  - by apply us_server.
  - by apply us_other.
Qed.

Lemma up_oks_good x x' : rtc up_ok x x' -> up_good (fst x) (snd x) -> up_good (fst x') (snd x').
Proof using Hnd Hhead.
  intros Hr. induction Hr as [x|x x1 x' Hs _ IH]; [done|]. intros Hx. apply IH. by eapply up_ok_good.
Qed.

Lemma up_oks_steps x x' : rtc up_ok x x' -> rtc (up_step ids m addr hub_of dial qq) x x'.
Proof. apply rtc_subrel. intros; by apply up_ok_step. Qed.

(** When [Send] of the master link is started, the direction works. *)
Lemma up_good_works target d ops me :
  up_good d ops -> tc_eof target = false -> (forall c, tried ops = Some c -> c = target) ->
  pm_map (d_links d) !! m = Some me -> me ∈ pm_go (d_links d) ->
  exists n, dir_works (ws_index ids) ids m qq me name (tc_sent target) d n.
Proof using Hnd Hhead.
  intros [Hinv (q & Hq & Hlive)] Htc Hconn Hme Hgo.
  assert (m ∈ ids) as Hm by by eapply list_elem_of_lookup_2.
  pose proof (ui_wait _ _ _ _ _ _ _ _ Hinv) as Hwait. pose proof (ui_lpc _ _ _ _ _ _ _ _ Hinv) as Hlpc.
  destruct (up_started _ _ _ _ _ Hnd Hm Hhead _ target d ops me Hinv Htc Hconn Hme Hgo)
    as (s & q0 & P & Hd & Hsys & Hal & [Hqok Hover]).
  pose proof (ds_queue _ _ _ _ _ _ _ Hd) as Hq0. rewrite Hq in Hq0. injection Hq0 as <-.
  eexists. exists s, q. split_and!; [done| |apply Hlive].
  exists target. split; [done|]. eapply (good_healthy _ _ _ _ _ [] P 0).
  pose proof (ds_sys _ _ _ _ _ _ _ Hd) as Es. subst s. simpl in *. rewrite Hlpc in *. split; simpl; try done.
  - unfold l_ok, status_at. destruct (iv_me _ _ _ _ _ _ Hsys) as [Hsort _]. unfold sort_at in Hsort. simpl in Hsort.
    destruct (pm_heap (d_links d) !! me) as [l|] eqn:Hl; [|done]. simpl.
    by destruct (Hwait m Hm me l Hme Hl) as [-> _].
  - by constructor.
  - intros id p c Hid Hp Hb. unfold buf_at in Hb.
    destruct (pm_heap (d_links d) !! p) as [l|] eqn:Hl; [|done]. simplify_eq/=.
    by destruct (Hwait id Hid p l Hp Hl) as [_ ?].
Qed.
End up.

Section up_theorems.
Context {K : Ksuid} `{!KsuidText K}.

(** C8: the server handles the opening of every connection. Let [dial] be what
    [establish] makes of the address: a connection to the target, or none, when
    the address is refused as private or the dial fails. As long as the client
    does not give the connection up and no write of a dispatcher to a link times
    out, whatever the client has sent since [transData]'s messages, and whatever
    messages of other connections are on the same websockets: the server only
    takes a bounded number of steps for this connection; and where it has none
    left, all hello messages and the establish message are behind it, and the
    [Send] of the master link has been started if, and only if, the target was
    dialled. *)
Theorem upstream_opens now ids m conn addr c c' out qq oo hub_of dial t hl d ops :
  head ids = Some m -> NoDup ids -> length ids <= length (cl_wsc c) ->
  pm_map (clientQueueHub c) !! m = None -> pm_wf (clientLinkHub c) ->
  (forall id, id ∈ ids -> pm_map (clientLinkHub c) !! id = None) ->
  transData now ids conn None addr None c = (c', out, TWait qq oo) ->
  pm_wf hl -> pm_go_ok hl -> (forall id, id ∈ ids -> pm_map hl !! id = None) ->
  (forall id, id ∈ ids -> omap (item_of id) (wire t (ws_index ids id)) = []) ->
  rtc (up_step ids m addr hub_of dial qq) (up_start c' out t hl, []) (d, ops) ->
  (exists n, forall k x', nsteps (up_move ids m addr hub_of dial qq) k (d, ops) x' -> k <= n) /\
  ((forall x', ~ up_move ids m addr hub_of dial qq (d, ops) x') ->
     (forall id, id ∈ ids -> id ∈ hs_adds ops) /\ Link.HSort ∈ ops /\
     exists me, pm_map (d_links d) !! m = Some me /\ (me ∈ pm_go (d_links d) <-> is_Some dial)).
Proof.
  intros Hhead Hnd Hlen Hq Hwc Hl Htd Hwf Hok Hno Ht Hup.
  assert (ids !! 0 = Some m) as H0 by (by destruct ids).
  assert (m ∈ ids) as Hm by by eapply list_elem_of_lookup_2.
  destruct (transData_ready _ _ _ _ _ _ _ _ _ _ Hhead Hnd Hlen Hq Hwc Hl Htd) as [Hready ->].
  pose proof (up_start_inv (fun _ _ _ => True) ids m addr conn c' qq oo t hl Hnd Hhead Hready Hwf Hok Hno Ht ltac:(done)) as Hinv.
  pose proof (up_steps_inv _ _ _ _ _ _ _ Hnd Hm H0 _ _ Hup Hinv) as Hinv'.
  pose proof (up_steps_target _ _ _ _ _ _ _ _ Hup ltac:(done)) as Hdial. simpl in Hinv', Hdial. split.
  - eexists. intros k x'. by apply (up_moves_bound ids m addr hub_of dial qq Hnd H0 k (d, ops)).
  - intros Hrest. by eapply up_rest_opens.
Qed.

Lemma up_start_good ids m addr conn c qq oo t hl :
  NoDup ids -> head ids = Some m -> client_ready ids m conn c qq oo ->
  pm_wf hl -> pm_go_ok hl -> (forall id, id ∈ ids -> pm_map hl !! id = None) ->
  (forall id, id ∈ ids -> omap (item_of id) (wire t (ws_index ids id)) = []) ->
  up_good ids m addr qq (writer_name c m)
    (up_start c (hello_messages 0 m ids ++ [(0, marshal_message (est_message m None addr (Some ids)))]) t hl) [].
Proof.
  intros Hnd Hhead Hready Hwf Hok Hno Ht. pose proof Hready as [(q & Hqq & Hq & _ & [Hb Hst] & _ & Hw2) _]. split.
  - apply (up_start_inv _ ids m addr conn c qq oo); [done..|]. intros q' Hq'. rewrite Hq in Hq'. injection Hq' as <-.
    split; [split; simpl; by rewrite ?Hb|]. split; [done|]. intros H. apply H. by constructor.
  - exists q. split; [done|]. split; [|done]. intros id w Hw. destruct (Hw2 id w Hw) as (k & _ & Hx).
    by exists (NewWebSocketWriter k id).
Qed.

(** C6: from the client to the server, everything arrives: while no websocket and
    no connection fails, no timer expires and nobody gives the connection up,
    under any scheduling of CopyBuffer, the client's [Send], the server that
    opens the connection, its dispatchers, its [Send] and other connections:
    from the start of the server's [Send] on, both processes only take a bounded
    number of steps for this connection without further input; and wherever
    they have none left, the target has been sent every byte that the client's
    queue has accepted since [transData], and its write half is closed if the end
    of file was signalled. *)
Theorem upstream_arrives now ids m conn addr c c' out qq oo hub_of target t hl d ops me d' :
  head ids = Some m -> NoDup ids -> length ids <= length (cl_wsc c) ->
  pm_map (clientQueueHub c) !! m = None -> pm_wf (clientLinkHub c) ->
  (forall id, id ∈ ids -> pm_map (clientLinkHub c) !! id = None) ->
  transData now ids conn None addr None c = (c', out, TWait qq oo) ->
  pm_wf hl -> pm_go_ok hl -> (forall id, id ∈ ids -> pm_map hl !! id = None) ->
  (forall id, id ∈ ids -> omap (item_of id) (wire t (ws_index ids id)) = []) ->
  tc_eof target = false ->
  rtc (up_ok ids m addr hub_of (Some target) qq) (up_start c' out t hl, []) (d, ops) ->
  pm_map (d_links d) !! m = Some me -> me ∈ pm_go (d_links d) ->
  rtc (dir_ok (ws_index ids) ids m qq me) d d' ->
  (exists n, forall k d'', nsteps (dir_move (ws_index ids) ids m qq me) k d' d'' -> k <= n) /\
  ((forall d'', ~ dir_move (ws_index ids) ids m qq me d' d'') -> all_out me (tc_sent target) d').
Proof.
  intros Hhead Hnd Hlen Hq Hwc Hl Htd Hwf Hok Hno Ht Htc Hup Hme Hgo Hr.
  assert (ids !! 0 = Some m) as H0 by (by destruct ids).
  assert (m ∈ ids) as Hm by by eapply list_elem_of_lookup_2.
  destruct (transData_ready _ _ _ _ _ _ _ _ _ _ Hhead Hnd Hlen Hq Hwc Hl Htd) as [Hready ->].
  pose proof (up_start_good ids m addr conn c' qq oo t hl Hnd Hhead Hready Hwf Hok Hno Ht) as Hgood.
  pose proof (up_oks_good _ _ _ _ _ _ _ Hnd H0 _ _ Hup Hgood) as Hgood'.
  pose proof (up_steps_target _ _ _ _ _ _ _ _ (up_oks_steps _ _ _ _ _ _ _ _ Hup) ltac:(done)) as Htg. simpl in Hgood', Htg.
  assert (forall c, tried ops = Some c -> c = target) as Htg' by (intros c0 Hc0; apply Htg in Hc0; congruence).
  pose proof (up_good_works _ _ _ _ _ Hnd H0 target d ops me Hgood' Htc Htg' Hme Hgo) as Hw.
  pose proof (ws_index_nodup ids Hnd) as Hws.
  destruct (dir_works_run _ _ _ _ _ _ Hws Hm _ _ _ Hw Hr) as [n Hw'].
  split; [|by eapply dir_works_rest].
  eexists. intros k d''. by eapply dir_works_bound.
Qed.
End up_theorems.

(** * From the server to the client *)

Section down.
Context {K : Ksuid} `{!KsuidText K}.
Context (ids : list KSUID) (m : KSUID) (addr : string) (hub_of : nat -> nat) (oo : nat) (out0 : bytes).

#[local] Hint Extern 0 (Transport wires) => exact (wire_transport (hub_index ids hub_of)) : typeclass_instances.

(** The phase in which the connection is opened, when nothing fails. *)
Inductive down_ok : dir (W := webSocketWriter) * list hs_op -> dir (W := webSocketWriter) * list hs_op -> Prop :=
  | do_server x x' : down_server ids m addr hub_of x x' -> down_ok x x'
  | do_client a d d' ops :
      act_goes a -> recv_exec (hub_index ids hub_of) ids oo a d = Some d' -> down_ok (d, ops) (d', ops)
  | do_other x x' : down_others ids m hub_of oo x x' -> down_ok x x'.

(** The client works. *)
Definition working (s : sys (T := wires)) : Prop := exists n, works ids m oo out0 s n.

Context (Hnd : NoDup ids) (Hm : m ∈ ids).

Lemma working_closed : down_closed ids m hub_of oo working.
Proof using Hnd Hm.
  split.
  - intros b s s' [n Hw] E. eapply works_ok; [done..|]. left. by exists (ActWrite b).
  - intros s s' [n Hw] Ho. exists n. by eapply works_other.
Qed.

Lemma down_ok_inv x x' :
  down_ok x x' -> down_inv ids m hub_of working (fst x) (snd x) -> down_inv ids m hub_of working (fst x') (snd x').
Proof using Hnd Hm.
  pose proof working_closed as Hcl.
  intros [y y' Hs|a d d' ops Ha Hex|y y' Ho]; [by eapply down_server_inv| |by eapply down_others_inv].
  apply (down_client ids m hub_of oo Hnd Hm working); [by eapply recv_exec_ok|]. intros q [n Hw].
  destruct (works_move _ _ _ Hnd Hm _ _ n (mkSys q Queue.PEnter (d_wires d') (d_links d') (d_lpc d') (d_in d')) Hw)
    as (n' & Hw' & _); [|by exists n'].
  exists (act_sys a). split; [by apply act_goes_moves|]. by apply recv_exec_sys.
Qed.

Lemma down_oks_inv x x' :
  rtc down_ok x x' -> down_inv ids m hub_of working (fst x) (snd x) -> down_inv ids m hub_of working (fst x') (snd x').
Proof using Hnd Hm.
  intros Hr. induction Hr as [x|x x1 x' Hs _ IH]; [done|]. intros Hi. by apply IH, (down_ok_inv x).
Qed.

(** The queue of the system may be another one with the same content. *)
Lemma works_queue q q' (t : wires) h lpc inp n :
  works ids m oo out0 (mkSys q Queue.PEnter t h lpc inp) n -> q_ready ids q' ->
  q_buffer q' = q_buffer q -> q_status q' = StaWait ->
  works ids m oo out0 (mkSys q' Queue.PEnter t h lpc inp) n.
Proof using Hnd Hm.
  intros (cn & Hinv & Hg) Hq Hb Hst.
  pose proof (sys_inv_queue ids m hub_of oo _ _ q' _ _ _ _ _ Hinv Hq (f_equal chan_items Hb)) as Hinv'.
  exists cn. split; [done|].
  assert (forall k, work ids (mkSys q Queue.PEnter t h lpc inp) k = work ids (mkSys q' Queue.PEnter t h lpc inp) k) as Ew.
  { intros k. unfold work, q_weight. simpl. by rewrite Hb. }
  destruct Hg as [C P k [Hal [Hcl _] Hl HC Hov Hcap]|[H1 H2 H3 [Hcl _]]]; rewrite Ew; simpl in *.
  - apply (good_healthy _ _ _ _ _ C P k). split; simpl; try done; [|split; [by rewrite Hb|done]].
    destruct Hal as [Hmaps Hout [Hf Hp] Hla Hpos]. split; simpl in *; try done. split.
    + unfold flow in *. simpl in *. by rewrite Hb.
    + intros Ho. simpl. destruct Hq as [-> _]. specialize (Hp Ho). simpl in Hp.
      destruct (iv_q _ _ _ _ _ _ Hinv) as [E _]. simpl in E. by rewrite E in Hp.
  - apply good_delivered. split; simpl; try done. split; simpl; [by rewrite Hb|done].
Qed.

(** When the [Send] of the queue is started, the direction works. *)
Lemma down_started_works d ops sq :
  down_inv ids m hub_of working d ops -> pm_map (d_queues d) !! m = Some sq -> sq ∈ pm_go (d_queues d) ->
  exists n, dir_works (hub_index ids hub_of) ids m sq oo w_Id out0 d n.
Proof using Hnd Hm.
  intros Hinv Hsq Hgo. destruct (di_writers _ _ _ _ _ _ Hinv) as [Hws Hpc].
  destruct (down_started _ _ _ Hnd Hm _ _ _ _ Hinv Hsq Hgo) as (q & q0 & Hd & [n Hw] & Hq & Hb & Hst & Hreg).
  exists n. eexists _, q. split_and!; [exact Hd| |].
  - by eapply works_queue.
  - split.
    + intros id w Hid. destruct (Hreg id w Hid) as [k ->]. eexists. by rewrite Hws.
    + rewrite Hpc. done.
Qed.
End down.

Section down_theorem.
Context {K : Ksuid} `{!KsuidText K}.

(** C7: from the server to the client, everything arrives: while nothing fails, no
    timer expires and nobody gives the connection up, under any scheduling of
    the server that opens the connection, CopyBuffer, a [Send] of the queue and
    the [Send] of the links, the client's dispatchers and other connections:
    from the start of the server's [Send] on, both processes only take a bounded
    number of steps for this connection without further input; and wherever
    they have none left, the SOCKS connection has been sent every byte that the
    server's queue has accepted, also before that start, and its write half is
    closed if the end of file was signalled. [Add] and [TrySend] can both start
    a [Send] on the server's queue; the statement is about those runs in which
    one of them gets past the test of the status and has set it before the
    other makes the test: from then on a further [Send] returns at once and
    leaves the queue as it is. *)
Theorem downstream_arrives now ids m conn addr c c' out qq oo hub_of t hq d ops sq d' :
  head ids = Some m -> NoDup ids -> length ids <= length (cl_wsc c) ->
  pm_map (clientQueueHub c) !! m = None -> pm_wf (clientLinkHub c) ->
  (forall id, id ∈ ids -> pm_map (clientLinkHub c) !! id = None) ->
  transData now ids conn None addr None c = (c', out, TWait qq oo) -> tc_eof conn = false ->
  pm_wf hq -> pm_go_ok hq -> pm_map hq !! m = None ->
  (forall id, id ∈ ids -> omap (chunk_of id) (wire t (hub_index ids hub_of id)) = []) ->
  NoDup (hub_index ids hub_of <$> ids) ->
  rtc (down_ok ids m addr hub_of oo) (down_start c' t hq, []) (d, ops) ->
  pm_map (d_queues d) !! m = Some sq -> sq ∈ pm_go (d_queues d) ->
  rtc (dir_ok (hub_index ids hub_of) ids m sq oo) d d' ->
  (exists n, forall k d'', nsteps (dir_move (hub_index ids hub_of) ids m sq oo) k d' d'' -> k <= n) /\
  ((forall d'', ~ dir_move (hub_index ids hub_of) ids m sq oo d' d'') -> all_out oo (tc_sent conn) d') /\
  (forall q, pm_heap (d_queues d') !! sq = Some q -> d_qpc d' <> Queue.PEnter -> d_qpc d' <> Queue.PStart ->
     Queue.Send_step q Queue.PEnter Queue.EvTau = Some (q, Queue.PReturned (Queue.SRet None), None)).
Proof.
  intros Hhead Hnd Hlen Hq Hwc Hl Htd Heof Hwf Hok Hno Ht Hws Hdn Hsq Hgo Hr.
  assert (m ∈ ids) as Hm by (destruct ids; simplify_eq/=; set_solver).
  destruct (transData_ready _ _ _ _ _ _ _ _ _ _ Hhead Hnd Hlen Hq Hwc Hl Htd) as [Hready ->].
  assert (down_inv ids m hub_of (working ids m hub_of oo (tc_sent conn)) (down_start c' t hq) []) as Hinv.
  { apply (down_start_inv _ _ _ _ conn c' qq oo); try done. intros s Hinit Hst Hcl Hwait.
    apply fresh_works; [done|]. split; [done| |].
    - destruct (in_hub _ _ _ _ _ Hinit) as (_ & Hmm & Hsort & _). unfold sort_at in Hsort. unfold status_at.
      destruct (pm_heap (s_hub s) !! oo) as [l|] eqn:Hl'; [|done]. simpl.
      by destruct (Hwait m Hm oo l Hmm Hl') as [-> _].
    - intros id p ch Hid Hp Hb. unfold buf_at in Hb. destruct (pm_heap (s_hub s) !! p) as [l|] eqn:Hl'; [|done].
      simplify_eq/=. by destruct (Hwait id Hid p l Hp Hl') as [_ ?]. }
  pose proof (down_oks_inv _ _ _ _ _ _ Hnd Hm _ _ Hdn Hinv) as Hinv'. simpl in Hinv'.
  pose proof (down_started_works _ _ _ _ _ Hnd Hm _ _ _ Hinv' Hsq Hgo) as Hw.
  destruct (dir_works_run _ _ _ _ _ _ Hws Hm _ _ _ Hw Hr) as [n Hw'].
  split_and!; [|by eapply dir_works_rest|].
  - eexists. intros k d''. by eapply dir_works_bound.
  - intros q Hq' Hp1 Hp2. by eapply dir_works_second.
Qed.
End down_theorem.
