(* ===== verification/SessionRun.v ===== *)
(** Running a proxied connection.

    The steps of Upstream.v and Downstream.v are relations; here they are
    executed, action by action, with websockets that do not fail, and two
    connections are carried from the client's first message to the bytes on
    the receiver's TCP connection. *)
From S2P Require Import Prelude GoChan Pipe RoundRobin PtrMap Queue QueueHub Link Starts Striping StripingRun Base64 Json.
From S2P Require Import Messages Hub Server Handshake Client Wire Direction DirectionRun Session Upstream Downstream.
From S2P Require Import Delivery Arrival Opening.

(** * The handshake *)

Fixpoint json_eqb (v w : json) : bool :=
  match v, w with
  | JNull, JNull => true
  | JBool a, JBool b => Bool.eqb a b
  | JNum a, JNum b => Z.eqb a b
  | JReal a, JReal b | JStr a, JStr b => String.eqb a b
  | JArr l, JArr k =>
      (fix go (l k : list json) : bool :=
         match l, k with
         | [], [] => true
         | x :: l', y :: k' => json_eqb x y && go l' k'
         | _, _ => false
         end) l k
  | JObj l, JObj k =>
      (fix go (l k : list (string * json)) : bool :=
         match l, k with
         | [], [] => true
         | (a, x) :: l', (b, y) :: k' => String.eqb a b && json_eqb x y && go l' k'
         | _, _ => false
         end) l k
  | _, _ => false
  end.

Lemma json_eqb_eq : forall v w, json_eqb v w = true -> v = w.
Proof.
  fix IH 1. intros [|a|a|a|a|l|l] [|b|b|b|b|k|k]; simpl; try discriminate; intros H.
  - done.
  - f_equal. by apply Bool.eqb_prop.
  - f_equal. by apply Z.eqb_eq.
  - f_equal. by apply String.eqb_eq.
  - f_equal. by apply String.eqb_eq.
  - f_equal. revert k H. induction l as [|x l IHl]; intros [|y k]; try done.
    intros [H1 H2]%andb_prop. f_equal; [by apply IH|by apply IHl].
  - f_equal. revert k H. induction l as [|[a x] l IHl]; intros [|[b y] k]; try done.
    intros [[H1 H2]%andb_prop H3]%andb_prop. apply String.eqb_eq in H1. f_equal; [|by apply IHl].
    f_equal; [done|by apply IH].
Qed.

Section handshake_exec.
Context {K : Ksuid} `{!KsuidText K}.
Context (ids : list KSUID) (m : KSUID) (addr : string) (hub_of : nat -> nat) (dial : option TCPConn) (qq oo : nat).

(** Actions of a connection that is being opened. *)
Inductive open_act :=
  | OAct (a : act)
  | OHello (k : nat) (id : KSUID)
  | OEst
  | ODialled.

(** The oldest message of a websocket, if it is [v]. *)
Definition read_exec (k : nat) (v : json) (t : wires) : option wires :=
  match wire t k with
  | v' :: rest => if json_eqb v' v then Some (<[k := rest]> t) else None
  | [] => None
  end.

Lemma read_exec_ok k v t t' :
  read_exec k v t = Some t' -> exists rest, wire t k = v :: rest /\ t' = <[k := rest]> t.
Proof.
  unfold read_exec. destruct (wire t k) as [|v' rest]; [done|].
  destruct (json_eqb v' v) eqn:E; [|done]. apply json_eqb_eq in E as ->. intros [= <-]. by exists rest.
Qed.

(** The server that handles a message, for the hub concerned. *)
Definition links_after (hp : nat) (v : json) (hl : LinkHub) : LinkHub :=
  serverLinkHub (dispatched 0 hp v (set_links hl server_init)).
Definition queues_after (hp : nat) (v : json) (hq : QueueHub webSocketWriter) : QueueHub webSocketWriter :=
  serverQueueHub (dispatched 0 hp v (set_queues hq server_init)).

Definition up_exec (a : open_act) (x : dir (W := nat) * list Link.handshake) :
    option (dir (W := nat) * list Link.handshake) :=
  let '(mkDir hq ws qpc t hl lpc inp, ops) := x in
  match a with
  | OAct (AChunk id) =>
      '(t', hl') ← chunk_exec (ws_index ids) ids id t hl; Some (mkDir hq ws qpc t' hl' lpc inp, ops)
  | OAct a => d' ← send_exec qq a (fst x); Some (d', ops)
  | OHello k id =>
      if bool_decide ((k, id) ∈ numbered 0 ids) then
        t' ← read_exec k (hello_json m id) t;
        Some (mkDir hq ws qpc t' (links_after (hub_of k) (hello_json m id) hl) lpc inp, ops ++ [Link.HAdd id])
      else None
  | OEst =>
      t' ← read_exec 0 (est_json ids m addr) t;
      Some (mkDir hq ws qpc t' (links_after (hub_of 0) (est_json ids m addr) hl) lpc inp, ops ++ [Link.HSort])
  | ODialled =>
      match tried ops, dial with
      | None, Some target =>
          if existsb (fun op => match op with Link.HSort => true | _ => false end) ops
          then Some (mkDir hq ws qpc t (fst (Link.TrySend m (Some target) hl)) lpc inp, ops ++ [Link.HTry target])
          else None
      | _, _ => None
      end
  end.

Lemma up_exec_cases a x x' :
  up_exec a x = Some x' ->
  up_server ids m addr hub_of dial x x' \/
  exists a' d', a = OAct a' /\ send_exec qq a' (fst x) = Some d' /\ x' = (d', snd x).
Proof.
  destruct x as [[hq ws qpc t hl lpc inp] ops]. unfold up_exec. cbn [fst snd].
  destruct a as [a|k id| |].
  - destruct a as [b|ev| |id|ev].
    4: { destruct (chunk_exec _ _ _ _ _) as [[t' hl']|] eqn:E; [|done]. intros [= <-].
         apply chunk_exec_ok in E as (v & rest & b & ? & ? & ? & ? & ->). left. by eapply us_chunk. }
    all: match goal with |- context [send_exec qq ?a ?d] => destruct (send_exec qq a d) as [d'|] eqn:E; [|done] end.
    all: intros [= <-]; right; eauto.
  - destruct (bool_decide_reflect ((k, id) ∈ numbered 0 ids)) as [Hk|]; [|done].
    destruct (read_exec _ _ _) as [t'|] eqn:E; [|done]. intros [= <-].
    apply read_exec_ok in E as (rest & Hw & ->).
    left. exact (us_hello ids m addr hub_of dial 0 hq ws qpc t (set_links hl server_init) lpc inp ops k id rest Hk Hw).
  - destruct (read_exec _ _ _) as [t'|] eqn:E; [|done]. intros [= <-].
    apply read_exec_ok in E as (rest & Hw & ->).
    left. exact (us_est ids m addr hub_of dial 0 hq ws qpc t (set_links hl server_init) lpc inp ops rest Hw).
  - destruct (tried ops) eqn:Ht; [done|]. destruct dial as [target|] eqn:Hdial; [|done].
    destruct (existsb _ ops) eqn:E; [|done]. intros [= <-].
    left. apply us_dialled; [done| |done]. apply existsb_exists in E as ([| |] & Hin & ?); try done.
    by apply list_elem_of_In.
Qed.

Lemma up_exec_step a x x' : up_exec a x = Some x' -> up_step ids m addr hub_of dial qq x x'.
Proof.
  intros [Hs|(a' & d' & -> & Hd & ->)]%up_exec_cases; [by apply us_server|].
  destruct x as [d ops]. by eapply us_sender, send_exec_ok.
Qed.

Definition down_exec (a : open_act) (x : dir (W := webSocketWriter) * list (QueueHub.handshake (W := webSocketWriter))) :
    option (dir (W := webSocketWriter) * list (QueueHub.handshake (W := webSocketWriter))) :=
  let '(mkDir hq ws qpc t hl lpc inp, ops) := x in
  match a with
  | OAct (AWrite b) =>
      p ← pm_map hq !! m; q ← pm_heap hq !! p;
      if bool_decide (no_eof inp) && written_b b then
        match chan_send (q_buffer q) b with
        | SendOk c => Some (mkDir (pm_update p (fun _ => set_q_buffer c q) hq) ws qpc t hl lpc (inp ++ [b]), ops)
        | _ => None
        end
      else None
  | OAct a => d' ← recv_exec (hub_index ids hub_of) ids oo a (fst x); Some (d', ops)
  | OHello k id =>
      if bool_decide ((k, id) ∈ numbered 0 ids) && bool_decide (id ∉ hs_added ops) then
        Some (mkDir (queues_after (hub_of k) (hello_json m id) hq) ws qpc t hl lpc inp,
              ops ++ [QueueHub.HAdd id (NewWebSocketWriter (hub_of k) id)])
      else None
  | OEst =>
      Some (mkDir (queues_after (hub_of 0) (est_json ids m addr) hq) ws qpc t hl lpc inp, ops ++ [QueueHub.HSort])
  | ODialled =>
      if existsb (fun op => match op with QueueHub.HSort => true | _ => false end) ops
      then Some (mkDir (fst (QueueHub.TrySend m hq)) ws qpc t hl lpc inp, ops ++ [QueueHub.HTry])
      else None
  end.

Lemma down_exec_cases a x x' :
  down_exec a x = Some x' ->
  down_server ids m addr hub_of x x' \/
  exists a' d', a = OAct a' /\ recv_exec (hub_index ids hub_of) ids oo a' (fst x) = Some d' /\ x' = (d', snd x).
Proof.
  destruct x as [[hq ws qpc t hl lpc inp] ops]. unfold down_exec. cbn [fst snd].
  destruct a as [a|k id| |].
  - destruct a as [b|ev| |id|ev].
    + destruct (pm_map hq !! m) as [p|] eqn:Hp; [|done]. simpl.
      destruct (pm_heap hq !! p) as [q|] eqn:Hq; [|done]. simpl.
      destruct (bool_decide_reflect (no_eof inp)) as [Hno|]; [|done]. simpl.
      destruct (written_b b) eqn:Hb; [|done]. destruct (chan_send (q_buffer q) b) as [c| |] eqn:Hc; try done.
      intros [= <-]. left; apply dn_write; auto using written_b_ok.
    + done.
    + done.
    + destruct (recv_exec _ _ _ _ _) as [d'|] eqn:E; [|done]. intros [= <-]. right. eauto.
    + destruct (recv_exec _ _ _ _ _) as [d'|] eqn:E; [|done]. intros [= <-]. right. eauto.
  - destruct (bool_decide_reflect ((k, id) ∈ numbered 0 ids)) as [Hk|]; [|done]. simpl.
    destruct (bool_decide_reflect (id ∉ hs_added ops)) as [Hno|]; [|done]. intros [= <-].
    left. exact (dn_hello ids m addr hub_of 0 (set_queues hq server_init) ws qpc t hl lpc inp ops k id Hk Hno).
  - intros [= <-]. left. exact (dn_est ids m addr hub_of 0 (set_queues hq server_init) ws qpc t hl lpc inp ops).
  - destruct (existsb _ ops) eqn:E; [|done]. intros [= <-]. left. apply dn_try.
    apply existsb_exists in E as ([| |] & Hin & ?); try done. by apply list_elem_of_In.
Qed.

(** The actions of a connection with which nothing goes wrong. *)
Definition open_fine (a : open_act) : bool := match a with OAct a => act_fine a | _ => true end.

Lemma up_exec_fine a x x' : open_fine a -> up_exec a x = Some x' -> up_ok ids m addr hub_of dial qq x x'.
Proof.
  intros Ha [Hs|(a' & d' & -> & Hd & ->)]%up_exec_cases; [by apply uo_server|].
  destruct x as [d ops]. by eapply uo_client.
Qed.

Lemma down_exec_fine a x x' : open_fine a -> down_exec a x = Some x' -> down_ok ids m addr hub_of oo x x'.
Proof.
  intros Ha [Hs|(a' & d' & -> & Hd & ->)]%down_exec_cases; [by apply do_server|].
  destruct x as [d ops]. eapply do_client; [|done]. unfold open_fine, act_fine in Ha.
  apply orb_prop_elim in Ha as [Ha|Ha]; [done|]. destruct a', d; done.
Qed.

Fixpoint open_run {A} (exec : open_act -> A -> option A) (l : list open_act) (x : A) : option A :=
  match l with
  | [] => Some x
  | a :: l' => x' ← exec a x; open_run exec l' x'
  end.

Lemma open_run_steps {A} (exec : open_act -> A -> option A) (P : open_act -> Prop) (R : A -> A -> Prop) l x x' :
  (forall a x x', P a -> exec a x = Some x' -> R x x') -> Forall P l -> open_run exec l x = Some x' -> rtc R x x'.
Proof.
  intros Hex Hl. revert x. induction Hl as [|a l Ha _ IH]; intros x; simpl; [by intros [= ->]|].
  destruct (exec a x) as [x1|] eqn:E; [|done]. intros H. eapply rtc_l; [by eapply Hex|by apply IH].
Qed.
End handshake_exec.
Arguments open_act {K}.

(** * Two connections over two websockets

    The IDs are numbers here.  The client sends its first chunk before the
    server has handled the second hello message; the server receives from the
    target before the [Send] of its queue is started. *)
Section demo.
#[local] Existing Instance ksuid_N.
#[local] Existing Instance ksuid_text_N.

Definition open_ids : list KSUID := [kid 1; kid 2].
Definition open_client : Client.client := NewWebSocketClient (NewWebSocketClient client_init).
Definition opened : Client.client * list (nat * json) * trans_result :=
  transData 0 open_ids demo_conn None "a:80" None open_client.

Definition ab : buffer := mkBuffer false (bytes_of "ab").
Definition cd : buffer := mkBuffer false (bytes_of "cd").

Definition send_chunk : list (act (K := ksuid_N)) := [ASend Queue.EvTau; ASend Queue.EvData; AHand].
Definition start_send : list (act (K := ksuid_N)) := [ASend Queue.EvTau; ASend Queue.EvTau; ASend Queue.EvTau].
Definition link_chunk : list (act (K := ksuid_N)) := [ALink Link.EvTau; ALink Link.EvData; ALink (Link.EvConn ConnOk)].
Definition start_link : list (act (K := ksuid_N)) := [ALink Link.EvTau; ALink Link.EvTau; ALink Link.EvTau].

Definition up_open : list (open_act (K := ksuid_N)) :=
  [OHello 0 (kid 1); OAct (AWrite ab); OAct (AWrite cd)] ++ map OAct (start_send ++ send_chunk) ++
  [OEst; OAct (AChunk (kid 1)); OHello 1 (kid 2)] ++ map OAct send_chunk ++ [ODialled].

Definition up_demo : option (dir (W := nat) * list Link.handshake) :=
  open_run (up_exec open_ids (kid 1) "a:80" id (Some demo_conn) 0) up_open
    (up_start (fst (fst opened)) (snd (fst opened)) ∅ NewLinkHub, []).

Definition up_more : list (act (K := ksuid_N)) := start_link ++ link_chunk ++ AChunk (kid 2) :: link_chunk.

Definition up_end : option (dir (W := nat)) :=
  '(d, _) ← up_demo; dir_run (ws_index open_ids) open_ids 0 0 up_more d.

(** The same, until nothing is left to do. *)
Definition up_quiet : option (dir (W := nat)) :=
  d ← up_end; dir_run (ws_index open_ids) open_ids 0 0 (start_send ++ start_link) d.

Definition down_open : list (open_act (K := ksuid_N)) :=
  [OHello 1 (kid 2); OEst; ODialled; OAct (AWrite ab)] ++ map OAct start_link ++
  [OAct (AWrite cd); OHello 0 (kid 1)].

Definition down_demo : option (dir (W := webSocketWriter) * list (QueueHub.handshake (W := webSocketWriter))) :=
  open_run (down_exec open_ids (kid 1) "a:80" id 0) down_open
    (down_start (fst (fst opened)) ∅ NewQueueHub, []).

Definition down_more : list (act (K := ksuid_N)) :=
  start_send ++ send_chunk ++ send_chunk ++ [AChunk (kid 2); AChunk (kid 1)] ++ link_chunk ++ link_chunk.

Definition down_end : option (dir (W := webSocketWriter)) :=
  '(d, _) ← down_demo; dir_run (hub_index open_ids id) open_ids 0 0 down_more d.

Definition down_quiet : option (dir (W := webSocketWriter)) :=
  d ← down_end; dir_run (hub_index open_ids id) open_ids 0 0 (start_send ++ start_link) d.

(** Both ends have received everything, in order. *)
Example up_end_received :
  (d ← up_end; conn_at (d_links d) 0) = Some (Some (mkConn (bytes_of "abcd") false)).
Proof. vm_compute. reflexivity. Qed.

Example down_end_received :
  (d ← down_end; conn_at (d_links d) 0) = Some (Some (mkConn (bytes_of "abcd") false)).
Proof. vm_compute. reflexivity. Qed.
End demo.
