(* ===== verification/Net.v ===== *)
(** What the program uses of Go's net and strconv packages: the text of IP
    addresses ([IP.String], [ParseIP]), [JoinHostPort] and [Itoa]. *)
From Stdlib Require Import Ascii.
From stdpp Require Import pretty.
From S2P Require Import Prelude.

(** [strconv.Itoa] of a number that is not negative. *)
Definition Itoa (n : N) : bytes := bytes_of (pretty n).

(** A [net.IP]: four or sixteen bytes. *)
Abbreviation IP := bytes.

Definition byte_N (b : byte) : N := N_of_ascii b.

(** * Printing *)

Definition dotted (a b c d : byte) : bytes :=
  Itoa (byte_N a) ++ "."%char :: Itoa (byte_N b) ++ "."%char :: Itoa (byte_N c) ++ "."%char ::
    Itoa (byte_N d).

Definition v4InV6Prefix : bytes := replicate 10 "000"%char ++ ["255"; "255"]%char.

(** [To4]: the four bytes of an IPv4 address, also when it is in its IPv6 form. *)
Definition To4 (ip : IP) : option IP :=
  if decide (length ip = 4) then Some ip
  else if decide (length ip = 16 /\ take 12 ip = v4InV6Prefix) then Some (drop 12 ip)
  else None.

(** Lower-case hexadecimal digits without leading zeros. *)
Definition hex_digit (n : N) : byte :=
  default "0"%char (bytes_of "0123456789abcdef" !! N.to_nat n).

Fixpoint hex_digits (fuel : nat) (n : N) (acc : bytes) : bytes :=
  match fuel with
  | 0 => acc
  | S fuel' =>
      let acc' := hex_digit (n `mod` 16) :: acc in
      if (n <? 16)%N then acc' else hex_digits fuel' (n `div` 16) acc'
  end.

(** A sixteen-bit group has at most four digits. *)
Definition hex (n : N) : bytes := hex_digits 4 n [].

Fixpoint groups (l : bytes) : list N :=
  match l with
  | a :: b :: l' => (byte_N a * 256 + byte_N b)%N :: groups l'
  | _ => []
  end.

(** The length of the run of zero groups at the head. *)
Fixpoint zero_run (l : list N) : nat :=
  match l with
  | 0%N :: l' => S (zero_run l')
  | _ => 0
  end.

(** The first of the longest runs, as its place and length. *)
Fixpoint longest_run (i : nat) (l : list N) (best : nat * nat) : nat * nat :=
  match l with
  | [] => best
  | _ :: l' =>
      let k := zero_run l in
      longest_run (S i) l' (if Nat.ltb (snd best) k then (i, k) else best)
  end.

Definition join_groups (l : list N) : bytes :=
  concat (imap (fun i g => if Nat.eqb i 0 then hex g else ":"%char :: hex g) l).

Definition ipv6_text (ip : IP) : bytes :=
  let g := groups ip in
  match longest_run 0 g (0, 0) with
  | (i, k) =>
      if Nat.leb 2 k then join_groups (take i g) ++ bytes_of "::" ++ join_groups (drop (i + k) g)
      else join_groups g
  end.

(** [IP.String] *)
Definition IP_String (ip : IP) : bytes :=
  match To4 ip with
  | Some [a; b; c; d] => dotted a b c d
  | _ => if decide (length ip = 16) then ipv6_text ip
         else if decide (ip = []) then bytes_of "<nil>"
         else "?"%char :: concat (map (fun b => [hex_digit (byte_N b `div` 16); hex_digit (byte_N b `mod` 16)]) ip)
  end.

(** [JoinHostPort] *)
Definition JoinHostPort (host port : bytes) : bytes :=
  if bool_decide (":"%char ∈ host)
  then "["%char :: host ++ bytes_of "]:" ++ port
  else host ++ ":"%char :: port.

(** * Parsing *)

Definition digit (c : byte) : option N :=
  let n := byte_N c in if (48 <=? n)%N && (n <=? 57)%N then Some (n - 48)%N else None.

(** A field of a dotted address: decimal, no leading zero, at most 255. *)
Fixpoint decimal (acc : N) (l : bytes) : option N :=
  match l with
  | [] => Some acc
  | c :: l' => d ← digit c;
               let acc' := (acc * 10 + d)%N in
               if (255 <? acc')%N then None else decimal acc' l'
  end.

Definition dotted_field (l : bytes) : option byte :=
  match l with
  | [] => None
  | c :: _ :: _ => if decide (c = "0"%char) then None else ascii_of_N <$> decimal 0 l
  | _ => ascii_of_N <$> decimal 0 l
  end.

(** [strings.Split] at one character. *)
Fixpoint split (sep : byte) (l : bytes) : list bytes :=
  match l with
  | [] => [[]]
  | c :: l' =>
      match split sep l' with
      | p :: ps => if decide (c = sep) then [] :: p :: ps else (c :: p) :: ps
      | [] => [[]]
      end
  end.

Definition parse_dotted (l : bytes) : option (list byte) :=
  match split "."%char l with
  | [a; b; c; d] => mapM dotted_field [a; b; c; d]
  | _ => None
  end.

Definition hex_value (c : byte) : option N :=
  let n := byte_N c in
  if (48 <=? n)%N && (n <=? 57)%N then Some (n - 48)%N
  else if (97 <=? n)%N && (n <=? 102)%N then Some (n - 87)%N
  else if (65 <=? n)%N && (n <=? 70)%N then Some (n - 55)%N
  else None.

(** The hexadecimal digits at the head: how many, their value, and the rest. *)
Fixpoint take_hex (l : bytes) : nat * N * bytes :=
  match l with
  | c :: l' =>
      match hex_value c with
      | Some d => let '(n, v, r) := take_hex l' in (S n, (d * 16 ^ N.of_nat n + v)%N, r)
      | None => (0, 0%N, l)
      end
  | [] => (0, 0%N, [])
  end.

(** The groups of an IPv6 address: [acc] has the bytes before the ellipsis, if
    there was one, and [cur] those since. At most eight groups fit. *)
Fixpoint parse_groups (fuel : nat) (s : bytes) (acc : option bytes) (cur : bytes) : option IP :=
  let finish cur :=
    match acc with
    | None => if decide (length cur = 16) then Some cur else None
    | Some a => let n := length a + length cur in
                if Nat.ltb n 16 then Some (a ++ replicate (16 - n) "000"%char ++ cur) else None
    end in
  let filled := length (default [] acc) + length cur in
  match fuel with
  | 0 => None
  | S fuel' =>
      if Nat.leb 16 filled then None
      else
        let '(n, v, r) := take_hex s in
        if Nat.eqb n 0 || Nat.ltb 4 n then None
        else match r with
        | "."%char :: _ =>
            if bool_decide (acc = None) && negb (Nat.eqb filled 12) then None
            else if Nat.ltb 12 filled then None
            else q ← parse_dotted s; finish (cur ++ q)
        | _ =>
            let cur' := cur ++ [ascii_of_N (v `div` 256); ascii_of_N (v `mod` 256)] in
            match r with
            | [] => finish cur'
            | ":"%char :: ":"%char :: r' =>
                match acc with
                | Some _ => None
                | None => match r' with
                          | [] => let n := length cur' in
                                  if Nat.ltb n 16 then Some (cur' ++ replicate (16 - n) "000"%char) else None
                          | _ => parse_groups fuel' r' (Some cur') []
                          end
                end
            | ":"%char :: r' =>
                match r' with
                | [] => None
                | _ => parse_groups fuel' r' acc cur'
                end
            | _ => None
            end
        end
  end.

Definition parse_ipv6 (s : bytes) : option IP :=
  match s with
  | ":"%char :: ":"%char :: s' =>
      match s' with
      | [] => Some (replicate 16 "000"%char)
      | _ => parse_groups 9 s' (Some []) []
      end
  | _ => parse_groups 9 s None []
  end.

(** [ParseIP]: the kind is told by the first dot or colon; an IPv4 address is
    returned in its sixteen-byte form; [None] is nil. *)
Fixpoint ip_kind (s : bytes) : option byte :=
  match s with
  | [] => None
  | c :: s' => if decide (c = "."%char \/ c = ":"%char) then Some c else ip_kind s'
  end.

Definition ParseIP (s : bytes) : option IP :=
  match ip_kind s with
  | Some "."%char => app v4InV6Prefix <$> parse_dotted s
  | Some ":"%char => parse_ipv6 s
  | _ => None
  end.

(** [bytes.Compare], as a comparison. *)
Fixpoint Compare (a b : bytes) : comparison :=
  match a, b with
  | [], [] => Eq
  | [], _ => Lt
  | _, [] => Gt
  | x :: a', y :: b' => match (byte_N x ?= byte_N y)%N with Eq => Compare a' b' | c => c end
  end.
