(* ===== verification/Private.v ===== *)
(** The test for private addresses (wss/privite.go), by which the server denies
    and the client visits directly: [checkAddrPrivite] resolves the host of an
    address and tests each IP. [LookupIP] is the resolver, a parameter. *)
From Stdlib Require Import Ascii.
From stdpp Require Import pretty.
From S2P Require Import Prelude Net.

(** [ipBlock] *)
Record ipBlock := mkBlock { ip1 : option IP; ip2 : option IP }.

(** [priviteIps], as [init] fills it. *)
Definition priviteIps : list ipBlock :=
  [ mkBlock (ParseIP (bytes_of "10.0.0.0")) (ParseIP (bytes_of "10.255.255.255"));
    mkBlock (ParseIP (bytes_of "172.16.0.0")) (ParseIP (bytes_of "172.31.255.255"));
    mkBlock (ParseIP (bytes_of "192.168.0.0")) (ParseIP (bytes_of "192.168.255.255")) ].

(** [bytes.Compare(a, b) >= 0], and [<= 0]; a nil slice is empty. *)
Definition compare_ge (a b : bytes) : bool := match Compare a b with Lt => false | _ => true end.
Definition compare_le (a b : bytes) : bool := match Compare a b with Gt => false | _ => true end.

(** [checkIpPrivite] *)
Definition checkIpPrivite (ip : bytes) : bool :=
  if decide (ip = bytes_of "127.0.0.1") then true
  else
    let trial := ParseIP ip in
    match (t ← trial; To4 t) with
    | None => false
    | Some _ =>
        existsb (fun p => compare_ge (default [] trial) (default [] (ip1 p)) &&
                          compare_le (default [] trial) (default [] (ip2 p))) priviteIps
    end.

(** [checkAddrPrivite]; an error of the lookup is an empty result. *)
Definition checkAddrPrivite (LookupIP : bytes -> list IP) (addr : bytes) : bool :=
  existsb (fun ip => checkIpPrivite (IP_String ip))
    (LookupIP (default [] (head (split ":"%char addr)))).

(** * Printing and parsing IPv4 addresses *)

Lemma byte_N_bound b : (byte_N b < 256)%N.
Proof. apply N_ascii_bounded. Qed.

(** Every byte is printed as digits that parse to it. *)
Lemma field_Itoa b : dotted_field (Itoa (byte_N b)) = Some b.
Proof.
  assert (forallb (fun n => bool_decide (dotted_field (Itoa (N.of_nat n)) = Some (ascii_of_N (N.of_nat n))))
            (seq 0 256) = true) as H by (vm_compute; reflexivity).
  rewrite forallb_forall in H. specialize (H (N.to_nat (byte_N b))).
  rewrite bool_decide_eq_true, N2Nat.id in H. unfold byte_N in *. rewrite ascii_N_embedding in H.
  apply H, in_seq. pose proof (N_ascii_bounded b). lia.
Qed.

Lemma Itoa_no_sep b c : c = "."%char \/ c = ":"%char -> c ∉ Itoa (byte_N b).
Proof.
  intros Hc Hin.
  assert (forallb (fun n => bool_decide ("."%char ∉ Itoa (N.of_nat n)) && bool_decide (":"%char ∉ Itoa (N.of_nat n)))
            (seq 0 256) = true) as H by (vm_compute; reflexivity).
  rewrite forallb_forall in H. specialize (H (N.to_nat (byte_N b))).
  rewrite andb_true_iff, !bool_decide_eq_true, N2Nat.id in H.
  destruct H as [H1 H2]; [|by destruct Hc as [-> | ->]].
  apply in_seq. pose proof (byte_N_bound b). lia.
Qed.

Lemma split_not_nil sep l : split sep l <> [].
Proof. destruct l as [|c l]; simpl; [done|]. destruct (split sep l); [done|]. by case_decide. Qed.

Lemma split_cons sep l r : sep ∉ l -> split sep (l ++ sep :: r) = l :: split sep r.
Proof.
  induction l as [|c l IH]; simpl; intros Hn.
  - destruct (split sep r) eqn:E; [by apply split_not_nil in E|]. by rewrite decide_True.
  - rewrite IH by set_solver. rewrite decide_False; [done|]. set_solver.
Qed.

Lemma split_last sep l : sep ∉ l -> split sep l = [l].
Proof.
  induction l as [|c l IH]; simpl; intros Hn; [done|]. rewrite IH by set_solver.
  rewrite decide_False; [done|]. set_solver.
Qed.

Lemma ip_kind_app l r : (forall c, c = "."%char \/ c = ":"%char -> c ∉ l) -> ip_kind (l ++ r) = ip_kind r.
Proof.
  induction l as [|c l IH]; simpl; intros Hn; [done|]. rewrite decide_False.
  - apply IH. intros c' Hc'. specialize (Hn c' Hc'). set_solver.
  - intros Hc. apply (Hn c Hc). set_solver.
Qed.

Lemma ParseIP_dotted a b c d : ParseIP (dotted a b c d) = Some (v4InV6Prefix ++ [a; b; c; d]).
Proof.
  unfold ParseIP, dotted. rewrite ip_kind_app by (intros; by apply Itoa_no_sep). simpl.
  assert (forall x, "."%char ∉ Itoa (byte_N x)) as Hn by (intros x; apply Itoa_no_sep; by left).
  unfold parse_dotted. rewrite !split_cons, split_last by done.
  cbn [mapM]. rewrite !field_Itoa. done.
Qed.

(** * The ranges *)

(** Evaluate the values of literal bytes. *)
Ltac eval_bytes :=
  repeat match goal with
  | |- context [byte_N (Ascii ?b0 ?b1 ?b2 ?b3 ?b4 ?b5 ?b6 ?b7)] =>
      let x := constr:(byte_N (Ascii b0 b1 b2 b3 b4 b5 b6 b7)) in
      let v := eval vm_compute in x in change x with v
  end.

(** [a.b.c.d] is loopback 127.0.0.1, or in 10/8, 172.16/12 or 192.168/16. *)
Definition private4 (a b c d : byte) : bool :=
  let n x := byte_N x in
  ((n a =? 127) && (n b =? 0) && (n c =? 0) && (n d =? 1))%N ||
  (n a =? 10)%N ||
  ((n a =? 172) && (16 <=? n b) && (n b <=? 31))%N ||
  ((n a =? 192) && (n b =? 168))%N.

Lemma Compare_app p a b : Compare (p ++ a) (p ++ b) = Compare a b.
Proof. induction p as [|x p IH]; simpl; [done|]. by rewrite N.compare_refl. Qed.

(** Comparing four bytes as one number. *)
Definition value4 (a b c d : byte) : N :=
  (((byte_N a * 256 + byte_N b) * 256 + byte_N c) * 256 + byte_N d)%N.

Lemma Compare4 a b c d a' b' c' d' :
  Compare [a; b; c; d] [a'; b'; c'; d'] = (value4 a b c d ?= value4 a' b' c' d')%N.
Proof.
  unfold value4. pose proof (byte_N_bound a). pose proof (byte_N_bound b). pose proof (byte_N_bound c).
  pose proof (byte_N_bound d). pose proof (byte_N_bound a'). pose proof (byte_N_bound b').
  pose proof (byte_N_bound c'). pose proof (byte_N_bound d'). simpl.
  destruct (N.compare_spec (byte_N a) (byte_N a')) as [->| |]; [|symmetry; apply N.compare_lt_iff; nia|symmetry; apply N.compare_gt_iff; nia].
  destruct (N.compare_spec (byte_N b) (byte_N b')) as [->| |]; [|symmetry; apply N.compare_lt_iff; nia|symmetry; apply N.compare_gt_iff; nia].
  destruct (N.compare_spec (byte_N c) (byte_N c')) as [->| |]; [|symmetry; apply N.compare_lt_iff; nia|symmetry; apply N.compare_gt_iff; nia].
  destruct (N.compare_spec (byte_N d) (byte_N d')) as [->| |]; [|symmetry; apply N.compare_lt_iff; nia|symmetry; apply N.compare_gt_iff; nia].
  symmetry. apply N.compare_refl.
Qed.

(** Membership in a block whose ends differ in the last bytes only. *)
Lemma block_range a b c d x1 x2 x3 x4 y1 y2 y3 y4 :
  compare_ge (v4InV6Prefix ++ [a; b; c; d]) (v4InV6Prefix ++ [x1; x2; x3; x4]) &&
  compare_le (v4InV6Prefix ++ [a; b; c; d]) (v4InV6Prefix ++ [y1; y2; y3; y4]) =
    ((value4 x1 x2 x3 x4 <=? value4 a b c d) && (value4 a b c d <=? value4 y1 y2 y3 y4))%N.
Proof.
  unfold compare_ge, compare_le. rewrite !Compare_app, !Compare4.
  unfold N.leb. rewrite (N.compare_antisym (value4 a b c d) (value4 x1 x2 x3 x4)). f_equal.
  by destruct (N.compare (value4 a b c d) (value4 x1 x2 x3 x4)).
Qed.

Lemma dotted_127 a b c d :
  dotted a b c d = bytes_of "127.0.0.1" <-> [a; b; c; d] = ["127"; "000"; "000"; "001"]%char.
Proof.
  split; [|by intros [= -> -> -> ->]]. intros E. pose proof (ParseIP_dotted a b c d) as H.
  rewrite E in H. assert (ParseIP (bytes_of "127.0.0.1") =
    Some (v4InV6Prefix ++ ["127"; "000"; "000"; "001"]%char)) as H2 by (vm_compute; reflexivity).
  rewrite H2 in H. injection H as <- <- <- <-. done.
Qed.

Lemma checkIpPrivite_dotted a b c d : checkIpPrivite (dotted a b c d) = private4 a b c d.
Proof.
  pose proof (byte_N_bound a). pose proof (byte_N_bound b). pose proof (byte_N_bound c).
  pose proof (byte_N_bound d).
  assert (forall x y, byte_N x = byte_N y -> x = y) as Hinj.
  { intros x y E. unfold byte_N in E. rewrite <- (ascii_N_embedding x), <- (ascii_N_embedding y). congruence. }
  unfold checkIpPrivite, private4. case_decide as Hd.
  - apply dotted_127 in Hd. injection Hd as -> -> -> ->. reflexivity.
  - rewrite ParseIP_dotted. cbn [mbind option_bind]. unfold To4.
    rewrite decide_False by done. rewrite decide_True by done.
    cbn [priviteIps existsb].
    change (ParseIP (bytes_of "10.0.0.0")) with (Some (v4InV6Prefix ++ ["010"; "000"; "000"; "000"]%char)).
    change (ParseIP (bytes_of "10.255.255.255")) with (Some (v4InV6Prefix ++ ["010"; "255"; "255"; "255"]%char)).
    change (ParseIP (bytes_of "172.16.0.0")) with (Some (v4InV6Prefix ++ ["172"; "016"; "000"; "000"]%char)).
    change (ParseIP (bytes_of "172.31.255.255")) with (Some (v4InV6Prefix ++ ["172"; "031"; "255"; "255"]%char)).
    change (ParseIP (bytes_of "192.168.0.0")) with (Some (v4InV6Prefix ++ ["192"; "168"; "000"; "000"]%char)).
    change (ParseIP (bytes_of "192.168.255.255")) with (Some (v4InV6Prefix ++ ["192"; "168"; "255"; "255"]%char)).
    cbn [ip1 ip2 from_option]. unfold id. rewrite !block_range, orb_false_r.
    assert (((byte_N a =? 127) && (byte_N b =? 0) && (byte_N c =? 0) && (byte_N d =? 1))%N = false) as ->.
    { apply not_true_iff_false. rewrite !andb_true_iff, !N.eqb_eq. intros [[[E1 E2] E3] E4]. apply Hd.
      apply dotted_127. by rewrite (Hinj a "127"%char E1), (Hinj b "000"%char E2), (Hinj c "000"%char E3), (Hinj d "001"%char E4). }
    assert (forall (p q : bool), (p = true <-> q = true) -> p = q) as Hbool by (by intros [] []; intuition).
    apply Hbool. cbn [orb]. rewrite !orb_true_iff, !andb_true_iff, !N.eqb_eq, !N.leb_le.
    unfold value4. eval_bytes. lia.
Qed.

(** * Addresses *)

Section resolver.
Context (LookupIP : bytes -> list IP).

(** Whether an IP is an IPv4 address in one of the ranges. *)
Definition private_ip (ip : IP) : bool :=
  match To4 ip with
  | Some [a; b; c; d] => private4 a b c d
  | _ => false
  end.

Lemma To4_length ip v : To4 ip = Some v -> exists a b c d, v = [a; b; c; d].
Proof.
  unfold To4. intros H. assert (length v = 4) as Hlen.
  { repeat case_decide; simplify_eq; [done|]. rewrite length_drop. lia. }
  destruct v as [|a [|b [|c [|d [|? ?]]]]]; try done. by exists a, b, c, d.
Qed.

Lemma checkIpPrivite_ip ip : is_Some (To4 ip) -> checkIpPrivite (IP_String ip) = private_ip ip.
Proof.
  intros [v Hv]. unfold IP_String, private_ip. rewrite Hv.
  destruct (To4_length ip v Hv) as (a & b & c & d & ->). apply checkIpPrivite_dotted.
Qed.

(** C29: a host that resolves to IPv4 addresses is private exactly when one of
    them is 127.0.0.1 or lies in 10.0.0.0/8, 172.16.0.0/12 or 192.168.0.0/16. *)
Theorem checkAddrPrivite_ranges host port :
  ":"%char ∉ host -> Forall (fun ip => is_Some (To4 ip)) (LookupIP host) ->
  checkAddrPrivite LookupIP (JoinHostPort host port) = existsb private_ip (LookupIP host).
Proof.
  intros Hh Hall. unfold checkAddrPrivite, JoinHostPort.
  rewrite bool_decide_eq_false_2, split_cons by done. simpl.
  induction Hall as [|ip l Hip _ IH]; [done|]. simpl. by rewrite checkIpPrivite_ip, IH.
Qed.

(** The address of an IPv6 literal is cut at its first colon, and what is
    left begins with the opening bracket; as no such name resolves, no IPv6
    literal is private: neither the loopback address nor any other is denied. *)
Theorem checkAddrPrivite_misses_ipv6 host port :
  ":"%char ∈ host -> (forall name, LookupIP ("["%char :: name) = []) ->
  checkAddrPrivite LookupIP (JoinHostPort host port) = false.
Proof.
  intros Hh Hno. unfold checkAddrPrivite, JoinHostPort. rewrite bool_decide_eq_true_2 by done.
  destruct (list_elem_of_split_l _ _ Hh) as (l1 & l2 & -> & Hl1). rewrite <- app_assoc.
  cbn [app]. rewrite (app_comm_cons l1), split_cons by set_solver. simpl. by rewrite Hno.
Qed.
End resolver.
