(* ===== verification/Socks5.v ===== *)
(** The SOCKS5 front end: [Socks5Client] (wss/proxy_client_socks5.go), the
    choice of the proxy protocol (wss/proxy_client_interface.go) and
    [Client.Reply] (wss/wssocks_client.go), which reads the request of a new
    connection and finds the target address.

    The connection's calls are arguments: the data or error of each [Read], and
    the error of the [Write]. *)
From Stdlib Require Import Ascii.
From S2P Require Import Prelude Net.

(** [ProxyTypeSocks5] and its siblings. *)
Definition ProxyTypeSocks5 : Z := 0.
Definition ProxyTypeHttp : Z := 1.
Definition ProxyTypeHttps : Z := 2.

(** [ProxyTypeStr] *)
Definition ProxyTypeStr (tp : Z) : string :=
  if (tp =? ProxyTypeHttp)%Z then "http"
  else if (tp =? ProxyTypeHttps)%Z then "https"
  else if (tp =? ProxyTypeSocks5)%Z then "socks5"
  else "unknown".

(** A [Read] into a buffer of 1024 bytes. *)
Definition read_res : Type := error + bytes.

(** The interface [ProxyInterface]; [ParseHeader] is given the result of the
    connection's write and read, and returns what it has written as well. *)
Class ProxyInterface (P : Type) := {
  ProxyType : P -> Z;
  Trigger : P -> bytes -> bool;
  ParseHeader : P -> option error -> read_res -> bytes -> bytes * (error + bytes);
  EstablishData : P -> bytes -> error + option bytes;
}.

(** * SOCKS5 *)

Inductive Socks5Client := TheSocks5Client.

Definition socks5_ProxyType (_ : Socks5Client) : Z := ProxyTypeSocks5.

Definition socks5_Trigger (_ : Socks5Client) (data : bytes) : bool :=
  match data with
  | c :: _ :: _ => bool_decide (c = "005"%char)
  | _ => false
  end.

Definition socks5_EstablishData (_ : Socks5Client) (origin : bytes) : error + option bytes := inr None.

(** The whole buffer of 1024 bytes after a read of [data]. *)
Definition filled (data : bytes) : bytes := data ++ replicate (1024 - length data) "000"%char.

Definition at_byte (l : bytes) (i : nat) : byte := default "000"%char (l !! i).

(** [int(port[0])<<8 | int(port[1])] *)
Definition port_number (p0 p1 : byte) : N := N.lor (N.shiftl (byte_N p0) 8) (byte_N p1).

Definition socks5_host (buffer : bytes) : bytes :=
  if decide (at_byte buffer 3 = "001"%char) then IP_String (take 4 (drop 4 buffer))
  else if decide (at_byte buffer 3 = "004"%char) then IP_String (take 16 (drop 4 buffer))
  else if decide (at_byte buffer 3 = "003"%char) then
    take (N.to_nat (byte_N (at_byte buffer 4))) (drop 5 buffer)
  else [].

Definition socks5_ParseHeader (_ : Socks5Client) (write : option error) (read : read_res)
    (header : bytes) : bytes * (error + bytes) :=
  let out := ["005"; "000"]%char in
  match write with
  | Some err => (out, inl err)
  | None =>
      match read with
      | inl err => (out, inl err)
      | inr data =>
          let n := length data in
          let buffer := filled data in
          if Nat.ltb n 6 then (out, inl (errors_New "not a socks protocol"))
          else
            let host := socks5_host buffer in
            let p0 := at_byte buffer (n - 2) in
            let p1 := at_byte buffer (n - 1) in
            (out, inr (JoinHostPort host (Itoa (port_number p0 p1))))
      end
  end.

#[export] Instance socks5_proxy : ProxyInterface Socks5Client :=
  {| ProxyType := socks5_ProxyType; Trigger := socks5_Trigger;
     ParseHeader := socks5_ParseHeader; EstablishData := socks5_EstablishData |}.

(** * Reply *)

(** [Client.Reply]: the data to send at once, the type and the address, and
    what has been written to the connection. *)
Definition Reply (read1 : read_res) (write : option error) (read2 : read_res) :
    bytes * (error + option bytes * Z * bytes) :=
  match read1 with
  | inl err => ([], inl err)
  | inr data =>
      match find (fun p => Trigger p data) [TheSocks5Client] with
      | None => ([], inl (errors_New "only socks5 proxy"))
      | Some matchedInstance =>
          match ParseHeader matchedInstance write read2 data with
          | (out, inl err) => (out, inl err)
          | (out, inr proxyAddr) =>
              match EstablishData matchedInstance data with
              | inl err => (out, inl err)
              | inr firstSendData =>
                  (out, inr (firstSendData, ProxyType matchedInstance, proxyAddr))
              end
          end
      end
  end.

(** * Requests *)

(** The destination of a SOCKS5 request (RFC 1928). *)
Inductive destination :=
  | DstIPv4 (a b c d : byte)
  | DstIPv6 (ip : bytes)
  | DstDomain (name : bytes).

Definition dst_ok (d : destination) : Prop :=
  match d with
  | DstIPv4 _ _ _ _ => True
  | DstIPv6 ip => length ip = 16
  | DstDomain name => 0 < length name <= 255
  end.

(** VER CMD RSV ATYP DST.ADDR DST.PORT *)
Definition dst_bytes (d : destination) : bytes :=
  match d with
  | DstIPv4 a b c d => ["001"; a; b; c; d]%char
  | DstIPv6 ip => "004"%char :: ip
  | DstDomain name => "003"%char :: ascii_of_N (N.of_nat (length name)) :: name
  end.

Definition request (cmd : byte) (d : destination) (p0 p1 : byte) : bytes :=
  ["005"%char; cmd; "000"%char] ++ dst_bytes d ++ [p0; p1].

(** The host of a destination, as text. *)
Definition dst_host (d : destination) : bytes :=
  match d with
  | DstIPv4 a b c d => dotted a b c d
  | DstIPv6 ip => IP_String ip
  | DstDomain name => name
  end.

Lemma port_number_value p0 p1 : port_number p0 p1 = (byte_N p0 * 256 + byte_N p1)%N.
Proof.
  assert (forallb (fun i => forallb (fun j => N.eqb (N.lor (N.shiftl (N.of_nat i) 8) (N.of_nat j))
     (N.of_nat i * 256 + N.of_nat j)) (seq 0 256)) (seq 0 256) = true) as H by (vm_compute; reflexivity).
  assert (forall p, In (N.to_nat (byte_N p)) (seq 0 256)) as Hin.
  { intros p. apply in_seq. pose proof (N_ascii_bounded p). unfold byte_N. lia. }
  rewrite forallb_forall in H. specialize (H _ (Hin p0)).
  rewrite forallb_forall in H. specialize (H _ (Hin p1)). by rewrite N.eqb_eq, !N2Nat.id in H.
Qed.

(** A byte of what was read. *)
Lemma at_filled data i c : data !! i = Some c -> at_byte (filled data) i = c.
Proof. intros H. unfold at_byte, filled. by rewrite (lookup_app_l_Some _ _ _ _ H). Qed.

(** A slice of what was read. *)
Lemma slice_filled pre l post : take (length l) (drop (length pre) (filled (pre ++ l ++ post))) = l.
Proof. unfold filled. rewrite <- !app_assoc, drop_app_length. apply take_app_length. Qed.

(** The host that [ParseHeader] finds in a complete request. *)
Lemma socks5_host_request cmd d p0 p1 :
  dst_ok d -> socks5_host (filled (request cmd d p0 p1)) = dst_host d.
Proof.
  intros Hd. unfold socks5_host, request. destruct d as [a b c d|ip|name].
  - erewrite at_filled by done. rewrite decide_True by done.
    done.
  - erewrite at_filled by done. rewrite decide_False, decide_True by done.
    simpl in Hd. rewrite <- Hd. cbn [dst_host]. f_equal.
    exact (slice_filled ["005"; cmd; "000"; "004"]%char ip [p0; p1]).
  - simpl in Hd. erewrite !at_filled by done. rewrite !decide_False, decide_True by done.
    unfold byte_N. rewrite N_ascii_embedding, Nat2N.id by lia.
    exact (slice_filled ["005"; cmd; "000"; "003"; ascii_of_N (N.of_nat (length name))]%char name [p0; p1]).
Qed.

(** The port is in the last two bytes that were read. *)
Lemma port_request cmd d p0 p1 :
  let r := request cmd d p0 p1 in
  at_byte (filled r) (length r - 2) = p0 /\ at_byte (filled r) (length r - 1) = p1.
Proof.
  intros r. assert (r = ("005"%char :: cmd :: "000"%char :: dst_bytes d) ++ [p0; p1]) as E by done.
  rewrite E. set (l := _ :: _ :: _ :: dst_bytes d). rewrite length_app. clearbody l. cbn [length].
  split; apply at_filled; rewrite lookup_app_r by lia.
  - by replace (length l + 2 - 2 - length l) with 0 by lia.
  - by replace (length l + 2 - 1 - length l) with 1 by lia.
Qed.

(** C28: when a SOCKS5 client greets with version 5 and then sends a complete
    request for a destination and a port, [Reply] answers the greeting with "no
    authentication", and returns that destination and port as a host:port
    address, with nothing to send at once; whatever the request's command is. *)
Theorem Reply_request m methods cmd d p0 p1 :
  dst_ok d ->
  Reply (inr ("005"%char :: m :: methods)) None (inr (request cmd d p0 p1)) =
    (["005"; "000"]%char,
     inr (None, ProxyTypeSocks5,
          JoinHostPort (dst_host d) (Itoa (byte_N p0 * 256 + byte_N p1)%N))).
Proof.
  intros Hd. unfold Reply. change (find _ _) with (Some TheSocks5Client).
  cbn [ParseHeader socks5_proxy]. unfold socks5_ParseHeader.
  assert (Nat.ltb (length (request cmd d p0 p1)) 6 = false) as ->.
  { apply Nat.ltb_ge. unfold request. rewrite !length_app.
    destruct d; simpl in *; rewrite ?length_app; simpl; lia. }
  destruct (port_request cmd d p0 p1) as [-> ->].
  by rewrite socks5_host_request, port_number_value.
Qed.

(** Every failure of [Reply] is an error: a failed read or write, a first
    message that is not SOCKS5, and a request shorter than six bytes; in the
    first and the third case nothing is written to the connection. *)
Theorem Reply_errors err first_ data write read2 :
  Reply (inl err) write read2 = ([], inl err) /\
  (socks5_Trigger TheSocks5Client first_ = false ->
     Reply (inr first_) write read2 = ([], inl (errors_New "only socks5 proxy"))) /\
  (socks5_Trigger TheSocks5Client first_ = true -> write = Some err ->
     Reply (inr first_) write read2 = (["005"; "000"]%char, inl err)) /\
  (socks5_Trigger TheSocks5Client first_ = true -> write = None -> read2 = inl err ->
     Reply (inr first_) write read2 = (["005"; "000"]%char, inl err)) /\
  (socks5_Trigger TheSocks5Client first_ = true -> write = None -> read2 = inr data -> length data < 6 ->
     Reply (inr first_) write read2 =
       (["005"; "000"]%char, inl (errors_New "not a socks protocol"))).
Proof.
  unfold Reply. cbn [find Trigger socks5_proxy ParseHeader].
  split_and!; [done|by intros ->|intros -> ->; done|intros -> -> ->; done|].
  intros -> -> -> Hlen. unfold socks5_ParseHeader. by apply Nat.ltb_lt in Hlen as ->.
Qed.

(** A request with an address type that is none of the three is not refused:
    its host is empty, and the address that is returned, only a port, is the
    proxy server's own. *)
Theorem Reply_unknown_type m methods cmd t l p0 p1 :
  t <> "001"%char -> t <> "003"%char -> t <> "004"%char ->
  Reply (inr ("005"%char :: m :: methods)) None (inr ("005"%char :: cmd :: "000"%char :: t :: l ++ [p0; p1])) =
    (["005"; "000"]%char,
     inr (None, ProxyTypeSocks5, ":"%char :: Itoa (byte_N p0 * 256 + byte_N p1)%N)).
Proof.
  intros H1 H3 H4. unfold Reply. change (find _ _) with (Some TheSocks5Client).
  cbn [ParseHeader socks5_proxy]. unfold socks5_ParseHeader.
  set (r := "005"%char :: cmd :: "000"%char :: t :: l ++ [p0; p1]).
  assert (length r = length l + 6) as Hlen by (unfold r; simpl; rewrite length_app; simpl; lia).
  assert (Nat.ltb (length r) 6 = false) as -> by (apply Nat.ltb_ge; lia).
  assert (at_byte (filled r) (length r - 2) = p0) as ->.
  { apply at_filled. rewrite Hlen. unfold r. replace (length l + 6 - 2) with (S (S (S (S (length l))))) by lia.
    simpl. by rewrite lookup_app_r, Nat.sub_diag by lia. }
  assert (at_byte (filled r) (length r - 1) = p1) as ->.
  { apply at_filled. rewrite Hlen. unfold r. replace (length l + 6 - 1) with (S (S (S (S (length l + 1))))) by lia.
    simpl. rewrite lookup_app_r by lia. by replace (length l + 1 - length l) with 1 by lia. }
  rewrite port_number_value. unfold socks5_host. rewrite (at_filled r 3 t) by done.
  by rewrite !decide_False.
Qed.
