(* ===== verification/ConnRecords.v ===== *)
(** The record of the client's connections (wss/conn_records.go): how many
    there are in all and for each target.  [Update] runs under the record's
    mutex; a count that does not fit ends the process ([logrus.Fatal]), which
    is [None] here. *)
From S2P Require Import Prelude.

Open Scope Z_scope.

(** [ConnStatus] *)
Record ConnStatus := mkStatus { Address : string; IsNew : bool; cs_Type : Z }.

(** [ConnRecord]; [onchange] has the arguments of the calls of [OnChange]. *)
Record ConnRecord := mkRecord {
  ConnSize : Z;                                   (* uint *)
  Addresses : gmap string Z;                      (* of uint *)
  QueueHubLen : Z;
  LinkHubLen : Z;
  onchange : list ConnStatus;
}.

Definition NewConnRecord : ConnRecord := mkRecord 0 ∅ 0 0 [].

(** The counting part of [Update]. *)
Definition count (size : Z) (addresses : gmap string Z) (status : ConnStatus) :
    option (Z * gmap string Z) :=
  if IsNew status then
    let size' := uint64 (size + 1) in
    match addresses !! Address status with
    | Some n => Some (size', <[Address status := uint64 (n + 1)]> addresses)
    | None => Some (size', <[Address status := 1]> addresses)
    end
  else
    let size' := uint64 (size - 1) in
    match addresses !! Address status with
    | Some n =>
        if 0 <? n then
          if uint64 (n - 1) =? 0 then Some (size', delete (Address status) addresses)
          else Some (size', <[Address status := uint64 (n - 1)]> addresses)
        else None
    | None => None
    end.

(** [Update]; [ql] and [ll] are the lengths of the client's hubs. *)
Definition Update (ql ll : Z) (status : ConnStatus) (cr : ConnRecord) : option ConnRecord :=
  match count (ConnSize cr) (Addresses cr) status with
  | Some (size, addresses) => Some (mkRecord size addresses ql ll (onchange cr ++ [status]))
  | None => None
  end.

(** The record after the changes [l]. *)
Fixpoint updates (l : list ConnStatus) (cr : ConnRecord) : option ConnRecord :=
  match l with
  | [] => Some cr
  | st :: l' => cr' ← Update 0 0 st cr; updates l' cr'
  end.

(** * Facts *)

(** The connections to [a] that are open after the changes [l]. *)
Definition weight (a : string) (st : ConnStatus) : Z :=
  if decide (Address st = a) then (if IsNew st then 1 else -1) else 0.

Fixpoint open_to (a : string) (l : list ConnStatus) : Z :=
  match l with
  | [] => 0
  | st :: l' => weight a st + open_to a l'
  end.

Fixpoint open_all (l : list ConnStatus) : Z :=
  match l with
  | [] => 0
  | st :: l' => (if IsNew st then 1 else -1) + open_all l'
  end.

Lemma open_to_app a l k : open_to a (l ++ k) = open_to a l + open_to a k.
Proof. induction l as [|st l IH]; simpl; [done|]. rewrite IH. lia. Qed.

Lemma open_all_app l k : open_all (l ++ k) = open_all l + open_all k.
Proof. induction l as [|st l IH]; simpl; [done|]. rewrite IH. lia. Qed.

Lemma open_to_bound a l : open_to a l <= Z.of_nat (length l).
Proof.
  induction l as [|st l IH]; simpl; [lia|]. unfold weight. repeat case_decide; destruct (IsNew st); lia.
Qed.

Lemma open_all_bound l : - Z.of_nat (length l) <= open_all l <= Z.of_nat (length l).
Proof. induction l as [|st l IH]; simpl; [lia|]. destruct (IsNew st); lia. Qed.

(** A connection is only closed if one to that target is open. *)
Definition balanced (l : list ConnStatus) : Prop :=
  forall l1 st l2, l = l1 ++ st :: l2 -> IsNew st = false -> 0 < open_to (Address st) l1.

(** The record agrees with the changes [l]. *)
Record counted (l : list ConnStatus) (cr : ConnRecord) : Prop := {
  ct_size : ConnSize cr = uint64 (open_all l);
  ct_addr a : Addresses cr !! a = if decide (open_to a l = 0) then None else Some (open_to a l);
  ct_pos a : 0 <= open_to a l;
  ct_log : onchange cr = l;
}.

Lemma uint64_shift a b : uint64 (uint64 a + b) = uint64 (a + b).
Proof. unfold uint64. apply Zplus_mod_idemp_l. Qed.

Definition change (st : ConnStatus) : Z := if IsNew st then 1 else -1.

Lemma open_to_snoc a l st :
  open_to a (l ++ [st]) = open_to a l + (if decide (a = Address st) then change st else 0).
Proof. rewrite open_to_app. simpl. unfold weight, change. repeat case_decide; try congruence; lia. Qed.

(** The record with one more change, whose address then counts [v]. *)
Lemma counted_snoc l st cr n adr ql ll :
  let v := open_to (Address st) l + change st in
  counted l cr -> n = uint64 (ConnSize cr + change st) -> 0 <= v ->
  (forall a, adr !! a = if decide (a = Address st) then (if decide (v = 0) then None else Some v) else Addresses cr !! a) ->
  counted (l ++ [st]) (mkRecord n adr ql ll (onchange cr ++ [st])).
Proof.
  intros v [Hs Ha Hp Hl] -> Hv Hadr. split; simpl.
  - rewrite Hs, uint64_shift, open_all_app. simpl. by rewrite Z.add_0_r.
  - intros a. rewrite Hadr, open_to_snoc. destruct (decide (a = Address st)) as [->|Hd]; [done|by rewrite Ha, Z.add_0_r].
  - intros a. rewrite open_to_snoc. destruct (decide (a = Address st)) as [->|Hd]; [done|]. specialize (Hp a). lia.
  - by rewrite Hl.
Qed.

Lemma Update_counted l st cr ql ll :
  counted l cr -> Z.of_nat (length l) + 1 < 2 ^ 64 ->
  match Update ql ll st cr with
  | Some cr' => counted (l ++ [st]) cr' /\ (IsNew st = false -> 0 < open_to (Address st) l)
  | None => IsNew st = false /\ open_to (Address st) l = 0
  end.
Proof.
  intros Hc Hlen. unfold Update, count. rewrite (ct_addr _ _ Hc).
  pose proof (ct_pos _ _ Hc (Address st)) as Hpos. pose proof (open_to_bound (Address st) l) as Hb.
  destruct (IsNew st) eqn:En.
  - case_decide as H0; (split; [|done]); (apply counted_snoc; unfold change; rewrite ?En; [done|done|lia|]); intros a;
      rewrite lookup_insert; repeat case_decide; try done; try lia; try congruence; f_equal.
    + lia.
    + apply uint64_small. lia.
  - case_decide as H0; [done|]. assert ((0 <? open_to (Address st) l) = true) as -> by lia.
    rewrite uint64_small by lia.
    destruct (Z.eqb_spec (open_to (Address st) l - 1) 0) as [H1|H1];
      (split; [|lia]); (apply counted_snoc; unfold change; rewrite ?En; [done|done|lia|]); intros a.
    + rewrite lookup_delete. repeat case_decide; try done; try lia; congruence.
    + rewrite lookup_insert. repeat case_decide; try done; try lia; congruence.
Qed.

Lemma updates_app l k cr : updates (l ++ k) cr = cr' ← updates l cr; updates k cr'.
Proof.
  revert cr. induction l as [|st l IH]; intros cr; simpl; [done|].
  destruct (Update 0 0 st cr); simpl; [apply IH|done].
Qed.

Lemma counted_init : counted [] NewConnRecord.
Proof. split; simpl; try done. Qed.

Lemma balanced_snoc l st :
  balanced (l ++ [st]) <-> balanced l /\ (IsNew st = false -> 0 < open_to (Address st) l).
Proof.
  split.
  - intros Hb. split; [|by intros; apply (Hb l st [])].
    intros l1 x l2 -> Hx. apply (Hb l1 x (l2 ++ [st])); [|done]. by rewrite <- app_assoc.
  - intros [Hb Hst] l1 x l2 E Hx. destruct l2 as [|y l2 _] using rev_ind.
    + apply app_inj_tail in E as [-> ->]. auto.
    + rewrite app_comm_cons, app_assoc in E. apply app_inj_tail in E as [-> _]. by apply (Hb l1 x l2).
Qed.

(** The total is the sum over the targets. *)
Definition sum_over (f : string -> Z) (A : list string) : Z := foldr (fun a n => f a + n) 0 A.

Lemma sum_weight st A :
  NoDup A -> sum_over (fun a => weight a st) A =
    if decide (Address st ∈ A) then (if IsNew st then 1 else -1) else 0.
Proof.
  induction 1 as [|a A Ha _ IH]; cbn [sum_over foldr]; [done|]. fold (sum_over (fun a => weight a st) A).
  rewrite IH. unfold weight. repeat case_decide; subst; set_solver by lia.
Qed.

Lemma sum_add f g A : sum_over (fun a => f a + g a) A = sum_over f A + sum_over g A.
Proof. unfold sum_over. induction A as [|a A IH]; simpl; [done|]. lia. Qed.

Lemma sum_open l A :
  NoDup A -> (forall st, st ∈ l -> Address st ∈ A) -> sum_over (fun a => open_to a l) A = open_all l.
Proof.
  intros HA. induction l as [|st l IH]; intros Hin.
  - unfold sum_over. simpl. clear. induction A; simpl; [done|]. lia.
  - cbn [open_to open_all]. rewrite sum_add, IH by set_solver. rewrite sum_weight by done.
    rewrite decide_True by set_solver. done.
Qed.

Lemma open_all_pos l : (forall a, 0 <= open_to a l) -> 0 <= open_all l.
Proof.
  intros Hp. rewrite <- (sum_open l (remove_dups (map Address l))).
  - unfold sum_over. induction (remove_dups _) as [|a A IH]; simpl; [done|]. specialize (Hp a). lia.
  - apply NoDup_remove_dups.
  - intros st Hst. apply elem_of_remove_dups, list_elem_of_fmap. eauto.
Qed.

(** The record's counts are exact: after any changes in which a connection is
    only closed if one to its target is open, the process is still alive, the
    total is the number of open connections, each target has its number, and
    no target is listed without a connection; and it is only by closing a
    connection that is not open that the process can end. *)
Lemma updates_counted l :
  Z.of_nat (length l) < 2 ^ 64 ->
  (is_Some (updates l NewConnRecord) <-> balanced l) /\
  forall cr, updates l NewConnRecord = Some cr ->
    ConnSize cr = open_all l /\
    (forall a, Addresses cr !! a = if decide (open_to a l = 0) then None else Some (open_to a l)) /\
    onchange cr = l.
Proof.
  intros Hlen.
  assert (match updates l NewConnRecord with
          | Some cr => counted l cr /\ balanced l
          | None => ~ balanced l
          end) as H.
  { induction l as [|st l IH] using rev_ind.
    { split; [apply counted_init|]. by intros []. }
    rewrite length_app in Hlen. simpl in Hlen. specialize (IH ltac:(lia)).
    rewrite updates_app. pose proof (balanced_snoc l st) as Hbs.
    destruct (updates l NewConnRecord) as [cr|]; simpl; [|tauto].
    destruct IH as [Hc Hb]. pose proof (Update_counted l st cr 0 0 Hc ltac:(lia)) as Hu.
    destruct (Update 0 0 st cr) as [cr'|]; simpl; [by split; tauto|].
    destruct Hu as [En Ho]. rewrite Hbs. intros [_ Hp]. specialize (Hp En). lia. }
  destruct (updates l NewConnRecord) as [cr|].
  - destruct H as [[Hs Ha Hp Hl] Hb]. split; [by split|]. intros cr' [= <-].
    split_and!; [|done|done]. rewrite Hs. apply uint64_small.
    pose proof (open_all_bound l). pose proof (open_all_pos l Hp). lia.
  - split; [|done]. split; [by intros []|done].
Qed.

Close Scope Z_scope.
