(* ===== verification/BufferedWR.v ===== *)
(** A pipe between one writer and one reader (wss/buffered_reader_writer.go).

    [Write] and [Close] hold the mutex; [Read] first waits for a token of the
    channel [update], without the mutex, and only if it finds the buffer empty,
    and then reads with it. *)
From S2P Require Import Prelude GoChan.

Record BufferedWR := mkWR {
  wr_buffer : bytes;
  wr_done : bool;
  wr_update : chan unit;
}.

(** [NewBufferWR] *)
Definition NewBufferWR : BufferedWR := mkWR [] false (make_chan 1).

(** [Close]; [None] is a panic. *)
Definition wr_Close (h : BufferedWR) : option BufferedWR :=
  if wr_done h then Some h
  else c ← chan_close (wr_update h); Some (mkWR (wr_buffer h) true c).

(** [isClosed] *)
Definition isClosed (h : BufferedWR) : bool := wr_done h.

(** The result of a call: it returns, blocks (with the mutex, for [Write]) or
    panics. *)
Inductive wr_result (A : Type) := WRet (h : BufferedWR) (a : A) | WBlocks | WPanics.
Arguments WRet {A} _ _.
Arguments WBlocks {A}.
Arguments WPanics {A}.

(** [Write] *)
Definition wr_Write (p : bytes) (h : BufferedWR) : wr_result (Z * option error) :=
  if wr_done h then WRet h (0%Z, Some (errors_New "write after buffer closed"))
  else if Nat.eqb (length p) 0 then WRet h (0%Z, None)
  else
    let put c := WRet (mkWR (wr_buffer h ++ p) (wr_done h) c) (Z.of_nat (length p), None) in
    if Nat.eqb (length (wr_buffer h)) 0 then
      match chan_send (wr_update h) tt with
      | SendOk c => put c
      | SendBlocks => WBlocks
      | SendPanics => WPanics
      end
    else put (wr_update h).

(** The first half of [Read]: the wait. The boolean tells to go on. *)
Definition wr_wait (h : BufferedWR) : wr_result bool :=
  if Nat.eqb (length (wr_buffer h)) 0 then
    match chan_recv (wr_update h) with
    | RecvOk _ c => WRet (mkWR (wr_buffer h) (wr_done h) c) true
    | RecvZero => WRet h false
    | RecvBlocks => WBlocks
    end
  else WRet h true.

(** The second half, with the mutex: [bytes.Buffer.Read] into [n] bytes. *)
Definition wr_take (n : nat) (h : BufferedWR) : BufferedWR * (bytes * option error) :=
  if wr_done h then (h, ([], Some EOF))
  else match wr_buffer h with
       | [] => (h, ([], if Nat.eqb n 0 then None else Some EOF))
       | _ => (mkWR (drop n (wr_buffer h)) (wr_done h) (wr_update h), (take n (wr_buffer h), None))
       end.

(** [Read] *)
Definition wr_Read (n : nat) (h : BufferedWR) : wr_result (bytes * option error) :=
  match wr_wait h with
  | WRet h1 true => let '(h2, r) := wr_take n h1 in WRet h2 r
  | WRet h1 false => WRet h1 ([], Some EOF)
  | WBlocks => WBlocks
  | WPanics => WPanics
  end.

(** * Facts *)

(** A call, as the process sees it, and what it adds to the bytes written and
    to the bytes read. [Read] is two steps, between which other calls run. *)
Inductive wr_step : BufferedWR -> bytes -> bytes -> BufferedWR -> Prop :=
  | wr_step_write p h h' n err :
      wr_Write p h = WRet h' (n, err) ->
      wr_step h (match err with None => p | Some _ => [] end) [] h'
  | wr_step_wait h h' b : wr_wait h = WRet h' b -> wr_step h [] [] h'
  | wr_step_take n h h' r err : wr_take n h = (h', (r, err)) -> wr_step h [] r h'
  | wr_step_close h h' : wr_Close h = Some h' -> wr_step h [] [] h'.

Inductive wr_steps : BufferedWR -> bytes -> bytes -> BufferedWR -> Prop :=
  | wr_nil h : wr_steps h [] [] h
  | wr_snoc h i o h1 i1 o1 h2 :
      wr_steps h i o h1 -> wr_step h1 i1 o1 h2 -> wr_steps h (i ++ i1) (o ++ o1) h2.

(** The channel is closed exactly when the pipe is done. *)
Definition wr_wf (h : BufferedWR) : Prop := chan_closed (wr_update h) = wr_done h.

Ltac keep_wf := simpl; rewrite ?app_nil_r; split; [congruence|done].

Lemma wr_step_inv h i o h' :
  wr_step h i o h' -> wr_wf h ->
  wr_wf h' /\ wr_buffer h ++ i = o ++ wr_buffer h'.
Proof.
  unfold wr_wf. destruct 1 as [p h h' n err H|h h' b H|n h h' r err H|h h' H]; intros Hwf.
  - unfold wr_Write in H. destruct (wr_done h) eqn:Hd; [simplify_eq; keep_wf|].
    destruct (Nat.eqb_spec (length p) 0) as [Hp|Hp].
    { simplify_eq. apply nil_length_inv in Hp as ->. keep_wf. }
    destruct (Nat.eqb _ _); [|simplify_eq; keep_wf].
    destruct (chan_send _ _) as [c| |] eqn:E; simplify_eq. apply chan_send_inv in E as (_ & E & _). keep_wf.
  - unfold wr_wait in H. destruct (Nat.eqb _ _); [|simplify_eq; keep_wf].
    destruct (chan_recv _) as [x c| |] eqn:E; simplify_eq; [|keep_wf].
    apply chan_recv_ok_inv in E as (_ & E & _). keep_wf.
  - unfold wr_take in H. destruct (wr_done h) eqn:Hd; [simplify_eq; keep_wf|].
    destruct (wr_buffer h) as [|x l] eqn:Hb; simplify_eq; [rewrite Hb; keep_wf|].
    rewrite app_nil_r. cbn [wr_buffer wr_done wr_update]. split; [congruence|]. by rewrite take_drop.
  - unfold wr_Close in H. destruct (wr_done h) eqn:Hd; [simplify_eq; keep_wf|].
    destruct (chan_close _) as [c|] eqn:E; simpl in H; simplify_eq. apply chan_close_inv in E as (_ & E & _).
    keep_wf.
Qed.

(** The pipe keeps the order: whatever the interleaving of writes, reads and
    the closing, what has been read is a prefix of what has been written, the
    rest being in the buffer; and closing never panics. *)
Theorem BufferedWR_fifo i o h :
  wr_steps NewBufferWR i o h -> i = o ++ wr_buffer h /\ is_Some (wr_Close h).
Proof.
  intros Hs. assert (wr_wf h /\ i = o ++ wr_buffer h) as [Hwf ->].
  { remember NewBufferWR as h0 eqn:E. induction Hs as [h|h i o h1 i1 o1 h2 _ IH Hst]; subst; [done|].
    destruct (IH eq_refl) as [Hwf ->]. destruct (wr_step_inv _ _ _ _ Hst Hwf) as [Hwf2 Hb].
    split; [done|]. by rewrite <- !app_assoc, Hb. }
  split; [done|]. unfold wr_Close. destruct (wr_done h) eqn:Hd; [by eexists|].
  unfold chan_close. rewrite Hwf, Hd. by eexists.
Qed.

(** After one write, the read that takes all of it leaves the token behind,
    so that the next read, which should wait for more, reports the end of file
    although the pipe is not closed; and closing the pipe drops what has been
    written and not yet read. *)
Theorem BufferedWR_false_EOF p n :
  0 < length p <= n ->
  exists h1 h2 h3,
    wr_Write p NewBufferWR = WRet h1 (Z.of_nat (length p), None) /\
    wr_Read n h1 = WRet h2 (p, None) /\
    wr_Read n h2 = WRet h3 ([], Some EOF) /\ isClosed h3 = false /\
    (exists h, wr_Close h1 = Some h /\ wr_Read n h = WRet h ([], Some EOF)).
Proof.
  intros Hp. destruct p as [|b p]; [simpl in Hp; lia|].
  exists (mkWR (b :: p) false (mkChan 1 [tt] false)), (mkWR [] false (mkChan 1 [tt] false)), NewBufferWR.
  assert ((n =? 0)%nat = false) as Hn by (apply Nat.eqb_neq; lia).
  split_and!; try done.
  - unfold wr_Read, wr_wait. cbn [wr_buffer length Nat.eqb]. unfold wr_take. cbn [wr_done wr_buffer].
    by rewrite drop_ge, take_ge by lia.
  - unfold wr_Read, wr_wait. simpl. unfold wr_take. simpl. by rewrite Hn.
  - eexists. split; [done|]. done.
Qed.
