(* ===== verification/Version.v ===== *)
(** The negotiation of versions when a websocket has been opened
    (wss/version.go, and [NegotiateVersion] of client/client.go). *)
From S2P Require Import Prelude Json.

Open Scope Z_scope.

Definition VersionCode : Z := 4.
Definition CompVersion : Z := 3.
Definition CoreVersion : string := "0.5.0".

(** [VersionNeg]; the codes are of type [uint]. *)
Record VersionNeg := mkVersion {
  Version : string;
  vn_CompVersion : Z;
  vn_VersionCode : Z;
  EnableStatusPage : bool;
}.

Definition version_zero : VersionNeg := mkVersion "" 0 0 false.

Definition marshal_version (v : VersionNeg) : json :=
  JObj [("version", JStr (json_string (Version v))); ("comp_version", JNum (vn_CompVersion v));
        ("version_code", JNum (vn_VersionCode v)); ("status_page", JBool (EnableStatusPage v))]%string.

Definition dec_version_field (k : string) (j : json) (v : VersionNeg) : option VersionNeg :=
  if name_matches k "version" then
    s ← dec_string (Version v) j; Some (mkVersion s (vn_CompVersion v) (vn_VersionCode v) (EnableStatusPage v))
  else if name_matches k "comp_version" then
    n ← dec_uint (vn_CompVersion v) j; Some (mkVersion (Version v) n (vn_VersionCode v) (EnableStatusPage v))
  else if name_matches k "version_code" then
    n ← dec_uint (vn_VersionCode v) j; Some (mkVersion (Version v) (vn_CompVersion v) n (EnableStatusPage v))
  else if name_matches k "status_page" then
    b ← dec_bool (EnableStatusPage v) j; Some (mkVersion (Version v) (vn_CompVersion v) (vn_VersionCode v) b)
  else Some v.

Definition unmarshal_version (j : json) : option VersionNeg :=
  dec_struct dec_version_field version_zero j.

(** * The two ends

    [wsjson.Read] gives a JSON value or an error of the websocket. *)

Definition json_error : error := errors_New "failed to unmarshal JSON".

Definition read_version (r : error + json) : error + VersionNeg :=
  match r with
  | inl err => inl err
  | inr j => match unmarshal_version j with Some v => inr v | None => inl json_error end
  end.

(** [ExchangeVersion], on the client: what it writes, and its result. *)
Definition client_version : VersionNeg := mkVersion CoreVersion 0 VersionCode false.

Definition ExchangeVersion (write : option error) (read : error + json) : list json * (error + VersionNeg) :=
  ([marshal_version client_version],
   match write with Some err => inl err | None => read_version read end).

(** [NegVersionServer]: it reads, and then writes. *)
Definition server_version (enableStatusPage : bool) : VersionNeg :=
  mkVersion CoreVersion CompVersion VersionCode enableStatusPage.

Definition NegVersionServer (read : error + json) (write : option error) (enableStatusPage : bool) :
    list json * option error :=
  match read_version read with
  | inl err => ([], Some err)
  | inr _ => ([marshal_version (server_version enableStatusPage)], write)
  end.

(** * [NegotiateVersion]

    [exchanges] are the results of [ExchangeVersion] on the client's websockets,
    in their order; [plugin] is the version plugin, if there is one; [url_error]
    is the error of parsing the address of the status page. *)
Definition err_incompatible : error :=
  errors_New "incompatible protocol version of client and server".

(** [None] is the panic of indexing an empty slice. *)
Definition NegotiateVersion (exchanges : list (error + VersionNeg))
    (plugin : option (VersionNeg -> option error)) (url_error : option error) : option (option error) :=
  match exchanges with
  | [] => None
  | inl err :: _ => Some (Some err)
  | inr version :: _ =>
      match plugin with
      | Some OnServerVersion => Some (OnServerVersion version)
      | None =>
          if (VersionCode <? vn_CompVersion version) || (vn_VersionCode version <? VersionCode)
          then Some (Some err_incompatible)
          else if EnableStatusPage version then Some url_error
          else Some None
      end
  end.

(** * Facts *)

Definition is_uint (n : Z) : Prop := 0 <= n < 2 ^ 64.

Lemma unmarshal_marshal_version v :
  json_string (Version v) = Version v -> is_uint (vn_CompVersion v) -> is_uint (vn_VersionCode v) ->
  unmarshal_version (marshal_version v) = Some v.
Proof.
  intros Hv Hc Hn. destruct v as [s c n b]. unfold marshal_version, unmarshal_version. simpl in *.
  rewrite Hv. unfold dec_version_field. simpl. rewrite uint64_small, decide_True by done. simpl.
  by rewrite uint64_small, decide_True.
Qed.

(** Without a plugin, the client accepts a server exactly when the server's
    oldest compatible version is not newer than the client's, and the client's
    is not newer than the server's (the error of the status page's address
    aside); what the other websockets answer does not matter. *)
Theorem NegotiateVersion_accepts v rest url_error :
  NegotiateVersion (inr v :: rest) None url_error = Some None <->
  vn_CompVersion v <= VersionCode <= vn_VersionCode v /\ (EnableStatusPage v = true -> url_error = None).
Proof.
  simpl. unfold VersionCode.
  destruct (Z.ltb_spec 4 (vn_CompVersion v)), (Z.ltb_spec (vn_VersionCode v) 4); simpl;
    try (split; [intros; simplify_eq|lia]).
  destruct (EnableStatusPage v).
  - split; [intros [= ->]; split; [lia|done]|]. intros [_ Hu]. by rewrite Hu.
  - split; [intros _; split; [lia|done]|done].
Qed.

(** The two ends of this program agree: the server reads what the client
    writes, the client reads the server's answer, and accepts it. *)
Theorem versions_agree enableStatusPage :
  exists c s,
    fst (ExchangeVersion None (inr s)) = [c] /\
    NegVersionServer (inr c) None enableStatusPage = ([s], None) /\
    snd (ExchangeVersion None (inr s)) = inr (server_version enableStatusPage) /\
    NegotiateVersion [snd (ExchangeVersion None (inr s))] None None = Some None.
Proof. exists (marshal_version client_version), (marshal_version (server_version enableStatusPage)). by destruct enableStatusPage. Qed.

Close Scope Z_scope.
