(* ===== verification/Status.v ===== *)
(** The status of the service (wss/status/status.go): what the server answers to
    a request for it. *)
From S2P Require Import Prelude Pipe PtrMap Queue QueueHub Link Json Messages Hub Server Version.

Record StatusVersion := mkStatusVersion { VersionStr : string; st_VersionCode : Z; ComVersion : Z }.

Record Info := mkInfo {
  i_Version : StatusVersion;
  ServerBaseUrl : string;
  Socks5Enable : bool;
  Socks5DisableReason : string;
  HttpsEnable : bool;
  HttpsDisableReason : string;
  SSLEnable : bool;
  SSLDisableReason : string;
  ConnKeyEnable : bool;
  ConnKeyDisableReason : string;
}.

(** [UpTime] is a whole number of seconds. *)
Record Statistics := mkStatistics {
  UpTime : Z; Clients : nat; Proxies : nat; QueueLen : nat; LinkLen : nat;
}.

Record Status := mkStatus { st_Info : Info; st_Statistics : Statistics }.

Record handleStatus := mkHandle {
  enableHttp : bool; enableConnKey : bool; setupTime : Z; serverBaseUrl : string;
}.

Definition NewStatusHandle (now : Z) (enableHttp enableConnKey : bool) (wsBaseUrl : string) : handleStatus :=
  mkHandle enableHttp enableConnKey now wsBaseUrl.

(** [duration.Truncate(time.Second)], in seconds. *)
Definition whole_seconds (duration : Z) : Z := Z.quot duration Second.

(** The fields' names in the JSON text. *)
Definition marshal_status (st : Status) : json :=
  let i := st_Info st in
  let c := st_Statistics st in
  let str s := JStr (json_string s) in
  let num n := JNum (Z.of_nat n) in
  JObj [("info", JObj [
          ("version", JObj [
            ("version_str", str (VersionStr (i_Version i)));
            ("version_code", JNum (st_VersionCode (i_Version i)));
            ("compatible_version", JNum (ComVersion (i_Version i)))]);
          ("server_base_url", str (ServerBaseUrl i));
          ("socks5_enabled", JBool (Socks5Enable i));
          ("socks5_disabled_reason", str (Socks5DisableReason i));
          ("http_enabled", JBool (HttpsEnable i));
          ("http_disabled_reason", str (HttpsDisableReason i));
          ("ssl_enabled", JBool (SSLEnable i));
          ("ssl_disabled_reason", str (SSLDisableReason i));
          ("conn_key_enable", JBool (ConnKeyEnable i));
          ("conn_key_disabled_reason", str (ConnKeyDisableReason i))]);
        ("statistics", JObj [
          ("up_time", JNum (UpTime c)); ("clients", num (Clients c)); ("proxies", num (Proxies c));
          ("queue_len", num (QueueLen c)); ("link_len", num (LinkLen c))])].

(** The value at a path of names. *)
Fixpoint json_at (path : list string) (v : json) : option json :=
  match path, v with
  | [], _ => Some v
  | name :: path', JObj l =>
      match list_find (fun kv => fst kv = name) l with
      | Some (_, (_, v')) => json_at path' v'
      | None => None
      end
  | _, _ => None
  end.

Section status.
Context {K : Ksuid} `{!KsuidText K}.

(** [ServeHTTP]: the headers it sets, what it encodes, and the status code if it
    writes one; [encode] is the error of writing the response. *)
Definition status_ServeHTTP (now : Z) (encode : option error) (h : handleStatus) (s : server) :
    list (string * string) * json * option Z :=
  let '(clients, proxies) := GetConnCount s in
  let '(ql, ll) := StaticServer s in
  let status :=
    mkStatus
      (mkInfo (mkStatusVersion CoreVersion VersionCode CompVersion) (serverBaseUrl h)
         true "" (enableHttp h) (if enableHttp h then "" else "disabled")
         false "not support" (enableConnKey h) (if enableConnKey h then "" else "disabled"))
      (mkStatistics (whole_seconds (now - setupTime h)) clients proxies ql ll) in
  ([("Access-Control-Allow-Origin", "*"); ("Access-Control-Allow-Headers", "Content-Type");
    ("Content-Type", "application/json")],
   marshal_status status, match encode with Some _ => Some 500%Z | None => None end).

(** The proxied connections in the pools of the hubs of the collection. *)
Definition pooled (s : server) : nat :=
  sum_list_with (fun e => match sv_hubs s !! snd e with Some h => size (connPool h) | None => 0 end)
    (map_to_list (sv_hc s)).

Lemma GetConnCount_pooled s : GetConnCount s = (size (sv_hc s), pooled s).
Proof.
  unfold GetConnCount, pooled. f_equal. rewrite map_fold_foldr.
  induction (map_to_list (sv_hc s)) as [|[id hp] l IH]; simpl; [done|].
  rewrite IH. unfold GetConnectorSize. by destruct (sv_hubs s !! hp).
Qed.

Lemma whole_seconds_bounds (d k : Z) : (0 < k -> d / k * k <= d < (d / k + 1) * k)%Z.
Proof.
  intros Hk. pose proof (Z.div_mod d k ltac:(lia)) as Hd. pose proof (Z.mod_pos_bound d k Hk) as Hm.
  generalize dependent (d `mod` k)%Z. generalize (d / k)%Z. intros q r Hd Hr. nia.
Qed.

(** The status page tells the truth: the clients are the websockets being
    served, the proxies the connections registered on them, the lengths those
    of the two hubs, the up time the whole seconds since the server was set up;
    and a feature has a reason for being disabled exactly when it is. *)
Theorem status_page now encode h s :
  (setupTime h <= now)%Z ->
  let page := snd (fst (status_ServeHTTP now encode h s)) in
  let statistic name := json_at ["statistics"; name] page in
  let info name := json_at ["info"; name] page in
  statistic "clients" = Some (JNum (Z.of_nat (size (sv_hc s)))) /\
  statistic "proxies" = Some (JNum (Z.of_nat (pooled s))) /\
  statistic "queue_len" = Some (JNum (Z.of_nat (size (pm_map (serverQueueHub s))))) /\
  statistic "link_len" = Some (JNum (Z.of_nat (size (pm_map (serverLinkHub s))))) /\
  (exists u, statistic "up_time" = Some (JNum u) /\
     (u * Second <= now - setupTime h < (u + 1) * Second)%Z) /\
  Forall (fun '(enabled, reason) =>
            info reason = Some (JStr "") <-> info enabled = Some (JBool true))
    [("socks5_enabled", "socks5_disabled_reason"); ("http_enabled", "http_disabled_reason");
     ("ssl_enabled", "ssl_disabled_reason"); ("conn_key_enable", "conn_key_disabled_reason")].
Proof.
  intros Ht. unfold status_ServeHTTP. rewrite GetConnCount_pooled. cbn [StaticServer].
  cbv zeta. split_and!; [done..| |].
  - eexists. split; [reflexivity|]. unfold whole_seconds. cbn [setupTime].
    rewrite Z.quot_div_nonneg by (unfold Second; lia). by apply whole_seconds_bounds.
  - repeat constructor; try done; by destruct (enableHttp h), (enableConnKey h).
Qed.
End status.
