(* ===== verification/Cli.v ===== *)
(** The commands' own checks of their options ([PreRun] of cmd/server/server.go
    and of cmd/client/client.go), and the headers with which the client opens
    its websockets ([CreateServerConn] of client/client.go), up to the server's test of
    the connection key ([ServeHTTP]).

    Of net/http this file has [http.Header], a map from canonical names to lists
    of values, and what becomes of it between the client and the server
    ([send_headers]): invalid names and values are refused, values are trimmed. *)
From Stdlib Require Import Ascii.
From S2P Require Import Prelude Net Server.

(** * Standard library: [strings], [encoding/hex] and [http.Header] *)

Definition HasPrefix (s p : bytes) : bool := bool_decide (take (length p) s = p).
Definition HasSuffix (s p : bytes) : bool := bool_decide (drop (length s - length p) s = p).

(** [strings.IndexByte] *)
Fixpoint IndexByte (s : bytes) (c : ascii) : option nat :=
  match s with
  | [] => None
  | x :: s' => if decide (x = c) then Some 0 else S <$> IndexByte s' c
  end.

Definition is_lower (c : ascii) : bool := (97 <=? byte_N c)%N && (byte_N c <=? 122)%N.
Definition is_upper (c : ascii) : bool := (65 <=? byte_N c)%N && (byte_N c <=? 90)%N.
Definition to_upper (c : ascii) : ascii :=
  if is_lower c then ascii_of_N (byte_N c - 32) else c.
Definition to_lower (c : ascii) : ascii :=
  if is_upper c then ascii_of_N (byte_N c + 32) else c.

(** [strings.ToUpper] on ASCII text *)
Definition ToUpper (s : bytes) : bytes := map to_upper s.

(** [hex.EncodeToString] *)
Definition hex_char (n : N) : ascii := ascii_of_N (if (n <? 10)%N then 48 + n else 87 + n).
Definition hex_EncodeToString (b : bytes) : bytes :=
  concat (map (fun c => [hex_char (byte_N c / 16); hex_char (byte_N c `mod` 16)]) b).

(** [textproto.CanonicalMIMEHeaderKey] *)
Definition header_byte (c : ascii) : bool :=
  is_lower c || is_upper c || ((48 <=? byte_N c)%N && (byte_N c <=? 57)%N) ||
  bool_decide (c ∈ bytes_of "!#$%&'*+-.^_`|~").

Fixpoint canonical_from (upper : bool) (s : bytes) : bytes :=
  match s with
  | [] => []
  | c :: s' => (if upper then to_upper c else to_lower c) :: canonical_from (bool_decide (c = "-"%char)) s'
  end.

Definition CanonicalHeaderKey (s : bytes) : bytes :=
  if forallb header_byte s then canonical_from true s else s.

Abbreviation Header := (gmap bytes (list bytes)).

Definition header_Add (k v : bytes) (h : Header) : Header :=
  let k := CanonicalHeaderKey k in <[k := default [] (h !! k) ++ [v]]> h.
Definition header_Set (k v : bytes) (h : Header) : Header := <[CanonicalHeaderKey k := [v]]> h.
Definition header_Get (k : bytes) (h : Header) : bytes :=
  default [] (head (default [] (h !! CanonicalHeaderKey k))).

(** *** What net/http makes of the headers of a request

    The client refuses a request whose header names are no tokens or whose
    values have a control character other than a tab ([Transport.RoundTrip]);
    it writes each value without the blanks at its ends ([Header.Write]), and the
    server's reader takes those off as well. The headers that net/http and the websocket
    library add or replace on the way have other names than those used here. *)
Definition is_blank (c : ascii) : bool := bool_decide (c ∈ bytes_of " ") || bool_decide (byte_N c ∈ [9; 10; 13]%N).

Fixpoint TrimLeft (s : bytes) : bytes :=
  match s with
  | c :: s' => if is_blank c then TrimLeft s' else s
  | [] => []
  end.

(** [textproto.TrimString] *)
Definition TrimString (s : bytes) : bytes := rev (TrimLeft (rev (TrimLeft s))).

Definition ValidHeaderFieldValue (s : bytes) : bool :=
  forallb (fun c => negb ((byte_N c <? 32)%N || (byte_N c =? 127)%N) || (byte_N c =? 9)%N) s.

Definition ValidHeaderFieldName (s : bytes) : bool := bool_decide (s <> []) && forallb header_byte s.

Definition valid_headers (h : Header) : Prop :=
  map_Forall (fun k vs => ValidHeaderFieldName k = true /\ Forall (fun v => ValidHeaderFieldValue v = true) vs) h.

(** The headers that the server gets; [None] when the client refuses to send. *)
Definition send_headers (h : Header) : option Header :=
  if decide (valid_headers h) then Some (map TrimString <$> h) else None.

(** * The server's command *)

Record server := mkServerCmd {
  srv_address : bytes;
  wsBasePath : bytes;
  http_enable : bool;
  authEnable : bool;
  authKey : bytes;
  tls_enable : bool;
  tlsCertFile : bytes;
  tlsKeyFile : bytes;
  status_enable : bool;
}.

Definition set_authKey (k : bytes) (s : server) : server :=
  mkServerCmd (srv_address s) (wsBasePath s) (http_enable s) (authEnable s) k (tls_enable s)
    (tlsCertFile s) (tlsKeyFile s) (status_enable s).
Definition set_wsBasePath (p : bytes) (s : server) : server :=
  mkServerCmd (srv_address s) p (http_enable s) (authEnable s) (authKey s) (tls_enable s)
    (tlsCertFile s) (tlsKeyFile s) (status_enable s).

(** [genRandBytes]: [random] is the outcome of [rand.Read]. *)
Definition genRandBytes (n : nat) (random : error + bytes) : error + bytes :=
  match random with
  | inl err => inl err
  | inr b => inr (take n b)
  end.

Definition server_PreRun (random : error + bytes) (s : server) : error + server :=
  let withkey :=
    if authEnable s && bool_decide (authKey s = []) then
      match genRandBytes 12 random with
      | inl err => inl err
      | inr b => inr (set_authKey (ToUpper (hex_EncodeToString b)) s)
      end
    else inr s in
  match withkey with
  | inl err => inl err
  | inr s1 =>
      let p1 := if bool_decide (wsBasePath s1 = []) then bytes_of "/" else wsBasePath s1 in
      let p2 := if HasPrefix p1 (bytes_of "/") then p1 else bytes_of "/" ++ p1 in
      let p3 := if HasSuffix p2 (bytes_of "/") then p2 else p2 ++ bytes_of "/" in
      inr (set_wsBasePath p3 s1)
  end.

(** * The client's command *)

(** [url.URL], as its scheme and the rest of its text. *)
Record URL := mkURL { Scheme : bytes; url_rest : bytes }.

(** [remoteUrl] is [None] for a nil pointer, and [remoteHeaders] for a nil map. *)
Record client := mkClientCmd {
  cli_address : bytes;
  remote : bytes;
  remoteUrl : option URL;
  headers : list bytes;          (* the flag -ws-header, repeated *)
  connectNum : Z;
  remoteHeaders : option Header;
  key : bytes;
  skipTLSVerify : bool;
}.

(** [listFlags.Set] *)
Definition listFlags_Set (l : list bytes) (value : bytes) : list bytes := l ++ [value].

Definition bad_header (h : bytes) : error :=
  errors_New (String.append "bad http header in websocket request: " (string_of h)).

(** The loop over the headers. *)
Fixpoint parse_headers (l : list bytes) (h : Header) : error + Header :=
  match l with
  | [] => inr h
  | header :: l' =>
      match IndexByte header "="%char with
      | None => inl (bad_header header)
      | Some index =>
          if index + 1 =? length header then inl (bad_header header)
          else parse_headers l' (header_Add (take index header) (drop (index + 1) header) h)
      end
  end.

(** [parsed] is the result of [url.Parse] on the remote address. *)
Definition client_PreRun (parsed : error + URL) (c : client) : error + client :=
  if bool_decide (remote c = []) then inl (errors_New "empty remote address")
  else match parsed with
  | inl err => inl err
  | inr u =>
      let n := if (connectNum c <? 1)%Z then 1%Z else connectNum c in
      match parse_headers (headers c) ∅ with
      | inl err => inl err
      | inr h => inr (mkClientCmd (cli_address c) (remote c) (Some u) (headers c) n (Some h) (key c)
                        (skipTLSVerify c))
      end
  end.

(** The part of [CreateServerConn] that sets the headers of the requests. *)
Definition connection_headers (ConnectionKey : bytes) (h : Header) : Header :=
  if bool_decide (ConnectionKey <> []) then header_Set (bytes_of "Key") ConnectionKey h else h.

(** [for i := 0; i < c.ConnectNum; i++]: [dial i] is the outcome of the i-th
    dial; the first error ends the loop. *)
Fixpoint dial_from (dial : nat -> option error) (i n : nat) : error + nat :=
  match n with
  | 0 => inr i
  | S n' =>
      match dial i with
      | Some err => inl (errors_New (String.append "establishing connection error: " (Error err)))
      | None => dial_from dial (S i) n'
      end
  end.

(** * Facts on strings and headers *)

Lemma HasPrefix_app p s : HasPrefix (p ++ s) p = true.
Proof. unfold HasPrefix. rewrite take_app_length. by apply bool_decide_eq_true. Qed.

Lemma HasPrefix_inv s p : HasPrefix s p = true -> exists r, s = p ++ r.
Proof.
  intros H%bool_decide_eq_true. exists (drop (length p) s). by rewrite <- H at 1; rewrite take_drop.
Qed.

Lemma HasSuffix_app p s : HasSuffix (s ++ p) p = true.
Proof.
  unfold HasSuffix. rewrite length_app, Nat.add_sub, drop_app_length. by apply bool_decide_eq_true.
Qed.

Lemma IndexByte_app k v c : c ∉ k -> IndexByte (k ++ c :: v) c = Some (length k).
Proof.
  intros Hk. induction k as [|x k IH]; simpl; [by rewrite decide_True|].
  rewrite decide_False, IH by set_solver. done.
Qed.

Lemma header_lookup_Add k v h k' :
  default [] (header_Add k v h !! k') =
    default [] (h !! k') ++ (if decide (CanonicalHeaderKey k = k') then [v] else []).
Proof.
  unfold header_Add. cbv zeta. case_decide as Hk; [subst k'|].
  - by rewrite lookup_insert_eq.
  - by rewrite lookup_insert_ne, app_nil_r.
Qed.

(** * Properties *)

(** The server's base path begins and ends with a slash after [PreRun], a
    path that does already is kept, and a server with authentication and no key
    gets a random one of 24 characters; a key that was given is kept. *)
Theorem server_PreRun_ok random s s' :
  (forall b, random = inr b -> length b = 12) -> server_PreRun random s = inr s' ->
  HasPrefix (wsBasePath s') (bytes_of "/") = true /\ HasSuffix (wsBasePath s') (bytes_of "/") = true /\
  (HasPrefix (wsBasePath s) (bytes_of "/") = true -> HasSuffix (wsBasePath s) (bytes_of "/") = true ->
   wsBasePath s' = wsBasePath s) /\
  (if authEnable s && bool_decide (authKey s = []) then length (authKey s') = 24
   else authKey s' = authKey s).
Proof.
  intros Hrnd. unfold server_PreRun, genRandBytes.
  assert (forall k, let p1 := if bool_decide (wsBasePath s = []) then bytes_of "/" else wsBasePath s in
      let p2 := if HasPrefix p1 (bytes_of "/") then p1 else bytes_of "/" ++ p1 in
      let p3 := if HasSuffix p2 (bytes_of "/") then p2 else p2 ++ bytes_of "/" in
      s' = set_wsBasePath p3 (set_authKey k s) ->
      HasPrefix (wsBasePath s') (bytes_of "/") = true /\ HasSuffix (wsBasePath s') (bytes_of "/") = true /\
      (HasPrefix (wsBasePath s) (bytes_of "/") = true -> HasSuffix (wsBasePath s) (bytes_of "/") = true ->
       wsBasePath s' = wsBasePath s)) as Hpath.
  { intros k p1 p2 p3 ->. cbn [wsBasePath set_wsBasePath].
    assert (HasPrefix p2 (bytes_of "/") = true) as H2.
    { unfold p2. destruct (HasPrefix p1 _) eqn:E; [done|apply HasPrefix_app]. }
    split_and!.
    - unfold p3. destruct (HasSuffix p2 _); [done|]. apply HasPrefix_inv in H2 as [r ->].
      rewrite <- app_assoc. apply HasPrefix_app.
    - unfold p3. destruct (HasSuffix p2 _) eqn:E; [done|apply HasSuffix_app].
    - intros Ha Hb. assert (p1 = wsBasePath s) as E1.
      { unfold p1. case_bool_decide as Hn; [|done]. by rewrite Hn in Ha. }
      unfold p3, p2. by rewrite E1, Ha, Hb. }
  destruct (authEnable s && bool_decide (authKey s = [])) eqn:Ek.
  - destruct random as [err|b]; [done|]. intros [= <-]. specialize (Hpath _ eq_refl).
    split_and!; try apply Hpath. simpl. unfold ToUpper, hex_EncodeToString.
    rewrite length_map, take_ge by (by rewrite (Hrnd b)). pose proof (Hrnd b eq_refl) as Hb.
    do 13 (destruct b as [|? b]; try done).
  - intros [= <-]. specialize (Hpath (authKey s)). destruct s.
    specialize (Hpath eq_refl). split_and!; try apply Hpath. done.
Qed.

(** The loop over the headers, on headers of the form key=value. *)
Lemma parse_headers_ok (kvs : list (bytes * bytes)) h :
  Forall (fun kv => "="%char ∉ fst kv) kvs ->
  if decide (Forall (fun kv => snd kv <> []) kvs)
    then exists h', parse_headers (map (fun kv => fst kv ++ "="%char :: snd kv) kvs) h = inr h' /\
         forall name, default [] (h' !! name) = default [] (h !! name) ++
           omap (fun kv => if decide (CanonicalHeaderKey (fst kv) = name) then Some (snd kv) else None) kvs
    else exists err, parse_headers (map (fun kv => fst kv ++ "="%char :: snd kv) kvs) h = inl err.
Proof.
  intros Hk. revert h. induction Hk as [|[k v] kvs Hkv _ IH]; intros h; simpl in *.
    - exists h. split; [done|]. intros name. by rewrite app_nil_r.
    - rewrite IndexByte_app, length_app by done. simpl.
      destruct (Nat.eqb_spec (length k + 1) (length k + S (length v))) as [E|E].
      + rewrite decide_False; [by eexists|]. rewrite Forall_cons. intros [Hv _]. destruct v; simpl in *; [done|lia].
      + rewrite take_app_length. replace (drop (length k + 1) (k ++ "="%char :: v)) with v
          by (rewrite <- drop_drop, drop_app_length; done).
        specialize (IH (header_Add k v h)).
        destruct (decide (Forall _ kvs)) as [Hf|Hf].
        * rewrite decide_True by (constructor; [destruct v; simpl in *; [lia|done]|done]).
          destruct IH as (h' & -> & IH). exists h'. split; [done|]. intros name.
          rewrite IH, header_lookup_Add, <- app_assoc. by case_decide.
        * rewrite decide_False; [done|]. rewrite Forall_cons. by intros [_ ?].
Qed.

(** Every header given as key=value, with a key free of the equals sign and
    a value that is not empty, is sent: the values of a name are those of the
    flags whose key has the same canonical form, in their order; a header of
    another form is an error. *)
Theorem client_PreRun_headers u c (kvs : list (bytes * bytes)) :
  remote c <> [] -> headers c = map (fun kv => fst kv ++ "="%char :: snd kv) kvs ->
  Forall (fun kv => "="%char ∉ fst kv) kvs ->
  if decide (Forall (fun kv => snd kv <> []) kvs)
  then exists c' h, client_PreRun (inr u) c = inr c' /\ (1 <= connectNum c')%Z /\ remoteHeaders c' = Some h /\
         forall name, default [] (h !! name) =
           omap (fun kv => if decide (CanonicalHeaderKey (fst kv) = name) then Some (snd kv) else None) kvs
  else exists err, client_PreRun (inr u) c = inl err.
Proof.
  intros Hr Hh Hk. unfold client_PreRun. rewrite bool_decide_false by done. rewrite Hh. clear Hh.
  pose proof (parse_headers_ok kvs ∅ Hk) as Hp.
  case_decide as Hf.
  - destruct Hp as (h' & -> & Hh'). eexists _, h'. split; [done|]. simpl.
    split; [destruct (Z.ltb_spec (connectNum c) 1); lia|]. split; [done|]. intros name. by rewrite Hh', lookup_empty.
  - destruct Hp as [err ->]. by exists err.
Qed.

Lemma TrimLeft_idem s : TrimLeft (TrimLeft s) = TrimLeft s.
Proof. induction s as [|c s IH]; [done|]. simpl. destruct (is_blank c) eqn:E; [done|]. simpl. by rewrite E. Qed.

(** What [TrimLeft] leaves alone. *)
Lemma TrimLeft_fixed s : TrimLeft s = s <-> match s with c :: _ => is_blank c = false | [] => True end.
Proof.
  destruct s as [|c s]; simpl; [done|]. destruct (is_blank c) eqn:E; [|done]. split; [|done]. intros H.
  assert (length (TrimLeft s) <= length s) as Hl.
  { clear. induction s as [|c s IH]; simpl; [done|]. destruct (is_blank c); simpl; lia. }
  rewrite H in Hl. simpl in Hl. lia.
Qed.

Lemma TrimLeft_suffix s : TrimLeft s `suffix_of` s.
Proof.
  induction s as [|c s IH]; simpl; [done|]. destruct (is_blank c); [by apply suffix_cons_r|done].
Qed.

Lemma TrimString_idem s : TrimString (TrimString s) = TrimString s.
Proof.
  unfold TrimString. set (u := TrimLeft s). set (w := rev (TrimLeft (rev u))).
  assert (TrimLeft w = w) as ->.
  { apply TrimLeft_fixed. destruct w as [|c w'] eqn:Ew; [done|].
    assert (w `prefix_of` u) as [r Hr].
    { unfold w. destruct (TrimLeft_suffix (rev u)) as [r Hr]. exists (rev r).
      rewrite <- (rev_involutive u), Hr at 1. by rewrite rev_app_distr. }
    rewrite Ew in Hr. pose proof (proj1 (TrimLeft_fixed u) (TrimLeft_idem s)) as Hu. by rewrite Hr in Hu. }
  unfold w. by rewrite rev_involutive, TrimLeft_idem.
Qed.

Lemma header_Get_sent k h h' :
  send_headers h = Some h' -> header_Get k h' = TrimString (header_Get k h).
Proof.
  unfold send_headers. case_decide; [|done]. intros [= <-]. unfold header_Get. rewrite lookup_fmap.
  by destruct (h !! CanonicalHeaderKey k) as [[|v vs]|].
Qed.

(** C32: authentication, from the client's options to the acceptance of the
    websocket. When the user's headers are in order, the request is sent unless
    the connection key has a control character; a server that demands a key lets
    it through to [websocket.Accept] exactly when its own key is the client's,
    less the blanks at the ends that HTTP takes off. A key given to the client
    overrides any header of the user, under whatever spelling, and without one
    the user's header counts. A server whose own key begins or ends with a blank
    lets nobody through. (No request plugin changes the headers.) *)
Theorem connection_key_checked {K : Ksuid} `{!Messages.KsuidText K} config now ConnectionKey h sv :
  EnableConnKey config = true -> valid_headers h ->
  match send_headers (connection_headers ConnectionKey h) with
  | None => ValidHeaderFieldValue ConnectionKey = false
  | Some h' =>
      (ServeHTTP_step config now HKey (HEvHeader (string_of (header_Get (bytes_of "Key") h'))) sv =
         Finished (sv, HAccept, []) <->
       ConnKey config =
         string_of (TrimString (if bool_decide (ConnectionKey = []) then header_Get (bytes_of "Key") h
                                else ConnectionKey))) /\
      (TrimString (bytes_of (ConnKey config)) <> bytes_of (ConnKey config) ->
       ServeHTTP_step config now HKey (HEvHeader (string_of (header_Get (bytes_of "Key") h'))) sv =
         Finished (sv, HEnd, [WriteHeader 401; WriteBody ("Access denied!" ++ String "010" "")]))
  end.
Proof.
  intros He Hv. destruct (send_headers _) as [h'|] eqn:Es.
  - assert (header_Get (bytes_of "Key") h' = TrimString
            (if bool_decide (ConnectionKey = []) then header_Get (bytes_of "Key") h else ConnectionKey)) as ->.
    { rewrite (header_Get_sent _ _ _ Es). f_equal. unfold connection_headers.
      destruct ConnectionKey as [|c l] eqn:E; simpl; [done|].
      unfold header_Get, header_Set. by rewrite lookup_insert_eq. }
    generalize (if bool_decide (ConnectionKey = []) then header_Get (bytes_of "Key") h else ConnectionKey) as key.
    intros key. simpl. rewrite He. simpl. destruct (String.eqb_spec (string_of (TrimString key)) (ConnKey config)) as [E|E]; simpl.
    + split; [by split; congruence|]. rewrite <- E, bytes_of_string_of, TrimString_idem. done.
    + split; [split; congruence|done].
  - unfold send_headers, connection_headers in Es. case_decide as Hd; [done|].
    case_bool_decide as Hk; [|done]. destruct (ValidHeaderFieldValue ConnectionKey) eqn:E; [|done].
    destruct Hd. unfold header_Set. apply map_Forall_insert_2; [|done]. split; [by vm_compute|]. by constructor.
Qed.
