(* ===== verification/Flags.v ===== *)
(** The options of the two commands on the command line ([init] of
    cmd/client/client.go and of cmd/server/server.go), and what [PreRun] makes of
    them (Cli.v).

    Of package flag this file has [FlagSet.Parse]: [parse_flag] is its parseOne, on
    the arguments that are left.  A flag set is a list of flags; a flag knows how
    its variable is set from a text.  The parser of integers, strconv.ParseInt
    with base 0, is a parameter. *)
From Stdlib Require Import Ascii.
From S2P Require Import Prelude Net Cli.

(** * Standard library: [flag] and [strconv.ParseBool] *)

Definition ParseBool (s : bytes) : option bool :=
  if bool_decide (s ∈ map bytes_of ["1"; "t"; "T"; "true"; "TRUE"; "True"]) then Some true
  else if bool_decide (s ∈ map bytes_of ["0"; "f"; "F"; "false"; "FALSE"; "False"]) then Some false
  else None.

(** [flag.Value]: setting it may fail; a boolean flag may stand without a value. *)
Record flag (S : Type) := mkFlag {
  fl_name : bytes;
  fl_bool : bool;
  fl_Set : bytes -> S -> option S;
}.
Arguments mkFlag {S} _ _ _.
Arguments fl_name {S} _.
Arguments fl_bool {S} _.
Arguments fl_Set {S} _ _ _.

Definition StringVar {S} (set : bytes -> S -> S) (name : string) : flag S :=
  mkFlag (bytes_of name) false (fun v s => Some (set v s)).
Definition BoolVar {S} (set : bool -> S -> S) (name : string) : flag S :=
  mkFlag (bytes_of name) true (fun v s => b ← ParseBool v; Some (set b s)).

(** What a call of [Parse] ends with: the options and the arguments left, an error
    (the text of its message is left out), or [flag.ErrHelp]. *)
Inductive parsed (S : Type) :=
  | Parsed (s : S) (args : list bytes)
  | BadSyntax (arg : bytes)
  | NotDefined (name : bytes)
  | NeedsArgument (name : bytes)
  | InvalidValue (name value : bytes)
  | ErrHelp.
Arguments Parsed {S} _ _.
Arguments BadSyntax {S} _.
Arguments NotDefined {S} _.
Arguments NeedsArgument {S} _.
Arguments InvalidValue {S} _ _.
Arguments ErrHelp {S}.

(** How an argument reads. *)
Inductive flag_arg :=
  | NoFlag                                    (* the arguments end here *)
  | Terminator                                (* "--" *)
  | Malformed
  | FlagArg (name : bytes) (value : option bytes).

Definition dash : ascii := "-"%char.
Definition equals : ascii := "="%char.

(** The part of parseOne that looks at one argument. *)
Definition read_flag (s : bytes) : flag_arg :=
  match s with
  | c :: x :: r =>
      if decide (c = dash) then
        let name := if decide (x = dash) then r else x :: r in
        match name with
        | [] => Terminator
        | y :: name' =>
            if decide (y = dash) then Malformed
            else if decide (y = equals) then Malformed
            else match IndexByte name' equals with
                 | Some i => FlagArg (y :: take i name') (Some (drop (i + 1) name'))
                 | None => FlagArg name None
                 end
        end
      else NoFlag
  | _ => NoFlag
  end.

Section parse.
Context {S : Type} (formal : list (flag S)).

Definition find_flag (name : bytes) : option (flag S) :=
  head (filter (fun f => fl_name f = name) formal).

(** [FlagSet.Parse] *)
Fixpoint Parse (args : list bytes) (s : S) : parsed S :=
  match args with
  | [] => Parsed s []
  | arg :: rest =>
      match read_flag arg with
      | NoFlag => Parsed s args
      | Terminator => Parsed s rest
      | Malformed => BadSyntax arg
      | FlagArg name value =>
          match find_flag name with
          | None =>
              if bool_decide (name = bytes_of "help" \/ name = bytes_of "h") then ErrHelp else NotDefined name
          | Some f =>
              if fl_bool f then
                let v := default (bytes_of "true") value in
                match fl_Set f v s with
                | Some s' => Parse rest s'
                | None => InvalidValue name v
                end
              else
                match value with
                | Some v => match fl_Set f v s with
                            | Some s' => Parse rest s'
                            | None => InvalidValue name v
                            end
                | None => match rest with
                          | v :: rest' => match fl_Set f v s with
                                          | Some s' => Parse rest' s'
                                          | None => InvalidValue name v
                                          end
                          | [] => NeedsArgument name
                          end
                end
          end
      end
  end.
End parse.

(** * The client's flags *)

Section client.
Context (ParseInt : bytes -> option Z).

Definition set_cli_address v c :=
  mkClientCmd v (remote c) (remoteUrl c) (headers c) (connectNum c) (remoteHeaders c) (key c) (skipTLSVerify c).
Definition set_cli_remote v c :=
  mkClientCmd (cli_address c) v (remoteUrl c) (headers c) (connectNum c) (remoteHeaders c) (key c) (skipTLSVerify c).
Definition set_headers v c :=
  mkClientCmd (cli_address c) (remote c) (remoteUrl c) v (connectNum c) (remoteHeaders c) (key c) (skipTLSVerify c).
Definition set_connectNum v c :=
  mkClientCmd (cli_address c) (remote c) (remoteUrl c) (headers c) v (remoteHeaders c) (key c) (skipTLSVerify c).
Definition set_cli_key v c :=
  mkClientCmd (cli_address c) (remote c) (remoteUrl c) (headers c) (connectNum c) (remoteHeaders c) v (skipTLSVerify c).
Definition set_skipTLSVerify v c :=
  mkClientCmd (cli_address c) (remote c) (remoteUrl c) (headers c) (connectNum c) (remoteHeaders c) (key c) v.

(** The variable [client] of [init], as the declarations leave it. *)
Definition client_defaults : client :=
  mkClientCmd (bytes_of ":1080") [] None [] 4 None [] false.

Definition client_flags : list (flag client) :=
  [StringVar set_cli_address "addr";
   StringVar set_cli_remote "remote";
   mkFlag (bytes_of "nums") false (fun v c => n ← ParseInt v; Some (set_connectNum n c));
   StringVar set_cli_key "key";
   mkFlag (bytes_of "ws-header") false (fun v c => Some (set_headers (listFlags_Set (headers c) v) c));
   BoolVar set_skipTLSVerify "skip-tls-verify"].
End client.

(** * The server's flags *)

Definition set_srv_address v s :=
  mkServerCmd v (wsBasePath s) (http_enable s) (authEnable s) (authKey s) (tls_enable s) (tlsCertFile s) (tlsKeyFile s) (status_enable s).
Definition set_http v s :=
  mkServerCmd (srv_address s) (wsBasePath s) v (authEnable s) (authKey s) (tls_enable s) (tlsCertFile s) (tlsKeyFile s) (status_enable s).
Definition set_auth v s :=
  mkServerCmd (srv_address s) (wsBasePath s) (http_enable s) v (authKey s) (tls_enable s) (tlsCertFile s) (tlsKeyFile s) (status_enable s).
Definition set_tls v s :=
  mkServerCmd (srv_address s) (wsBasePath s) (http_enable s) (authEnable s) (authKey s) v (tlsCertFile s) (tlsKeyFile s) (status_enable s).
Definition set_tlsCertFile v s :=
  mkServerCmd (srv_address s) (wsBasePath s) (http_enable s) (authEnable s) (authKey s) (tls_enable s) v (tlsKeyFile s) (status_enable s).
Definition set_tlsKeyFile v s :=
  mkServerCmd (srv_address s) (wsBasePath s) (http_enable s) (authEnable s) (authKey s) (tls_enable s) (tlsCertFile s) v (status_enable s).
Definition set_srv_status v s :=
  mkServerCmd (srv_address s) (wsBasePath s) (http_enable s) (authEnable s) (authKey s) (tls_enable s) (tlsCertFile s) (tlsKeyFile s) v.

Definition server_defaults : server :=
  mkServerCmd (bytes_of ":1088") (bytes_of "/") true false [] false [] [] false.

Definition server_flags : list (flag server) :=
  [StringVar set_srv_address "addr";
   StringVar set_wsBasePath "ws_base_path";
   BoolVar set_http "http";
   BoolVar set_auth "auth";
   StringVar set_authKey "auth_key";
   BoolVar set_tls "tls";
   StringVar set_tlsCertFile "tls-cert-file";
   StringVar set_tlsKeyFile "tls-key-file";
   BoolVar set_srv_status "status"].

(** * Every spelling of a setting has the same effect *)

(** [-name=value] or [-name value], with one dash or two; [-name] alone gives a
    boolean flag the value true. *)
Inductive spelling := Joined (two : bool) | Separate (two : bool) | Bare (two : bool).

Definition dashes (two : bool) : bytes := if two then [dash; dash] else [dash].

Definition spell (sp : spelling) (name v : bytes) : list bytes :=
  match sp with
  | Joined two => [dashes two ++ name ++ (equals :: v)]
  | Separate two => [dashes two ++ name; v]
  | Bare two => [dashes two ++ name]
  end.

(** What the names of flags are like. *)
Definition name_ok (name : bytes) : bool :=
  match name with [] => false | c :: _ => bool_decide (c <> dash) end && bool_decide (equals ∉ name).

Section settings.
Context {S : Type} (formal : list (flag S)).

(** The settings one after the other. *)
Fixpoint settings (l : list (bytes * bytes)) (s : S) : option S :=
  match l with
  | [] => Some s
  | (n, v) :: l' => f ← find_flag formal n; s' ← fl_Set f v s; settings l' s'
  end.

(** A boolean flag does not take the next argument for its value, and only such
    a flag can stand alone. *)
Definition spelling_ok (sp : spelling) (name v : bytes) : bool :=
  match find_flag formal name, sp with
  | Some f, Joined _ => true
  | Some f, Separate _ => negb (fl_bool f)
  | Some f, Bare _ => fl_bool f && bool_decide (v = bytes_of "true")
  | None, _ => false
  end.

Lemma IndexByte_none s c : c ∉ s -> IndexByte s c = None.
Proof.
  induction s as [|x s IH]; intros Hs; [done|]. simpl. rewrite decide_False by set_solver.
  rewrite IH by set_solver. done.
Qed.

Lemma read_flag_dashes two name w :
  name_ok name -> read_flag (dashes two ++ name ++ w) = read_flag (dash :: name ++ w).
Proof.
  unfold name_ok. destruct two; [|done]. destruct name as [|c name]; [done|].
  intros [Hc%bool_decide_unpack _]%andb_prop_elim. unfold read_flag. simpl. by rewrite !(decide_False (P := c = dash)).
Qed.

(** A name, and then a value or the end. *)
Lemma read_flag_name two name w :
  name_ok name -> w = [] \/ head w = Some equals ->
  read_flag (dashes two ++ name ++ w) = FlagArg name (match w with [] => None | _ :: v => Some v end).
Proof.
  intros Hn Hw. rewrite read_flag_dashes by done. revert Hn. unfold name_ok. destruct name as [|c name]; [done|].
  intros [Hc%bool_decide_unpack He%bool_decide_unpack]%andb_prop_elim.
  apply not_elem_of_cons in He as [He Hn]. unfold read_flag. simpl.
  rewrite !(decide_False (P := c = dash)), !(decide_False (P := c = equals)) by done.
  destruct w as [|x v].
  - by rewrite app_nil_r, IndexByte_none.
  - destruct Hw as [?|[= ->]]; [done|]. rewrite IndexByte_app, take_app_length by done.
    by rewrite <- drop_drop, drop_app_length.
Qed.

(** One setting: its value is taken or refused. *)
Lemma Parse_setting sp name v rest s f :
  name_ok name -> spelling_ok sp name v -> find_flag formal name = Some f ->
  Parse formal (spell sp name v ++ rest) s =
    match fl_Set f v s with Some s' => Parse formal rest s' | None => InvalidValue name v end.
Proof.
  intros Hn Hsp Hf. unfold spelling_ok in Hsp. rewrite Hf in Hsp. destruct sp as [two|two|two]; simpl.
  - rewrite read_flag_name by auto. simpl. rewrite Hf. by destruct (fl_bool f).
  - rewrite <- (app_nil_r name) at 1. rewrite read_flag_name by auto. rewrite Hf. by destruct (fl_bool f).
  - rewrite <- (app_nil_r name) at 1. rewrite read_flag_name by auto. rewrite Hf.
    apply andb_prop_elim in Hsp as [Hb ->%bool_decide_unpack]. by destruct (fl_bool f).
Qed.

Lemma Parse_settings l rest s s' :
  Forall (fun '(sp, (name, v)) => name_ok name /\ spelling_ok sp name v) l ->
  settings (map snd l) s = Some s' ->
  Parse formal (concat (map (fun '(sp, (name, v)) => spell sp name v) l) ++ rest) s = Parse formal rest s'.
Proof.
  intros Hl. revert s. induction Hl as [|[sp [name v]] l [Hn Hsp] _ IH]; intros s; simpl; [by intros [= ->]|].
  destruct (find_flag formal name) as [f|] eqn:Hf; [|done]. simpl.
  destruct (fl_Set f v s) as [s1|] eqn:Hs; [|done]. simpl. intros Hr.
  rewrite <- app_assoc. erewrite Parse_setting by done. rewrite Hs. by apply IH.
Qed.

(** Where the flags end. *)
Definition flags_end (rest : list bytes) : bool :=
  match rest with
  | [] => true
  | arg :: _ => match read_flag arg with NoFlag => true | _ => false end
  end.

Lemma Parse_end rest s : flags_end rest -> Parse formal rest s = Parsed s rest.
Proof. destruct rest as [|arg rest]; simpl; [done|]. by destruct (read_flag arg). Qed.
End settings.

(** * The client's command line *)

(** An option as it is written; [OptSkip None] is the flag without a value. *)
Inductive client_option :=
  | OptAddr (v : bytes)
  | OptRemote (v : bytes)
  | OptNums (v : bytes)
  | OptKey (v : bytes)
  | OptHeader (v : bytes)
  | OptSkip (v : option bytes).

Definition opt_setting (o : client_option) : bytes * bytes :=
  match o with
  | OptAddr v => (bytes_of "addr", v)
  | OptRemote v => (bytes_of "remote", v)
  | OptNums v => (bytes_of "nums", v)
  | OptKey v => (bytes_of "key", v)
  | OptHeader v => (bytes_of "ws-header", v)
  | OptSkip v => (bytes_of "skip-tls-verify", default (bytes_of "true") v)
  end.

(** The arguments; [two] is whether it has two dashes, [joined] whether the
    value is in the same argument, which it must be for the boolean flag. *)
Definition spell_option (two joined : bool) (o : client_option) : list bytes :=
  let sp := match o with
            | OptSkip None => Bare two
            | OptSkip (Some _) => Joined two
            | _ => if joined then Joined two else Separate two
            end in
  spell sp (fst (opt_setting o)) (snd (opt_setting o)).

Section set_options.
Context (ParseInt : bytes -> option Z).

(** What an option means: the number must be one, and the value of the boolean
    flag must be the text of a boolean. *)
Definition client_option_set (o : client_option) (c : client) : option client :=
  match o with
  | OptAddr v => Some (set_cli_address v c)
  | OptRemote v => Some (set_cli_remote v c)
  | OptNums v => n ← ParseInt v; Some (set_connectNum n c)
  | OptKey v => Some (set_cli_key v c)
  | OptHeader v => Some (set_headers (headers c ++ [v]) c)
  | OptSkip None => Some (set_skipTLSVerify true c)
  | OptSkip (Some v) => b ← ParseBool v; Some (set_skipTLSVerify b c)
  end.

(** The options one after the other, up to the first that is refused. *)
Fixpoint set_options (l : list client_option) (c : client) : client_option + client :=
  match l with
  | [] => inr c
  | o :: l' => match client_option_set o c with Some c' => set_options l' c' | None => inl o end
  end.

Lemma Parse_option two joined o rest c :
  Parse (client_flags ParseInt) (spell_option two joined o ++ rest) c =
    match client_option_set o c with
    | Some c' => Parse (client_flags ParseInt) rest c'
    | None => InvalidValue (fst (opt_setting o)) (snd (opt_setting o))
    end.
Proof.
  unfold spell_option.
  destruct o as [v|v|v|v|v|[v|]], joined; (erewrite Parse_setting; [|done..|done]); simpl;
    try done; by destruct (ParseInt v).
Qed.

Lemma Parse_options (l : list (bool * bool * client_option)) rest c :
  Parse (client_flags ParseInt) (concat (map (fun '(two, joined, o) => spell_option two joined o) l) ++ rest) c =
    match set_options (map snd l) c with
    | inr c' => Parse (client_flags ParseInt) rest c'
    | inl o => InvalidValue (fst (opt_setting o)) (snd (opt_setting o))
    end.
Proof.
  revert c. induction l as [|[[two joined] o] l IH]; intros c; [done|]. simpl. rewrite <- app_assoc, Parse_option.
  by destruct (client_option_set o c).
Qed.

(** The last value that the options give to a setting. *)
Definition last_of {A} (f : client_option -> option A) (d : A) (l : list client_option) : A :=
  default d (last (omap f l)).

Lemma last_of_cons {A} (f : client_option -> option A) d o l :
  last_of f d (o :: l) = last_of f (default d (f o)) l.
Proof.
  unfold last_of. simpl. destruct (f o) as [a|] eqn:E; simpl; [|done]. rewrite last_cons.
  change (list_omap client_option A f l) with (omap f l). by destruct (last (omap f l)).
Qed.

Definition opt_addr o := match o with OptAddr v => Some v | _ => None end.
Definition opt_remote o := match o with OptRemote v => Some v | _ => None end.
Definition opt_nums o := match o with OptNums v => ParseInt v | _ => None end.
Definition opt_key o := match o with OptKey v => Some v | _ => None end.
Definition opt_header o := match o with OptHeader v => Some v | _ => None end.
Definition opt_skip o :=
  match o with OptSkip None => Some true | OptSkip (Some v) => ParseBool v | _ => None end.

Lemma set_options_ok l c c' :
  set_options l c = inr c' ->
  c' = mkClientCmd (last_of opt_addr (cli_address c) l) (last_of opt_remote (remote c) l) (remoteUrl c)
         (headers c ++ omap opt_header l) (last_of opt_nums (connectNum c) l) (remoteHeaders c)
         (last_of opt_key (key c) l) (last_of opt_skip (skipTLSVerify c) l).
Proof.
  revert c. induction l as [|o l IH]; intros c; simpl.
  { intros [= <-]. rewrite app_nil_r. by destruct c. }
  destruct (client_option_set o c) as [c1|] eqn:E; [|done]. intros H. rewrite (IH _ H). clear H. rewrite !last_of_cons.
  destruct o as [v|v|v|v|v|[v|]]; simpl in *; simplify_eq/=; try done.
  - destruct (ParseInt v); by simplify_eq/=.
  - by rewrite <- app_assoc.
  - destruct (ParseBool v); by simplify_eq/=.
Qed.
End set_options.

(** What [PreRun] makes of the options. *)
Lemma client_PreRun_ok u c kvs :
  remote c <> [] -> headers c = map (fun kv => fst kv ++ (equals :: snd kv)) kvs ->
  Forall (fun kv => (equals ∉ fst kv) /\ snd kv <> []) kvs ->
  exists c' h, client_PreRun (inr u) c = inr c' /\ connectNum c' = Z.max 1 (connectNum c) /\
    remoteHeaders c' = Some h /\
    forall name, default [] (h !! name) =
      omap (fun kv => if decide (CanonicalHeaderKey (fst kv) = name) then Some (snd kv) else None) kvs.
Proof.
  intros Hr Hhd Hkv.
  assert (Forall (fun kv : bytes * bytes => equals ∉ fst kv) kvs) as Hk by (eapply Forall_impl; [exact Hkv|]; by intros ? []).
  assert (Forall (fun kv : bytes * bytes => snd kv <> []) kvs) as Hv by (eapply Forall_impl; [exact Hkv|]; by intros ? []).
  pose proof (parse_headers_ok kvs ∅ Hk) as Hp. rewrite decide_True in Hp by done.
  destruct Hp as (h & Hp & Hh'). unfold client_PreRun. rewrite bool_decide_false, Hhd by done. unfold equals. rewrite Hp.
  eexists _, h. split; [done|]. simpl. split; [destruct (Z.ltb_spec (connectNum c) 1); lia|]. split; [done|].
  intros name. by rewrite Hh', lookup_empty.
Qed.

(** C33: the client's command line. For any options, in any number and order, each in
    any of the spellings that the package flag allows (one dash or two, the
    value in the same argument or in the next, the boolean flag with or without a
    value): the command runs with the options set one after the other on the
    defaults, up to a value that is refused, and what follows the flags is left. So the
    last of several options of a name counts, the headers add up in their order,
    and an option that is not given keeps its default: listening on :1080, four
    websockets, no key, certificates verified. [PreRun] refuses options without
    the address of a server; with the headers as key=value, it has these headers,
    in their order, and at least one websocket. *)
Theorem client_command_line ParseInt (l : list (bool * bool * client_option)) u rest :
  flags_end rest ->
  match set_options ParseInt (map snd l) client_defaults with
  | inl o =>
      Parse (client_flags ParseInt) (concat (map (fun '(two, joined, o) => spell_option two joined o) l) ++ rest)
        client_defaults = InvalidValue (fst (opt_setting o)) (snd (opt_setting o))
  | inr c =>
      Parse (client_flags ParseInt) (concat (map (fun '(two, joined, o) => spell_option two joined o) l) ++ rest)
        client_defaults = Parsed c rest /\
      cli_address c = last_of opt_addr (bytes_of ":1080") (map snd l) /\
      remote c = last_of opt_remote [] (map snd l) /\
      connectNum c = last_of (opt_nums ParseInt) 4%Z (map snd l) /\
      key c = last_of opt_key [] (map snd l) /\
      skipTLSVerify c = last_of opt_skip false (map snd l) /\
      headers c = omap opt_header (map snd l) /\
      (remote c = [] -> client_PreRun (inr u) c = inl (errors_New "empty remote address")) /\
      forall kvs, remote c <> [] -> headers c = map (fun kv => fst kv ++ (equals :: snd kv)) kvs ->
        Forall (fun kv => (equals ∉ fst kv) /\ snd kv <> []) kvs ->
        exists c' h, client_PreRun (inr u) c = inr c' /\ connectNum c' = Z.max 1 (connectNum c) /\
          remoteHeaders c' = Some h /\
          forall name, default [] (h !! name) =
            omap (fun kv => if decide (CanonicalHeaderKey (fst kv) = name) then Some (snd kv) else None) kvs
  end.
Proof.
  intros Hend. rewrite Parse_options. destruct (set_options _ _ _) as [o|c] eqn:E; [done|].
  rewrite Parse_end by done. pose proof (set_options_ok _ _ _ _ E) as Hc.
  split_and!; [done|by rewrite Hc..| |].
  - intros Hr. unfold client_PreRun. by rewrite bool_decide_true.
  - intros kvs Hr Hh Hkv. by apply client_PreRun_ok.
Qed.

(** * The server's command line *)

(** The same for the server's command: settings in any number and order, in any
    spelling that their flags allow. *)
Theorem server_command_line l s rest :
  Forall (fun '(sp, (name, v)) => name_ok name /\ spelling_ok server_flags sp name v) l ->
  settings server_flags (map snd l) server_defaults = Some s -> flags_end rest ->
  Parse server_flags (concat (map (fun '(sp, (name, v)) => spell sp name v) l) ++ rest) server_defaults = Parsed s rest.
Proof. intros Hl Hs Hend. rewrite (Parse_settings _ l rest _ s) by done. by apply Parse_end. Qed.
