(* ===== verification/Plugins.v ===== *)
(** The client's plugins (client/client_plugin.go) and the opening of its
    websockets ([CreateServerConn] of client/client.go), in which they take part.

    A plugin may change what it is given through a pointer: its result has the
    new values.  [Net] stands for the fields of an [http.Client] and its
    [http.Transport] that the program leaves alone, [net0] for their values (the
    proxy is that of the environment). *)
From S2P Require Import Prelude Pipe Version Cli.

Definition URL_String (u : URL) : bytes :=
  match Scheme u with [] => url_rest u | s => s ++ bytes_of ":" ++ url_rest u end.

(** [Options]; [RemoteHeaders] is [None] when the map is nil. *)
Record Options := mkOptions {
  LocalSocks5Addr : bytes;
  RemoteUrl : URL;
  RemoteHeaders : option Header;
  ConnectNum : Z;
  ConnectionKey : bytes;
  SkipTLSVerify : bool;
}.

Definition set_remote (u : URL) (h : option Header) (c : Options) : Options :=
  mkOptions (LocalSocks5Addr c) u h (ConnectNum c) (ConnectionKey c) (SkipTLSVerify c).

Section plugins.
Context {Net : Type} (net0 : Net).

(** Durations are in nanoseconds. *)
Record Transport := mkTransport {
  Timeout : Z;                                    (* of the net.Dialer *)
  KeepAlive : Z;
  DualStack : bool;
  ForceAttemptHTTP2 : bool;
  MaxIdleConns : Z;
  IdleConnTimeout : Z;
  TLSHandshakeTimeout : Z;
  ExpectContinueTimeout : Z;
  InsecureSkipVerify : bool;                      (* of TLSClientConfig; nil is false *)
  tr_net : Net;
}.

Definition NewHttpClient : Transport :=
  {| Timeout := 30 * Second; KeepAlive := 30 * Second; DualStack := true; ForceAttemptHTTP2 := true;
     MaxIdleConns := 100; IdleConnTimeout := 90 * Second; TLSHandshakeTimeout := 10 * Second;
     ExpectContinueTimeout := Second; InsecureSkipVerify := false; tr_net := net0 |}.

(** [transport.TLSClientConfig = &tls.Config{InsecureSkipVerify: true}] *)
Definition skip_verify (tr : Transport) : Transport :=
  mkTransport (Timeout tr) (KeepAlive tr) (DualStack tr) (ForceAttemptHTTP2 tr) (MaxIdleConns tr)
    (IdleConnTimeout tr) (TLSHandshakeTimeout tr) (ExpectContinueTimeout tr) true (tr_net tr).

(** [OnOptionSet] gets a copy of the options, which shares the URL and the map of
    headers with them; [BeforeRequest] gets pointers to everything. *)
Definition OptionPlugin : Type := Options -> URL * Header * option error.
Definition RequestPlugin : Type :=
  Transport -> URL -> option Header -> Transport * URL * option Header * option error.
Definition VersionPlugin : Type := VersionNeg -> option error.

Record Plugins := mkPlugins {
  p_Option : option OptionPlugin;
  p_Request : option RequestPlugin;
  p_Version : option VersionPlugin;
}.

Definition no_plugins : Plugins := mkPlugins None None None.

Definition HasOptionPlugin (p : Plugins) : bool := bool_decide (is_Some (p_Option p)).
Definition HasRequestPlugin (p : Plugins) : bool := bool_decide (is_Some (p_Request p)).
Definition HasVersionPlugin (p : Plugins) : bool := bool_decide (is_Some (p_Version p)).

Definition ErrPluginOccupied : error := errors_New "the plugin is occupied by another plugin".

Definition AddPluginOption (op : OptionPlugin) (p : Plugins) : Plugins * option error :=
  match p_Option p with
  | Some _ => (p, Some ErrPluginOccupied)
  | None => (mkPlugins (Some op) (p_Request p) (p_Version p), None)
  end.

Definition AddPluginRequest (redirect : RequestPlugin) (p : Plugins) : Plugins * option error :=
  match p_Request p with
  | Some _ => (p, Some ErrPluginOccupied)
  | None => (mkPlugins (p_Option p) (Some redirect) (p_Version p), None)
  end.

Definition AddPluginVersion (ver : VersionPlugin) (p : Plugins) : Plugins * option error :=
  match p_Version p with
  | Some _ => (p, Some ErrPluginOccupied)
  | None => (mkPlugins (p_Option p) (p_Request p) (Some ver), None)
  end.

(** * [CreateServerConn] *)

(** The connection key goes into the headers; [None] is the panic of setting a
    key of a nil map. *)
Definition set_key (c : Options) : option Options :=
  if bool_decide (ConnectionKey c <> []) then
    h ← RemoteHeaders c; Some (set_remote (RemoteUrl c) (Some (connection_headers (ConnectionKey c) h)) c)
  else Some c.

Definition tls_transport (c : Options) (tr : Transport) : Transport :=
  if bool_decide (Scheme (RemoteUrl c) = bytes_of "wss") && SkipTLSVerify c
  then skip_verify tr else tr.

(** The plugins, with the options and the transport that they leave. *)
Definition option_plugin (p : Plugins) (c : Options) : Options * option error :=
  match p_Option p with
  | None => (c, None)
  | Some OnOptionSet =>
      let '(u, h, err) := OnOptionSet c in
      (set_remote u (match RemoteHeaders c with Some _ => Some h | None => None end) c, err)
  end.

Definition request_plugin (p : Plugins) (tr : Transport) (c : Options) :
    Transport * Options * option error :=
  match p_Request p with
  | None => (tr, c, None)
  | Some BeforeRequest =>
      let '(tr', u, h, err) := BeforeRequest tr (RemoteUrl c) (RemoteHeaders c) in
      (tr', set_remote u h c, err)
  end.

(** [CreateServerConn]: the options as it leaves them, and an error or the number
    of websockets it has opened; [dial url transport headers i] is the outcome
    of the i-th dial. [None] is a panic. *)
Definition CreateServerConn (p : Plugins) (dial : bytes -> Transport -> option Header -> nat -> option error)
    (c : Options) : option (Options * (error + nat)) :=
  c1 ← set_key c;
  let tr := tls_transport c1 NewHttpClient in
  let '(c2, err2) := option_plugin p c1 in
  Some match err2 with
  | Some err => (c2, inl err)
  | None =>
      let '(tr3, c3, err3) := request_plugin p tr c2 in
      match err3 with
      | Some err => (c3, inl err)
      | None => (c3, dial_from (dial (URL_String (RemoteUrl c3)) tr3 (RemoteHeaders c3)) 0
                       (Z.to_nat (ConnectNum c3)))
      end
  end.

(** * Facts *)

Lemma dial_from_ok dial i n k :
  dial_from dial i n = inr k -> k = i + n /\ forall j, i <= j < i + n -> dial j = None.
Proof.
  revert i. induction n as [|n IH]; intros i; simpl.
  - intros [= <-]. split; [lia|]. intros j Hj. lia.
  - destruct (dial i) eqn:E; [done|]. intros [-> Hd]%IH. split; [lia|].
    intros j Hj. destruct (decide (j = i)) as [->|]; [done|]. apply Hd. lia.
Qed.

Lemma dial_from_all dial i n :
  (forall j, i <= j < i + n -> dial j = None) -> dial_from dial i n = inr (i + n).
Proof.
  revert i. induction n as [|n IH]; intros i Hd; simpl; [by rewrite Nat.add_0_r|].
  rewrite Hd by lia. rewrite IH; [f_equal; lia|]. intros j Hj. apply Hd. lia.
Qed.
End plugins.
