(* ===== verification/Listener.v ===== *)
(** The client's SOCKS listener ([ListenAndServe], [localVisit] and [Close] of
    wss/wssocks_client.go): what is done with an accepted connection, and how
    the connections that are open at the same time share the record of
    connections. *)
From Stdlib Require Import Ascii.
From S2P Require Import Prelude Pipe Net Socks5 ConnRecords.

(** * One connection *)

(** What the goroutine of a connection does, in order. *)
Inductive action :=
  | AAdd                                          (* client.wgClose.Add(1) *)
  | AWrite (data : bytes)                         (* conn.Write *)
  | AUpdate (status : ConnStatus)                 (* record.Update *)
  | AVisit (addr : string)                        (* client.localVisit *)
  | ATrans (addr : string)                        (* client.transData *)
  | ADone                                         (* client.wgClose.Done() *)
  | AClose.                                       (* conn.Close() *)

Definition socks5_reply : bytes :=
  ["005"; "000"; "000"; "001"; "000"; "000"; "000"; "000"; "000"; "000"]%char.

Definition https_reply : bytes :=
  bytes_of "HTTP/1.0 200 Connection Established" ++ ["013"; "010"]%char ++
  bytes_of "Proxy-agent: wssocks" ++ ["013"; "010"; "013"; "010"]%char.

(** The goroutine, given the result of [Reply] and of [checkAddrPrivite]; the
    deferred calls run last. *)
Definition serve_conn (reply : error + option bytes * Z * bytes) (privite : bool) : list action :=
  match reply with
  | inl _ => [AClose]
  | inr (_, proxyType, addr_) =>
      let addr := string_of addr_ in
      [AAdd] ++
      (if (proxyType =? ProxyTypeSocks5)%Z then [AWrite socks5_reply]
       else if (proxyType =? ProxyTypeHttps)%Z then [AWrite https_reply]
       else []) ++
      [AUpdate (mkStatus addr true proxyType)] ++
      (if privite then [AVisit addr] else [ATrans addr]) ++
      [AUpdate (mkStatus addr false proxyType); ADone; AClose]
  end.

(** [localVisit]: both directions are copied to their end; the error is that
    of the dial. The reads of the two connections are inputs. *)
Inductive visit_result :=
  | VDial (err : error)
  | VPanic
  | VDone (to_remote to_conn : copy_result tcp).

Definition localVisit (dial : error + TCPConn) (conn : TCPConn) (firstSendData : option bytes)
    (reads_conn reads_remote : list (@copy_input tcp _)) : visit_result :=
  match dial with
  | inl err => VDial err
  | inr remote =>
      if bool_decide (default [] firstSendData <> []) then VPanic
      else VDone (CopyBuffer (NewTcp remote) reads_conn) (CopyBuffer (NewTcp conn) reads_remote)
  end.

(** * The listener *)

(** [Client]: whether it is closed, its channel [stop], its listener's errors,
    and the count of [wgClose]. *)
Record Client := mkListener { cl_closed : bool; cl_stopped : bool; cl_wg : Z }.

Definition NewClient : Client := mkListener false false 0.

(** [Close]: [None] when it has nothing to do, and whether it has to wait for
    the active connections otherwise. *)
Definition Close (wait : bool) (c : Client) : Client * option bool :=
  if cl_closed c then (c, None)
  else (mkListener true true (cl_wg c), Some (wait && negb (cl_wg c =? 0)%Z)).

(** The test of [stop] before each [Accept]. *)
Definition listen_stopped (c : Client) : bool := cl_stopped c.

(** * Many connections at a time *)

(** An interleaving: what each connection (by number) does, in the order in
    which it happens.  Each connection has done some first part of its own
    actions. *)
Definition of_conn (i : nat) (l : list (nat * action)) : list action :=
  omap (fun '(j, a) => if decide (i = j) then Some a else None) l.

Definition interleaving (conns : nat -> list action) (l : list (nat * action)) : Prop :=
  forall i, of_conn i l `prefix_of` conns i.

(** The calls of [record.Update]. *)
Definition updates_of (l : list (nat * action)) : list ConnStatus :=
  omap (fun '(_, a) => match a with AUpdate st => Some st | _ => None end) l.

(** A connection's calls of [record.Update] are one for a new connection and
    one for its end. *)
Definition conn_updates (l : list action) : list ConnStatus :=
  omap (fun a => match a with AUpdate st => Some st | _ => None end) l.

Lemma serve_conn_updates reply privite :
  conn_updates (serve_conn reply privite) = [] \/
  exists addr tp, conn_updates (serve_conn reply privite) = [mkStatus addr true tp; mkStatus addr false tp].
Proof.
  destruct reply as [err|[[d tp] addr]]; [by left|]. right. exists (string_of addr), tp. simpl.
  destruct (tp =? ProxyTypeSocks5)%Z, (tp =? ProxyTypeHttps)%Z, privite; done.
Qed.

Lemma of_conn_app i l k : of_conn i (l ++ k) = of_conn i l ++ of_conn i k.
Proof. apply omap_app. Qed.

Lemma conn_updates_app l k : conn_updates (l ++ k) = conn_updates l ++ conn_updates k.
Proof. apply omap_app. Qed.

Lemma conn_updates_prefix l k : l `prefix_of` k -> conn_updates l `prefix_of` conn_updates k.
Proof. intros [r ->]. rewrite conn_updates_app. by apply prefix_app_r. Qed.

(** The connections that are in the record, with their addresses. *)
Record in_record (conns : nat -> list action) (l : list (nat * action)) (active : gmap nat string) : Prop := {
  ir_count a : open_to a (updates_of l) = Z.of_nat (size (filter (fun p => p.2 = a) active));
  ir_active i a : active !! i = Some a <->
    exists tp, conn_updates (of_conn i l) = [mkStatus a true tp];
}.

Lemma size_filter_insert (active : gmap nat string) i addr a :
  active !! i = None ->
  size (filter (fun p => p.2 = a) (<[i := addr]> active)) =
    size (filter (fun p => p.2 = a) active) + (if decide (addr = a) then 1 else 0).
Proof.
  intros Hi. rewrite map_filter_insert. simpl. case_decide as Ha.
  - rewrite map_size_insert_None; [lia|]. apply map_lookup_filter_None. by left.
  - rewrite delete_id; [lia|done].
Qed.

Lemma size_filter_delete (active : gmap nat string) i addr a :
  active !! i = Some addr ->
  size (filter (fun p => p.2 = a) active) =
    size (filter (fun p => p.2 = a) (delete i active)) + (if decide (addr = a) then 1 else 0).
Proof.
  intros Hi. rewrite <- (insert_id active i addr) at 1 by done.
  rewrite <- (insert_delete_eq active i addr). apply size_filter_insert, lookup_delete_eq.
Qed.

(** One more action. *)
Lemma updates_of_snoc l i a :
  updates_of (l ++ [(i, a)]) = updates_of l ++ match a with AUpdate st => [st] | _ => [] end.
Proof. unfold updates_of. rewrite omap_app. by destruct a. Qed.

Lemma conn_updates_snoc j l i a :
  conn_updates (of_conn j (l ++ [(i, a)])) =
    conn_updates (of_conn j l) ++ match a with AUpdate st => if decide (j = i) then [st] else [] | _ => [] end.
Proof. rewrite of_conn_app, conn_updates_app. f_equal. simpl. case_decide; by destruct a. Qed.

(** The next change of a connection that announces itself once and withdraws. *)
Lemma next_update (u v : list ConnStatus) st :
  u ++ [st] `prefix_of` v ->
  v = [] \/ (exists addr tp, v = [mkStatus addr true tp; mkStatus addr false tp]) ->
  exists addr tp, (u = [] /\ st = mkStatus addr true tp) \/ (u = [mkStatus addr true tp] /\ st = mkStatus addr false tp).
Proof.
  intros Hpre [->|(addr & tp & ->)].
  - apply prefix_nil_inv in Hpre. by destruct u.
  - exists addr, tp. destruct Hpre as [r Hr]. destruct u as [|x [|y u]]; simplify_eq/=; [by left|by right|]. by destruct u.
Qed.

Lemma in_record_open conns l i addr tp active :
  in_record conns l active -> conn_updates (of_conn i l) = [] ->
  in_record conns (l ++ [(i, AUpdate (mkStatus addr true tp))]) (<[i := addr]> active).
Proof.
  intros [Hc Ha] Ei. assert (active !! i = None) as Hni.
  { destruct (active !! i) as [a'|] eqn:E; [|done]. apply Ha in E as [tp' E]. congruence. }
  split.
  - intros a. rewrite updates_of_snoc, open_to_app, Hc, size_filter_insert by done. simpl. unfold weight. simpl.
    case_decide; lia.
  - intros j a'. rewrite conn_updates_snoc, lookup_insert. case_decide as Hd; [subst|].
    + rewrite decide_True, Ei by done. simpl. split; [intros [= <-]; by exists tp|by intros [tp' [= -> _]]].
    + rewrite decide_False by congruence. rewrite app_nil_r. apply Ha.
Qed.

Lemma in_record_close conns l i addr tp active :
  in_record conns l active -> conn_updates (of_conn i l) = [mkStatus addr true tp] ->
  (0 < open_to addr (updates_of l))%Z /\
  in_record conns (l ++ [(i, AUpdate (mkStatus addr false tp))]) (delete i active).
Proof.
  intros [Hc Ha] Ei. assert (active !! i = Some addr) as Hi by (apply Ha; by exists tp). split; [|split].
  - rewrite Hc, (size_filter_delete _ _ _ _ Hi), decide_True by done. lia.
  - intros a. rewrite updates_of_snoc, open_to_app, Hc, (size_filter_delete _ _ _ _ Hi). simpl. unfold weight. simpl.
    case_decide; lia.
  - intros j a'. rewrite conn_updates_snoc, lookup_delete. case_decide as Hd; [subst|].
    + rewrite decide_True, Ei by done. split; [done|by intros [tp' ?]].
    + rewrite decide_False by congruence. rewrite app_nil_r. apply Ha.
Qed.

(** An interleaving keeps the record balanced. *)
Lemma interleaving_balanced conns l :
  (forall i, conn_updates (conns i) = [] \/
     exists addr tp, conn_updates (conns i) = [mkStatus addr true tp; mkStatus addr false tp]) ->
  interleaving conns l -> balanced (updates_of l) /\ exists active, in_record conns l active.
Proof.
  intros Hconns. induction l as [|[i a] l IH] using rev_ind; intros Hl.
  { split; [by intros []|]. exists ∅. split; [done|]. intros i a. simpl. split; [done|]. by intros [tp ?]. }
  assert (interleaving conns l) as Hl'.
  { intros j. specialize (Hl j). rewrite of_conn_app in Hl. etrans; [|done]. by apply prefix_app_r. }
  destruct (IH Hl') as [Hb [active Hr]]. clear IH. rewrite updates_of_snoc. destruct a as [|d|st|ad|ad| |];
    try (rewrite app_nil_r; split; [done|]; exists active; destruct Hr as [Hc Ha]; split;
         [by rewrite updates_of_snoc, app_nil_r|]; intros j a'; rewrite conn_updates_snoc, app_nil_r; apply Ha).
  pose proof (conn_updates_prefix _ _ (Hl i)) as Hpre. rewrite conn_updates_snoc, decide_True in Hpre by done.
  rewrite balanced_snoc. destruct (next_update _ _ _ Hpre (Hconns i)) as (addr & tp & [[Ei ->]|[Ei ->]]).
  - split; [by split|]. eexists. by eapply in_record_open.
  - destruct (in_record_close conns l i addr tp active Hr Ei) as [Hpos Hr']. split; [by split|by eexists].
Qed.

(** C30: however the connections of the SOCKS listener interleave, and wherever
    each of them stands, the record of connections never meets a count that
    does not fit, so the process does not end; its total is the number of
    connections that have been announced and not withdrawn, and each target is
    listed with its own number of them, if there is one. *)
Theorem listener_keeps_record replies privite l :
  interleaving (fun i => serve_conn (replies i) (privite i)) l -> (Z.of_nat (length l) < 2 ^ 64)%Z ->
  exists cr, updates (updates_of l) NewConnRecord = Some cr /\ ConnSize cr = open_all (updates_of l) /\
    forall a, Addresses cr !! a =
      if decide (open_to a (updates_of l) = 0%Z) then None else Some (open_to a (updates_of l)).
Proof.
  intros Hl Hlen.
  destruct (interleaving_balanced _ l (fun i => serve_conn_updates (replies i) (privite i)) Hl) as [Hb _].
  assert (length (updates_of l) <= length l) as Hle.
  { apply length_omap. }
  destruct (updates_counted (updates_of l) ltac:(lia)) as [Hiff Hcr].
  apply Hiff in Hb as [cr Hr]. exists cr. destruct (Hcr cr Hr) as (? & ? & _). done.
Qed.
