(* ===== verification/Accept.v ===== *)
(** The accept loop of the SOCKS listener ([ListenAndServe] and [Close] of
    wss/wssocks_client.go) with the connections it has accepted, as a process:
    the loop, the goroutines of the connections (Listener.v) and the caller of
    [Close] interleave. *)
From S2P Require Import Prelude Pipe Net Socks5 ConnRecords Listener.

(** Program points of [ListenAndServe]. *)
Inductive li_pc :=
  | LListen                                       (* net.Listen, and the test of its type *)
  | LOnConnected                                  (* onConnected() *)
  | LCheck                                        (* the select on stop *)
  | LAccept                                       (* tcpl.Accept *)
  | LReturned (err : error).

(** Program points of [Close]; it is called once, under [sync.Once]. *)
Inductive close_pc :=
  | CIdle
  | CClosed (wait : bool)                         (* client.closed = true *)
  | CShut (wait : bool)                           (* client.tcpl.Close() *)
  | CWait                                         (* client.wgClose.Wait() *)
  | CReturned.

(** [li_tcpl] is nil, or whether the listener is open; [li_conns] is what the
    goroutine of each accepted connection has still to do; [li_panic] is set
    when a [Done] has taken the count of the wait group below zero, which panics
    and ends the process. *)
Record listening := mkListening {
  li_main : li_pc;
  li_tcpl : option bool;
  li_cl : Client;
  li_close : close_pc;
  li_conns : list (list action);
  li_panic : bool;
}.

Definition li_init : listening := mkListening LListen None NewClient CIdle [] false.

Definition set_main (pc : li_pc) (s : listening) : listening :=
  mkListening pc (li_tcpl s) (li_cl s) (li_close s) (li_conns s) (li_panic s).
Definition set_tcpl (t : option bool) (s : listening) : listening :=
  mkListening (li_main s) t (li_cl s) (li_close s) (li_conns s) (li_panic s).
Definition set_client (c : Client) (s : listening) : listening :=
  mkListening (li_main s) (li_tcpl s) c (li_close s) (li_conns s) (li_panic s).
Definition set_close (pc : close_pc) (s : listening) : listening :=
  mkListening (li_main s) (li_tcpl s) (li_cl s) pc (li_conns s) (li_panic s).
Definition set_conns (l : list (list action)) (s : listening) : listening :=
  mkListening (li_main s) (li_tcpl s) (li_cl s) (li_close s) l (li_panic s).
Definition set_panic (s : listening) : listening :=
  mkListening (li_main s) (li_tcpl s) (li_cl s) (li_close s) (li_conns s) true.

(** What [Reply] will return for a connection, and [checkAddrPrivite]. *)
Definition peer : Type := (error + option bytes * Z * bytes) * bool.

Inductive li_ev :=
  | EvListen (r : error + bool)                   (* net.Listen; whether it is a TCP listener *)
  | EvMain                                        (* the loop, on its own *)
  | EvAccept (r : error + peer)                   (* tcpl.Accept returns *)
  | EvConn (i : nat)                              (* a connection does its next action *)
  | EvClose (wait : bool)                         (* Close is called *)
  | EvCloseStep.                                  (* Close goes on *)

(** What an action does to the count of active connections. *)
Definition count_action (a : action) (n : Z) : Z :=
  match a with AAdd => n + 1 | ADone => n - 1 | _ => n end.

Definition set_wg (n : Z) (c : Client) : Client := mkListener (cl_closed c) (cl_stopped c) n.

Definition li_exec (ev : li_ev) (s : listening) : option listening :=
  if li_panic s then None else
  match ev with
  | EvListen r =>
      match li_main s, r with
      | LListen, inl err => Some (set_main (LReturned err) s)
      | LListen, inr false => Some (set_main (LReturned (errors_New "not a tcp listener")) s)
      | LListen, inr true => Some (set_tcpl (Some true) (set_main LOnConnected s))
      | _, _ => None
      end
  | EvMain =>
      match li_main s with
      | LOnConnected => Some (set_main LCheck s)
      | LCheck =>
          if listen_stopped (li_cl s) then Some (set_main (LReturned (errors_New "listener stopped")) s)
          else Some (set_main LAccept s)
      | _ => None
      end
  | EvAccept r =>
      match li_main s, r with
      | LAccept, inl err => Some (set_main (LReturned (errors_New ("tcp accept error: " +:+ Error err))) s)
      | LAccept, inr (reply, privite) =>
          if bool_decide (li_tcpl s = Some true)
          then Some (set_conns (li_conns s ++ [serve_conn reply privite]) (set_main LCheck s))
          else None
      | _, _ => None
      end
  | EvConn i =>
      match li_conns s !! i with
      | Some (a :: rest) =>
          let n := count_action a (cl_wg (li_cl s)) in
          if decide (0 <= n)%Z
          then Some (set_conns (<[i := rest]> (li_conns s)) (set_client (set_wg n (li_cl s)) s))
          else Some (set_panic s)
      | _ => None
      end
  | EvClose wait =>
      match li_close s with
      | CIdle =>
          if cl_closed (li_cl s) then Some (set_close CReturned s)
          else Some (set_close (CClosed wait) (set_client (mkListener false true (cl_wg (li_cl s))) s))
      | _ => None
      end
  | EvCloseStep =>
      match li_close s with
      | CClosed wait =>
          Some (set_close (CShut wait) (set_client (mkListener true (cl_stopped (li_cl s)) (cl_wg (li_cl s))) s))
      | CShut wait =>
          Some (set_close (if wait then CWait else CReturned)
                 (set_tcpl (match li_tcpl s with Some _ => Some false | None => None end) s))
      | CWait => if (cl_wg (li_cl s) =? 0)%Z then Some (set_close CReturned s) else None
      | _ => None
      end
  end.

Fixpoint li_run (evs : list li_ev) (s : listening) : option listening :=
  match evs with
  | [] => Some s
  | ev :: evs' => s1 ← li_exec ev s; li_run evs' s1
  end.

Definition li_reachable (s : listening) : Prop := exists evs, li_run evs li_init = Some s.

(** ** The count of active connections *)

(** Counted and not yet done. *)
Definition weight (l : list action) : Z :=
  foldr (fun a n => match a with AAdd => n - 1 | ADone => n + 1 | _ => n end)%Z 0%Z l.

Definition weights (l : list (list action)) : Z := foldr (fun c n => weight c + n)%Z 0%Z l.

Lemma weights_app l k : weights (l ++ k) = (weights l + weights k)%Z.
Proof. induction l as [|c l IH]; [done|]. simpl in *. lia. Qed.

(** What can be left of [l]. *)
Fixpoint suffixes (l : list action) : list (list action) :=
  match l with [] => [[]] | _ :: l' => l :: suffixes l' end.

Lemma elem_of_suffixes l k : l `suffix_of` k -> l ∈ suffixes k.
Proof.
  intros [pre ->]. induction pre as [|a pre IH]; simpl; [destruct l; simpl; by left|by right].
Qed.

(** A connection that the wait group does not count: its negotiation is not
    over, or all that is left of it is to close its socket. *)
Definition uncounted (c : list action) : Prop := AAdd ∈ c \/ c `suffix_of` [AClose].

Lemma weight_serve reply privite l : l `suffix_of` serve_conn reply privite ->
  (0 <= weight l <= 1)%Z /\ (weight l = 0%Z <-> uncounted l).
Proof.
  intros Hl%elem_of_suffixes. revert l Hl. apply Forall_forall.
  assert (forall l a b, uncounted (a :: b :: l) -> AAdd ∈ a :: b :: l) as Hun.
  { intros l a b [?|[pre Hp]]; [done|]. by destruct pre as [|? []]. }
  destruct reply as [err|[[d tp] addr]]; simpl.
  2: destruct (tp =? ProxyTypeSocks5)%Z, (tp =? ProxyTypeHttps)%Z, privite; simpl.
  all: repeat (constructor; [split; [done|]; split;
    [first [by intros ?|intros _; first [left; by left|right; by exists []|right; by exists [AClose]]]
    |first [by intros _|intros Hu%Hun; exfalso; set_solver]]|]).
  all: by constructor.
Qed.

Lemma weights_insert i l c c' :
  l !! i = Some c -> weights (<[i := c']> l) = (weights l - weight c + weight c')%Z.
Proof.
  revert i. induction l as [|d l IH]; intros [|i]; simpl; try done.
  - intros [= ->]. lia.
  - intros H. rewrite (IH i H). lia.
Qed.

Record li_inv (s : listening) : Prop := {
  li_sane : li_panic s = false;
  li_wg : cl_wg (li_cl s) = weights (li_conns s);
  li_serve c : c ∈ li_conns s -> exists reply privite, c `suffix_of` serve_conn reply privite;
  li_stop : li_close s <> CIdle -> cl_stopped (li_cl s) = true;
  li_shut : li_close s = CWait \/ li_close s = CReturned -> li_main s = LAccept -> li_tcpl s = Some false;
  li_once : cl_closed (li_cl s) = true -> li_close s <> CIdle;
  li_open : match li_main s with LOnConnected | LCheck | LAccept => is_Some (li_tcpl s) | _ => True end;
}.

Lemma li_conn_inv i s a rest :
  li_conns s !! i = Some (a :: rest) -> li_inv s ->
  li_inv (set_conns (<[i := rest]> (li_conns s)) (set_client (set_wg (count_action a (cl_wg (li_cl s))) (li_cl s)) s)).
Proof.
  intros Hi [Hsane Hwg Hserve Hstop Hshut Honce Hopen]. split; simpl; try done.
  - rewrite (weights_insert i _ (a :: rest)), <- Hwg by done. destruct a; simpl; lia.
  - intros c [j Hj]%list_elem_of_lookup. apply list_lookup_insert_Some in Hj as [(<- & <- & _)|[_ Hj]].
    + destruct (Hserve (a :: rest)) as (r & p & Hs); [by eapply list_elem_of_lookup_2|].
      exists r, p. by eapply suffix_cons_l.
    + apply Hserve. by eapply list_elem_of_lookup_2.
Qed.

Lemma weights_nonneg l :
  (forall c, c ∈ l -> exists reply privite, c `suffix_of` serve_conn reply privite) -> (0 <= weights l)%Z.
Proof.
  induction l as [|c l IH]; intros Hl; simpl; [done|].
  destruct (Hl c) as (r & p & Hc); [by left|]. destruct (weight_serve r p c Hc) as [? _].
  specialize (IH ltac:(intros; apply Hl; by right)). lia.
Qed.

(** The count is zero exactly when no connection is counted. *)
Lemma li_wg_zero s : li_inv s -> cl_wg (li_cl s) = 0%Z <-> forall c, c ∈ li_conns s -> uncounted c.
Proof.
  intros Hinv. rewrite (li_wg _ Hinv). pose proof (li_serve _ Hinv) as Hl. clear Hinv.
  induction (li_conns s) as [|d l IH]; simpl; [split; [by intros _ c ?%not_elem_of_nil|done]|].
  assert (forall c, c ∈ l -> exists reply privite, c `suffix_of` serve_conn reply privite) as Hl' by (intros; apply Hl; by right).
  destruct (Hl d) as (r & p & Hs); [by left|]. destruct (weight_serve r p d Hs) as [Hw Hz].
  pose proof (weights_nonneg l Hl'). specialize (IH Hl'). split.
  - intros E c [->|Hc]%elem_of_cons; [apply Hz; lia|]. apply IH; [lia|done].
  - intros Hu. assert (weight d = 0%Z) as -> by (apply Hz, Hu; by left). apply IH. intros c Hc. apply Hu. by right.
Qed.

Lemma li_exec_inv ev s s' : li_exec ev s = Some s' -> li_inv s -> li_inv s'.
Proof.
  intros H Hinv. unfold li_exec in H. rewrite (li_sane _ Hinv) in H. destruct ev as [r| |r|i|wait|].
  4: { destruct (li_conns s !! i) as [[|a rest]|] eqn:Ei; [done| |done].
       pose proof (li_conn_inv _ _ _ _ Ei Hinv) as Hinv'. cbn zeta in H. case_decide as Hn; simplify_eq; [done|].
       exfalso. apply Hn. etrans; [apply (weights_nonneg _ (li_serve _ Hinv'))|]. by rewrite <- (li_wg _ Hinv'). }
  all: destruct Hinv as [Hsane Hwg Hserve Hstop Hshut Honce Hopen].
  - destruct (li_main s) eqn:Em, r as [e1|[]]; simplify_eq; split; simpl; eauto; done.
  - destruct (li_main s) eqn:Em; simplify_eq; [split; simpl; eauto; done|].
    destruct (listen_stopped (li_cl s)) eqn:Es; simplify_eq; split; simpl; eauto; [done|].
    intros Hc. assert (li_close s <> CIdle) as Hne by (by destruct Hc as [-> | ->]).
    apply Hstop in Hne. unfold listen_stopped in Es. congruence.
  - destruct (li_main s) eqn:Em; try done. destruct r as [e1|[reply privite]]; [simplify_eq; split; simpl; eauto; done|].
    case_bool_decide as Ht; simplify_eq. split; simpl; eauto; try done.
    + rewrite Hwg, weights_app. simpl. assert (weight (serve_conn reply privite) = 0%Z) as ->; [|lia].
      destruct reply as [err|[[d tp] addr]]; [done|]. simpl.
      by destruct (tp =? ProxyTypeSocks5)%Z, (tp =? ProxyTypeHttps)%Z, privite.
    + intros c [Hc|Hc%list_elem_of_singleton]%elem_of_app; [by apply Hserve|]. subst. by exists reply, privite.
  - destruct (li_close s) eqn:Ec; try done. destruct (cl_closed (li_cl s)) eqn:Ecl; simplify_eq.
    { by destruct (Honce eq_refl). }
    split; simpl; eauto; try done. by intros [|].
  - destruct (li_close s) as [|wait|wait| |] eqn:Ec; try done.
    + simplify_eq. split; simpl; eauto; try done; try (by intros _; apply Hstop); by intros [|].
    + simplify_eq. split; simpl; eauto; try done; try (by intros _; apply Hstop).
      * intros _ Hm. rewrite Hm in Hopen. by destruct (li_tcpl s); destruct Hopen.
      * by destruct wait.
      * destruct (li_main s); try done; by destruct (li_tcpl s); destruct Hopen.
    + destruct (cl_wg (li_cl s) =? 0)%Z; simplify_eq. split; simpl; eauto; try done; try (by intros _; apply Hstop).
Qed.

Lemma li_run_inv evs s s' : li_run evs s = Some s' -> li_inv s -> li_inv s'.
Proof.
  revert s. induction evs as [|ev evs IH]; intros s H Hi; simpl in H; [by simplify_eq|].
  destruct (li_exec ev s) as [s1|] eqn:E; [|done]. by eapply IH, li_exec_inv.
Qed.

Lemma li_reachable_inv s : li_reachable s -> li_inv s.
Proof.
  intros [evs Hr]. eapply li_run_inv; [exact Hr|]. split; simpl; try done; try (by intros [|]); by intros c ?%not_elem_of_nil.
Qed.

(** ** The end of the loop *)

(** The steps of the loop itself. *)
Definition of_loop (ev : li_ev) : Prop :=
  match ev with EvListen _ | EvMain | EvAccept _ => True | _ => False end.

#[export] Instance of_loop_dec ev : Decision (of_loop ev).
Proof. destruct ev; apply _. Defined.

(** How many of them are left once [stop] is closed. *)
Definition steps_left (pc : li_pc) : nat :=
  match pc with LListen => 3 | LOnConnected | LAccept => 2 | LCheck => 1 | LReturned _ => 0 end.

(** Connections that may still be accepted then. *)
Definition accepts_left (s : listening) : nat :=
  match li_main s with LAccept => if decide (li_tcpl s = Some true) then 1 else 0 | _ => 0 end.

Lemma stopped_step ev s s' :
  li_exec ev s = Some s' -> cl_stopped (li_cl s) = true ->
  cl_stopped (li_cl s') = true /\
  steps_left (li_main s') + (if decide (of_loop ev) then 1 else 0) <= steps_left (li_main s) /\
  length (li_conns s') + accepts_left s' <= length (li_conns s) + accepts_left s.
Proof.
  intros H Hst. unfold li_exec in H. destruct (li_panic s); [done|].
  destruct ev as [r| |r|i|wait|]; cbn zeta in H; unfold accepts_left in *.
  - destruct (li_main s) eqn:Em, r as [e1|[]]; simplify_eq; simpl; rewrite ?Em; simpl; split_and!; (done || lia).
  - destruct (li_main s) eqn:Em; simplify_eq; simpl; [split_and!; (done || lia)|].
    unfold listen_stopped in H. rewrite Hst in H. simplify_eq. simpl. split_and!; (done || lia).
  - destruct (li_main s) eqn:Em; try done. destruct r as [e1|[reply privite]].
    + simplify_eq. simpl. split_and!; (done || lia).
    + case_bool_decide as Ht; simplify_eq. simpl. rewrite length_app, decide_True by done. simpl.
      split_and!; (done || lia).
  - destruct (li_conns s !! i) as [[|a rest]|] eqn:Ei; [done| |done]. case_decide; simplify_eq; simpl;
      rewrite ?length_insert; split_and!; (done || lia).
  - destruct (li_close s); try done. destruct (cl_closed (li_cl s)); simplify_eq; simpl; split_and!; (done || lia).
  - destruct (li_close s) as [|w|w| |]; try done.
    + simplify_eq. simpl. split_and!; (done || lia).
    + simplify_eq. simpl. split_and!; [done|lia|]. destruct (li_main s); try lia.
      destruct (li_tcpl s) as [[]|]; simpl; repeat case_decide; try done; lia.
    + destruct (cl_wg (li_cl s) =? 0)%Z; simplify_eq. simpl. split_and!; (done || lia).
Qed.

Lemma stopped_run evs s s' :
  li_run evs s = Some s' -> cl_stopped (li_cl s) = true ->
  length (filter of_loop evs) <= steps_left (li_main s) /\
  length (li_conns s') <= length (li_conns s) + accepts_left s.
Proof.
  revert s. induction evs as [|ev evs IH]; intros s H Hst; simpl in H; [simplify_eq; simpl; lia|].
  destruct (li_exec ev s) as [s1|] eqn:E; [|done]. destruct (stopped_step _ _ _ E Hst) as (Hst1 & Hs & Hc).
  destruct (IH s1 H Hst1) as [H1 H2]. rewrite filter_cons. repeat case_decide; simpl in *; lia.
Qed.

(** C20: once [Close] has closed the channel [stop], the accept loop takes at
    most three more steps of its own and accepts at most one more connection;
    once [Close] has also closed the listener it accepts none, its call of
    Accept fails, and as long as it has not returned it has a next step. *)
Theorem accept_loop_ends s :
  li_reachable s -> li_close s <> CIdle ->
  (forall evs s', li_run evs s = Some s' ->
     length (filter of_loop evs) <= 3 /\ length (li_conns s') <= S (length (li_conns s))) /\
  (li_close s = CWait \/ li_close s = CReturned ->
     (forall evs s', li_run evs s = Some s' -> length (li_conns s') <= length (li_conns s)) /\
     ((exists err, li_main s = LReturned err) \/
      forall err, is_Some (li_exec (EvListen (inl err)) s) \/ is_Some (li_exec EvMain s) \/
                  is_Some (li_exec (EvAccept (inl err)) s))).
Proof.
  intros Hr Hc. pose proof (li_reachable_inv s Hr) as Hinv. pose proof (li_stop _ Hinv Hc) as Hst. split.
  - intros evs s' H. destruct (stopped_run evs s s' H Hst) as [H1 H2].
    unfold accepts_left in H2. destruct (li_main s); simpl in *; try case_decide; lia.
  - intros Hcl. split.
    + intros evs s' H. destruct (stopped_run evs s s' H Hst) as [_ H2]. unfold accepts_left in H2.
      destruct (li_main s) eqn:Em; try lia. rewrite (li_shut _ Hinv Hcl Em) in H2. simpl in H2. lia.
    + destruct (li_main s) eqn:Em; [right|right|right|right|left; by eexists]; intros err; unfold li_exec; rewrite (li_sane _ Hinv), Em;
        [left|right; left|right; left|right; right]; try by eexists.
      unfold listen_stopped. rewrite Hst. by eexists.
Qed.

(** [Close(true)] is under way. *)
Definition closing (s : listening) : Prop :=
  li_close s = CClosed true \/ li_close s = CShut true \/ li_close s = CWait.

(** It returns from the wait only, when no connection is counted. *)
Lemma closing_step ev s s' :
  li_exec ev s = Some s' -> li_inv s -> closing s ->
  closing s' \/ li_close s' = CReturned /\ forall c, c ∈ li_conns s' -> uncounted c.
Proof.
  intros H Hinv Hc. pose proof (li_exec_inv _ _ _ H Hinv) as Hinv'. pose proof H as H0. unfold li_exec in H.
  rewrite (li_sane _ Hinv) in H. unfold closing in *. destruct ev as [r| |r|i|wait|].
  - left. repeat case_match; simplify_eq; done.
  - left. repeat case_match; simplify_eq; done.
  - left. repeat case_match; simplify_eq; done.
  - left. cbn zeta in H. repeat case_match; simplify_eq; done.
  - destruct Hc as [E|[E|E]]; by rewrite E in H.
  - destruct Hc as [E|[E|E]]; rewrite E in H; [simplify_eq; left; by right; left|simplify_eq; left; by right; right|].
    destruct (Z.eqb_spec (cl_wg (li_cl s)) 0) as [Ez|]; simplify_eq. right. split; [done|].
    by apply (li_wg_zero _ Hinv').
Qed.

Lemma closing_run evs s s' :
  li_run evs s = Some s' -> li_inv s -> closing s -> li_close s' = CReturned ->
  exists evs1 evs2 s1, evs = evs1 ++ evs2 /\ li_run evs1 s = Some s1 /\ li_close s1 = CReturned /\
    forall c, c ∈ li_conns s1 -> uncounted c.
Proof.
  revert s. induction evs as [|ev evs IH]; intros s H Hinv Hc Hret; simpl in H.
  { simplify_eq. unfold closing in Hc. rewrite Hret in Hc. by destruct Hc as [|[]]. }
  destruct (li_exec ev s) as [s1|] eqn:E; [|done]. simpl in H.
  destruct (closing_step _ _ _ E Hinv Hc) as [Hc1|[Hr1 Hu]].
  - destruct (IH s1 H (li_exec_inv _ _ _ E Hinv) Hc1 Hret) as (evs1 & evs2 & s2 & -> & H1 & ? & ?).
    exists (ev :: evs1), evs2, s2. simpl. by rewrite E.
  - exists [ev], evs, s1. split; [done|]. simpl. by rewrite E.
Qed.

(** C21: a call of [Close(true)] returns only when every connection whose [Reply]
    had been counted is carried to its end: between the call and its return there is a
    moment, the return itself, at which each connection either has not been counted yet or has
    only its socket left to close, its transfer being over. It returns as soon
    as it can: when that is so and the listener is closed, the wait ends. The
    count of the wait group never goes below zero. A connection that is still being negotiated is not
    counted: [Close] can return before it, and it is carried afterwards. *)
Theorem close_waits :
  (forall s evs s', li_reachable s -> li_close s = CIdle ->
     li_run (EvClose true :: evs) s = Some s' -> li_close s' = CReturned ->
     exists evs1 evs2 s1, evs = evs1 ++ evs2 /\ li_run (EvClose true :: evs1) s = Some s1 /\
       li_close s1 = CReturned /\ forall c, c ∈ li_conns s1 -> AAdd ∈ c \/ c `suffix_of` [AClose]) /\
  (forall s, li_reachable s -> li_panic s = false /\
     (li_close s = CWait -> (forall c, c ∈ li_conns s -> AAdd ∈ c \/ c `suffix_of` [AClose]) ->
      exists s', li_exec EvCloseStep s = Some s' /\ li_close s' = CReturned)) /\
  (exists evs s', li_run evs li_init = Some s' /\ li_close s' = CReturned /\
     exists c, c ∈ li_conns s' /\ AAdd ∈ c /\ ATrans "a:80" ∈ c).
Proof.
  split_and!.
  - intros s evs s' Hr Hidle H Hret. pose proof (li_reachable_inv s Hr) as Hinv. simpl in H |- *.
    destruct (li_exec (EvClose true) s) as [s0|] eqn:E; [|done]. simpl in H |- *.
    apply (closing_run evs s0 s'); [done|by eapply li_exec_inv| |done].
    unfold li_exec in E. rewrite (li_sane _ Hinv), Hidle in E.
    destruct (cl_closed (li_cl s)) eqn:Ec; [by destruct (li_once _ Hinv Ec)|]. simplify_eq. by left.
  - intros s Hr. pose proof (li_reachable_inv s Hr) as Hinv. split; [by apply li_sane|]. intros Hw Hu.
    eexists. unfold li_exec. rewrite (li_sane _ Hinv), Hw. apply (li_wg_zero _ Hinv) in Hu. by rewrite Hu.
  - exists [EvListen (inr true); EvMain; EvMain; EvAccept (inr (inr (None, ProxyTypeSocks5, bytes_of "a:80"), false));
            EvClose true; EvCloseStep; EvCloseStep; EvCloseStep].
    eexists. split; [reflexivity|]. split; [reflexivity|]. eexists. split; [by left|]. simpl. set_solver.
Qed.
