(* ===== verification/TermView.v ===== *)
(** The connection table that the client keeps at the bottom of its terminal
    (wss/term_view/log.go, writer.go and clear_lines_unix.go).

    [text/tabwriter] lays out the columns; what the program needs of it is that
    it keeps the rows, so it is a parameter [layout] here.  The terminal is a screen
    of a width and a height ([term]) that takes the bytes written. *)
From Stdlib Require Import Ascii.
From stdpp Require Import pretty.
From S2P Require Import Prelude Net ConnRecords.

Definition NL : ascii := "010"%char.
Definition TAB : ascii := "009"%char.
Definition ESC : ascii := "027"%char.

(** * The writer *)

(** The result of a write to the terminal: everything, or an error after some
    bytes. *)
Definition out_res : Type := option (nat * error).

(** [Writer]: what has been written to [OutDev], the buffer, the lines of the
    table on the terminal, and whether [OutDev] is one. *)
Record Writer := mkWriter { w_out : bytes; w_buf : bytes; lineCount : nat; w_tty : bool }.

Definition NewWriter (tty : bool) : Writer := mkWriter [] [] 0 tty.

(** [w.OutDev.Write(buf)] *)
Definition OutDev_Write (r : out_res) (data : bytes) (w : Writer) : Writer * option error :=
  match r with
  | None => (mkWriter (w_out w ++ data) (w_buf w) (lineCount w) (w_tty w), None)
  | Some (k, e) => (mkWriter (w_out w ++ take k data) (w_buf w) (lineCount w) (w_tty w), Some e)
  end.

(** [clear]: the cursor goes up a line, and that line is erased. *)
Definition clear : bytes := ESC :: bytes_of "[1A" ++ ESC :: bytes_of "[2K".

Definition clearLines (lines : nat) : bytes := concat (replicate lines clear).

(** [ClearLines]; the result of the write is not looked at. *)
Definition ClearLines (w : Writer) : Writer :=
  if w_tty w then fst (OutDev_Write None (clearLines (lineCount w)) w) else w.

(** [Writer.Write] *)
Definition Writer_Write (data : bytes) (w : Writer) : Writer :=
  mkWriter (w_out w) (w_buf w ++ data) (lineCount w) (w_tty w).

(** [NormalWrite]: past the buffer, over the table. *)
Definition NormalWrite (r : out_res) (buf : bytes) (w : Writer) : Writer * (nat * option error) :=
  let '(w', err) := OutDev_Write r buf (ClearLines w) in
  (w', (match r with None => length buf | Some (k, _) => k end, err)).

(** The loop that counts the lines of the buffer. *)
Fixpoint count_lines (b : bytes) : nat :=
  match b with
  | [] => 0
  | c :: b' => if decide (c = NL) then S (count_lines b') else count_lines b'
  end.

(** [Flush]; [onLinesCleared] writes its text to [OutDev]. *)
Definition Flush (onLinesCleared : option (bytes * out_res)) (r : out_res) (w : Writer) :
    Writer * option error :=
  match w_buf w with
  | [] => (w, None)
  | _ =>
      let w1 := ClearLines w in
      let '(w2, err) := match onLinesCleared with
                        | Some (text, r1) => OutDev_Write r1 text w1
                        | None => (w1, None)
                        end in
      match err with
      | Some e => (w2, Some e)
      | None =>
          let w3 := mkWriter (w_out w2) (w_buf w2) (count_lines (w_buf w2)) (w_tty w2) in
          let '(w4, err) := OutDev_Write r (w_buf w3) w3 in
          (mkWriter (w_out w4) [] (lineCount w4) (w_tty w4), err)
      end
  end.

(** * The table *)

Definition row (cells : list bytes) : bytes := concat (map (fun c => c ++ [TAB]) cells) ++ [NL].

(** [%d] of a number that is not negative. *)
Definition fmt_d (n : Z) : bytes := Itoa (Z.to_N n).

(** The loop over the addresses, in the order in which the map is ranged over:
    its rows, the rows of the terminal that are left, and the records hidden. *)
Fixpoint show_rows (order : list string) (addresses : gmap string Z) (terminalRows recordsHiden : Z) :
    bytes * Z * Z :=
  match order with
  | [] => ([], terminalRows, recordsHiden)
  | addr :: order' =>
      if (terminalRows <=? 2)%Z then ([], terminalRows, recordsHiden)
      else
        let '(text, rows, hidden) := show_rows order' addresses (terminalRows - 1)%Z (recordsHiden - 1)%Z in
        (row [bytes_of addr; fmt_d (default 0%Z (addresses !! addr))] ++ text, rows, hidden)
  end.

(** [SetLogBuffer]: what it writes to the tabwriter; [size] is the outcome of
    [terminal.GetSize], [order] the range over the addresses. *)
Definition SetLogBuffer (size : error + Z) (order : list string) (r : ConnRecord) : bytes :=
  match size with
  | inl _ => []
  | inr terminalRows =>
      let rows0 := (terminalRows - 1)%Z in
      row [bytes_of "TARGETs"; bytes_of "CONNECTIONs"] ++
      (if (2 <=? rows0)%Z then
         let '(text, rows, hidden) := show_rows order (Addresses r) rows0 (Z.of_nat (base.size (Addresses r))) in
         text ++
         (if (hidden =? 0)%Z then
            row [bytes_of "TOTAL"; fmt_d (ConnSize r)] ++
            (if (2 <? rows)%Z
             then row [bytes_of "QueueLen " ++ fmt_d (QueueHubLen r); bytes_of "LinkLen " ++ fmt_d (LinkHubLen r)]
             else [])
          else row [bytes_of "TOTAL"; fmt_d (ConnSize r);
                    bytes_of "(" ++ fmt_d hidden ++ bytes_of " record(s) hidden)"])
       else [])
  end.

(** * The progress log *)

Section log.
(** [text/tabwriter]: the text written to it, as laid out when it is flushed. *)
Context (layout : bytes -> bytes).

(** A call of [SetLogBuffer], which writes the table to the buffer of the writer.
    Both callers hold the mutex of the record. When the size of the terminal
    cannot be had, [logrus.Error] writes to the output of the logger, which is
    the [ProgressLog] itself ([log.SetOutput] in [StartClient]), whose [Write]
    locks that mutex: the call never returns ([None]). *)
Definition buffer_table (size : error + Z) (order : list string) (r : ConnRecord) (w : Writer) : option Writer :=
  match size with
  | inl _ => None
  | inr _ => Some (Writer_Write (layout (SetLogBuffer size order r)) w)
  end.

(** [ProgressLog.Write], the output of the logger. *)
Definition ProgressLog_Write (size : error + Z) (order : list string) (r : ConnRecord) (buf : bytes)
    (r1 r2 : out_res) (w : Writer) : option (Writer * (nat * option error)) :=
  w1 ← buffer_table size order r w;
  let '(w', err) := Flush (Some (buf, r1)) r2 w1 in
  Some (w', (length buf, err)).

(** [record.OnChange] of a client on a terminal (client/client.go); the result of
    [Flush] is not looked at. *)
Definition OnChange (size : error + Z) (order : list string) (r : ConnRecord) (r2 : out_res) (w : Writer) :
    option Writer :=
  w1 ← buffer_table size order r w; Some (fst (Flush None r2 w1)).

(** A write to the terminal that fails: the table stays in the buffer when the
    line of the log could not be written, and is written before the next one. *)
Theorem log_write_fails rows order r buf k e r2 w w' n err :
  ProgressLog_Write (inr rows) order r buf (Some (k, e)) r2 w = Some (w', (n, err)) ->
  n = length buf /\
  (w_buf w ++ layout (SetLogBuffer (inr rows) order r) <> [] ->
   err = Some e /\ w_buf w' = w_buf w ++ layout (SetLogBuffer (inr rows) order r) /\ lineCount w' = lineCount w).
Proof.
  unfold ProgressLog_Write, Flush. cbn [buffer_table mbind option_bind Writer_Write w_buf].
  set (b := w_buf w ++ _). destruct b as [|c b'] eqn:Eb; intros H; simplify_eq/=; [done|]. split; [done|]. intros _.
  unfold ClearLines. simpl. by destruct (w_tty w).
Qed.
End log.

(** * The table fits the terminal *)

Lemma count_lines_app a b : count_lines (a ++ b) = count_lines a + count_lines b.
Proof. induction a as [|c a IH]; simpl; [done|]. case_decide; rewrite IH; done. Qed.

Lemma count_lines_none a : NL ∉ a -> count_lines a = 0.
Proof.
  induction a as [|c a IH]; intros Ha; simpl; [done|]. rewrite decide_False by set_solver.
  apply IH. set_solver.
Qed.

Lemma count_lines_row cells : Forall (fun c => NL ∉ c) cells -> count_lines (row cells) = 1.
Proof.
  intros Hc. unfold row. rewrite count_lines_app. simpl.
  enough (count_lines (concat (map (fun c => c ++ [TAB]) cells)) = 0) as -> by done.
  induction Hc as [|c cells Hc _ IH]; simpl; [done|].
  rewrite !count_lines_app, IH, count_lines_none by done. done.
Qed.

(** Decimal numbers are written with digits only. *)
Lemma fmt_d_digits x n : (forall m, pretty_N_char m <> x) -> x ∉ fmt_d n.
Proof.
  intros Hx. unfold fmt_d, Itoa. generalize (Z.to_N n) as m. intros m.
  assert (forall m s, x ∉ bytes_of s -> x ∉ bytes_of (pretty_N_go m s)) as Hgo.
  { clear m n. intros m. induction (N.lt_wf_0 m) as [m _ IH]. intros s Hs.
    destruct (decide (m = 0)%N) as [->|Hm]; [by rewrite pretty_N_go_0|].
    rewrite pretty_N_go_step by lia. apply IH; [apply N.div_lt; lia|].
    simpl. apply not_elem_of_cons. split; [|done]. intros ->. by eapply Hx. }
  unfold pretty, pretty_N. case_decide; [|by apply Hgo, not_elem_of_nil].
  simpl. apply not_elem_of_cons. split; [|apply not_elem_of_nil]. intros ->. by apply (Hx 0%N).
Qed.

Lemma fmt_d_NL n : NL ∉ fmt_d n.
Proof. apply fmt_d_digits. intros m. unfold pretty_N_char. repeat case_match; done. Qed.

Lemma fmt_d_ESC n : ESC ∉ fmt_d n.
Proof. apply fmt_d_digits. intros m. unfold pretty_N_char. repeat case_match; done. Qed.

Lemma show_rows_count order addresses rows hidden text rows' hidden' :
  Forall (fun a => NL ∉ bytes_of a) order -> (2 <= rows)%Z ->
  show_rows order addresses rows hidden = (text, rows', hidden') ->
  let n := Z.of_nat (count_lines text) in
  n = Z.min (Z.of_nat (length order)) (rows - 2) /\ rows' = (rows - n)%Z /\ hidden' = (hidden - n)%Z.
Proof.
  intros Ho. revert rows hidden text. induction Ho as [|a order Ha _ IH]; intros rows hidden text Hr; simpl.
  { intros; simplify_eq/=. lia. }
  destruct (Z.leb_spec rows 2) as [Hle|Hgt]; [intros; simplify_eq/=; lia|].
  destruct (show_rows order addresses (rows - 1) (hidden - 1)) as [[t r1] h1] eqn:E.
  intros; simplify_eq. apply IH in E; [|lia]. simpl in E. rewrite count_lines_app, count_lines_row.
  - lia.
  - repeat constructor; [done|apply fmt_d_NL].
Qed.

(** The table fits the terminal: for a terminal of at least three rows and
    [n] targets it has [n] + 3 lines, or one line less than the terminal has
    rows if that is less; records that do not fit are counted instead of shown.
    (A target whose name has a line break would take more.) *)
Theorem SetLogBuffer_fits rows order r :
  order ≡ₚ map fst (map_to_list (Addresses r)) -> Forall (fun a => NL ∉ bytes_of a) order ->
  (3 <= rows)%Z ->
  Z.of_nat (count_lines (SetLogBuffer (inr rows) order r)) =
    Z.min (Z.of_nat (base.size (Addresses r)) + 3) (rows - 1).
Proof.
  intros Hperm Ho Hr. assert (length order = base.size (Addresses r)) as Hlen.
  { rewrite Hperm, length_map. by rewrite length_map_to_list. }
  unfold SetLogBuffer. rewrite count_lines_app, count_lines_row by (repeat constructor; set_solver).
  destruct (Z.leb_spec 2 (rows - 1)) as [H2|]; [|lia].
  destruct (show_rows order (Addresses r) (rows - 1) (Z.of_nat (base.size (Addresses r)))) as [[t r1] h1] eqn:E.
  apply show_rows_count in E as (Hn & -> & ->); [|done..].
  assert (forall a b : bytes, NL ∉ a -> NL ∉ b -> NL ∉ (a ++ b)) as Happ by set_solver.
  assert (forall s n, NL ∉ bytes_of s -> NL ∉ (bytes_of s ++ fmt_d n)) as Hd.
  { intros s n Hs. apply Happ; [done|apply fmt_d_NL]. }
  rewrite count_lines_app.
  destruct (Z.eqb_spec (Z.of_nat (base.size (Addresses r)) - Z.of_nat (count_lines t)) 0) as [E0|E0].
  - rewrite count_lines_app, count_lines_row by (repeat constructor; [set_solver|apply fmt_d_NL]).
    destruct (Z.ltb_spec 2 (rows - 1 - Z.of_nat (count_lines t))).
    + rewrite count_lines_row by (repeat constructor; apply Hd; set_solver). lia.
    + simpl. lia.
  - rewrite count_lines_row; [lia|]. repeat constructor; [set_solver|apply fmt_d_NL|].
    rewrite app_assoc. apply Happ; [apply Hd|]; set_solver.
Qed.

(** * The terminal *)

(** A terminal of [W] columns and [H] rows: the rows from the first that was
    written, of which the last [H] are the window, and the cursor, whose column
    is [W] after a character in the last column. It knows printable characters,
    of one column each, line breaks and the two sequences of [clear]. *)
Record screen := mkScreen { sc_rows : list bytes; sc_row : nat; sc_col : nat }.

Definition blank_screen : screen := mkScreen [[]] 0 0.

Section terminal.
Context (W H : nat).

(** The first column of the next row; at the bottom the window scrolls. *)
Definition next_row (s : screen) : screen :=
  mkScreen (if S (sc_row s) <? length (sc_rows s) then sc_rows s else sc_rows s ++ [[]]) (S (sc_row s)) 0.

Definition put_char (c : ascii) (s : screen) : screen :=
  let s1 := if sc_col s =? W then next_row s else s in
  mkScreen
    (alter (fun r => take (sc_col s1) r ++ replicate (sc_col s1 - length r) " "%char ++ c :: drop (S (sc_col s1)) r)
       (sc_row s1) (sc_rows s1))
    (sc_row s1) (S (sc_col s1)).

(** The cursor goes up, but not out of the window. *)
Definition cursor_up (s : screen) : screen :=
  if length (sc_rows s) - H <? sc_row s then mkScreen (sc_rows s) (pred (sc_row s)) (sc_col s) else s.

Definition erase_row (s : screen) : screen := mkScreen (alter (fun _ => []) (sc_row s) (sc_rows s)) (sc_row s) (sc_col s).

Fixpoint term (b : bytes) (s : screen) : screen :=
  match b with
  | [] => s
  | c :: b' =>
      if decide (c = NL) then term b' (next_row s)
      else if decide (c = ESC) then
        match b' with
        | "["%char :: "1"%char :: "A"%char :: b'' => term b'' (cursor_up s)
        | "["%char :: "2"%char :: "K"%char :: b'' => term b'' (erase_row s)
        | _ => term b' s
        end
      else term b' (put_char c s)
  end.

(** The rows that a line takes. *)
Fixpoint wrap_from (cur l : bytes) : list bytes :=
  match l with
  | [] => [cur]
  | c :: l' => if length cur =? W then cur :: wrap_from [c] l' else wrap_from (cur ++ [c]) l'
  end.

Definition wrap (l : bytes) : list bytes := wrap_from [] l.

Lemma wrap_short l : length l <= W -> wrap l = [l].
Proof.
  intros Hl. enough (forall cur, length cur + length l <= W -> wrap_from cur l = [cur ++ l]) as E by by apply (E []).
  clear Hl. induction l as [|c l IH]; intros cur Hl; simpl in *; [by rewrite app_nil_r|].
  destruct (Nat.eqb_spec (length cur) W); [lia|]. rewrite IH by (rewrite length_app; simpl; lia). by rewrite <- app_assoc.
Qed.

Lemma wrap_concat l : 0 < W -> concat (wrap l) = l /\ Forall (fun r => length r <= W) (wrap l).
Proof.
  intros HW. enough (forall cur, length cur <= W ->
    concat (wrap_from cur l) = cur ++ l /\ Forall (fun r => length r <= W) (wrap_from cur l)) as E.
  { apply (E []). simpl. lia. }
  induction l as [|c l IH]; intros cur Hc; simpl; [by split; [|repeat constructor]|].
  destruct (Nat.eqb_spec (length cur) W).
  - destruct (IH [c]) as [E F]; [simpl; lia|]. simpl. rewrite E. by split; [|constructor].
  - destruct (IH (cur ++ [c])) as [E F]; [rewrite length_app; simpl; lia|]. by rewrite E, <- app_assoc.
Qed.
End terminal.

(** The lines of a text, and what follows the last of them. *)
Fixpoint split_lines (b : bytes) (cur : bytes) : list bytes * bytes :=
  match b with
  | [] => ([], cur)
  | c :: b' =>
      if decide (c = NL) then let '(l, r) := split_lines b' [] in (cur :: l, r) else split_lines b' (cur ++ [c])
  end.

Definition lines_of (b : bytes) : list bytes := fst (split_lines b []).

Definition printable (c : ascii) : Prop := (32 <= byte_N c)%N /\ byte_N c <> 127%N.

#[export] Instance printable_dec c : Decision (printable c).
Proof. unfold printable. apply _. Defined.

(** Complete lines of characters that satisfy [P]. *)
Definition lines_in (P : ascii -> Prop) (b : bytes) : Prop :=
  Forall (fun c => c = NL \/ P c) b /\ snd (split_lines b []) = [].

Definition whole_lines : bytes -> Prop := lines_in printable.
(** The input of a tabwriter. *)
Definition tabbed_lines : bytes -> Prop := lines_in (fun c => printable c \/ c = TAB).

Lemma split_lines_app a b cur :
  snd (split_lines a cur) = [] ->
  split_lines (a ++ b) cur = (fst (split_lines a cur) ++ lines_of b, snd (split_lines b [])).
Proof.
  unfold lines_of. revert cur. induction a as [|c a IH]; intros cur; simpl.
  { intros ->. by destruct (split_lines b []). }
  case_decide; [|apply IH]. intros Ha. specialize (IH []). destruct (split_lines a []) as [l r]. simpl in *.
  rewrite IH by done. done.
Qed.

Lemma lines_in_app P a b : lines_in P a -> lines_in P b -> lines_in P (a ++ b).
Proof.
  intros [Ha Ea] [Hb Eb]. split; [by apply Forall_app|]. by rewrite split_lines_app.
Qed.

Lemma lines_in_nil P : lines_in P [].
Proof. by split; [constructor|]. Qed.

Lemma split_lines_none a cur b : NL ∉ a -> split_lines (a ++ b) cur = split_lines b (cur ++ a).
Proof.
  revert cur. induction a as [|c a IH]; intros cur Ha; simpl; [by rewrite app_nil_r|].
  rewrite decide_False by set_solver. rewrite IH by set_solver. by rewrite <- app_assoc.
Qed.

Lemma lines_in_line P a : NL ∉ a -> Forall P a -> lines_in P (a ++ [NL]).
Proof.
  intros Hn Ha. split; [|by rewrite split_lines_none].
  apply Forall_app. split; [eapply Forall_impl; [done|]; by right|]. repeat constructor.
Qed.

Lemma length_lines_of b : length (lines_of b) = count_lines b.
Proof.
  unfold lines_of. generalize (@nil ascii) as cur. induction b as [|c b IH]; intros cur; simpl; [done|].
  case_decide; [|apply IH]. specialize (IH []). destruct (split_lines b []). simpl in *. by rewrite IH.
Qed.

Lemma printable_plain c : printable c -> c <> NL /\ c <> ESC /\ c <> TAB.
Proof. intros [Hc _]. split_and!; intros ->; by vm_compute in Hc. Qed.

Lemma row_lines cells : Forall (Forall printable) cells -> tabbed_lines (row cells).
Proof.
  intros Hc. apply lines_in_line.
  - induction Hc as [|c cells Hc _ IH]; simpl; [apply not_elem_of_nil|]. rewrite !elem_of_app, list_elem_of_singleton.
    intros [[Hn|?]|]; [|done|done]. rewrite Forall_forall in Hc. by apply Hc, printable_plain in Hn as [].
  - induction Hc as [|c cells Hc _ IH]; simpl; [constructor|]. rewrite !Forall_app, Forall_singleton.
    split_and!; [|by right|done]. eapply Forall_impl; [done|]. by left.
Qed.

Lemma fmt_d_printable n : Forall printable (fmt_d n).
Proof.
  apply Forall_forall. intros x Hx. destruct (decide (printable x)) as [|Hp]; [done|]. exfalso. revert Hx.
  apply fmt_d_digits. intros m <-. apply Hp. unfold pretty_N_char. repeat case_match; by vm_compute.
Qed.

Lemma bytes_printable s : bool_decide (Forall printable (bytes_of s)) = true -> Forall printable (bytes_of s).
Proof. apply bool_decide_eq_true_1. Qed.

Lemma show_rows_lines order addresses rows hidden :
  Forall (fun a => Forall printable (bytes_of a)) order ->
  tabbed_lines (fst (fst (show_rows order addresses rows hidden))).
Proof.
  intros Ho. revert rows hidden. induction Ho as [|a order Ha _ IH]; intros rows hidden; simpl; [apply lines_in_nil|].
  destruct (rows <=? 2)%Z; [apply lines_in_nil|]. specialize (IH (rows - 1)%Z (hidden - 1)%Z).
  destruct (show_rows order addresses _ _) as [[t r1] h1]. simpl in *. apply lines_in_app; [|done].
  apply row_lines. repeat constructor; [done|apply fmt_d_printable].
Qed.

Lemma SetLogBuffer_lines rows order r :
  Forall (fun a => Forall printable (bytes_of a)) order -> tabbed_lines (SetLogBuffer (inr rows) order r).
Proof.
  intros Ho. unfold SetLogBuffer. apply lines_in_app; [apply row_lines; repeat constructor; by vm_compute|].
  destruct (2 <=? rows - 1)%Z; [|apply lines_in_nil].
  pose proof (show_rows_lines order (Addresses r) (rows - 1) (Z.of_nat (base.size (Addresses r))) Ho) as Hw.
  destruct (show_rows _ _ _ _) as [[t r1] h1]. simpl in Hw. apply lines_in_app; [done|].
  pose proof fmt_d_printable as Hd.
  destruct (h1 =? 0)%Z.
  - apply lines_in_app.
    { apply row_lines. rewrite !Forall_cons. split_and!; [by apply bytes_printable|apply Hd|constructor]. }
    destruct (2 <? r1)%Z; [|apply lines_in_nil]. apply row_lines.
    rewrite !Forall_cons, !Forall_app. split_and!; [by apply bytes_printable|apply Hd|by apply bytes_printable|apply Hd|constructor].
  - apply row_lines. rewrite !Forall_cons, !Forall_app.
    split_and!; [by apply bytes_printable|apply Hd|by apply bytes_printable|apply Hd|by apply bytes_printable|constructor].
Qed.

(** ** Filling the screen *)

Section filling.
Context (W H : nat) (HW : 0 < W).
#[local] Abbreviation term := (term W H).

Lemma term_app a b s : ESC ∉ a -> term (a ++ b) s = term b (term a s).
Proof using Type.
  clear HW.
  revert s. induction a as [|c a IH]; intros s Ha; simpl; [done|].
  rewrite !(decide_False (P := c = ESC)) by set_solver. case_decide; apply IH; set_solver.
Qed.

(** The rows [above], then the cursor's with [cur] in it, and nothing below. *)
Record painted (s : screen) (above : list bytes) (cur : bytes) : Prop := {
  pt_rows : exists k, sc_rows s = above ++ cur :: replicate k [];
  pt_row : sc_row s = length above;
  pt_col : sc_col s = length cur;
  pt_fits : length cur <= W;
}.

Lemma painted_next s above cur :
  painted s above cur ->
  painted (next_row s) (above ++ [cur]) [] /\
  length (sc_rows (next_row s)) = Nat.max (length (sc_rows s)) (length above + 2).
Proof using HW.
  intros [[k Hk] Hr _ _]. unfold next_row. rewrite Hk, Hr, !length_app. simpl. rewrite length_replicate.
  destruct (Nat.ltb_spec (S (length above)) (length above + S k)) as [Hlt|Hge]; simpl.
  - split; [split; simpl; try lia; [|rewrite length_app; simpl; lia]|rewrite length_app; simpl; rewrite length_replicate; lia].
    destruct k as [|k]; [lia|]. exists k. by rewrite <- app_assoc.
  - assert (k = 0) as -> by lia. split; [split; simpl; try lia; [|rewrite length_app; simpl; lia]|rewrite !length_app; simpl; lia].
    by exists 0.
Qed.

Lemma painted_put s above cur c :
  painted s above cur -> length cur < W ->
  painted (put_char W c s) above (cur ++ [c]) /\ length (sc_rows (put_char W c s)) = length (sc_rows s).
Proof using HW.
  intros [[k Hk] Hr Hc Hf] Hlt. unfold put_char. destruct (Nat.eqb_spec (sc_col s) W); [lia|]. cbn zeta. simpl.
  split; [|by rewrite length_alter]. split; simpl.
  - exists k. rewrite Hk, Hr, Hc. rewrite alter_app_r_alt by lia. rewrite Nat.sub_diag. simpl.
    rewrite firstn_all, Nat.sub_diag, drop_ge by lia. done.
  - done.
  - rewrite length_app. simpl. lia.
  - rewrite length_app. simpl. lia.
Qed.

Lemma painted_wrap s above cur c :
  painted s above cur -> length cur = W ->
  painted (put_char W c s) (above ++ [cur]) [c] /\
  length (sc_rows (put_char W c s)) = Nat.max (length (sc_rows s)) (length above + 2).
Proof using HW.
  intros Hp Hw. destruct (painted_next _ _ _ Hp) as [Hn Hl].
  assert (put_char W c s = put_char W c (next_row s)) as ->.
  { unfold put_char at 1. rewrite (pt_col _ _ _ Hp), Hw, Nat.eqb_refl. unfold put_char.
    assert ((sc_col (next_row s) =? W) = false) as -> by (apply Nat.eqb_neq; simpl; lia). done. }
  rewrite <- Hl. by apply (painted_put _ _ []).
Qed.

Fixpoint fill (b : bytes) (above : list bytes) (cur : bytes) : list bytes * bytes :=
  match b with
  | [] => (above, cur)
  | c :: b' =>
      if decide (c = NL) then fill b' (above ++ [cur]) []
      else if length cur =? W then fill b' (above ++ [cur]) [c] else fill b' above (cur ++ [c])
  end.

Lemma term_fill b s above cur :
  Forall (fun c => c = NL \/ printable c) b -> painted s above cur ->
  painted (term b s) (fst (fill b above cur)) (snd (fill b above cur)) /\
  length (sc_rows (term b s)) = Nat.max (length (sc_rows s)) (S (length (fst (fill b above cur)))).
Proof using HW.
  intros Hb. revert s above cur. induction Hb as [|c b Hc _ IH]; intros s above cur Hp; simpl.
  { split; [done|]. destruct Hp as [[k Hk] _ _ _]. rewrite Hk, length_app. simpl. lia. }
  assert (forall above' cur', length above' <= length (fst (fill b above' cur'))) as Hmono.
  { clear. induction b as [|c b IH]; intros above' cur'; simpl; [lia|].
    destruct (decide (c = NL)); [|destruct (length cur' =? W)]; try apply IH;
      (etrans; [|apply IH]; rewrite length_app; simpl; lia). }
  destruct (decide (c = NL)) as [->|Hn].
  - destruct (painted_next _ _ _ Hp) as [Hp1 Hl1]. destruct (IH _ _ _ Hp1) as [H1 H2]. split; [done|].
    rewrite H2, Hl1. pose proof (Hmono (above ++ [cur]) []) as Hm. rewrite length_app in Hm. simpl in Hm. lia.
  - destruct Hc as [|Hc]; [done|]. rewrite (decide_False (P := c = ESC)) by apply (printable_plain _ Hc).
    destruct (Nat.eqb_spec (length cur) W) as [Ew|Ew].
    + destruct (painted_wrap _ _ _ c Hp Ew) as [Hp1 Hl1]. destruct (IH _ _ _ Hp1) as [H1 H2]. split; [done|].
      rewrite H2, Hl1. pose proof (Hmono (above ++ [cur]) [c]) as Hm. rewrite length_app in Hm. simpl in Hm. lia.
    + pose proof (pt_fits _ _ _ Hp). destruct (painted_put _ _ _ c Hp) as [Hp1 Hl1]; [lia|].
      destruct (IH _ _ _ Hp1) as [H1 H2]. split; [done|]. by rewrite H2, Hl1.
Qed.

Lemma fill_line l rest above cur :
  NL ∉ l -> fill (l ++ NL :: rest) above cur = fill rest (above ++ wrap_from W cur l) [].
Proof using HW.
  revert above cur. induction l as [|c l IH]; intros above cur Hn; simpl; [done|].
  rewrite decide_False by set_solver. destruct (length cur =? W); rewrite IH by set_solver; [|done]. by rewrite <- app_assoc.
Qed.

(** A text of complete lines is its lines. *)
Lemma split_lines_join b cur :
  NL ∉ cur -> snd (split_lines b cur) = [] ->
  cur ++ b = concat (map (fun l => l ++ [NL]) (fst (split_lines b cur))) /\
  Forall (fun l => NL ∉ l) (fst (split_lines b cur)).
Proof using HW.
  revert cur. induction b as [|c b IH]; intros cur Hcur; simpl; [by intros ->|].
  case_decide as Hc.
  - specialize (IH [] (not_elem_of_nil _)). destruct (split_lines b []) as [ls r]. simpl in *. intros Hr.
    destruct (IH Hr) as [<- HF]. subst. split; [by rewrite <- app_assoc|by constructor].
  - intros Hr. destruct (IH (cur ++ [c])) as [E HF]; [set_solver|done|]. split; [|done]. by rewrite <- E, <- app_assoc.
Qed.

Lemma fill_whole P b above :
  lines_in P b -> fill b above [] = (above ++ concat (map (wrap W) (lines_of b)), []).
Proof using HW.
  intros [_ Hb]. destruct (split_lines_join b [] (not_elem_of_nil _) Hb) as [E HF]. simpl in E. unfold lines_of.
  revert E HF. generalize (fst (split_lines b [])) as ls. intros ls ->. clear Hb. revert above.
  induction ls as [|l ls IH]; intros above HF; simpl; [by rewrite app_nil_r|]. inversion HF; subst.
  rewrite <- app_assoc. simpl. rewrite fill_line, IH by done. by rewrite <- app_assoc.
Qed.

(** Whole lines at the beginning of a row. *)
Lemma term_whole b s above :
  whole_lines b -> painted s above [] ->
  painted (term b s) (above ++ concat (map (wrap W) (lines_of b))) [] /\
  length (sc_rows (term b s)) =
    Nat.max (length (sc_rows s)) (S (length above + length (concat (map (wrap W) (lines_of b))))).
Proof using HW.
  intros Hb Hp. destruct (term_fill b s above [] (proj1 Hb) Hp) as [H1 H2].
  rewrite (fill_whole printable) in H1, H2 by done. simpl in *. by rewrite length_app in H2.
Qed.

(** Clearing rows of the window that end at the cursor. *)
Lemma term_clear s above rows :
  painted s (above ++ rows) [] -> length (sc_rows s) - H <= length above ->
  exists s', (forall b, term (clearLines (length rows) ++ b) s = term b s') /\ painted s' above [] /\
    length (sc_rows s') = length (sc_rows s).
Proof using HW.
  revert s. induction rows as [|x rows IH] using rev_ind; intros s Hp Hw.
  { rewrite app_nil_r in Hp. by exists s. }
  rewrite length_app, Nat.add_comm. unfold clearLines in *. simpl.
  destruct Hp as [[k Hk] Hr Hc _]. unfold cursor_up. rewrite !length_app in Hr. simpl in Hr.
  destruct (Nat.ltb_spec (length (sc_rows s) - H) (sc_row s)); [|lia].
  set (s1 := erase_row _). destruct (IH s1) as (s' & E & Hp' & Hl').
  - split; simpl; try lia; [|rewrite Hr, length_app; lia|by rewrite Hc]. exists (S k).
    rewrite Hk, Hr, <- !app_assoc. simpl.
    rewrite app_assoc, alter_app_r_alt by (rewrite length_app; lia).
    replace (pred _ - _) with 0 by (rewrite length_app; lia). simpl. by rewrite <- app_assoc.
  - simpl. by rewrite length_alter.
  - exists s'. split; [exact E|]. split; [done|]. rewrite Hl'. simpl. by rewrite length_alter.
Qed.
End filling.

(** * The log and the table on the terminal *)

Section showing.
Context (W H : nat) (HW : 0 < W) (HH : 3 <= H).
Context (layout : bytes -> bytes).

(** What the program needs of a tabwriter: of complete lines it makes as many
    complete lines, with blanks for the tabs. *)
Definition lays_out : Prop := forall text,
  tabbed_lines text -> text <> [] -> whole_lines (layout text) /\ count_lines (layout text) = count_lines text.

(** What is written to the terminal from the start: a line of the log, or a
    change of the record. The size of the terminal is had, and the writes
    succeed. *)
Inductive log_op :=
  | OpLog (order : list string) (r : ConnRecord) (buf : bytes)
  | OpChange (order : list string) (r : ConnRecord).

Definition log_step (op : log_op) (w : Writer) : option Writer :=
  match op with
  | OpLog order r buf => fst <$> ProgressLog_Write layout (inr (Z.of_nat H)) order r buf None None w
  | OpChange order r => OnChange layout (inr (Z.of_nat H)) order r None w
  end.

Fixpoint log_run (ops : list log_op) (w : Writer) : option Writer :=
  match ops with
  | [] => Some w
  | op :: ops' => w' ← log_step op w; log_run ops' w'
  end.

Definition op_text (op : log_op) : bytes := match op with OpLog _ _ buf => buf | _ => [] end.
Definition op_table (op : log_op) : bytes :=
  match op with OpLog order r _ | OpChange order r => layout (SetLogBuffer (inr (Z.of_nat H)) order r) end.

(** The rows that the log takes. *)
Definition log_rows (ops : list log_op) : list bytes :=
  concat (map (fun op => concat (map (wrap W) (lines_of (op_text op)))) ops).

(** The table ranges over the targets of the record, their names and the text of
    the log are printable, and the table is not wider than the terminal. *)
Definition op_ok (op : log_op) : Prop :=
  match op with OpLog order r _ | OpChange order r =>
    order ≡ₚ map fst (map_to_list (Addresses r)) /\ Forall (fun a => Forall printable (bytes_of a)) order
  end /\
  whole_lines (op_text op) /\ Forall (fun l => length l <= W) (lines_of (op_table op)).

(** The writer's terminal shows the rows [above] and under them [table]. *)
Record shows (w : Writer) (s : screen) (above table : list bytes) : Prop := {
  sh_term b : term W H (w_out w ++ b) blank_screen = term W H b s;
  sh_painted : painted W s (above ++ table) [];
  sh_window : length (sc_rows s) - H <= length above;
  sh_count : lineCount w = length table;
  sh_buf : w_buf w = [] /\ w_tty w = true;
}.

Lemma op_table_ok op :
  lays_out -> op_ok op ->
  whole_lines (op_table op) /\ op_table op <> [] /\ length (lines_of (op_table op)) < H /\
  concat (map (wrap W) (lines_of (op_table op))) = lines_of (op_table op).
Proof using HW HH.
  intros Hlay (Ho & _ & Hw).
  assert (exists order r, op_table op = layout (SetLogBuffer (inr (Z.of_nat H)) order r) /\
    order ≡ₚ map fst (map_to_list (Addresses r)) /\ Forall (fun a => Forall printable (bytes_of a)) order)
    as (order & r & E & Hperm & Hpr) by (destruct op; by eexists _, _).
  clear Ho. rewrite E in *. clear E.
  destruct (Hlay (SetLogBuffer (inr (Z.of_nat H)) order r)) as [Hl Hc]; [by apply SetLogBuffer_lines|done|].
  assert (Z.of_nat (count_lines (SetLogBuffer (inr (Z.of_nat H)) order r)) =
    Z.min (Z.of_nat (base.size (Addresses r)) + 3) (Z.of_nat H - 1)) as Hn.
  { apply SetLogBuffer_fits; [done| |lia]. eapply Forall_impl; [exact Hpr|]. intros a Ha Hin.
    rewrite Forall_forall in Ha. by apply Ha, printable_plain in Hin as []. }
  split_and!; [done| |rewrite length_lines_of; lia|].
  - intros En. rewrite En in Hc. simpl in Hc. lia.
  - induction Hw as [|l ls Hl1 _ IH]; simpl; [done|]. by rewrite wrap_short, IH.
Qed.

Lemma log_step_shows w s above table op :
  lays_out -> op_ok op -> shows w s above table ->
  exists w' s', log_step op w = Some w' /\
    shows w' s' (above ++ concat (map (wrap W) (lines_of (op_text op)))) (lines_of (op_table op)).
Proof using HW HH.
  intros Hlay Hok [Ht Hp Hwin Hc [Hb Hy]].
  destruct (op_table_ok op Hlay Hok) as (Hl & Hne & HlH & Hwr). destruct Hok as (_ & Hx & _).
  assert (exists w', log_step op w = Some w' /\
          w_out w' = w_out w ++ clearLines (lineCount w) ++ op_text op ++ op_table op /\
          lineCount w' = count_lines (op_table op) /\ w_buf w' = [] /\ w_tty w' = true) as (w' & Es & Eo & Ec & Eb).
  { clear Hp Ht Hc. destruct w as [out b n tty]. simpl in Hb, Hy. subst.
    destruct op as [order r buf|order r]; cbn [log_step op_text op_table] in *;
      unfold ProgressLog_Write, OnChange, Flush, buffer_table;
      revert Hne; generalize (layout (SetLogBuffer (inr (Z.of_nat H)) order r)); intros [|c l] Hne; try done;
      eexists; (split; [reflexivity|]); simpl; by rewrite <- ?app_assoc. }
  assert (forall b, whole_lines b -> ESC ∉ b) as Hesc.
  { intros b [HF _] Hin. rewrite Forall_forall in HF. destruct (HF _ Hin) as [|Hpr]; [done|].
    by apply printable_plain in Hpr as (_ & ? & _). }
  destruct (term_clear W H HW s above table Hp Hwin) as (s1 & Ht1 & Hp1 & Hl1).
  destruct (term_whole W H HW _ _ _ Hx Hp1) as [Hp2 Hl2]. set (s2 := term W H (op_text op) s1) in *.
  set (above' := above ++ concat (map (wrap W) (lines_of (op_text op)))) in *.
  destruct (term_whole W H HW _ _ _ Hl Hp2) as [Hp3 Hl3]. rewrite Hwr in Hp3, Hl3.
  exists w', (term W H (op_table op) s2). split; [done|].
  assert (length above <= length above') as Hab by (unfold above'; rewrite length_app; lia).
  split; [|done| |by rewrite Ec, length_lines_of|done].
  - intros b. rewrite Eo, <- !app_assoc, Ht, Hc, Ht1, term_app by by apply Hesc. by rewrite term_app by by apply Hesc.
  - rewrite Hl3, Hl2, Hl1. unfold above'. rewrite length_app. unfold above' in Hab. rewrite length_app in Hab. lia.
Qed.

Lemma log_run_shows ops w s above table :
  lays_out -> Forall op_ok ops -> shows w s above table ->
  exists w' s' table', log_run ops w = Some w' /\ shows w' s' (above ++ log_rows ops) table' /\
    table' = match last ops with Some op => lines_of (op_table op) | None => table end.
Proof using HW HH.
  intros Hlay Hops. revert w s above table. induction Hops as [|op ops Hop _ IH]; intros w s above table Hs; simpl.
  { exists w, s, table. by rewrite app_nil_r. }
  destruct (log_step_shows _ _ _ _ _ Hlay Hop Hs) as (w1 & s1 & -> & Hs1). simpl.
  destruct (IH _ _ _ _ Hs1) as (w' & s' & table' & E & Hs' & Et). exists w', s', table'. split; [done|].
  unfold log_rows. simpl. rewrite app_assoc. split; [done|]. rewrite Et, last_cons.
  by destruct (last ops).
Qed.
End showing.


(** A table that is wider than the terminal: its header takes two rows but is
    counted as one line, so after the next change of the record what the rows
    counted too few held is still there, above the new table (the overflow that a
    comment of [Flush] leaves to be done). *)
Definition detab (text : bytes) : bytes := map (fun c => if decide (c = TAB) then " "%char else c) text.
Definition narrow_ops : list log_op := replicate 2 (OpChange [] NewConnRecord).

Example wide_table_left_behind :
  (fun w => map string_of (sc_rows (term 15 24 (w_out w) blank_screen))) <$> log_run 24 detab narrow_ops (NewWriter true) =
    Some ["TARGETs CONNECT"; "IONs "; "TARGETs CONNECT"; "IONs "; "TOTAL 0 "; "QueueLen 0 Link"; "Len 0 "; ""]%string.
Proof. vm_compute. reflexivity. Qed.
