(* ===== verification/TermWindows.v ===== *)
(** Clearing lines of the Windows console (wss/term_view/clear_lines_windows.go).

    The console is reached by system calls, which take a [COORD] in the lower
    half of an argument; a call here is its arguments.  What
    [GetConsoleScreenBufferInfo] fills in is an argument of the model. *)
From S2P Require Import Prelude.

(** [short] wraps around. *)
Definition int16 (z : Z) : Z := (z + 2 ^ 15) `mod` 2 ^ 16 - 2 ^ 15.

Record coord := mkCoord { x : Z; y : Z }.
Record smallRect := mkRect { left : Z; top : Z; right : Z; bottom : Z }.
Record consoleScreenBufferInfo := mkCsbi {
  size : coord;
  cursorPosition : coord;
  attributes : Z;
  window : smallRect;
  maximumWindowSize : coord;
}.

(** The four bytes of a [coord] as a number, on a little-endian machine. *)
Definition coord_bits (c : coord) : Z := (x c `mod` 2 ^ 16 + (y c `mod` 2 ^ 16) * 2 ^ 16)%Z.

(** [uintptr] of those bytes read as an [int32], on a 64-bit machine. *)
Definition sign_extend (b : Z) : Z := if (b <? 2 ^ 31)%Z then b else (b + (2 ^ 64 - 2 ^ 32))%Z.

(** The [uintptr] at the address of a [coord]: its upper half is what follows in
    memory. *)
Definition with_rest (rest b : Z) : Z := (b + (rest `mod` 2 ^ 32) * 2 ^ 32)%Z.

Inductive console_call :=
  | SetConsoleCursorPosition (position : Z)
  | FillConsoleOutputCharacter (character count position : Z).

Definition space : Z := 32.

(** The loop of [clearLines]; [rests] is the memory after [cursor] in each turn. *)
Fixpoint clear_loop (rests : nat -> Z) (i lines : nat) (csbi : consoleScreenBufferInfo) : list console_call :=
  match lines with
  | 0 => []
  | S lines' =>
      let pos := mkCoord (x (cursorPosition csbi)) (int16 (y (cursorPosition csbi) - 1)) in
      let csbi1 := mkCsbi (size csbi) pos (attributes csbi) (window csbi) (maximumWindowSize csbi) in
      let cursor := mkCoord (left (window csbi1)) (int16 (top (window csbi1) + y (cursorPosition csbi1))) in
      [SetConsoleCursorPosition (sign_extend (coord_bits pos));
       FillConsoleOutputCharacter space (x (size csbi1) `mod` 2 ^ 32) (with_rest (rests i) (coord_bits cursor))] ++
      clear_loop rests (S i) lines' csbi1
  end.

Definition clearLines (rests : nat -> Z) (lines : nat) (csbi : consoleScreenBufferInfo) : list console_call :=
  clear_loop rests 0 lines csbi.

(** * What the console does *)

(** The [COORD] of an argument. *)
Definition arg_coord (a : Z) : coord := mkCoord (int16 (a `mod` 2 ^ 16)) (int16 (a / 2 ^ 16)).

Definition moved_to (c : console_call) : option coord :=
  match c with SetConsoleCursorPosition a => Some (arg_coord a) | _ => None end.
Definition blanked (c : console_call) : option (Z * coord) :=
  match c with FillConsoleOutputCharacter _ n a => Some (n, arg_coord a) | _ => None end.

Lemma int16_small z : (- 2 ^ 15 <= z < 2 ^ 15)%Z -> int16 z = z.
Proof. intros Hz. unfold int16. rewrite Z.mod_small; lia. Qed.

Lemma int16_idemp z : int16 (int16 z) = int16 z.
Proof. apply int16_small. unfold int16. pose proof (Z.mod_pos_bound (z + 2 ^ 15) (2 ^ 16)). lia. Qed.

Lemma int16_add_mod z k : int16 (z + k * 2 ^ 16) = int16 z.
Proof. unfold int16. f_equal. replace (z + k * 2 ^ 16 + 2 ^ 15)%Z with (z + 2 ^ 15 + k * 2 ^ 16)%Z by lia. by rewrite Z.mod_add. Qed.

Lemma int16_mod z : int16 (z `mod` 2 ^ 16) = int16 z.
Proof.
  rewrite <- (int16_add_mod (z `mod` 2 ^ 16) (z / 2 ^ 16)). f_equal.
  pose proof (Z.div_mod z (2 ^ 16)). lia.
Qed.

(** The console gets the coordinates, whatever is in the upper half. *)
Lemma arg_coord_bits c k : arg_coord (coord_bits c + k * 2 ^ 32) = mkCoord (int16 (x c)) (int16 (y c)).
Proof.
  unfold arg_coord, coord_bits. set (a := (x c `mod` 2 ^ 16)%Z). set (b := (y c `mod` 2 ^ 16)%Z).
  assert (0 <= a < 2 ^ 16)%Z as Ha by (by apply Z.mod_pos_bound).
  replace (a + b * 2 ^ 16 + k * 2 ^ 32)%Z with (a + (b + k * 2 ^ 16) * 2 ^ 16)%Z by lia. f_equal.
  - rewrite Z.mod_add, Z.mod_small by lia. apply int16_mod.
  - rewrite Z.div_add, Z.div_small, Z.add_0_l, int16_add_mod by lia. apply int16_mod.
Qed.

Lemma arg_sign_extend c : arg_coord (sign_extend (coord_bits c)) = mkCoord (int16 (x c)) (int16 (y c)).
Proof.
  unfold sign_extend. case_match.
  - rewrite <- (arg_coord_bits c 0). f_equal; lia.
  - rewrite <- (arg_coord_bits c (2 ^ 32 - 1)). f_equal; lia.
Qed.

Lemma int16_pred z k : int16 (int16 (z - 1) - k) = int16 (z - (1 + k)).
Proof.
  unfold int16 at 2. rewrite <- (int16_add_mod _ ((z - 1 + 2 ^ 15) / 2 ^ 16)). f_equal.
  pose proof (Z.div_mod (z - 1 + 2 ^ 15) (2 ^ 16)). lia.
Qed.

Definition cursor_at csbi (k : nat) : coord :=
  mkCoord (int16 (x (cursorPosition csbi))) (int16 (y (cursorPosition csbi) - Z.of_nat k)).
Definition blank_at csbi (k : nat) : Z * coord :=
  ((x (size csbi) `mod` 2 ^ 32)%Z, mkCoord (int16 (left (window csbi))) (int16 (top (window csbi) + y (cursor_at csbi k)))).

Lemma clear_loop_calls rests i lines csbi :
  omap moved_to (clear_loop rests i lines csbi) = map (cursor_at csbi) (seq 1 lines) /\
  omap blanked (clear_loop rests i lines csbi) = map (blank_at csbi) (seq 1 lines).
Proof.
  revert i csbi. induction lines as [|lines IH]; intros i csbi; [done|].
  cbn [clear_loop app omap list_omap moved_to blanked]. rewrite arg_sign_extend.
  unfold with_rest. rewrite arg_coord_bits. cbn [x y].
  set (csbi1 := mkCsbi _ _ _ _ _). destruct (IH (S i) csbi1) as [-> ->].
  cbn [seq map]. rewrite <- (seq_shift lines 1), !map_map, !int16_idemp.
  assert (forall k, cursor_at csbi1 k = cursor_at csbi (S k)) as Hc.
  { intros k. unfold cursor_at. cbn [csbi1 cursorPosition x y]. f_equal. rewrite int16_pred. f_equal. lia. }
  assert (map (cursor_at csbi1) (seq 1 lines) = map (cursor_at csbi ∘ S) (seq 1 lines)) as -> by (by apply map_ext).
  assert (map (blank_at csbi1) (seq 1 lines) = map (blank_at csbi ∘ S) (seq 1 lines)) as ->.
  { apply map_ext. intros k. unfold blank_at. rewrite Hc. done. }
  done.
Qed.

(** [clearLines] moves the cursor up line by line; in each turn it blanks the
    width of the buffer in the row of the cursor moved down by the top of the
    window, which is the row of the cursor only when the window shows the
    beginning of the buffer. *)
Theorem windows_clear_lines rests lines csbi :
  omap moved_to (clearLines rests lines csbi) = map (cursor_at csbi) (seq 1 lines) /\
  omap blanked (clearLines rests lines csbi) = map (blank_at csbi) (seq 1 lines) /\
  (forall k, y (snd (blank_at csbi k)) = y (cursor_at csbi k) <-> (top (window csbi) `mod` 2 ^ 16 = 0)%Z).
Proof.
  destruct (clear_loop_calls rests 0 lines csbi) as [H1 H2]. split_and!; [done|done|]. intros k.
  unfold blank_at, cursor_at, int16. cbn [snd y].
  set (t := top (window csbi)). set (c := (y (cursorPosition csbi) - Z.of_nat k + 2 ^ 15)%Z).
  replace (t + (c `mod` 2 ^ 16 - 2 ^ 15) + 2 ^ 15)%Z with (t + c `mod` 2 ^ 16)%Z by lia.
  pose proof (Z.mod_pos_bound c (2 ^ 16) ltac:(lia)) as Hb. split; intros H.
  - assert ((t + c `mod` 2 ^ 16) `mod` 2 ^ 16 = c `mod` 2 ^ 16)%Z as E by lia.
    pose proof (Z.div_mod (t + c `mod` 2 ^ 16) (2 ^ 16) ltac:(lia)) as Ed. rewrite E in Ed.
    replace t with ((t + c `mod` 2 ^ 16) / 2 ^ 16 * 2 ^ 16)%Z by lia. apply Z.mod_mul. lia.
  - rewrite Z.add_mod, H, Z.add_0_l, !Z.mod_mod by lia. done.
Qed.
