(* ===== verification/HttpUtils.v ===== *)
(** Writing the header of an HTTP message (wss/http_utils.go).  The order in
    which Go ranges over a header is an argument: the list has its entries in
    that order. *)
From Stdlib Require Import Ascii.
From S2P Require Import Prelude Net.

Definition CR : ascii := "013"%char.
Definition LF : ascii := "010"%char.
Definition CRLF : bytes := [CR; LF].

(** [strings.ToLower], for the names of headers, which are ASCII. *)
Definition lower (c : byte) : byte :=
  if (65 <=? byte_N c)%N && (byte_N c <=? 90)%N then ascii_of_N (byte_N c + 32) else c.
Definition ToLower (s : bytes) : bytes := map lower s.

(** [http.Header]: each name with its values. *)
Definition Header : Type := list (bytes * list bytes).

Definition header_line (name h : bytes) : bytes := name ++ bytes_of ": " ++ h ++ CRLF.

(** The fields of [http.Request] and of [http.Response] that are written;
    [req_URL] is [req.URL.String()]. *)
Record Request := mkRequest { req_Method : bytes; req_URL : bytes; req_Proto : bytes; req_Header : Header }.
Record Response := mkResponse { resp_Proto : bytes; resp_Status : bytes; resp_Header : Header }.

Definition HttpRequestHeader (buffer : bytes) (req : Request) : bytes :=
  buffer ++ (req_Method req ++ bytes_of " " ++ req_URL req ++ bytes_of " " ++ req_Proto req ++ CRLF) ++
  concat (map (fun '(name, headers) => concat (map (header_line (ToLower name)) headers)) (req_Header req)) ++ CRLF.

Definition HttpRespHeader (buffer : bytes) (resp : Response) : bytes :=
  buffer ++ (resp_Proto resp ++ bytes_of " " ++ resp_Status resp ++ CRLF) ++
  concat (map (fun '(name, headers) => concat (map (header_line name) headers)) (resp_Header resp)) ++ CRLF.

(** * Reading it back *)

(** A line, up to the first CRLF. *)
Fixpoint read_line (b : bytes) : option (bytes * bytes) :=
  match b with
  | [] => None
  | c :: b' =>
      match b' with
      | d :: b'' =>
          if decide (c = CR /\ d = LF) then Some ([], b'')
          else '(l, rest) ← read_line b'; Some (c :: l, rest)
      | [] => None
      end
  end.

(** The name and the value of a header's line. *)
Fixpoint read_field (l : bytes) : option (bytes * bytes) :=
  match l with
  | [] => None
  | c :: l' =>
      if decide (c = ":"%char) then match l' with _ :: v => Some ([], v) | [] => None end
      else '(n, v) ← read_field l'; Some (c :: n, v)
  end.

(** The fields, up to an empty line. *)
Fixpoint read_fields (fuel : nat) (b : bytes) : option (list (bytes * bytes) * bytes) :=
  match fuel with
  | 0 => None
  | S fuel' =>
      '(l, rest) ← read_line b;
      match l with
      | [] => Some ([], rest)
      | _ => f ← read_field l; '(fs, rest') ← read_fields fuel' rest; Some (f :: fs, rest')
      end
  end.

(** The entries of a header, one for each value. *)
Definition entries (rename : bytes -> bytes) (h : Header) : list (bytes * bytes) :=
  concat (map (fun '(name, headers) => map (pair (rename name)) headers) h).

Definition one_line (b : bytes) : Prop := CR ∉ b.
Definition field_ok (f : bytes * bytes) : Prop := one_line (fst f) /\ one_line (snd f) /\ ":"%char ∉ fst f.

Lemma read_line_cons c d b :
  read_line (c :: d :: b) =
    if decide (c = CR /\ d = LF) then Some ([], b) else '(l, rest) ← read_line (d :: b); Some (c :: l, rest).
Proof. done. Qed.

Lemma read_line_app l rest : one_line l -> read_line (l ++ CRLF ++ rest) = Some (l, rest).
Proof.
  induction l as [|c l IH]; intros Hl; [done|]. apply not_elem_of_cons in Hl as [Hc Hl]. specialize (IH Hl).
  cbn [app]. destruct (l ++ CRLF ++ rest) as [|d b] eqn:E; [by destruct l|].
  rewrite read_line_cons, decide_False by (by intros [-> _]). by rewrite IH.
Qed.

Lemma read_field_app n v : ":"%char ∉ n -> read_field (n ++ bytes_of ": " ++ v) = Some (n, v).
Proof.
  induction n as [|c n IH]; intros Hn; [done|]. apply not_elem_of_cons in Hn as [Hc Hn].
  cbn [app read_field]. rewrite decide_False by congruence. by rewrite (IH Hn).
Qed.

Lemma read_fields_entries fs rest fuel :
  Forall field_ok fs -> length fs < fuel ->
  read_fields fuel (concat (map (fun '(n, v) => header_line n v) fs) ++ CRLF ++ rest) = Some (fs, rest).
Proof.
  revert fuel. induction fs as [|[n v] fs IH]; intros fuel Hok Hf; (destruct fuel as [|fuel]; simpl in Hf; [lia|]).
  { by cbn [map concat app read_fields read_line]. }
  apply Forall_cons in Hok as [(Hn & Hv & Hc) Hok]. cbn [map concat read_fields]. unfold header_line at 1.
  replace (((n ++ bytes_of ": " ++ v ++ CRLF) ++ concat (map (fun '(n, v) => header_line n v) fs)) ++ CRLF ++ rest)
    with ((n ++ bytes_of ": " ++ v) ++ CRLF ++ (concat (map (fun '(n, v) => header_line n v) fs) ++ CRLF ++ rest))
    by (by rewrite <- !app_assoc).
  rewrite read_line_app.
  2: { intros [?|[Hin|?]%elem_of_app]%elem_of_app; [done| |done]. vm_compute in Hin.
       apply list_elem_of_In in Hin. by destruct Hin as [H|[H|[]]]. }
  cbn [mbind option_bind]. destruct (n ++ bytes_of ": " ++ v) as [|c l] eqn:El; [by destruct n|]. rewrite <- El.
  rewrite read_field_app by done. cbn [mbind option_bind]. rewrite IH; [done|done|lia].
Qed.

Lemma entries_lines rename (h : Header) :
  concat (map (fun '(name, headers) => concat (map (header_line (rename name)) headers)) h) =
    concat (map (fun '(n, v) => header_line n v) (entries rename h)).
Proof.
  unfold entries. induction h as [|[name hs] h IH]; [done|]. cbn [map concat]. rewrite map_app, concat_app, <- IH. f_equal.
  clear. induction hs as [|v hs IH]; [done|]. cbn [map concat]. by rewrite IH.
Qed.

(** What [HttpRequestHeader] writes is read back: the request line, and an entry
    for each value of each name, in lower case, in the order of the range; as
    long as no part has a carriage return and no name a colon (with one, a value
    makes entries of its own). *)
Theorem request_header_roundtrip req rest line :
  line = req_Method req ++ bytes_of " " ++ req_URL req ++ bytes_of " " ++ req_Proto req ->
  one_line line -> Forall field_ok (entries ToLower (req_Header req)) ->
  exists b, read_line (HttpRequestHeader [] req ++ rest) = Some (line, b) /\
    read_fields (S (length (entries ToLower (req_Header req)))) b = Some (entries ToLower (req_Header req), rest).
Proof.
  intros -> Hl Hok. unfold HttpRequestHeader. eexists. split.
  - rewrite app_nil_l. rewrite <- !app_assoc.
    replace (req_Method req ++ bytes_of " " ++ req_URL req ++ bytes_of " " ++ req_Proto req ++ CRLF ++
      concat (map (fun '(name, headers) => concat (map (header_line (ToLower name)) headers)) (req_Header req)) ++ CRLF ++ rest)
      with ((req_Method req ++ bytes_of " " ++ req_URL req ++ bytes_of " " ++ req_Proto req) ++ CRLF ++
      (concat (map (fun '(name, headers) => concat (map (header_line (ToLower name)) headers)) (req_Header req)) ++ CRLF ++ rest))
      by (by rewrite <- !app_assoc).
    by apply read_line_app.
  - rewrite entries_lines. apply read_fields_entries; [done|lia].
Qed.
