(* ===== verification/Handles.v ===== *)
(** The life of the client process (client/client.go): [StartClient] starts a
    goroutine for each websocket, one for the heart beat (wss/heart_beat.go) and
    one for the local listener; the first of them to end closes everything,
    through a [sync.Once] it shares with [NotifyClose], which an interrupt runs;
    [Wait] returns when all of them are done.

    The goroutines interleave at their reads and writes of the shared [Handles],
    while [StartClient] may still be running. *)
From S2P Require Import Prelude Pipe Listener.

(** * The state *)

(** What a goroutine runs: [ListenIncomeMsg] on a websocket, [HeartBeat.Start],
    [ListenAndServe], or [NotifyClose]. *)
Inductive kind := KListen (i : nat) | KHeart | KServe | KNotify.

#[export] Instance kind_eq_dec : EqDecision kind.
Proof. solve_decision. Defined.

(** Parts of [closeAll], and of the function of [NotifyClose]. *)
Inductive close_act :=
  | CClient (wait : bool)                         (* hdl.cl.Close(wait) *)
  | CWaitConns                                    (* client.wgClose.Wait() in it *)
  | CHeart                                        (* hdl.hb.Close() *)
  | CWsc (i : nat).                               (* wsc.Close() *)

(** Program points: running; [once.Do]; its function, with what it has still to
    do; after it; ended. *)
Inductive task_pc := TRun | TOnce | TClosing (todo : list close_act) | TAfter | TEnd.

Inductive once := OnceNo | OnceBusy | OnceDone.

(** What [StartClient] has still to do. *)
Inductive start_op := SListen (i : nat) | SHeart | SHeartGo | SClient | SServeGo | SOpen.

Inductive main_pc := MStart (todo : list start_op) | MWait | MReturned.

(** [Handles]: the listener, whether the heart beat and each websocket are
    closed, and [closed]; the once, the wait group, the goroutines, and the
    goroutine that runs [StartClient] and then [Wait]. *)
Record handles := mkHandles {
  h_cl : option Client;
  h_hb : option bool;
  h_wsc : list bool;
  h_closed : bool;
  h_once : once;
  h_wg : nat;
  h_tasks : list (kind * task_pc);
  h_main : main_pc;
}.

Definition set_cl (c : Client) (s : handles) : handles :=
  mkHandles (Some c) (h_hb s) (h_wsc s) (h_closed s) (h_once s) (h_wg s) (h_tasks s) (h_main s).
Definition set_hb (b : bool) (s : handles) : handles :=
  mkHandles (h_cl s) (Some b) (h_wsc s) (h_closed s) (h_once s) (h_wg s) (h_tasks s) (h_main s).
Definition close_wsc (i : nat) (s : handles) : handles :=
  mkHandles (h_cl s) (h_hb s) (<[i := true]> (h_wsc s)) (h_closed s) (h_once s) (h_wg s) (h_tasks s) (h_main s).
Definition set_closed (b : bool) (s : handles) : handles :=
  mkHandles (h_cl s) (h_hb s) (h_wsc s) b (h_once s) (h_wg s) (h_tasks s) (h_main s).
Definition set_once (o : once) (s : handles) : handles :=
  mkHandles (h_cl s) (h_hb s) (h_wsc s) (h_closed s) o (h_wg s) (h_tasks s) (h_main s).
Definition set_wg (n : nat) (s : handles) : handles :=
  mkHandles (h_cl s) (h_hb s) (h_wsc s) (h_closed s) (h_once s) n (h_tasks s) (h_main s).
Definition set_tasks (l : list (kind * task_pc)) (s : handles) : handles :=
  mkHandles (h_cl s) (h_hb s) (h_wsc s) (h_closed s) (h_once s) (h_wg s) l (h_main s).
Definition set_main (m : main_pc) (s : handles) : handles :=
  mkHandles (h_cl s) (h_hb s) (h_wsc s) (h_closed s) (h_once s) (h_wg s) (h_tasks s) m.

Definition start_ops (n : nat) : list start_op :=
  map SListen (seq 0 n) ++ [SHeart; SHeartGo; SClient; SServeGo; SOpen].

(** [NewClientHandles], with the [n] websockets of [CreateServerConn], at the
    start of [StartClient] after [wg.Add(2)]. *)
Definition StartClient (n : nat) : handles :=
  mkHandles None None (replicate n false) true OnceNo 2 [] (MStart (start_ops n)).

(** * Steps *)

(** [go] *)
Definition spawn (k : kind) (s : handles) : handles := set_tasks (h_tasks s ++ [(k, TRun)]) s.

Definition start_step (op : start_op) (s : handles) : handles :=
  match op with
  | SListen i => spawn (KListen i) (set_wg (S (h_wg s)) s)
  | SHeart => set_hb false s
  | SHeartGo => spawn KHeart s
  | SClient => set_cl NewClient s
  | SServeGo => spawn KServe s
  | SOpen => set_closed false s
  end.

(** The function given to [once.Do]. *)
Definition close_list (wait : bool) (s : handles) : list close_act :=
  CClient wait :: CHeart :: map CWsc (seq 0 (length (h_wsc s))).

(** A part of it: the new state, and what is to be done next; [None]: it waits. *)
Definition close_step (a : close_act) (s : handles) : option (handles * list close_act) :=
  match a with
  | CClient wait =>
      match h_cl s with
      | None => Some (s, [])
      | Some c =>
          match Close wait c with
          | (c', Some true) => Some (set_cl c' s, [CWaitConns])
          | (c', _) => Some (set_cl c' s, [])
          end
      end
  | CWaitConns =>
      match h_cl s with
      | Some c => if (cl_wg c =? 0)%Z then Some (s, []) else None
      | None => Some (s, [])
      end
  | CHeart => Some (match h_hb s with Some _ => set_hb true s | None => s end, [])
  | CWsc i => Some (close_wsc i s, [])
  end.

(** What makes a goroutine's loop end: its resource is closed. *)
Definition stopped (k : kind) (s : handles) : bool :=
  match k with
  | KListen i => default false (h_wsc s !! i)
  | KHeart => default false (h_hb s)
  | KServe => match h_cl s with Some c => listen_stopped c | None => false end
  | KNotify => true
  end.

(** The end of a goroutine: the deferred [wg.Done]. *)
Definition task_done (k : kind) (s : handles) : handles :=
  match k with KNotify => s | _ => set_wg (pred (h_wg s)) s end.

(** A step of goroutine [j]; [fails]: its loop ends with an error of its own. *)
Definition task_step (j : nat) (fails : bool) (s : handles) : option handles :=
  match h_tasks s !! j with
  | None => None
  | Some (k, pc) =>
      let goto pc' s' := set_tasks (<[j := (k, pc')]> (h_tasks s')) s' in
      match pc with
      | TRun =>
          match k with
          | KNotify =>                            (* the test of hdl.closed *)
              if h_closed s then Some (goto TEnd s) else Some (goto TOnce (set_closed true s))
          | _ => if fails || stopped k s then Some (goto TOnce s) else None
          end
      | TOnce =>
          match h_once s with
          | OnceNo => Some (goto (TClosing (close_list (bool_decide (k = KNotify)) s)) (set_once OnceBusy s))
          | OnceBusy => None
          | OnceDone => Some (goto TAfter s)
          end
      | TClosing [] => Some (goto TAfter (set_once OnceDone s))
      | TClosing (a :: todo) =>
          match close_step a s with
          | Some (s', next) => Some (goto (TClosing (next ++ todo)) s')
          | None => None
          end
      | TAfter => Some (goto TEnd (task_done k s))
      | TEnd => None
      end
  end.

(** The goroutine of [StartClient] and [Wait]. *)
Definition main_step (s : handles) : option handles :=
  match h_main s with
  | MStart (op :: todo) => Some (set_main (MStart todo) (start_step op s))
  | MStart [] => Some (set_main MWait s)
  | MWait => if decide (h_wg s = 0) then Some (set_main MReturned s) else None
  | MReturned => None
  end.

Inductive h_event :=
  | HMain
  | HTask (j : nat) (fails : bool)
  | HInterrupt                                    (* the first interrupt *)
  | HConns (n : Z).                               (* connections come and go *)

Definition h_step (s : handles) (ev : h_event) : option handles :=
  match ev with
  | HMain => main_step s
  | HTask j fails => task_step j fails s
  | HInterrupt =>
      match h_main s with
      | MWait => if decide (KNotify ∈ map fst (h_tasks s)) then None else Some (spawn KNotify s)
      | _ => None
      end
  | HConns n =>
      match h_cl s with
      | Some c => if decide (0 <= n)%Z then Some (set_cl (mkListener (cl_closed c) (cl_stopped c) n) s) else None
      | None => None
      end
  end.

Fixpoint h_run (s : handles) (evs : list h_event) : option handles :=
  match evs with
  | [] => Some s
  | ev :: evs' => match h_step s ev with Some s' => h_run s' evs' | None => None end
  end.

(** * The invariant, once [StartClient] is done *)

Section handles_facts.
Implicit Types (s : handles) (k : kind) (pc : task_pc).

(** The goroutines that the wait group counts. *)
Definition active (t : kind * task_pc) : nat :=
  match t with (KNotify, _) | (_, TEnd) => 0 | _ => 1 end.
Definition actives s : nat := sum_list_with active (h_tasks s).

Definition closing pc : Prop := match pc with TClosing _ => True | _ => False end.

(** Not past [once.Do]. *)
Definition before_once (t : kind * task_pc) : Prop :=
  fst t = KNotify \/ match snd t with TRun | TOnce | TClosing _ => True | _ => False end.

(** Everything is closed, or will be by [todo]. *)
Record closed_by (todo : list close_act) s : Prop := {
  cb_cl : (exists wait, CClient wait ∈ todo) \/ (exists c, h_cl s = Some c /\ cl_stopped c = true);
  cb_hb : CHeart ∈ todo \/ h_hb s = Some true;
  cb_wsc i : i < length (h_wsc s) -> CWsc i ∈ todo \/ h_wsc s !! i = Some true;
}.

Definition once_inv s : Prop :=
  match h_once s with
  | OnceNo => Forall (fun t => before_once t /\ ~ closing (snd t)) (h_tasks s)
  | OnceBusy =>
      Forall before_once (h_tasks s) /\
      exists j k todo, h_tasks s !! j = Some (k, TClosing todo) /\ closed_by todo s /\
        forall i k' pc, i <> j -> h_tasks s !! i = Some (k', pc) -> ~ closing pc
  | OnceDone => Forall (fun t => ~ closing (snd t)) (h_tasks s) /\ closed_by [] s
  end.

Record h_inv s : Prop := {
  hi_main : h_main s = MWait \/ h_main s = MReturned /\ h_once s = OnceDone;
  hi_wg : h_wg s = actives s;
  hi_serve : KServe ∈ map fst (h_tasks s);
  hi_cl : exists c, h_cl s = Some c /\ cl_closed c = cl_stopped c;
  hi_hb : is_Some (h_hb s);
  hi_kinds : Forall (fun t => match fst t with KListen i => i < length (h_wsc s) | _ => True end) (h_tasks s);
  hi_once : once_inv s;
}.

Lemma before_once_active l : Forall before_once l -> KServe ∈ map fst l -> 0 < sum_list_with active l.
Proof.
  intros Hl Hk. induction Hl as [|[k pc] l Ht _ IH]; simpl in *; [by apply not_elem_of_nil in Hk|].
  apply elem_of_cons in Hk as [<-|Hk]; [|specialize (IH Hk); lia].
  destruct Ht as [?|Ht]; simpl in *; [done|]. destruct pc; simpl; try done; lia.
Qed.

(** A part of the closing. *)
Lemma close_step_inv a todo s s' next :
  close_step a s = Some (s', next) -> closed_by (a :: todo) s ->
  (exists c, h_cl s = Some c /\ cl_closed c = cl_stopped c) -> is_Some (h_hb s) ->
  closed_by (next ++ todo) s' /\ (exists c, h_cl s' = Some c /\ cl_closed c = cl_stopped c) /\ is_Some (h_hb s') /\
  length (h_wsc s') = length (h_wsc s) /\ h_tasks s' = h_tasks s /\ h_once s' = h_once s /\
  h_wg s' = h_wg s /\ h_main s' = h_main s.
Proof.
  intros H [C1 C2 C3] (c & Hc & Heq) Hhb. destruct a as [wait| | |i]; simpl in H; rewrite ?Hc in H.
  - assert (exists c', s' = set_cl c' s /\ cl_closed c' = true /\ cl_stopped c' = true /\
            (next = [] \/ next = [CWaitConns])) as (c' & -> & E1 & E2 & Hn).
    { unfold Close in H. destruct (cl_closed c) eqn:E.
      - simplify_eq. exists c. rewrite <- Heq. auto.
      - destruct (wait && _); simplify_eq; eexists; split_and!; eauto. }
    split; [split; simpl|split_and!; simpl; eauto; exists c'; by rewrite E1, E2].
    + right. eauto.
    + destruct C2 as [C2|?]; [left|by right]. set_solver.
    + intros i Hi. destruct (C3 i Hi) as [?|?]; [left|by right]. set_solver.
  - destruct (cl_wg c =? 0)%Z; [|done]. simplify_eq. split; [split|by eauto 10]; simpl.
    + destruct C1 as [[w Hw]|?]; [left|by right]. exists w. set_solver.
    + destruct C2 as [C2|?]; [left|by right]. set_solver.
    + intros i Hi. destruct (C3 i Hi) as [?|?]; [left|by right]. set_solver.
  - destruct Hhb as [b Hb]. rewrite Hb in H. simplify_eq. split; [split|split_and!; simpl; eauto]; simpl.
    + destruct C1 as [[w Hw]|?]; [left|by right]. exists w. set_solver.
    + by right.
    + intros i Hi. destruct (C3 i Hi) as [?|?]; [left|by right]. set_solver.
  - simplify_eq. split; [split|split_and!; simpl; eauto; by rewrite length_insert]; simpl.
    + destruct C1 as [[w Hw]|?]; [left|by right]. exists w. set_solver.
    + destruct C2 as [C2|?]; [left|by right]. set_solver.
    + rewrite length_insert. intros j Hj. destruct (decide (i = j)) as [->|Hne].
      * right. by apply list_lookup_insert_eq.
      * rewrite list_lookup_insert_ne by done. destruct (C3 j Hj) as [?|?]; [left|by right]. set_solver.
Qed.

Lemma closed_by_same todo s s' :
  h_cl s' = h_cl s -> h_hb s' = h_hb s -> h_wsc s' = h_wsc s -> closed_by todo s -> closed_by todo s'.
Proof. intros E1 E2 E3 [C1 C2 C3]. split; by rewrite ?E1, ?E2, ?E3. Qed.

Lemma close_list_closes wait s : closed_by (close_list wait s) s.
Proof.
  unfold close_list. split.
  - left. exists wait. set_solver.
  - left. set_solver.
  - intros i Hi. left. do 2 right. apply list_elem_of_fmap. exists i. split; [done|].
    apply elem_of_seq. lia.
Qed.

(** The fields that a step of a goroutine leaves alone, or changes at one place. *)
Lemma actives_insert s j t t' :
  h_tasks s !! j = Some t ->
  sum_list_with active (<[j := t']> (h_tasks s)) + active t = actives s + active t'.
Proof. apply sum_list_with_insert. Qed.

Lemma kinds_insert s j k pc pc' :
  h_tasks s !! j = Some (k, pc) -> map fst (<[j := (k, pc')]> (h_tasks s)) = map fst (h_tasks s).
Proof.
  intros Hj. change (map fst ?l) with (fst <$> l). rewrite list_fmap_insert. simpl.
  apply list_insert_id. by rewrite list_lookup_fmap, Hj.
Qed.

Lemma Forall_insert_kind (P : kind -> Prop) s j k pc pc' :
  h_tasks s !! j = Some (k, pc) -> Forall (fun t => P (fst t)) (h_tasks s) ->
  Forall (fun t => P (fst t)) (<[j := (k, pc')]> (h_tasks s)).
Proof. intros Hj Hall. apply Forall_insert; [done|]. apply (Forall_lookup_1 _ _ _ _ Hall Hj). Qed.

(** No other goroutine is closing. *)
Lemma once_owner s j k todo :
  once_inv s -> h_tasks s !! j = Some (k, TClosing todo) ->
  h_once s = OnceBusy /\ Forall before_once (h_tasks s) /\ closed_by todo s /\
  forall i k' pc, i <> j -> h_tasks s !! i = Some (k', pc) -> ~ closing pc.
Proof.
  unfold once_inv. intros Ho Hj. destruct (h_once s).
  - apply (Forall_lookup_1 _ _ _ _ Ho) in Hj as [_ H]. by destruct (H I).
  - destruct Ho as (Hb & j' & k' & todo' & Hj' & Hc & Hothers).
    destruct (decide (j = j')) as [->|Hne]; [simplify_eq; done|].
    by destruct (Hothers _ _ _ Hne Hj I).
  - destruct Ho as [Ho _]. apply (Forall_lookup_1 _ _ _ _ Ho) in Hj. by destruct (Hj I).
Qed.

Lemma once_inv_insert s s' j k pc pc' :
  h_tasks s !! j = Some (k, pc) -> ~ closing pc -> ~ closing pc' -> h_once s' = h_once s ->
  h_cl s' = h_cl s -> h_hb s' = h_hb s -> h_wsc s' = h_wsc s ->
  h_tasks s' = <[j := (k, pc')]> (h_tasks s) ->
  (h_once s = OnceDone \/ before_once (k, pc')) -> once_inv s -> once_inv s'.
Proof.
  unfold once_inv. intros Hj Hc Hc' E1 E2 E3 E4 E5 Hb Ho. rewrite E1, E5. destruct (h_once s).
  - apply Forall_insert; [done|]. by destruct Hb.
  - destruct Ho as (Hall & j' & k' & todo & Hj' & Hcl & Hothers). split.
    { apply Forall_insert; [done|]. by destruct Hb. }
    assert (j' <> j) as Hne by (intros ->; simplify_eq; by apply Hc).
    exists j', k', todo. split_and!.
    + by rewrite list_lookup_insert_ne.
    + by eapply closed_by_same.
    + intros i k1 pc1 Hi. destruct (decide (i = j)) as [->|Hij].
      * rewrite list_lookup_insert_eq by (by eapply lookup_lt_Some). intros; by simplify_eq.
      * rewrite list_lookup_insert_ne by done. by apply Hothers.
  - destruct Ho as [Ho Hcl]. split; [by apply Forall_insert|by eapply closed_by_same].
Qed.

(** A goroutine moves on, and what it changes besides keeps the resources. *)
Lemma h_inv_insert s s' j k pc pc' :
  h_inv s -> h_tasks s !! j = Some (k, pc) -> h_tasks s' = <[j := (k, pc')]> (h_tasks s) ->
  h_main s' = h_main s -> (h_main s = MReturned -> h_once s' = OnceDone) ->
  h_wg s' + active (k, pc) = h_wg s + active (k, pc') ->
  (exists c, h_cl s' = Some c /\ cl_closed c = cl_stopped c) -> is_Some (h_hb s') ->
  length (h_wsc s') = length (h_wsc s) -> once_inv s' -> h_inv s'.
Proof.
  intros [Hm Hw Hs Hc Hh Hk _] Hj Et Em Hr Ew Hc' Hh' El Ho. split; rewrite ?Et, ?Em; try done.
  - destruct Hm as [?|[Hm ?]]; [by left|right; auto].
  - pose proof (actives_insert s j (k, pc) (k, pc') Hj) as H. unfold actives at 1. rewrite Et. lia.
  - by rewrite (kinds_insert _ _ _ _ _ Hj).
  - rewrite El. by apply (Forall_insert_kind
      (fun k => match k with KListen i => i < length (h_wsc s) | _ => True end) s j k pc).
Qed.

Lemma returned_once s : h_inv s -> h_main s = MReturned -> h_once s = OnceDone.
Proof. intros [[E|[_ ?]] _ _ _ _ _ _]; congruence. Qed.

Lemma insert_one {A} (l : list A) j (x y : A) :
  l !! j = Some x -> <[j := y]> l !! j = Some y.
Proof. intros H. apply list_lookup_insert_eq. by eapply lookup_lt_Some. Qed.

(** The end of a goroutine. *)
Lemma task_after_inv j fails s s' k :
  h_inv s -> h_tasks s !! j = Some (k, TAfter) -> task_step j fails s = Some s' -> h_inv s'.
Proof.
  intros Hi Hj H. pose proof Hi as [_ _ _ Hc Hh _ Ho]. pose proof (returned_once s Hi) as Hret.
  unfold task_step in H. rewrite Hj in H. cbv zeta in H. simpl in H.
  assert (h_once s = OnceDone \/ k = KNotify) as Hk.
  { unfold once_inv in Ho. destruct (h_once s); [| |by left]; right.
    - apply (Forall_lookup_1 _ _ _ _ Ho) in Hj as [[?|?] _]; done.
    - destruct Ho as [Ho _]. by apply (Forall_lookup_1 _ _ _ _ Ho) in Hj as [?|?]. }
  simplify_eq. eapply (h_inv_insert s _ j k TAfter TEnd Hi Hj).
  all: destruct k; simpl; try done; try lia.
  all: try (eapply (once_inv_insert s _ j _ TAfter TEnd); try done; simpl; try (by intros [])).
  all: try (by destruct Hk; [left|]).
  all: try (by right; left).
  all: pose proof (hi_wg _ Hi) as Hw; pose proof (actives_insert s j _ (KServe, TEnd) Hj) as Ha; simpl in *; lia.
Qed.

Lemma task_step_inv j fails s s' : h_inv s -> task_step j fails s = Some s' -> h_inv s'.
Proof.
  intros Hi H. pose proof Hi as [_ _ _ Hc Hh _ Ho]. pose proof (returned_once s Hi) as Hret.
  unfold task_step in H. destruct (h_tasks s !! j) as [[k pc]|] eqn:Hj; [|done]. cbv zeta in H.
  destruct pc as [| |[|a todo]| |]; simpl in H; [| | | | |done].
  - assert (exists pc' b, s' = set_tasks (<[j := (k, pc')]> (h_tasks s)) (set_closed b s) /\
            (pc' = TOnce \/ k = KNotify /\ pc' = TEnd)) as (pc' & b & -> & Hpc).
    { assert (set_closed (h_closed s) s = s) as Es by by destruct s.
      destruct k; try (destruct (fails || _); simplify_eq; exists TOnce, (h_closed s); rewrite Es; by auto).
      destruct (h_closed s) eqn:E; simplify_eq; [exists TEnd, true|exists TOnce, true]; rewrite ?Es; auto. }
    eapply (h_inv_insert s _ j k TRun pc' Hi Hj); try done; simpl.
    + destruct Hpc as [-> |[-> ->]]; simpl; [destruct k; simpl; lia|lia].
    + eapply (once_inv_insert s _ j k TRun pc'); try done; simpl.
      * by intros [].
      * destruct Hpc as [-> |[-> ->]]; by intros [].
      * right. unfold before_once. destruct Hpc as [-> |[-> ->]]; simpl; auto.
  - destruct (h_once s) eqn:Eo; simplify_eq.
    + eapply (h_inv_insert s _ j k TOnce _ Hi Hj); try done; simpl; [naive_solver|].
      unfold once_inv in Ho. rewrite Eo in Ho. unfold once_inv. simpl. split.
      { apply Forall_insert; [|right; done]. eapply Forall_impl; [exact Ho|]. by intros ? []. }
      exists j, k, (close_list (bool_decide (k = KNotify)) s). split_and!.
      * by eapply insert_one.
      * apply (closed_by_same _ s); [done..|apply close_list_closes].
      * intros i k' pc Hne. rewrite list_lookup_insert_ne by done. intros Hi'.
        by apply (Forall_lookup_1 _ _ _ _ Ho) in Hi' as [_ ?].
    + eapply (h_inv_insert s _ j k TOnce _ Hi Hj); try done; simpl.
      eapply (once_inv_insert s _ j k TOnce TAfter); try done; simpl; try (by intros []). by left.
  - destruct (once_owner _ _ _ _ Ho Hj) as (Eo & Hb & Hcl & Hothers). simplify_eq.
    eapply (h_inv_insert s _ j k _ TAfter Hi Hj); try done; simpl.
    unfold once_inv. simpl. split; [|by apply (closed_by_same _ s)]. apply Forall_lookup. intros i [k' pc] Hi'.
    destruct (decide (i = j)) as [->|Hne]; [|rewrite list_lookup_insert_ne in Hi' by done; by eapply Hothers].
    rewrite (insert_one _ _ _ _ Hj) in Hi'. simplify_eq. by intros [].
  - destruct (once_owner _ _ _ _ Ho Hj) as (Eo & Hb & Hcl & Hothers).
    destruct (close_step a s) as [[s1 next]|] eqn:E; [|done]. simplify_eq.
    destruct (close_step_inv _ _ _ _ _ E Hcl Hc Hh) as (Hcl' & Hc' & Hh' & El & Et & Eo' & Ew & Em).
    eapply (h_inv_insert s _ j k _ (TClosing (next ++ todo)) Hi Hj); simpl; try done; try congruence.
    + intros Hm. by rewrite Eo', Hret.
    + unfold once_inv. simpl. rewrite Eo', Eo, Et. split; [apply Forall_insert; [done|by right]|].
      exists j, k, (next ++ todo). split_and!; [by eapply insert_one|by apply (closed_by_same _ s1)|].
      intros i k' pc Hne. rewrite list_lookup_insert_ne by done. by apply Hothers.
  - eapply (task_after_inv j fails s s' k); [done..|]. unfold task_step. rewrite Hj. exact H.
Qed.

Lemma h_inv_main s : h_inv s -> h_once s = OnceDone -> h_inv (set_main MReturned s).
Proof. intros [Hm Hw Hs Hc Hh Hk Ho] Hd. split; try done; simpl; auto.
  revert Ho. unfold once_inv. simpl. rewrite Hd. intros [? ?]. split; [done|by apply (closed_by_same _ s)].
Qed.

Lemma main_step_inv s s' : h_inv s -> main_step s = Some s' -> h_inv s' /\ h_main s' = MReturned.
Proof.
  intros Hi H. pose proof Hi as [Hm Hw Hs _ _ _ Ho]. unfold main_step in H.
  destruct Hm as [Em|[Em _]]; rewrite Em in H; [|done]. case_decide as Hz; [|done]. simplify_eq.
  split; [|done]. apply h_inv_main; [done|]. unfold once_inv in Ho. rewrite Hw in Hz. unfold actives in Hz.
  destruct (h_once s); [| |done]; exfalso.
  - pose proof (before_once_active (h_tasks s)) as Hb. rewrite Hz in Hb.
    apply (Nat.lt_irrefl 0), Hb; [|done]. eapply Forall_impl; [exact Ho|]. by intros ? [].
  - pose proof (before_once_active (h_tasks s)) as Hb. rewrite Hz in Hb.
    apply (Nat.lt_irrefl 0), Hb; [by destruct Ho|done].
Qed.

Lemma once_inv_spawn s : once_inv s -> once_inv (spawn KNotify s).
Proof.
  unfold once_inv. simpl. destruct (h_once s).
  - intros Ho. apply Forall_app. split; [done|]. apply Forall_singleton. split; [by left|by intros []].
  - intros (Hb & j & k & todo & Hj & Hcl & Hothers). split.
    { apply Forall_app. split; [done|]. apply Forall_singleton. by left. }
    exists j, k, todo. split_and!; [by apply lookup_app_l_Some|by apply (closed_by_same _ s)|].
    intros i k' pc Hne [Hi|[_ Hi]]%lookup_app_Some; [by eapply Hothers|].
    apply list_lookup_singleton_Some in Hi as [_ Hi]. simplify_eq. by intros [].
  - intros [Ho Hcl]. split; [|by apply (closed_by_same _ s)].
    apply Forall_app. split; [done|]. apply Forall_singleton. by intros [].
Qed.

Lemma once_inv_conns s c n :
  h_cl s = Some c -> once_inv s -> once_inv (set_cl (mkListener (cl_closed c) (cl_stopped c) n) s).
Proof.
  intros Hc.
  assert (forall todo, closed_by todo s -> closed_by todo (set_cl (mkListener (cl_closed c) (cl_stopped c) n) s)) as H.
  { intros todo [C1 C2 C3]. split; simpl; try done. destruct C1 as [?|(c' & E & Hs)]; [by left|right].
    simplify_eq. eauto. }
  unfold once_inv. simpl. destruct (h_once s); [done| |].
  - intros (Hb & j & k & todo & Hj & Hcl & Hothers). split; [done|]. exists j, k, todo. auto.
  - intros [? ?]. auto.
Qed.

Lemma h_step_inv s ev s' : h_inv s -> h_step s ev = Some s' -> h_inv s'.
Proof.
  intros Hi H. pose proof Hi as [Hm Hw Hs Hc Hh Hk Ho]. destruct ev as [|j fails| |n]; simpl in H.
  - by eapply main_step_inv.
  - by eapply task_step_inv.
  - destruct (h_main s) eqn:Em; try done. case_decide; simplify_eq. split; simpl; try done; [auto|..].
    + rewrite Hw. unfold actives. simpl. rewrite sum_list_with_app. simpl. lia.
    + rewrite map_app. set_solver.
    + apply Forall_app. by split; [|constructor].
    + by apply once_inv_spawn.
  - destruct Hc as (c & Hc & E). rewrite Hc in H. case_decide; simplify_eq.
    split; simpl; try done; [eauto|]. by apply once_inv_conns.
Qed.

Lemma h_run_inv evs s s' : h_inv s -> h_run s evs = Some s' -> h_inv s'.
Proof.
  revert s. induction evs as [|ev evs IH]; intros s Hi H; simpl in H; [by simplify_eq|].
  destruct (h_step s ev) as [s1|] eqn:E; [|done]. eapply IH; [|done]. by eapply h_step_inv.
Qed.

(** ** While [StartClient] runs *)

Definition todo_of s : list start_op := match h_main s with MStart todo => todo | _ => [] end.

(** The calls of [wg.Add(2)] whose goroutine has not been started. *)
Definition pending (op : start_op) : nat := match op with SHeartGo | SServeGo => 1 | _ => 0 end.

(** As long as nothing has been closed. *)
Record starting (n : nat) s : Prop := {
  si_main : (exists todo, h_main s = MStart todo) \/ h_main s = MWait;
  si_suffix : todo_of s `suffix_of` start_ops n;
  si_wg : h_wg s = sum_list_with pending (todo_of s) + actives s;
  si_serve : SServeGo ∉ todo_of s -> KServe ∈ map fst (h_tasks s);
  si_cl : SClient ∉ todo_of s -> is_Some (h_cl s);
  si_cl_eq c : h_cl s = Some c -> cl_closed c = cl_stopped c;
  si_hb : SHeart ∉ todo_of s -> is_Some (h_hb s);
  si_kinds : Forall (fun t => match fst t with KListen i => i < n | _ => True end) (h_tasks s);
  si_wsc : length (h_wsc s) = n;
  si_tasks : Forall (fun t => before_once t /\ ~ closing (snd t)) (h_tasks s);
}.

Lemma StartClient_starting n : starting n (StartClient n).
Proof.
  split; simpl; try done; eauto.
  - unfold actives, todo_of. simpl. unfold start_ops. rewrite sum_list_with_app. simpl.
    assert (forall m, sum_list_with pending (map SListen (seq m n)) = 0) as H.
    { induction n as [|n IH]; intros m; simpl; [done|]. apply IH. }
    by rewrite H.
  - intros H. destruct H. unfold start_ops. set_solver.
  - intros H. destruct H. unfold start_ops. set_solver.
  - intros H. destruct H. unfold start_ops. set_solver.
  - apply length_replicate.
Qed.

Lemma start_op_elem n todo i : SListen i :: todo `suffix_of` start_ops n -> i < n.
Proof.
  intros [pre Hpre]. assert (SListen i ∈ start_ops n) as H by (rewrite Hpre; set_solver).
  unfold start_ops in H. apply elem_of_app in H as [H|H]; [|set_solver].
  apply list_elem_of_fmap in H as (k & [= ->] & Hk). apply elem_of_seq in Hk. lia.
Qed.

Lemma actives_spawn k s : actives (spawn k s) = actives s + active (k, TRun).
Proof. unfold actives. simpl. rewrite sum_list_with_app. simpl. lia. Qed.

Lemma start_step_starting n s op todo :
  starting n s -> h_main s = MStart (op :: todo) -> starting n (set_main (MStart todo) (start_step op s)).
Proof.
  intros [_ Hsu Hw Hs Hc Hce Hh Hk Hl Ht] Em. unfold todo_of in *. rewrite Em in *.
  assert (todo `suffix_of` start_ops n) as Hsu'.
  { destruct Hsu as [pre ->]. exists (pre ++ [op]). by rewrite <- app_assoc. }
  assert (forall k, match k with KListen i => i < n | _ => True end ->
    Forall (fun t => match fst t with KListen i => i < n | _ => True end) (h_tasks s ++ [(k, TRun)]) /\
    Forall (fun t => before_once t /\ ~ closing (snd t)) (h_tasks s ++ [(k, TRun)])) as Hsp.
  { intros k Hkk. rewrite !Forall_app, !Forall_singleton. split_and!; try done; [by right|by intros []]. }
  destruct op as [i| | | | |]; split; unfold todo_of; simpl in *; try done; eauto.
  all: try (pose proof (start_op_elem _ _ _ Hsu)).
  all: try (change (actives (set_main ?m ?x)) with (actives x); rewrite ?actives_spawn;
            change (actives (set_wg ?m ?x)) with (actives x); simpl; try lia).
  all: try (intros Hn; try rewrite map_app; set_solver).
  all: try (by apply Hsp).
  all: try (intros Hn; apply Hc || apply Hh; set_solver).
  all: try (intros ? [= <-]; done).
Qed.

Lemma once_no_back s ev s' : h_step s ev = Some s' -> h_once s' = OnceNo -> h_once s = OnceNo.
Proof.
  destruct ev as [|j fails| |n]; simpl; intros H Ho.
  - unfold main_step in H. destruct (h_main s) as [[|op todo]| |]; try case_decide; simplify_eq; try done.
    by destruct op.
  - unfold task_step in H. destruct (h_tasks s !! j) as [[k pc]|]; [|done]. cbv zeta in H.
    destruct pc as [| |[|a todo]| |]; simpl in H; try done.
    + destruct k, (h_closed s); try destruct (fails || _); by simplify_eq.
    + destruct (h_once s) eqn:E; simplify_eq/=; congruence.
    + by simplify_eq.
    + destruct (close_step a s) as [[s1 next]|] eqn:E; simplify_eq. simpl in Ho. rewrite <- Ho. clear Ho.
      unfold close_step, Close in E. repeat case_match; by simplify_eq.
    + by destruct k; simplify_eq.
  - destruct (h_main s); try done. case_decide; by simplify_eq.
  - destruct (h_cl s); [|done]. case_decide; by simplify_eq.
Qed.

Lemma starting_insert n s j k pc pc' b :
  starting n s -> h_tasks s !! j = Some (k, pc) -> before_once (k, pc') -> ~ closing pc' ->
  active (k, pc') = active (k, pc) -> starting n (set_tasks (<[j := (k, pc')]> (h_tasks s)) (set_closed b s)).
Proof.
  intros [Hm Hsu Hw Hs Hc Hce Hh Hk Hl Ht] Hj Hb Hcl Ha. split; simpl; try done.
  - pose proof (actives_insert s j (k, pc) (k, pc') Hj) as H. unfold actives at 1. simpl.
    unfold todo_of in *. simpl. lia.
  - by rewrite (kinds_insert _ _ _ _ _ Hj).
  - by apply (Forall_insert_kind (fun k => match k with KListen i => i < n | _ => True end) s j k pc).
  - by apply Forall_insert.
Qed.

Lemma set_closed_same s : set_closed (h_closed s) s = s.
Proof. by destruct s. Qed.

Lemma task_step_starting n s j fails s' :
  starting n s -> h_once s = OnceNo -> task_step j fails s = Some s' -> h_once s' = OnceNo -> starting n s'.
Proof.
  intros Hs Ho H Ho'. unfold task_step in H. destruct (h_tasks s !! j) as [[k pc]|] eqn:Hj; [|done].
  destruct (Forall_lookup_1 _ _ _ _ (si_tasks _ _ Hs) Hj) as [Hb Hcl]. cbv zeta in H. rewrite Ho in H.
  destruct pc as [| |todo| |]; simpl in H; [| |by destruct Hcl| |done].
  - assert (forall b pc', before_once (k, pc') -> ~ closing pc' -> active (k, pc') = active (k, TRun) ->
      starting n (set_tasks (<[j := (k, pc')]> (h_tasks s)) (set_closed b s))) as Hins.
    { intros. by eapply starting_insert. }
    destruct k; try (destruct (fails || _); simplify_eq; rewrite <- (set_closed_same s) at 2; apply Hins;
                     [by right|by intros []|done]).
    destruct (h_closed s) eqn:E; simplify_eq; [rewrite <- (set_closed_same s) at 2|]; apply Hins;
      solve [by left|by intros []|done].
  - by simplify_eq.
  - destruct Hb as [Hk|[]]. simpl in Hk. subst k. simplify_eq. simpl. rewrite <- (set_closed_same s) at 2.
    eapply starting_insert; [done..|by left|by intros []|done].
Qed.

Lemma h_step_starting n s ev s' :
  starting n s -> h_step s ev = Some s' -> h_once s' = OnceNo -> starting n s'.
Proof.
  intros Hs H Ho'. pose proof (once_no_back _ _ _ H Ho') as Ho. destruct ev as [|j fails| |m]; simpl in H.
  - unfold main_step in H. destruct (h_main s) as [[|op todo]| |] eqn:Em; try done; simplify_eq.
    + destruct Hs. unfold todo_of in *. rewrite Em in *. by split; unfold todo_of; simpl; auto.
    + by apply start_step_starting.
    + exfalso. case_decide as Hz; [|done]. pose proof (before_once_active (h_tasks s)) as Hb.
      rewrite (si_wg _ _ Hs) in Hz. pose proof (si_serve _ _ Hs) as Hk. unfold todo_of in *. rewrite Em in *.
      unfold actives in Hz. simpl in Hz. rewrite Hz in Hb. apply (Nat.lt_irrefl 0), Hb.
      * eapply Forall_impl; [exact (si_tasks _ _ Hs)|]. by intros ? [].
      * apply Hk, not_elem_of_nil.
  - by eapply task_step_starting.
  - destruct (h_main s) eqn:Em; try done. case_decide; simplify_eq. destruct Hs. unfold todo_of in *.
    rewrite Em in *. split; unfold todo_of; simpl; rewrite ?Em; auto.
    + change (actives (spawn KNotify s)) with (actives (spawn KNotify s)). rewrite actives_spawn. simpl in *. lia.
    + intros _. rewrite map_app. set_solver.
    + apply Forall_app. by split; [|constructor].
    + apply Forall_app. split; [done|]. apply Forall_singleton. split; [by left|by intros []].
  - destruct (h_cl s) as [c|] eqn:Ec; [|done]. case_decide; simplify_eq. destruct Hs.
    split; unfold todo_of in *; simpl; eauto. intros c' [= <-]. simpl. auto.
Qed.

Lemma h_run_starting n evs s s' :
  starting n s -> h_run s evs = Some s' -> h_once s' = OnceNo -> starting n s'.
Proof.
  revert s. induction evs as [|ev evs IH]; intros s Hs H Ho; simpl in H; [by simplify_eq|].
  destruct (h_step s ev) as [s1|] eqn:E; [|done]. eapply IH; [|done..]. eapply h_step_starting; [done..|].
  clear IH Hs E. revert s1 H. induction evs as [|ev' evs IH]; intros s1 H; simpl in H; [by simplify_eq|].
  destruct (h_step s1 ev') as [s2|] eqn:E; [|done]. eapply once_no_back; [done|]. by apply IH.
Qed.

Lemma starting_inv n s : starting n s -> h_main s = MWait -> h_once s = OnceNo -> h_inv s.
Proof.
  intros [Hm Hsu Hw Hs Hc Hce Hh Hk Hl Ht] Em Eo. unfold todo_of in *. rewrite Em in *.
  split; auto; simpl in *.
  - apply Hs, not_elem_of_nil.
  - destruct Hc as [c Hc]; [apply not_elem_of_nil|eauto].
  - apply Hh, not_elem_of_nil.
  - by rewrite Hl.
  - unfold once_inv. by rewrite Eo.
Qed.

(** ** Shutting down *)

Definition act_work (a : close_act) : nat := match a with CClient _ => 2 | _ => 1 end.

(** A bound on the steps of a goroutine, with [n] websockets. *)
Definition task_work (n : nat) (t : kind * task_pc) : nat :=
  match snd t with
  | TRun => n + 8
  | TOnce => n + 7
  | TClosing todo => 2 + sum_list_with act_work todo
  | TAfter => 1
  | TEnd => 0
  end.

Definition h_work s : nat :=
  sum_list_with (task_work (length (h_wsc s))) (h_tasks s) +
  match h_main s with MReturned => 0 | _ => 1 end.

(** Steps of the process itself. *)
Definition internal (ev : h_event) : bool :=
  match ev with HMain | HTask _ _ => true | _ => false end.

Lemma close_list_work wait s : sum_list_with act_work (close_list wait s) = 3 + length (h_wsc s).
Proof.
  unfold close_list. simpl. do 3 f_equal. generalize (length (h_wsc s)) as n. intros n.
  assert (forall m, sum_list_with act_work (map CWsc (seq m n)) = n) as H; [|done].
  induction n as [|n IH]; intros m; simpl; [done|]. by rewrite IH.
Qed.

Lemma close_step_work a s s' next :
  close_step a s = Some (s', next) ->
  h_tasks s' = h_tasks s /\ h_main s' = h_main s /\ length (h_wsc s') = length (h_wsc s) /\
  sum_list_with act_work next < act_work a.
Proof.
  intros H. destruct a; simpl in H; unfold Close in H; repeat case_match; simplify_eq/=;
    split_and!; try done; try lia. by rewrite length_insert.
Qed.

Lemma work_insert s j t t' n :
  h_tasks s !! j = Some t -> task_work n t' < task_work n t ->
  sum_list_with (task_work n) (<[j := t']> (h_tasks s)) < sum_list_with (task_work n) (h_tasks s).
Proof. intros Hj Hlt. pose proof (sum_list_with_insert (task_work n) _ j t' _ Hj). lia. Qed.

Lemma task_step_work s j fails s' : task_step j fails s = Some s' -> h_work s' < h_work s.
Proof.
  intros H. unfold task_step in H. destruct (h_tasks s !! j) as [[k pc]|] eqn:Hj; [|done]. cbv zeta in H.
  assert (forall s1 pc', h_tasks s1 = h_tasks s -> h_main s1 = h_main s -> length (h_wsc s1) = length (h_wsc s) ->
    task_work (length (h_wsc s)) (k, pc') < task_work (length (h_wsc s)) (k, pc) ->
    h_work (set_tasks (<[j := (k, pc')]> (h_tasks s1)) s1) < h_work s) as Hins.
  { intros s1 pc' E1 E2 E3 Hlt. unfold h_work. simpl. rewrite E1, E2, E3.
    pose proof (work_insert s j _ _ _ Hj Hlt). lia. }
  destruct pc as [| |[|a todo]| |]; simpl in H; [| | | | |done].
  - destruct k; try (destruct (fails || _); simplify_eq; apply (Hins s); unfold task_work; simpl; try done; lia).
    destruct (h_closed s) eqn:E; simplify_eq; [apply (Hins s)|apply (Hins (set_closed true s))];
      unfold task_work; simpl; try done; lia.
  - destruct (h_once s) eqn:Eo; simplify_eq; [apply (Hins (set_once OnceBusy s))|apply (Hins s)]; try done;
      unfold task_work; simpl; try lia.
    pose proof (close_list_work (bool_decide (k = KNotify)) s) as Hw. simpl in Hw. lia.
  - simplify_eq. apply (Hins (set_once OnceDone s)); unfold task_work; simpl; try done; lia.
  - destruct (close_step a s) as [[s1 next]|] eqn:E; [|done]. simplify_eq.
    apply close_step_work in E as (E1 & E2 & E3 & E4). apply Hins; try done.
    unfold task_work. simpl. rewrite sum_list_with_app. lia.
  - simplify_eq. apply Hins; try (by destruct k). unfold task_work. simpl. lia.
Qed.

Lemma internal_work s ev s' :
  h_main s <> MReturned -> (forall todo, h_main s <> MStart todo) ->
  internal ev -> h_step s ev = Some s' -> h_work s' < h_work s.
Proof.
  intros Hr Hm Hi H. destruct ev as [|j fails| |]; simpl in *; [|by eapply task_step_work|done..].
  unfold main_step in H. destruct (h_main s) eqn:Em; [by destruct (Hm todo)| |done].
  case_decide; simplify_eq. unfold h_work. simpl. rewrite Em. lia.
Qed.

(** Some goroutine has ended its loop, or has begun to close. *)
Definition stopping s : Prop :=
  h_once s <> OnceNo \/ exists j k, h_tasks s !! j = Some (k, TOnce).

(** [NotifyClose] waits for the connections that are still open. *)
Definition waits_for_conns s : Prop :=
  exists j k todo c, h_tasks s !! j = Some (k, TClosing (CWaitConns :: todo)) /\
    h_cl s = Some c /\ cl_wg c <> 0%Z.

Lemma closing_progress s j k todo :
  h_tasks s !! j = Some (k, TClosing todo) -> waits_for_conns s \/ exists s', task_step j false s = Some s'.
Proof.
  intros Hj. unfold task_step. rewrite Hj. destruct todo as [|a todo]; [by right; eexists|]. cbv zeta.
  destruct (close_step a s) as [[s1 next]|] eqn:E; [by right; eexists|]. left.
  destruct a; simpl in E; unfold Close in E; repeat case_match; simplify_eq.
  exists j, k, todo. eexists. split_and!; [done..|].
  match goal with H : (_ =? _)%Z = false |- _ => by apply Z.eqb_neq in H end.
Qed.

Lemma stopping_progress s :
  h_inv s -> stopping s -> h_main s <> MReturned ->
  waits_for_conns s \/ exists ev s', internal ev /\
    (forall j, ev <> HTask j true) /\ h_step s ev = Some s'.
Proof.
  intros [Hm Hw Hs (c & Hc & Hce) [hb Hh] Hk Ho] Hst Hr.
  assert (forall j, (exists s', task_step j false s = Some s') -> exists ev s', internal ev /\
    (forall j, ev <> HTask j true) /\ h_step s ev = Some s') as Hstep.
  { intros j [s' Hs']. by exists (HTask j false), s'. }
  unfold once_inv in Ho. destruct (h_once s) eqn:Eo.
  - destruct Hst as [?|(j & k & Hj)]; [done|]. right. apply (Hstep j).
    unfold task_step. rewrite Hj. simpl. rewrite Eo. by eexists.
  - destruct Ho as (_ & j & k & todo & Hj & _). destruct (closing_progress _ _ _ _ Hj) as [?|H]; [by left|].
    right. by apply (Hstep j).
  - right. destruct Ho as [Hcl [C1 C2 C3]].
    destruct (decide (h_wg s = 0)) as [Hz|Hz].
    { exists HMain. destruct Hm as [Em|[? _]]; [|done]. eexists. split_and!; try done. simpl.
      unfold main_step. by rewrite Em, decide_True. }
    assert (exists j k pc, h_tasks s !! j = Some (k, pc) /\ active (k, pc) <> 0) as (j & k & pc & Hj & Ha).
    { rewrite Hw in Hz. unfold actives in Hz. clear -Hz. induction (h_tasks s) as [|[k pc] l IH]; [done|].
      destruct (decide (active (k, pc) = 0)) as [E|E].
      - destruct IH as (j & k' & pc' & Hj & Ha); [cbn [sum_list_with] in Hz; lia|].
        by exists (S j), k', pc'.
      - by exists 0, k, pc. }
    apply (Hstep j). unfold task_step. rewrite Hj. cbv zeta.
    apply (Forall_lookup_1 _ _ _ _ Hcl) in Hj as Hnc. apply (Forall_lookup_1 _ _ _ _ Hk) in Hj as Hkk.
    destruct pc as [| |todo| |]; [| |by destruct Hnc| |by destruct k].
    + destruct k as [i| | |]; simpl in *; [| | |done].
      * destruct (C3 i Hkk) as [H|H]; [by apply not_elem_of_nil in H|]. rewrite H. by eexists.
      * destruct C2 as [H|H]; [by apply not_elem_of_nil in H|]. rewrite H. by eexists.
      * destruct C1 as [[w H]|(c' & Ec & H)]; [by apply not_elem_of_nil in H|]. rewrite Ec.
        unfold listen_stopped. rewrite H. by eexists.
    + simpl. rewrite Eo. by eexists.
    + by eexists.
Qed.
End handles_facts.

(** C18: the client exits. Take any run in which [StartClient] returns before
    anything is closed. From then on, whatever the order of failures, interrupts
    and connections: when [Wait] returns, the listener, the heart beat and every
    websocket have been closed; and as soon as one goroutine has ended, the
    process makes only a bounded number of steps of its own, and until [Wait]
    returns it can always make one, without any further failure, except that an
    interrupted client may wait for its open connections to end. *)
Theorem client_exits n evs0 s0 evs s :
  h_run (StartClient n) evs0 = Some s0 -> h_main s0 = MWait -> h_once s0 = OnceNo ->
  h_run s0 evs = Some s ->
  (h_main s = MReturned -> closed_by [] s) /\
  (forall ev s', h_main s <> MReturned -> internal ev -> h_step s ev = Some s' -> h_work s' < h_work s) /\
  (stopping s -> h_main s = MReturned \/ waits_for_conns s \/
     exists ev s', internal ev /\ (forall j, ev <> HTask j true) /\ h_step s ev = Some s').
Proof.
  intros H0 Hm Ho H. apply (h_run_starting n) in H0; [|apply StartClient_starting|done].
  pose proof (h_run_inv _ _ _ (starting_inv _ _ H0 Hm Ho) H) as Hi. split_and!.
  - intros Er. pose proof (returned_once _ Hi Er) as Ed. pose proof (hi_once _ Hi) as Hon.
    unfold once_inv in Hon. rewrite Ed in Hon. apply Hon.
  - intros ev s' Hr. apply internal_work; [done|]. intros todo Et.
    destruct (hi_main _ Hi) as [E|[E _]]; congruence.
  - intros Hst. destruct (h_main s) eqn:Em; [| |by left];
      (destruct (stopping_progress s Hi Hst) as [?|(ev & s' & ? & ? & ?)]; [congruence|by right; left|]);
      right; right; by exists ev, s'.
Qed.

(** The listener runs, and the [sync.Once] is used up. *)
Record orphaned (s : handles) : Prop := {
  or_main : h_main s = MWait;
  or_once : h_once s = OnceDone;
  or_wg : h_wg s = actives s;
  or_serve : h_tasks s !! 2 = Some (KServe, TRun);
  or_cl : exists c, h_cl s = Some c /\ cl_stopped c = false;
  or_tasks : Forall (fun t => ~ closing (snd t)) (h_tasks s);
}.

Lemma orphaned_insert s j k pc pc' n b :
  orphaned s -> h_tasks s !! j = Some (k, pc) -> j <> 2 -> ~ closing pc' ->
  n + active (k, pc) = h_wg s + active (k, pc') ->
  orphaned (set_tasks (<[j := (k, pc')]> (h_tasks s)) (set_wg n (set_closed b s))).
Proof.
  intros [Hm Ho Hw Hs Hc Ht] Hj Hne Hcl Hn. split; simpl; try done.
  - pose proof (actives_insert s j (k, pc) (k, pc') Hj) as H. unfold actives at 1. simpl. lia.
  - by rewrite list_lookup_insert_ne.
  - by apply Forall_insert.
Qed.

Lemma set_wg_same s b : set_wg (h_wg s) (set_closed b s) = set_closed b s.
Proof. by destruct s. Qed.

Lemma orphaned_task s j fails s' :
  orphaned s -> HTask j fails <> HTask 2 true -> task_step j fails s = Some s' -> orphaned s'.
Proof.
  intros Hor Hev H. pose proof Hor as [Hm Ho Hw Hs (c & Hc & Hst) Ht].
  unfold task_step in H. destruct (h_tasks s !! j) as [[k pc]|] eqn:Hj; [|done]. cbv zeta in H.
  assert (j <> 2) as Hne.
  { intros ->. simplify_eq. simpl in H. destruct fails; [done|]. rewrite Hc in H. unfold listen_stopped in H. by rewrite Hst in H. }
  assert (forall pc' b, ~ closing pc' -> active (k, pc') = active (k, pc) ->
    orphaned (set_tasks (<[j := (k, pc')]> (h_tasks s)) (set_closed b s))) as Hins.
  { intros pc' b Hcl Ha. rewrite <- set_wg_same. eapply orphaned_insert; [done..|]. lia. }
  assert (forall pc', ~ closing pc' -> active (k, pc') = active (k, pc) ->
    orphaned (set_tasks (<[j := (k, pc')]> (h_tasks s)) s)) as Hins'.
  { intros pc' Hcl Ha. pose proof (Hins pc' (h_closed s) Hcl Ha) as H1. by rewrite set_closed_same in H1. }
  rewrite Ho in H. destruct pc as [| |todo| |]; simpl in H; [| | | |done].
  - destruct k; try (destruct (fails || _); simplify_eq; apply Hins'; [by intros []|done]).
    destruct (h_closed s); simplify_eq; [apply Hins'|apply Hins]; solve [by intros []|done].
  - simplify_eq. apply Hins'; [by intros []|by destruct k].
  - by destruct (Forall_lookup_1 _ _ _ _ Ht Hj).
  - simplify_eq. destruct k; try (by apply Hins'; [intros []|]).
    all: pose proof (orphaned_insert s j _ TAfter TEnd (pred (h_wg s)) (h_closed s) Hor Hj Hne) as H;
      simpl in H; rewrite set_closed_same in H; apply H; [by intros []|].
    all: pose proof (actives_insert s j _ (KServe, TEnd) Hj) as Ha; simpl in Ha; lia.
Qed.

Lemma orphaned_step s ev s' :
  orphaned s -> ev <> HTask 2 true -> h_step s ev = Some s' -> orphaned s'.
Proof.
  intros Hor Hev H. pose proof Hor as [Hm Ho Hw Hs (c & Hc & Hst) Ht]. destruct ev as [|j fails| |n]; simpl in H.
  - unfold main_step in H. rewrite Hm in H. case_decide as Hz; [|done]. exfalso.
    pose proof (actives_insert s 2 _ (KServe, TEnd) Hs) as Ha. simpl in Ha. lia.
  - by eapply orphaned_task.
  - rewrite Hm in H. case_decide; simplify_eq. split; simpl; try done.
    + rewrite actives_spawn. simpl. lia.
    + by apply lookup_app_l_Some.
    + eauto.
    + apply Forall_app. split; [done|]. apply Forall_singleton. by intros [].
  - rewrite Hc in H. case_decide; simplify_eq. split; simpl; try done. eauto.
Qed.

(** A websocket that fails while [StartClient] is still running can leave the
    client running for ever: [closeAll] finds no heart beat and no listener to
    close, and the [sync.Once] is used up. Here the only websocket fails before
    the other goroutines are started; whatever happens afterwards (interrupts
    included), short of a failure of the listener itself, [Wait] never returns
    and the listener stays open. *)
Theorem early_failure_never_exits evs s :
  let early := [HMain; HTask 0 true; HTask 0 false; HTask 0 false; HTask 0 false; HTask 0 false; HTask 0 false;
                HTask 0 false; HMain; HMain; HMain; HMain; HMain; HMain] in
  exists s0, h_run (StartClient 1) early = Some s0 /\ h_main s0 = MWait /\
    (h_run s0 evs = Some s -> Forall (fun ev => ev <> HTask 2 true) evs ->
     h_main s = MWait /\ exists c, h_cl s = Some c /\ cl_stopped c = false).
Proof.
  intros early. destruct (h_run (StartClient 1) early) as [s0|] eqn:E; [|by vm_compute in E].
  vm_compute in E. exists s0. split; [done|].
  assert (orphaned s0) as Hor.
  { simplify_eq. split; simpl; try done; [eauto|].
    rewrite !Forall_cons. split_and!; try (by intros []). constructor. }
  split; [apply Hor|]. clear E. revert s0 Hor. induction evs as [|ev evs IH]; intros s0 Hor H Hev; simpl in H.
  - simplify_eq. split; apply Hor.
  - apply Forall_cons in Hev as [Hev Hevs]. destruct (h_step s0 ev) as [s1|] eqn:E; [|done].
    eapply (IH s1); [|done..]. by eapply orphaned_step.
Qed.
