(* ===== verification/Commands.v ===== *)
(** What the two commands do once their options have been checked ([Run] of
    cmd/server/server.go and of cmd/client/client.go): the server registers its
    handlers and listens; the client opens its websockets, negotiates the
    version and starts its goroutines (Handles.v). *)
From Stdlib Require Import Ascii.
From S2P Require Import Prelude Json Messages Hub Server Version Status Cli Plugins Listener Handles.

(** * [http.ServeMux]: a handler for each pattern *)

Inductive handler :=
  | HServeWS (config : ServerConfig)              (* wss.NewServeWS *)
  | HStatusFiles                                  (* the files of the status page *)
  | HApiStatus (h : handleStatus).                (* status.NewStatusHandle *)

#[global] Instance config_eq_dec : EqDecision ServerConfig.
Proof. solve_decision. Defined.
#[global] Instance status_eq_dec : EqDecision handleStatus.
Proof. solve_decision. Defined.
#[global] Instance handler_eq_dec : EqDecision handler.
Proof. solve_decision. Defined.

Abbreviation ServeMux := (list (bytes * handler)).

(** [Handle] panics ([None]) on a pattern that is empty or registered already. *)
Definition Handle (pattern : bytes) (h : handler) (m : ServeMux) : option ServeMux :=
  if decide (pattern = []) then None
  else if decide (pattern ∈ map fst m) then None
  else Some (m ++ [(pattern, h)]).

(** The pattern that is the path itself, or the longest that ends in a slash and
    begins the path. *)
Definition longer (path : bytes) (best : option (bytes * handler)) (e : bytes * handler) :
    option (bytes * handler) :=
  if HasSuffix (fst e) (bytes_of "/") && HasPrefix path (fst e) &&
     (match best with Some b => Nat.ltb (length (fst b)) (length (fst e)) | None => true end)
  then Some e else best.

Definition mux_match (path : bytes) (m : ServeMux) : option handler :=
  match list_find (fun e => fst e = path) m with
  | Some (_, (_, h)) => Some h
  | None => snd <$> foldl (longer path) None m
  end.

(** * The server *)

(** [Run]: it listens (with the certificate and key for TLS), or ends before. *)
Inductive server_out :=
  | RunPanic
  | RunFatal (err : error)
  | RunListen (m : ServeMux) (address : bytes) (tls : option (bytes * bytes)).

Definition status_path : bytes := bytes_of "/status/".
Definition api_path : bytes := bytes_of "/api/status/".

Definition server_config (s : Cli.server) : ServerConfig :=
  mkServerConfig (http_enable s) (authEnable s) (string_of (authKey s)) (status_enable s).

(** [statik] is the error of the file system that holds the status page. *)
Definition server_Run (now : Z) (statik : option error) (s : Cli.server) : server_out :=
  let listen m := RunListen m (srv_address s)
                    (if tls_enable s then Some (tlsCertFile s, tlsKeyFile s) else None) in
  match Handle (wsBasePath s) (HServeWS (server_config s)) [] with
  | None => RunPanic
  | Some m1 =>
      if status_enable s then
        match statik with
        | Some err => RunFatal err
        | None =>
            let api := HApiStatus (NewStatusHandle now (http_enable s) (authEnable s)
                                     (string_of (wsBasePath s))) in
            match m2 ← Handle status_path HStatusFiles m1; Handle api_path api m2 with
            | None => RunPanic
            | Some m3 => listen m3
            end
        end
      else listen m1
  end.

(** * The client *)

Section client_run.
Context {Net : Type} (net0 : Net).

Definition client_options (c : Cli.client) (u : URL) : Options :=
  mkOptions (cli_address c) u (remoteHeaders c) (connectNum c) (key c) (skipTLSVerify c).

(** [Run]: [None] is a panic; otherwise an error before anything is started, or
    the process at the start of [StartClient].  [dial] is the outcome of the dials
    and [exchange] of the exchanges of versions. *)
Definition client_Run (p : Plugins (Net := Net))
    (dial : bytes -> Transport (Net := Net) -> option Header -> nat -> option error)
    (exchange : nat -> error + VersionNeg) (status_url : option error) (c : Cli.client) :
    option (error + handles) :=
  u ← remoteUrl c;
  '(_, conns) ← CreateServerConn net0 p dial (client_options c u);
  match conns with
  | inl err => Some (inl err)
  | inr n =>
      match NegotiateVersion (map exchange (seq 0 n)) (p_Version p) status_url with
      | None => None
      | Some (Some err) => Some (inl err)
      | Some None => Some (inr (StartClient n))
      end
  end.
End client_run.

(** * Facts *)

Lemma HasPrefix_prefix s p : HasPrefix s p = true <-> p `prefix_of` s.
Proof.
  split; [apply HasPrefix_inv|]. intros [r ->]. apply HasPrefix_app.
Qed.

Lemma prefixes_comparable {A} (p q s : list A) :
  p `prefix_of` s -> q `prefix_of` s -> ~ q `prefix_of` p -> length p < length q.
Proof.
  intros Hp Hq Hn. destruct (prefix_weak_total p q s Hp Hq) as [H|H]; [|done].
  pose proof (prefix_length _ _ H). destruct (decide (length p = length q)) as [E|]; [|lia].
  destruct Hn. by rewrite (prefix_length_eq p q H ltac:(lia)).
Qed.

(** The walk through the patterns finds the longest that matches, if it is the
    only one of its length. *)
Lemma longer_best path m best e :
  e ∈ m -> HasSuffix (fst e) (bytes_of "/") = true -> fst e `prefix_of` path ->
  (forall e', e' ∈ m -> e' <> e -> fst e' `prefix_of` path -> length (fst e') < length (fst e)) ->
  (forall b, best = Some b -> length (fst b) < length (fst e)) ->
  foldl (longer path) best m = Some e.
Proof.
  intros Hin Hs Hp Hmax Hb.
  assert (forall m best, (forall e', e' ∈ m -> e' <> e -> fst e' `prefix_of` path -> length (fst e') < length (fst e)) ->
            (best = Some e \/ e ∈ m /\ forall b, best = Some b -> length (fst b) < length (fst e)) ->
            foldl (longer path) best m = Some e) as H; [|apply H; auto].
  clear m best Hin Hmax Hb. intros m. induction m as [|e1 m IH]; intros best Hmax Hbest; simpl.
  { destruct Hbest as [->|[Hin _]]; [done|]. by apply not_elem_of_nil in Hin. }
  apply IH; [intros; apply Hmax; set_solver|]. unfold longer.
  destruct (decide (e1 = e)) as [->|Hne].
  - left. rewrite Hs. replace (HasPrefix path (fst e)) with true by (symmetry; by apply HasPrefix_prefix).
    simpl. destruct Hbest as [->|[_ Hb]].
    + by case_match.
    + destruct best as [b|]; [|done]. specialize (Hb b eq_refl). by destruct (Nat.ltb_spec (length (fst b)) (length (fst e))); [|lia].
  - destruct (HasSuffix (fst e1) _ && HasPrefix path (fst e1)) eqn:E1.
    + apply andb_true_iff in E1 as [_ E1%HasPrefix_prefix].
      pose proof (Hmax e1 ltac:(set_solver) Hne E1) as Hl. destruct Hbest as [->|[Hin Hb]].
      * left. simpl. by destruct (Nat.ltb_spec (length (fst e)) (length (fst e1))); [lia|].
      * right. split; [set_solver|]. intros b. case_match; [intros; by simplify_eq|apply Hb].
    + simpl. destruct Hbest as [->|[Hin Hb]]; [by left|]. right. split; [set_solver|done].
Qed.

Lemma mux_match_longest path m e :
  e ∈ m -> HasSuffix (fst e) (bytes_of "/") = true -> fst e `prefix_of` path ->
  (forall e', e' ∈ m -> e' <> e -> fst e' `prefix_of` path -> length (fst e') < length (fst e)) ->
  mux_match path m = Some (snd e).
Proof.
  intros Hin Hs Hp Hmax. unfold mux_match. destruct (list_find _ m) as [[i [p h]]|] eqn:E.
  - apply list_find_Some in E as (Hi & Heq & _). simpl in Heq. subst p.
    destruct (decide ((path, h) = e)) as [<-|Hne]; [done|].
    pose proof (Hmax (path, h) ltac:(by eapply list_elem_of_lookup_2) Hne (reflexivity path)) as Hl.
    apply prefix_length in Hp. simpl in Hl. lia.
  - rewrite (longer_best path m None e); done.
Qed.

Lemma Handle_some pattern h m :
  pattern <> [] -> pattern ∉ map fst m -> Handle pattern h m = Some (m ++ [(pattern, h)]).
Proof. intros H1 H2. unfold Handle. by rewrite !decide_False. Qed.

(** ** The server *)

Lemma server_PreRun_auth random s s1 :
  (forall b, random = inr b -> length b = 12) -> server_PreRun random s = inr s1 ->
  authEnable s1 = authEnable s /\ (authEnable s = true -> authKey s1 <> []).
Proof.
  intros Hrnd Hpre. pose proof (server_PreRun_ok random s s1 Hrnd Hpre) as (_ & _ & _ & Hk). split.
  - unfold server_PreRun in Hpre. repeat case_match; by simplify_eq/=.
  - intros Ha. rewrite Ha in Hk. simpl in Hk. case_bool_decide as Hn.
    + intros E. by rewrite E in Hk.
    + by rewrite Hk.
Qed.

(** The patterns that a server registers. *)
Definition server_mux (now : Z) (s : Cli.server) : ServeMux :=
  (wsBasePath s, HServeWS (server_config s)) ::
  if status_enable s then
    [(status_path, HStatusFiles);
     (api_path, HApiStatus (NewStatusHandle now (http_enable s) (authEnable s) (string_of (wsBasePath s))))]
  else [].

Lemma server_Run_mux now s :
  wsBasePath s <> [] ->
  server_Run now None s =
    if decide (status_enable s = true /\ (wsBasePath s = status_path \/ wsBasePath s = api_path))
    then RunPanic
    else RunListen (server_mux now s) (srv_address s)
           (if tls_enable s then Some (tlsCertFile s, tlsKeyFile s) else None).
Proof.
  intros Hb. unfold server_Run, server_mux. rewrite Handle_some; [|done|apply not_elem_of_nil].
  cbn [app]. destruct (status_enable s); [|by rewrite decide_False by (by intros [? _])].
  unfold Handle at 2. rewrite decide_False by done. cbn [map fst].
  destruct (decide (wsBasePath s = status_path)) as [E1|E1].
  { rewrite decide_True by set_solver. simpl. rewrite decide_True by auto. done. }
  rewrite decide_False by set_solver. cbn [mbind option_bind app]. unfold Handle.
  rewrite decide_False by done. cbn [map fst].
  destruct (decide (wsBasePath s = api_path)) as [E2|E2].
  { rewrite decide_True by set_solver. rewrite decide_True by auto. done. }
  assert (api_path <> status_path) by done.
  rewrite decide_False by set_solver. rewrite decide_False by (by intros [_ [?|?]]). done.
Qed.

(** In a mux of two or three patterns the longest match wins. *)
Lemma server_mux_ws now s path :
  HasSuffix (wsBasePath s) (bytes_of "/") = true -> wsBasePath s `prefix_of` path ->
  (status_enable s = true -> wsBasePath s <> status_path /\ wsBasePath s <> api_path) ->
  (status_enable s = true -> forall p, p ∈ [status_path; api_path] -> p `prefix_of` path ->
     p `prefix_of` wsBasePath s) ->
  mux_match path (server_mux now s) = Some (HServeWS (server_config s)).
Proof.
  intros Hs Hp Hne Hl. unfold server_mux.
  apply (mux_match_longest path _ (wsBasePath s, HServeWS (server_config s))); [set_solver|done|done|].
  intros e He Hne' Hpe. apply elem_of_cons in He as [->|He]; [done|].
  destruct (status_enable s); [|by apply not_elem_of_nil in He].
  assert (fst e ∈ [status_path; api_path]) as Hin by set_solver.
  pose proof (Hl eq_refl _ Hin Hpe) as Hpre. cbn [fst].
  destruct (decide (length (fst e) = length (wsBasePath s))) as [E|E].
  - apply (prefix_length_eq (fst e)) in Hpre; [|lia]. destruct (Hne eq_refl). set_solver.
  - apply prefix_length in Hpre. lia.
Qed.

Lemma server_mux_api now s path :
  status_enable s = true -> api_path `prefix_of` path -> ~ api_path `prefix_of` wsBasePath s ->
  mux_match path (server_mux now s) =
    Some (HApiStatus (NewStatusHandle now (http_enable s) (authEnable s) (string_of (wsBasePath s)))).
Proof.
  intros Hst Hp Hb. unfold server_mux. rewrite Hst.
  match goal with |- _ = Some ?h => apply (mux_match_longest path _ (api_path, h)) end; [set_solver|done|done|].
  intros e He Hne' Hpe. rewrite !elem_of_cons, elem_of_nil in He. destruct He as [->|[->|[->|[]]]]; [|simpl; lia|done].
  by apply (prefixes_comparable _ _ path).
Qed.


(** ** The client *)

Section client_facts.
Context {Net : Type} (net0 : Net).

Lemma NegotiateVersion_some ver exchanges url_error :
  exchanges <> [] -> is_Some (NegotiateVersion exchanges ver url_error).
Proof.
  intros Hne. destruct exchanges as [|[e|v] l]; [done|by eexists|]. simpl. repeat case_match; by eexists.
Qed.

(** Without plugins, the user's options are what is dialled with. *)
Lemma CreateServerConn_plain dial c h :
  RemoteHeaders c = Some h ->
  CreateServerConn net0 no_plugins dial c =
    Some (set_remote (RemoteUrl c) (Some (connection_headers (ConnectionKey c) h)) c,
          dial_from (dial (URL_String (RemoteUrl c))
                       (tls_transport c (NewHttpClient net0))
                       (Some (connection_headers (ConnectionKey c) h))) 0 (Z.to_nat (ConnectNum c))).
Proof.
  intros Hh. unfold CreateServerConn, set_key, tls_transport, connection_headers.
  destruct c as [a u h' n k t]. simpl in *. subst h'.
  destruct k as [|k0 k]; simpl; by destruct (bool_decide _ && t).
Qed.

(** Plugins can change the URL, the headers and the transport, but not the
    number of websockets. *)
Lemma CreateServerConn_some p dial c h :
  RemoteHeaders c = Some h ->
  exists c' r, CreateServerConn net0 p dial c = Some (c', r) /\
    forall n, r = inr n -> n = Z.to_nat (ConnectNum c).
Proof.
  intros Hh. unfold CreateServerConn.
  assert (exists c1, set_key c = Some c1 /\ ConnectNum c1 = ConnectNum c) as (c1 & -> & <-).
  { unfold set_key. rewrite Hh. case_bool_decide; by eexists. }
  simpl. destruct (option_plugin p c1) as [c2 err2] eqn:E2.
  assert (ConnectNum c2 = ConnectNum c1) as <-.
  { unfold option_plugin in E2. repeat case_match; by simplify_eq/=. }
  destruct err2; [eexists _, _; split; [done|by intros]|].
  destruct (request_plugin p _ c2) as [[tr3 c3] err3] eqn:E3.
  assert (ConnectNum c3 = ConnectNum c2) as <-.
  { unfold request_plugin in E3. repeat case_match; by simplify_eq/=. }
  destruct err3; [eexists _, _; split; [done|by intros]|].
  eexists _, _. split; [done|]. intros n Hn%dial_from_ok. by destruct Hn as [-> _].
Qed.

Lemma client_PreRun_inv parsed c c' :
  client_PreRun parsed c = inr c' ->
  exists u h, parsed = inr u /\
    c' = mkClientCmd (cli_address c) (remote c) (Some u) (headers c) (Z.max 1 (connectNum c)) (Some h)
           (key c) (skipTLSVerify c).
Proof.
  unfold client_PreRun. intros H. case_bool_decide; [done|]. destruct parsed as [err|u]; [done|].
  destruct (parse_headers (headers c) ∅) as [err|h]; [done|]. simplify_eq. exists u, h. split; [done|].
  f_equal. destruct (Z.ltb_spec (connectNum c) 1); lia.
Qed.

(** C36: a client whose options pass [PreRun] never panics before its goroutines
    run, whatever the plugins, the dials and the server do. Without plugins it
    starts exactly when every one of its dials succeeds, at the user's URL and
    with the user's headers and key, and the server on the first websocket has
    a compatible version; it then has as many websockets as asked for, and one
    at least. The server's certificate goes unchecked only if that was asked for. *)
Theorem client_starts parsed c c' p dial exchange status_url :
  client_PreRun parsed c = inr c' ->
  is_Some (client_Run net0 p dial exchange status_url c') /\
  exists u h, parsed = inr u /\ remoteHeaders c' = Some h /\
    let n := Z.to_nat (Z.max 1 (connectNum c)) in
    let tls := if bool_decide (Scheme u = bytes_of "wss") && skipTLSVerify c
               then skip_verify (NewHttpClient net0) else NewHttpClient net0 in
    forall hdl, client_Run net0 no_plugins dial exchange status_url c' = Some (inr hdl) <->
      hdl = StartClient n /\
      (forall i, i < n -> dial (URL_String u) tls (Some (connection_headers (key c) h)) i = None) /\
      exists v, exchange 0 = inr v /\ (vn_CompVersion v <= VersionCode <= vn_VersionCode v)%Z /\
        (EnableStatusPage v = true -> status_url = None).
Proof.
  intros (u & h & -> & ->)%client_PreRun_inv. unfold client_Run. cbn [remoteUrl mbind option_bind]. split.
  - destruct (CreateServerConn_some p dial (client_options (mkClientCmd (cli_address c) (remote c) (Some u)
      (headers c) (Z.max 1 (connectNum c)) (Some h) (key c) (skipTLSVerify c)) u) h eq_refl) as (c1 & r & -> & Hn).
    cbn [mbind option_bind]. destruct r as [err|n]; [by eexists|]. specialize (Hn n eq_refl). simpl in Hn.
    assert (map exchange (seq 0 n) <> []) as Hne by (destruct n; [lia|done]).
    destruct (NegotiateVersion_some (p_Version p) _ status_url Hne) as [[err|] ->]; by eexists.
  - exists u, h. split; [done|]. split; [done|]. cbv zeta. intros hdl. set (n := Z.to_nat (Z.max 1 (connectNum c))).
    rewrite (CreateServerConn_plain dial _ h) by done. unfold tls_transport.
    cbn [mbind option_bind client_options RemoteUrl
      ConnectionKey SkipTLSVerify ConnectNum key skipTLSVerify connectNum]. fold n.
    assert (exists k, n = S k) as [k En] by (exists (pred n); lia).
    set (dialled := dial _ _ _). split.
    + destruct (dial_from dialled 0 n) as [err|n'] eqn:Ed; [done|].
      apply dial_from_ok in Ed as [-> Hd]. simpl (0 + n). intros H.
      destruct (NegotiateVersion (map exchange (seq 0 n)) _ _) as [[err|]|] eqn:Ev; simplify_eq.
      split; [done|]. split; [intros i Hi; apply Hd; lia|].
      rewrite En in Ev. cbn [seq map] in Ev. destruct (exchange 0) as [err|v] eqn:Ex; [done|].
      exists v. split; [done|]. by apply (NegotiateVersion_accepts v (map exchange (seq 1 k)) status_url).
    + intros (-> & Hd & v & Ex & Hv). rewrite dial_from_all by (intros j Hj; apply Hd; lia).
      simpl (0 + n). rewrite En. cbn [seq map no_plugins p_Version]. rewrite Ex.
      unfold VersionPlugin. by rewrite (proj2 (NegotiateVersion_accepts v (map exchange (seq 1 k)) status_url) Hv).
Qed.
End client_facts.
