(* ===== verification/Entry.v ===== *)
(** The entry point (main.go), the registration of the commands ([init] of
    cmd/client/client.go, cmd/server/server.go and version/version.go), and the
    version command.  Package cmds, which finds the command for the arguments and
    runs it, is a parameter. *)
From Stdlib Require Import Ascii.
From S2P Require Import Prelude Net Version TermView.

(** * Commands *)

(** [cmds.Command], but for its flags (Flags.v) and its runner, which is named
    by [Name]. *)
Record Command := mkCommand {
  Name : string;
  Summary : string;
  Description : string;
  CustomFlags : bool;
  HasOptions : bool;
}.

Definition CommandNameClient : string := "client".
Definition clientCommand : Command := mkCommand CommandNameClient "run as client mode" "run as client program." false true.
Definition serverCommand : Command := mkCommand "server" "run as server mode" "run as server program." false true.
Definition versionCommand : Command := mkCommand "version" "show version" "print current version." false false.

(** The three [init], each appending to [cmds.AllCommands]. *)
Definition init_client (l : list Command) : list Command := l ++ [clientCommand].
Definition init_server (l : list Command) : list Command := l ++ [serverCommand].
Definition init_version (l : list Command) : list Command := l ++ [versionCommand].

(** In the order of the imports of main.go. *)
Definition AllCommands : list Command := init_version (init_server (init_client [])).

(** * The version command *)

(** [Println] and [Printf] of [version.Run]; the three variables are set when the
    program is linked. *)
Definition version_Run (buildHash buildTime buildGoVersion : string) : list bytes :=
  [bytes_of "version: " ++ bytes_of CoreVersion ++ bytes_of "." ++ [NL];
   bytes_of "protocol version: " ++ fmt_d VersionCode ++ [NL];
   bytes_of "commit: " ++ bytes_of buildHash ++ [NL];
   bytes_of "build time: " ++ bytes_of buildTime ++ [NL];
   bytes_of "build by: " ++ bytes_of buildGoVersion ++ [NL];
   bytes_of "Author: genshen<genshenchu@gmail.com>" ++ [NL];
   bytes_of "github: https://github.com/genshen/wssocks" ++ [NL]].

(** * The entry point *)

Section main.
(** [cmds.Parse] with the commands registered, and what [errors.Is] says of its
    error: [flag.ErrHelp], or a [SubCommandParseError]. *)
Context (Parse : string -> list Command -> option error) (is_help is_subcommand : error -> bool).

(** [main]: it ends with [log.Fatal] for this error, or normally. *)
Definition main : option error :=
  match Parse "wssocks" AllCommands with
  | Some err => if negb (is_help err) && negb (is_subcommand err) then Some err else None
  | None => None
  end.

(** A failure of a command is fatal, and asking for help is not; the commands are
    told apart by their names. *)
Lemma main_fatal err :
  NoDup (map Name AllCommands) /\
  (main = Some err <-> Parse "wssocks" AllCommands = Some err /\ is_help err = false /\ is_subcommand err = false).
Proof using All.
  split; [cbn; repeat (apply NoDup_cons; split; [set_solver|]); apply NoDup_nil_2|]. unfold main.
  destruct (Parse "wssocks" AllCommands) as [e|]; [|naive_solver].
  destruct (is_help e) eqn:E1, (is_subcommand e) eqn:E2; simpl; (split; [intros [= <-]|intros ([= <-] & ? & ?)]); congruence || done.
Qed.
End main.
