(* ===== verification/Witnesses.v ===== *)
(** Each theorem with hypotheses, applied to a concrete input.  The IDs are
    numbers here ([ksuid_N]). *)
From Stdlib Require Import Ascii.
From S2P Require Import Prelude GoChan Pipe RoundRobin PtrMap Queue QueueHub Link Striping Lossy StripingRun.
From S2P Require Import Delivery Base64 Json Messages Hub Server Handshake Client Net Private.
From S2P Require Import Socks5 ConnRecords BufferedWR Version Status Cli Flags Plugins Listener TermView Handles.
From S2P Require Import HeartBeat Commands Starts Wire Direction DirectionRun Session Upstream Downstream.
From S2P Require Import Arrival Opening SessionRun Finish Accept.

#[local] Existing Instance ksuid_N.
#[local] Existing Instance ksuid_text_N.

(** * Pipe *)

Definition tcp0 : tcp := NewTcp (mkConn [] false).

(** A read of two bytes, then one of a byte with the end of file. *)
Definition demo_reads : list (@copy_input tcp _) :=
  [mkInput (W := tcp) (bytes_of "ab") None ConnOk ConnOk; mkInput (W := tcp) (bytes_of "c") (Some EOF) ConnOk ConnOk].

Lemma CopyBuffer_complete_witness :
  exists pre i post, demo_reads = pre ++ i :: post /\ ci_err i = Some EOF /\
    Forall (fun j => ci_err j = None) pre /\
    pw_accepted (copy_writer (CopyBuffer tcp0 demo_reads)) = pw_accepted tcp0 ++ input_bytes (pre ++ [i]) /\
    3%Z = int64 (Z.of_nat (length (input_bytes (pre ++ [i])))).
Proof. apply (CopyBuffer_complete tcp0 demo_reads _ 3%Z). vm_compute. reflexivity. Defined.

(** * The queue *)

Definition q_reads : list (@copy_input (tracked (K := ksuid_N) (W := N)) _) :=
  [mkInput (W := tracked) (bytes_of "ab") None (Queue.mkWriteEnv [] false) (Queue.mkWriteEnv [] false)].

Lemma CopyBuffer_queue_bounded_witness :
  let t := copy_writer (CopyBuffer (mkTracked [] (NewQueue 0 (kid 1))) q_reads) in
  length (chan_items (q_buffer (tr_q t))) <= 10 /\
  Forall (fun b => length (b_data b) <= 4096) (chan_items (q_buffer (tr_q t))).
Proof.
  apply (CopyBuffer_queue_bounded (NewQueue 0 (kid 1)) q_reads); [reflexivity|].
  constructor; [|constructor]. unfold read_fits. apply (bool_decide_unpack _). vm_compute. exact I.
Defined.

Lemma demo_covered : q_covered demo_queue.
Proof.
  intros id [->|[->|[]%elem_of_nil]%elem_of_cons]%elem_of_cons; vm_compute; by eexists.
Qed.

(** A run of [Send] after other steps. *)
Lemma Send_run_steps {K : Ksuid} {W} (s : queue W * Queue.send_pc W) ins outs0 q pc evs q' pc' outs :
  q_steps s ins outs0 (q, pc) -> Queue.Send_run q pc evs = Some (q', pc', outs) ->
  q_steps s ins (outs0 ++ outs) (q', pc').
Proof.
  revert outs0 q pc outs. induction evs as [|ev evs IH]; intros outs0 q pc outs Hs H; simpl in H.
  { simplify_eq. by rewrite app_nil_r. }
  destruct (Queue.Send_step q pc ev) as [[[q1 pc1] o]|] eqn:E; [|done].
  destruct (Queue.Send_run q1 pc1 evs) as [[[q2 pc2] os]|] eqn:E2; [|done]. simplify_eq.
  rewrite app_assoc. eapply IH; [|done]. rewrite <- (app_nil_r ins).
  eapply q_steps_snoc; [done|]. by eapply qs_send.
Qed.

(** Two chunks are written, and [Send] hands them out. *)
Definition chunks_ab : list buffer := [mkBuffer false (bytes_of "a"); mkBuffer false (bytes_of "b")].
Definition queue_ab : queue KSUID := set_q_buffer (mkChan 10 chunks_ab false) demo_queue.
Definition send_ab : list Queue.send_ev :=
  [Queue.EvTau; Queue.EvTau; Queue.EvTau; Queue.EvTau; Queue.EvData; Queue.EvWrote None;
   Queue.EvTau; Queue.EvData; Queue.EvWrote None].

Lemma queue_ab_written : q_steps (demo_queue, Queue.PEnter) chunks_ab [] (queue_ab, Queue.PEnter).
Proof.
  pose proof (q_steps_refl (demo_queue, Queue.PEnter)) as H0.
  pose proof (q_steps_snoc _ _ _ _ _ _ _ H0 (qs_write demo_queue Queue.PEnter (mkBuffer false (bytes_of "a"))
    (mkChan 10 [mkBuffer false (bytes_of "a")] false) eq_refl)) as H1.
  exact (q_steps_snoc _ _ _ _ _ _ _ H1 (qs_write
    (set_q_buffer (mkChan 10 [mkBuffer false (bytes_of "a")] false) demo_queue) Queue.PEnter (mkBuffer false (bytes_of "b"))
    (mkChan 10 chunks_ab false) eq_refl)).
Qed.

Lemma Send_round_robin_witness :
  exists q pc outs, Queue.Send_run queue_ab Queue.PEnter send_ab = Some (q, pc, outs) /\
    map snd outs = chunks_ab /\
    (forall i w b, outs !! i = Some (w, b) -> exists id, lane_at demo_order i = Some id /\ q_writers demo_queue !! id = Some w).
Proof.
  destruct (Queue.Send_run queue_ab Queue.PEnter send_ab) as [[[q pc] outs]|] eqn:E; [|by vm_compute in E].
  exists q, pc, outs. split; [reflexivity|].
  pose proof (Send_round_robin demo_queue q pc chunks_ab outs demo_covered eq_refl
                (Send_run_steps _ _ _ _ _ _ _ _ _ queue_ab_written E)) as (H1 & H2 & _).
  split; [|exact H1]. rewrite H2; vm_compute in E; injection E as <- <- <-; reflexivity.
Defined.

(** [Send] waits in its first walk when the queue is closed: it hands out an
    empty message on each connection and stops. *)
Definition queue_sending : queue KSUID := set_q_status StaSend demo_queue.
Definition queue_closed : queue KSUID := default demo_queue (Queue.close queue_sending).
Definition send_closing : list Queue.send_ev :=
  [Queue.EvTau; Queue.EvData; Queue.EvWrote None; Queue.EvTau; Queue.EvData; Queue.EvWrote None;
   Queue.EvTau; Queue.EvTau; Queue.EvTau; Queue.EvWaiter; Queue.EvTau].

Lemma Send_close_terminates_witness :
  exists q' pc' outs, Queue.Send_run queue_closed (Queue.PRange demo_order) send_closing = Some (q', pc', outs) /\
    length send_closing + send_measure pc' <= send_measure (Queue.PRange (W := KSUID) demo_order) /\
    ((exists r, pc' = Queue.PReturned r) \/ (exists ev, is_Some (Queue.Send_step q' pc' ev))).
Proof.
  destruct (Queue.Send_run queue_closed (Queue.PRange demo_order) send_closing) as [[[q pc] outs]|] eqn:E;
    [|by vm_compute in E].
  exists q, pc, outs. split; [reflexivity|].
  apply (Send_close_terminates queue_closed (Queue.PRange demo_order) send_closing q pc outs); [|exact E].
  right. by vm_compute.
Defined.

(** [Send] starts on a queue that was closed before. *)
Definition queue_closed_early : queue KSUID := default demo_queue (Queue.close demo_queue).
Definition send_late : list Queue.send_ev :=
  [Queue.EvTau; Queue.EvTau; Queue.EvTau; Queue.EvTau; Queue.EvData; Queue.EvWrote None; Queue.EvTau].

Lemma Send_after_close_never_stops_witness :
  exists q' pc outs, Queue.Send_run queue_closed_early Queue.PEnter send_late = Some (q', pc, outs) /\
    ~ q_over pc /\ Forall (fun o => snd o = buffer_zero) outs.
Proof.
  destruct (Queue.Send_run queue_closed_early Queue.PEnter send_late) as [[[q pc] outs]|] eqn:E;
    [|by vm_compute in E].
  exists q, pc, outs. split; [reflexivity|].
  apply (Send_after_close_never_stops queue_closed_early send_late q pc outs); try reflexivity; [| |exact E].
  - exact demo_covered.
  - repeat constructor.
Defined.

Lemma Send_empty_order_spins_witness :
  exists evs pc', length evs = 1000 /\
    Queue.Send_run (NewQueue (W := KSUID) 0 (kid 1)) Queue.PEnter (Queue.EvTau :: Queue.EvTau :: evs) =
      Some (set_q_status StaSend (NewQueue 0 (kid 1)), pc', []) /\ ~ q_over pc'.
Proof.
  destruct (Send_empty_order_spins (NewQueue (W := KSUID) 0 (kid 1)) 1000 eq_refl eq_refl)
    as [(evs & pc' & Hn & _ & Hr & Ho) _].
  exists evs, pc'. exact (conj Hn (conj Hr Ho)).
Defined.

(** [Send] times out and returns. *)
Definition send_timeout : list Queue.send_ev :=
  [Queue.EvTau; Queue.EvTau; Queue.EvTau; Queue.EvTau; Queue.EvTimer; Queue.EvTau; Queue.EvWaiter; Queue.EvTau].


Lemma Send_twice_panics_witness :
  exists evs q', Send_run2 demo_queue Queue.PEnter Queue.PEnter evs =
    Some (q', Queue.PReturned (Queue.SRet (Some (errors_New "time out"))), Queue.PReturned Queue.SPanic).
Proof. by apply (Send_twice_panics demo_queue). Defined.

(** * Hubs *)

Definition hub1 : QueueHub N := QueueHub.Add 0 (kid 1) (kid 1) 7%N NewQueueHub.

Lemma QueueHub_removal_safe_witness :
  is_Some (QueueHub.Remove (kid 1) hub1) /\
  exists h', QueueHub.TimeoutClose (2 * Hour) [kid 1] hub1 = Some h' /\
    pm_without hub1 (take 101 (filter (pm_expired (2 * Hour) hub1) [kid 1])) h'.
Proof.
  apply (QueueHub_removal_safe hub1 (2 * Hour) (kid 1) [kid 1]).
  apply rtc_once. apply qh_step_Add.
Defined.

(** The order is set, and the only connection registers. *)
Definition hub_ready : QueueHub N :=
  QueueHub.ensure 0 (kid 1) (QueueHub.hub_SetSort 0 (kid 1) [kid 1] NewQueueHub).
Definition hub_full : QueueHub N := pm_update 0 (fun q => set_q_writers (<[kid 1 := 7%N]> (q_writers q)) q) hub_ready.

Lemma trySend_covered_witness :
  exists q, pm_heap hub_full !! 0 = Some q /\ pm_go (fst (QueueHub.trySend (kid 1) hub_full)) = pm_go hub_full ++ [0] /\
    q_covered q /\ NoDup (q_sorted q).
Proof.
  destruct (pm_heap hub_full !! 0) as [q|] eqn:E; [|by vm_compute in E]. exists q. split; [reflexivity|].
  apply (trySend_covered (kid 1) hub_full _ 0 q); [by vm_compute|by vm_compute|exact E|].
  vm_compute in E. injection E as <-. apply (bool_decide_unpack _). vm_compute. exact I.
Defined.

Definition lhub1 : LinkHub := Link.Add 0 (kid 2) (kid 1) NewLinkHub.

Lemma LinkHub_removal_safe_witness :
  exists h', Link.RemoveAll (kid 1) lhub1 = Some h' /\
    forall q, pm_deref lhub1 (kid 1) = Some q -> pm_map h' !! kid 1 = None.
Proof.
  destruct (LinkHub_removal_safe lhub1 (kid 1) 0 []) as [(h' & E & H) _].
  { apply rtc_once. apply lh_step_Add. }
  exists h'. split; [exact E|]. intros q Hq. destruct (H q Hq) as [H1 _]. apply H1. by left.
Defined.

(** * End to end *)

Definition demo_final : sys (T := gmap KSUID (list buffer)) :=
  default demo_sys (sys_run demo_order (kid 1) 0 demo_run demo_sys).

Lemma stream_prefix_witness :
  (exists cn l, conn_at (s_hub demo_final) 0 = Some (Some cn) /\ tc_sent cn = tc_sent demo_conn ++ l /\
    l `prefix_of` data_of (s_in demo_final)) /\
  (exists cn l D, conn_at (s_hub demo_after) 0 = Some (Some cn) /\ tc_sent cn = tc_sent demo_conn ++ l /\
    l `prefix_of` data_of D /\ dealt demo_order [kid 1] (s_in demo_after) D).
Proof.
  split.
  - destruct (stream_prefix demo_order (kid 1) 0 demo_conn demo_sys demo_final [] demo_init)
      as (cn & l & Hcn & Hl & Hp & _).
    { apply sys_steps_lossy, sys_run_steps with demo_run. vm_compute. reflexivity. }
    exists cn, l. split; [exact Hcn|]. split; [exact Hl|]. exact (proj1 (Hp eq_refl)).
  - destruct (stream_prefix demo_order (kid 1) 0 demo_conn demo_sys demo_after [kid 1] demo_init demo_lossy)
      as (cn & l & Hcn & Hl & _ & (D & Hp & Hd) & _).
    exists cn, l, D. exact (conj Hcn (conj Hl (conj Hp Hd))).
Defined.

Lemma sys_run_ok l (s s' : sys (T := gmap KSUID (list buffer))) :
  Forall act_ok l -> sys_run demo_order (kid 1) 0 l s = Some s' ->
  rtc (ok_step demo_order (kid 1) 0) s s'.
Proof.
  intros Hl. revert s. induction Hl as [|a l Ha _ IH]; intros s H; cbn [sys_run] in H; [by simplify_eq|].
  destruct (sys_exec demo_order (kid 1) 0 a s) as [s1|] eqn:E; [|done]. simpl in H.
  eapply rtc_l; [left; by exists a|]. by apply IH.
Qed.

Lemma demo_fresh : sys_fresh demo_order 0 demo_sys.
Proof.
  split; [by vm_compute..|].
  intros id p c [->|[->|[]%elem_of_nil]%elem_of_cons]%elem_of_cons Hp Hc; vm_compute in Hp; simplify_eq;
    vm_compute in Hc; simplify_eq; vm_compute; lia.
Qed.

Lemma stream_delivered_witness :
  (exists n, forall k s', nsteps (move_step demo_order (kid 1) 0) k demo_final s' -> k <= n) /\
  ((forall s', ~ move_step demo_order (kid 1) 0 demo_final s') ->
     exists cn, conn_at (s_hub demo_final) 0 = Some (Some cn) /\
       tc_sent cn = tc_sent demo_conn ++ data_of (s_in demo_final) /\
       (~ no_eof (s_in demo_final) -> tc_eof cn = true)).
Proof.
  apply (stream_delivered demo_order (kid 1) 0 demo_conn demo_sys demo_final demo_init demo_fresh).
  apply sys_run_ok with demo_run; [|vm_compute; reflexivity].
  unfold demo_run, demo_send, demo_collect. repeat (constructor; [exact I|]). constructor.
Defined.

(** * Messages *)

Lemma data_message_roundtrip_witness :
  exists v m d, writer_Write (NewWebSocketWriter 0 (kid 3)) None (bytes_of "hello") = ([v], (5%Z, None)) /\
     unmarshal_message v = Some m /\ ksuid_Parse (m_Id m) = Some (kid 3) /\ m_Type m = WsTpData /\
     unmarshal_raw unmarshal_data (m_Data m) = Some d /\ pd_Tag d = TagData /\
     DecodeString (pd_DataBase64 d) = Some (bytes_of "hello").
Proof. exact (proj1 (data_message_roundtrip (NewWebSocketWriter 0 (kid 3)) (bytes_of "hello") eq_refl)). Defined.

(** * The server *)

Definition config0 : ServerConfig := mkServerConfig true false "" false.

(** A websocket connects and asks for a connection, which is dialled and
    registered. *)
Definition sv_demo_events : list sv_event :=
  [XHttp config0 0 HKey (HEvHeader ""); XHttp config0 0 HAccept (HEvAccept None);
   XHttp config0 0 HVersion (HEvVersion None); XHttp config0 0 HNewHub (HEvHub (kid 9));
   XHttp config0 0 (HRead 0) (HEvRead MessageText (Some (marshal_message
     (est_message (kid 1) None "a:80" (Some [kid 1])))) None (at_once false));
   XEst 0 (EvChecked false); XEst 0 (EvDialed (inr demo_conn)); XEst 0 EvStep; XEst 0 EvStep].
Definition sv_demo : Hub.server := default server_init (sv_run sv_demo_events server_init).

Lemma sv_demo_reachable : rtc sv_step server_init sv_demo.
Proof. apply (sv_run_reachable sv_demo_events). vm_compute. reflexivity. Qed.

(** [establish] goes on to the deferred [Close] of its object. *)
Definition sv_close_events : list sv_event :=
  sv_demo_events ++ [XEst 0 EvStep; XEst 0 EvStep; XEst 0 (EvWoken true); XEst 0 EvStep; XEst 0 EvStep].
Definition sv_demo_close : Hub.server := default server_init (sv_run sv_close_events server_init).

Lemma sv_demo_close_reachable : rtc sv_step server_init sv_demo_close.
Proof. apply (sv_run_reachable sv_close_events). vm_compute. reflexivity. Qed.

Definition est_close : est := default (mkProxyEst "" 0 (kid 0) "" None ECheck WNone NewDead false) (sv_ests sv_demo_close !! 0).

Lemma server_closes_safely_witness : is_Some (establish_step 0 EvStep sv_demo_close).
Proof.
  apply (proj2 (server_closes_safely sv_demo_close sv_demo_close_reachable) 0 est_close); vm_compute; reflexivity.
Defined.

Lemma establish_cleans_up_witness :
  exists s' out, establish_step 0 EvStep sv_demo_close = Some (s', out) /\ released (kid 1) sv_demo_close s'.
Proof.
  destruct (establish_step 0 EvStep sv_demo_close) as [[s' out]|] eqn:E; [|by vm_compute in E].
  exists s', out. split; [reflexivity|].
  assert (sv_ests sv_demo_close !! 0 = Some est_close) as He by (vm_compute; reflexivity).
  apply (proj1 (proj2 (establish_cleans_up sv_demo_close 0 est_close sv_demo_close_reachable He)) s' out);
    [vm_compute; reflexivity|by vm_compute|exact E].
Defined.

Definition est_demo : est := default est_close (sv_ests sv_demo !! 0).
Definition hub_demo : Hub := default (mkHub (kid 0) ∅) (sv_hubs sv_demo !! 0).

Lemma finish_while_establishing_panics_witness :
  exists s1 s2,
    dispatchMessage 0 (at_once false) 0 MessageText (Some (marshal_message (finish_message (kid 1)))) sv_demo =
      Finished (s1, None) /\
    sv_run [XEst 0 EvStep; XEst 0 EvStep; XEst 0 EvStep] s1 = Some s2 /\
    (es_pc <$> sv_ests s2 !! 0) = Some EPanic.
Proof.
  apply (finish_while_establishing_panics sv_demo 0 (at_once false) 0 est_demo hub_demo sv_demo_reachable);
    vm_compute; (reflexivity || discriminate).
Defined.

Lemma dispatch_error_harmless_witness :
  dispatchDataMessage 0 (at_once false) 0 None sv_demo = Finished (sv_demo, Some ErrJson) /\ sv_demo = sv_demo.
Proof. split; [reflexivity|]. by apply (dispatch_error_harmless 0 (at_once false) 0 None sv_demo sv_demo ErrJson). Defined.

Lemma hub_Close_releases_witness :
  exists s', hub_Close 0 [kid 1] sv_demo = Some s' /\
    exists gone, pm_removes (serverLinkHub sv_demo) gone (serverLinkHub s') /\ kid 1 ∈ gone.
Proof.
  assert (forall id, is_Some (connPool hub_demo !! id) -> id ∈ [kid 1]) as Hids.
  { intros id Hid%elem_of_dom. assert (elements (dom (connPool hub_demo)) = [kid 1]) as <- by (vm_compute; reflexivity).
    by apply elem_of_elements. }
  destruct (hub_Close_releases 0 hub_demo [kid 1] sv_demo) as (s' & E & _ & _ & _ & _ & (gone & Hg & _ & Ha) & _);
    [apply si_wf, sv_reachable_inv, sv_demo_reachable|vm_compute; reflexivity|exact Hids|].
  exists s'. split; [exact E|]. exists gone. split; [exact Hg|].
  assert (open_in hub_demo sv_demo (kid 1)) as Ho.
  { exists (mkProxy (kid 1) 0), est_demo. vm_compute. split_and!; (reflexivity || discriminate). }
  apply (Ha (kid 1) Ho); [|apply link_ids_self].
  intros id' (proxy & e & Hp & _) _. by apply list_elem_of_singleton, Hids.
Defined.

Definition hs_demo : list sv_handshake :=
  [SHi 0 (kid 1)] ++ SEst 0 "a:80" :: [SHi 1 (kid 2)] ++ STryLink demo_conn :: [] ++ STryQueue :: [].

Lemma server_handshake_witness :
  let s' := foldl (sv_hs_step 0 (kid 1) [kid 1; kid 2]) server_init hs_demo in
  exists p q, pm_map (serverQueueHub s') !! kid 1 = Some p /\ pm_heap (serverQueueHub s') !! p = Some q /\
     last (pm_go (serverQueueHub s')) = Some p /\ q_sorted q = [kid 1; kid 2] /\ q_covered q.
Proof.
  intros s'.
  destruct (server_handshake 0 (kid 1) [kid 1; kid 2] server_init [SHi 0 (kid 1)] 0 "a:80" [SHi 1 (kid 2)] demo_conn [] [])
    as [(p & q & H1 & H2 & H3 & H4 & H5 & _) _]; [reflexivity|reflexivity|by repeat constructor| |reflexivity|].
  - apply (bool_decide_unpack _). vm_compute. exact I.
  - exists p, q. exact (conj H1 (conj H2 (conj H3 (conj H4 H5)))).
Defined.

(** * The client *)

(** A chunk for which the server has no link, and one for which it has a link
    but the timer of the dispatcher's select runs out. *)
Lemma chunk_delivered_witness :
  exists v, chunk_message 0 (kid 2) (mkBuffer false (bytes_of "x")) = [v] /\
    (forall we, exists o, receives we NewLinkHub (kid 2) (mkBuffer false (bytes_of "x")) o /\
       dispatchMessage 0 we 0 MessageText (Some v) server_init = map_outcome (fun h => (set_links h server_init, None)) o) /\
    exists o, receives (at_once true) (serverLinkHub sv_demo) (kid 1) (mkBuffer false (bytes_of "x")) o /\ o <> Blocked.
Proof.
  destruct (chunk_delivered 0 (kid 2) (mkBuffer false (bytes_of "x"))) as (v & H1 & H2 & _); [discriminate|].
  exists v. split; [exact H1|]. split; [intros we; exact (H2 we 0%Z 0 server_init)|].
  destruct (chunk_delivered 0 (kid 1) (mkBuffer false (bytes_of "x"))) as (v' & E & H & _); [discriminate|].
  destruct (H (at_once true) 0%Z 0 sv_demo) as (o & Ho & Eo). exists o. split; [exact Ho|]. intros ->.
  injection E as <-. vm_compute in Eo. discriminate.
Defined.

Definition client2 : Client.client := NewWebSocketClient (NewWebSocketClient client_init).

Lemma transData_setup_witness :
  exists s' qq oo, transData 0 [kid 1; kid 2] demo_conn None "a:80" None client2 =
      (s', hello_messages 0 (kid 1) [kid 1; kid 2] ++
           [(0, marshal_message (est_message (kid 1) None "a:80" (Some [kid 1; kid 2])))], TWait qq oo).
Proof.
  destruct (transData_setup 0 [kid 1; kid 2] (kid 1) demo_conn "a:80" client2)
    as (s' & qq & oo & q & l & H & _); [reflexivity| |reflexivity|reflexivity|reflexivity|].
  - apply (bool_decide_unpack _). vm_compute. exact I.
  - exists s', qq, oo. exact H.
Defined.

(** One websocket, whose proxy, queue and link are there. *)
Definition client1 : Client.client :=
  mkClient (QueueHub.Add 0 (kid 1) (kid 1) 0 NewQueueHub) (Link.Add 0 (kid 1) (kid 1) NewLinkHub)
    [NewWebSocketWriter 0 (kid 1)] [mkTrans "" (Some (kid 1)) [kid 1]]
    [mkWSC {[kid 1 := mkProxyClient (kid 1) 0]} false false].

Lemma trans_return_releases_witness :
  exists s', trans_return 0 (kid 1) [(0, kid 1, 0)] client1 = Some s' /\
    pm_map (clientQueueHub s') !! kid 1 = None /\ wsc_GetProxyById 0 (kid 1) s' = None.
Proof.
  destruct (trans_return_releases 0 (kid 1) [(0, kid 1, 0)] client1 (mkTrans "" (Some (kid 1)) [kid 1]))
    as (s' & E & _ & H1 & H2 & _); [apply pm_wf_Add, pm_wf_empty|apply lh_wf_Add, pm_wf_empty|reflexivity|].
  exists s'. split; [exact E|]. split; [apply H1; discriminate|]. rewrite H2. by rewrite decide_True by set_solver.
Defined.

(** * Addresses and SOCKS *)

(** A resolver that knows one private address. *)
Definition lookup_private (name : bytes) : list IP :=
  if decide (name = bytes_of "nas") then [["192"; "168"; "001"; "002"]%char] else [].

Lemma checkAddrPrivite_ranges_witness :
  checkAddrPrivite lookup_private (JoinHostPort (bytes_of "nas") (bytes_of "80")) = true.
Proof.
  rewrite (checkAddrPrivite_ranges lookup_private (bytes_of "nas") (bytes_of "80")).
  - vm_compute. reflexivity.
  - apply (bool_decide_unpack _). vm_compute. exact I.
  - constructor; [by eexists|constructor].
Defined.

Lemma checkAddrPrivite_misses_ipv6_witness :
  checkAddrPrivite lookup_private (JoinHostPort (bytes_of "::1") (bytes_of "80")) = false.
Proof.
  apply (checkAddrPrivite_misses_ipv6 lookup_private (bytes_of "::1") (bytes_of "80")).
  - apply (bool_decide_unpack _). vm_compute. exact I.
  - intros name. reflexivity.
Defined.

Lemma Reply_request_witness :
  Reply (inr ["005"; "001"; "000"]%char) None
        (inr (request "001"%char (DstDomain (bytes_of "go.dev")) "001"%char "187"%char)) =
    (["005"; "000"]%char, inr (None, ProxyTypeSocks5, bytes_of "go.dev:443")).
Proof.
  rewrite (Reply_request "001"%char ["000"%char] "001"%char (DstDomain (bytes_of "go.dev")) "001"%char "187"%char).
  - vm_compute. reflexivity.
  - simpl. lia.
Defined.

Lemma Reply_errors_witness :
  Reply (inr (bytes_of "GET /")) None (inl EOF) = ([], inl (errors_New "only socks5 proxy")).
Proof. apply (Reply_errors EOF (bytes_of "GET /") [] None (inl EOF)). vm_compute. reflexivity. Defined.

(** * Pipes, records, versions *)

Definition wr_abc : BufferedWR :=
  match wr_Write (bytes_of "abc") NewBufferWR with WRet h _ => h | _ => NewBufferWR end.

Lemma BufferedWR_fifo_witness : bytes_of "abc" = [] ++ wr_buffer wr_abc /\ is_Some (wr_Close wr_abc).
Proof.
  apply (BufferedWR_fifo (bytes_of "abc") []).
  eapply (wr_snoc NewBufferWR [] []); [apply wr_nil|].
  apply (wr_step_write (bytes_of "abc") NewBufferWR wr_abc 3 None). reflexivity.
Defined.

Definition one_conn (i : nat) : error + option bytes * Z * bytes :=
  if decide (i = 0) then inr (None, ProxyTypeSocks5, bytes_of "a:80") else inl EOF.

(** The first connection is in use. *)
Definition conn_log : list (nat * action) :=
  map (pair 0) (take 3 (serve_conn (one_conn 0) false)).

Lemma listener_keeps_record_witness :
  exists cr, updates (updates_of conn_log) NewConnRecord = Some cr /\ ConnSize cr = 1%Z.
Proof.
  destruct (listener_keeps_record one_conn (fun _ => false) conn_log) as (cr & H1 & H2 & _).
  - intros i. destruct (decide (i = 0)) as [->|Hi].
    + change (of_conn 0 conn_log) with (take 3 (serve_conn (one_conn 0) false)). apply prefix_take.
    + assert (of_conn i conn_log = []) as ->; [|apply prefix_nil].
      unfold of_conn, conn_log. simpl. by rewrite !decide_False by done.
  - vm_compute. reflexivity.
  - exists cr. split; [exact H1|]. rewrite H2. vm_compute. reflexivity.
Defined.

(** * Commands *)

Definition server_cmd : Cli.server := mkServerCmd (bytes_of ":1088") (bytes_of "ws") true true [] false [] [] true.
Definition client_cmd : Cli.client :=
  mkClientCmd (bytes_of ":1080") (bytes_of "ws://h") None [bytes_of "x-a=1"; bytes_of "X-A=2"] 4 None [] false.
Definition url_h : URL := mkURL (bytes_of "ws") (bytes_of "//h").

Lemma server_PreRun_ok_witness :
  exists s', server_PreRun (inr (replicate 12 "z"%char)) server_cmd = inr s' /\
    HasSuffix (wsBasePath s') (bytes_of "/") = true /\ length (authKey s') = 24.
Proof.
  eexists. split; [reflexivity|].
  edestruct (server_PreRun_ok (inr (replicate 12 "z"%char)) server_cmd) as (_ & H1 & _ & H2).
  - intros b [= <-]. reflexivity.
  - reflexivity.
  - split; [exact H1|exact H2].
Defined.

Lemma client_PreRun_headers_witness :
  exists c' h, client_PreRun (inr url_h) client_cmd = inr c' /\ remoteHeaders c' = Some h /\
    default [] (h !! bytes_of "X-A") = [bytes_of "1"; bytes_of "2"].
Proof.
  pose proof (client_PreRun_headers url_h client_cmd
    [(bytes_of "x-a", bytes_of "1"); (bytes_of "X-A", bytes_of "2")]) as H.
  destruct H as (c' & h & H1 & _ & Hh & H2); [discriminate|reflexivity| |].
  - apply (bool_decide_unpack _). vm_compute. exact I.
  - exists c', h. split; [exact H1|]. split; [exact Hh|]. rewrite H2. vm_compute. reflexivity.
Defined.

(** Some of the options, in an order of their own, one of them twice. *)
Definition parse_int_demo (v : bytes) : option Z := if bool_decide (v = bytes_of "0x4") then Some 4%Z else None.
Definition opts_demo : list (bool * bool * client_option) :=
  [(false, false, OptSkip None); (true, false, OptRemote (bytes_of "ws://g:1")); (true, true, OptHeader (bytes_of "a=b=c"));
   (false, true, OptNums (bytes_of "0x4")); (false, false, OptHeader (bytes_of "x=y")); (true, true, OptRemote (bytes_of "ws://h:1"))].

Lemma client_command_line_witness :
  exists c, Parse (client_flags parse_int_demo)
    (map bytes_of ["-skip-tls-verify"; "--remote"; "ws://g:1"; "--ws-header=a=b=c"; "-nums=0x4"; "-ws-header"; "x=y";
                   "--remote=ws://h:1"; "more"]%string)
    client_defaults = Parsed c [bytes_of "more"] /\
    cli_address c = bytes_of ":1080" /\ remote c = bytes_of "ws://h:1" /\ skipTLSVerify c = true /\
    headers c = map bytes_of ["a=b=c"; "x=y"]%string.
Proof.
  pose proof (client_command_line parse_int_demo opts_demo url_h [bytes_of "more"]
    ltac:(vm_compute; exact I)) as H.
  destruct (set_options _ _ _) as [o|c] eqn:E; [vm_compute in E; discriminate|].
  destruct H as (H1 & H2 & H3 & _ & _ & H4 & H5 & _). exists c. split; [exact H1|]. split; [exact H2|].
  split; [exact H3|]. split; [exact H4|exact H5].
Defined.

(** The blanks of the client's key are taken off on the way. *)
Lemma connection_key_checked_witness :
  match send_headers (connection_headers (bytes_of " k") ∅) with
  | Some h' =>
      ServeHTTP_step (mkServerConfig true true "k" false) 0 HKey
        (HEvHeader (string_of (header_Get (bytes_of "Key") h'))) server_init = Finished (server_init, HAccept, [])
  | None => False
  end.
Proof.
  pose proof (connection_key_checked (mkServerConfig true true "k" false) 0 (bytes_of " k") ∅ server_init eq_refl
    ltac:(apply map_Forall_empty)) as H.
  destruct (send_headers _) as [h'|] eqn:E; [|vm_compute in H; discriminate].
  apply H. vm_compute. reflexivity.
Defined.

(** * The terminal *)

Definition record1 : ConnRecord := mkRecord 1 {["a:80"%string := 1%Z]} 1 1 [].

Lemma SetLogBuffer_fits_witness : Z.of_nat (count_lines (SetLogBuffer (inr 24%Z) ["a:80"%string] record1)) = 4%Z.
Proof.
  rewrite (SetLogBuffer_fits 24 ["a:80"%string] record1).
  - vm_compute. reflexivity.
  - vm_compute. reflexivity.
  - apply (bool_decide_unpack _). vm_compute. exact I.
  - lia.
Defined.

Definition log_ops : list log_op := [OpChange ["a:80"%string] record1].

Lemma detab_lays_out : lays_out detab.
Proof.
  intros text [HF Hs] _.
  assert (forall b cur, Forall (fun c => c = NL \/ printable c \/ c = TAB) b ->
    split_lines (detab b) (detab cur) = (map detab (fst (split_lines b cur)), detab (snd (split_lines b cur))) /\
    count_lines (detab b) = count_lines b /\ Forall (fun c => c = NL \/ printable c) (detab b)) as H.
  { intros b cur Hb. revert cur. induction Hb as [|c b Hc _ IH]; intros cur; simpl; [by split_and!|].
    destruct (decide (c = TAB)) as [->|Ht].
    - destruct (IH (cur ++ [TAB])) as (E1 & E2 & E3). unfold detab at 2 in E1. rewrite map_app in E1. simpl in E1.
      rewrite !decide_False by done. split_and!; [exact E1|exact E2|]. constructor; [right; by vm_compute|exact E3].
    - destruct (decide (c = NL)) as [->|Hn].
      + destruct (IH []) as (E1 & E2 & E3). simpl in E1. change (split_lines (map _ b) []) with (split_lines (detab b) []).
        rewrite E1. destruct (split_lines b []). simpl. split_and!; [done|by f_equal|]. constructor; [by left|exact E3].
      + destruct (IH (cur ++ [c])) as (E1 & E2 & E3). unfold detab at 2 in E1. rewrite map_app in E1. simpl in E1.
        rewrite decide_False in E1 by done. split_and!; [exact E1|exact E2|]. constructor; [|exact E3].
        destruct Hc as [?|[?|?]]; [done|by right|done]. }
  destruct (H text [] HF) as (E1 & E2 & E3). split; [|exact E2]. split; [exact E3|].
  change (split_lines (detab text) []) with (split_lines (detab text) (detab [])). rewrite E1. simpl. by rewrite Hs.
Qed.


(** * The client's process *)

Definition started1 : handles := default (StartClient 1) (h_run (StartClient 1) (replicate 7 HMain)).

(** The websocket fails, and everything is closed. *)
Definition shutdown_events : list h_event :=
  HTask 0 true :: replicate 6 (HTask 0 false) ++ replicate 3 (HTask 1 false) ++ replicate 3 (HTask 2 false) ++ [HMain].
Definition stopped1 : handles := default started1 (h_run started1 shutdown_events).

Lemma client_exits_witness : h_main stopped1 = MReturned /\ closed_by [] stopped1.
Proof.
  assert (h_run (StartClient 1) (replicate 7 HMain) = Some started1) as H0 by (vm_compute; reflexivity).
  assert (h_main started1 = MWait) as Hm by (vm_compute; reflexivity).
  assert (h_once started1 = OnceNo) as Ho by (vm_compute; reflexivity).
  assert (h_run started1 shutdown_events = Some stopped1) as Hr by (vm_compute; reflexivity).
  assert (h_main stopped1 = MReturned) as Er by (vm_compute; reflexivity).
  split; [exact Er|]. destruct (client_exits 1 _ _ _ _ H0 Hm Ho Hr) as [Hret _]. exact (Hret Er).
Defined.


Lemma client_starts_witness :
  exists c', client_PreRun (inr url_h) client_cmd = inr c' /\
    client_Run tt no_plugins (fun _ _ _ _ => None) (fun _ => inr (server_version true)) None c' =
      Some (inr (StartClient 4)).
Proof.
  eexists. split; [reflexivity|].
  edestruct (client_starts tt (inr url_h) client_cmd _ no_plugins (fun _ _ _ _ => None)
    (fun _ => inr (server_version true)) None eq_refl) as [_ (u & h & Hu & Hh & H)].
  apply H. split; [reflexivity|]. split; [intros i _; reflexivity|].
  exists (server_version true). split; [reflexivity|]. split; [split; discriminate|]. intros _. reflexivity.
Defined.

(** * Status and heart beat *)

Lemma status_page_witness :
  json_at ["statistics"; "clients"]
    (snd (fst (status_ServeHTTP (5 * Second) None (NewStatusHandle 0 true false "/") server_init))) = Some (JNum 0).
Proof.
  destruct (status_page (5 * Second) None (NewStatusHandle 0 true false "/") server_init) as [H _];
    [vm_compute; discriminate|exact H].
Defined.

Lemma heart_beat_loop_witness :
  hb_Start 2 [HbTick (fun i => if Nat.eqb i 0 then Some EOF else None); HbDone] = (beats 2, Some None).
Proof.
  destruct (heart_beat_loop 1 [fun i => if Nat.eqb i 0 then Some EOF else None] []) as [H _].
  - repeat constructor.
  - exact H.
Defined.

(** * A connection from its first message *)

Lemma open_ids_nodup : NoDup open_ids.
Proof. apply (bool_decide_unpack _). vm_compute. exact I. Qed.

Definition open_result : Client.client := fst (fst opened).
Definition up_state : dir (W := nat) * list Link.handshake :=
  default (up_start open_result (snd (fst opened)) ∅ NewLinkHub, []) up_demo.
Lemma up_open_fine : Forall (fun a => open_fine a) up_open.
Proof. repeat constructor. Qed.

Lemma up_state_ok :
  rtc (up_ok open_ids (kid 1) "a:80" id (Some demo_conn) 0) (up_start open_result (snd (fst opened)) ∅ NewLinkHub, [])
    (fst up_state, snd up_state).
Proof.
  eapply (open_run_steps (up_exec open_ids (kid 1) "a:80" id (Some demo_conn) 0) (fun a => open_fine a));
    [intros a x x'; apply up_exec_fine|exact up_open_fine|].
  vm_compute. reflexivity.
Qed.
Lemma up_state_steps :
  rtc (up_step open_ids (kid 1) "a:80" id (Some demo_conn) 0) (up_start open_result (snd (fst opened)) ∅ NewLinkHub, [])
    (fst up_state, snd up_state).
Proof. apply up_oks_steps, up_state_ok. Qed.
Definition down_state : dir (W := webSocketWriter) * list (QueueHub.handshake (W := webSocketWriter)) :=
  default (down_start open_result ∅ NewQueueHub, []) down_demo.
Lemma down_open_fine : Forall (fun a => open_fine a) down_open.
Proof. repeat constructor. Qed.

Lemma down_state_ok :
  rtc (down_ok open_ids (kid 1) "a:80" id 0) (down_start open_result ∅ NewQueueHub, [])
    (fst down_state, snd down_state).
Proof.
  eapply (open_run_steps (down_exec open_ids (kid 1) "a:80" id 0) (fun a => open_fine a));
    [intros a x x'; apply down_exec_fine|exact down_open_fine|].
  vm_compute. reflexivity.
Qed.
(** Nothing goes wrong, and nothing is left to do. *)
Definition up_over : dir (W := nat) := default (fst up_state) up_quiet.
Definition down_over : dir (W := webSocketWriter) := default (fst down_state) down_quiet.

Lemma more_fine (l : list (act (K := ksuid_N))) :
  forallb act_fine l = true -> Forall (fun a => act_fine a) l.
Proof. rewrite forallb_forall, Forall_forall. intros H a Ha%list_elem_of_In. by rewrite (H a Ha). Qed.

Lemma up_over_ok : rtc (dir_ok (ws_index open_ids) open_ids (kid 1) 0 0) (fst up_state) up_over.
Proof.
  apply (dir_run_fine _ _ _ _ _ (up_more ++ start_send ++ start_link)); [by apply more_fine|].
  vm_compute. reflexivity.
Qed.
Lemma up_over_rest : dir_rest (ws_index open_ids) open_ids 0 0 up_over = true.
Proof. vm_compute. reflexivity. Qed.

Lemma upstream_opens_witness :
  exists n, forall k x', nsteps (up_move open_ids (kid 1) "a:80" id (Some demo_conn) 0) k (fst up_state, snd up_state) x' -> k <= n.
Proof.
  destruct (upstream_opens 0 open_ids (kid 1) demo_conn "a:80" open_client open_result (snd (fst opened)) 0 0 id (Some demo_conn)
    ∅ NewLinkHub (fst up_state) (snd up_state)) as [H _].
  - reflexivity.
  - exact open_ids_nodup.
  - apply (bool_decide_unpack _). vm_compute. exact I.
  - reflexivity.
  - apply pm_wf_empty.
  - intros i _. reflexivity.
  - vm_compute. reflexivity.
  - apply pm_wf_empty.
  - constructor.
  - intros i _. reflexivity.
  - intros i _. reflexivity.
  - exact up_state_steps.
  - exact H.
Defined.

Lemma upstream_arrives_witness : all_out 0 [] up_over.
Proof.
  destruct (upstream_arrives 0 open_ids (kid 1) demo_conn "a:80" open_client open_result (snd (fst opened)) 0 0 id demo_conn
    ∅ NewLinkHub (fst up_state) (snd up_state) 0 up_over) as [_ H].
  - reflexivity.
  - exact open_ids_nodup.
  - apply (bool_decide_unpack _). vm_compute. exact I.
  - reflexivity.
  - apply pm_wf_empty.
  - intros i _. reflexivity.
  - vm_compute. reflexivity.
  - apply pm_wf_empty.
  - constructor.
  - intros i _. reflexivity.
  - intros i _. reflexivity.
  - reflexivity.
  - exact up_state_ok.
  - vm_compute. reflexivity.
  - apply (bool_decide_unpack _). vm_compute. exact I.
  - exact up_over_ok.
  - apply H. intros d''. exact (dir_rest_ok _ _ (kid 1) _ _ _ _ up_over_rest).
Defined.

Lemma down_over_ok : rtc (dir_ok (hub_index open_ids id) open_ids (kid 1) 0 0) (fst down_state) down_over.
Proof.
  apply (dir_run_fine _ _ _ _ _ (down_more ++ start_send ++ start_link)); [by apply more_fine|].
  vm_compute. reflexivity.
Qed.
Lemma down_over_rest : dir_rest (hub_index open_ids id) open_ids 0 0 down_over = true.
Proof. vm_compute. reflexivity. Qed.

Lemma downstream_arrives_witness : all_out 0 [] down_over.
Proof.
  destruct (downstream_arrives 0 open_ids (kid 1) demo_conn "a:80" open_client open_result (snd (fst opened)) 0 0 id
    ∅ NewQueueHub (fst down_state) (snd down_state) 0 down_over) as [_ H].
  - reflexivity.
  - exact open_ids_nodup.
  - apply (bool_decide_unpack _). vm_compute. exact I.
  - reflexivity.
  - apply pm_wf_empty.
  - intros i _. reflexivity.
  - vm_compute. reflexivity.
  - reflexivity.
  - apply pm_wf_empty.
  - constructor.
  - reflexivity.
  - intros i _. reflexivity.
  - apply (bool_decide_unpack _). vm_compute. exact I.
  - exact down_state_ok.
  - vm_compute. reflexivity.
  - apply (bool_decide_unpack _). vm_compute. exact I.
  - exact down_over_ok.
  - apply (proj1 H). intros d''. exact (dir_rest_ok _ _ (kid 1) _ _ _ _ down_over_rest).
Defined.

(** * The end of a connection, and of the listener *)

Lemma finish_releases_witness :
  exists s', dispatchMessage 0 (at_once false) 0 MessageText (Some (finish_json (kid 1))) sv_demo = Finished (s', None) /\
    released (kid 1) sv_demo s'.
Proof.
  destruct (finish_releases (kid 1)) as (_ & _ & H & _).
  destruct (H 0%Z (at_once false) 0 sv_demo hub_demo sv_demo_reachable) as (s' & E & Hm); [vm_compute; reflexivity|].
  exists s'. split; [exact E|].
  assert (exists proxy, connPool hub_demo !! kid 1 = Some proxy) as [proxy Hp].
  { eexists. vm_compute. reflexivity. }
  rewrite Hp in Hm. destruct Hm as (e & He & Hst). case_decide as Hc; [|exact Hst].
  exfalso. revert Hc. assert (sv_ests sv_demo !! ps_ProxyIns proxy = Some est_demo) as He'.
  { vm_compute in Hp. injection Hp as <-. vm_compute. reflexivity. }
  rewrite He in He'. injection He' as ->. vm_compute. discriminate.
Defined.

(** A connection has been accepted when [Close] is called. *)
Definition closing_events : list li_ev :=
  [EvListen (inr true); EvMain; EvMain; EvAccept (inr (inr (None, ProxyTypeSocks5, bytes_of "a:80"), false)); EvConn 0;
   EvMain; EvClose true; EvCloseStep; EvCloseStep].
Definition li_closing : listening := default li_init (li_run closing_events li_init).

Lemma li_closing_reachable : li_reachable li_closing.
Proof. exists closing_events. vm_compute. reflexivity. Qed.

Lemma accept_loop_ends_witness :
  (exists s', li_run [EvAccept (inl EOF)] li_closing = Some s' /\
     length (filter of_loop [EvAccept (inl EOF)]) <= 3 /\ length (li_conns s') <= 2) /\
  is_Some (li_exec (EvAccept (inl EOF)) li_closing).
Proof.
  destruct (accept_loop_ends li_closing li_closing_reachable) as [H1 H2]; [vm_compute; discriminate|].
  split.
  - eexists. split; [reflexivity|]. apply (H1 [EvAccept (inl EOF)]). reflexivity.
  - destruct H2 as [_ H2]; [left; vm_compute; reflexivity|]. vm_compute in H2. destruct H2 as [[err E]|H2]; [discriminate|].
    destruct (H2 EOF) as [[x E]|[[x E]|E]]; [discriminate|discriminate|exact E].
Defined.

(** Close is called while the connection is counted; it returns after its Done. *)
Definition li_serving : listening := default li_init (li_run (take 6 closing_events) li_init).
Definition waiting_events : list li_ev := [EvCloseStep; EvCloseStep] ++ replicate 5 (EvConn 0) ++ [EvCloseStep; EvConn 0].

Lemma close_waits_witness :
  exists evs1 evs2 s1, waiting_events = evs1 ++ evs2 /\ li_run (EvClose true :: evs1) li_serving = Some s1 /\
    li_close s1 = CReturned /\ forall c, c ∈ li_conns s1 -> AAdd ∈ c \/ c `suffix_of` [AClose].
Proof.
  destruct (li_run (EvClose true :: waiting_events) li_serving) as [s'|] eqn:E; [|vm_compute in E; discriminate].
  apply (proj1 close_waits li_serving waiting_events s').
  - exists (take 6 closing_events). vm_compute. reflexivity.
  - vm_compute. reflexivity.
  - exact E.
  - vm_compute in E. injection E as <-. reflexivity.
Defined.
