(* ===== verification/WitnessesSystem.v ===== *)
(** The theorems of ClientProc.v, ClientRun.v and System.v, applied to concrete
    runs: a connection over two websockets whose establish message cannot be
    sent, and one that is established, on both sides. *)
From S2P Require Import Prelude GoChan Pipe RoundRobin PtrMap Queue QueueHub Link Starts Sends Striping Base64 Json.
From S2P Require Import Messages Hub Server Handshake Client Finish Wire Direction Session ClientProc ClientTable ClientSafe.
From S2P Require Import ClientRun Typing ClientTyped ServerTyped System StripingRun SessionRun.

#[local] Existing Instance ksuid_N.
#[local] Existing Instance ksuid_text_N.

(** * A client whose establish message cannot be sent *)

(** The state after a run, which reads no messages. *)
Definition after (evs : list cp_ev) (s : cproc) : cproc :=
  match cp_run evs s with Finished (s', _) => s' | _ => s end.

Lemma after_polite evs s :
  forallb (fun ev => negb (reads_message ev)) evs = true -> rtc polite_step s (after evs s).
Proof.
  unfold after. revert s. induction evs as [|ev evs IH]; intros s H; simpl in H; [constructor|].
  apply andb_prop in H as [Hev%negb_true_iff Hevs]. cbn [cp_run].
  destruct (cp_exec ev s) as [[s1 out]| |] eqn:E; [|constructor..]. pose proof (IH s1 Hevs) as Hr.
  assert (polite_step s s1) as Hs by (exists ev, out; split; [by apply reads_message_polite|done]).
  destruct (cp_run evs s1) as [[s2 out']| |]; [by eapply rtc_l|constructor..].
Qed.

Definition two_turns : list cp_ev :=
  PNew (mkConn [] false) "a:80" :: map (PCall 0) (turn_events 0 (kid 1) ++ turn_events 0 (kid 2) ++ [CeStep]).

(** The loop is over; then the message is lost, and the call removes itself and
    undoes what it has done. *)
Definition looped : cproc := after two_turns (cproc_init 2).
Definition refused : cproc := after [PCall 0 (CeEst (Some EOF) true)] looped.
Definition refused_removed : cproc := after [PCall 0 CeStep] refused.
Definition refused_end : cproc := after (map (PCall 0) (replicate 5 CeStep)) refused_removed.

Lemma polite_init_looped : rtc polite_step (cproc_init 2) looped.
Proof. apply after_polite. reflexivity. Qed.

Lemma polite_init_refused : rtc polite_step (cproc_init 2) refused.
Proof. etransitivity; [exact polite_init_looped|]. apply after_polite. reflexivity. Qed.

Lemma refused_step : polite_step refused refused_removed.
Proof. exists (PCall 0 CeStep), []. split; [exact I|]. vm_compute. reflexivity. Qed.

Lemma refused_steps : rtc polite_step refused_removed refused_end.
Proof. apply after_polite. reflexivity. Qed.

Lemma polite_init_end : rtc polite_step (cproc_init 2) refused_end.
Proof.
  etransitivity; [exact polite_init_refused|]. eapply rtc_l; [exact refused_step|exact refused_steps].
Qed.

Lemma client_never_panics_witness :
  cp_exec (PRead 0 (at_once false) (inr (Some (chunk_json (kid 1) (mkBuffer false []))))) looped <> Panicked.
Proof.
  destruct (client_never_panics 2 looped (PRead 0 (at_once false) (inr (Some (chunk_json (kid 1) (mkBuffer false []))))))
    as [H _]; [lia|exact polite_init_looped| |exact H].
  intros id0 proxy Hf. exfalso. revert Hf.
  rewrite (finish_of_encode (MChunk (kid 1) (mkBuffer false []))). discriminate.
Defined.

Definition ended_call : trans * call :=
  (mkTrans "removed" (Some (kid 1)) [kid 1; kid 2], mkCall (mkConn [] false) "a:80" (TEnd (Some EOF)) [0; 1] CNone).

Lemma calls_clean_up_witness :
  calls_of refused_end 0 = Some ended_call /\ pm_map (clientQueueHub (pr_client refused_end)) !! kid 1 = None.
Proof.
  assert (calls_of refused_end 0 = Some ended_call) as E by (vm_compute; reflexivity). split; [exact E|].
  destruct (calls_clean_up 2 refused_end 0 (fst ended_call) (snd ended_call) (Some EOF)) as [H _];
    [lia|exact polite_init_end|exact E|reflexivity|]. by apply (H (kid 1)).
Defined.

Lemma early_removal_leaks_witness :
  is_Some (pm_map (clientLinkHub (pr_client refused_end)) !! kid 2).
Proof.
  apply (early_removal_leaks 2 refused refused_removed refused_end 0
    (mkTrans "" (Some (kid 1)) [kid 1; kid 2]) (mkTrans "removed" (Some (kid 1)) [kid 1; kid 2]) (kid 1) (kid 2)).
  - lia.
  - exact polite_init_refused.
  - exact refused_step.
  - exact refused_steps.
  - vm_compute. reflexivity.
  - discriminate.
  - reflexivity.
  - vm_compute. reflexivity.
  - reflexivity.
  - intros l Hl. vm_compute in Hl. injection Hl as <-. reflexivity.
  - apply list_elem_of_In. right. left. reflexivity.
  - discriminate.
  - eexists. vm_compute. reflexivity.
Defined.

Lemma call_alone_witness :
  exists evs c1 s1 out, call_run 0 evs (set_ctrans [new_trans] (pr_client (cproc_init 2)))
      (mkCall (mkConn [] false) "a:80" (TLoop 0) [] CNone) = Finished (s1, c1, out) /\
    ca_pc c1 = TRemove (Some EOF).
Proof.
  destruct (call_alone 0 [kid 1; kid 2] (mkConn [] false) "a:80" (Some EOF) (pr_client (cproc_init 2)) eq_refl) as [H _].
  destruct (transData 0 [kid 1; kid 2] (mkConn [] false) None "a:80" (Some EOF) (pr_client (cproc_init 2)))
    as [[s1 out] r] eqn:E.
  assert (r = TReturn EOF) as -> by (vm_compute in E; injection E as _ _ <-; reflexivity).
  destruct H as (evs & c1 & Hr & Hpc). exists evs, c1, s1, out. split; [exact Hr|exact Hpc].
Defined.

(** * A connection in the system *)

(** The server with the hubs of two websockets. *)
Definition two_hubs : list sv_event :=
  map (fun id => XHttp (mkServerConfig false false "" false) 0 HNewHub (HEvHub (kid id))) [8%N; 9%N].
Definition served : server := default server_init (sv_run two_hubs server_init).

Definition sy0 : system := mkSystem (cproc_init 2) served ∅ ∅ ∅.

Lemma served_reachable : rtc sv_step server_init served.
Proof. apply (sv_run_reachable two_hubs). vm_compute. reflexivity. Qed.

Lemma sy0_start : sy_start 2 id sy0.
Proof.
  split.
  - reflexivity.
  - exact served_reachable.
  - intros w (p & q & i & Hq & _). vm_compute in Hq. discriminate.
  - intros g pc w Hg. vm_compute in Hg. discriminate.
  - intros p e He. vm_compute in He. discriminate.
  - intros k. reflexivity.
  - intros k. reflexivity.
Qed.

(** The client opens a connection; the server has read the first hello. *)
Definition sy_opening : list sys_ev :=
  map SClient (two_turns ++ [PCall 0 (CeEst None false)]) ++
  [SServerRead (mkServerConfig false false "" false) 0 0 (at_once false)].
Definition sy1 : system := default sy0 (sy_run 2 id sy_opening sy0).

Lemma sy1_reachable : rtc (sy_step 2 id) sy0 sy1.
Proof. apply (sy_run_reachable 2 id sy_opening). vm_compute. reflexivity. Qed.

Lemma sy1_wire : wire (sy_up sy1) 0 = [est_json [kid 1; kid 2] (kid 1) "a:80"].
Proof. vm_compute. reflexivity. Qed.

Lemma messages_well_typed_witness :
  exists x, est_json [kid 1; kid 2] (kid 1) "a:80" = encode x /\ up_type (sy_client sy1) 0 x /\
    serve 0 (at_once false) 0 x (sy_server sy1) <> Panicked.
Proof.
  destruct (messages_well_typed 2 id sy0 sy1 0) as [H _];
    [lia|intros x y E; exact E|exact sy0_start|exact sy1_reachable|lia|].
  destruct (H (est_json [kid 1; kid 2] (kid 1) "a:80")) as (x & E & Hx & Hs).
  - rewrite sy1_wire. apply list_elem_of_singleton. reflexivity.
  - exists x. split; [exact E|]. split; [exact Hx|]. by apply (Hs 0%Z (at_once false)).
Defined.
