(* ===== verification/WitnessesEnd.v ===== *)
(** The theorem of EndToEnd.v, applied to a concrete run: one of two calls over two
    websockets, from its first step until the target has been written to. *)
From S2P Require Import Prelude GoChan Pipe RoundRobin PtrMap Queue QueueHub Link Starts Sends Striping Base64 Json.
From S2P Require Import Messages Hub Server Handshake Client Finish Wire Direction DirectionRun Session ClientProc ClientTable.
From S2P Require Import ClientSafe ClientRun Typing ClientTyped ServerTyped System StripingRun SessionRun.
From S2P Require Import LinkOwner Passage Follow ServerOwner QueueOwner ClientOwner CallFollow ClientFollow EndToEnd WitnessesSystem.

#[local] Existing Instance ksuid_N.
#[local] Existing Instance ksuid_text_N.

Definition end_ids : list KSUID := [kid 1; kid 2].
Definition end_addr : string := "a:80".

(** A test for [tk_fair], for the call with index 0. *)
Definition tk_fairb (ev : tk_ev) (T : tracked) : bool :=
  match ev with
  | TSys (SClient (PNew _ a)) => bool_decide (length (pr_calls (sy_client (tk_sys T))) <> 0) || String.eqb a end_addr
  | TSys (SClient (PCall 0 e)) =>
      match e with
      | CeNew id => bool_decide (end_ids !! length (tr_sorted (trans_at 0 (pr_client (sy_client (tk_sys T))))) = Some id)
      | CeSaid lost => negb lost
      | _ => true
      end
  | TSys (SClient (PCall _ (CeNew id))) => bool_decide (id ∉ end_ids)
  | TSys (SClient (PCopy _ b)) => forallb (fun b => negb (b_eof b)) (tk_in T) && written_b b
  | TSys (SServer _) => false
  | TSys (SServerRead _ _ _ we) => negb (Link.we_timer we)
  | TSys (SEst _ (EvDialed (inr c)) _) => Nat.eqb (length (tc_sent c)) 0 && negb (tc_eof c)
  | TLinkSend _ (Link.EvConn ConnPanic) => false
  | _ => true
  end.

Lemma tk_fairb_ok ev T : tk_fairb ev T = true -> tk_fair end_ids (kid 1) end_addr 0 ev T.
Proof.
  destruct ev as [[ev|k we|ev|config now k we|p ev lost|g ev|g we lost]|g ev]; simpl; try done.
  - destruct ev as [conn a|t' e|t' b|t' err|t' lost|i we read|p b|g e|g we lost|g e|i lost|i b]; simpl; try done.
    + intros [H%bool_decide_eq_true|H%String.eqb_eq]%orb_prop; [done|by intros _].
    + intros H. destruct t' as [|t']; (split; [|]); try done; intros _; destruct e; try done; simpl in *.
      * by apply bool_decide_eq_true in H.
      * by destruct lost.
      * by apply bool_decide_eq_true in H.
    + intros [H1 H2]%andb_prop _. split; [|by apply written_b_ok]. rewrite forallb_forall in H1.
      apply Forall_forall. intros x Hx%list_elem_of_In%H1. by destruct (b_eof x).
  - intros H v rest id b _ _ _. by destruct (Link.we_timer we).
  - intros H c ->. apply andb_prop in H as [H1 H2]. split; [by destruct (tc_sent c)|by destruct (tc_eof c)].
  - destruct ev as [| | |[]|]; done.
Qed.

Fixpoint all_fairb (evs : list tk_ev) (T : tracked) : bool :=
  match evs with
  | [] => true
  | ev :: evs' => tk_fairb ev T && match tk_exec 2 id 0 ev T with Some T1 => all_fairb evs' T1 | None => false end
  end.

Lemma all_fairb_ok evs T : all_fairb evs T = true -> tk_run_fair 2 id end_ids (kid 1) end_addr 0 evs T.
Proof.
  revert T. induction evs as [|ev evs IH]; intros T H; simpl in *; [done|]. apply andb_prop in H as [H1 H2].
  split; [by apply tk_fairb_ok|]. destruct (tk_exec 2 id 0 ev T); [by apply IH|done].
Qed.

Definition end_config : ServerConfig := mkServerConfig false false "" false.
Definition end_read (k : nat) : tk_ev := TSys (SServerRead end_config 0 k (at_once false)).

(** The client opens two calls and copies two bytes on the first; the server
    dials, and its [Send] writes the bytes. *)
Definition end_run : list tk_ev :=
  map (fun ev => TSys (SClient ev))
    (two_turns ++ [PNew (mkConn [] false) "b:80"] ++ map (PCall 1) (turn_events 0 (kid 3)) ++
     [PCall 0 (CeEst None false); PCall 0 CeStep; PCall 0 CeStep; PCopy 0 (mkBuffer false (bytes_of "ab"))] ++
     map (PQueueSend 0) [Queue.EvTau; Queue.EvTau; Queue.EvTau; Queue.EvTau; Queue.EvData] ++ [PQueueWrote 0 None false]) ++
  map end_read [0; 1; 0; 0] ++
  map (fun ev => TSys (SEst 0 ev false)) [EvChecked false; EvDialed (inr (mkConn [] false)); EvStep] ++
  map (TLinkSend 0) [Link.EvTau; Link.EvTau; Link.EvTau; Link.EvTau] ++
  [end_read 0; TLinkSend 0 Link.EvData; TLinkSend 0 (Link.EvConn ConnOk)].

Definition end_start : tracked := mkTracked sy0 ∅ [].
Definition end_final : tracked := default end_start (tk_run 2 id 0 end_run end_start).

Lemma end_start_ok : tk_start 2 id end_ids (kid 1) end_start.
Proof.
  assert (serverLinkHub (sy_server (tk_sys end_start)) = NewLinkHub) as E by (vm_compute; reflexivity).
  split; rewrite ?E.
  - exact sy0_start.
  - reflexivity.
  - split; [apply pm_wf_empty|by constructor| |by intros p l H].
    intros i p l H. by change (@None nat = Some p) in H.
  - intros i _. apply lookup_empty.
  - by intros p l H.
  - split; [by intros g p l H..|]. intros g [pc H]. by change (@None Link.send_pc = Some pc) in H.
  - intros p e He. vm_compute in He. discriminate.
Qed.

Lemma end_final_reachable : rtc (tk_step 2 id end_ids (kid 1) end_addr 0) end_start end_final.
Proof.
  apply (tk_run_reachable 2 id end_ids (kid 1) end_addr 0 end_run).
  - vm_compute. reflexivity.
  - apply all_fairb_ok. vm_compute. reflexivity.
Qed.

(** The target has got the two bytes. *)
Lemma upstream_end_to_end_witness :
  exists l cn, pm_heap (serverLinkHub (sy_server (tk_sys end_final))) !! 0 = Some l /\ l_conn l = Some cn /\
    tc_sent cn = bytes_of "ab" /\ tc_sent cn `prefix_of` data_of (tk_in end_final).
Proof.
  destruct (pm_heap (serverLinkHub (sy_server (tk_sys end_final))) !! 0) as [l|] eqn:El; [|by vm_compute in El].
  destruct (upstream_end_to_end 2 id end_ids (kid 1) end_addr 0) with (T0 := end_start) (T := end_final) (p := 0) (l := l)
    as [_ (cn & Hc & Hpre & _)].
  - apply NoDup_cons. split; [by intros ?%list_elem_of_singleton|apply NoDup_singleton].
  - reflexivity.
  - reflexivity.
  - intros x y E. exact E.
  - exact end_start_ok.
  - exact end_final_reachable.
  - assert (pm_go (serverLinkHub (sy_server (tk_sys end_final))) = [0]) as -> by (vm_compute; reflexivity).
    by apply list_elem_of_singleton.
  - exact El.
  - vm_compute in El. injection El as <-. reflexivity.
  - exists l, cn. split; [reflexivity|]. split; [exact Hc|]. split; [|exact Hpre].
    vm_compute in El. injection El as <-. vm_compute in Hc. injection Hc as <-. reflexivity.
Defined.
