(* ===== verification/WitnessesBack.v ===== *)
(** The theorem of EndToEndBack.v, applied to a concrete run: the target of one of
    two calls over two websockets answers before the call has set its connection. *)
From S2P Require Import Prelude GoChan Pipe RoundRobin PtrMap Queue QueueHub Link Starts Sends Striping Base64 Json.
From S2P Require Import Messages Hub Server Handshake Client Finish Wire Direction DirectionRun Session ClientProc ClientTable.
From S2P Require Import ClientSafe ClientRun Typing ClientTyped ServerTyped System StripingRun SessionRun.
From S2P Require Import LinkOwner Passage Follow ServerOwner QueueOwner ClientOwner CallFollow ClientFollow ServerQueues ServerAnswers.
From S2P Require Import ClientLinks ClientCollects EndToEnd EndToEndBack WitnessesSystem WitnessesEnd.

#[local] Existing Instance ksuid_N.
#[local] Existing Instance ksuid_text_N.

(** A test for [aw_fair], for the call with index 0 and goroutine 0. *)
Definition aw_fairb (ev : tk_ev) (A : answered) : bool :=
  match ev with
  | TSys (SClient (PNew c _)) => tk_fairb ev (aw_tk A) && Nat.eqb (length (tc_sent c)) 0 && negb (tc_eof c)
  | TSys (SClient (PLinkWrite _ _)) | TSys (SClient (PLinkSend _ (Link.EvConn ConnPanic))) => false
  | TSys (SClientRead k we) =>
      negb (Link.we_timer we) &&
      match cl_wsc (pr_client (sy_client (tk_sys (aw_tk A)))) !! k with Some w => negb (wc_cancelled w) | None => true end
  | TSys (SServer (XQueueWrite p b)) => forallb (fun b => negb (b_eof b)) (accepted (aw_log A) p) && written_b b
  | TSys (SQueueSend g _) => Nat.eqb g 0
  | TSys (SQueueWrote _ ws_err lost) => negb lost
  | _ => tk_fairb ev (aw_tk A)
  end.

Lemma aw_fairb_ok ev A : aw_fairb ev A = true -> aw_fair id end_ids (kid 1) end_addr 0 0 ev A.
Proof.
  destruct ev as [[ev|k we|ev|config now k we|p ev lost|g ev|g we lost]|g ev]; intros H;
    try (split; [by apply tk_fairb_ok|done]).
  - destruct ev as [c a|t' e|t' b|t' err|t' lost|i we read|p b|g e|g we lost|g e|i lost|i b]; try done;
      try (split; [by apply tk_fairb_ok|done]).
    + cbn [aw_fairb] in H. apply andb_prop in H as [[H1 H2]%andb_prop H3]. split; [by apply tk_fairb_ok|].
      intros _. split; [by destruct (tc_sent c)|by destruct (tc_eof c)].
    + split; [done|]. by destruct e as [| | |[]|].
  - simpl in H. apply andb_prop in H as [H1 H2]. split; [done|]. split.
    + intros w Hw. rewrite Hw in H2. by destruct (wc_cancelled w).
    + intros. by destruct (Link.we_timer we).
  - destruct ev as [| | |p b| | |]; try done. simpl in H. apply andb_prop in H as [H1 H2]. split; [done|]. intros q Hq Hm.
    split; [|by apply written_b_ok]. rewrite forallb_forall in H1. apply Forall_forall.
    intros x Hx%list_elem_of_In%H1. by destruct (b_eof x).
  - split; [done|]. simpl in H. apply Nat.eqb_eq in H as ->. by intros p q _ _ _ [].
  - split; [done|]. by destruct lost.
Qed.

Fixpoint all_awb (evs : list tk_ev) (A : answered) : bool :=
  match evs with
  | [] => true
  | ev :: evs' => aw_fairb ev A && match aw_exec 2 id 0 ev A with Some A1 => all_awb evs' A1 | None => false end
  end.

Lemma all_awb_ok evs A : all_awb evs A = true -> aw_run_fair 2 id end_ids (kid 1) end_addr 0 0 evs A.
Proof.
  revert A. induction evs as [|ev evs IH]; intros A H; simpl in *; [done|]. apply andb_prop in H as [H1 H2].
  split; [by apply aw_fairb_ok|]. destruct (aw_exec 2 id 0 ev A); [by apply IH|done].
Qed.

(** The client opens two calls; the server dials for the first, and its queue gets
    two bytes, which are at the client before the call sets its connection. *)
Definition back_run : list tk_ev :=
  map (fun ev => TSys (SClient ev))
    (two_turns ++ [PNew (mkConn [] false) "b:80"] ++ map (PCall 1) (turn_events 0 (kid 3)) ++
     [PCall 0 (CeEst None false)]) ++
  map end_read [0; 1; 0; 0] ++
  map (fun ev => TSys (SEst 0 ev false)) [EvChecked false; EvDialed (inr (mkConn [] false)); EvStep; EvStep; EvStep] ++
  [TSys (SServer (XQueueWrite 0 (mkBuffer false (bytes_of "ab"))))] ++
  map (fun ev => TSys (SQueueSend 0 ev)) [Queue.EvTau; Queue.EvTau; Queue.EvTau; Queue.EvTau; Queue.EvData] ++
  [TSys (SQueueWrote 0 None false); TSys (SClientRead 0 (at_once false))] ++
  map (fun ev => TSys (SClient ev))
    (map (PCall 0) [CeStep; CeStep; CeStep; CeStep] ++
     map (PLinkSend 0) [Link.EvTau; Link.EvTau; Link.EvTau; Link.EvTau; Link.EvData; Link.EvConn ConnOk]).

Definition back_start : answered := mkAnswered end_start ∅.
Definition back_final : answered := default back_start (aw_run 2 id 0 back_run back_start).

Lemma back_start_ok : aw_start 2 id end_ids (kid 1) back_start.
Proof.
  assert (serverQueueHub (sy_server (tk_sys (aw_tk back_start))) = NewQueueHub) as E by (vm_compute; reflexivity).
  split; rewrite ?E.
  - exact end_start_ok.
  - reflexivity.
  - split; [apply pm_wf_empty|by constructor| |by intros p q i w H].
    intros i p q H. by change (@None nat = Some p) in H.
  - by intros p q H.
  - intros g [pc H]. by change (@None (Queue.send_pc webSocketWriter) = Some pc) in H.
  - intros g pc w H. by change (@None (Queue.send_pc webSocketWriter) = Some pc) in H.
Qed.

Lemma back_final_reachable : rtc (aw_step 2 id end_ids (kid 1) end_addr 0 0) back_start back_final.
Proof.
  apply (aw_run_reachable 2 id end_ids (kid 1) end_addr 0 0 back_run).
  - vm_compute. reflexivity.
  - apply all_awb_ok. vm_compute. reflexivity.
Qed.

(** The SOCKS client has got the two bytes. *)
Lemma downstream_end_to_end_witness :
  exists l cn inp, pm_heap (clientLinkHub (pr_client (sy_client (tk_sys (aw_tk back_final))))) !! 0 = Some l /\ l_conn l = Some cn /\
    tc_sent cn = bytes_of "ab" /\ answered_with (kid 1) back_final inp /\ tc_sent cn `prefix_of` data_of inp.
Proof.
  destruct (pm_heap (clientLinkHub (pr_client (sy_client (tk_sys (aw_tk back_final))))) !! 0) as [l|] eqn:El; [|by vm_compute in El].
  destruct (downstream_end_to_end 2 id end_ids (kid 1) end_addr 0 0) with (A0 := back_start) (A := back_final) (p := 0) (l := l)
    as [_ (cn & inp & Hc & Hin & Hpre & _)].
  - apply NoDup_cons. split; [by intros ?%list_elem_of_singleton|apply NoDup_singleton].
  - reflexivity.
  - reflexivity.
  - intros x y E. exact E.
  - exact back_start_ok.
  - exact back_final_reachable.
  - assert (pm_go (clientLinkHub (pr_client (sy_client (tk_sys (aw_tk back_final))))) = [0]) as -> by (vm_compute; reflexivity).
    by apply list_elem_of_singleton.
  - exact El.
  - vm_compute in El. injection El as <-. reflexivity.
  - exists l, cn, inp. split; [reflexivity|]. split; [exact Hc|]. split; [|split; [exact Hin|exact Hpre]].
    vm_compute in El. injection El as <-. vm_compute in Hc. injection Hc as <-. reflexivity.
Defined.
